(* ===== verification/_CoqProject ===== *)
-Q . S2P
Prelude.v
Types.v
GoStrings.v
Membership.v
Node.v
NodeInv.v
Getters.v
Election.v
Heartbeat.v
Proposal.v
Timers.v
NodeStep.v
NodeFrame.v
Cluster.v
RaftSpec.v
RaftCommit.v
Replication.v
FullLog.v
Raft.v
Applying.v
ApplyLoop.v
Rounds.v
Progress.v
Restart.v
RaftSim.v
RaftFollow.v
RaftElect.v
RaftExec.v
ElectionRun.v
JsonString.v
Json.v
JsonCodec.v
MembershipCodec.v
Bolt.v
KVCommand.v
KVStateMachine.v
BoltStore.v
KVRun.v
HttpLib.v
Http.v
HttpRun.v
HttpServe.v
HttpDeadline.v
Metrics.v
Main.v
Grpc.v
GrpcDial.v
Process.v
Instances.v
Scenario.v
RaftRun.v
ElectionTheorems.v
RaftTheorems.v
LogTheorems.v
StoreTheorems.v
RpcTheorems.v
TimerTheorems.v
HttpTheorems.v
MainTheorems.v
Races.v
Faults.v
