(* ===== verification/Prelude.v ===== *)
(** * RV-Key-Value: a Raft key-value store, verified

    The program is a replicated key-value store in Go: a Raft consensus node
    (src/raft), its stable store and the key-value state machine on bbolt
    (src/store), the gRPC transport between nodes (src/raftgrpc, src/proto), an
    HTTP API (src/client), metrics (src/observability) and the process that wires
    them (src/cmd/node). A node is one struct behind one mutex. Goroutines (the
    election timer, heartbeats, proposals of HTTP requests, the apply loop, the
    RPC handlers) call its methods; each method is one critical section, and the
    long-running ones are sequences of critical sections with channel receives in
    between.

    ** How the code is modelled

    Every method of src/raft/node.go is one total function on the record
    [RaftNode] (Node.v). [uint64] is [Z] with every addition and subtraction
    wrapped ([uadd], [usub]). Where Go could panic (a slice index, a write to a
    nil map) the function returns in [go]; errors are values. StartElection,
    replicateOnce, ProposeWithRetryInterval, ApplyCommitted, the loops around them
    and the HTTP handlers release the lock between their critical sections, so they
    are machines: a type of program points and one function per critical section and
    per receive; a machine that calls another one has its program points inside its
    own. Elections, rounds and requests also have their undisturbed runs. Code that is
    not in the repository is a type class or a parameter: the database (Bolt.v), the
    order of [range] over a map (KVStateMachine.v), a connection and its dialer
    (Grpc.v, GrpcDial.v), random numbers (Timers.v), URLs (Http.v). encoding/json,
    base64 and the strings functions belong to Go and are modelled byte for byte, and
    of net/http the response writer, the multiplexer and the body readers (HttpLib.v).
    Time is the environment: which case of a select is taken is an event. Slices that
    the code shares are deep copies in the source, so lists model them.

    ** Files

    - Prelude.v: machine integers, panics, slices, nilable maps, the tactics
      [breflect], [split_ifs], [ulia], the databases [go_db] and [go_rw].
    - Types.v (src/raft/types.go): data, errors, the interfaces [StableStore]
      and [StateMachine] with their laws, the two sections of Apply
      ([ApplySections]), log freshness. GoStrings.v: TrimSpace,
      prefixes.
    - Membership.v (src/raft/membership.go): membership commands, over the
      interface [MembershipJSON]; MembershipCodec.v implements it.
    - Node.v (src/raft/node.go): the state and every locked operation.
      NodeInv.v: the invariant [node_wf] (contiguous indices, positions in order,
      progress maps that track exactly the peers and only on a leader), closed
      forms of the log accessors under it, commit advancement and the append loop.
      Getters.v: the methods that only read.
    - Election.v, Heartbeat.v, Proposal.v (src/raft/election.go, heartbeat.go,
      proposal.go): the machines. Timers.v (src/raft/election_timer.go, timing.go,
      heartbeat.go): the timing constants, RunElectionTimer and RunHeartbeatLoop.
    - NodeStep.v: every writing operation as one step [exec], with what its
      callers owe it ([op_ok]); then no step panics and every step keeps the
      invariant. NodeFrame.v: what a step may change of term, vote and role.
    - Cluster.v: nodes side by side with election threads, votes in flight, lost
      and late answers, failed writes and restarts ([cluster_step]); the invariant
      behind election safety. ElectionRun.v: one election from start to end.
    - RaftSpec.v: replicated logs as a specification [spec_step] over whole logs, with
      the history of leaders, votes and acknowledgements; its invariant. RaftCommit.v:
      what follows: a committed entry is in the log of every later leader, and
      certified prefixes agree. FullLog.v: the whole log of a node that has taken
      snapshots, and what the operations do to it. Raft.v: the cluster of Cluster.v
      with append requests and answers in flight and the conditions of the proof in its
      steps ([raft_step]), and the relation [rel] to the specification. RaftSim.v
      (leaders), RaftFollow.v (followers, voters, restarts), RaftElect.v (elections): the
      simulation. RaftExec.v: the same cluster with nothing but the code in its steps
      ([net_step]), the rules that make an execution [orderly], and that orderly steps
      are steps of Raft.v.
    - Replication.v: what an append request does to a follower's log, the request
      a leader builds, and the two together. Progress.v: exchanges of a leader with a
      follower that lags behind.
      Applying.v: the apply loop against a reference; ApplyLoop.v: the same loop by
      critical sections. Rounds.v: what rounds and proposals do to a node when nobody
      else runs. Restart.v: what a restart finds.
    - JsonString.v, Json.v, JsonCodec.v: Go's encoding/json (strings with UTF-8
      and escapes, numbers, base64, the parser with its nesting limit, struct
      decoding), with the round trip [parse_print].
    - Bolt.v: bbolt's interface. BoltStore.v (src/store/bolt_store.go): the
      stable store as an instance of [StableStore] with its laws. KVCommand.v,
      KVStateMachine.v (src/store/kv_command.go, kv_state_machine.go): commands,
      the map in memory and on disk, snapshots. KVRun.v: the machine driven by
      log entries.
    - HttpLib.v (net/http), Http.v (src/client/http.go): the API, its routes, every
      handler as one machine [handlerStep] and [handlerRecv] over node, map and
      response, forwarding included. HttpRun.v: a handler among other goroutines.
      HttpServe.v: a handler with nobody else running, and what it has done when it
      answers. HttpDeadline.v: what can happen to a handler after its deadline.
    - Metrics.v (src/observability/metrics.go, logNodeState): the collectors, the
      instrumented handler and append client.
    - Main.v (src/cmd/node/main.go): the command line, the routes, the apply loop with
      its snapshots as a machine, the part of the start that builds node and state
      machine from their databases, and what [run] returns. Process.v: [run] as a
      whole, from the flags over the paths of its databases to its deferred calls, as
      a computation over the answers of the system with a trace of its calls.
    - Grpc.v (src/raftgrpc, src/proto/raft.pb.go): messages, conversions, server,
      peer client. GrpcDial.v (src/raftgrpc/client.go): opening and closing the
      connections, all of them or none.
    - Instances.v: a database in memory that satisfies the laws, so that every
      theorem applies to concrete nodes. Scenario.v: an interpreter of cluster
      schedules and the concrete nodes the witnesses use. RaftRun.v: the same for
      RaftExec.v, with an execution over two leaders and a restart.
    - ElectionTheorems.v, RaftTheorems.v, LogTheorems.v, StoreTheorems.v,
      RpcTheorems.v, TimerTheorems.v, HttpTheorems.v, MainTheorems.v: the properties,
      with their witnesses. Races.v, Faults.v: concrete executions in which the code
      does not keep what it promises.

    ** What the theorems show

    Elections (C1, C7, C10): at most one leader per term over all interleavings of a
    cluster of fixed membership, with crashes and failed writes; in such a cluster a node
    gives one vote per term, also across restarts; an election returns once its peers
    have answered. The election timer (C26, C27): what its loop does, as a grammar of its
    actions, and its timeout leaves room for three heartbeats.

    The replicated log (C2 to C6, C18), for orderly executions (see the assumptions
    below): every one is an execution of the specification of RaftSpec.v; what was
    committed once is what every node commits at that index at any later moment; every
    later leader has it; logs that agree on a term at an index agree up to it; state
    machines that apply as many entries are equal; and no section of the code panics.

    One node's log (C11, C12, C14, C15): the invariant and freedom from panics for
    operations whose callers keep [op_ok]; when an append request is accepted and the
    exact log after it; the commit rule; the rounds between a leader and a lagging
    follower, run by the code of both sides, end with equal logs when their logs agree at
    a position the leader has not compacted.

    State (C16, C17, C19 to C22, C28): committed entries are applied in order and once;
    the bbolt store meets its interface, over a reopened file too; the key-value machine
    refines a map, in memory and on disk, on success and on error; replaying is harmless;
    snapshots and commands survive encoding, and neither kind of command is taken for the
    other; a restart after an undisturbed round of the apply loop that stored a snapshot
    finds the same map.

    The client API (C8, C9, C13, C24, C25): a GET that the leader answers has a no-op
    of its own term committed and everything before it applied; a GET returns the value
    of the PUT before it, for keys that are UTF-8; a handler sends one status, whatever
    else runs; once the context of its proposal is over it answers after a bounded number
    of moves, whatever its selects take; a follower forwards what it is asked and relays
    status, headers and body. C8, C9 and C24 are about a request that is served with
    nobody else running on the node, with any answers of the peers.

    Transport (C23): what a caller learns from a call over a connection that may fail at
    any point, and what the call did to the peer. The process (C29): what run acquires it
    releases, and what it leaves running when a server or a loop fails. Divergences (C30
    to C40): concrete executions in which promises of the code or its documentation fail;
    C35 shows two leaders of one term after a peer was removed and added again.

    ** Bounds and fuel

    The commit loop runs [advanceFuel] steps, the distance from the last index to
    the commit index, and more fuel changes nothing ([advanceCommitLoop_fuel]);
    the apply loop runs [applyFuel], one more than the entries past the last
    applied index, and [ApplyCommittedLoop_spec] shows that it returns within it;
    an election of [electionFuel] steps ends when its events answer every peer
    ([runElection_ends]); a round of main's apply loop ends within
    [round_fuel] critical sections, four for each entry to apply and four more
    ([applyRound_spec]); a request that is past its deadline is answered within [rank]
    moves, a constant, four per entry to apply and four per outstanding peer, and nine
    for every retry timer it takes instead of the end of its context
    ([overdue_run_spec]); a decimal uint64 has at most 20 digits; the JSON parser
    spends at most two units of fuel per byte. Indices stay below 2^64 - 1
    ([log_wf]).

    ** Assumptions of the cluster theorems

    Membership is fixed and member names are distinct and not empty. A term does
    not wrap around. A store keeps what it acknowledged and is unchanged by a
    failed write ([StableStoreLaws]). For C11 the conditions of [op_ok] state
    what the callers owe: append requests that agree with the committed prefix and
    progress reports within the log. The code does not check them; in orderly executions
    they are proved (C18).
    C2 to C6 and C18 are about the orderly executions of RaftExec.v, those of the code
    in which: every write to the stable store succeeds ([writes_succeed]; after a
    failed one the code goes on with what it has in memory, C39);
    membership does not change ([fixed_membership]); a proposal is appended while its node
    still leads ([proposed_by_leader]; the code checks the role in an earlier section,
    C30); an answer is recorded in the term of its request ([recorded_in_term]; the code
    records answers of an earlier leadership, C32); and terms and indices do not overflow
    ([no_overflow]). Requests and answers may be lost, repeated, delayed and reordered,
    nodes crash and restart, elections overlap. C6 applies entries by one caller at a
    time (C33). Pre-votes and their answers are arbitrary, since they change no log.

    ** Not modelled

    Generated protobuf reflection, the log of the process and the texts of its messages
    belong to libraries and stay outside; files, listeners, servers and signals are the
    parameter of Process.v, and the goroutines that [run] starts are the machines of the
    other files, interleaved where a theorem is about that. So do the headers that
    net/http adds to a response on its own, and the cleaning of paths by its multiplexer
    (requests carry clean paths). Changes of membership while a cluster runs are modelled
    as operations of one node (C11, C35, C36), not in the cluster theorems: the code
    applies them one at a time without a joint configuration, and C35 shows
    that election safety over them does not hold. *)
From stdpp Require Export prelude gmap strings.
From Stdlib Require Export ZArith Lia Strings.Byte.

#[global] Open Scope Z_scope.

(** ** Machine integers

    Go's [uint64] is [Z] with wrap-around written out: every addition and
    subtraction of the source goes through [uadd] and [usub]. *)

Definition two64 : Z := 18446744073709551616.

Definition u64 (z : Z) : Z := z mod two64.

Definition uadd (a b : Z) : Z := u64 (a + b).

Definition usub (a b : Z) : Z := u64 (a - b).

Definition in_u64 (z : Z) : Prop := 0 ≤ z < two64.

Declare Scope go_scope.
Delimit Scope go_scope with go.
Notation "a ⊕ b" := (uadd a b) (at level 50, left associativity) : go_scope.
Notation "a ⊖ b" := (usub a b) (at level 50, left associativity) : go_scope.
#[global] Open Scope go_scope.

(** [uint64(len(s))] *)
Definition zlen {A} (l : list A) : Z := Z.of_nat (length l).

(** ** Panics

    A Go expression either yields a value or panics (slice index out of range,
    assignment to a nil map). Errors that Go returns as values stay values. *)

Inductive go (A : Type) : Type :=
| Ret (a : A)
| Panic.

Arguments Ret {A} a.
Arguments Panic {A}.

#[export] Instance go_ret : MRet go := fun A a => Ret a.

#[export] Instance go_bind : MBind go :=
  fun A B f m => match m with Ret a => f a | Panic => Panic end.

(** [l[i]] *)
Definition slice_at {A} (l : list A) (i : Z) : go A :=
  if i <? 0 then Panic
  else match l !! Z.to_nat i with Some x => Ret x | None => Panic end.

(** [l[i:]] *)
Definition slice_from {A} (l : list A) (i : Z) : go (list A) :=
  if (i <? 0) || (zlen l <? i) then Panic else Ret (drop (Z.to_nat i) l).

(** [l[:i]], for [i] at most the length (the source never reslices into the
    spare capacity: it has indexed [l[i]] just before) *)
Definition slice_to {A} (l : list A) (i : Z) : go (list A) :=
  if (i <? 0) || (zlen l <? i) then Panic else Ret (take (Z.to_nat i) l).

(** A Go map that may be nil. Reading a nil map finds nothing; writing panics;
    deleting from it does nothing. *)
Abbreviation gomap V := (option (gmap string V)).

Definition map_get {V} (m : gomap V) (k : string) : option V :=
  match m with Some m => m !! k | None => None end.

Definition map_set {V} (m : gomap V) (k : string) (v : V) : go (gomap V) :=
  match m with Some m => Ret (Some (<[k := v]> m)) | None => Panic end.

Definition map_delete {V} (m : gomap V) (k : string) : gomap V :=
  match m with Some m => Some (delete k m) | None => None end.

Abbreviation bytes := (list byte).

#[export] Instance byte_eq_decision : EqDecision byte := Byte.byte_eq_dec.

(** [append([]byte(nil), b...)] *)
Definition clone_bytes (b : bytes) : bytes := [] ++ b.

(** ** Shared lemmas *)

Lemma u64_small z : 0 ≤ z < two64 → u64 z = z.
Proof. apply Z.mod_small. Qed.

Lemma uadd_small a b : 0 ≤ a + b < two64 → a ⊕ b = a + b.
Proof. apply u64_small. Qed.

Lemma usub_small a b : 0 ≤ a - b < two64 → a ⊖ b = a - b.
Proof. apply u64_small. Qed.

Lemma in_u64_uadd a b : in_u64 (a ⊕ b).
Proof. apply Z.mod_pos_bound. unfold two64; lia. Qed.

Lemma in_u64_usub a b : in_u64 (a ⊖ b).
Proof. apply Z.mod_pos_bound. unfold two64; lia. Qed.

Lemma zlen_nil {A} : zlen ([] : list A) = 0.
Proof. done. Qed.

Lemma zlen_cons {A} (x : A) l : zlen (x :: l) = zlen l + 1.
Proof. unfold zlen; simpl; lia. Qed.

Lemma zlen_app {A} (l k : list A) : zlen (l ++ k) = zlen l + zlen k.
Proof. unfold zlen. rewrite length_app. lia. Qed.

Lemma zlen_nonneg {A} (l : list A) : 0 ≤ zlen l.
Proof. unfold zlen; lia. Qed.

Lemma slice_at_Ret {A} (l : list A) i x :
  0 ≤ i → l !! Z.to_nat i = Some x → slice_at l i = Ret x.
Proof.
  intros Hi Hx. unfold slice_at.
  destruct (Z.ltb_spec i 0); [lia|]. by rewrite Hx.
Qed.

Lemma slice_from_Ret {A} (l : list A) i :
  0 ≤ i ≤ zlen l → slice_from l i = Ret (drop (Z.to_nat i) l).
Proof.
  intros Hi. unfold slice_from.
  destruct (Z.ltb_spec i 0), (Z.ltb_spec (zlen l) i); simpl; try lia; done.
Qed.

Lemma slice_to_Ret {A} (l : list A) i :
  0 ≤ i ≤ zlen l → slice_to l i = Ret (take (Z.to_nat i) l).
Proof.
  intros Hi. unfold slice_to.
  destruct (Z.ltb_spec i 0), (Z.ltb_spec (zlen l) i); simpl; try lia; done.
Qed.

Lemma clone_bytes_id b : clone_bytes b = b.
Proof. done. Qed.

Lemma go_bind_Ret {A B} (a : A) (f : A → go B) : (Ret a ≫= f) = f a.
Proof. done. Qed.

Lemma go_bind_inv {A B} (m : go A) (f : A → go B) b :
  (m ≫= f) = Ret b → ∃ a, m = Ret a ∧ f a = Ret b.
Proof. destruct m as [a|]; [|done]. intros H. by exists a. Qed.

(** ** Automation *)

Create Rewrite HintDb go_rw.
#[export] Hint Rewrite @zlen_nil @zlen_cons @zlen_app clone_bytes_id : go_rw.

Create HintDb go_db.
#[export] Hint Resolve in_u64_uadd in_u64_usub : go_db.
#[export] Hint Resolve zlen_nonneg : go_db.

(** Turn the boolean comparisons of the source into propositions. *)
Ltac breflect :=
  repeat match goal with
  | H : (_ <? _) = true |- _ => apply Z.ltb_lt in H
  | H : (_ <? _) = false |- _ => apply Z.ltb_ge in H
  | H : (_ <=? _) = true |- _ => apply Z.leb_le in H
  | H : (_ <=? _) = false |- _ => apply Z.leb_gt in H
  | H : (_ =? _) = true |- _ => apply Z.eqb_eq in H
  | H : (_ =? _) = false |- _ => apply Z.eqb_neq in H
  | H : negb _ = true |- _ => apply negb_true_iff in H
  | H : negb _ = false |- _ => apply negb_false_iff in H
  | H : (_ && _) = true |- _ => apply andb_true_iff in H as [? ?]
  | H : (_ || _) = false |- _ => apply orb_false_iff in H as [? ?]
  | H : bool_decide _ = true |- _ => apply bool_decide_eq_true in H
  | H : bool_decide _ = false |- _ => apply bool_decide_eq_false in H
  end.

(** Split every conditional of the goal, with the condition reflected. *)
Ltac split_ifs :=
  repeat match goal with
  | |- context [if ?b then _ else _] =>
      let E := fresh "E" in destruct b eqn:E; breflect; simpl
  end.

(** Machine arithmetic: unfold the bounds and call [lia]. *)
Ltac ulia := unfold in_u64, two64 in *; lia.

(** Remove wrap-around where the operands are in range. *)
Ltac unwrap :=
  repeat match goal with
  | |- context [uadd ?a ?b] => rewrite (uadd_small a b) by ulia
  | |- context [usub ?a ?b] => rewrite (usub_small a b) by ulia
  end.

(** Split a [match] or [if] in hypothesis [H]. *)
Ltac split_in H :=
  repeat match type of H with
  | context [if ?b then _ else _] =>
      let E := fresh "E" in destruct b eqn:E; breflect; simpl in H
  end.
