(* ===== verification/Types.v ===== *)
(** * Types: the data of package raft (src/raft/types.go)

    Roles, log entries, persistent state, the RPC messages, the error values,
    the interfaces [StableStore] and [StateMachine] as type classes, and the log
    freshness comparison used by votes. *)
From S2P Require Import Prelude.

(** ** Roles (type State, Follower, Candidate, Leader) *)

Inductive State := Follower | Candidate | Leader.

#[export] Instance State_eq_dec : EqDecision State.
Proof. solve_decision. Defined.

(** ** Log entries and messages *)

Record LogEntry := mkEntry {
  le_Term : Z;
  le_Index : Z;
  le_Command : bytes;
}.

#[export] Instance LogEntry_eq_dec : EqDecision LogEntry.
Proof. solve_decision. Defined.

(** [ps_Peers] and [ps_SelfMember] are nilable in the source ([[]string],
    [*bool]) and the code tests them against nil, so they are options. *)
Record PersistentState := mkPS {
  ps_CurrentTerm : Z;
  ps_VotedFor : string;
  ps_Peers : option (list string);
  ps_SelfMember : option bool;
  ps_LastIncludedIndex : Z;
  ps_LastIncludedTerm : Z;
  ps_Snapshot : bytes;
  ps_Log : list LogEntry;
}.

(** The zero value [PersistentState{}]. *)
Definition zeroPS : PersistentState := mkPS 0 "" None None 0 0 [] [].

Record RequestVoteRequest := mkRVQ {
  rvq_Term : Z;
  rvq_CandidateID : string;
  rvq_LastLogIndex : Z;
  rvq_LastLogTerm : Z;
}.

Record RequestVoteResponse := mkRVR {
  rvr_Term : Z;
  rvr_VoteGranted : bool;
}.

Record PreVoteRequest := mkPVQ {
  pvq_Term : Z;
  pvq_CandidateID : string;
  pvq_LastLogIndex : Z;
  pvq_LastLogTerm : Z;
}.

Record PreVoteResponse := mkPVR {
  pvr_Term : Z;
  pvr_VoteGranted : bool;
}.

Record AppendEntriesRequest := mkAEQ {
  aeq_Term : Z;
  aeq_LeaderID : string;
  aeq_PrevLogIndex : Z;
  aeq_PrevLogTerm : Z;
  aeq_Entries : list LogEntry;
  aeq_LeaderCommit : Z;
}.

Record AppendEntriesResponse := mkAER {
  aer_Term : Z;
  aer_Success : bool;
}.

#[export] Instance RequestVoteRequest_eq_dec : EqDecision RequestVoteRequest.
Proof. solve_decision. Defined.

#[export] Instance RequestVoteResponse_eq_dec : EqDecision RequestVoteResponse.
Proof. solve_decision. Defined.

(** ** Errors

    The package's own error types, the two context errors, [errors.New] messages,
    [fmt.Errorf] messages kept as the format with its arguments, wrapped errors
    ([%w]), and errors that come from a library or a peer. *)

Inductive ContextError := Canceled | DeadlineExceeded.

Inductive GoError :=
| ErrLogInconsistent (PrevLogIndex PrevLogTerm : Z)
| ErrUnknownPeer (PeerID : string)
| ErrMembershipChangePending
| ErrNotLeader (role : State)
| ErrContext (c : ContextError)
| ErrMessage (msg : string)
| ErrFormat (format : string) (args : list string)
| ErrWrapped (msg : string) (e : GoError)
| ErrExternal (msg : string).

(** A Go [error] result: [None] is nil. *)
Abbreviation error := (option GoError).

(** ** Interfaces *)

(** type StableStore: [Save] may change the store and returns an error,
    [Load] reads. *)
Class StableStore (St : Type) := {
  Save : PersistentState → St → St * error;
  Load : St → PersistentState + GoError;
}.

(** What the raft package relies on: a [Save] that returns nil is what the next
    [Load] reads, and a [Save] that fails leaves what was stored before.
    [storable] are the states an implementation can represent (a JSON store, for
    example, cannot represent strings that are not UTF-8). *)
Class StableStoreLaws (St : Type) `{StableStore St}
    (storable : PersistentState → Prop) : Prop := {
  Save_ok : ∀ ps s s', storable ps → Save ps s = (s', None) → Load s' = inl ps;
  Save_err : ∀ ps s s' e, Save ps s = (s', Some e) → Load s' = Load s;
}.

(** type StateMachine *)
Class StateMachine (SM : Type) := {
  Apply : LogEntry → SM → SM * error;
}.

(** A state machine locks by itself, so callers that run beside each other see a call
    of Apply as two sections: up to what it stores outside its memory, which may fail,
    and the update of its memory. *)
Class ApplySections (SM : Type) `{!StateMachine SM} := {
  ApplyStored : LogEntry → SM → SM * error;
  ApplyMemory : LogEntry → SM → SM;
  Apply_sections : ∀ entry sm, Apply entry sm =
    let '(sm, err) := ApplyStored entry sm in
    match err with Some e => (sm, Some e) | None => (ApplyMemory entry sm, None) end;
}.

(** type SnapshotStateMachine *)
Class SnapshotStateMachine (SM : Type) := {
  sm_apply :: StateMachine SM;
  Snapshot : SM → bytes + GoError;
  RestoreSnapshot : bytes → SM → SM * error;
}.

(** ** Log freshness *)

Definition IsLogAtLeastUpToDate
    (candidateLastIndex candidateLastTerm localLastIndex localLastTerm : Z) : bool :=
  if negb (candidateLastTerm =? localLastTerm)
  then localLastTerm <? candidateLastTerm
  else localLastIndex <=? candidateLastIndex.

(** The order the comparison decides: lexicographic on (term, index). *)
Definition log_le (i1 t1 i2 t2 : Z) : Prop := t1 < t2 ∨ (t1 = t2 ∧ i1 ≤ i2).

Lemma IsLogAtLeastUpToDate_spec ci ct li lt :
  IsLogAtLeastUpToDate ci ct li lt = true ↔ log_le li lt ci ct.
Proof.
  unfold IsLogAtLeastUpToDate, log_le.
  destruct (Z.eqb_spec ct lt); simpl; rewrite ?Z.ltb_lt, ?Z.leb_le; lia.
Qed.
