(* ===== verification/GoStrings.v ===== *)
(** * GoStrings: what the program uses of Go's package strings

    A Go string is a byte sequence. [TrimSpace] removes leading and trailing
    Unicode white space: the six ASCII characters and the UTF-8 encodings of
    U+0085, U+00A0, U+1680, U+2000 to U+200A, U+2028, U+2029, U+202F, U+205F and
    U+3000 (unicode.IsSpace). *)
From S2P Require Import Prelude.

Definition bytes_of_string (s : string) : bytes := String.list_byte_of_string s.

Definition string_of_bytes (b : bytes) : string := String.string_of_list_byte b.

Definition code (b : byte) : Z := Z.of_N (Byte.to_N b).

Definition is_space1 (b : byte) : bool :=
  let c := code b in (c =? 32) || ((9 <=? c) && (c <=? 13)).

Definition is_space2 (b1 b2 : byte) : bool :=
  (code b1 =? 0xC2) && ((code b2 =? 0x85) || (code b2 =? 0xA0)).

Definition is_space3 (b1 b2 b3 : byte) : bool :=
  let '(c1, c2, c3) := (code b1, code b2, code b3) in
  ((c1 =? 0xE1) && (c2 =? 0x9A) && (c3 =? 0x80))
  || ((c1 =? 0xE2) && (c2 =? 0x80)
      && (((0x80 <=? c3) && (c3 <=? 0x8A)) || (c3 =? 0xA8) || (c3 =? 0xA9) || (c3 =? 0xAF)))
  || ((c1 =? 0xE2) && (c2 =? 0x81) && (c3 =? 0x9F))
  || ((c1 =? 0xE3) && (c2 =? 0x80) && (c3 =? 0x80)).

Fixpoint trim_left (l : bytes) : bytes :=
  match l with
  | [] => []
  | b1 :: l1 =>
      if is_space1 b1 then trim_left l1 else
      match l1 with
      | [] => l
      | b2 :: l2 =>
          if is_space2 b1 b2 then trim_left l2 else
          match l2 with
          | [] => l
          | b3 :: l3 => if is_space3 b1 b2 b3 then trim_left l3 else l
          end
      end
  end.

(** The same on the reversed sequence: the last byte comes first. *)
Fixpoint trim_right_rev (l : bytes) : bytes :=
  match l with
  | [] => []
  | b1 :: l1 =>
      if is_space1 b1 then trim_right_rev l1 else
      match l1 with
      | [] => l
      | b2 :: l2 =>
          if is_space2 b2 b1 then trim_right_rev l2 else
          match l2 with
          | [] => l
          | b3 :: l3 => if is_space3 b3 b2 b1 then trim_right_rev l3 else l
          end
      end
  end.

Definition TrimSpace (s : string) : string :=
  string_of_bytes (rev (trim_right_rev (rev (trim_left (bytes_of_string s))))).

Lemma bytes_of_string_of_bytes b : bytes_of_string (string_of_bytes b) = b.
Proof. apply String.list_byte_of_string_of_list_byte. Qed.

Lemma bytes_of_string_inj s1 s2 : bytes_of_string s1 = bytes_of_string s2 → s1 = s2.
Proof.
  intros H. rewrite <-(String.string_of_list_byte_of_string s1).
  rewrite <-(String.string_of_list_byte_of_string s2). by f_equal.
Qed.

Example TrimSpace_ascii : TrimSpace "  n1 	" = "n1".
Proof. reflexivity. Qed.

Example TrimSpace_nbsp :
  TrimSpace (string_of_bytes [xc2; xa0; x6e; x31; xe3; x80; x80]) = "n1".
Proof. reflexivity. Qed.

(** ** Prefixes *)

(** What follows the prefix, if [s] has it. *)
Fixpoint after_prefix (prefix s : bytes) : option bytes :=
  match prefix, s with
  | [], _ => Some s
  | b :: prefix, c :: s => if bool_decide (b = c) then after_prefix prefix s else None
  | _ :: _, [] => None
  end.

(** [strings.HasPrefix], [strings.TrimPrefix] and [strings.Contains] for a
    substring of one byte *)
Definition HasPrefix (s prefix : string) : bool :=
  bool_decide (is_Some (after_prefix (bytes_of_string prefix) (bytes_of_string s))).

Definition TrimPrefix (s prefix : string) : string :=
  match after_prefix (bytes_of_string prefix) (bytes_of_string s) with
  | Some r => string_of_bytes r
  | None => s
  end.

Definition ContainsByte (s : string) (b : byte) : bool :=
  existsb (fun c => bool_decide (c = b)) (bytes_of_string s).

Lemma after_prefix_app prefix s : after_prefix prefix (prefix ++ s) = Some s.
Proof.
  induction prefix as [|b prefix IH]; [done|]. simpl. by rewrite bool_decide_eq_true_2.
Qed.

Lemma bytes_of_string_app s t : bytes_of_string (s +:+ t) = bytes_of_string s ++ bytes_of_string t.
Proof.
  unfold bytes_of_string. induction s as [|a s IH]; [done|].
  change (String a s +:+ t) with (String a (s +:+ t)).
  change (String.list_byte_of_string (String a (s +:+ t)))
    with (Ascii.byte_of_ascii a :: String.list_byte_of_string (s +:+ t)).
  by rewrite IH.
Qed.

(** A path under a prefix gives back what was put under it. *)
Lemma TrimPrefix_app prefix s : TrimPrefix (prefix +:+ s) prefix = s.
Proof.
  unfold TrimPrefix. rewrite bytes_of_string_app, after_prefix_app.
  unfold string_of_bytes, bytes_of_string. apply String.string_of_list_byte_of_string.
Qed.
