(* ===== verification/Membership.v ===== *)
(** * Membership: membership changes as log commands (src/raft/membership.go)

    The JSON library is reached through the class [MembershipJSON]: the two
    functions [json.Marshal] and [json.Unmarshal] at type [membershipCommand]. *)
From S2P Require Import Prelude GoStrings Types.

Definition membershipCommandOperation : string := "raft_membership".

(** type MembershipChangeType is a string; decoded data may hold any. *)
Abbreviation MembershipChangeType := string (only parsing).

Definition MembershipAddPeer : MembershipChangeType := "add_peer".

Definition MembershipRemovePeer : MembershipChangeType := "remove_peer".

Record MembershipChange := mkChange {
  mc_Type : MembershipChangeType;
  mc_PeerID : string;
}.

Record membershipCommand := mkMembershipCommand {
  mcmd_Operation : string;
  mcmd_Type : MembershipChangeType;
  mcmd_PeerID : string;
}.

#[export] Instance MembershipChange_eq_dec : EqDecision MembershipChange.
Proof. solve_decision. Defined.

Class MembershipJSON := {
  marshal_membershipCommand : membershipCommand → bytes + GoError;
  unmarshal_membershipCommand : bytes → membershipCommand + GoError;
}.

(** [representable]: the strings JSON carries unchanged (valid UTF-8). *)
Class MembershipJSONLaws `{MembershipJSON} (representable : string → Prop) : Prop := {
  membershipJSON_roundtrip : ∀ op ty id,
    representable op → representable ty → representable id →
    ∃ b, marshal_membershipCommand (mkMembershipCommand op ty id) = inl b ∧
         unmarshal_membershipCommand b = inl (mkMembershipCommand op ty id);
}.

(** func (c MembershipChange) Validate() error *)
Definition Validate (c : MembershipChange) : error :=
  if bool_decide (TrimSpace (mc_PeerID c) = "")
  then Some (ErrMessage "membership peer id is required")
  else if bool_decide (TrimSpace (mc_PeerID c) ≠ mc_PeerID c)
  then Some (ErrMessage "membership peer id must not contain surrounding whitespace")
  else if bool_decide (mc_Type c = MembershipAddPeer)
          || bool_decide (mc_Type c = MembershipRemovePeer)
  then None
  else Some (ErrFormat "unsupported membership change %q" [mc_Type c]).

Section codec.
Context `{MembershipJSON}.

(** func EncodeMembershipChange *)
Definition EncodeMembershipChange (change : MembershipChange) : bytes + GoError :=
  match Validate change with
  | Some err => inr err
  | None =>
      marshal_membershipCommand
        (mkMembershipCommand membershipCommandOperation (mc_Type change) (mc_PeerID change))
  end.

(** func DecodeMembershipChange: the change, whether the data is a membership
    command, and the validation error. *)
Definition DecodeMembershipChange (data : bytes) : MembershipChange * bool * error :=
  match unmarshal_membershipCommand data with
  | inr _ => (mkChange "" "", false, None)
  | inl command =>
      if bool_decide (mcmd_Operation command ≠ membershipCommandOperation)
      then (mkChange "" "", false, None)
      else
        let change := mkChange (mcmd_Type command) (mcmd_PeerID command) in
        match Validate change with
        | Some err => (mkChange "" "", true, Some err)
        | None => (change, true, None)
        end
  end.

(** Whether an entry's command is a membership command (the [ok] result). *)
Definition isMembership (data : bytes) : bool := (DecodeMembershipChange data).1.2.
End codec.

(** ** Lemmas *)

Lemma Validate_None c :
  Validate c = None ↔
  TrimSpace (mc_PeerID c) = mc_PeerID c ∧ mc_PeerID c ≠ "" ∧
  (mc_Type c = MembershipAddPeer ∨ mc_Type c = MembershipRemovePeer).
Proof.
  unfold Validate.
  destruct (decide (TrimSpace (mc_PeerID c) = mc_PeerID c)) as [->|Hne].
  - rewrite (bool_decide_eq_false_2 (mc_PeerID c ≠ mc_PeerID c)) by tauto.
    repeat case_bool_decide; simpl; intuition congruence.
  - rewrite (bool_decide_eq_true_2 _ Hne).
    case_bool_decide; simpl; intuition congruence.
Qed.

Lemma Decode_valid `{MembershipJSON} data c :
  DecodeMembershipChange data = (c, true, None) → Validate c = None.
Proof.
  unfold DecodeMembershipChange.
  destruct (unmarshal_membershipCommand data); [|done].
  case_bool_decide; [done|]. destruct (Validate _) eqn:E; naive_solver.
Qed.

Lemma Decode_not_ok `{MembershipJSON} data c e :
  DecodeMembershipChange data = (c, false, e) → e = None.
Proof.
  unfold DecodeMembershipChange.
  destruct (unmarshal_membershipCommand data); [|naive_solver].
  case_bool_decide; [naive_solver|]. destruct (Validate _) eqn:E; naive_solver.
Qed.
