(* ===== verification/Node.v ===== *)
(** * Node: the consensus state and its locked operations (src/raft/node.go)

    [RaftNode] is the struct; every method is one critical section under the
    node's mutex and so one total function on the record. A method that the Go
    runtime could stop with a panic returns in [go]; an error result is a value.
    The slices the methods hand out and take in are deep copies in the source
    ([cloneLog], [clonePeers], [append([]byte(nil), ...)]), so no aliasing is
    observable and lists model them. *)
From S2P Require Import Prelude GoStrings Types Membership.

(** type RaftNode. [nodeID] is the field [id]; the nilable maps are [gomap];
    [store] is [None] for a nil store; [commitReady] tells whether the channel of
    capacity one holds its signal. *)
Record RaftNode (St : Type) := mkNode {
  nodeID : string;
  peers : list string;
  selfMember : bool;
  membershipConfigured : bool;
  state : State;
  leaderID : string;
  currentTerm : Z;
  votedFor : string;
  log : list LogEntry;
  commitIndex : Z;
  lastApplied : Z;
  lastIncludedIndex : Z;
  lastIncludedTerm : Z;
  snapshot : bytes;
  nextIndex : gomap Z;
  matchIndex : gomap Z;
  store : option St;
  commitReady : bool;
}.

Arguments mkNode {St}.
Arguments nodeID {St} _.
Arguments peers {St} _.
Arguments selfMember {St} _.
Arguments membershipConfigured {St} _.
Arguments state {St} _.
Arguments leaderID {St} _.
Arguments currentTerm {St} _.
Arguments votedFor {St} _.
Arguments log {St} _.
Arguments commitIndex {St} _.
Arguments lastApplied {St} _.
Arguments lastIncludedIndex {St} _.
Arguments lastIncludedTerm {St} _.
Arguments snapshot {St} _.
Arguments nextIndex {St} _.
Arguments matchIndex {St} _.
Arguments store {St} _.
Arguments commitReady {St} _.

(** Field assignment. *)
Section setters.
Context {St : Type}.
Implicit Types n : RaftNode St.

Definition set_peers (v : list string) n : RaftNode St :=
  mkNode
    n.(nodeID) v n.(selfMember) n.(membershipConfigured) n.(state) n.(leaderID)
    n.(currentTerm) n.(votedFor) n.(log) n.(commitIndex) n.(lastApplied)
    n.(lastIncludedIndex) n.(lastIncludedTerm) n.(snapshot) n.(nextIndex)
    n.(matchIndex) n.(store) n.(commitReady).

Definition set_selfMember (v : bool) n : RaftNode St :=
  mkNode
    n.(nodeID) n.(peers) v n.(membershipConfigured) n.(state) n.(leaderID)
    n.(currentTerm) n.(votedFor) n.(log) n.(commitIndex) n.(lastApplied)
    n.(lastIncludedIndex) n.(lastIncludedTerm) n.(snapshot) n.(nextIndex)
    n.(matchIndex) n.(store) n.(commitReady).

Definition set_membershipConfigured (v : bool) n : RaftNode St :=
  mkNode
    n.(nodeID) n.(peers) n.(selfMember) v n.(state) n.(leaderID) n.(currentTerm)
    n.(votedFor) n.(log) n.(commitIndex) n.(lastApplied) n.(lastIncludedIndex)
    n.(lastIncludedTerm) n.(snapshot) n.(nextIndex) n.(matchIndex) n.(store)
    n.(commitReady).

Definition set_state (v : State) n : RaftNode St :=
  mkNode
    n.(nodeID) n.(peers) n.(selfMember) n.(membershipConfigured) v n.(leaderID)
    n.(currentTerm) n.(votedFor) n.(log) n.(commitIndex) n.(lastApplied)
    n.(lastIncludedIndex) n.(lastIncludedTerm) n.(snapshot) n.(nextIndex)
    n.(matchIndex) n.(store) n.(commitReady).

Definition set_leaderID (v : string) n : RaftNode St :=
  mkNode
    n.(nodeID) n.(peers) n.(selfMember) n.(membershipConfigured) n.(state) v
    n.(currentTerm) n.(votedFor) n.(log) n.(commitIndex) n.(lastApplied)
    n.(lastIncludedIndex) n.(lastIncludedTerm) n.(snapshot) n.(nextIndex)
    n.(matchIndex) n.(store) n.(commitReady).

Definition set_currentTerm (v : Z) n : RaftNode St :=
  mkNode
    n.(nodeID) n.(peers) n.(selfMember) n.(membershipConfigured) n.(state)
    n.(leaderID) v n.(votedFor) n.(log) n.(commitIndex) n.(lastApplied)
    n.(lastIncludedIndex) n.(lastIncludedTerm) n.(snapshot) n.(nextIndex)
    n.(matchIndex) n.(store) n.(commitReady).

Definition set_votedFor (v : string) n : RaftNode St :=
  mkNode
    n.(nodeID) n.(peers) n.(selfMember) n.(membershipConfigured) n.(state)
    n.(leaderID) n.(currentTerm) v n.(log) n.(commitIndex) n.(lastApplied)
    n.(lastIncludedIndex) n.(lastIncludedTerm) n.(snapshot) n.(nextIndex)
    n.(matchIndex) n.(store) n.(commitReady).

Definition set_log (v : list LogEntry) n : RaftNode St :=
  mkNode
    n.(nodeID) n.(peers) n.(selfMember) n.(membershipConfigured) n.(state)
    n.(leaderID) n.(currentTerm) n.(votedFor) v n.(commitIndex) n.(lastApplied)
    n.(lastIncludedIndex) n.(lastIncludedTerm) n.(snapshot) n.(nextIndex)
    n.(matchIndex) n.(store) n.(commitReady).

Definition set_commitIndex (v : Z) n : RaftNode St :=
  mkNode
    n.(nodeID) n.(peers) n.(selfMember) n.(membershipConfigured) n.(state)
    n.(leaderID) n.(currentTerm) n.(votedFor) n.(log) v n.(lastApplied)
    n.(lastIncludedIndex) n.(lastIncludedTerm) n.(snapshot) n.(nextIndex)
    n.(matchIndex) n.(store) n.(commitReady).

Definition set_lastApplied (v : Z) n : RaftNode St :=
  mkNode
    n.(nodeID) n.(peers) n.(selfMember) n.(membershipConfigured) n.(state)
    n.(leaderID) n.(currentTerm) n.(votedFor) n.(log) n.(commitIndex) v
    n.(lastIncludedIndex) n.(lastIncludedTerm) n.(snapshot) n.(nextIndex)
    n.(matchIndex) n.(store) n.(commitReady).

Definition set_lastIncludedIndex (v : Z) n : RaftNode St :=
  mkNode
    n.(nodeID) n.(peers) n.(selfMember) n.(membershipConfigured) n.(state)
    n.(leaderID) n.(currentTerm) n.(votedFor) n.(log) n.(commitIndex)
    n.(lastApplied) v n.(lastIncludedTerm) n.(snapshot) n.(nextIndex) n.(matchIndex)
    n.(store) n.(commitReady).

Definition set_lastIncludedTerm (v : Z) n : RaftNode St :=
  mkNode
    n.(nodeID) n.(peers) n.(selfMember) n.(membershipConfigured) n.(state)
    n.(leaderID) n.(currentTerm) n.(votedFor) n.(log) n.(commitIndex)
    n.(lastApplied) n.(lastIncludedIndex) v n.(snapshot) n.(nextIndex)
    n.(matchIndex) n.(store) n.(commitReady).

Definition set_snapshot (v : bytes) n : RaftNode St :=
  mkNode
    n.(nodeID) n.(peers) n.(selfMember) n.(membershipConfigured) n.(state)
    n.(leaderID) n.(currentTerm) n.(votedFor) n.(log) n.(commitIndex)
    n.(lastApplied) n.(lastIncludedIndex) n.(lastIncludedTerm) v n.(nextIndex)
    n.(matchIndex) n.(store) n.(commitReady).

Definition set_nextIndex (v : gomap Z) n : RaftNode St :=
  mkNode
    n.(nodeID) n.(peers) n.(selfMember) n.(membershipConfigured) n.(state)
    n.(leaderID) n.(currentTerm) n.(votedFor) n.(log) n.(commitIndex)
    n.(lastApplied) n.(lastIncludedIndex) n.(lastIncludedTerm) n.(snapshot) v
    n.(matchIndex) n.(store) n.(commitReady).

Definition set_matchIndex (v : gomap Z) n : RaftNode St :=
  mkNode
    n.(nodeID) n.(peers) n.(selfMember) n.(membershipConfigured) n.(state)
    n.(leaderID) n.(currentTerm) n.(votedFor) n.(log) n.(commitIndex)
    n.(lastApplied) n.(lastIncludedIndex) n.(lastIncludedTerm) n.(snapshot)
    n.(nextIndex) v n.(store) n.(commitReady).

Definition set_store (v : option St) n : RaftNode St :=
  mkNode
    n.(nodeID) n.(peers) n.(selfMember) n.(membershipConfigured) n.(state)
    n.(leaderID) n.(currentTerm) n.(votedFor) n.(log) n.(commitIndex)
    n.(lastApplied) n.(lastIncludedIndex) n.(lastIncludedTerm) n.(snapshot)
    n.(nextIndex) n.(matchIndex) v n.(commitReady).

Definition set_commitReady (v : bool) n : RaftNode St :=
  mkNode
    n.(nodeID) n.(peers) n.(selfMember) n.(membershipConfigured) n.(state)
    n.(leaderID) n.(currentTerm) n.(votedFor) n.(log) n.(commitIndex)
    n.(lastApplied) n.(lastIncludedIndex) n.(lastIncludedTerm) n.(snapshot)
    n.(nextIndex) n.(matchIndex) n.(store) v.

End setters.

(** ** Helpers on slices of entries and peers *)

(** func cloneLog *)
Definition cloneLog (log : list LogEntry) : list LogEntry :=
  map (fun entry => mkEntry (le_Term entry) (le_Index entry) (clone_bytes (le_Command entry))) log.

(** func clonePeers: [append([]string(nil), peers...)] is nil for no peers. *)
Definition clonePeers (peers : list string) : option (list string) :=
  match peers with [] => None | _ => Some peers end.

(** The value of a possibly nil slice where only its elements matter. *)
Definition slice_elems {A} (s : option (list A)) : list A := default [] s.

(** func normalizeEntries *)
Fixpoint normalizeEntries (startIndex : Z) (entries : list LogEntry) : list LogEntry :=
  match entries with
  | [] => []
  | entry :: rest =>
      mkEntry (le_Term entry) startIndex (clone_bytes (le_Command entry))
        :: normalizeEntries (startIndex ⊕ 1) rest
  end.

(** func containsPeer *)
Fixpoint containsPeer (peers : list string) (id : string) : bool :=
  match peers with
  | [] => false
  | peerID :: rest => if bool_decide (peerID = id) then true else containsPeer rest id
  end.

(** func removePeer *)
Fixpoint removePeer (peers : list string) (id : string) : list string :=
  match peers with
  | [] => []
  | peerID :: rest =>
      if bool_decide (peerID ≠ id) then peerID :: removePeer rest id else removePeer rest id
  end.

(** func majority (src/raft/election.go) *)
Definition majority (clusterSize : Z) : Z := Z.quot clusterSize 2 + 1.

Section node.
Context {St : Type} `{StableStore St} `{MembershipJSON}.
Abbreviation Node := (RaftNode St).
Implicit Types n : Node.

(** ** Log accessors (lines 677 to 735) *)

Definition clusterSizeLocked n : Z :=
  let size := zlen n.(peers) in
  if n.(selfMember) then size + 1 else size.

Definition firstLogIndexLocked n : Z := n.(lastIncludedIndex) ⊕ 1.

Definition lastLogIndexLocked n : Z :=
  match last n.(log) with
  | None => n.(lastIncludedIndex)
  | Some e => le_Index e
  end.

Definition lastLogTermLocked n : Z :=
  match last n.(log) with
  | None => n.(lastIncludedTerm)
  | Some e => le_Term e
  end.

Definition containsLogIndexLocked n (index : Z) : bool :=
  (firstLogIndexLocked n <=? index) && (index <=? lastLogIndexLocked n).

Definition logTermAtLocked n (index : Z) : go Z :=
  if index =? 0 then Ret 0
  else if index =? n.(lastIncludedIndex) then Ret n.(lastIncludedTerm)
  else if negb (containsLogIndexLocked n index) then Ret 0
  else e ← slice_at n.(log) (index ⊖ firstLogIndexLocked n); Ret (le_Term e).

Definition cloneEntriesFromLocked n (startIndex : Z) : go (list LogEntry) :=
  let startIndex :=
    if startIndex <=? n.(lastIncludedIndex) then firstLogIndexLocked n else startIndex in
  if lastLogIndexLocked n <? startIndex then Ret []
  else l ← slice_from n.(log) (startIndex ⊖ firstLogIndexLocked n); Ret (cloneLog l).

(** A send on the channel of capacity one with a default case. *)
Definition signalCommitReadyLocked n : Node := set_commitReady true n.

Definition isMemberLocked n (id : string) : bool :=
  if bool_decide (id = n.(nodeID)) then n.(selfMember)
  else if containsPeer n.(peers) id then true
  else n.(selfMember) && negb n.(membershipConfigured).

(** ** Persistence (lines 531 to 546) *)

Definition persistentOf n : PersistentState :=
  mkPS n.(currentTerm) n.(votedFor) (clonePeers n.(peers)) (Some n.(selfMember))
    n.(lastIncludedIndex) n.(lastIncludedTerm) (clone_bytes n.(snapshot)) (cloneLog n.(log)).

Definition persistLocked n : Node * error :=
  match n.(store) with
  | None => (n, None)
  | Some s => let '(s', err) := Save (persistentOf n) s in (set_store (Some s') n, err)
  end.

(** func NewRaftNode (lines 36 to 73) *)
Definition NewRaftNode (id : string) (peers0 : list string) (store0 : option St)
    : Node + GoError :=
  let node :=
    mkNode id (slice_elems (clonePeers peers0)) true (0 <? zlen peers0) Follower "" 0 ""
      [] 0 0 0 0 [] None None store0 false in
  match store0 with
  | None => inl node
  | Some s =>
      match Load s with
      | inr err => inr err
      | inl st =>
          let node := set_currentTerm (ps_CurrentTerm st) node in
          let node := set_votedFor (ps_VotedFor st) node in
          let node :=
            match ps_Peers st with
            | Some ps => set_peers (slice_elems (clonePeers ps)) node
            | None => node
            end in
          let node :=
            match ps_SelfMember st with Some b => set_selfMember b node | None => node end in
          let node :=
            match ps_Peers st, ps_SelfMember st with
            | None, None => node
            | _, _ => set_membershipConfigured true node
            end in
          let node := set_lastIncludedIndex (ps_LastIncludedIndex st) node in
          let node := set_lastIncludedTerm (ps_LastIncludedTerm st) node in
          let node := set_snapshot (clone_bytes (ps_Snapshot st)) node in
          let node := set_commitIndex (ps_LastIncludedIndex st) node in
          let node := set_lastApplied (ps_LastIncludedIndex st) node in
          inl (set_log (cloneLog (ps_Log st)) node)
      end
  end.

(** func Members (lines 117 to 127) *)
Definition Members n : list string :=
  (if n.(selfMember) then [n.(nodeID)] else []) ++ n.(peers).

(** ** Commit advancement (lines 568 to 601) *)

(** How many replicas hold [index], the node itself counted once. *)
Definition replicatedCount n (index : Z) : Z :=
  foldl (fun replicated peerID =>
           if index <=? default 0 (map_get n.(matchIndex) peerID)
           then replicated + 1 else replicated) 1 n.(peers).

(** The loop [for index := last; index > n.commitIndex; index--]. *)
Fixpoint advanceCommitLoop (fuel : nat) (index : Z) n : go Node :=
  match fuel with
  | O => Ret n
  | S fuel =>
      if negb (n.(commitIndex) <? index) then Ret n
      else
        t ← logTermAtLocked n index;
        if negb (t =? n.(currentTerm)) then advanceCommitLoop fuel (index ⊖ 1) n
        else if majority (clusterSizeLocked n) <=? replicatedCount n index
        then Ret (signalCommitReadyLocked (set_commitIndex index n))
        else advanceCommitLoop fuel (index ⊖ 1) n
  end.

(** Enough iterations: the index falls by one down to the commit index. *)
Definition advanceFuel n : nat := Z.to_nat (lastLogIndexLocked n - n.(commitIndex)).

Definition advanceCommitLocked n : go Node :=
  if negb (bool_decide (n.(state) = Leader)) || negb n.(selfMember) then Ret n
  else advanceCommitLoop (advanceFuel n) (lastLogIndexLocked n) n.

Definition initLeaderProgressLocked n : go Node :=
  let next := lastLogIndexLocked n ⊕ 1 in
  let n := set_nextIndex
             (Some (foldl (fun m peerID => <[peerID := next]> m) ∅ n.(peers))) n in
  let n := set_matchIndex
             (Some (foldl (fun m peerID => <[peerID := 0]> m) ∅ n.(peers))) n in
  advanceCommitLocked n.

(** ** Role changes (lines 187 to 231) *)

(** The assignments that drop leadership state. *)
Definition dropLeadership n : Node :=
  set_matchIndex None (set_nextIndex None (set_leaderID "" n)).

Definition BecomeFollower (term : Z) n : Node * error :=
  let n := dropLeadership (set_state Follower n) in
  let n := if n.(currentTerm) <? term
           then set_votedFor "" (set_currentTerm term n) else n in
  persistLocked n.

Definition BecomeCandidate n : Node * error :=
  let n := dropLeadership (set_state Candidate n) in
  let n := set_currentTerm (n.(currentTerm) ⊕ 1) n in
  let n := set_votedFor n.(nodeID) n in
  persistLocked n.

Definition BecomeLeader n : go (Node * error) :=
  let n := set_leaderID n.(nodeID) (set_state Leader n) in
  n ← initLeaderProgressLocked n;
  Ret (persistLocked n).

Definition SetVotedFor (candidateID : string) n : Node * error :=
  persistLocked (set_votedFor candidateID n).

(** ** Votes (lines 233 to 292) *)

Definition RequestVote (req : RequestVoteRequest) n
    : Node * (RequestVoteResponse * error) :=
  let resp := mkRVR n.(currentTerm) false in
  if rvq_Term req <? n.(currentTerm) then (n, (resp, None))
  else if negb n.(selfMember) then (n, (resp, None))
  else if negb (isMemberLocked n (rvq_CandidateID req)) then (n, (resp, None))
  else
    let newer := n.(currentTerm) <? rvq_Term req in
    let n :=
      if newer
      then set_state Follower (dropLeadership (set_votedFor "" (set_currentTerm (rvq_Term req) n)))
      else n in
    let canVoteForCandidate :=
      bool_decide (n.(votedFor) = "") || bool_decide (n.(votedFor) = rvq_CandidateID req) in
    let logIsFreshEnough :=
      IsLogAtLeastUpToDate (rvq_LastLogIndex req) (rvq_LastLogTerm req)
        (lastLogIndexLocked n) (lastLogTermLocked n) in
    let granted := canVoteForCandidate && logIsFreshEnough in
    let n := if granted then set_votedFor (rvq_CandidateID req) n else n in
    let resp := mkRVR n.(currentTerm) granted in
    let changed := newer || granted in
    if negb changed then (n, (resp, None))
    else let '(n, err) := persistLocked n in (n, (resp, err)).

(** PreVote takes only the read lock: it returns no new state. *)
Definition PreVote (req : PreVoteRequest) n : PreVoteResponse * error :=
  let resp := mkPVR n.(currentTerm) false in
  if pvq_Term req <? n.(currentTerm) then (resp, None)
  else if negb n.(selfMember) then (resp, None)
  else if negb (isMemberLocked n (pvq_CandidateID req)) then (resp, None)
  else
    let logIsFreshEnough :=
      IsLogAtLeastUpToDate (pvq_LastLogIndex req) (pvq_LastLogTerm req)
        (lastLogIndexLocked n) (lastLogTermLocked n) in
    (mkPVR n.(currentTerm) logIsFreshEnough, None).

(** ** Log replication on the follower (lines 294 to 346, 500 to 529) *)

(** The loop over [entries]; [index] is [next + uint64(i)] and the list is
    [entries[i:]]. *)
Fixpoint appendEntriesLoop (index : Z) (entries : list LogEntry) n : go (Node * bool) :=
  match entries with
  | [] => Ret (n, false)
  | entry :: rest =>
      if index <=? n.(lastIncludedIndex) then appendEntriesLoop (index ⊕ 1) rest n
      else if containsLogIndexLocked n index then
        local ← slice_at n.(log) (index ⊖ firstLogIndexLocked n);
        if negb (le_Term local =? le_Term entry) then
          l ← slice_to n.(log) (index ⊖ firstLogIndexLocked n);
          Ret (set_log (l ++ normalizeEntries index entries) n, true)
        else appendEntriesLoop (index ⊕ 1) rest n
      else Ret (set_log (n.(log) ++ normalizeEntries index entries) n, true)
  end.

Definition appendEntriesToLogLocked (prevLogIndex prevLogTerm : Z) (entries : list LogEntry) n
    : go (Node * (bool * error)) :=
  mismatch ←
    (if 0 <? prevLogIndex
     then t ← logTermAtLocked n prevLogIndex; Ret (negb (t =? prevLogTerm))
     else Ret false);
  if (mismatch : bool) then
    Ret (n, (false, Some (ErrLogInconsistent prevLogIndex prevLogTerm)))
  else
    r ← appendEntriesLoop (prevLogIndex ⊕ 1) entries n;
    Ret (r.1, (r.2, None)).

Definition HandleAppendEntries (req : AppendEntriesRequest) n
    : go (Node * (AppendEntriesResponse * error)) :=
  let resp := mkAER n.(currentTerm) false in
  if aeq_Term req <? n.(currentTerm) then Ret (n, (resp, None))
  else if negb (isMemberLocked n (aeq_LeaderID req)) then Ret (n, (resp, None))
  else
    let newer := n.(currentTerm) <? aeq_Term req in
    let n :=
      if newer
      then dropLeadership (set_votedFor "" (set_currentTerm (aeq_Term req) n)) else n in
    let n :=
      if negb (bool_decide (n.(state) = Follower))
      then set_matchIndex None (set_nextIndex None n) else n in
    let n := set_leaderID (aeq_LeaderID req) (set_state Follower n) in
    r ← appendEntriesToLogLocked (aeq_PrevLogIndex req) (aeq_PrevLogTerm req)
          (aeq_Entries req) n;
    let '(n, (logChanged, err)) := r in
    match err with
    | Some _ =>
        let resp := mkAER n.(currentTerm) false in
        if newer then let '(n, err) := persistLocked n in Ret (n, (resp, err))
        else Ret (n, (resp, None))
    | None =>
        let changed := newer || logChanged in
        let n :=
          if n.(commitIndex) <? aeq_LeaderCommit req then
            let nextCommit := Z.min (aeq_LeaderCommit req) (lastLogIndexLocked n) in
            if n.(commitIndex) <? nextCommit
            then signalCommitReadyLocked (set_commitIndex nextCommit n) else n
          else n in
        let resp := mkAER n.(currentTerm) true in
        if negb changed then Ret (n, (resp, None))
        else let '(n, err) := persistLocked n in Ret (n, (resp, err))
    end.

(** ** The leader's own log and its peers' progress (lines 348 to 425) *)

(** func hasPendingMembershipChangeLocked *)
Definition hasPendingMembershipChangeLocked n : bool :=
  existsb (fun entry =>
             if le_Index entry <=? n.(lastApplied) then false
             else isMembership (le_Command entry)) n.(log).

Definition zeroEntry : LogEntry := mkEntry 0 0 [].

Definition AppendLocal (command : bytes) n : go (Node * (LogEntry * error)) :=
  let '(_, ok, err) := DecodeMembershipChange command in
  match (if ok then
           match err with
           | Some e => Some e
           | None => if hasPendingMembershipChangeLocked n
                     then Some ErrMembershipChangePending else None
           end
         else None) with
  | Some e => Ret (n, (zeroEntry, Some e))
  | None =>
      let entry := mkEntry n.(currentTerm) (lastLogIndexLocked n ⊕ 1) (clone_bytes command) in
      let n := set_log (n.(log) ++ [entry]) n in
      n ← (if bool_decide (n.(state) = Leader) then advanceCommitLocked n else Ret n);
      let '(n, err) := persistLocked n in
      Ret (n, (entry, err))
  end.

Definition BuildAppendEntries (peerID : string) n : go (AppendEntriesRequest + GoError) :=
  match map_get n.(nextIndex) peerID with
  | None => Ret (inr (ErrUnknownPeer peerID))
  | Some next =>
      let next := if next <=? n.(lastIncludedIndex) then firstLogIndexLocked n else next in
      let prevLogIndex := next ⊖ 1 in
      prevLogTerm ← logTermAtLocked n prevLogIndex;
      entries ← cloneEntriesFromLocked n next;
      Ret (inl (mkAEQ n.(currentTerm) n.(nodeID) prevLogIndex prevLogTerm entries
                  n.(commitIndex)))
  end.

Definition RecordReplicationSuccess (peerID : string) (match_ : Z) n : go (Node * error) :=
  match map_get n.(nextIndex) peerID with
  | None => Ret (n, Some (ErrUnknownPeer peerID))
  | Some _ =>
      m ← map_set n.(matchIndex) peerID match_;
      let n := set_matchIndex m n in
      m ← map_set n.(nextIndex) peerID (match_ ⊕ 1);
      let n := set_nextIndex m n in
      n ← advanceCommitLocked n;
      Ret (n, None)
  end.

Definition RecordReplicationFailure (peerID : string) n : go (Node * error) :=
  match map_get n.(nextIndex) peerID with
  | None => Ret (n, Some (ErrUnknownPeer peerID))
  | Some next =>
      if 1 <? next then
        if next <=? n.(lastIncludedIndex) ⊕ 1 then Ret (n, None)
        else
          m ← map_set n.(nextIndex) peerID (next ⊖ 1);
          Ret (set_nextIndex m n, None)
      else Ret (n, None)
  end.

(** ** Snapshots (lines 427 to 461) *)

Definition ShouldSnapshot (threshold : Z) n : bool :=
  (0 <? threshold) && (n.(lastIncludedIndex) ⊕ threshold <=? n.(lastApplied)).

Definition Compact (snap : bytes) n : go (Node * error) :=
  if n.(lastApplied) <=? n.(lastIncludedIndex) then Ret (n, None)
  else
    let index := n.(lastApplied) in
    term ← logTermAtLocked n index;
    if term =? 0 then Ret (n, Some (ErrLogInconsistent index 0))
    else
      let first := firstLogIndexLocked n in
      l ← (if index <? first then Ret []
           else if lastLogIndexLocked n <=? index then Ret []
           else l ← slice_from n.(log) (index ⊖ first ⊕ 1); Ret (cloneLog l));
      let n := set_log l n in
      let n := set_lastIncludedIndex index n in
      let n := set_lastIncludedTerm term n in
      let n := set_snapshot (clone_bytes snap) n in
      Ret (persistLocked n).

(** ** Applying committed entries (lines 463 to 498, 548 to 566, 603 to 653) *)

Definition nextCommittedEntry n : go (LogEntry * bool) :=
  let next := n.(lastApplied) ⊕ 1 in
  if (n.(commitIndex) <? next) || negb (containsLogIndexLocked n next)
  then Ret (zeroEntry, false)
  else e ← slice_at n.(log) (next ⊖ firstLogIndexLocked n);
       c ← slice_at (cloneLog [e]) 0; Ret (c, true).

Definition markApplied (index : Z) n : Node :=
  if n.(lastApplied) <? index then set_lastApplied index n else n.

Definition applyMembershipChangeLocked (change : MembershipChange) n : go (Node * error) :=
  let n := set_membershipConfigured true n in
  r ← (if bool_decide (mc_Type change = MembershipAddPeer) then
         if bool_decide (mc_PeerID change = n.(nodeID))
         then Ret (set_selfMember true n, None)
         else if negb (containsPeer n.(peers) (mc_PeerID change)) then
           let n := set_peers (n.(peers) ++ [mc_PeerID change]) n in
           if bool_decide (n.(state) = Leader) && bool_decide (is_Some n.(nextIndex))
              && bool_decide (is_Some n.(matchIndex)) then
             m ← map_set n.(nextIndex) (mc_PeerID change) (lastLogIndexLocked n ⊕ 1);
             let n := set_nextIndex m n in
             m ← map_set n.(matchIndex) (mc_PeerID change) 0;
             Ret (set_matchIndex m n, None)
           else Ret (n, None)
         else Ret (n, None)
       else if bool_decide (mc_Type change = MembershipRemovePeer) then
         if bool_decide (mc_PeerID change = n.(nodeID)) then
           let n := set_state Follower (set_selfMember false n) in
           Ret (dropLeadership (set_votedFor "" n), None)
         else
           let n := set_peers (removePeer n.(peers) (mc_PeerID change)) n in
           let n := set_nextIndex (map_delete n.(nextIndex) (mc_PeerID change)) n in
           let n := set_matchIndex (map_delete n.(matchIndex) (mc_PeerID change)) n in
           Ret (n, None)
       else Ret (n, Some (ErrFormat "unsupported membership change %q" [mc_Type change])));
  let '(n, err) := r in
  match (err : error) with
  | Some e => Ret (n, Some e)
  | None => n ← advanceCommitLocked n; Ret (n, None)
  end.

Definition applyCommittedMembershipChange (change : MembershipChange) (index : Z) n
    : go (Node * error) :=
  r ← applyMembershipChangeLocked change n;
  match r.2 with
  | Some e => Ret (r.1, Some e)
  | None => Ret (persistLocked (markApplied index r.1))
  end.

Definition ApplyMembershipChange (change : MembershipChange) n : go (Node * error) :=
  match Validate change with
  | Some e => Ret (n, Some e)
  | None =>
      r ← applyMembershipChangeLocked change n;
      match r.2 with
      | Some e => Ret (r.1, Some e)
      | None => Ret (persistLocked r.1)
      end
  end.

(** The loop of ApplyCommitted, run by one goroutine with no other operation in
    between: one iteration per entry, the state machine passed along. *)
Fixpoint ApplyCommittedLoop {SM} `{StateMachine SM} (fuel : nat) n (sm : SM)
    : go (Node * SM * error) :=
  match fuel with
  | O => Ret (n, sm, None)
  | S fuel =>
      r ← nextCommittedEntry n;
      let '(entry, ok) := r in
      if negb ok then Ret (n, sm, None)
      else
        let '(change, isChange, err) := DecodeMembershipChange (le_Command entry) in
        if (isChange : bool) then
          match err with
          | Some e => Ret (n, sm, Some e)
          | None =>
              r ← applyCommittedMembershipChange change (le_Index entry) n;
              match r.2 with
              | Some e => Ret (r.1, sm, Some e)
              | None => ApplyCommittedLoop fuel r.1 sm
              end
          end
        else
          let '(sm, err) := Apply entry sm in
          match err with
          | Some e => Ret (n, sm, Some e)
          | None => ApplyCommittedLoop fuel (markApplied (le_Index entry) n) sm
          end
  end.

(** Enough iterations: every iteration that continues applies one entry of the
    log past [lastApplied], and no iteration makes the log longer. *)
Definition applyFuel n : nat := S (Z.to_nat (lastLogIndexLocked n - n.(lastApplied))).

Definition ApplyCommitted {SM} `{StateMachine SM} n (sm : SM) : go (Node * SM * error) :=
  ApplyCommittedLoop (applyFuel n) n sm.

End node.
