(* ===== verification/NodeInv.v ===== *)
(** * NodeInv: the well-formedness invariant of a node

    A closed form for every log accessor of [Node] under the invariant, the
    proof that no operation panics, and that every operation preserves it. *)
From S2P Require Import Prelude GoStrings Types Membership Node.

Section inv.
Context {St : Type} `{!StableStore St} `{!MembershipJSON}.
Abbreviation Node := (RaftNode St).
Implicit Types n : Node.

(** ** The abstract log

    Indices [1 .. last_index]; the entries up to [lastIncludedIndex] live in the
    snapshot, the others in the slice. *)

Definition last_index n : Z := n.(lastIncludedIndex) + zlen n.(log).

Definition entry_at n (i : Z) : option LogEntry :=
  if n.(lastIncludedIndex) <? i
  then n.(log) !! Z.to_nat (i - n.(lastIncludedIndex) - 1) else None.

Definition term_at n (i : Z) : Z :=
  if i =? 0 then 0
  else if i =? n.(lastIncludedIndex) then n.(lastIncludedTerm)
  else default 0 (le_Term <$> entry_at n i).

(** Entry [k] of the slice carries index [lastIncludedIndex + 1 + k], and no
    index computed from the log wraps around. *)
Definition log_wf n : Prop :=
  (∀ k e, n.(log) !! k = Some e → le_Index e = n.(lastIncludedIndex) + 1 + Z.of_nat k) ∧
  0 ≤ n.(lastIncludedIndex) ∧ last_index n < two64 - 1.

(** A leader tracks exactly its peers, within the bounds of its log; any other
    role tracks nothing. *)
Definition progress_ok n : Prop :=
  match n.(state) with
  | Leader =>
      ∃ ni mi, n.(nextIndex) = Some ni ∧ n.(matchIndex) = Some mi ∧
        dom ni = (list_to_set n.(peers) : gset string) ∧
        dom mi = (list_to_set n.(peers) : gset string) ∧
        (∀ p x, ni !! p = Some x → 1 ≤ x ≤ last_index n + 1) ∧
        (∀ p x, mi !! p = Some x → 0 ≤ x ≤ last_index n)
  | _ => n.(nextIndex) = None ∧ n.(matchIndex) = None
  end.

Definition index_order n : Prop :=
  n.(lastIncludedIndex) ≤ n.(lastApplied) ∧
  n.(lastApplied) ≤ n.(commitIndex) ∧ n.(commitIndex) ≤ last_index n.

Definition node_wf n : Prop :=
  log_wf n ∧ in_u64 n.(currentTerm) ∧ index_order n ∧ progress_ok n.

(** ** Closed forms of the log accessors *)

Lemma last_index_ge n : log_wf n → 0 ≤ n.(lastIncludedIndex) ≤ last_index n.
Proof. intros (_ & ? & _). unfold last_index. pose proof (zlen_nonneg n.(log)). lia. Qed.

Lemma firstLogIndex_wf n : log_wf n → firstLogIndexLocked n = n.(lastIncludedIndex) + 1.
Proof.
  intros Hwf. pose proof (last_index_ge n Hwf). destruct Hwf as (_ & ? & ?).
  apply uadd_small. ulia.
Qed.

Lemma lastLogIndex_wf n : log_wf n → lastLogIndexLocked n = last_index n.
Proof.
  intros (Hc & ? & ?). unfold lastLogIndexLocked, last_index, zlen.
  destruct (last n.(log)) as [e|] eqn:Hl.
  - pose proof Hl as Hl'. rewrite last_lookup in Hl.
    rewrite (Hc _ _ Hl). apply lookup_lt_Some in Hl. lia.
  - apply last_None in Hl. rewrite Hl. simpl. lia.
Qed.

Lemma containsLogIndex_wf n i :
  log_wf n →
  containsLogIndexLocked n i = true ↔ n.(lastIncludedIndex) < i ≤ last_index n.
Proof.
  intros Hwf. unfold containsLogIndexLocked.
  rewrite (firstLogIndex_wf n Hwf), (lastLogIndex_wf n Hwf), andb_true_iff, !Z.leb_le. lia.
Qed.

Lemma entry_at_Some n i e :
  entry_at n i = Some e → n.(lastIncludedIndex) < i ≤ last_index n.
Proof.
  unfold entry_at, last_index, zlen. split_ifs; [|done].
  intros Hl%lookup_lt_Some. lia.
Qed.

Lemma entry_at_is_Some n i :
  n.(lastIncludedIndex) < i ≤ last_index n → is_Some (entry_at n i).
Proof.
  unfold entry_at, last_index, zlen. intros. split_ifs; [|lia].
  apply lookup_lt_is_Some. lia.
Qed.

Lemma slice_at_log n i :
  log_wf n → n.(lastIncludedIndex) < i ≤ last_index n →
  ∃ e, entry_at n i = Some e ∧ slice_at n.(log) (i ⊖ firstLogIndexLocked n) = Ret e.
Proof.
  intros Hwf Hi. destruct (entry_at_is_Some n i Hi) as [e He]. exists e; split; [done|].
  pose proof (last_index_ge n Hwf). rewrite (firstLogIndex_wf n Hwf).
  destruct Hwf as (_ & ? & ?).
  rewrite usub_small by ulia. apply slice_at_Ret; [lia|].
  unfold entry_at in He. split_in He; [|lia].
  by replace (i - (lastIncludedIndex n + 1)) with (i - lastIncludedIndex n - 1) by lia.
Qed.

Lemma logTermAt_wf n i : log_wf n → logTermAtLocked n i = Ret (term_at n i).
Proof.
  intros Hwf. unfold logTermAtLocked, term_at.
  destruct (i =? 0); [done|]. destruct (i =? n.(lastIncludedIndex)) eqn:E; [done|].
  destruct (containsLogIndexLocked n i) eqn:Hc; simpl.
  - apply containsLogIndex_wf in Hc; [|done].
    destruct (slice_at_log n i Hwf Hc) as (e & -> & ->). done.
  - destruct (entry_at n i) as [e|] eqn:He; [|done].
    apply entry_at_Some in He.
    apply (containsLogIndex_wf n i Hwf) in He. congruence.
Qed.

Lemma cloneLog_id l : cloneLog l = l.
Proof. unfold cloneLog. rewrite <-(map_id l) at 2. apply map_ext. by intros []. Qed.

Lemma cloneEntriesFrom_wf n s :
  log_wf n → 0 ≤ s < two64 →
  cloneEntriesFromLocked n s = Ret (drop (Z.to_nat (s - n.(lastIncludedIndex) - 1)) n.(log)).
Proof.
  intros Hwf Hs. pose proof (last_index_ge n Hwf).
  unfold cloneEntriesFromLocked.
  rewrite (firstLogIndex_wf n Hwf), (lastLogIndex_wf n Hwf).
  destruct Hwf as (_ & ? & ?). unfold last_index, zlen in *.
  destruct (Z.leb_spec s (lastIncludedIndex n)); split_ifs;
    try (rewrite drop_ge; [done|lia]);
    unwrap; rewrite slice_from_Ret by (unfold zlen; lia); simpl; rewrite cloneLog_id;
    do 2 f_equal; lia.
Qed.

Lemma nextCommittedEntry_wf n :
  log_wf n → index_order n →
  nextCommittedEntry n =
  Ret (if decide (n.(lastApplied) < n.(commitIndex))
       then (default zeroEntry (entry_at n (n.(lastApplied) + 1)), true)
       else (zeroEntry, false)).
Proof.
  intros Hwf (? & ? & ?). unfold nextCommittedEntry.
  pose proof (last_index_ge n Hwf). pose proof Hwf as (_ & ? & ?).
  rewrite (uadd_small (lastApplied n)) by ulia.
  case_decide as Hd.
  - rewrite (proj2 (Z.ltb_ge _ _)) by lia.
    rewrite (proj2 (containsLogIndex_wf n _ Hwf)) by lia. simpl.
    destruct (slice_at_log n (lastApplied n + 1) Hwf) as (e & -> & ->); [lia|].
    simpl. by destruct e.
  - rewrite (proj2 (Z.ltb_lt _ _)) by lia. done.
Qed.

(** ** Commit advancement *)

(** The rule of the Raft paper: an entry of the leader's current term that a
    majority of the cluster stores. *)
Definition committable n (i : Z) : Prop :=
  term_at n i = n.(currentTerm) ∧ majority (clusterSizeLocked n) ≤ replicatedCount n i.

#[export] Instance committable_dec n i : Decision (committable n i).
Proof. unfold committable. apply _. Defined.

(** The peers known to store index [i]. *)
Definition holders n (i : Z) : list string :=
  filter (fun p => i ≤ default 0 (map_get n.(matchIndex) p)) n.(peers).

Lemma replicatedCount_holders n i : replicatedCount n i = 1 + zlen (holders n i).
Proof.
  unfold replicatedCount, holders.
  enough (Hgen : ∀ l a,
    foldl (fun r p => if i <=? default 0 (map_get n.(matchIndex) p) then r + 1 else r) a l =
    a + zlen (filter (fun p => i ≤ default 0 (map_get n.(matchIndex) p)) l)) by apply Hgen.
  induction l as [|p l IH]; intros a; simpl.
  - unfold zlen; simpl. lia.
  - rewrite IH, filter_cons.
    destruct (Z.leb_spec i (default 0 (map_get (matchIndex n) p))); case_decide; try lia.
    rewrite zlen_cons. lia.
Qed.

(** The loop stops at the highest committable index above the commit index. *)
Lemma advanceCommitLoop_spec n fuel i :
  log_wf n → 0 ≤ n.(commitIndex) ≤ i → i < two64 → fuel = Z.to_nat (i - n.(commitIndex)) →
  (advanceCommitLoop fuel i n = Ret n ∧ ∀ j, n.(commitIndex) < j ≤ i → ¬ committable n j) ∨
  (∃ c, n.(commitIndex) < c ≤ i ∧ committable n c ∧
        (∀ j, c < j ≤ i → ¬ committable n j) ∧
        advanceCommitLoop fuel i n = Ret (signalCommitReadyLocked (set_commitIndex c n))).
Proof.
  intros Hwf. revert i. induction fuel as [|fuel IH]; intros i Hi Hb Hf; simpl.
  { left. split; [done|]. intros j; lia. }
  rewrite (proj2 (Z.ltb_lt _ _)) by lia. simpl. rewrite (logTermAt_wf n i Hwf). simpl.
  rewrite (usub_small i 1) by ulia.
  destruct (decide (committable n i)) as [Hc|Hc].
  - right. exists i. destruct Hc as [Ht Hm].
    rewrite (proj2 (Z.eqb_eq _ _) Ht), (proj2 (Z.leb_le _ _) Hm). simpl.
    split_and!; [lia|lia|by split|intros; lia|done].
  - assert (Hstep : ∀ r, (if negb (term_at n i =? currentTerm n) then r
       else if majority (clusterSizeLocked n) <=? replicatedCount n i
       then Ret (signalCommitReadyLocked (set_commitIndex i n)) else r) = r).
    { intros r. unfold committable in Hc. split_ifs; try done. tauto. }
    rewrite Hstep.
    destruct (IH (i - 1)) as [[-> Hno]|(c & ? & ? & Hno & ->)]; try lia.
    + left. split; [done|]. intros j ?.
      destruct (decide (j = i)) as [->|]; [done|]. apply Hno. lia.
    + right. exists c. split_and!; try done; try lia. intros j ?.
      destruct (decide (j = i)) as [->|]; [done|]. apply Hno. lia.
Qed.

(** More fuel than [advanceFuel] changes nothing: the loop has ended. *)
Lemma advanceCommitLoop_fuel n fuel i :
  log_wf n → 0 ≤ n.(commitIndex) ≤ i → i < two64 →
  (Z.to_nat (i - n.(commitIndex)) ≤ fuel)%nat →
  advanceCommitLoop fuel i n = advanceCommitLoop (Z.to_nat (i - n.(commitIndex))) i n.
Proof.
  intros Hwf. revert i. induction fuel as [|fuel IH]; intros i Hi Hb Hf.
  { replace (Z.to_nat (i - commitIndex n)) with O by lia. done. }
  destruct (Z.to_nat (i - commitIndex n)) as [|k] eqn:Hk; simpl.
  { rewrite (proj2 (Z.ltb_ge _ _)) by lia. done. }
  rewrite (proj2 (Z.ltb_lt _ _)) by lia. simpl.
  rewrite (logTermAt_wf n i Hwf). simpl. rewrite (usub_small i 1) by ulia.
  assert (k = Z.to_nat (i - 1 - commitIndex n)) as -> by lia.
  rewrite (IH (i - 1)) by lia. done.
Qed.

Lemma advanceCommit_spec n :
  log_wf n → index_order n →
  (advanceCommitLocked n = Ret n ∧
   (n.(state) = Leader → n.(selfMember) = true →
    ∀ j, n.(commitIndex) < j ≤ last_index n → ¬ committable n j)) ∨
  (n.(state) = Leader ∧ n.(selfMember) = true ∧
   ∃ c, n.(commitIndex) < c ≤ last_index n ∧ committable n c ∧
        (∀ j, c < j ≤ last_index n → ¬ committable n j) ∧
        advanceCommitLocked n = Ret (signalCommitReadyLocked (set_commitIndex c n))).
Proof.
  intros Hwf (? & ? & ?). pose proof (last_index_ge n Hwf) as ?. pose proof Hwf as (_ & _ & ?).
  unfold advanceCommitLocked, advanceFuel. rewrite (lastLogIndex_wf n Hwf).
  case_bool_decide as Hs; [|left; split; [done|congruence]]. simpl.
  destruct (selfMember n) eqn:Hm; simpl; [|left; split; [done|congruence]].
  destruct (advanceCommitLoop_spec n (Z.to_nat (last_index n - commitIndex n)) (last_index n))
    as [[-> ?]|(c & Hc)]; [done|lia|ulia|done|by left|right; eauto].
Qed.

(** What [advanceCommitLocked] may change, and that it never panics. *)
Lemma advanceCommit_frame n :
  log_wf n → index_order n →
  ∃ c r, advanceCommitLocked n = Ret (set_commitReady r (set_commitIndex c n)) ∧
         n.(commitIndex) ≤ c ≤ last_index n.
Proof.
  intros Hwf Ho. pose proof Ho as (? & ? & ?).
  destruct (advanceCommit_spec n Hwf Ho) as [[-> _]|(_ & _ & c & ? & _ & _ & ->)].
  - exists (commitIndex n), (commitReady n). split; [by destruct n|lia].
  - exists c, true. split; [done|lia].
Qed.

Lemma advanceCommit_wf n :
  node_wf n → ∃ n', advanceCommitLocked n = Ret n' ∧ node_wf n'.
Proof.
  intros (Hl & Ht & Ho & Hp). pose proof Ho as (? & ? & ?).
  destruct (advanceCommit_frame n Hl Ho) as (c & r & -> & Hc).
  eexists; split; [done|]. unfold node_wf. split_and!; [exact Hl|exact Ht| |exact Hp].
  unfold index_order, last_index in *; simpl. lia.
Qed.

(** ** Appending entries *)

Lemma length_normalizeEntries s l : length (normalizeEntries s l) = length l.
Proof. revert s; induction l; intros; simpl; auto. Qed.

Lemma normalizeEntries_lookup s l k :
  0 ≤ s → s + zlen l < two64 →
  normalizeEntries s l !! k =
  (fun e => mkEntry (le_Term e) (s + Z.of_nat k) (le_Command e)) <$> l !! k.
Proof.
  revert s k. induction l as [|e l IH]; intros s k Hs Hb; [done|].
  rewrite zlen_cons in Hb. pose proof (zlen_nonneg l).
  destruct k as [|k]; simpl.
  - rewrite clone_bytes_id. do 2 f_equal. lia.
  - rewrite uadd_small by ulia. rewrite IH by lia.
    replace (s + 1 + Z.of_nat k) with (s + Z.of_nat (S k)) by lia. done.
Qed.

(** Entry [k] of a request that starts at [index] is already in the log, or is
    covered by the snapshot. *)
Definition entry_matches n (index : Z) (k : nat) (e : LogEntry) : Prop :=
  n.(lastIncludedIndex) < index + Z.of_nat k →
  ∃ e', entry_at n (index + Z.of_nat k) = Some e' ∧ le_Term e' = le_Term e.

(** The log after entries from position [k] of the request replaced what was
    stored from index [index + k] on. *)
Definition spliced n (index : Z) (entries : list LogEntry) (k : nat) : Node :=
  set_log (take (Z.to_nat (index + Z.of_nat k - n.(lastIncludedIndex) - 1)) n.(log)
           ++ normalizeEntries (index + Z.of_nat k) (drop k entries)) n.

(** Either every entry is there and nothing changes, or the log is cut at the
    first entry that is missing or conflicts, and the rest is appended. *)
Definition append_outcome n (index : Z) (entries : list LogEntry) (r : go (Node * bool)) : Prop :=
  (r = Ret (n, false) ∧ ∀ k e, entries !! k = Some e → entry_matches n index k e) ∨
  (∃ k e, entries !! k = Some e ∧
     n.(lastIncludedIndex) < index + Z.of_nat k ≤ last_index n + 1 ∧
     (∀ j ej, (j < k)%nat → entries !! j = Some ej → entry_matches n index j ej) ∧
     (∀ e', entry_at n (index + Z.of_nat k) = Some e' → le_Term e' ≠ le_Term e) ∧
     r = Ret (spliced n index entries k, true)).

Lemma entry_matches_shift n index k e :
  entry_matches n (index + 1) k e → entry_matches n index (S k) e.
Proof.
  unfold entry_matches.
  by replace (index + 1 + Z.of_nat k) with (index + Z.of_nat (S k)) by lia.
Qed.

Lemma append_outcome_skip n index e rest r :
  entry_matches n index 0 e → append_outcome n (index + 1) rest r →
  append_outcome n index (e :: rest) r.
Proof.
  intros He [[-> Hall]|(k & e0 & Hk & Hr & Hbefore & Hnew & ->)]; [left|right].
  - split; [done|]. intros [|k] e0 Hk; simplify_eq/=; [done|].
    by apply entry_matches_shift, Hall.
  - exists (S k), e0. unfold spliced. simpl.
    replace (index + Z.of_nat (S k)) with (index + 1 + Z.of_nat k) by lia.
    split_and!; try done; try lia.
    intros [|j] ej Hj Hej; simplify_eq/=; [done|].
    apply entry_matches_shift, Hbefore; [lia|done].
Qed.

Lemma append_outcome_cut n index e rest :
  n.(lastIncludedIndex) < index ≤ last_index n + 1 →
  (∀ e', entry_at n index = Some e' → le_Term e' ≠ le_Term e) →
  append_outcome n index (e :: rest) (Ret (spliced n index (e :: rest) 0, true)).
Proof.
  intros Hi Hnew. right. exists O, e. rewrite Z.add_0_r.
  split_and!; try done; lia.
Qed.

Lemma appendEntriesLoop_spec n entries index :
  log_wf n → 0 < index ≤ last_index n + 1 → index + zlen entries < two64 →
  append_outcome n index entries (appendEntriesLoop index entries n).
Proof.
  intros Hwf. revert index. induction entries as [|e rest IH]; intros index Hi Hb; simpl.
  { left. split; [done|]. intros k e. by rewrite lookup_nil. }
  rewrite zlen_cons in Hb. pose proof (zlen_nonneg rest).
  pose proof (last_index_ge n Hwf) as Hge. pose proof Hwf as (_ & _ & Hmax).
  rewrite (uadd_small index 1) by ulia.
  destruct (Z.leb_spec index (lastIncludedIndex n)) as [Hcov|Hcov].
  { apply append_outcome_skip; [unfold entry_matches; lia|]. apply IH; lia. }
  destruct (containsLogIndexLocked n index) eqn:Hc.
  - apply containsLogIndex_wf in Hc; [|done].
    destruct (slice_at_log n index Hwf Hc) as (local & Hlocal & Hat).
    rewrite Hat. simpl.
    destruct (Z.eqb_spec (le_Term local) (le_Term e)) as [Heq|Hne]; simpl.
    + apply append_outcome_skip; [|apply IH; lia]. intros _. exists local.
      by replace (index + Z.of_nat 0) with index by lia.
    + rewrite (firstLogIndex_wf n Hwf), usub_small, slice_to_Ret
        by (unfold last_index in *; ulia). simpl.
      replace (set_log _ n) with (spliced n index (e :: rest) 0);
        [apply append_outcome_cut; [lia|congruence]|].
      unfold spliced. rewrite Z.add_0_r. simpl. rewrite (uadd_small index 1) by ulia.
      do 3 f_equal. lia.
  - assert (index = last_index n + 1) as Hidx.
    { destruct (decide (index ≤ last_index n)) as [Hle|]; [|lia].
      rewrite (proj2 (containsLogIndex_wf n index Hwf)) in Hc; [done|lia]. }
    replace (set_log _ n) with (spliced n index (e :: rest) 0);
      [apply append_outcome_cut; [lia|intros e' ?%entry_at_Some; lia]|].
    unfold spliced. rewrite Z.add_0_r. simpl. rewrite (uadd_small index 1) by ulia.
    rewrite take_ge; [done|]. unfold last_index, zlen in *. lia.
Qed.

Section spliced.
Variables (n : Node) (index : Z) (entries : list LogEntry) (k : nat).
Hypothesis Hwf : log_wf n.
Hypothesis Hrange : n.(lastIncludedIndex) < index + Z.of_nat k ≤ last_index n + 1.
Hypothesis Hk : (k ≤ length entries)%nat.
Hypothesis Hmax : index + zlen entries < two64.

Lemma spliced_lookup j :
  (spliced n index entries k).(log) !! j =
  if decide (Z.of_nat j < index + Z.of_nat k - n.(lastIncludedIndex) - 1)
  then n.(log) !! j
  else (fun e => mkEntry (le_Term e) (n.(lastIncludedIndex) + 1 + Z.of_nat j) (le_Command e))
       <$> entries !! Z.to_nat (n.(lastIncludedIndex) + 1 + Z.of_nat j - index).
Proof using All.
  unfold spliced; simpl. unfold last_index, zlen in *. pose proof Hwf as (_ & ? & ?).
  case_decide as Hd.
  - rewrite lookup_app_l by (rewrite length_take; lia).
    rewrite lookup_take. rewrite decide_True by lia. done.
  - rewrite lookup_app_r by (rewrite length_take; lia).
    rewrite length_take, normalizeEntries_lookup, lookup_drop
      by (unfold zlen; rewrite ?length_drop; lia).
    replace (k + (j - Z.to_nat (index + Z.of_nat k - lastIncludedIndex n - 1) `min` length (log n)))%nat
      with (Z.to_nat (lastIncludedIndex n + 1 + Z.of_nat j - index)) by lia.
    replace (index + Z.of_nat k +
      Z.of_nat (j - Z.to_nat (index + Z.of_nat k - lastIncludedIndex n - 1) `min` length (log n)))
      with (lastIncludedIndex n + 1 + Z.of_nat j) by lia.
    done.
Qed.

Lemma spliced_last_index : last_index (spliced n index entries k) = index + zlen entries - 1.
Proof using All.
  unfold spliced, last_index, zlen in *; simpl. pose proof Hwf as (_ & ? & ?).
  rewrite length_app, length_take, length_normalizeEntries, length_drop. lia.
Qed.

Lemma spliced_log_wf : index + zlen entries ≤ two64 - 1 → log_wf (spliced n index entries k).
Proof using All.
  intros Hlt. pose proof Hwf as (Hc & ? & ?). split_and!.
  - intros j e. rewrite spliced_lookup. case_decide; [apply Hc|].
    intros (e0 & _ & ->)%fmap_Some. done.
  - done.
  - rewrite spliced_last_index. lia.
Qed.

Lemma spliced_entry_at i :
  entry_at (spliced n index entries k) i =
  if decide (i < index + Z.of_nat k) then entry_at n i
  else (fun e => mkEntry (le_Term e) i (le_Command e)) <$> entries !! Z.to_nat (i - index).
Proof using All.
  unfold entry_at. rewrite spliced_lookup. simpl. pose proof Hwf as (Hc & ? & ?).
  destruct (Z.ltb_spec (lastIncludedIndex n) i) as [Hi|Hi].
  - rewrite !(Z2Nat.id (i - lastIncludedIndex n - 1)) by lia.
    replace (lastIncludedIndex n + 1 + (i - lastIncludedIndex n - 1)) with i by lia.
    repeat case_decide; try lia; done.
  - rewrite decide_True by lia. done.
Qed.
End spliced.

(** A request whose fields are in range. [aeq_PrevLogTerm] is not zero when there
    is a previous entry: entries are created in terms that start at one. *)
Definition request_wf (req : AppendEntriesRequest) : Prop :=
  in_u64 (aeq_Term req) ∧ 0 ≤ aeq_PrevLogIndex req ∧
  aeq_PrevLogIndex req + zlen (aeq_Entries req) < two64 - 1 ∧
  (0 < aeq_PrevLogIndex req → aeq_PrevLogTerm req ≠ 0).

(** The sender is refused: its term is behind, or it is not a member. *)
Definition refused (req : AppendEntriesRequest) n : Prop :=
  aeq_Term req < n.(currentTerm) ∨ isMemberLocked n (aeq_LeaderID req) = false.

(** The consistency check of AppendEntries. *)
Definition prev_matches (req : AppendEntriesRequest) n : Prop :=
  aeq_PrevLogIndex req = 0 ∨ term_at n (aeq_PrevLogIndex req) = aeq_PrevLogTerm req.

#[export] Instance refused_dec req n : Decision (refused req n).
Proof. unfold refused. apply _. Defined.

#[export] Instance prev_matches_dec req n : Decision (prev_matches req n).
Proof. unfold prev_matches. apply _. Defined.

(** The node after it has recognised the sender as leader (lines 306 to 320). *)
Definition adopted (req : AppendEntriesRequest) n : Node :=
  let n := if n.(currentTerm) <? aeq_Term req
           then dropLeadership (set_votedFor "" (set_currentTerm (aeq_Term req) n)) else n in
  let n := if negb (bool_decide (n.(state) = Follower))
           then set_matchIndex None (set_nextIndex None n) else n in
  set_leaderID (aeq_LeaderID req) (set_state Follower n).

(** The commit index after an accepted request (lines 332 to 338). *)
Definition commit_upto (c : Z) n : Node :=
  if n.(commitIndex) <? c then
    let nextCommit := Z.min c (lastLogIndexLocked n) in
    if n.(commitIndex) <? nextCommit
    then signalCommitReadyLocked (set_commitIndex nextCommit n) else n
  else n.

Lemma adopted_fields req n :
  let a := adopted req n in
  a.(nodeID) = n.(nodeID) ∧ a.(peers) = n.(peers) ∧ a.(selfMember) = n.(selfMember) ∧
  a.(log) = n.(log) ∧ a.(commitIndex) = n.(commitIndex) ∧ a.(lastApplied) = n.(lastApplied) ∧
  a.(lastIncludedIndex) = n.(lastIncludedIndex) ∧ a.(lastIncludedTerm) = n.(lastIncludedTerm) ∧
  a.(state) = Follower ∧ a.(leaderID) = aeq_LeaderID req ∧
  a.(currentTerm) = Z.max n.(currentTerm) (aeq_Term req) ∧ a.(store) = n.(store).
Proof.
  unfold adopted.
  destruct (Z.ltb_spec (currentTerm n) (aeq_Term req)); simpl; case_bool_decide; simpl;
    split_and!; done || lia.
Qed.

(** ** Nodes with the same log *)

Definition same_log (n m : Node) : Prop :=
  n.(log) = m.(log) ∧ n.(lastIncludedIndex) = m.(lastIncludedIndex) ∧
  n.(lastIncludedTerm) = m.(lastIncludedTerm).

#[export] Instance same_log_equiv : Equivalence same_log.
Proof. unfold same_log. split; red; intros; intuition congruence. Qed.

#[export] Instance term_at_proper : Proper (same_log ==> eq ==> eq) term_at.
Proof. intros n m (E1 & E2 & E3) i j ->. unfold term_at, entry_at. by rewrite E1, E2, E3. Qed.

#[export] Instance entry_at_proper : Proper (same_log ==> eq ==> eq) entry_at.
Proof. intros n m (E1 & E2 & E3) i j ->. unfold entry_at. by rewrite E1, E2. Qed.

#[export] Instance last_index_proper : Proper (same_log ==> eq) last_index.
Proof. intros n m (E1 & E2 & E3). unfold last_index. by rewrite E1, E2. Qed.

#[export] Instance log_wf_proper : Proper (same_log ==> iff) log_wf.
Proof.
  intros n m (E1 & E2 & E3). unfold log_wf, last_index. by rewrite E1, E2.
Qed.

Lemma adopted_same_log req n : same_log (adopted req n) n.
Proof. destruct (adopted_fields req n) as (_&_&_&?&_&_&?&?&_). by split_and!. Qed.

Lemma set_store_id n : set_store n.(store) n = n.
Proof. by destruct n. Qed.

Lemma persistLocked_eq n : ∃ s err, persistLocked n = (set_store s n, err).
Proof.
  unfold persistLocked. destruct (store n) as [s|] eqn:E.
  - destruct (Save (persistentOf n) s). eauto.
  - exists None, None. rewrite <-E. by rewrite set_store_id.
Qed.

(** The checked position is inside the log or in the snapshot. *)
Lemma prev_in_range req n :
  log_wf n → request_wf req → prev_matches req n →
  aeq_PrevLogIndex req = 0 ∨
  n.(lastIncludedIndex) ≤ aeq_PrevLogIndex req ≤ last_index n.
Proof.
  intros Hwf (_ & Hp & _ & Hnz) [?|Hm]; [by left|].
  destruct (decide (aeq_PrevLogIndex req = 0)); [by left|right].
  pose proof (last_index_ge n Hwf). specialize (Hnz ltac:(lia)).
  unfold term_at in Hm. split_in Hm; subst; try lia.
  destruct (entry_at n _) as [e|] eqn:He; [|simpl in Hm; lia].
  apply entry_at_Some in He. lia.
Qed.

(** The check of appendEntriesToLogLocked decides [prev_matches]. *)
Lemma prev_check_spec req n :
  log_wf n → request_wf req →
  (if 0 <? aeq_PrevLogIndex req
   then t ← logTermAtLocked n (aeq_PrevLogIndex req); Ret (negb (t =? aeq_PrevLogTerm req))
   else Ret false) = Ret (bool_decide (¬ prev_matches req n)).
Proof.
  intros Hwf (_ & ? & _). rewrite (logTermAt_wf n _ Hwf). simpl. unfold prev_matches.
  destruct (Z.ltb_spec 0 (aeq_PrevLogIndex req)); f_equal; symmetry;
    [|apply bool_decide_eq_false; intros Hn; apply Hn; lia].
  destruct (Z.eqb_spec (term_at n (aeq_PrevLogIndex req)) (aeq_PrevLogTerm req)); simpl;
    [apply bool_decide_eq_false|apply bool_decide_eq_true]; intuition lia.
Qed.

(** appendEntriesToLogLocked refuses exactly when the check fails, and otherwise
    leaves one of the two outcomes of the loop. *)
Lemma appendEntriesToLog_spec req n :
  log_wf n → request_wf req →
  (¬ prev_matches req n ∧
   appendEntriesToLogLocked (aeq_PrevLogIndex req) (aeq_PrevLogTerm req) (aeq_Entries req) n =
   Ret (n, (false, Some (ErrLogInconsistent (aeq_PrevLogIndex req) (aeq_PrevLogTerm req))))) ∨
  (prev_matches req n ∧ ∃ n1 b,
   append_outcome n (aeq_PrevLogIndex req + 1) (aeq_Entries req) (Ret (n1, b)) ∧
   appendEntriesToLogLocked (aeq_PrevLogIndex req) (aeq_PrevLogTerm req) (aeq_Entries req) n =
   Ret (n1, (b, None))).
Proof.
  intros Hwf Hreq. unfold appendEntriesToLogLocked. rewrite (prev_check_spec req n Hwf Hreq).
  simpl. case_bool_decide as Hpm; [by left|right].
  split; [done|]. pose proof (prev_in_range req n Hwf Hreq Hpm) as Hrange.
  destruct Hreq as (_ & ? & ? & _). pose proof (zlen_nonneg (aeq_Entries req)).
  pose proof (last_index_ge n Hwf). pose proof Hwf as (_ & _ & ?).
  rewrite uadd_small by ulia.
  pose proof (appendEntriesLoop_spec n (aeq_Entries req) (aeq_PrevLogIndex req + 1) Hwf
                ltac:(lia) ltac:(lia)) as Hout.
  destruct (appendEntriesLoop _ _ n) as [[n1 b]|];
    [eauto|by destruct Hout as [[? _]|(?&?&_&_&_&_&?)]].
Qed.

Lemma append_outcome_term n index es n1 b :
  append_outcome n index es (Ret (n1, b)) → n1.(currentTerm) = n.(currentTerm).
Proof. by intros [[[= -> _] _]|(?&?&_&_&_&_&[= -> _])]. Qed.

Lemma commit_upto_term c n : (commit_upto c n).(currentTerm) = n.(currentTerm).
Proof. unfold commit_upto. split_ifs; done. Qed.

(** Where a conditional persist ends, up to the store. *)
Lemma maybe_persist {R} (b : bool) n (r : R) :
  ∃ s err, (if b then let '(n, err) := persistLocked n in Ret (n, (r, err))
            else Ret (n, (r, None))) = Ret (set_store s n, (r, err)).
Proof.
  destruct (persistLocked_eq n) as (s & err & Hp). destruct b.
  - rewrite Hp. eauto.
  - exists n.(store), None. by rewrite set_store_id.
Qed.

(** The three outcomes of HandleAppendEntries: refused, inconsistent, accepted. *)
Lemma HandleAppendEntries_cases req n :
  log_wf n → request_wf req →
  (refused req n ∧ HandleAppendEntries req n = Ret (n, (mkAER n.(currentTerm) false, None))) ∨
  (¬ refused req n ∧ ¬ prev_matches req n ∧ ∃ s err,
     HandleAppendEntries req n =
     Ret (set_store s (adopted req n), (mkAER (aeq_Term req) false, err))) ∨
  (¬ refused req n ∧ prev_matches req n ∧ ∃ n1 b s err,
     append_outcome (adopted req n) (aeq_PrevLogIndex req + 1) (aeq_Entries req) (Ret (n1, b)) ∧
     HandleAppendEntries req n =
     Ret (set_store s (commit_upto (aeq_LeaderCommit req) n1), (mkAER (aeq_Term req) true, err))).
Proof.
  intros Hwf Hreq. unfold HandleAppendEntries.
  destruct (Z.ltb_spec (aeq_Term req) (currentTerm n)) as [|Hterm]; [left; split; [by left|done]|].
  destruct (isMemberLocked n (aeq_LeaderID req)) eqn:Hmem; simpl;
    [right|left; split; [by right|done]].
  assert (Hnr : ¬ refused req n) by (unfold refused; rewrite Hmem; intuition (lia || done)).
  fold (adopted req n). pose proof (adopted_same_log req n) as Hsame.
  assert (Hct : (adopted req n).(currentTerm) = aeq_Term req).
  { destruct (adopted_fields req n) as (_&_&_&_&_&_&_&_&_&_&Hc&_). lia. }
  assert (Hwfa : log_wf (adopted req n)) by by rewrite Hsame.
  assert (Hpm : prev_matches req (adopted req n) ↔ prev_matches req n).
  { unfold prev_matches. by rewrite Hsame. }
  destruct (appendEntriesToLog_spec req (adopted req n) Hwfa Hreq)
    as [[Hno ->]|(Hyes & n1 & b & Hout & ->)];
    rewrite go_bind_Ret; cbv beta iota zeta; [left|right].
  - rewrite Hct. split_and!; [done|by rewrite <-Hpm|]. apply maybe_persist.
  - split_and!; [done|by rewrite <-Hpm|]. fold (commit_upto (aeq_LeaderCommit req) n1).
    rewrite commit_upto_term, (append_outcome_term _ _ _ _ _ Hout), Hct.
    destruct (maybe_persist ((currentTerm n <? aeq_Term req) || b)
                (commit_upto (aeq_LeaderCommit req) n1) (mkAER (aeq_Term req) true))
      as (s & err & Hp).
    exists n1, b, s, err. split; [done|]. rewrite <-Hp.
    by destruct ((currentTerm n <? aeq_Term req) || b).
Qed.

(** ** Preservation of the invariant *)

(** The store does not take part in the invariant. *)
Lemma node_wf_set_store s n : node_wf (set_store s n) ↔ node_wf n.
Proof. by destruct n. Qed.

Lemma persistLocked_wf n : node_wf n → node_wf (persistLocked n).1.
Proof.
  intros. destruct (persistLocked_eq n) as (s & err & ->). by apply node_wf_set_store.
Qed.

(** The request agrees with what the node knows to be committed. *)
Definition agrees_committed (req : AppendEntriesRequest) n : Prop :=
  ∀ k e, aeq_Entries req !! k = Some e →
    aeq_PrevLogIndex req + 1 + Z.of_nat k ≤ n.(commitIndex) →
    entry_matches n (aeq_PrevLogIndex req + 1) k e.

Lemma append_outcome_wf n index es n1 b :
  log_wf n → index_order n → index + zlen es ≤ two64 - 1 →
  (∀ k e, es !! k = Some e → index + Z.of_nat k ≤ n.(commitIndex) → entry_matches n index k e) →
  append_outcome n index es (Ret (n1, b)) →
  log_wf n1 ∧ index_order n1.
Proof.
  intros Hwf Ho Hb Hag [[[= -> _] _]|(k & e & Hk & Hr & _ & Hnew & [= -> _])]; [done|].
  pose proof (lookup_lt_Some _ _ _ Hk) as Hlt.
  split; [apply spliced_log_wf; done || lia|].
  assert (commitIndex n < index + Z.of_nat k).
  { apply Z.nle_gt. intros Hle. destruct (Hag k e Hk Hle) as (e' & He' & ?); [lia|].
    by apply (Hnew e'). }
  unfold index_order. rewrite spliced_last_index by (done || lia).
  destruct Ho as (? & ? & ?). unfold zlen in *. simpl. lia.
Qed.

Lemma commit_upto_wf c n :
  log_wf n → index_order n → log_wf (commit_upto c n) ∧ index_order (commit_upto c n).
Proof.
  intros Hwf Ho. unfold commit_upto. rewrite (lastLogIndex_wf n Hwf).
  split_ifs; [|done|done]. split; [exact Hwf|].
  unfold index_order, last_index in *. simpl. lia.
Qed.

Lemma adopted_progress req n : progress_ok n → progress_ok (adopted req n).
Proof.
  unfold progress_ok, adopted.
  destruct (currentTerm n <? aeq_Term req), (state n) eqn:Hs; simpl; rewrite ?Hs; simpl; auto.
Qed.

Lemma append_outcome_frame n index es n1 b :
  append_outcome n index es (Ret (n1, b)) → ∃ l, n1 = set_log l n.
Proof.
  intros [[[= -> _] _]|(?&?&_&_&_&_&[= -> _])]; unfold spliced; [|eauto].
  exists n.(log). by destruct n.
Qed.

Lemma commit_upto_frame c n : ∃ i r, commit_upto c n = set_commitReady r (set_commitIndex i n).
Proof.
  unfold commit_upto, signalCommitReadyLocked.
  split_ifs; eauto; exists n.(commitIndex), n.(commitReady); by destruct n.
Qed.

Lemma accepted_wf a req n1 b :
  node_wf a → a.(state) = Follower → agrees_committed req a → request_wf req →
  append_outcome a (aeq_PrevLogIndex req + 1) (aeq_Entries req) (Ret (n1, b)) →
  node_wf (commit_upto (aeq_LeaderCommit req) n1).
Proof.
  intros (Hl & Ht & Ho & Hp) Hst Hag (_ & _ & Hb & _) Hout.
  destruct (append_outcome_wf a (aeq_PrevLogIndex req + 1) (aeq_Entries req) n1 b
              Hl Ho ltac:(lia) Hag Hout) as [Hl1 Ho1].
  destruct (commit_upto_wf (aeq_LeaderCommit req) n1 Hl1 Ho1) as [Hl2 Ho2].
  destruct (append_outcome_frame _ _ _ _ _ Hout) as [l ->].
  destruct (commit_upto_frame (aeq_LeaderCommit req) (set_log l a)) as (i & r & Ec).
  rewrite Ec in *. split_and!; [exact Hl2|exact Ht|exact Ho2|].
  unfold progress_ok in *. simpl. by rewrite Hst in *.
Qed.

Lemma HandleAppendEntries_wf req n :
  node_wf n → request_wf req → agrees_committed req n →
  ∃ n' resp, HandleAppendEntries req n = Ret (n', resp) ∧ node_wf n'.
Proof.
  intros (Hl & Ht & Ho & Hp) Hreq Hag.
  pose proof (adopted_same_log req n) as Hsame.
  pose proof (adopted_fields req n) as Hf.
  assert (Hla : log_wf (adopted req n)) by by rewrite Hsame.
  assert (Hoa : index_order (adopted req n)).
  { unfold index_order in *. rewrite (last_index_proper _ _ Hsame).
    destruct Hf as (_&_&_&_&->&->&->&_). done. }
  assert (Hta : in_u64 (currentTerm (adopted req n))).
  { destruct Hf as (_&_&_&_&_&_&_&_&_&_&->&_). destruct Hreq as (? & _). ulia. }
  pose proof (adopted_progress req n Hp) as Hpa.
  assert (Hst : state (adopted req n) = Follower) by apply Hf.
  destruct (HandleAppendEntries_cases req n Hl Hreq)
    as [[_ ->]|[(_ & _ & s & err & ->)|(_ & _ & n1 & b & s & err & Hout & ->)]].
  - eexists _, _. split; [done|]. by split_and!.
  - eexists _, _. split; [done|]. apply node_wf_set_store. by split_and!.
  - eexists _, _. split; [done|]. apply node_wf_set_store.
    apply (accepted_wf (adopted req n) req n1 b); try done.
    intros k e Hk. destruct Hf as (_&_&_&_&->&_). intros Hc.
    specialize (Hag k e Hk Hc). unfold entry_matches in *.
    rewrite (entry_at_proper _ _ Hsame _ _ eq_refl).
    by destruct Hsame as (_ & -> & _).
Qed.

End inv.
