(* ===== verification/Getters.v ===== *)
(** * Getters: the methods of a node that only read it (src/raft/node.go)

    Each is one critical section under the read lock. They have the names of the
    source with the type in front. *)
From S2P Require Import Prelude GoStrings Types Membership Node NodeInv.

Section getters.
Context {St : Type} `{!StableStore St} `{!MembershipJSON}.
Implicit Types n : RaftNode St.

Definition Node_ID n : string := n.(nodeID).

Definition Node_State n : Types.State := n.(state).

Definition Node_CurrentTerm n : Z := n.(currentTerm).

Definition Node_VotedFor n : string := n.(votedFor).

Definition Node_LeaderID n : string := n.(leaderID).

Definition Node_Log n : list LogEntry := cloneLog n.(log).

Definition Node_Peers n : list string := slice_elems (clonePeers n.(peers)).

Definition Node_Snapshot n : bytes := clone_bytes n.(snapshot).

Definition Node_LastIncludedIndex n : Z := n.(lastIncludedIndex).

Definition Node_LastIncludedTerm n : Z := n.(lastIncludedTerm).

Definition Node_LastLogIndex n : Z := lastLogIndexLocked n.

Definition Node_LastLogTerm n : Z := lastLogTermLocked n.

Definition Node_CommitIndex n : Z := n.(commitIndex).

Definition Node_LastApplied n : Z := n.(lastApplied).

(** Reading a nil map, or a peer that is not tracked, gives zero. *)
Definition Node_NextIndex (peerID : string) n : Z := default 0 (map_get n.(nextIndex) peerID).

Definition Node_MatchIndex (peerID : string) n : Z := default 0 (map_get n.(matchIndex) peerID).

End getters.
