(* ===== verification/Election.v ===== *)
(** * Election: elections and pre-votes (src/raft/election.go)

    [StartElection] runs in its own goroutine: between two of its critical
    sections any other method may run, and vote responses arrive on a channel in
    any order. It is modelled as a machine whose states are the program points
    between critical sections; [electionStep] is one critical section together
    with the code up to the next one, [electionRecv] is one [select] on the
    response channel. *)
From S2P Require Import Prelude GoStrings Types Membership Node.

(** What the [select] of the two loops receives: the end of the context, or the
    result of the call to one peer. *)
Inductive chanEvent (R : Type) :=
| CtxDone (c : ContextError)
| Result (peerID : string) (r : R + GoError).

Arguments CtxDone {R} c.
Arguments Result {R} peerID r.

(** Program points. [pending] are the peers whose goroutine has not delivered
    yet, so the loop variable [remaining] is its length. *)
Inductive electionPC :=
| ESelfCheck
| EPreSelfCheck
| EPreSnapshot
| EPreWait (req : PreVoteRequest) (peers pending : list string) (votes : Z)
| EPreResp (req : PreVoteRequest) (peers pending : list string) (votes : Z) (resp : PreVoteResponse)
| ECandidate
| ESnapshot
| EWait (req : RequestVoteRequest) (peers pending : list string) (votes : Z)
| EResp (req : RequestVoteRequest) (peers pending : list string) (votes : Z)
    (resp : RequestVoteResponse)
| ECheck (req : RequestVoteRequest) (peers pending : list string) (votes : Z)
    (resp : RequestVoteResponse)
| EPromote (term : Z)
| EDone (won : bool) (err : error).

(** Remove one occurrence. *)
Fixpoint remove_one (x : string) (l : list string) : list string :=
  match l with
  | [] => []
  | y :: l => if bool_decide (x = y) then l else y :: remove_one x l
  end.

Section election.
Context {St : Type} `{!StableStore St} `{!MembershipJSON}.
Abbreviation Node := (RaftNode St).
Implicit Types n : Node.

(** func electionSnapshot *)
Definition electionSnapshot n : Z * Z * Z * list string :=
  (n.(currentTerm), lastLogIndexLocked n, lastLogTermLocked n, slice_elems (clonePeers n.(peers))).

(** func stepDownForHigherTerm *)
Definition stepDownForHigherTerm (term : Z) n : Node * (bool * error) :=
  if term <=? n.(currentTerm) then (n, (false, None))
  else
    let n := set_currentTerm term n in
    let n := set_votedFor "" n in
    let n := dropLeadership (set_state Follower n) in
    let '(n, err) := persistLocked n in (n, (true, err)).

(** func isCandidateForTerm *)
Definition isCandidateForTerm (term : Z) n : bool :=
  bool_decide (n.(state) = Candidate) && (n.(currentTerm) =? term).

(** func promoteCandidate *)
Definition promoteCandidate (term : Z) n : go (Node * (bool * error)) :=
  if negb (bool_decide (n.(state) = Candidate)) || negb (n.(currentTerm) =? term)
     || negb n.(selfMember)
  then Ret (n, (false, None))
  else
    let n := set_leaderID n.(nodeID) (set_state Leader n) in
    n ← initLeaderProgressLocked n;
    let '(n, err) := persistLocked n in Ret (n, (true, err)).

(** func isSelfMember *)
Definition isSelfMember n : bool := n.(selfMember).

(** The entry of StartElection: line 15 checks the client. *)
Definition startElectionPC (clientNil : bool) : electionPC :=
  if clientNil then EDone false (Some (ErrMessage "vote client is nil")) else ESelfCheck.

(** Line 53 and line 113: the loops end when every peer has answered. *)
Definition preWait (req : PreVoteRequest) (peers pending : list string) (votes : Z) : electionPC :=
  match pending with [] => EDone false None | _ => EPreWait req peers pending votes end.

Definition voteWait (req : RequestVoteRequest) (peers pending : list string) (votes : Z)
    : electionPC :=
  match pending with [] => EDone false None | _ => EWait req peers pending votes end.

(** One critical section of StartElection or PreVoteElection. At the wait points
    and at the end there is none. *)
Definition electionStep (pc : electionPC) n : go (Node * electionPC) :=
  match pc with
  | ESelfCheck =>
      Ret (n, if negb (isSelfMember n) then EDone false None else EPreSelfCheck)
  | EPreSelfCheck =>
      Ret (n, if negb (isSelfMember n) then EDone false None else EPreSnapshot)
  | EPreSnapshot =>
      let '(term, lastIndex, lastTerm, peers) := electionSnapshot n in
      let votes := 1 in
      if majority (zlen peers + 1) <=? votes then Ret (n, ECandidate)
      else Ret (n, preWait (mkPVQ (term ⊕ 1) n.(nodeID) lastIndex lastTerm) peers peers votes)
  | EPreResp req peers pending votes resp =>
      let '(n, (steppedDown, err)) := stepDownForHigherTerm (pvr_Term resp) n in
      if bool_decide (is_Some err) || steppedDown then Ret (n, EDone false err)
      else if pvr_VoteGranted resp then
        let votes := votes + 1 in
        if majority (zlen peers + 1) <=? votes then Ret (n, ECandidate)
        else Ret (n, preWait req peers pending votes)
      else Ret (n, preWait req peers pending votes)
  | ECandidate =>
      let '(n, err) := BecomeCandidate n in
      Ret (n, match err with Some e => EDone false (Some e) | None => ESnapshot end)
  | ESnapshot =>
      let '(term, lastIndex, lastTerm, peers) := electionSnapshot n in
      let votes := 1 in
      if majority (zlen peers + 1) <=? votes then Ret (n, EPromote term)
      else Ret (n, voteWait (mkRVQ term n.(nodeID) lastIndex lastTerm) peers peers votes)
  | EResp req peers pending votes resp =>
      let '(n, (steppedDown, err)) := stepDownForHigherTerm (rvr_Term resp) n in
      if bool_decide (is_Some err) || steppedDown then Ret (n, EDone false err)
      else Ret (n, ECheck req peers pending votes resp)
  | ECheck req peers pending votes resp =>
      if negb (isCandidateForTerm (rvq_Term req) n) then Ret (n, EDone false None)
      else if rvr_VoteGranted resp then
        let votes := votes + 1 in
        if majority (zlen peers + 1) <=? votes then Ret (n, EPromote (rvq_Term req))
        else Ret (n, voteWait req peers pending votes)
      else Ret (n, voteWait req peers pending votes)
  | EPromote term =>
      r ← promoteCandidate term n;
      let '(n, (won, err)) := r in Ret (n, EDone won err)
  | EPreWait _ _ _ _ | EWait _ _ _ _ | EDone _ _ => Ret (n, pc)
  end.

(** One receive of the pre-vote loop (lines 113 to 122). *)
Definition preVoteRecv (pc : electionPC) (ev : chanEvent PreVoteResponse) : electionPC :=
  match pc with
  | EPreWait req peers pending votes =>
      match ev with
      | CtxDone c => EDone false (Some (ErrContext c))
      | Result peerID (inr _) => preWait req peers (remove_one peerID pending) votes
      | Result peerID (inl resp) => EPreResp req peers (remove_one peerID pending) votes resp
      end
  | _ => pc
  end.

(** One receive of the vote loop (lines 53 to 62). *)
Definition voteRecv (pc : electionPC) (ev : chanEvent RequestVoteResponse) : electionPC :=
  match pc with
  | EWait req peers pending votes =>
      match ev with
      | CtxDone c => EDone false (Some (ErrContext c))
      | Result peerID (inr _) => voteWait req peers (remove_one peerID pending) votes
      | Result peerID (inl resp) => EResp req peers (remove_one peerID pending) votes resp
      end
  | _ => pc
  end.

(** StartElection run with no other operation in between, on the responses
    [pre] and [vote] in their order of arrival. At most five critical sections
    separate two receives. *)
Fixpoint runElection (fuel : nat) (pre : list (chanEvent PreVoteResponse))
    (vote : list (chanEvent RequestVoteResponse)) (pc : electionPC) n : go (Node * electionPC) :=
  match fuel with
  | O => Ret (n, pc)
  | S fuel =>
      match pc with
      | EDone _ _ => Ret (n, pc)
      | EPreWait _ _ _ _ =>
          match pre with
          | [] => Ret (n, pc)
          | ev :: pre => runElection fuel pre vote (preVoteRecv pc ev) n
          end
      | EWait _ _ _ _ =>
          match vote with
          | [] => Ret (n, pc)
          | ev :: vote => runElection fuel pre vote (voteRecv pc ev) n
          end
      | _ => r ← electionStep pc n; runElection fuel pre vote r.2 r.1
      end
  end.

Definition electionFuel (pre : list (chanEvent PreVoteResponse))
    (vote : list (chanEvent RequestVoteResponse)) : nat :=
  8 + 2 * length pre + 3 * length vote.

(** func StartElection, undisturbed *)
Definition StartElection (clientNil : bool) (pre : list (chanEvent PreVoteResponse))
    (vote : list (chanEvent RequestVoteResponse)) n : go (Node * electionPC) :=
  runElection (electionFuel pre vote) pre vote (startElectionPC clientNil) n.

End election.
