(* ===== verification/Heartbeat.v ===== *)
(** * Heartbeat: replication rounds (src/raft/heartbeat.go)

    [replicateOnce] builds one request per peer, sends them all, and records the
    answers in the order they arrive. Like an election it runs beside the other
    methods, so it is a machine over the program points between its critical
    sections. *)
From S2P Require Import Prelude GoStrings Types Membership Node Election.

(** type appendRequest *)
Record appendRequest := mkAppendRequest {
  ar_peerID : string;
  ar_req : AppendEntriesRequest;
}.

(** Program points of replicateOnce. *)
Inductive replicatePC :=
| REnsure
| RPeers
| RBuild (todo : list string) (requests : list appendRequest)
| RWait (pending : list appendRequest)
| RStepDown (r : appendRequest) (pending : list appendRequest) (resp : AppendEntriesResponse)
| RRecord (r : appendRequest) (pending : list appendRequest) (resp : AppendEntriesResponse)
| RCommitted (pending : list appendRequest)
| RDone (err : error).

(** Take the request sent to [peerID] out of the pending ones. *)
Fixpoint take_request (peerID : string) (l : list appendRequest)
    : option (appendRequest * list appendRequest) :=
  match l with
  | [] => None
  | r :: l =>
      if bool_decide (ar_peerID r = peerID) then Some (r, l)
      else match take_request peerID l with
           | Some (r', l') => Some (r', r :: l')
           | None => None
           end
  end.

Section heartbeat.
Context {St : Type} `{!StableStore St} `{!MembershipJSON}.
Abbreviation Node := (RaftNode St).
Implicit Types n : Node.

(** func ensureLeaderProgress *)
Definition ensureLeaderProgress n : go Node :=
  if negb (bool_decide (n.(state) = Leader)) then Ret n
  else if bool_decide (n.(nextIndex) = None) || bool_decide (n.(matchIndex) = None)
  then initLeaderProgressLocked n
  else if existsb (fun peerID => bool_decide (map_get n.(nextIndex) peerID = None)
                                 || bool_decide (map_get n.(matchIndex) peerID = None)) n.(peers)
  then initLeaderProgressLocked n
  else Ret n.

(** func peerSnapshot *)
Definition peerSnapshot n : list string := n.(peers).

(** func isCommitted (src/raft/proposal.go) *)
Definition isCommitted (index : Z) n : bool := index <=? n.(commitIndex).

(** Line 70: the loop ends when every request has its result. *)
Definition replicateWait (pending : list appendRequest) : replicatePC :=
  match pending with [] => RDone None | _ => RWait pending end.

(** One critical section of replicateOnce. [ctxErr] is what [ctx.Err()] returns
    at that moment, [stop] the argument [stopWhenCommitted]. *)
Definition replicateStep (stop : Z) (ctxErr : option ContextError) (pc : replicatePC) n
    : go (Node * replicatePC) :=
  match pc with
  | REnsure => n ← ensureLeaderProgress n; Ret (n, RPeers)
  | RPeers => Ret (n, RBuild (peerSnapshot n) [])
  | RBuild [] requests => Ret (n, replicateWait requests)
  | RBuild (peerID :: todo) requests =>
      match ctxErr with
      | Some c => Ret (n, RDone (Some (ErrContext c)))
      | None =>
          b ← BuildAppendEntries peerID n;
          match b with
          | inr err => Ret (n, RDone (Some err))
          | inl req => Ret (n, RBuild todo (requests ++ [mkAppendRequest peerID req]))
          end
      end
  | RStepDown r pending resp =>
      let '(n, (steppedDown, err)) := stepDownForHigherTerm (aer_Term resp) n in
      if bool_decide (is_Some err) || steppedDown then Ret (n, RDone err)
      else Ret (n, RRecord r pending resp)
  | RRecord r pending resp =>
      if aer_Success resp then
        let match_ := aeq_PrevLogIndex (ar_req r) ⊕ zlen (aeq_Entries (ar_req r)) in
        b ← RecordReplicationSuccess (ar_peerID r) match_ n;
        match b.2 with
        | Some err => Ret (b.1, RDone (Some err))
        | None => Ret (b.1, if 0 <? stop then RCommitted pending else replicateWait pending)
        end
      else
        b ← RecordReplicationFailure (ar_peerID r) n;
        match b.2 with
        | Some err => Ret (b.1, RDone (Some err))
        | None => Ret (b.1, replicateWait pending)
        end
  | RCommitted pending =>
      Ret (n, if isCommitted stop n then RDone None else replicateWait pending)
  | RWait _ | RDone _ => Ret (n, pc)
  end.

(** One receive of the loop (lines 70 to 79). *)
Definition replicateRecv (pc : replicatePC) (ev : chanEvent AppendEntriesResponse) : replicatePC :=
  match pc with
  | RWait pending =>
      match ev with
      | CtxDone c => RDone (Some (ErrContext c))
      | Result peerID r =>
          match take_request peerID pending with
          | None => pc
          | Some (req, pending) =>
              match r with
              | inr _ => replicateWait pending
              | inl resp => RStepDown req pending resp
              end
          end
      end
  | _ => pc
  end.

(** A round with no other operation in between. *)
Fixpoint runReplicate (fuel : nat) (stop : Z) (evs : list (chanEvent AppendEntriesResponse))
    (pc : replicatePC) n : go (Node * replicatePC) :=
  match fuel with
  | O => Ret (n, pc)
  | S fuel =>
      match pc with
      | RDone _ => Ret (n, pc)
      | RWait _ =>
          match evs with
          | [] => Ret (n, pc)
          | ev :: evs => runReplicate fuel stop evs (replicateRecv pc ev) n
          end
      | _ => r ← replicateStep stop None pc n; runReplicate fuel stop evs r.2 r.1
      end
  end.

Definition replicateFuel (evs : list (chanEvent AppendEntriesResponse)) n : nat :=
  4 + length n.(peers) + 4 * length evs.

(** func replicateOnce and func ReplicateOnce, undisturbed *)
Definition replicateOnce (stop : Z) (evs : list (chanEvent AppendEntriesResponse)) n
    : go (Node * replicatePC) :=
  runReplicate (replicateFuel evs n) stop evs REnsure n.

Definition ReplicateOnce (evs : list (chanEvent AppendEntriesResponse)) n : go (Node * replicatePC) :=
  replicateOnce 0 evs n.

End heartbeat.
