(* ===== verification/Proposal.v ===== *)
(** * Proposal: proposing a command (src/raft/proposal.go)

    [ProposeWithRetryInterval] appends the command to the local log and then
    runs replication rounds until the entry's index is committed. It is a machine
    over its critical sections, with the machine of the current round inside. *)
From S2P Require Import Prelude GoStrings Types Membership Node Election Heartbeat.

Inductive proposePC :=
| PStart
| PState
| PAppend
| PCommitted (entry : LogEntry)
| PLeader (entry : LogEntry)
| PReplicate (entry : LogEntry) (pc : replicatePC)
| PCommitted2 (entry : LogEntry)
| PTimer (entry : LogEntry)
| PDone (entry : LogEntry) (err : error).

Section proposal.
Context {St : Type} `{!StableStore St} `{!MembershipJSON}.
Abbreviation Node := (RaftNode St).
Implicit Types n : Node.

(** One critical section of ProposeWithRetryInterval for [command]. *)
Definition proposeStep (clientNil : bool) (ctxErr : option ContextError) (command : bytes)
    (pc : proposePC) n : go (Node * proposePC) :=
  match pc with
  | PStart =>
      Ret (n, match ctxErr with
              | Some c => PDone zeroEntry (Some (ErrContext c))
              | None => PState
              end)
  | PState =>
      Ret (n, if bool_decide (n.(state) = Leader) then PAppend
              else PDone zeroEntry (Some (ErrNotLeader n.(state))))
  | PAppend =>
      r ← AppendLocal command n;
      let '(n, (entry, err)) := r in
      Ret (n, match (err : error) with
              | Some e => PDone zeroEntry (Some e)
              | None => PCommitted entry
              end)
  | PCommitted entry =>
      Ret (n, if isCommitted (le_Index entry) n then PDone entry None else PLeader entry)
  | PLeader entry =>
      Ret (n, if bool_decide (n.(state) = Leader) then
                if clientNil then PDone entry (Some (ErrMessage "append client is nil"))
                else PReplicate entry REnsure
              else PDone entry (Some (ErrNotLeader n.(state))))
  | PReplicate entry (RDone err) =>
      Ret (n, match err with Some e => PDone entry (Some e) | None => PCommitted2 entry end)
  | PReplicate entry pc =>
      r ← replicateStep (le_Index entry) ctxErr pc n; Ret (r.1, PReplicate entry r.2)
  | PCommitted2 entry =>
      Ret (n, if isCommitted (le_Index entry) n then PDone entry None else PTimer entry)
  | PTimer _ | PDone _ _ => Ret (n, pc)
  end.

(** The two places where the machine waits: a replication result, and the retry
    timer against the end of the context. *)
Inductive proposeEvent :=
| PResult (ev : chanEvent AppendEntriesResponse)
| PTick
| PCtxDone (c : ContextError).

Definition proposeRecv (pc : proposePC) (ev : proposeEvent) : proposePC :=
  match pc, ev with
  | PReplicate entry pc, PResult ev => PReplicate entry (replicateRecv pc ev)
  | PTimer entry, PTick => PCommitted entry
  | PTimer entry, PCtxDone c => PDone entry (Some (ErrContext c))
  | _, _ => pc
  end.

End proposal.
