(* ===== verification/Timers.v ===== *)
(** * Timers: the loops that drive a node (src/raft/election_timer.go, heartbeat.go,
    timing.go)

    RunElectionTimer arms a timer with a random timeout and starts an election when it
    fires; RunHeartbeatLoop replicates at every tick while the node leads. Both are
    machines whose program points contain the machine of the election or of the round
    that is running. Time itself is the environment: which case of a select is taken
    is an event. *)
From S2P Require Import Prelude GoStrings Types Membership Node Election Heartbeat.

(** ** Durations (timing.go), in nanoseconds *)

Definition Millisecond : Z := 1000000.

Definition MinElectionTimeout : Z := 150 * Millisecond.

Definition MaxElectionTimeout : Z := 300 * Millisecond.

Definition DefaultHeartbeatInterval : Z := 50 * Millisecond.

(** [Rand.Int63n] of package math/rand *)
Class Rand := {
  Int63n : Z → Z;
  Int63n_range : ∀ n, 0 < n → 0 ≤ Int63n n < n;
}.

(** func RandomElectionTimeout *)
Definition RandomElectionTimeout `{Rand} : Z :=
  let delta := MaxElectionTimeout - MinElectionTimeout in
  MinElectionTimeout + Int63n (delta + 1).

(** ** Timers *)

(** A [time.Timer]: running, or with its tick in the channel, or neither. *)
Inductive Timer := TimerRunning | TimerFired | TimerStopped.

(** [Timer.Stop] *)
Definition Timer_Stop (t : Timer) : Timer * bool :=
  match t with
  | TimerRunning => (TimerStopped, true)
  | t => (t, false)
  end.

(** func stopTimer: the tick of a timer that fired already is taken out *)
Definition stopTimer (t : Timer) : Timer :=
  let '(t, stopped) := Timer_Stop t in
  if negb stopped then match t with TimerFired => TimerStopped | t => t end else t.

(** ** RunElectionTimer *)

(** Before the timer is armed; at the select; before the check of the role; in an
    election; at the end. *)
Inductive timerPC :=
| TArm
| TSelect (timeout : Z) (timer : Timer)
| TState
| TElect (pc : electionPC)
| TDone (err : error).

(** What the select and the election's own selects receive. *)
Inductive timerEvent :=
| TCtxDone (c : ContextError)
| TReset
| TFired
| TPreVote (ev : chanEvent PreVoteResponse)
| TVote (ev : chanEvent RequestVoteResponse).

(** ** RunHeartbeatLoop *)

Inductive heartbeatPC :=
| BSelect (interval : Z)
| BState (interval : Z)
| BRound (interval : Z) (pc : replicatePC)
| BDone (err : error).

Inductive heartbeatEvent :=
| BCtxDone (c : ContextError)
| BTick
| BResult (ev : chanEvent AppendEntriesResponse).

Section timers.
Context {St : Type} `{!StableStore St} `{!MembershipJSON}.
Abbreviation Node := (RaftNode St).
Implicit Types n : Node.

(** One critical section of RunElectionTimer; [timeout] is what [nextTimeout()]
    returns. *)
Definition timerStep (clientNil : bool) (timeout : Z) (pc : timerPC) n : go (Node * timerPC) :=
  match pc with
  | TArm => Ret (n, TSelect timeout TimerRunning)
  | TState =>
      Ret (n, if negb (bool_decide (n.(state) = Leader)) then TElect (startElectionPC clientNil)
              else TArm)
  | TElect (EDone _ err) => Ret (n, match err with Some e => TDone (Some e) | None => TArm end)
  | TElect pc => x ← electionStep pc n; Ret (x.1, TElect x.2)
  | TSelect _ _ | TDone _ => Ret (n, pc)
  end.

(** One receive. The two cases that leave the timer running stop it. *)
Definition timerRecv (pc : timerPC) (ev : timerEvent) : timerPC :=
  match pc, ev with
  | TSelect _ timer, TCtxDone c => let _ := stopTimer timer in TDone (Some (ErrContext c))
  | TSelect _ timer, TReset => let _ := stopTimer timer in TArm
  | TSelect _ _, TFired => TState
  | TElect pc, TPreVote ev => TElect (preVoteRecv pc ev)
  | TElect pc, TVote ev => TElect (voteRecv pc ev)
  | _, _ => pc
  end.

(** The entry of RunHeartbeatLoop (lines 14 to 21). *)
Definition startHeartbeat (clientNil : bool) (interval : Z) : heartbeatPC :=
  if clientNil then BDone (Some (ErrMessage "append client is nil"))
  else BSelect (if interval <=? 0 then DefaultHeartbeatInterval else interval).

(** One critical section of RunHeartbeatLoop. *)
Definition heartbeatStep (ctxErr : option ContextError) (pc : heartbeatPC) n : go (Node * heartbeatPC) :=
  match pc with
  | BState i =>
      Ret (n, if negb (bool_decide (n.(state) = Leader)) then BSelect i else BRound i REnsure)
  | BRound i (RDone err) =>
      Ret (n, match err with Some e => BDone (Some e) | None => BSelect i end)
  | BRound i pc => x ← replicateStep 0 ctxErr pc n; Ret (x.1, BRound i x.2)
  | BSelect _ | BDone _ => Ret (n, pc)
  end.

Definition heartbeatRecv (pc : heartbeatPC) (ev : heartbeatEvent) : heartbeatPC :=
  match pc, ev with
  | BSelect _, BCtxDone c => BDone (Some (ErrContext c))
  | BSelect i, BTick => BState i
  | BRound i pc, BResult ev => BRound i (replicateRecv pc ev)
  | _, _ => pc
  end.

End timers.

(** ** Timing *)

(** A tick that was sent before the timer was stopped is not seen by the next
    select. *)
Lemma stopTimer_stopped t : stopTimer t = TimerStopped.
Proof. by destruct t. Qed.

Lemma RandomElectionTimeout_range `{Rand} :
  MinElectionTimeout ≤ RandomElectionTimeout ≤ MaxElectionTimeout.
Proof.
  unfold RandomElectionTimeout.
  destruct (Int63n_range (MaxElectionTimeout - MinElectionTimeout + 1)); [by compute|]. lia.
Qed.
