(* ===== verification/NodeStep.v ===== *)
(** * NodeStep: every locked operation of a node as one step

    [nodeOp] lists the critical sections of package raft that write the node,
    [exec] runs one. The invariant [node_wf] is preserved by every step, and no
    step panics; terms and commit indices only grow; a vote is never changed
    within a term. *)
From S2P Require Import Prelude GoStrings Types Membership Node NodeInv Election Heartbeat.
From S2P Require Import Proposal.

Inductive nodeOp :=
| OBecomeFollower (term : Z)
| OBecomeCandidate
| OBecomeLeader
| OSetVotedFor (candidateID : string)
| ORequestVote (req : RequestVoteRequest)
| OHandleAppendEntries (req : AppendEntriesRequest)
| OAppendLocal (command : bytes)
| ORecordReplicationSuccess (peerID : string) (match_ : Z)
| ORecordReplicationFailure (peerID : string)
| OCompact (snap : bytes)
| OApplyMembershipChange (change : MembershipChange)
| OApplyCommittedMembershipChange (change : MembershipChange) (index : Z)
| OMarkApplied (index : Z)
| OStepDown (term : Z)
| OPromote (term : Z)
| OEnsureLeaderProgress
| OTakeCommitReady.

Section steps.
Context {St : Type} `{!StableStore St} `{!MembershipJSON}.
Abbreviation Node := (RaftNode St).
Implicit Types n : Node.

(** A receive on the channel that CommitReady returns. *)
Definition takeCommitReady n : Node := set_commitReady false n.

Definition exec (op : nodeOp) n : go Node :=
  match op with
  | OBecomeFollower term => Ret (BecomeFollower term n).1
  | OBecomeCandidate => Ret (BecomeCandidate n).1
  | OBecomeLeader => r ← BecomeLeader n; Ret r.1
  | OSetVotedFor c => Ret (SetVotedFor c n).1
  | ORequestVote req => Ret (RequestVote req n).1
  | OHandleAppendEntries req => r ← HandleAppendEntries req n; Ret r.1
  | OAppendLocal command => r ← AppendLocal command n; Ret r.1
  | ORecordReplicationSuccess p m => r ← RecordReplicationSuccess p m n; Ret r.1
  | ORecordReplicationFailure p => r ← RecordReplicationFailure p n; Ret r.1
  | OCompact s => r ← Compact s n; Ret r.1
  | OApplyMembershipChange c => r ← ApplyMembershipChange c n; Ret r.1
  | OApplyCommittedMembershipChange c i => r ← applyCommittedMembershipChange c i n; Ret r.1
  | OMarkApplied i => Ret (markApplied i n)
  | OStepDown term => Ret (stepDownForHigherTerm term n).1
  | OPromote term => r ← promoteCandidate term n; Ret r.1
  | OEnsureLeaderProgress => ensureLeaderProgress n
  | OTakeCommitReady => Ret (takeCommitReady n)
  end.

(** What the callers owe, since no method checks it: arguments in range, append requests that agree
    with the committed prefix, progress reports within the leader's log, applied
    indices that are committed, and room for one more index. *)
Definition op_ok (op : nodeOp) n : Prop :=
  match op with
  | OBecomeFollower term | OStepDown term => in_u64 term
  | ORequestVote req => in_u64 (rvq_Term req)
  | OHandleAppendEntries req => request_wf req ∧ agrees_committed req n
  | OAppendLocal _ => last_index n < two64 - 2
  | ORecordReplicationSuccess _ m => 0 ≤ m ≤ last_index n
  | OApplyCommittedMembershipChange _ i | OMarkApplied i => i ≤ n.(commitIndex)
  | _ => True
  end.

(** ** Peer sets and progress maps *)

Lemma containsPeer_spec l x : containsPeer l x = true ↔ x ∈ l.
Proof.
  induction l as [|y l IH]; simpl; [split; [done|intros []%not_elem_of_nil]|].
  rewrite elem_of_cons. case_bool_decide; naive_solver.
Qed.

Lemma removePeer_spec l x :
  (list_to_set (removePeer l x) : gset string) = list_to_set l ∖ {[x]}.
Proof.
  induction l as [|y l IH]; simpl; [set_solver|].
  case_bool_decide; simpl; rewrite IH; set_solver.
Qed.

Definition init_map (v : Z) (l : list string) : gmap string Z :=
  foldl (fun m p => <[p := v]> m) ∅ l.

Lemma init_map_gen v l (m : gmap string Z) p :
  foldl (fun m p => <[p := v]> m) m l !! p = if decide (p ∈ l) then Some v else m !! p.
Proof.
  revert m. induction l as [|q l IH]; intros m; [done|].
  cbn [foldl]. rewrite IH, lookup_insert. repeat case_decide; set_solver.
Qed.

Lemma init_map_lookup v l p : init_map v l !! p = if decide (p ∈ l) then Some v else None.
Proof. unfold init_map. by rewrite init_map_gen, lookup_empty. Qed.

Lemma init_map_dom v l : dom (init_map v l) = (list_to_set l : gset string).
Proof.
  apply set_eq. intros p. rewrite elem_of_dom, init_map_lookup, elem_of_list_to_set.
  case_decide; split; done.
Qed.

(** ** Preservation, operation by operation *)

Lemma initLeaderProgress_wf n :
  log_wf n → in_u64 n.(currentTerm) → index_order n → n.(state) = Leader →
  ∃ n', initLeaderProgressLocked n = Ret n' ∧ node_wf n'.
Proof.
  intros Hl Ht Ho Hs. unfold initLeaderProgressLocked.
  rewrite (lastLogIndex_wf n Hl). fold (init_map (last_index n ⊕ 1) n.(peers)).
  fold (init_map 0 n.(peers)). apply advanceCommit_wf.
  pose proof (last_index_ge n Hl). pose proof Hl as (_ & _ & ?).
  rewrite uadd_small by ulia.
  split_and!; [exact Hl|exact Ht|exact Ho|].
  unfold progress_ok. simpl. rewrite Hs.
  exists (init_map (last_index n + 1) n.(peers)), (init_map 0 n.(peers)).
  split_and!; [done|done|apply init_map_dom|apply init_map_dom| |];
    intros p x; rewrite init_map_lookup; case_decide; intros [= <-];
    unfold last_index in *; simpl; lia.
Qed.

Lemma dropLeadership_wf n :
  log_wf n → in_u64 n.(currentTerm) → index_order n → n.(state) ≠ Leader →
  node_wf (dropLeadership n).
Proof.
  intros Hl Ht Ho Hs. split_and!; [exact Hl|exact Ht|exact Ho|].
  unfold progress_ok. simpl. by destruct (state n).
Qed.

(** A node that differs in fields the invariant does not read. *)
Lemma node_wf_fields n m :
  node_wf n → same_log m n → m.(currentTerm) = n.(currentTerm) →
  m.(commitIndex) = n.(commitIndex) → m.(lastApplied) = n.(lastApplied) →
  m.(state) = n.(state) → m.(peers) = n.(peers) →
  m.(nextIndex) = n.(nextIndex) → m.(matchIndex) = n.(matchIndex) → node_wf m.
Proof.
  intros (Hl & Ht & Ho & Hp) Hs E1 E2 E3 E4 E5 E6 E7.
  pose proof (last_index_proper _ _ Hs) as Hli.
  split_and!.
  - by rewrite Hs.
  - by rewrite E1.
  - unfold index_order in *. rewrite Hli, E2, E3. by destruct Hs as (_ & -> & _).
  - unfold progress_ok in *. by rewrite E4, E5, E6, E7, Hli.
Qed.

Lemma BecomeFollower_wf t n : node_wf n → in_u64 t → node_wf (BecomeFollower t n).1.
Proof.
  intros (Hl & Ht & Ho & Hp) Hu. unfold BecomeFollower. apply persistLocked_wf.
  assert (node_wf (dropLeadership (set_state Follower n))) as Hd by by apply dropLeadership_wf.
  split_ifs; [|exact Hd]. destruct Hd as (? & _ & ? & ?). by split_and!.
Qed.

Lemma BecomeCandidate_wf n : node_wf n → node_wf (BecomeCandidate n).1.
Proof.
  intros (Hl & Ht & Ho & Hp). unfold BecomeCandidate. apply persistLocked_wf.
  assert (node_wf (dropLeadership (set_state Candidate n))) as (? & _ & ? & ?)
    by by apply dropLeadership_wf.
  split_and!; try done. apply in_u64_uadd.
Qed.

Lemma stepDown_wf t n : node_wf n → in_u64 t → node_wf (stepDownForHigherTerm t n).1.
Proof.
  intros Hwf Hu. unfold stepDownForHigherTerm. split_ifs; [done|].
  pose proof (persistLocked_wf
    (dropLeadership (set_state Follower (set_votedFor "" (set_currentTerm t n))))) as Hp.
  destruct (persistLocked _) as [n' err]. apply Hp.
  destruct Hwf as (? & _ & ? & _). by apply dropLeadership_wf.
Qed.

Lemma set_votedFor_wf c n : node_wf n → node_wf (set_votedFor c n).
Proof. intros Hwf. by apply (node_wf_fields n). Qed.

(** RequestVote in closed form: refused outright, or the term is adopted and
    the vote decided. *)
Definition vote_refused (req : RequestVoteRequest) n : Prop :=
  rvq_Term req < n.(currentTerm) ∨ n.(selfMember) = false ∨
  isMemberLocked n (rvq_CandidateID req) = false.

#[export] Instance vote_refused_dec req n : Decision (vote_refused req n).
Proof. unfold vote_refused. apply _. Defined.

Definition vote_adopted (req : RequestVoteRequest) n : Node :=
  if n.(currentTerm) <? rvq_Term req
  then set_state Follower (dropLeadership (set_votedFor "" (set_currentTerm (rvq_Term req) n)))
  else n.

Definition vote_granted (req : RequestVoteRequest) n : Prop :=
  ((vote_adopted req n).(votedFor) = "" ∨
   (vote_adopted req n).(votedFor) = rvq_CandidateID req) ∧
  log_le (lastLogIndexLocked n) (lastLogTermLocked n) (rvq_LastLogIndex req) (rvq_LastLogTerm req).

Lemma vote_adopted_fields req n :
  rvq_Term req < n.(currentTerm) ∨
  ((vote_adopted req n).(currentTerm) = rvq_Term req ∧
   same_log (vote_adopted req n) n ∧ (vote_adopted req n).(peers) = n.(peers) ∧
   (vote_adopted req n).(nodeID) = n.(nodeID) ∧
   (vote_adopted req n).(selfMember) = n.(selfMember) ∧
   (vote_adopted req n).(commitIndex) = n.(commitIndex) ∧
   (vote_adopted req n).(store) = n.(store)).
Proof.
  unfold vote_adopted. split_ifs; [right; done|].
  destruct (decide (rvq_Term req < currentTerm n)); [by left|right].
  split_and!; done || lia.
Qed.

Lemma RequestVote_cases req n :
  (vote_refused req n ∧ RequestVote req n = (n, (mkRVR n.(currentTerm) false, None))) ∨
  (¬ vote_refused req n ∧ vote_granted req n ∧ ∃ s err,
     RequestVote req n =
       (set_store s (set_votedFor (rvq_CandidateID req) (vote_adopted req n)),
        (mkRVR (rvq_Term req) true, err)) ∧
     persistLocked (set_votedFor (rvq_CandidateID req) (vote_adopted req n)) =
       (set_store s (set_votedFor (rvq_CandidateID req) (vote_adopted req n)), err)) ∨
  (¬ vote_refused req n ∧ ¬ vote_granted req n ∧ ∃ s err,
     RequestVote req n =
       (set_store s (vote_adopted req n), (mkRVR (rvq_Term req) false, err)) ∧
     ((set_store s (vote_adopted req n), err) = (n, None) ∨
      persistLocked (vote_adopted req n) = (set_store s (vote_adopted req n), err))).
Proof.
  unfold RequestVote.
  destruct (Z.ltb_spec (rvq_Term req) (currentTerm n)); [left; split; [by left|done]|].
  destruct (selfMember n) eqn:Hsm; simpl; [|left; split; [by right; left|done]].
  destruct (isMemberLocked n (rvq_CandidateID req)) eqn:Hm; simpl;
    [right|left; split; [by right; right|done]].
  assert (Hnr : ¬ vote_refused req n)
    by (unfold vote_refused; rewrite Hsm, Hm; intuition (lia || done)).
  fold (vote_adopted req n).
  destruct (vote_adopted_fields req n) as [|(Hct & Hsl & _)]; [lia|].
  assert (E1 : lastLogIndexLocked (vote_adopted req n) = lastLogIndexLocked n)
    by (unfold lastLogIndexLocked; by destruct Hsl as (-> & -> & _)).
  assert (E2 : lastLogTermLocked (vote_adopted req n) = lastLogTermLocked n)
    by (unfold lastLogTermLocked; by destruct Hsl as (-> & _ & ->)).
  rewrite E1, E2.
  assert (Hg : ((bool_decide (votedFor (vote_adopted req n) = "")
     || bool_decide (votedFor (vote_adopted req n) = rvq_CandidateID req))
     && IsLogAtLeastUpToDate (rvq_LastLogIndex req) (rvq_LastLogTerm req)
          (lastLogIndexLocked n) (lastLogTermLocked n)) = true ↔ vote_granted req n).
  { unfold vote_granted. by rewrite andb_true_iff, orb_true_iff, !bool_decide_eq_true,
      IsLogAtLeastUpToDate_spec. }
  destruct (_ && _) eqn:Hb; [left|right].
  - split_and!; [done|by apply Hg|].
    destruct (persistLocked_eq (set_votedFor (rvq_CandidateID req) (vote_adopted req n)))
      as (s & err & Hp). exists s, err. split; [|done].
    rewrite orb_true_r. simpl. rewrite Hp. by rewrite Hct.
  - split_and!; [done|by rewrite <-Hg|]. rewrite orb_false_r, Hct.
    destruct (currentTerm n <? rvq_Term req) eqn:Hlt; simpl.
    + destruct (persistLocked_eq (vote_adopted req n)) as (s & err & Hp).
      exists s, err. rewrite Hp. eauto.
    + exists n.(store), None. unfold vote_adopted. rewrite Hlt, set_store_id. eauto.
Qed.

Lemma vote_adopted_wf req n :
  node_wf n → in_u64 (rvq_Term req) → node_wf (vote_adopted req n).
Proof.
  intros Hwf Hu. unfold vote_adopted. split_ifs; [|done].
  pose proof Hwf as (? & _ & ? & _). by split_and!.
Qed.

Lemma RequestVote_wf req n :
  node_wf n → in_u64 (rvq_Term req) → node_wf (RequestVote req n).1.
Proof.
  intros Hwf Hu. pose proof (vote_adopted_wf req n Hwf Hu).
  destruct (RequestVote_cases req n)
    as [[_ ->]|[(_ & _ & s & err & -> & _)|(_ & _ & s & err & -> & _)]]; simpl;
    [done|apply node_wf_set_store..]; auto using set_votedFor_wf.
Qed.

Lemma append_entry_log_wf n e :
  log_wf n → last_index n < two64 - 2 → le_Index e = last_index n + 1 →
  log_wf (set_log (n.(log) ++ [e]) n) ∧
  last_index (set_log (n.(log) ++ [e]) n) = last_index n + 1.
Proof.
  intros (Hc & ? & ?) Hb He. unfold log_wf, last_index, zlen in *. simpl.
  rewrite length_app. simpl. split_and!; try lia.
  intros k e0 [?|[? Hk]]%lookup_app_Some; [by apply Hc|].
  apply list_lookup_singleton_Some in Hk as [? ->]. lia.
Qed.

Lemma progress_grow (n m : Node) :
  progress_ok n → last_index n ≤ last_index m → m.(state) = n.(state) →
  m.(peers) = n.(peers) → m.(nextIndex) = n.(nextIndex) → m.(matchIndex) = n.(matchIndex) →
  progress_ok m.
Proof.
  unfold progress_ok. intros Hp Hle -> -> -> ->. destruct (state n); [done|done|].
  destruct Hp as (ni & mi & ? & ? & ? & ? & Hn & Hm).
  exists ni, mi. split_and!; try done.
  - intros p x Hx. specialize (Hn p x Hx). lia.
  - intros p x Hx. specialize (Hm p x Hx). lia.
Qed.

Lemma append_entry_wf n e :
  node_wf n → last_index n < two64 - 2 → le_Index e = last_index n + 1 →
  node_wf (set_log (n.(log) ++ [e]) n).
Proof.
  intros (Hl & Ht & Ho & Hp) Hb He.
  destruct (append_entry_log_wf n e Hl Hb He) as [Hl' Hli].
  split_and!; [done|done| |].
  - unfold index_order in *. rewrite Hli. simpl. lia.
  - apply (progress_grow n); try done. rewrite Hli. lia.
Qed.

(** The entry that AppendLocal appends. *)
Definition local_entry n (command : bytes) : LogEntry :=
  mkEntry n.(currentTerm) (lastLogIndexLocked n ⊕ 1) command.


Lemma local_entry_index n command :
  log_wf n → le_Index (local_entry n command) = last_index n + 1.
Proof.
  intros Hl. simpl. rewrite (lastLogIndex_wf n Hl). pose proof (last_index_ge n Hl).
  destruct Hl as (_ & _ & ?). apply uadd_small. ulia.
Qed.

(** AppendLocal refuses a membership command that is invalid or overlaps another;
    otherwise it appends one entry and, on a leader, advances the commit. *)
Lemma AppendLocal_cases command n :
  node_wf n → last_index n < two64 - 2 →
  (∃ e, AppendLocal command n = Ret (n, (zeroEntry, Some e))) ∨
  (∃ c r s err, AppendLocal command n =
     Ret (set_store s (set_commitReady r (set_commitIndex c
            (set_log (n.(log) ++ [local_entry n command]) n))),
          (local_entry n command, err)) ∧
     n.(commitIndex) ≤ c ≤ last_index n + 1).
Proof.
  intros Hwf Hb. unfold AppendLocal.
  destruct (DecodeMembershipChange command) as [[ch ok] err0].
  destruct (if ok then _ else _) as [e|]; [by left; eauto|right].
  fold (local_entry n (clone_bytes command)). rewrite clone_bytes_id.
  set (n1 := set_log (n.(log) ++ [local_entry n command]) n).
  assert (Hwf1 : node_wf n1).
  { apply append_entry_wf; [done|done|]. by apply local_entry_index, Hwf. }
  destruct (append_entry_log_wf n (local_entry n command)) as [_ Hli];
    [apply Hwf|done|by apply local_entry_index, Hwf|]. fold n1 in Hli.
  assert (Hadv : ∃ c r, (if bool_decide (n1.(state) = Leader) then advanceCommitLocked n1
      else Ret n1) = Ret (set_commitReady r (set_commitIndex c n1)) ∧
      n.(commitIndex) ≤ c ≤ last_index n + 1).
  { destruct Hwf1 as (Hl1 & _ & Ho1 & _). pose proof Ho1 as (_ & _ & Hc1).
    rewrite <-Hli. case_bool_decide; [by apply (advanceCommit_frame n1)|].
    exists n1.(commitIndex), n1.(commitReady). split; [done|]. simpl in *. lia. }
  destruct Hadv as (c & r & Hadv & Hc). rewrite Hadv. simpl.
  destruct (persistLocked_eq (set_commitReady r (set_commitIndex c n1))) as (s & err & Hp).
  rewrite Hp. exists c, r, s, err. done.
Qed.

Lemma AppendLocal_wf command n :
  node_wf n → last_index n < two64 - 2 →
  ∃ n' r, AppendLocal command n = Ret (n', r) ∧ node_wf n'.
Proof.
  intros Hwf Hb.
  destruct (AppendLocal_cases command n Hwf Hb) as [[e ->]|(c & r & s & err & -> & Hc)]; [eauto|].
  eexists _, _. split; [done|]. apply node_wf_set_store.
  destruct (append_entry_wf n (local_entry n command) Hwf Hb) as (Hl & Ht & Ho & Hp);
    [by apply local_entry_index, Hwf|].
  destruct (append_entry_log_wf n (local_entry n command)) as [_ Hli];
    [apply Hwf|done|by apply local_entry_index, Hwf|].
  split_and!; [exact Hl|exact Ht| |exact Hp].
  unfold index_order, last_index in *. simpl in *. lia.
Qed.

(** A leader's progress entry updated within bounds. *)
Lemma progress_update n ni mi p m x :
  progress_ok n → n.(state) = Leader → n.(nextIndex) = Some ni → n.(matchIndex) = Some mi →
  is_Some (ni !! p) → 0 ≤ m ≤ last_index n → 1 ≤ x ≤ last_index n + 1 →
  progress_ok (set_nextIndex (Some (<[p := x]> ni)) (set_matchIndex (Some (<[p := m]> mi)) n)).
Proof.
  unfold progress_ok. intros Hp Hs En Em Hin Hm Hx. simpl. rewrite Hs in *.
  destruct Hp as (ni' & mi' & ? & ? & Dn & Dm & Bn & Bm). simplify_eq.
  assert (p ∈ (list_to_set (peers n) : gset string)) by (rewrite <-Dn; by apply elem_of_dom).
  eexists _, _. split_and!; [done|done|rewrite dom_insert_L; set_solver..| |];
    intros q y; rewrite lookup_insert; case_decide; unfold last_index in *; simpl in *.
  - intros [= <-]. lia.
  - apply Bn.
  - intros [= <-]. lia.
  - apply Bm.
Qed.

Lemma progress_leader n p x :
  progress_ok n → map_get n.(nextIndex) p = Some x →
  n.(state) = Leader ∧ ∃ ni mi, n.(nextIndex) = Some ni ∧ n.(matchIndex) = Some mi ∧
    ni !! p = Some x ∧ is_Some (mi !! p) ∧ 1 ≤ x ≤ last_index n + 1.
Proof.
  unfold progress_ok. intros Hp Hx.
  destruct (state n); [destruct Hp as [E _]; by rewrite E in Hx..|].
  destruct Hp as (ni & mi & En & Em & Dn & Dm & Bn & _). rewrite En in Hx. simpl in Hx.
  specialize (Bn p x Hx). split; [done|]. exists ni, mi. split_and!; try done; try lia.
  apply elem_of_dom. rewrite Dm, <-Dn. by apply elem_of_dom.
Qed.

Lemma RecordReplicationSuccess_wf p m n :
  node_wf n → 0 ≤ m ≤ last_index n →
  ∃ n' err, RecordReplicationSuccess p m n = Ret (n', err) ∧ node_wf n'.
Proof.
  intros Hwf Hm. pose proof Hwf as (Hl & Ht & Ho & Hp). unfold RecordReplicationSuccess.
  destruct (map_get (nextIndex n) p) as [x|] eqn:Hx; [|eauto].
  destruct (progress_leader n p x Hp Hx) as (Hs & ni & mi & En & Em & Hni & _ & _).
  pose proof Hl as (_ & _ & ?).
  rewrite Em. simpl. rewrite En. simpl. rewrite uadd_small by ulia.
  destruct (advanceCommit_wf
    (set_nextIndex (Some (<[p := m + 1]> ni)) (set_matchIndex (Some (<[p := m]> mi)) n)))
    as (n' & -> & Hn').
  - split_and!; [exact Hl|exact Ht|exact Ho|]. apply progress_update; try done; lia || eauto.
  - simpl. eauto.
Qed.

Lemma RecordReplicationFailure_wf p n :
  node_wf n → ∃ n' err, RecordReplicationFailure p n = Ret (n', err) ∧ node_wf n'.
Proof.
  intros Hwf. pose proof Hwf as (Hl & Ht & Ho & Hp). unfold RecordReplicationFailure.
  destruct (map_get (nextIndex n) p) as [x|] eqn:Hx; [|eauto].
  destruct (progress_leader n p x Hp Hx) as (Hs & ni & mi & En & Em & Hni & [y Hy] & Hb).
  pose proof Hl as (_ & _ & ?). split_ifs; [eauto| |eauto].
  rewrite En. simpl. rewrite usub_small by ulia. eexists _, _. split; [done|].
  assert (progress_ok (set_nextIndex (Some (<[p := x - 1]> ni))
    (set_matchIndex (Some (<[p := y]> mi)) n))) as Hp'.
  { apply progress_update; try done; [|lia].
    unfold progress_ok in Hp. rewrite Hs in Hp.
    destruct Hp as (ni' & mi' & ? & ? & _ & _ & _ & Bm). simplify_eq. by apply (Bm p). }
  rewrite (insert_id mi p y Hy) in Hp'.
  split_and!; [exact Hl|exact Ht|exact Ho|].
  replace (set_matchIndex (Some mi) n) with n in Hp'; [done|]. destruct n; simpl in *. by subst.
Qed.

(** Dropping the applied prefix of the log. *)
Definition compacted n (snap : bytes) : Node :=
  set_snapshot snap (set_lastIncludedTerm (term_at n n.(lastApplied))
    (set_lastIncludedIndex n.(lastApplied)
      (set_log (drop (Z.to_nat (n.(lastApplied) - n.(lastIncludedIndex))) n.(log)) n))).

Lemma Compact_cases snap n :
  log_wf n → index_order n →
  (n.(lastApplied) ≤ n.(lastIncludedIndex) ∧ Compact snap n = Ret (n, None)) ∨
  (n.(lastIncludedIndex) < n.(lastApplied) ∧ term_at n n.(lastApplied) = 0 ∧
   Compact snap n = Ret (n, Some (ErrLogInconsistent n.(lastApplied) 0))) ∨
  (n.(lastIncludedIndex) < n.(lastApplied) ∧ term_at n n.(lastApplied) ≠ 0 ∧
   Compact snap n = Ret (persistLocked (compacted n snap))).
Proof.
  intros Hl (? & ? & Hc). unfold Compact. pose proof (last_index_ge n Hl).
  pose proof Hl as (_ & _ & ?).
  destruct (Z.leb_spec (lastApplied n) (lastIncludedIndex n)); [by left|right].
  rewrite (logTermAt_wf n _ Hl), go_bind_Ret.
  destruct (Z.eqb_spec (term_at n (lastApplied n)) 0); [by left|right].
  split_and!; [done|done|].
  rewrite (firstLogIndex_wf n Hl), (lastLogIndex_wf n Hl).
  rewrite (proj2 (Z.ltb_ge _ _)) by lia. unfold last_index, zlen in *.
  destruct (Z.leb_spec (lastIncludedIndex n + Z.of_nat (length (log n))) (lastApplied n)).
  - unfold compacted. rewrite drop_ge by lia. done.
  - rewrite (usub_small (lastApplied n)) by ulia. rewrite uadd_small by ulia.
    rewrite slice_from_Ret by (unfold zlen; lia). rewrite !go_bind_Ret, cloneLog_id.
    unfold compacted.
    by replace (lastApplied n - (lastIncludedIndex n + 1) + 1)
      with (lastApplied n - lastIncludedIndex n) by lia.
Qed.

Lemma compacted_last_index snap n :
  log_wf n → index_order n → last_index (compacted n snap) = last_index n.
Proof.
  intros _ (? & ? & ?). unfold last_index, zlen in *. simpl. rewrite length_drop. lia.
Qed.

Lemma compacted_wf snap n : node_wf n → node_wf (compacted n snap).
Proof.
  intros (Hl & Ht & Ho & Hp). pose proof (compacted_last_index snap n Hl Ho) as Hli.
  pose proof Ho as (? & ? & ?). pose proof Hl as (Hc & ? & ?).
  split_and!; [|exact Ht| |].
  - split_and!; [|simpl; lia|by rewrite Hli].
    intros k e. simpl. rewrite lookup_drop. intros Hk%Hc. lia.
  - unfold index_order. rewrite Hli. simpl. lia.
  - apply (progress_grow n); try done. lia.
Qed.

Lemma Compact_wf snap n :
  node_wf n → ∃ n' err, Compact snap n = Ret (n', err) ∧ node_wf n'.
Proof.
  intros Hwf. pose proof Hwf as (Hl & _ & Ho & _).
  destruct (Compact_cases snap n Hl Ho) as [[_ ->]|[(_ & _ & ->)|(_ & _ & ->)]]; [eauto..|].
  pose proof (persistLocked_wf _ (compacted_wf snap n Hwf)).
  destruct (persistLocked _) as [n' err]. eauto.
Qed.

(** ** Membership changes *)

Lemma progress_add_peer n p ni mi :
  progress_ok n → log_wf n → n.(state) = Leader →
  n.(nextIndex) = Some ni → n.(matchIndex) = Some mi →
  progress_ok (set_matchIndex (Some (<[p := 0]> mi))
    (set_nextIndex (Some (<[p := last_index n + 1]> ni)) (set_peers (n.(peers) ++ [p]) n))).
Proof.
  unfold progress_ok. intros Hp Hl Hs En Em. pose proof (last_index_ge n Hl).
  simpl. rewrite Hs in *.
  destruct Hp as (ni' & mi' & ? & ? & Dn & Dm & Bn & Bm). simplify_eq.
  eexists _, _. split_and!; [done|done|rewrite dom_insert_L, list_to_set_app_L; set_solver..| |];
    intros q y; rewrite lookup_insert; case_decide; unfold last_index in *; simpl in *.
  - intros [= <-]. lia.
  - apply Bn.
  - intros [= <-]. lia.
  - apply Bm.
Qed.

Lemma progress_remove_peer n p :
  progress_ok n →
  progress_ok (set_matchIndex (map_delete n.(matchIndex) p)
    (set_nextIndex (map_delete n.(nextIndex) p) (set_peers (removePeer n.(peers) p) n))).
Proof.
  unfold progress_ok. simpl. destruct (state n).
  - by intros [-> ->].
  - by intros [-> ->].
  - intros (ni & mi & -> & -> & Dn & Dm & Bn & Bm). simpl. eexists _, _.
    split_and!; [done|done|rewrite dom_delete_L, removePeer_spec; set_solver..| |];
      intros q y [_ Hy]%lookup_delete_Some; unfold last_index in *; simpl; eauto.
Qed.

Lemma progress_nonleader_peers n ps :
  progress_ok n → n.(state) ≠ Leader → progress_ok (set_peers ps n).
Proof. unfold progress_ok. simpl. by destruct (state n). Qed.

Lemma applyMembershipChangeLocked_wf c n :
  node_wf n →
  ∃ n' err, applyMembershipChangeLocked c n = Ret (n', err) ∧ node_wf n' ∧
            n.(commitIndex) ≤ n'.(commitIndex).
Proof.
  intros Hwf. assert (Hwf0 : node_wf (set_membershipConfigured true n)).
  { by apply (node_wf_fields n). }
  unfold applyMembershipChangeLocked. cbv zeta.
  change (commitIndex n) with (commitIndex (set_membershipConfigured true n)).
  revert Hwf0. generalize (set_membershipConfigured true n). clear n Hwf.
  intros n (Hl & Ht & Ho & Hp).
  assert (Hadv : ∀ m : Node, node_wf m → m.(commitIndex) = n.(commitIndex) →
    ∃ n' (err : error), (n0 ← advanceCommitLocked m; Ret (n0, None)) = Ret (n', err) ∧ node_wf n' ∧
              n.(commitIndex) ≤ n'.(commitIndex)).
  { intros m Hm Ec. destruct (advanceCommit_wf m Hm) as (n' & Hn' & Hw).
    destruct (advanceCommit_frame m) as (i & r & Hi & Hle); [apply Hm..|].
    rewrite Hn' in Hi. simplify_eq. rewrite Hn'. eexists _, None. split_and!; [done|done|].
    simpl. lia. }
  case_bool_decide; [|case_bool_decide].
  - case_bool_decide; [by apply Hadv|].
    destruct (containsPeer _ _); [by apply Hadv|]. simpl.
    case_bool_decide as Hs; simpl.
    + pose proof Hp as Hp'. unfold progress_ok in Hp'. simpl in Hs. rewrite Hs in Hp'.
      destruct Hp' as (ni & mi & En & Em & _). rewrite En, Em. simpl.
      rewrite lastLogIndex_wf by exact Hl. pose proof (last_index_ge n Hl).
      pose proof Hl as (_ & _ & ?). change (last_index _) with (last_index n).
      rewrite uadd_small by ulia. apply Hadv; [|done].
      split_and!; [exact Hl|exact Ht|exact Ho|]. by apply progress_add_peer.
    + apply Hadv; [|done].
      split_and!; [exact Hl|exact Ht|exact Ho|]. by apply progress_nonleader_peers.
  - case_bool_decide; (apply Hadv; [|done]).
    + by apply dropLeadership_wf.
    + split_and!; [exact Hl|exact Ht|exact Ho|].
      exact (progress_remove_peer n (mc_PeerID c) Hp).
  - eexists _, _. split_and!; [done|by split_and!|done].
Qed.

Lemma markApplied_wf i n : node_wf n → i ≤ n.(commitIndex) → node_wf (markApplied i n).
Proof.
  intros (Hl & Ht & Ho & Hp) Hi. unfold markApplied. split_ifs; [|by split_and!].
  split_and!; [exact Hl|exact Ht| |exact Hp].
  unfold index_order, last_index in *. simpl. lia.
Qed.

Lemma applyCommittedMembershipChange_wf c i n :
  node_wf n → i ≤ n.(commitIndex) →
  ∃ n' err, applyCommittedMembershipChange c i n = Ret (n', err) ∧ node_wf n'.
Proof.
  intros Hwf Hi. unfold applyCommittedMembershipChange.
  destruct (applyMembershipChangeLocked_wf c n Hwf) as (n' & err & -> & Hwf' & Hc). simpl.
  destruct err; [eauto|].
  pose proof (persistLocked_wf _ (markApplied_wf i n' Hwf' ltac:(lia))).
  destruct (persistLocked _). eauto.
Qed.

Lemma ApplyMembershipChange_wf c n :
  node_wf n → ∃ n' err, ApplyMembershipChange c n = Ret (n', err) ∧ node_wf n'.
Proof.
  intros Hwf. unfold ApplyMembershipChange. destruct (Validate c); [eauto|].
  destruct (applyMembershipChangeLocked_wf c n Hwf) as (n' & err & -> & Hwf' & _). simpl.
  destruct err; [eauto|].
  pose proof (persistLocked_wf _ Hwf'). destruct (persistLocked _). eauto.
Qed.

(** ** Leadership *)

Lemma initLeaderProgress_role_wf n :
  node_wf n →
  ∃ n', initLeaderProgressLocked (set_leaderID n.(nodeID) (set_state Leader n)) = Ret n' ∧
        node_wf n'.
Proof. intros (? & ? & ? & _). by apply initLeaderProgress_wf. Qed.

Lemma promoteCandidate_wf t n :
  node_wf n → ∃ n' r, promoteCandidate t n = Ret (n', r) ∧ node_wf n'.
Proof.
  intros Hwf. unfold promoteCandidate. split_ifs; [eauto|].
  destruct (initLeaderProgress_role_wf n Hwf) as (n' & -> & Hwf'). simpl.
  pose proof (persistLocked_wf _ Hwf'). destruct (persistLocked _). eauto.
Qed.

Lemma BecomeLeader_wf n : node_wf n → ∃ n' err, BecomeLeader n = Ret (n', err) ∧ node_wf n'.
Proof.
  intros Hwf. unfold BecomeLeader.
  destruct (initLeaderProgress_role_wf n Hwf) as (n' & -> & Hwf'). simpl.
  pose proof (persistLocked_wf _ Hwf'). destruct (persistLocked _). eauto.
Qed.

Lemma ensureLeaderProgress_wf n :
  node_wf n → ∃ n', ensureLeaderProgress n = Ret n' ∧ node_wf n'.
Proof.
  intros Hwf. unfold ensureLeaderProgress. pose proof Hwf as (? & ? & ? & _).
  case_bool_decide; simpl; [|eauto].
  split_ifs; eauto using initLeaderProgress_wf.
Qed.

(** No step panics, and the invariant holds after it. *)
Lemma exec_wf op n : node_wf n → op_ok op n → ∃ n', exec op n = Ret n' ∧ node_wf n'.
Proof.
  intros Hwf Hok.
  assert (Hr : ∀ {R} (m : go (Node * R)),
    (∃ n' r, m = Ret (n', r) ∧ node_wf n') → ∃ n', (r ← m; Ret r.1) = Ret n' ∧ node_wf n').
  { intros R m (n' & r & -> & ?). eauto. }
  destruct op; simpl in *; try (eexists; split; [reflexivity|]);
    try (apply Hr);
    eauto using BecomeFollower_wf, BecomeCandidate_wf, RequestVote_wf, stepDown_wf,
      markApplied_wf, ensureLeaderProgress_wf, BecomeLeader_wf, AppendLocal_wf,
      RecordReplicationSuccess_wf, RecordReplicationFailure_wf, Compact_wf,
      ApplyMembershipChange_wf, applyCommittedMembershipChange_wf, promoteCandidate_wf.
  - by apply persistLocked_wf, set_votedFor_wf.
  - apply HandleAppendEntries_wf; tauto.
Qed.

(** ** Runs of one node *)

Inductive node_step : Node → Node → Prop :=
| NS_op op n n' : op_ok op n → exec op n = Ret n' → node_step n n'.

Lemma node_steps_wf n n' : node_wf n → rtc node_step n n' → node_wf n'.
Proof.
  intros Hwf Hr. induction Hr as [|a b c [op n1 n2 Hok He] _ IH]; [done|]. apply IH.
  destruct (exec_wf op n1 Hwf Hok) as (m & Hm & Hwfm). rewrite He in Hm. by simplify_eq.
Qed.

End steps.
