(* ===== verification/NodeFrame.v ===== *)
(** * NodeFrame: what a step may change of term, vote, role and membership

    Frame lemmas for every operation, with no assumption on the node: which steps
    leave term and vote alone, which move to a higher term with the vote
    cleared, and how the stored copy follows the node. *)
From S2P Require Import Prelude GoStrings Types Membership Node NodeInv Election Heartbeat.
From S2P Require Import Proposal NodeStep.

Section frame.
Context {St : Type} `{!StableStore St} `{!MembershipJSON}.
Abbreviation Node := (RaftNode St).
Implicit Types n m : Node.

(** Everything but term, vote and role that elections depend on. *)
Definition same_config n m : Prop :=
  m.(nodeID) = n.(nodeID) ∧ m.(peers) = n.(peers) ∧ m.(selfMember) = n.(selfMember) ∧
  m.(membershipConfigured) = n.(membershipConfigured).

Definition same_ballot n m : Prop :=
  m.(currentTerm) = n.(currentTerm) ∧ m.(votedFor) = n.(votedFor).

(** Term, vote and role are kept (the role possibly dropped to follower), or the
    term grows and the vote is cleared. *)
Definition ballot_le n m : Prop :=
  same_config n m ∧
  ((same_ballot n m ∧ (m.(state) = n.(state) ∨ m.(state) = Follower)) ∨
   (n.(currentTerm) < m.(currentTerm) ∧ m.(votedFor) = "" ∧ m.(state) = Follower)).

(** An operation works on the node in memory and ends, possibly, by persisting
    it: [m] is the node before that last write. *)
Definition settles n m (n' : Node) : Prop :=
  m.(store) = n.(store) ∧ (n' = m ∨ n' = (persistLocked m).1).

(** A step whose effect on the election state is [ballot_le]. *)
Definition quiet n (n' : Node) : Prop := ∃ m, settles n m n' ∧ ballot_le n m.

(** Same election state, role and store: the frame of the log operations. *)
Definition framed n m : Prop :=
  same_config n m ∧ same_ballot n m ∧ m.(state) = n.(state) ∧ m.(store) = n.(store).

#[export] Instance framed_preorder : PreOrder framed.
Proof.
  unfold framed, same_config, same_ballot. split; red; intros; intuition congruence.
Qed.

Lemma framed_quiet n m n' : framed n m → (n' = m ∨ n' = (persistLocked m).1) → quiet n n'.
Proof.
  intros (Hc & Hb & Hs & Hst) Hn. exists m. split; [by split|].
  split; [done|]. left. auto.
Qed.

Lemma quiet_refl n : quiet n n.
Proof. apply (framed_quiet n n); [done|auto]. Qed.

Lemma advanceCommitLoop_framed fuel i n n' : advanceCommitLoop fuel i n = Ret n' → framed n n'.
Proof.
  revert i. induction fuel as [|fuel IH]; intros i; simpl; [by intros [= ->]|].
  destruct (negb _); [by intros [= ->]|].
  intros (t & _ & Ht)%go_bind_inv. split_in Ht; [by eapply IH|by simplify_eq|by eapply IH].
Qed.

Lemma advanceCommit_framed n n' : advanceCommitLocked n = Ret n' → framed n n'.
Proof.
  unfold advanceCommitLocked. split_ifs; [by intros [= ->]|]. apply advanceCommitLoop_framed.
Qed.

Lemma initLeaderProgress_framed n n' : initLeaderProgressLocked n = Ret n' → framed n n'.
Proof. intros Hf%advanceCommit_framed. by etrans. Qed.

Lemma ensureLeaderProgress_framed n n' : ensureLeaderProgress n = Ret n' → framed n n'.
Proof.
  unfold ensureLeaderProgress.
  split_ifs; try (by intros [= ->]); apply initLeaderProgress_framed.
Qed.

Lemma appendEntriesLoop_frame es i n n' b :
  appendEntriesLoop i es n = Ret (n', b) → ∃ l, n' = set_log l n.
Proof.
  revert i. induction es as [|e es IH]; intros i; simpl.
  { intros [= <- _]. exists n.(log). by destruct n. }
  destruct (i <=? _); [apply IH|]. destruct (containsLogIndexLocked n i).
  - intros (local & _ & Ht)%go_bind_inv. destruct (negb _); [|by eapply IH].
    apply go_bind_inv in Ht as (l & _ & [= <- _]). eauto.
  - intros [= <- _]. eauto.
Qed.

Lemma appendEntriesToLog_frame p t es n n' r :
  appendEntriesToLogLocked p t es n = Ret (n', r) → ∃ l, n' = set_log l n.
Proof.
  unfold appendEntriesToLogLocked. intros (mm & _ & Ht)%go_bind_inv.
  destruct mm; [simplify_eq; exists n'.(log); by destruct n'|].
  apply go_bind_inv in Ht as ([n1 b] & Hl & [= <- _]). by eapply appendEntriesLoop_frame.
Qed.

Lemma commit_upto_framed c n : framed n (commit_upto c n).
Proof. unfold commit_upto. split_ifs; done. Qed.

Lemma adopted_ballot req n : aeq_Term req < n.(currentTerm) ∨ ballot_le n (adopted req n).
Proof.
  destruct (decide (aeq_Term req < currentTerm n)); [by left|right].
  unfold adopted, ballot_le, same_config, same_ballot.
  destruct (Z.ltb_spec (currentTerm n) (aeq_Term req)); simpl; case_bool_decide; simpl;
    split_and!; auto.
Qed.

(** HandleAppendEntries changes the election state only by adopting the sender. *)
Lemma HandleAppendEntries_quiet req n n' r :
  HandleAppendEntries req n = Ret (n', r) → quiet n n'.
Proof.
  unfold HandleAppendEntries.
  destruct (Z.ltb_spec (aeq_Term req) (currentTerm n)); [intros [= -> _]; apply quiet_refl|].
  destruct (negb _); [intros [= -> _]; apply quiet_refl|].
  fold (adopted req n). intros ([n1 [lc err]] & Ha & Ht)%go_bind_inv.
  apply appendEntriesToLog_frame in Ha as [l ->].
  assert (Hb : ∀ m, framed (set_log l (adopted req n)) m →
    (n' = m ∨ n' = (persistLocked m).1) → quiet n n').
  { intros m (Hc & Hbal & Hs & Hst) Hn. exists m.
    destruct (adopted_ballot req n) as [|[Hc0 Hb0]]; [lia|].
    destruct (adopted_fields req n) as (_&_&_&_&_&_&_&_&Hst0&_&_&Hsto). split.
    - split; [by rewrite Hst|done].
    - unfold ballot_le, same_config, same_ballot in *. simpl in *.
      intuition congruence. }
  destruct err as [e|].
  - destruct (_ <? _); [|simplify_eq; apply (Hb (set_log l (adopted req n))); auto; done].
    destruct (persistLocked _) as [n2 err] eqn:Hp. simplify_eq.
    apply (Hb (set_log l (adopted req n))); [done|]. right. by rewrite Hp.
  - fold (commit_upto (aeq_LeaderCommit req) (set_log l (adopted req n))) in Ht.
    destruct (negb _).
    + simplify_eq. eapply Hb; [apply commit_upto_framed|auto].
    + destruct (persistLocked _) as [n2 err] eqn:Hp. simplify_eq.
      eapply Hb; [apply commit_upto_framed|]. right. by rewrite Hp.
Qed.

Lemma AppendLocal_quiet cmd n n' r : AppendLocal cmd n = Ret (n', r) → quiet n n'.
Proof.
  unfold AppendLocal. destruct (DecodeMembershipChange cmd) as [[c ok] err0].
  destruct (if ok then _ else _); [intros [= -> _]; apply quiet_refl|].
  intros (m & Hm & Ht)%go_bind_inv. destruct (persistLocked m) as [n2 err] eqn:Hp.
  simplify_eq. apply (framed_quiet n m); [|right; by rewrite Hp].
  case_bool_decide; [apply advanceCommit_framed in Hm; by etrans|by simplify_eq].
Qed.

Lemma RecordReplicationSuccess_quiet p i n n' r :
  RecordReplicationSuccess p i n = Ret (n', r) → quiet n n'.
Proof.
  unfold RecordReplicationSuccess.
  destruct (map_get _ _); [|intros [= -> _]; apply quiet_refl].
  intros (m1 & _ & (m2 & _ & (m3 & Hm & [= -> _])%go_bind_inv)%go_bind_inv)%go_bind_inv.
  apply (framed_quiet n n'); [|auto]. apply advanceCommit_framed in Hm. by etrans.
Qed.

Lemma RecordReplicationFailure_quiet p n n' r :
  RecordReplicationFailure p n = Ret (n', r) → quiet n n'.
Proof.
  unfold RecordReplicationFailure.
  destruct (map_get _ _); [|intros [= -> _]; apply quiet_refl].
  split_ifs; try (intros [= -> _]; apply quiet_refl).
  intros (m & _ & [= <- _])%go_bind_inv. apply (framed_quiet n (set_nextIndex m n)); auto. done.
Qed.

Lemma Compact_quiet snap n n' r : Compact snap n = Ret (n', r) → quiet n n'.
Proof.
  unfold Compact. destruct (_ <=? _); [intros [= -> _]; apply quiet_refl|].
  intros (t & _ & Ht)%go_bind_inv. destruct (t =? 0); [simplify_eq; apply quiet_refl|].
  apply go_bind_inv in Ht as (l & _ & Ht).
  match type of Ht with Ret (persistLocked ?m) = _ => apply (framed_quiet n m); [done|] end.
  right. simplify_eq. by rewrite Ht.
Qed.

Lemma persist_quiet n m n' err :
  persistLocked m = (n', err) → m.(store) = n.(store) → ballot_le n m → quiet n n'.
Proof. intros Hp Hst Hb. exists m. split; [split; [done|]; right; by rewrite Hp|done]. Qed.

Lemma stepDown_quiet t n : quiet n (stepDownForHigherTerm t n).1.
Proof.
  unfold stepDownForHigherTerm. split_ifs; [apply quiet_refl|].
  destruct (persistLocked _) as [n2 err] eqn:Hp. simpl.
  apply (persist_quiet _ _ _ _ Hp); [done|]. split; [done|]. right. simpl. by split_and!.
Qed.

Lemma BecomeFollower_quiet t n : quiet n (BecomeFollower t n).1.
Proof.
  unfold BecomeFollower. cbv zeta.
  destruct (persistLocked _) as [n2 err] eqn:Hp. simpl.
  apply (persist_quiet _ _ _ _ Hp); [by split_ifs|].
  split_ifs; (split; [done|]).
  - right. simpl in *. by split_and!.
  - left. split; [done|]. by right.
Qed.

(** The operations that other goroutines interleave with an election, the vote
    handler apart: RPC handlers, replication, compaction, application of
    ordinary entries. *)
Definition bystander (op : nodeOp) : bool :=
  match op with
  | OBecomeFollower _ | OHandleAppendEntries _ | OAppendLocal _
  | ORecordReplicationSuccess _ _ | ORecordReplicationFailure _ | OCompact _
  | OMarkApplied _ | OStepDown _ | OEnsureLeaderProgress | OTakeCommitReady => true
  | _ => false
  end.

Lemma bystander_quiet op n n' : bystander op = true → exec op n = Ret n' → quiet n n'.
Proof.
  destruct op; intros Hb; try discriminate Hb; simpl;
    try (intros ([m r] & Hm & [= <-])%go_bind_inv).
  - intros [= <-]. apply BecomeFollower_quiet.
  - by eapply HandleAppendEntries_quiet.
  - by eapply AppendLocal_quiet.
  - by eapply RecordReplicationSuccess_quiet.
  - by eapply RecordReplicationFailure_quiet.
  - by eapply Compact_quiet.
  - intros [= <-]. apply (framed_quiet n (markApplied index n)); [|auto].
    unfold markApplied. by split_ifs.
  - intros [= <-]. apply stepDown_quiet.
  - intros Hf%ensureLeaderProgress_framed. apply (framed_quiet n n'); auto.
  - intros [= <-]. apply (framed_quiet n (takeCommitReady n)); auto. done.
Qed.

(** ** One vote per term *)

(** Term never falls, and within a term a vote that was cast stays. *)
Definition vote_kept n (n' : Node) : Prop :=
  n'.(nodeID) = n.(nodeID) ∧ n.(currentTerm) ≤ n'.(currentTerm) ∧
  (n'.(currentTerm) = n.(currentTerm) → n.(votedFor) ≠ "" → n'.(votedFor) = n.(votedFor)).

#[export] Instance vote_kept_preorder : PreOrder vote_kept.
Proof.
  unfold vote_kept. split.
  - intros n. split_and!; done.
  - intros a b c (? & ? & Hv) (? & ? & Hw). split_and!; [congruence|lia|].
    intros Hc Hne. assert (currentTerm b = currentTerm a) as Hb by lia.
    rewrite Hw; [auto|lia|]. by rewrite Hv.
Qed.

Lemma persistLocked_fields n :
  let p := (persistLocked n).1 in
  same_config n p ∧ same_ballot n p ∧ p.(state) = n.(state) ∧ same_log p n.
Proof. destruct (persistLocked_eq n) as (s & err & ->). done. Qed.

Lemma settles_fields n m n' :
  settles n m n' →
  same_config m n' ∧ same_ballot m n' ∧ n'.(state) = m.(state).
Proof.
  intros [_ [->| ->]]; [done|]. destruct (persistLocked_fields m) as (? & ? & ? & _). done.
Qed.

Lemma quiet_ballot n n' : quiet n n' → ballot_le n n'.
Proof.
  intros (m & Hs & Hc & Hb). apply settles_fields in Hs as (Hc' & Hb' & Hs').
  unfold ballot_le, same_config, same_ballot in *. intuition congruence.
Qed.

Lemma ballot_le_kept n n' : ballot_le n n' → vote_kept n n'.
Proof.
  intros [(Hid & _) Hb]. split; [done|].
  destruct Hb as [[[Ht Hv] _]|(Hlt & _)]; split; try lia; done.
Qed.

Lemma bystander_kept op n n' : bystander op = true → exec op n = Ret n' → vote_kept n n'.
Proof. intros. by eapply ballot_le_kept, quiet_ballot, bystander_quiet. Qed.

Lemma RequestVote_kept req n : vote_kept n (RequestVote req n).1.
Proof.
  destruct (RequestVote_cases req n)
    as [[_ ->]|[(Hnr & [Hv _] & s & err & -> & _)|(Hnr & _ & s & err & -> & _)]]; simpl; [done|..];
    unfold vote_kept, vote_adopted, vote_refused in *; revert Hnr;
    split_ifs; simpl in *; intros Hnr; split_and!; try done; try lia.
  intros _ Hne. destruct Hv; congruence.
Qed.

Lemma BecomeCandidate_fields n :
  let n' := (BecomeCandidate n).1 in
  same_config n n' ∧ n'.(currentTerm) = n.(currentTerm) ⊕ 1 ∧ n'.(votedFor) = n.(nodeID) ∧
  n'.(state) = Candidate.
Proof.
  unfold BecomeCandidate. cbv zeta.
  match goal with |- context [persistLocked ?m] =>
    destruct (persistLocked_fields m) as ((E1 & E2 & E3 & E4) & (E5 & E6) & E7 & _) end.
  unfold same_config. rewrite E1, E2, E3, E4, E5, E6, E7. done.
Qed.

Lemma BecomeCandidate_kept n :
  0 ≤ n.(currentTerm) < two64 - 1 → vote_kept n (BecomeCandidate n).1.
Proof.
  intros Ht. destruct (BecomeCandidate_fields n) as ((Hid & _) & Hc & _).
  unfold vote_kept. rewrite Hid, Hc, uadd_small by ulia. split_and!; [done|lia|lia].
Qed.

Lemma promoteCandidate_fields t n n' won err :
  promoteCandidate t n = Ret (n', (won, err)) →
  same_config n n' ∧ same_ballot n n' ∧
  (if won then n.(state) = Candidate ∧ n.(currentTerm) = t ∧ n.(selfMember) = true ∧
               n'.(state) = Leader
   else n' = n).
Proof.
  unfold promoteCandidate. destruct (_ || _) eqn:E.
  { by intros [= -> <- _]. }
  apply orb_false_iff in E as [[E1 E2]%orb_false_iff E3]. breflect.
  intros (m & Hm & Ht)%go_bind_inv. apply initLeaderProgress_framed in Hm.
  destruct (persistLocked m) as [n2 e2] eqn:Hp. simplify_eq.
  destruct (persistLocked_fields m) as (Hc & Hb & Hs & _). rewrite Hp in *. simpl in *.
  destruct Hm as (Hc' & Hb' & Hs' & _). unfold same_config, same_ballot in *. simpl in *.
  intuition congruence.
Qed.

(** A granted vote: what it says of the node before and after. *)
Lemma RequestVote_granted req n n' resp err :
  RequestVote req n = (n', (resp, err)) → rvr_VoteGranted resp = true →
  ¬ vote_refused req n ∧ vote_granted req n ∧
  rvr_Term resp = rvq_Term req ∧ n'.(currentTerm) = rvq_Term req ∧
  n'.(votedFor) = rvq_CandidateID req ∧ same_config n n' ∧
  persistLocked (set_votedFor (rvq_CandidateID req) (vote_adopted req n)) = (n', err).
Proof.
  intros Hr Hg. destruct (RequestVote_cases req n)
    as [[_ E]|[(Hnr & Hv & s & e & E & Hp)|(_ & _ & s & e & E & _)]];
    rewrite Hr in E; simplify_eq; try done.
  destruct (vote_adopted_fields req n) as [Hlt|(Ht & _ & _)].
  { exfalso. apply Hnr. by left. }
  split_and!; try done. unfold vote_adopted. by split_ifs.
Qed.

End frame.
