(* ===== verification/Cluster.v ===== *)
(** * Cluster: election safety of a cluster with crashes and restarts

    The nodes of one cluster with fixed membership run side by side. Each node
    has one election goroutine (src/raft/election_timer.go starts them one at a
    time); between its critical sections any RPC handler, replication round,
    compaction or restart may run, on any node. A vote response is delivered to a
    candidate only if some node computed it for that very request and its
    persistence succeeded (src/raftgrpc/server.go drops the others); it may be
    lost, delayed, or delivered late. Requests are not authenticated: any request
    may reach any node. *)
From S2P Require Import Prelude GoStrings Types Membership Node NodeInv Election Heartbeat.
From S2P Require Import Proposal NodeStep NodeFrame.

(** ** Quorums *)

Definition quorum (members Q : list string) : Prop :=
  NoDup Q ∧ Q ⊆ members ∧ majority (zlen members) ≤ zlen Q.

Lemma majority_twice k : 0 ≤ k → k < 2 * majority k.
Proof.
  intros Hk. unfold majority. pose proof (Z.quot_rem' k 2).
  pose proof (Z.rem_bound_pos k 2). lia.
Qed.

Lemma quorum_intersect members Q1 Q2 :
  quorum members Q1 → quorum members Q2 → ∃ v, v ∈ Q1 ∧ v ∈ Q2.
Proof.
  intros (N1 & S1 & M1) (N2 & S2 & M2).
  destruct (decide (Exists (λ v, v ∈ Q2) Q1)) as [(v & ? & ?)%Exists_exists|Hno]; [eauto|].
  exfalso. assert (Hnd : NoDup (Q1 ++ Q2)).
  { apply NoDup_app. split_and!; [done| |done]. intros v Hv Hv2. apply Hno, Exists_exists. eauto. }
  assert (Hsub : Q1 ++ Q2 ⊆+ members).
  { apply NoDup_submseteq; [done|]. intros v. rewrite elem_of_app. intros []; auto. }
  apply submseteq_length in Hsub. rewrite length_app in Hsub.
  pose proof (majority_twice (zlen members) (zlen_nonneg _)). unfold zlen in *. lia.
Qed.

Section cluster.
Context {St : Type} `{!StableStore St} `{!MembershipJSON}.
Context (storable : PersistentState → Prop) `{!StableStoreLaws St storable}.
Context (members : list string).
Hypothesis members_named : "" ∉ members.
Hypothesis members_distinct : NoDup members.
Abbreviation Node := (RaftNode St).

(** ** State *)

(** [answers] are the vote responses computed so far, by node and request;
    [selfVotes] the terms in which a node became candidate and stored it;
    [elected] the promotions, and [asked] the requests that elections have made, in
    any order. *)
Record Cluster := mkCluster {
  nodes : gmap string Node;
  threads : gmap string electionPC;
  answers : list (string * RequestVoteRequest * RequestVoteResponse);
  selfVotes : list (string * Z);
  elected : list (Z * string);
  asked : list RequestVoteRequest;
}.

Implicit Types c : Cluster.
Implicit Types n : Node.

Definition set_node (i : string) (n : Node) c : Cluster :=
  mkCluster (<[i := n]> c.(nodes)) c.(threads) c.(answers) c.(selfVotes) c.(elected) c.(asked).

Definition set_thread (i : string) (pc : electionPC) c : Cluster :=
  mkCluster c.(nodes) (<[i := pc]> c.(threads)) c.(answers) c.(selfVotes) c.(elected) c.(asked).

Definition add_answer (a : string * RequestVoteRequest * RequestVoteResponse) c : Cluster :=
  mkCluster c.(nodes) c.(threads) (a :: c.(answers)) c.(selfVotes) c.(elected) c.(asked).

(** What one election step adds to the history. *)
Definition record_election (i : string) (pc pc' : electionPC) (n' : Node) c : Cluster :=
  match pc, pc' with
  | ECandidate, ESnapshot =>
      mkCluster c.(nodes) c.(threads) c.(answers)
        ((i, n'.(currentTerm)) :: c.(selfVotes)) c.(elected) c.(asked)
  | ESnapshot, EWait req _ _ _ =>
      mkCluster c.(nodes) c.(threads) c.(answers) c.(selfVotes) c.(elected) (req :: c.(asked))
  | EPromote t, EDone true _ =>
      mkCluster c.(nodes) c.(threads) c.(answers) c.(selfVotes) ((t, i) :: c.(elected)) c.(asked)
  | _, _ => c
  end.

(** The peers of node [i] are the other members. *)
Definition peers_of (i : string) (ps : list string) : Prop := i :: ps ≡ₚ members.

(** ** Steps *)

Inductive cluster_step : Cluster → Cluster → Prop :=
| CS_op i n op n' c :
    c.(nodes) !! i = Some n → bystander op = true → exec op n = Ret n' →
    storable (persistentOf n') →
    cluster_step c (set_node i n' c)
| CS_vote i n req n' resp c :
    c.(nodes) !! i = Some n → RequestVote req n = (n', (resp, None)) →
    storable (persistentOf n') →
    cluster_step c (add_answer (i, req, resp) (set_node i n' c))
| CS_vote_failed i n req n' resp e c :
    c.(nodes) !! i = Some n → RequestVote req n = (n', (resp, Some e)) →
    cluster_step c (set_node i n' c)
| CS_election i n pc n' pc' c :
    c.(nodes) !! i = Some n → c.(threads) !! i = Some pc →
    electionStep pc n = Ret (n', pc') →
    0 ≤ n.(currentTerm) < two64 - 1 → storable (persistentOf n') →
    cluster_step c (record_election i pc pc' n' (set_thread i pc' (set_node i n' c)))
| CS_vote_result i req peers pending votes p resp c :
    c.(threads) !! i = Some (EWait req peers pending votes) →
    p ∈ pending → (p, req, resp) ∈ c.(answers) →
    cluster_step c
      (set_thread i (voteRecv (EWait req peers pending votes) (Result p (inl resp))) c)
| CS_vote_lost i req peers pending votes p e c :
    c.(threads) !! i = Some (EWait req peers pending votes) → p ∈ pending →
    cluster_step c
      (set_thread i (voteRecv (EWait req peers pending votes) (Result p (inr e))) c)
| CS_vote_ctx i req peers pending votes e c :
    c.(threads) !! i = Some (EWait req peers pending votes) →
    cluster_step c
      (set_thread i (voteRecv (EWait req peers pending votes) (CtxDone e)) c)
| CS_prevote i pc ev c :
    c.(threads) !! i = Some pc →
    cluster_step c (set_thread i (preVoteRecv pc ev) c)
| CS_start i won err clientNil c :
    c.(threads) !! i = Some (EDone won err) →
    cluster_step c (set_thread i (startElectionPC clientNil) c)
| CS_restart i n s peers0 n' c :
    c.(nodes) !! i = Some n → n.(store) = Some s → peers_of i peers0 →
    NewRaftNode i peers0 (Some s) = inl n' →
    cluster_step c (set_thread i (EDone false None) (set_node i n' c)).

(** Every node freshly built from an empty store, no election running. *)
Definition cluster_init c : Prop :=
  (∀ i n, c.(nodes) !! i = Some n →
     ∃ ps st, peers_of i ps ∧ NewRaftNode i ps st = inl n ∧
              (∀ s, st = Some s → Load s = inl zeroPS)) ∧
  (∀ i pc, c.(threads) !! i = Some pc → pc = EDone false None) ∧
  c.(answers) = [] ∧ c.(selfVotes) = [] ∧ c.(elected) = [] ∧ c.(asked) = [].

(** ** Votes *)

(** Node [v] gave its vote of term [t] to [k]. *)
Definition granted c (v : string) (t : Z) (k : string) : Prop :=
  (∃ req resp, (v, req, resp) ∈ c.(answers) ∧ rvr_VoteGranted resp = true ∧
     rvq_Term req = t ∧ rvq_CandidateID req = k) ∨
  (v = k ∧ (k, t) ∈ c.(selfVotes)).

(** The same for a vote that counts: one that answers a request of [k]'s own election. *)
Definition counted c (v : string) (t : Z) (k : string) : Prop :=
  (∃ req resp, (v, req, resp) ∈ c.(answers) ∧ rvr_VoteGranted resp = true ∧
     rvq_Term req = t ∧ rvq_CandidateID req = k ∧ req ∈ c.(asked)) ∨
  (v = k ∧ (k, t) ∈ c.(selfVotes)).

Lemma counted_granted c v t k : counted c v t k → granted c v t k.
Proof. unfold counted, granted. naive_solver. Qed.

Lemma counted_mono c (c' : Cluster) v t k :
  (∀ a, a ∈ c.(answers) → a ∈ c'.(answers)) → (∀ r, r ∈ c.(asked) → r ∈ c'.(asked)) →
  (∀ x, x ∈ c.(selfVotes) → x ∈ c'.(selfVotes)) → counted c v t k → counted c' v t k.
Proof. unfold counted. naive_solver. Qed.

(** A vote is a promise: the term has passed, or the vote still stands. *)
Definition promise (t : Z) (k : string) (term : Z) (vote : string) : Prop :=
  t < term ∨ (t = term ∧ vote = k).

(** A property of what a restart of the node would read. *)
Definition on_disk (P : PersistentState → Prop) (n : Node) : Prop :=
  ∀ s ps, n.(store) = Some s → Load s = inl ps → P ps.

Definition ps_promise (t : Z) (k : string) (ps : PersistentState) : Prop :=
  promise t k (ps_CurrentTerm ps) (ps_VotedFor ps).

Definition ps_config (i : string) (ps : PersistentState) : Prop :=
  (∀ l, ps_Peers ps = Some l → peers_of i l) ∧ ps_SelfMember ps ≠ Some false.

(** ** The invariant *)

Definition node_inv c (i : string) (n : Node) : Prop :=
  n.(nodeID) = i ∧ n.(selfMember) = true ∧ peers_of i n.(peers) ∧
  on_disk (ps_config i) n ∧
  (∀ t k, k ≠ "" → granted c i t k →
     promise t k n.(currentTerm) n.(votedFor) ∧ on_disk (ps_promise t k) n) ∧
  (n.(state) = Candidate ∨ n.(state) = Leader → n.(votedFor) = i) ∧
  (n.(state) = Leader → (n.(currentTerm), i) ∈ c.(elected)).

(** If node [i] is still the candidate of term [t], it has stored its own vote. *)
Definition candidate_voted c (i : string) (t : Z) : Prop :=
  ∀ n, c.(nodes) !! i = Some n → n.(state) = Candidate → n.(currentTerm) = t →
    ((i, t) ∈ c.(selfVotes)).

(** The votes counted so far, and the peers that have not answered. *)
Definition counting c (i : string) (req : RequestVoteRequest) (ps pending : list string)
    (votes : Z) (got : list string) : Prop :=
  rvq_CandidateID req = i ∧ peers_of i ps ∧ candidate_voted c i (rvq_Term req) ∧
  votes = 1 + zlen got ∧ NoDup (got ++ pending) ∧ got ++ pending ⊆ ps ∧
  (∀ v, v ∈ got → counted c v (rvq_Term req) i) ∧ req ∈ c.(asked).

Definition thread_inv c (i : string) (pc : electionPC) : Prop :=
  match pc with
  | ESnapshot => ∀ t, candidate_voted c i t
  | EWait req ps pending votes => ∃ got, counting c i req ps pending votes got
  | EResp req ps pending votes resp | ECheck req ps pending votes resp =>
      ∃ got p, counting c i req ps pending votes got ∧ p ∈ ps ∧ (p ∉ got ++ pending) ∧
        (rvr_VoteGranted resp = true → counted c p (rvq_Term req) i)
  | EPromote t =>
      candidate_voted c i t ∧
      ((i, t) ∈ c.(selfVotes) → ∃ Q, quorum members Q ∧ ∀ v, v ∈ Q → counted c v t i)
  | _ => True
  end.

Definition elected_inv c : Prop :=
  ∀ t k, (t, k) ∈ c.(elected) → k ≠ "" ∧ ∃ Q, quorum members Q ∧ ∀ v, v ∈ Q → granted c v t k.

Definition unique_votes c : Prop :=
  ∀ v t k1 k2, k1 ≠ "" → k2 ≠ "" → granted c v t k1 → granted c v t k2 → k1 = k2.

Definition cluster_inv c : Prop :=
  (∀ i n, c.(nodes) !! i = Some n → node_inv c i n) ∧
  (∀ i pc, c.(threads) !! i = Some pc → thread_inv c i pc) ∧
  elected_inv c ∧ unique_votes c.

(** ** Frame lemmas *)

(** [c'] differs from [c] at node [i] only, and its history is longer. *)
Record extends (i : string) c (c' : Cluster) : Prop := mkExtends {
  ext_nodes : ∀ j, j ≠ i → c'.(nodes) !! j = c.(nodes) !! j;
  ext_threads : ∀ j, j ≠ i → c'.(threads) !! j = c.(threads) !! j;
  ext_grants : ∀ v t k, granted c v t k → granted c' v t k;
  ext_counted : ∀ v t k, counted c v t k → counted c' v t k;
  ext_asked : ∀ req, req ∈ c.(asked) → req ∈ c'.(asked);
  ext_others : ∀ j t k, j ≠ i → granted c' j t k → granted c j t k;
  ext_self : ∀ v t, (v, t) ∈ c.(selfVotes) → (v, t) ∈ c'.(selfVotes);
  ext_elected : ∀ x, x ∈ c.(elected) → x ∈ c'.(elected);
}.

Lemma candidate_voted_other i j c c' t :
  extends i c c' → j ≠ i → candidate_voted c j t → candidate_voted c' j t.
Proof.
  intros E Hj Hc n Hn Hs Ht. rewrite (ext_nodes _ _ _ E) in Hn by done.
  apply (ext_self _ _ _ E). by apply (Hc n).
Qed.

Lemma counting_mono i c c' req ps pending votes got :
  counting c i req ps pending votes got →
  (∀ v t k, counted c v t k → counted c' v t k) → (∀ r, r ∈ c.(asked) → r ∈ c'.(asked)) →
  candidate_voted c' i (rvq_Term req) → counting c' i req ps pending votes got.
Proof. unfold counting. intros (?&?&?&?&?&?&?&?) Hg Ha Hc. split_and!; auto. Qed.

(** The thread invariant survives a step that keeps the candidate's own vote. *)
Lemma thread_inv_mono i c c' pc :
  thread_inv c i pc →
  (∀ v t k, counted c v t k → counted c' v t k) → (∀ r, r ∈ c.(asked) → r ∈ c'.(asked)) →
  (∀ v t, (v, t) ∈ c.(selfVotes) → (v, t) ∈ c'.(selfVotes)) →
  (∀ t, (i, t) ∈ c'.(selfVotes) → (i, t) ∈ c.(selfVotes)) →
  (∀ t, candidate_voted c i t → candidate_voted c' i t) →
  thread_inv c' i pc.
Proof.
  intros Hi Hg Ha Hs Hs' Hc. destruct pc; simpl in *; try done.
  - intros t. by apply Hc.
  - destruct Hi as [got Hcnt]. exists got. eapply counting_mono; eauto. by apply Hc, Hcnt.
  - destruct Hi as (got & p & Hcnt & ? & ? & ?). exists got, p. split_and!; try done; auto.
    eapply counting_mono; eauto. by apply Hc, Hcnt.
  - destruct Hi as (got & p & Hcnt & ? & ? & ?). exists got, p. split_and!; try done; auto.
    eapply counting_mono; eauto. by apply Hc, Hcnt.
  - destruct Hi as [Hv HQ]. split; [by apply Hc|].
    intros (Q & ? & ?)%Hs'%HQ. exists Q. auto.
Qed.

Lemma thread_inv_other i j c c' pc :
  extends i c c' → j ≠ i →
  (∀ t, (j, t) ∈ c'.(selfVotes) → (j, t) ∈ c.(selfVotes)) →
  thread_inv c j pc → thread_inv c' j pc.
Proof.
  intros E Hj Hs Hi. eapply thread_inv_mono; eauto using ext_counted, ext_asked, ext_self.
  intros t. by apply (candidate_voted_other i).
Qed.

Lemma node_inv_other i j c c' n :
  extends i c c' → j ≠ i → node_inv c j n → node_inv c' j n.
Proof.
  intros E Hj (?&?&?&?&Hp&?&He). unfold node_inv. split_and!; try done.
  - intros t k Hk Hg. apply Hp; [done|]. by apply (ext_others _ _ _ E).
  - intros Hs. apply (ext_elected _ _ _ E). auto.
Qed.

(** Enough to check the node that moved. *)
Lemma cluster_inv_extends i c c' :
  cluster_inv c → extends i c c' →
  (∀ j t, j ≠ i → (j, t) ∈ c'.(selfVotes) → (j, t) ∈ c.(selfVotes)) →
  (∀ n', c'.(nodes) !! i = Some n' → node_inv c' i n') →
  (∀ pc', c'.(threads) !! i = Some pc' → thread_inv c' i pc') →
  elected_inv c' →
  (∀ t k1 k2, k1 ≠ "" → k2 ≠ "" → granted c' i t k1 → granted c' i t k2 → k1 = k2) →
  cluster_inv c'.
Proof.
  intros (Hn & Ht & He & Hu) E Hs Hni Hti He' Hui. split_and!; [| |done|].
  - intros j n Hj. destruct (decide (j = i)) as [->|Hne]; [by apply Hni|].
    rewrite (ext_nodes _ _ _ E) in Hj by done. eapply node_inv_other; eauto.
  - intros j pc Hj. destruct (decide (j = i)) as [->|Hne]; [by apply Hti|].
    rewrite (ext_threads _ _ _ E) in Hj by done. eapply thread_inv_other; eauto.
  - intros v t k1 k2 ? ? H1 H2. destruct (decide (v = i)) as [->|Hne]; [by eapply Hui|].
    eapply (ext_others _ _ _ E) in H1, H2; eauto.
Qed.

(** ** Steps of one node that cast no vote of its own *)

Record moves (n n' : Node) : Prop := mkMoves {
  mv_config : same_config n n';
  mv_kept : vote_kept n n';
  mv_disk : ∀ P : PersistentState → Prop, on_disk P n → P (persistentOf n') → on_disk P n';
  mv_role : n'.(state) ≠ Follower →
    n'.(state) = n.(state) ∧ n'.(currentTerm) = n.(currentTerm) ∧ n'.(votedFor) = n.(votedFor);
}.

(** What the disk holds after a persist: the new state if it succeeded, the old
    one if it failed. *)
Lemma persist_disk m n' err P :
  persistLocked m = (n', err) → (err = None → storable (persistentOf m)) →
  on_disk P m → P (persistentOf m) → on_disk P n'.
Proof using All.
  unfold persistLocked. intros Hp Hst Hd HP. destruct (store m) as [s|] eqn:Es.
  - destruct (Save (persistentOf m) s) as [s' e] eqn:Hs. simplify_eq.
    intros s0 ps [= <-] Hl. destruct err as [e|].
    + rewrite (Save_err _ _ _ _ Hs) in Hl. by eapply Hd.
    + rewrite (Save_ok _ _ _ (Hst eq_refl) Hs) in Hl. by simplify_eq.
  - simplify_eq. exact Hd.
Qed.

(** After a persist that succeeded, a restart reads the node as it is. *)
Lemma persist_stored m n' (P : PersistentState → Prop) :
  persistLocked m = (n', None) → storable (persistentOf m) → P (persistentOf m) → on_disk P n'.
Proof using StableStoreLaws0.
  unfold persistLocked. intros Hp Hs HP. destruct (store m) as [s|] eqn:Es.
  - destruct (Save (persistentOf m) s) as [s' e] eqn:Hsave. simplify_eq.
    intros s0 ps [= <-] Hl. rewrite (Save_ok _ _ _ Hs Hsave) in Hl. by simplify_eq.
  - simplify_eq. intros s ps. by rewrite Es.
Qed.

Lemma persist_persistentOf m n' err : persistLocked m = (n', err) → persistentOf n' = persistentOf m.
Proof. intros Hp. destruct (persistLocked_eq m) as (s & e & E). rewrite Hp in E. by simplify_eq. Qed.

Lemma settles_disk n m n' P :
  settles n m n' → storable (persistentOf n') → on_disk P n → P (persistentOf n') → on_disk P n'.
Proof using All.
  intros [Hst Hn] Hs Hd HP. assert (Hdm : on_disk P m).
  { intros s ps. rewrite Hst. apply Hd. }
  destruct Hn as [->|E]; [done|]. destruct (persistLocked m) as [n2 err] eqn:Hp. simpl in E. subst n2.
  rewrite (persist_persistentOf _ _ _ Hp) in *. eapply persist_disk; eauto.
Qed.

Lemma quiet_moves n n' : quiet n n' → storable (persistentOf n') → moves n n'.
Proof using All.
  intros Hq Hs. pose proof (quiet_ballot _ _ Hq) as [Hc Hb].
  constructor; [done|apply ballot_le_kept; by split| |].
  - intros P. destruct Hq as (m & Hset & _). by eapply settles_disk.
  - destruct Hb as [[[Ht Hv] [Hst|Hst]]|(_ & _ & Hst)]; rewrite Hst; done.
Qed.

Lemma moves_refl n : moves n n.
Proof. constructor; try done. Qed.

Lemma RequestVote_moves req n n' resp err :
  RequestVote req n = (n', (resp, err)) → (err = None → storable (persistentOf n')) →
  (n.(state) ≠ Follower → n.(votedFor) = n.(nodeID) ∧ n.(nodeID) ≠ "") → moves n n'.
Proof using All.
  intros Hr Hst Hown.
  pose proof (RequestVote_kept req n) as Hk. rewrite Hr in Hk. simpl in Hk.
  assert (Hdisk : ∀ m P, persistLocked m = (n', err) → m.(store) = n.(store) →
    on_disk P n → P (persistentOf n') → on_disk P n').
  { intros m P Hp Est Hd HP. pose proof (persist_persistentOf _ _ _ Hp) as Eps.
    rewrite Eps in *. eapply (persist_disk m); eauto. intros s ps. rewrite Est. apply Hd. }
  destruct (RequestVote_cases req n)
    as [[_ E]|[(Hnr & [Hv _] & s & e & E & Hp)|(Hnr & _ & s & e & E & [Hp|Hp])]];
    rewrite Hr in E; injection E as En' Eresp Eerr.
  - subst n'. apply moves_refl.
  - rewrite <-En', <-Eerr in Hp. constructor; [|done| |]; rewrite ?En'.
    + unfold vote_adopted. by split_ifs.
    + rewrite <-En'. intros P. eapply Hdisk; [exact Hp|]. unfold vote_adopted. by split_ifs.
    + revert Hv. unfold vote_adopted. split_ifs; [done|]. simpl. intros Hv Hs.
      destruct (Hown Hs). intuition congruence.
  - injection Hp as Hp _. rewrite En', Hp. apply moves_refl.
  - rewrite <-En', <-Eerr in Hp. constructor; [|done| |]; rewrite ?En'.
    + unfold vote_adopted. by split_ifs.
    + rewrite <-En'. intros P. eapply Hdisk; [exact Hp|]. unfold vote_adopted. by split_ifs.
    + unfold vote_adopted. by split_ifs.
Qed.

Lemma promise_kept t k n (n' : Node) :
  k ≠ "" → vote_kept n n' → promise t k n.(currentTerm) n.(votedFor) →
  promise t k n'.(currentTerm) n'.(votedFor).
Proof.
  intros Hk (_ & Hle & Hv) [Hlt|[-> <-]]; [left; lia|].
  destruct (decide (currentTerm n' = currentTerm n)) as [Hc|]; [right|left; lia].
  split; [done|]. by apply Hv.
Qed.

Lemma persistentOf_config i n :
  n.(selfMember) = true → peers_of i n.(peers) → ps_config i (persistentOf n).
Proof.
  intros Hs Hp. split; simpl; [|by rewrite Hs].
  unfold clonePeers. intros l. destruct (peers n); [done|]. by intros [= <-].
Qed.

(** The node invariant after such a step, in an unchanged history. *)
Lemma node_inv_moves c i n n' : node_inv c i n → moves n n' → node_inv c i n'.
Proof.
  intros (Hid & Hsm & Hps & Hcfg & Hpr & Hrole & Hlead) [Hc Hk Hd Hr].
  destruct Hc as (Eid & Eps & Esm & _). unfold node_inv. rewrite Eid, Eps, Esm.
  split_and!; [done|done|done| | | |].
  - apply Hd; [done|]. apply persistentOf_config; by rewrite ?Esm, ?Eps.
  - intros t k Hne Hg. destruct (Hpr t k Hne Hg) as [H1 H2].
    assert (promise t k (currentTerm n') (votedFor n')) as H1' by by eapply promise_kept.
    split; [done|]. apply Hd; done.
  - intros Hs. destruct Hr as (Es & _ & ->); [by destruct Hs as [->| ->]|].
    apply Hrole. by rewrite <-Es.
  - intros Hs. destruct Hr as (Es & -> & _); [by rewrite Hs|]. apply Hlead. by rewrite <-Es.
Qed.

Lemma candidate_voted_moves c i n n' t :
  c.(nodes) !! i = Some n → moves n n' → candidate_voted c i t →
  candidate_voted (set_node i n' c) i t.
Proof.
  intros Hn Hm Hc m Hm' Hs Ht. simpl in *. rewrite lookup_insert_eq in Hm'. simplify_eq.
  destruct (mv_role _ _ Hm) as (Es & Et & _); [by rewrite Hs|].
  apply (Hc n Hn); congruence.
Qed.

Lemma extends_node i n' c : extends i c (set_node i n' c).
Proof. constructor; simpl; try done. intros j Hj. by rewrite lookup_insert_ne. Qed.

Lemma extends_thread i pc c : extends i c (set_thread i pc c).
Proof. constructor; simpl; try done. intros j Hj. by rewrite lookup_insert_ne. Qed.

Lemma inv_set_node c i n n' :
  cluster_inv c → c.(nodes) !! i = Some n → moves n n' → cluster_inv (set_node i n' c).
Proof.
  intros Hinv Hn Hm. pose proof Hinv as (Hni & Hti & He & Hu).
  apply (cluster_inv_extends i c); [done|apply extends_node|done| | |done|].
  - intros m. simpl. rewrite lookup_insert_eq. intros [= <-].
    apply (node_inv_moves c i n n' (Hni i n Hn) Hm).
  - intros pc Hpc. apply (thread_inv_mono i c _ pc (Hti i pc Hpc)); try done.
    intros t. by eapply candidate_voted_moves.
  - intros t. apply (Hu i).
Qed.

Lemma inv_set_thread c i pc' :
  cluster_inv c → thread_inv c i pc' → cluster_inv (set_thread i pc' c).
Proof.
  intros Hinv Hpc. pose proof Hinv as (Hni & Hti & He & Hu).
  apply (cluster_inv_extends i c); [done|apply extends_thread|done| | |done|].
  - intros m Hm. apply (Hni i m Hm).
  - intros pc. simpl. rewrite lookup_insert_eq. intros [= <-]. exact Hpc.
  - intros t. apply (Hu i).
Qed.

Lemma granted_add_answer c i req resp v t k :
  granted (add_answer (i, req, resp) c) v t k ↔
  granted c v t k ∨
  (v = i ∧ rvr_VoteGranted resp = true ∧ rvq_Term req = t ∧ rvq_CandidateID req = k).
Proof.
  unfold granted. simpl. split.
  - intros [(req' & resp' & [Heq|Hin]%elem_of_cons & ?)|?]; [|left; eauto 10|left; by right].
    simplify_eq. by right.
  - intros [[(req' & resp' & Hin & ?)|?]|(-> & ? & ? & ?)]; [left|by right|left].
    + exists req', resp'. split; [by right|done].
    + exists req, resp. split; [by left|done].
Qed.

(** The vote a node has just given does not contradict an earlier one. *)
Lemma vote_agrees c i n t k :
  node_inv c i n → n.(currentTerm) = t → k ≠ "" → granted c i t k → n.(votedFor) = k.
Proof.
  intros (_ & _ & _ & _ & Hp & _) Ht Hk Hg. destruct (Hp t k Hk Hg) as [[?|[_ ?]] _]; [lia|done].
Qed.

Lemma inv_add_answer c i n req resp :
  cluster_inv c → c.(nodes) !! i = Some n →
  (rvr_VoteGranted resp = true →
     n.(currentTerm) = rvq_Term req ∧ n.(votedFor) = rvq_CandidateID req ∧
     on_disk (ps_promise (rvq_Term req) (rvq_CandidateID req)) n) →
  cluster_inv (add_answer (i, req, resp) c).
Proof.
  intros Hinv Hn Hg. pose proof Hinv as (Hni & Hti & He & Hu).
  assert (E : extends i c (add_answer (i, req, resp) c)).
  { constructor; try done.
    - intros. apply granted_add_answer. by left.
    - intros v t k. apply counted_mono; try done. by right.
    - intros j t k Hj [?|(-> & _)]%granted_add_answer; done. }
  apply (cluster_inv_extends i c); [done|done|done| | | |].
  - intros m Hm. simpl in Hm. simplify_eq. destruct (Hni i n Hn) as (?&?&?&?&Hp&?&?).
    unfold node_inv. split_and!; try done.
    intros t k Hk [?|(_ & Hr & <- & <-)]%granted_add_answer; [by apply Hp|].
    destruct (Hg Hr) as (? & ? & ?). split; [by right|done].
  - intros pc Hpc. apply (thread_inv_mono i c _ pc (Hti i pc Hpc)); try done.
    apply (ext_counted _ _ _ E).
  - intros t k (? & Q & HQ & Hall)%He. split; [done|]. exists Q. split; [done|].
    intros v ?. apply (ext_grants _ _ _ E). by apply Hall.
  - intros t k1 k2 Hk1 Hk2 G1 G2. apply granted_add_answer in G1, G2.
    destruct G1 as [G1|(_ & R1 & T1 & K1)], G2 as [G2|(_ & R2 & T2 & K2)]; [eauto| | |congruence].
    + destruct (Hg R2) as (Ht & Hv & _).
      rewrite <-K2, <-Hv. symmetry. apply (vote_agrees c i n t); auto. lia.
    + destruct (Hg R1) as (Ht & Hv & _).
      rewrite <-K1, <-Hv. apply (vote_agrees c i n t); auto. lia.
Qed.

(** ** Steps of an election *)

Lemma peers_of_not_self i ps : peers_of i ps → (i ∉ ps) ∧ NoDup ps.
Proof using members_distinct.
  intros Hp. assert (NoDup (i :: ps)) as [? ?]%NoDup_cons by by rewrite Hp. done.
Qed.

Lemma peers_of_named i ps : peers_of i ps → i ≠ "".
Proof using members_named.
  intros Hp ->. apply members_named. rewrite <-Hp. by left.
Qed.

Lemma peers_of_zlen i ps : peers_of i ps → zlen members = zlen ps + 1.
Proof.
  intros Hp%Permutation_length. unfold zlen. rewrite <-Hp. simpl. lia.
Qed.

Lemma slice_elems_clonePeers l : slice_elems (clonePeers l) = l.
Proof. by destruct l. Qed.

Lemma thread_inv_voteWait c i req ps pending votes got :
  counting c i req ps pending votes got → thread_inv c i (voteWait req ps pending votes).
Proof. intros. unfold voteWait. destruct pending; simpl; [done|eauto]. Qed.

Lemma thread_inv_preWait c i req ps pending votes :
  thread_inv c i (preWait req ps pending votes).
Proof. unfold preWait. by destruct pending. Qed.

(** One more vote counted. *)
Lemma counting_grant c i req ps pending votes got p :
  counting c i req ps pending votes got → p ∈ ps → (p ∉ got ++ pending) →
  counted c p (rvq_Term req) i →
  counting c i req ps pending (votes + 1) (p :: got).
Proof.
  intros (? & ? & ? & -> & Hnd & Hsub & Hg & Ha) Hp Hnew Hgr. unfold counting.
  split_and!; try done.
  - rewrite zlen_cons. lia.
  - simpl. by apply NoDup_cons.
  - intros v. simpl. rewrite elem_of_cons. intros [->|?]; auto.
  - intros v. rewrite elem_of_cons. intros [->|?]; auto.
Qed.

(** A majority counted is a quorum of votes. *)
Lemma counting_quorum c i req ps pending votes got :
  counting c i req ps pending votes got → majority (zlen ps + 1) ≤ votes →
  (i, rvq_Term req) ∈ c.(selfVotes) →
  ∃ Q, quorum members Q ∧ ∀ v, v ∈ Q → counted c v (rvq_Term req) i.
Proof using members_distinct.
  intros (_ & Hps & _ & -> & Hnd & Hsub & Hg & _) Hm Hself. exists (i :: got).
  apply NoDup_app in Hnd as (Hnd & _ & _).
  assert (Hgot : got ⊆ ps) by (intros v ?; apply Hsub, elem_of_app; by left).
  split; [split_and!|].
  - apply NoDup_cons. split; [|done]. intros ?%Hgot. by apply peers_of_not_self in Hps as [? _].
  - intros v. rewrite <-Hps, !elem_of_cons. intros [->|?]; auto.
  - rewrite (peers_of_zlen i ps Hps), zlen_cons. lia.
  - intros v. rewrite elem_of_cons. intros [->|?]; [right|]; auto.
Qed.

(** The program points that carry no obligation. *)
Definition idle_pc (pc : electionPC) : bool :=
  match pc with
  | ESnapshot | EWait _ _ _ _ | EResp _ _ _ _ _ | ECheck _ _ _ _ _ | EPromote _ => false
  | _ => true
  end.

Lemma thread_inv_idle c i pc : idle_pc pc = true → thread_inv c i pc.
Proof. by destruct pc. Qed.

Lemma ESnapshot_inv c i n n' pc' :
  node_inv c i n → c.(nodes) !! i = Some n → thread_inv c i ESnapshot →
  electionStep ESnapshot n = Ret (n', pc') →
  n' = n ∧ thread_inv (record_election i ESnapshot pc' n' c) i pc'.
Proof.
  intros (Hid & _ & Hps & _) Hn Ht. simpl. rewrite slice_elems_clonePeers.
  destruct (Z.leb_spec (majority (zlen (peers n) + 1)) 1); intros [= <- <-]; (split; [done|]).
  - simpl. split; [apply Ht|]. intros Hs. exists [i]. split.
    + split_and!; [apply NoDup_singleton| |].
      * intros v. rewrite list_elem_of_singleton. intros ->. rewrite <-Hps. by left.
      * rewrite (peers_of_zlen _ _ Hps). done.
    + intros v. rewrite list_elem_of_singleton. intros ->. by right.
  - destruct (peers n) as [|p ps] eqn:Eps; [by compute in H|].
    exists []. unfold counting. simpl. split_and!; try done.
    + apply Ht.
    + by apply peers_of_not_self in Hps as [_ ?].
    + intros v Hv. by apply not_elem_of_nil in Hv.
    + by left.
Qed.

(** A request that an election makes changes nothing else. *)
Lemma inv_ask c i pc' n' : cluster_inv c → cluster_inv (record_election i ESnapshot pc' n' c).
Proof.
  intros Hinv. destruct pc'; try done. simpl. destruct Hinv as (Hn & Ht & He & Hu).
  split_and!; try done. intros j pc Hj.
  apply (thread_inv_mono j c _ pc (Ht j pc Hj)); try done.
  - intros v t k. apply counted_mono; try done. by right.
  - by right.
Qed.

Lemma ECheck_inv c i n n' pc' req ps pending votes resp :
  c.(nodes) !! i = Some n → thread_inv c i (ECheck req ps pending votes resp) →
  electionStep (ECheck req ps pending votes resp) n = Ret (n', pc') →
  n' = n ∧ thread_inv c i pc'.
Proof.
  intros Hn (got & p & Hcnt & Hp & Hnew & Hg). simpl.
  destruct (isCandidateForTerm (rvq_Term req) n); simpl; [|by intros [= <- <-]].
  destruct (rvr_VoteGranted resp) eqn:Hr.
  - pose proof (counting_grant _ _ _ _ _ _ _ _ Hcnt Hp Hnew (Hg eq_refl)) as Hcnt'.
    destruct (Z.leb_spec (majority (zlen ps + 1)) (votes + 1)); intros [= <- <-]; (split; [done|]).
    + simpl. split; [apply Hcnt|]. by eapply counting_quorum.
    + by eapply thread_inv_voteWait.
  - intros [= <- <-]. split; [done|]. by eapply thread_inv_voteWait.
Qed.

Lemma BecomeCandidate_disk n n' err P :
  BecomeCandidate n = (n', err) → (err = None → storable (persistentOf n')) →
  on_disk P n → P (persistentOf n') → on_disk P n'.
Proof using All.
  unfold BecomeCandidate. cbv zeta. intros Hp Hs Hd HP.
  rewrite (persist_persistentOf _ _ _ Hp) in *. by eapply persist_disk.
Qed.

(** A stored candidacy is on disk whatever was there before. *)
Lemma BecomeCandidate_stored n n' P :
  BecomeCandidate n = (n', None) → storable (persistentOf n') → P (persistentOf n') →
  on_disk P n'.
Proof using All.
  unfold BecomeCandidate. cbv zeta. intros Hp Hs HP.
  rewrite (persist_persistentOf _ _ _ Hp) in *. by eapply persist_stored.
Qed.

Lemma promoteCandidate_disk t n n' r P :
  promoteCandidate t n = Ret (n', r) → storable (persistentOf n') →
  on_disk P n → P (persistentOf n') → on_disk P n'.
Proof using All.
  unfold promoteCandidate. destruct (_ || _); [by intros [= -> _]|].
  intros (m & Hm & Ht)%go_bind_inv. apply initLeaderProgress_framed in Hm as (_ & _ & _ & Hst).
  destruct (persistLocked m) as [n2 e] eqn:Hp. simplify_eq.
  eapply settles_disk. split; [done|]. right. by rewrite Hp.
Qed.

(** The node after it became candidate, in a history that may hold its vote. *)
Lemma node_inv_candidate c c' i n n' err :
  node_inv c i n → BecomeCandidate n = (n', err) → 0 ≤ n.(currentTerm) < two64 - 1 →
  (err = None → storable (persistentOf n')) → c'.(elected) = c.(elected) →
  (∀ t k, granted c' i t k → granted c i t k ∨ (err = None ∧ t = n'.(currentTerm) ∧ k = i)) →
  node_inv c' i n'.
Proof using All.
  intros (Hid & Hsm & Hps & Hcfg & Hpr & Hrole & Hlead) Hb Ht Hs He Hg.
  pose proof (BecomeCandidate_kept n Ht) as Hk.
  destruct (BecomeCandidate_fields n) as ((Eid & Eps & Esm & _) & _ & Ev & Es).
  rewrite Hb in *. simpl in *. unfold node_inv. rewrite Eid, Eps, Esm, Ev, Es.
  split_and!; try done.
  - eapply BecomeCandidate_disk; eauto. apply persistentOf_config; by rewrite ?Esm, ?Eps.
  - intros t k Hne Hgr. destruct (Hg t k Hgr) as [Hold|(-> & -> & ->)].
    + destruct (Hpr t k Hne Hold) as [H1 H2]. apply (promise_kept t k n n' Hne Hk) in H1.
      split; [by rewrite <-Ev|]. eapply BecomeCandidate_disk; eauto.
    + assert (promise (currentTerm n') i (currentTerm n') (votedFor n')).
      { right. split; [done|]. by rewrite Ev. }
      split; [by rewrite <-Ev|]. by apply (BecomeCandidate_stored n n'); [..|done]; auto.
Qed.

Lemma granted_self c c' i t :
  c'.(answers) = c.(answers) → c'.(selfVotes) = (i, t) :: c.(selfVotes) →
  ∀ v t' k, granted c' v t' k ↔ granted c v t' k ∨ (v = i ∧ t' = t ∧ k = i).
Proof.
  intros Ea Es v t' k. unfold granted. rewrite Ea, Es, elem_of_cons. naive_solver.
Qed.

Lemma inv_candidate c i n n' :
  cluster_inv c → c.(nodes) !! i = Some n → BecomeCandidate n = (n', None) →
  0 ≤ n.(currentTerm) < two64 - 1 → storable (persistentOf n') →
  cluster_inv (record_election i ECandidate ESnapshot n' (set_thread i ESnapshot (set_node i n' c))).
Proof using All.
  intros Hinv Hn Hb Ht Hs. pose proof Hinv as (Hni & Hti & He & Hu).
  pose proof (Hni i n Hn) as (Hid & _ & Hps & _ & Hpr & _).
  assert (Ect : n'.(currentTerm) = n.(currentTerm) + 1).
  { destruct (BecomeCandidate_fields n) as (_ & E & _). rewrite Hb in E. simpl in E.
    rewrite E. apply uadd_small. ulia. }
  set (c' := record_election _ _ _ _ _).
  pose proof (granted_self c c' i (currentTerm n') eq_refl eq_refl) as Hg.
  assert (E : extends i c c').
  { constructor; simpl; try done.
    - intros j Hj. by rewrite lookup_insert_ne.
    - intros j Hj. by rewrite lookup_insert_ne.
    - intros v t k ?. apply Hg. by left.
    - intros v t k. apply counted_mono; try done. by right.
    - intros j t k Hj [?|(? & _)]%Hg; done.
    - intros v t ?. by right. }
  apply (cluster_inv_extends i c); [done|done| | | | |].
  - simpl. intros j t Hj [?|?]%elem_of_cons; congruence.
  - simpl. intros m. rewrite lookup_insert_eq. intros [= <-].
    apply (node_inv_candidate c c' i n n' None); auto.
    intros t k [?|(_ & -> & ->)]%Hg; auto.
  - simpl. intros pc. rewrite lookup_insert_eq. intros [= <-]. simpl.
    intros t m. simpl. rewrite lookup_insert_eq. intros [= <-] _ <-. by left.
  - intros t k (? & Q & HQ & Hall)%He. split; [done|]. exists Q. split; [done|].
    intros v ?. apply Hg. left. by apply Hall.
  - intros t k1 k2 Hk1 Hk2 G1 G2. apply Hg in G1, G2.
    assert (Hold : ∀ k, k ≠ "" → granted c i (currentTerm n') k → False).
    { intros k Hk Hgr. destruct (Hpr _ k Hk Hgr) as [[?|[? _]] _]; lia. }
    destruct G1 as [G1|(_ & -> & ->)], G2 as [G2|(_ & T2 & ->)]; try done; [eauto|subst t|].
    + exfalso. eauto.
    + exfalso. eauto.
Qed.

Lemma inv_candidate_failed c i n n' e :
  cluster_inv c → c.(nodes) !! i = Some n → BecomeCandidate n = (n', Some e) →
  0 ≤ n.(currentTerm) < two64 - 1 →
  cluster_inv (set_thread i (EDone false (Some e)) (set_node i n' c)).
Proof using All.
  intros Hinv Hn Hb Ht. pose proof Hinv as (Hni & Hti & He & Hu).
  apply (cluster_inv_extends i c); [done| |done| | |done|].
  - constructor; simpl; try done; intros j Hj; by rewrite lookup_insert_ne.
  - simpl. intros m. rewrite lookup_insert_eq. intros [= <-].
    eapply (node_inv_candidate c _ i n n' (Some e)); eauto. done.
  - simpl. intros pc. rewrite lookup_insert_eq. by intros [= <-].
  - intros t. apply (Hu i).
Qed.

Lemma inv_promote c i n n' t err :
  cluster_inv c → c.(nodes) !! i = Some n → thread_inv c i (EPromote t) →
  promoteCandidate t n = Ret (n', (true, err)) → storable (persistentOf n') →
  cluster_inv (record_election i (EPromote t) (EDone true err) n'
                 (set_thread i (EDone true err) (set_node i n' c))).
Proof using All.
  intros Hinv Hn [Hcv HQ] Hp Hs. pose proof Hinv as (Hni & Hti & He & Hu).
  pose proof (Hni i n Hn) as (Hid & Hsm & Hps & Hcfg & Hpr & Hrole & _).
  pose proof (promoteCandidate_fields _ _ _ _ _ Hp)
    as ((Eid & Eps & Esm & _) & [Et Ev] & Hst & Hterm & _ & Hlead).
  pose proof (promoteCandidate_disk t n n' _ (ps_config i) Hp Hs Hcfg) as Hcfg'.
  apply (cluster_inv_extends i c); [done| |done| | | |].
  - constructor; simpl; try done; try (intros j Hj; by rewrite lookup_insert_ne).
    intros x ?. by right.
  - simpl. intros m. rewrite lookup_insert_eq. intros [= <-].
    unfold node_inv. rewrite Eid, Eps, Esm, Et, Ev, Hlead, Hterm. simpl. split_and!; try done.
    + apply Hcfg', persistentOf_config; by rewrite ?Esm, ?Eps.
    + intros t' k Hk Hg. destruct (Hpr t' k Hk Hg) as [H1 H2]. rewrite Hterm in *.
      split; [done|]. eapply promoteCandidate_disk; eauto.
      unfold ps_promise. simpl. by rewrite Et, Ev.
    + intros _. apply Hrole. by left.
    + intros _. by left.
  - simpl. intros pc. rewrite lookup_insert_eq. by intros [= <-].
  - intros t' k Hin. simpl in Hin. apply elem_of_cons in Hin as [[= -> ->]|Hin].
    + split; [by eapply peers_of_named|]. destruct HQ as (Q & ? & Hall); [by apply (Hcv n)|].
      exists Q. split; [done|]. intros v ?. by apply counted_granted, Hall.
    + by apply He.
  - intros t'. apply (Hu i).
Qed.

Lemma NewRaftNode_fields i ps0 s n :
  NewRaftNode (St:=St) i ps0 (Some s) = inl n →
  ∃ ps, Load s = inl ps ∧ n.(nodeID) = i ∧ n.(state) = Follower ∧ n.(store) = Some s ∧
    n.(currentTerm) = ps_CurrentTerm ps ∧ n.(votedFor) = ps_VotedFor ps ∧
    n.(selfMember) = default true (ps_SelfMember ps) ∧
    n.(peers) = default ps0 (ps_Peers ps).
Proof.
  unfold NewRaftNode. destruct (Load s) as [ps|]; [|done]. intros [= <-]. exists ps.
  destruct (ps_Peers ps), (ps_SelfMember ps); simpl; rewrite ?slice_elems_clonePeers; done.
Qed.

Lemma node_inv_restart c i n s ps0 n' :
  node_inv c i n → n.(store) = Some s → peers_of i ps0 →
  NewRaftNode i ps0 (Some s) = inl n' → node_inv c i n'.
Proof.
  intros (_ & _ & _ & Hcfg & Hpr & _ & _) Hst Hps0 Hnew.
  destruct (NewRaftNode_fields _ _ _ _ Hnew) as (ps & Hl & Eid & Es & Est & Et & Ev & Esm & Eps).
  assert (Hdisk : ∀ P, on_disk P n → on_disk P n').
  { intros P Hd s0 ps1. rewrite Est, <-Hst. apply Hd. }
  destruct (Hcfg s ps Hst Hl) as [Hpeers Hself].
  unfold node_inv. rewrite Eid, Es, Et, Ev, Esm, Eps. split_and!; try done; auto.
  - by destruct (ps_SelfMember ps) as [[]|].
  - destruct (ps_Peers ps); simpl; auto.
  - intros t k Hk Hg. destruct (Hpr t k Hk Hg) as [_ Hd].
    split; [by apply (Hd s ps)|by apply Hdisk].
  - by intros [|].
Qed.

Lemma inv_restart c i n s ps0 n' :
  cluster_inv c → c.(nodes) !! i = Some n → n.(store) = Some s → peers_of i ps0 →
  NewRaftNode i ps0 (Some s) = inl n' →
  cluster_inv (set_thread i (EDone false None) (set_node i n' c)).
Proof.
  intros Hinv Hn Hst Hps Hnew. pose proof Hinv as (Hni & Hti & He & Hu).
  apply (cluster_inv_extends i c); [done| |done| | |done|].
  - constructor; simpl; try done; intros j Hj; by rewrite lookup_insert_ne.
  - simpl. intros m. rewrite lookup_insert_eq. intros [= <-].
    by apply (node_inv_restart c i n s ps0 n' (Hni i n Hn)).
  - simpl. intros pc. rewrite lookup_insert_eq. by intros [= <-].
  - intros t. apply (Hu i).
Qed.

Lemma inv_moved c i n n' pc' :
  cluster_inv c → c.(nodes) !! i = Some n → moves n n' →
  thread_inv (set_node i n' c) i pc' →
  cluster_inv (set_thread i pc' (set_node i n' c)).
Proof. intros. apply inv_set_thread; [by eapply inv_set_node|done]. Qed.

Lemma thread_inv_moved c i n n' pc :
  c.(nodes) !! i = Some n → moves n n' → thread_inv c i pc → thread_inv (set_node i n' c) i pc.
Proof.
  intros Hn Hm Hi. apply (thread_inv_mono i c _ pc Hi); try done.
  intros t. by eapply candidate_voted_moves.
Qed.

(** Receiving a response that carries a term steps the node down or leaves it. *)
Lemma stepDown_moves t n n' r :
  stepDownForHigherTerm t n = (n', r) → storable (persistentOf n') → moves n n'.
Proof using All.
  intros E Hs. apply quiet_moves; [|done].
  pose proof (stepDown_quiet t n) as Hq. by rewrite E in Hq.
Qed.

Lemma record_election_idle i pc pc' n' c :
  (pc = ECandidate → pc' ≠ ESnapshot) → (∀ t, pc ≠ EPromote t) → pc ≠ ESnapshot →
  record_election i pc pc' n' c = c.
Proof.
  intros H1 H2 H3. destruct pc, pc'; simpl; try done; [by exfalso; apply H1|by exfalso; eapply H2].
Qed.

Lemma inv_election c i n pc n' pc' :
  cluster_inv c → c.(nodes) !! i = Some n → c.(threads) !! i = Some pc →
  electionStep pc n = Ret (n', pc') → 0 ≤ n.(currentTerm) < two64 - 1 →
  storable (persistentOf n') →
  cluster_inv (record_election i pc pc' n' (set_thread i pc' (set_node i n' c))).
Proof using All.
  intros Hinv Hn Hpc Hstep Ht Hs. pose proof Hinv as (Hni & Hti & _).
  pose proof (Hti i pc Hpc) as Hi.
  assert (Hsame : n' = n → thread_inv c i pc' →
    cluster_inv (set_thread i pc' (set_node i n' c))).
  { intros -> Hpc'. eapply inv_moved; eauto using moves_refl, thread_inv_moved. }
  destruct pc.
  - rewrite record_election_idle by done. simplify_eq/=.
    apply Hsame; [done|]. destruct (isSelfMember n'); done.
  - rewrite record_election_idle by done. simplify_eq/=.
    apply Hsame; [done|]. destruct (isSelfMember n'); done.
  - rewrite record_election_idle by done. simpl in Hstep.
    split_in Hstep; simplify_eq; apply Hsame; try done. apply thread_inv_preWait.
  - rewrite record_election_idle by done. simplify_eq/=. by apply Hsame.
  - rewrite record_election_idle by done. simpl in Hstep.
    destruct (stepDownForHigherTerm _ n) as [n1 [sd e]] eqn:Hsd.
    assert (n' = n1 ∧ idle_pc pc' = true) as [-> Hidle].
    { split_in Hstep; simplify_eq; split; try done; unfold preWait; by destruct pending. }
    eapply inv_moved; eauto using stepDown_moves. by apply thread_inv_idle.
  - simpl in Hstep. destruct (BecomeCandidate n) as [n1 [e|]] eqn:Hb; simplify_eq.
    + rewrite record_election_idle by done. by eapply inv_candidate_failed.
    + by eapply inv_candidate.
  - destruct (ESnapshot_inv c i n n' pc' (Hni i n Hn) Hn Hi Hstep) as [-> Hpc'].
    replace (record_election i ESnapshot pc' n (set_thread i pc' (set_node i n c)))
      with (set_thread i pc' (set_node i n (record_election i ESnapshot pc' n c)))
      by (by destruct pc').
    eapply inv_moved; [by apply inv_ask|by destruct pc'|apply moves_refl|].
    eapply thread_inv_moved; [by destruct pc'|apply moves_refl|done].
  - rewrite record_election_idle by done. simplify_eq/=. by apply Hsame.
  - rewrite record_election_idle by done. simpl in Hstep.
    destruct (stepDownForHigherTerm _ n) as [n1 [sd e]] eqn:Hsd.
    assert (n' = n1 ∧ (idle_pc pc' = true ∨ pc' = ECheck req peers pending votes resp))
      as [-> Hpc'] by (split_in Hstep; simplify_eq; auto).
    eapply inv_moved; eauto using stepDown_moves.
    destruct Hpc' as [| ->]; [by apply thread_inv_idle|].
    eapply thread_inv_moved; eauto using stepDown_moves.
  - rewrite record_election_idle by done.
    destruct (ECheck_inv c i n n' pc' _ _ _ _ _ Hn Hi Hstep). by apply Hsame.
  - simpl in Hstep. apply go_bind_inv in Hstep as ([n1 [won e]] & Hp & Hr). simplify_eq.
    destruct won; [by eapply inv_promote|].
    pose proof (promoteCandidate_fields _ _ _ _ _ Hp) as (_ & _ & ->). by apply Hsame.
  - rewrite record_election_idle by done. simplify_eq/=. by apply Hsame.
Qed.

Lemma elem_of_remove_one x (l : list string) :
  NoDup l → ∀ y, y ∈ remove_one x l → y ∈ l ∧ y ≠ x.
Proof.
  induction l as [|z l IH]; simpl; [intros _ y []%not_elem_of_nil|].
  intros [Hz Hnd]%NoDup_cons y. case_bool_decide; subst.
  - intros Hy. split; [by right|]. by intros ->.
  - rewrite !elem_of_cons. intros [->|Hy]; [split; [by left|congruence]|].
    destruct (IH Hnd y Hy). auto.
Qed.

Lemma NoDup_remove_one x (l : list string) : NoDup l → NoDup (remove_one x l).
Proof.
  induction l as [|z l IH]; simpl; [done|]. intros [Hz Hnd]%NoDup_cons.
  case_bool_decide; [done|]. apply NoDup_cons. split; [|auto].
  intros [? _]%elem_of_remove_one; done.
Qed.

(** Taking one answer off the pending peers. *)
Lemma counting_recv c i req ps pending votes got p :
  counting c i req ps pending votes got → p ∈ pending →
  counting c i req ps (remove_one p pending) votes got ∧ p ∈ ps ∧
  (p ∉ got ++ remove_one p pending).
Proof.
  intros (? & ? & ? & ? & Hnd & Hsub & ? & ?) Hp.
  apply NoDup_app in Hnd as (Hg & Hdisj & Hpend). unfold counting.
  assert (Hrm := elem_of_remove_one p pending Hpend). split_and!; try done.
  - apply NoDup_app. split_and!; [done| |by apply NoDup_remove_one].
    intros v Hv [? _]%Hrm. by eapply Hdisj.
  - intros v. rewrite elem_of_app. intros [?|[? _]%Hrm]; apply Hsub, elem_of_app; auto.
  - apply Hsub, elem_of_app. by right.
  - rewrite elem_of_app. intros [Hin|[_ ?]%Hrm]; [by eapply Hdisj|done].
Qed.

(** ** The invariant holds throughout *)

Lemma cluster_step_inv c c' : cluster_inv c → cluster_step c c' → cluster_inv c'.
Proof using All.
  intros Hinv Hstep. pose proof Hinv as (Hni & Hti & _).
  assert (Hown : ∀ i n, c.(nodes) !! i = Some n → n.(state) ≠ Follower →
    n.(votedFor) = n.(nodeID) ∧ n.(nodeID) ≠ "").
  { intros i n Hn Hs. destruct (Hni i n Hn) as (-> & _ & Hps & _ & _ & Hrole & _).
    split; [|by eapply peers_of_named]. apply Hrole. destruct (state n); auto; done. }
  destruct Hstep.
  - eapply inv_set_node; eauto. apply quiet_moves; [by eapply bystander_quiet|done].
  - assert (moves n n') by (eapply RequestVote_moves; eauto).
    eapply (inv_add_answer _ i n'); [by eapply inv_set_node|by simpl; rewrite lookup_insert_eq|].
    intros Hg. match goal with HR : RequestVote _ _ = _ |- _ =>
      destruct (RequestVote_granted _ _ _ _ _ HR Hg) as (_ & _ & _ & Ht & Hv & _ & Hp) end.
    split_and!; [done|done|]. rewrite (persist_persistentOf _ _ _ Hp) in *.
    eapply persist_stored; eauto. right. simpl. split; [|done].
    rewrite <-Ht. destruct (persistLocked_eq (set_votedFor (rvq_CandidateID req)
      (vote_adopted req n))) as (s & e & E). rewrite Hp in E. by simplify_eq.
  - eapply inv_set_node; eauto. eapply RequestVote_moves; eauto. done.
  - by eapply inv_election.
  - apply inv_set_thread; [done|]. simpl.
    destruct (Hti _ _ H0) as [got Hcnt]. simpl.
    destruct (counting_recv _ _ _ _ _ _ _ _ Hcnt H1) as (Hc' & ? & ?).
    exists got, p. split_and!; try done. intros Hg. left.
    exists req, resp. split_and!; try done. all: apply Hcnt.
  - apply inv_set_thread; [done|]. simpl.
    destruct (Hti _ _ H0) as [got Hcnt].
    destruct (counting_recv _ _ _ _ _ _ _ _ Hcnt H1) as (Hc' & _ & _).
    by eapply thread_inv_voteWait.
  - by apply inv_set_thread.
  - apply inv_set_thread; [done|]. pose proof (Hti _ _ H0) as Hi.
    destruct pc; try done. destruct ev as [|? []]; try done. apply thread_inv_preWait.
  - apply inv_set_thread; [done|]. by destruct clientNil.
  - by eapply inv_restart.
Qed.

Lemma cluster_init_inv c : cluster_init c → cluster_inv c.
Proof.
  intros (Hn & Ht & Ha & Hs & He & _).
  assert (Hno : ∀ v t k, ¬ granted c v t k).
  { intros v t k [(req & resp & Hin & _)|[_ Hin]]; rewrite ?Ha, ?Hs in Hin;
      by apply not_elem_of_nil in Hin. }
  split_and!.
  - intros i n Hi. destruct (Hn i n Hi) as (ps & st & Hps & Hnew & Hload).
    destruct st as [s|].
    + destruct (NewRaftNode_fields _ _ _ _ Hnew) as (p & Hl & Eid & Es & Est & _ & _ & Esm & Eps).
      rewrite (Hload s eq_refl) in Hl. injection Hl as <-. simpl in Esm, Eps.
      unfold node_inv. rewrite Es, Esm, Eps.
      split_and!; try done; [|by intros ? ? ? ?%Hno|by intros [|]].
      intros s0 ps0. rewrite Est. intros [= <-]. rewrite (Hload s eq_refl). by intros [= <-].
    + simpl in Hnew. simplify_eq. unfold node_inv. simpl. rewrite slice_elems_clonePeers.
      split_and!; try done; [by intros ? ? ? ?%Hno|by intros [|]].
  - intros i pc Hi. by rewrite (Ht i pc Hi).
  - intros t k Hin. rewrite He in Hin. by apply not_elem_of_nil in Hin.
  - intros v t k1 k2 _ _ []%Hno.
Qed.

Lemma cluster_reachable_inv c0 c : cluster_init c0 → rtc cluster_step c0 c → cluster_inv c.
Proof using All.
  intros Hi%cluster_init_inv Hr. induction Hr; [done|]. eauto using cluster_step_inv.
Qed.

Lemma elected_unique c t a b :
  cluster_inv c → (t, a) ∈ c.(elected) → (t, b) ∈ c.(elected) → a = b.
Proof.
  intros (_ & _ & He & Hu) Ha Hb.
  destruct (He t a Ha) as (Na & Qa & HQa & Ga), (He t b Hb) as (Nb & Qb & HQb & Gb).
  destruct (quorum_intersect _ _ _ HQa HQb) as (v & Hva & Hvb).
  apply (Hu v t); auto.
Qed.

End cluster.
