(* ===== verification/RaftSpec.v ===== *)
(** * RaftSpec: replicated logs, as a specification

    What the consensus layer promises, stated over whole logs. Each node has a log and
    a term, and there is the history of the protocol: the log of the leader of each
    term, the votes with the voter's log at that moment, and the acknowledgements ("in
    term [t] the node held the first [i] entries of that term's leader"). Elections
    hand the next term to one node, so a term has one leader; an entry of a leader's
    term is committed when a quorum has acknowledged it. From this follow log
    matching, leader completeness and the agreement of committed prefixes. Raft.v
    shows that the nodes of src/raft refine this specification. *)
From S2P Require Import Prelude GoStrings Types Membership Node NodeInv Election Heartbeat.
From S2P Require Import Proposal NodeStep NodeFrame Cluster.

(** ** Lists and their prefixes *)

Section prefixes.
Context {A : Type}.
Implicit Types l k : list A.

Lemma take_eq_le (i j : nat) l k : (i ≤ j)%nat → take j l = take j k → take i l = take i k.
Proof.
  intros Hij E. apply (f_equal (take i)) in E. by rewrite !take_take, Nat.min_l in E.
Qed.

Lemma take_eq_lookup (i j : nat) l k : (j < i)%nat → take i l = take i k → l !! j = k !! j.
Proof.
  intros Hj E. by rewrite <-(lookup_take_lt l i j), <-(lookup_take_lt k i j), E by done.
Qed.

Lemma take_prefix_eq (i : nat) l k : (i ≤ length l)%nat → l `prefix_of` k → take i l = take i k.
Proof. intros Hi [r ->]. by rewrite take_app_le by done. Qed.

Lemma prefix_take_eq (i : nat) l k :
  (i ≤ length l)%nat → take i l `prefix_of` k → take i l = take i k.
Proof.
  intros Hi [r ->]. rewrite take_app_le; [by rewrite take_take, Nat.min_id|].
  rewrite length_take. lia.
Qed.

Lemma take_eq_prefix (i : nat) l k : take i l = take i k → take i l `prefix_of` k.
Proof. intros ->. apply prefix_take. Qed.

Lemma take_eq_length (i : nat) l k :
  take i l = take i k → (i ≤ length k)%nat → (i ≤ length l)%nat.
Proof. intros E%(f_equal length). rewrite !length_take in E. lia. Qed.

Lemma take_snoc_eq (i : nat) l k :
  take i l = take i k → l !! i = k !! i → take (S i) l = take (S i) k.
Proof.
  intros E El. destruct (k !! i) as [y|] eqn:Ek.
  - by rewrite (take_S_r _ _ _ El), (take_S_r _ _ _ Ek), E.
  - apply lookup_ge_None_1 in El, Ek.
    rewrite !take_ge in * by lia. done.
Qed.

(** Two prefixes of the same list. *)
Lemma prefix_both l k r : l `prefix_of` r → k `prefix_of` r → (length l ≤ length k)%nat → l `prefix_of` k.
Proof.
  intros [r1 E1] [r2 E2] Hle. exists (take (length k - length l) r1).
  rewrite <-take_app_ge, <-E1, E2 by done. by rewrite take_app_length.
Qed.
End prefixes.

(** A function changed at one point. *)
Definition upd {A} (f : string → A) (i : string) (x : A) : string → A :=
  λ j, if decide (j = i) then x else f j.

Lemma upd_eq {A} (f : string → A) i x : upd f i x i = x.
Proof. unfold upd. by rewrite decide_True. Qed.

Lemma upd_ne {A} (f : string → A) i x j : j ≠ i → upd f i x j = f j.
Proof. intros. unfold upd. by rewrite decide_False. Qed.

Section spec.
Context {E : Type} `{!EqDecision E} (eterm : E → Z) (members : list string).

(** ** State *)

Record Spec := mkSpec {
  sp_log : string → list E;
  sp_term : string → Z;
  (* the leader of a term and its log *)
  sp_lead : gmap Z (string * list E);
  (* node, term, number of entries *)
  sp_acks : list (string * Z * nat);
  (* node, term, its log when it voted *)
  sp_votes : list (string * Z * list E);
}.

Implicit Types (s : Spec) (l L c : list E).

(** The term of entry number [i] (from 1), zero where there is none. *)
Definition term_of l (i : nat) : Z :=
  match i with O => 0 | S i => default 0 (eterm <$> l !! i) end.

Definition last_term l : Z := term_of l (length l).

(** The freshness test of votes, on whole logs. *)
Definition fresh c l : Prop :=
  IsLogAtLeastUpToDate (zlen c) (last_term c) (zlen l) (last_term l) = true.

(** [es] are the entries of [L] after the first [p]. *)
Definition segment L (p : nat) (es : list E) : Prop :=
  (p ≤ length L)%nat ∧ es `prefix_of` drop p L.

(** Appending [es] after the first [p] entries: entries that are there already stay,
    the first one of another term ends the old log. *)
Fixpoint merge l (p : nat) (es : list E) : list E :=
  match es with
  | [] => l
  | e :: es' =>
      match l !! p with
      | Some x => if bool_decide (eterm x = eterm e) then merge l (S p) es' else take p l ++ es
      | None => take p l ++ es
      end
  end.

(** ** Steps *)

Definition raise_term (v : string) (t : Z) s : Spec :=
  mkSpec (sp_log s) (upd (sp_term s) v t) (sp_lead s) (sp_acks s) (sp_votes s).

Definition cast_vote (v : string) (t : Z) s : Spec :=
  mkSpec (sp_log s) (sp_term s) (sp_lead s) (sp_acks s) ((v, t, sp_log s v) :: sp_votes s).

Definition take_lead (k : string) (t : Z) s : Spec :=
  mkSpec (sp_log s) (sp_term s) (<[t := (k, sp_log s k)]> (sp_lead s))
    ((k, t, length (sp_log s k)) :: sp_acks s) (sp_votes s).

Definition lead_append (k : string) (t : Z) (e : E) s : Spec :=
  mkSpec (upd (sp_log s) k (sp_log s k ++ [e])) (sp_term s)
    (<[t := (k, sp_log s k ++ [e])]> (sp_lead s))
    ((k, t, S (length (sp_log s k))) :: sp_acks s) (sp_votes s).

Definition receive_entries (v : string) (t : Z) (p : nat) (es : list E) s : Spec :=
  mkSpec (upd (sp_log s) v (merge (sp_log s v) p es)) (sp_term s) (sp_lead s)
    ((v, t, (p + length es)%nat) :: sp_acks s) (sp_votes s).

Inductive spec_step : Spec → Spec → Prop :=
| SS_term v t s :
    sp_term s v ≤ t → spec_step s (raise_term v t s)
| SS_vote v t s :
    sp_term s v = t → sp_lead s !! t = None → spec_step s (cast_vote v t s)
| SS_elect k t Q s :
    0 < t → sp_term s k = t → sp_lead s !! t = None → quorum members Q →
    (∀ v, v ∈ Q → ∃ l, (v, t, l) ∈ sp_votes s ∧ fresh (sp_log s k) l) →
    spec_step s (take_lead k t s)
| SS_append k t e s :
    sp_lead s !! t = Some (k, sp_log s k) → sp_term s k = t → eterm e = t →
    spec_step s (lead_append k t e s)
| SS_receive v t k L p es s :
    sp_term s v = t → sp_lead s !! t = Some (k, L) → segment L p es →
    (p ≤ length (sp_log s v))%nat → term_of (sp_log s v) p = term_of L p →
    spec_step s (receive_entries v t p es s).

(** No entries, no leaders, no history. *)
Definition spec_init s : Prop :=
  (∀ v, sp_log s v = []) ∧ sp_lead s = ∅ ∧ sp_acks s = [] ∧ sp_votes s = [].

(** ** The invariant *)

(** Every entry of [l] came from the leader of its term, with all before it. *)
Definition consistent s l : Prop :=
  ∀ i e, l !! i = Some e →
    ∃ k L, sp_lead s !! eterm e = Some (k, L) ∧ take (S i) l = take (S i) L.

(** [l] still holds the first [i] entries of [L], the log of the leader of term [t],
    or a leader after [t] and before [t'] did not have them. *)
Definition retained s (t : Z) (i : nat) L l (t' : Z) : Prop :=
  take i l = take i L ∨
  ∃ u k L', t < u < t' ∧ sp_lead s !! u = Some (k, L') ∧ ¬ take i L `prefix_of` L'.

Record spec_inv s : Prop := mkSpecInv {
  si_logs : ∀ v, consistent s (sp_log s v);
  si_terms : ∀ v e, e ∈ sp_log s v → eterm e ≤ sp_term s v;
  si_leads : ∀ t k L, sp_lead s !! t = Some (k, L) →
    0 < t ∧ consistent s L ∧ (∀ e, e ∈ L → eterm e ≤ t);
  si_acks : ∀ v t j, (v, t, j) ∈ sp_acks s →
    t ≤ sp_term s v ∧ ∃ k L, sp_lead s !! t = Some (k, L) ∧ (j ≤ length L)%nat ∧
      ∀ i, (i ≤ j)%nat → retained s t i L (sp_log s v) (sp_term s v + 1);
  si_votes : ∀ v t l, (v, t, l) ∈ sp_votes s →
    t ≤ sp_term s v ∧ consistent s l ∧
    ∀ t0 j k L i, (v, t0, j) ∈ sp_acks s → t0 < t → sp_lead s !! t0 = Some (k, L) →
      (i ≤ j)%nat → retained s t0 i L l t;
  si_elected : ∀ t k L, sp_lead s !! t = Some (k, L) →
    ∃ c Q, c `prefix_of` L ∧ (∀ e, e ∈ c → eterm e < t) ∧ quorum members Q ∧
      ∀ v, v ∈ Q → ∃ l, (v, t, l) ∈ sp_votes s ∧ fresh c l;
}.

(** Entry [i] (from 1) of the leader of term [t] is committed: it is of that term, and
    a quorum has acknowledged it. *)
Definition committed s (t : Z) (i : nat) : Prop :=
  ∃ k L Q, sp_lead s !! t = Some (k, L) ∧ term_of L i = t ∧ 0 < t ∧ quorum members Q ∧
    ∀ v, v ∈ Q → ∃ j, (i ≤ j)%nat ∧ (v, t, j) ∈ sp_acks s.

(** The first [c] entries of [l] were committed, by a term up to [T]. *)
Definition certified s l (T : Z) (c : nat) : Prop :=
  c = O ∨
  ∃ t i k L, committed s t i ∧ sp_lead s !! t = Some (k, L) ∧ t ≤ T ∧ (c ≤ i)%nat ∧
    take c l = take c L.

(** ** Matching logs *)

Lemma consistent_match s l k i x y :
  consistent s l → consistent s k → l !! i = Some x → k !! i = Some y → eterm x = eterm y →
  take (S i) l = take (S i) k.
Proof.
  intros Hl Hk Hx Hy Et. destruct (Hl i x Hx) as (a & L & HL & ->).
  destruct (Hk i y Hy) as (b & L' & HL' & ->). rewrite Et in HL. by simplify_eq.
Qed.

Lemma consistent_sorted s l i j x y :
  spec_inv s → consistent s l → (i ≤ j)%nat → l !! i = Some x → l !! j = Some y →
  eterm x ≤ eterm y.
Proof.
  intros Hinv Hl Hij Hx Hy. destruct (Hl j y Hy) as (k & L & HL & E').
  destruct (si_leads s Hinv _ _ _ HL) as (_ & _ & Hle). apply Hle.
  apply (list_elem_of_lookup_2 L i). rewrite <-(take_eq_lookup (S j) i l L); [done|lia|done].
Qed.

Lemma consistent_prefix s l k : l `prefix_of` k → consistent s k → consistent s l.
Proof.
  intros Hp Hk i e Hi. pose proof (lookup_lt_Some _ _ _ Hi).
  destruct (Hk i e) as (b & L & HL & Et); [by eapply prefix_lookup_Some|].
  exists b, L. split; [done|]. by rewrite (take_prefix_eq (S i) l k) by (done || lia).
Qed.

Lemma segment_cons L p e es :
  segment L p (e :: es) → L !! p = Some e ∧ segment L (S p) es.
Proof.
  intros [Hp [r Hr]].
  assert (L !! p = Some e) as He.
  { replace p with (p + 0)%nat by lia. by rewrite <-lookup_drop, Hr. }
  split; [done|]. pose proof (lookup_lt_Some _ _ _ He). split; [lia|].
  exists r. apply (f_equal (drop 1)) in Hr. rewrite drop_drop in Hr.
  replace (S p) with (p + 1)%nat by lia. exact Hr.
Qed.

Lemma segment_take L p es : segment L p es → take p L ++ es = take (p + length es) L.
Proof.
  intros [Hp [r Hr]]. rewrite <-(take_drop p L) at 2. rewrite Hr.
  rewrite take_app_ge by (rewrite length_take; lia). rewrite length_take, Nat.min_l by lia.
  f_equal. replace (p + length es - p)%nat with (length es) by lia. by rewrite take_app_length.
Qed.

Lemma segment_length L p es : segment L p es → (p + length es ≤ length L)%nat.
Proof.
  intros [Hp Hl%prefix_length]. rewrite length_drop in Hl. lia.
Qed.

(** Merging a segment of [L] into a log that agrees with [L] before it: the log had it
    all, or it becomes that much of [L]. *)
Lemma merge_spec s l L p es :
  consistent s l → consistent s L → (p ≤ length l)%nat → segment L p es →
  take p l = take p L →
  (merge l p es = l ∧ take (p + length es) l = take (p + length es) L) ∨
  (merge l p es = take (p + length es) L ∧
   ∃ q, (q < p + length es)%nat ∧ l !! q ≠ L !! q).
Proof.
  intros Hl HL. revert p. induction es as [|e es IH]; intros p Hp Hseg Heq.
  { left. cbn. by rewrite Nat.add_0_r. }
  destruct (segment_cons L p e es Hseg) as [He Hseg'].
  assert (Hcut : l !! p ≠ L !! p → merge l p (e :: es) = take p l ++ e :: es →
    (merge l p (e :: es) = l ∧ take (p + length (e :: es)) l = take (p + length (e :: es)) L) ∨
    (merge l p (e :: es) = take (p + length (e :: es)) L ∧
     ∃ q, (q < p + length (e :: es))%nat ∧ l !! q ≠ L !! q)).
  { intros Hne ->. right. split; [by rewrite Heq, segment_take|].
    exists p. split; [cbn; lia|done]. }
  cbn [merge] in *. destruct (l !! p) as [x|] eqn:Hx.
  - case_bool_decide as Ht; [|apply Hcut; [|done]; rewrite He; congruence].
    replace (p + length (e :: es))%nat with (S p + length es)%nat by (cbn; lia).
    apply IH; [by apply lookup_lt_Some in Hx|done|].
    by eapply consistent_match.
  - apply Hcut; [|done]. by rewrite He.
Qed.

(** What agreed with [L] before still does. *)
Lemma merge_keeps s l L p es i :
  consistent s l → consistent s L → (p ≤ length l)%nat → segment L p es →
  take p l = take p L → take i l = take i L → (i ≤ length L)%nat →
  take i (merge l p es) = take i L.
Proof.
  intros Hl HL Hp Hseg Heq Hi Hle.
  destruct (merge_spec s l L p es Hl HL Hp Hseg Heq) as [[-> _]|[-> (q & Hq & Hne)]]; [done|].
  assert (i ≤ q)%nat. { destruct (decide (i ≤ q)%nat); [done|]. exfalso. apply Hne.
    apply (take_eq_lookup i); [lia|done]. }
  rewrite take_take, Nat.min_l by lia. done.
Qed.

Lemma merge_agrees s l L p es :
  consistent s l → consistent s L → (p ≤ length l)%nat → segment L p es →
  take p l = take p L → take (p + length es) (merge l p es) = take (p + length es) L.
Proof.
  intros Hl HL Hp Hseg Heq.
  destruct (merge_spec s l L p es Hl HL Hp Hseg Heq) as [[-> ?]|[-> _]]; [done|].
  by rewrite take_take, Nat.min_id.
Qed.

Lemma merge_consistent s l L p es :
  consistent s l → consistent s L → (p ≤ length l)%nat → segment L p es →
  take p l = take p L → consistent s (merge l p es).
Proof.
  intros Hl HL Hp Hseg Heq.
  destruct (merge_spec s l L p es Hl HL Hp Hseg Heq) as [[-> _]|[-> _]]; [done|].
  eapply consistent_prefix; [apply prefix_take|done].
Qed.

Lemma merge_elem l p es e : e ∈ merge l p es → e ∈ l ∨ e ∈ es.
Proof.
  revert p. induction es as [|x es IH]; intros p; [by left|]. cbn [merge].
  assert (e ∈ take p l ++ x :: es → e ∈ l ∨ e ∈ x :: es).
  { intros [?|?]%elem_of_app; [left|by right]. eapply elem_of_prefix; [done|apply prefix_take]. }
  destruct (l !! p); [|done]. case_bool_decide; [|done]. intros [?|?]%IH; [by left|right; by right].
Qed.

(** Agreement at one position, by its term, is agreement up to it. *)
Lemma term_of_match s l L p :
  consistent s l → consistent s L → (p ≤ length l)%nat → (p ≤ length L)%nat →
  term_of l p = term_of L p → take p l = take p L.
Proof.
  intros Hl HL Hp HpL Ht. destruct p as [|p]; [done|]. cbn in Ht.
  destruct (lookup_lt_is_Some_2 l p) as [x Hx]; [lia|].
  destruct (lookup_lt_is_Some_2 L p) as [y Hy]; [lia|].
  rewrite Hx, Hy in Ht. by eapply consistent_match.
Qed.

(** ** Growing histories *)

(** Leaders only append entries of their own term. *)
Definition grows s s' : Prop :=
  ∀ t k L, sp_lead s !! t = Some (k, L) →
    ∃ r, sp_lead s' !! t = Some (k, L ++ r) ∧ ∀ e, e ∈ r → eterm e = t.

Lemma grows_same s s' : sp_lead s' = sp_lead s → grows s s'.
Proof.
  intros El t k L HL. exists []. rewrite El, app_nil_r. split; [done|]. by intros e ?%not_elem_of_nil.
Qed.

Lemma consistent_grows s s' l : grows s s' → consistent s l → consistent s' l.
Proof.
  intros Hg Hl i e Hi. destruct (Hl i e Hi) as (k & L & HL & Et).
  destruct (Hg _ _ _ HL) as (r & HL' & _). exists k, (L ++ r). split; [done|].
  rewrite Et. apply take_prefix_eq; [|by exists r].
  apply lookup_lt_Some in Hi. apply (take_eq_length (S i) L l); [done|lia].
Qed.

(** Entries of an older term cannot be appended to what lacks them. *)
Lemma prefix_grows s t u k L L' r i :
  spec_inv s → sp_lead s !! t = Some (k, L) → t < u → (∀ e, e ∈ r → eterm e = u) →
  (i ≤ length L)%nat → take i L `prefix_of` L' ++ r → take i L `prefix_of` L'.
Proof.
  intros Hinv HL Hlt Hr Hi Hp. destruct (decide (i ≤ length L')%nat) as [Hle|Hgt].
  - eapply prefix_both; [exact Hp|by exists r|]. rewrite length_take. lia.
  - exfalso. destruct (lookup_lt_is_Some_2 L (length L')) as [x Hx]; [lia|].
    assert (r !! 0%nat = Some x) as Hx'.
    { replace 0%nat with (length L' - length L')%nat by lia.
      rewrite <-lookup_app_r by done. eapply prefix_lookup_Some; [|exact Hp].
      rewrite lookup_take_lt; [done|lia]. }
    apply list_elem_of_lookup_2 in Hx as Hin, Hx' as Hin'.
    destruct (si_leads s Hinv _ _ _ HL) as (_ & _ & Hle). apply Hle in Hin. apply Hr in Hin'. lia.
Qed.

Lemma retained_grows s s' t k L r i l t' :
  spec_inv s → grows s s' → sp_lead s !! t = Some (k, L) → (i ≤ length L)%nat →
  retained s t i L l t' → retained s' t i (L ++ r) l t'.
Proof.
  intros Hinv Hg HL Hi [E1|(u & b & L' & Hu & HL' & Hn)].
  - left. rewrite E1. apply take_prefix_eq; [done|by exists r].
  - right. destruct (Hg _ _ _ HL') as (r' & HL'' & Hr'). exists u, b, (L' ++ r').
    split_and!; [lia|lia|done|]. rewrite take_app_le by done. intros Hp. apply Hn.
    eapply prefix_grows; eauto. lia.
Qed.

Lemma retained_later s t i L l t1 t2 : t1 ≤ t2 → retained s t i L l t1 → retained s t i L l t2.
Proof. intros Hle [?|(u & k & L' & Hu & ?)]; [by left|right]. exists u, k, L'. split; [lia|done]. Qed.

(** A log that only gets longer retains what it had. *)
Lemma retained_app s t i L l r t' :
  (i ≤ length L)%nat → retained s t i L l t' → retained s t i L (l ++ r) t'.
Proof.
  intros Hi [E1|?]; [left|by right]. rewrite <-E1. apply take_eq_length in E1 as Hl; [|done].
  by rewrite take_app_le.
Qed.

(** The acknowledgements and votes of the history survive a growing history, where the
    logs retain what they had and new acknowledgements are of current terms. *)
Lemma acks_grow s s' v t j :
  spec_inv s → grows s s' → (v, t, j) ∈ sp_acks s → sp_term s v ≤ sp_term s' v →
  (∀ i k L, sp_lead s !! t = Some (k, L) → (i ≤ length L)%nat →
     retained s t i L (sp_log s v) (sp_term s v + 1) →
     retained s t i L (sp_log s' v) (sp_term s v + 1)) →
  t ≤ sp_term s' v ∧ ∃ k L, sp_lead s' !! t = Some (k, L) ∧ (j ≤ length L)%nat ∧
    ∀ i, (i ≤ j)%nat → retained s' t i L (sp_log s' v) (sp_term s' v + 1).
Proof.
  intros Hinv Hg Hin Ht Hlog. destruct (si_acks s Hinv _ _ _ Hin) as (? & k & L & HL & Hj & Hr).
  split; [lia|]. destruct (Hg _ _ _ HL) as (r & HL' & _). exists k, (L ++ r).
  split_and!; [done|rewrite length_app; lia|]. intros i Hi.
  apply (retained_later _ _ _ _ _ (sp_term s v + 1)); [lia|].
  eapply retained_grows; eauto; [lia|]. eapply Hlog; eauto. lia.
Qed.

Lemma votes_grow s s' v t l :
  spec_inv s → grows s s' → (v, t, l) ∈ sp_votes s → sp_term s v ≤ sp_term s' v →
  (∀ w t0 j, (w, t0, j) ∈ sp_acks s' → (w, t0, j) ∈ sp_acks s ∨ sp_term s w ≤ t0) →
  t ≤ sp_term s' v ∧ consistent s' l ∧
  ∀ t0 j k L i, (v, t0, j) ∈ sp_acks s' → t0 < t → sp_lead s' !! t0 = Some (k, L) →
    (i ≤ j)%nat → retained s' t0 i L l t.
Proof.
  intros Hinv Hg Hin Ht Hacks. destruct (si_votes s Hinv _ _ _ Hin) as (? & Hc & Hr).
  split_and!; [lia|by eapply consistent_grows|]. intros t0 j k L i Ha Hlt HL Hi.
  destruct (Hacks _ _ _ Ha) as [Ha'|?]; [|lia].
  destruct (si_acks s Hinv _ _ _ Ha') as (_ & k0 & L0 & HL0 & Hj & _).
  destruct (Hg _ _ _ HL0) as (r & HL' & _). rewrite HL in HL'. simplify_eq.
  eapply retained_grows; eauto. lia.
Qed.

(** ** Every step keeps the invariant *)

Lemma raise_term_inv s v t : spec_inv s → sp_term s v ≤ t → spec_inv (raise_term v t s).
Proof.
  intros Hinv Hle. set (s' := raise_term v t s).
  assert (Hg : grows s s') by by apply grows_same.
  assert (Ht : ∀ w, sp_term s w ≤ sp_term s' w).
  { intros w. cbn. unfold upd. case_decide; [by subst|lia]. }
  constructor.
  - intros w. eapply consistent_grows; [done|apply (si_logs s Hinv)].
  - intros w e He%(si_terms s Hinv). specialize (Ht w). cbn in *. lia.
  - intros u k L HL. destruct (si_leads s Hinv _ _ _ HL) as (? & ? & ?).
    split_and!; [done| |done]. by eapply consistent_grows.
  - intros w u j Hin. by apply (acks_grow s).
  - intros w u l Hin. apply (votes_grow s); auto.
  - intros u k L HL. exact (si_elected s Hinv u k L HL).
Qed.

Lemma cast_vote_inv s v t :
  spec_inv s → sp_term s v = t → sp_lead s !! t = None → spec_inv (cast_vote v t s).
Proof.
  intros Hinv Ht Hnone. set (s' := cast_vote v t s).
  assert (Hg : grows s s') by by apply grows_same.
  constructor.
  - intros w. eapply consistent_grows; [done|apply (si_logs s Hinv)].
  - apply (si_terms s Hinv).
  - intros u k L HL. destruct (si_leads s Hinv _ _ _ HL) as (? & ? & ?).
    split_and!; [done| |done]. by eapply consistent_grows.
  - intros w u j Hin. by apply (acks_grow s).
  - intros w u l [[= -> -> ->]|Hin]%elem_of_cons; [|by apply (votes_grow s); auto].
    split_and!; [cbn; lia|eapply consistent_grows; [done|apply (si_logs s Hinv)]|].
    intros t0 j k L i Ha Hlt HL Hi.
    destruct (si_acks s Hinv _ _ _ Ha) as (_ & k0 & L0 & HL0 & _ & Hr).
    cbn in HL. simplify_eq. destruct (Hr i Hi) as [?|(u & b & L' & Hu & HL' & ?)]; [by left|right].
    exists u, b, L'. split_and!; [lia| |done|done].
    assert (u ≠ sp_term s v) by congruence. lia.
  - intros u k L HL. destruct (si_elected s Hinv _ _ _ HL) as (c & Q & ? & ? & ? & Hv).
    exists c, Q. split_and!; try done. intros w Hw. destruct (Hv w Hw) as (l & ? & ?).
    exists l. split; [by right|done].
Qed.

Lemma take_lead_inv s k t Q :
  spec_inv s → 0 < t → sp_term s k = t → sp_lead s !! t = None → quorum members Q →
  (∀ v, v ∈ Q → ∃ l, (v, t, l) ∈ sp_votes s ∧ fresh (sp_log s k) l) →
  spec_inv (take_lead k t s).
Proof.
  intros Hinv Hpos Ht Hnone HQ Hv. set (s' := take_lead k t s).
  assert (Hg : grows s s').
  { intros u b L HL. exists []. rewrite app_nil_r. split; [|by intros e ?%not_elem_of_nil].
    cbn. rewrite lookup_insert_ne; [done|congruence]. }
  assert (Hlead : ∀ u b L, sp_lead s' !! u = Some (b, L) →
    (u = t ∧ b = k ∧ L = sp_log s k) ∨ sp_lead s !! u = Some (b, L)).
  { intros u b L. cbn. intros [[-> [= <- <-]]|[_ ?]]%lookup_insert_Some; auto. }
  constructor.
  - intros w. eapply consistent_grows; [done|apply (si_logs s Hinv)].
  - apply (si_terms s Hinv).
  - intros u b L [(-> & -> & ->)|HL]%Hlead.
    + split_and!; [done|eapply consistent_grows; [done|apply (si_logs s Hinv)]|].
      rewrite <-Ht. apply (si_terms s Hinv).
    + destruct (si_leads s Hinv _ _ _ HL) as (? & ? & ?).
      split_and!; [done| |done]. by eapply consistent_grows.
  - intros w u j [[= -> -> ->]|Hin]%elem_of_cons; [|by apply (acks_grow s)].
    split; [cbn; lia|]. exists k, (sp_log s k). cbn. rewrite lookup_insert_eq.
    split_and!; [done|done|]. by left.
  - intros w u l Hin. apply (votes_grow s); [done|done|done|done|].
    intros b t0 j [[= -> -> ->]|?]%elem_of_cons; [right; lia|by left].
  - intros u b L [(-> & -> & ->)|HL]%Hlead; [|exact (si_elected s Hinv u b L HL)].
    exists (sp_log s k), Q. split_and!; try done. intros e He.
    pose proof (si_terms s Hinv _ _ He). apply list_elem_of_lookup in He as (i & Hi).
    destruct (si_logs s Hinv k i e Hi) as (b & L & HL & _).
    assert (eterm e ≠ t) by congruence. lia.
Qed.

Lemma lead_append_inv s k t e :
  spec_inv s → sp_lead s !! t = Some (k, sp_log s k) → sp_term s k = t → eterm e = t →
  spec_inv (lead_append k t e s).
Proof.
  intros Hinv HL Ht He. set (s' := lead_append k t e s).
  assert (Hg : grows s s').
  { intros u b L Hu. cbn. destruct (decide (u = t)) as [->|].
    - exists [e]. rewrite lookup_insert_eq. simplify_eq. split; [done|].
      by intros x ->%list_elem_of_singleton.
    - exists []. rewrite lookup_insert_ne, app_nil_r by done. split; [done|].
      by intros x ?%not_elem_of_nil. }
  assert (Hnew : consistent s' (sp_log s k ++ [e])).
  { intros i x Hi. apply lookup_app_Some in Hi as [Hi|[Hge Hi]].
    - destruct (consistent_grows s s' _ Hg (si_logs s Hinv k) i x Hi) as (b & L & HL' & E').
      exists b, L. split; [done|]. apply lookup_lt_Some in Hi. by rewrite take_app_le by lia.
    - apply list_lookup_singleton_Some in Hi as [Hz <-].
      exists k, (sp_log s k ++ [e]). cbn. rewrite He, lookup_insert_eq. done. }
  constructor.
  - intros w. cbn. unfold upd. case_decide; [done|].
    eapply consistent_grows; [done|apply (si_logs s Hinv)].
  - intros w x. cbn. unfold upd. case_decide; subst; [|apply (si_terms s Hinv)].
    intros [?|?%list_elem_of_singleton]%elem_of_app; [by apply (si_terms s Hinv)|subst; lia].
  - intros u b L. cbn. intros [[-> [= <- <-]]|[Hne Hu]]%lookup_insert_Some.
    + destruct (si_leads s Hinv _ _ _ HL) as (? & _ & Hle). split_and!; [done|done|].
      intros x [?|?%list_elem_of_singleton]%elem_of_app; [by apply Hle|subst; lia].
    + destruct (si_leads s Hinv _ _ _ Hu) as (? & ? & ?).
      split_and!; [done| |done]. by eapply consistent_grows.
  - intros w u j [[= -> -> ->]|Hin]%elem_of_cons.
    + split; [cbn; lia|]. exists k, (sp_log s k ++ [e]). cbn. rewrite lookup_insert_eq, upd_eq.
      split_and!; [done|rewrite length_app; cbn; lia|]. by left.
    + apply (acks_grow s); [done|done|done|done|]. intros i b L _ Hi Hr. cbn. unfold upd.
      case_decide; [subst w|done]. by apply retained_app.
  - intros w u l Hin. apply (votes_grow s); [done|done|done|done|].
    intros b t0 j [[= -> -> ->]|?]%elem_of_cons; [right; lia|by left].
  - intros u b L. cbn. intros [[-> [= <- <-]]|[Hne Hu]]%lookup_insert_Some.
    + destruct (si_elected s Hinv _ _ _ HL) as (c & Q & Hp & ? & ? & ?).
      exists c, Q. split_and!; try done. by apply prefix_app_r.
    + by apply (si_elected s Hinv _ _ _ Hu).
Qed.

Lemma receive_entries_inv s v t k L p es :
  spec_inv s → sp_term s v = t → sp_lead s !! t = Some (k, L) → segment L p es →
  (p ≤ length (sp_log s v))%nat → term_of (sp_log s v) p = term_of L p →
  spec_inv (receive_entries v t p es s).
Proof.
  intros Hinv Ht HL Hseg Hp Hpt. set (s' := receive_entries v t p es s).
  assert (Hg : grows s s') by by apply grows_same.
  pose proof (si_logs s Hinv v) as Hcl. destruct (si_leads s Hinv _ _ _ HL) as (_ & HcL & HleL).
  assert (take p (sp_log s v) = take p L) as Heq.
  { eapply term_of_match; eauto. apply Hseg. }
  constructor.
  - intros w. apply (consistent_grows s s'); [done|]. cbn. unfold upd. case_decide.
    + by eapply merge_consistent.
    + apply (si_logs s Hinv).
  - intros w x. cbn. unfold upd. case_decide; [subst w|apply (si_terms s Hinv)].
    intros [?|Hin]%merge_elem; [by apply (si_terms s Hinv)|]. rewrite Ht. apply HleL.
    rewrite <-(take_drop p L), elem_of_app. right. eapply elem_of_prefix; [exact Hin|apply Hseg].
  - intros u b L' HL'. destruct (si_leads s Hinv _ _ _ HL') as (? & ? & ?).
    split_and!; [done| |done]. by eapply consistent_grows.
  - intros w u j [[= -> -> ->]|Hin]%elem_of_cons.
    + split; [cbn; lia|]. exists k, L. split_and!; [done|by apply segment_length|].
      intros i Hi. left. cbn. rewrite upd_eq. eapply take_eq_le; [exact Hi|].
      by eapply merge_agrees.
    + apply (acks_grow s); [done|done|done|done|]. intros i b L' HL' Hi Hr. cbn. unfold upd.
      case_decide; [subst w|done]. destruct Hr as [E'|?]; [|by right].
      destruct (si_acks s Hinv _ _ _ Hin) as (Hut & _).
      destruct (decide (take i L' `prefix_of` L)) as [Hpre|Hno].
      * left. apply prefix_take_eq in Hpre as E''; [|done]. rewrite E'' in E'. rewrite E''.
        eapply merge_keeps; eauto. apply prefix_length in Hpre. rewrite length_take in Hpre. lia.
      * right. exists t, k, L. split_and!; [|lia|done|done].
        destruct (decide (u = t)) as [->|]; [|lia]. exfalso. simplify_eq.
        apply Hno, prefix_take.
  - intros w u l Hin. apply (votes_grow s); [done|done|done|done|].
    intros b t0 j [[= -> -> ->]|?]%elem_of_cons; [right; lia|by left].
  - intros u b L' HL'. by apply (si_elected s Hinv _ _ _ HL').
Qed.

Lemma spec_step_inv s s' : spec_inv s → spec_step s s' → spec_inv s'.
Proof.
  intros Hinv Hs. destruct Hs.
  - by apply raise_term_inv.
  - by apply cast_vote_inv.
  - by eapply take_lead_inv.
  - by apply lead_append_inv.
  - by eapply receive_entries_inv.
Qed.

Lemma spec_init_inv s : spec_init s → spec_inv s.
Proof.
  intros (Hl & HL & Ha & Hv). constructor; rewrite ?HL, ?Ha, ?Hv.
  - intros v i e. by rewrite Hl.
  - intros v e. rewrite Hl. by intros ?%not_elem_of_nil.
  - intros t k L. by rewrite lookup_empty.
  - intros v t j ?%not_elem_of_nil. done.
  - intros v t l ?%not_elem_of_nil. done.
  - intros t k L. by rewrite lookup_empty.
Qed.

Lemma spec_steps_inv s s' : spec_inv s → rtc spec_step s s' → spec_inv s'.
Proof. induction 2; eauto using spec_step_inv. Qed.
End spec.
