(* ===== verification/RaftCommit.v ===== *)
(** * RaftCommit: what the specification of the logs guarantees

    Consequences of the invariant of RaftSpec.v: a committed entry is in the log of
    every later leader, with all before it, and any two logs agree on the prefixes that
    were certified as committed. *)
From S2P Require Import Prelude GoStrings Types Membership Node NodeInv Election Heartbeat.
From S2P Require Import Proposal NodeStep NodeFrame Cluster RaftSpec.

Section commit.
Context {E : Type} `{!EqDecision E} (eterm : E → Z) (members : list string).
Abbreviation Spec := (Spec (E := E)).
Abbreviation spec_inv := (spec_inv eterm members).
Abbreviation committed := (committed eterm members).
Abbreviation certified := (certified eterm members).
Abbreviation consistent := (consistent eterm).
Implicit Types (s : Spec) (l L c : list E).

Lemma term_of_pos l i : 0 < term_of eterm l i →
  ∃ j e, i = S j ∧ l !! j = Some e ∧ eterm e = term_of eterm l i.
Proof.
  destruct i as [|j]; cbn; [lia|]. destruct (l !! j) as [e|] eqn:He; cbn; [|lia].
  intros _. by exists j, e.
Qed.

Lemma committed_entry s t i :
  committed s t i → ∃ k L j e, sp_lead s !! t = Some (k, L) ∧ i = S j ∧ L !! j = Some e ∧ eterm e = t.
Proof.
  intros (k & L & Q & HL & Ht & Hpos & _). destruct (term_of_pos L i) as (j & e & -> & He & Et); [lia|].
  exists k, L, j, e. split_and!; try done. congruence.
Qed.

Lemma committed_length s t i k L :
  committed s t i → sp_lead s !! t = Some (k, L) → (i ≤ length L)%nat.
Proof.
  intros (k' & L' & j & e & HL & -> & He & _)%committed_entry HL'. simplify_eq.
  by apply lookup_lt_Some in He.
Qed.

Lemma fresh_cases c l :
  fresh eterm c l →
  last_term eterm l < last_term eterm c ∨
  (last_term eterm c = last_term eterm l ∧ (length l ≤ length c)%nat).
Proof.
  unfold fresh, IsLogAtLeastUpToDate, zlen. intros Hf.
  destruct (Z.eqb_spec (last_term eterm c) (last_term eterm l)) as [He|]; breflect;
    simpl in Hf; breflect; [right; split; [done|lia]|left; lia].
Qed.

Lemma last_term_entry l x : last l = Some x → last_term eterm l = eterm x.
Proof.
  rewrite last_lookup. unfold last_term. destruct (length l) eqn:El; cbn.
  - destruct l; [|done]. done.
  - by intros ->.
Qed.

(** The last entry of a consistent log determines the whole log. *)
Lemma consistent_last s l x :
  consistent s l → last l = Some x → ∃ k L, sp_lead s !! eterm x = Some (k, L) ∧ l `prefix_of` L.
Proof.
  intros Hc Hx. rewrite last_lookup in Hx. pose proof (lookup_lt_Some _ _ _ Hx) as Hlt.
  destruct (Hc _ _ Hx) as (k & L & HL & Et). exists k, L. split; [done|].
  replace (S (pred (length l))) with (length l) in Et by lia.
  rewrite (take_ge l) in Et by done. rewrite Et. apply prefix_take.
Qed.

(** A candidate whose log is fresh for a voter that retains the committed entry has
    the entry too. *)
Lemma fresh_has s t i k L l c t' :
  spec_inv s → sp_lead s !! t = Some (k, L) → (0 < i ≤ length L)%nat →
  (∃ e, L !! pred i = Some e ∧ eterm e = t) →
  consistent s l → consistent s c → take i l = take i L → fresh eterm c l →
  (∀ e, e ∈ c → eterm e < t') →
  (∀ u k' L', t < u < t' → sp_lead s !! u = Some (k', L') → take i L `prefix_of` L') →
  take i L `prefix_of` c.
Proof.
  intros Hinv HL Hi (e & He & Et) Hl Hc Heq Hf Hlt IH.
  assert (l !! pred i = Some e) as Hle.
  { rewrite (take_eq_lookup i (pred i) l L); [done|lia|done]. }
  pose proof (lookup_lt_Some _ _ _ Hle) as Hlen.
  destruct (last l) as [x|] eqn:Hx; [|by apply last_None in Hx; subst l].
  assert (t ≤ eterm x) as Htx.
  { rewrite last_lookup in Hx. rewrite <-Et.
    apply (consistent_sorted eterm members s l (pred i) (pred (length l))); [done|done|lia|done|done]. }
  destruct (si_leads _ _ _ Hinv _ _ _ HL) as (Hpos & _ & HleL).
  destruct (last c) as [y|] eqn:Hy.
  2: { apply last_None in Hy. subst c. apply fresh_cases in Hf.
       rewrite (last_term_entry l x Hx) in Hf. unfold last_term in Hf. cbn in Hf. lia. }
  destruct (consistent_last s l x Hl Hx) as (kx & Lx & HLx & El).
  destruct (consistent_last s c y Hc Hy) as (ky & Ly & HLy & Ec).
  assert (eterm y < t'). { apply Hlt. rewrite last_lookup in Hy. by eapply list_elem_of_lookup_2. }
  apply fresh_cases in Hf. rewrite (last_term_entry l x Hx), (last_term_entry c y Hy) in Hf.
  destruct Hf as [Hgt|[Hsame Hlen']].
  - specialize (IH (eterm y) ky Ly ltac:(lia) HLy).
    assert (i ≤ length c)%nat as Hic.
    { destruct (decide (i ≤ length c)%nat); [done|]. exfalso.
      rewrite last_lookup in Hy. pose proof (lookup_lt_Some _ _ _ Hy).
      assert (L !! pred (length c) = Some y) as Hy'.
      { apply (prefix_lookup_Some _ _ _ _ Hy) in Ec.
        rewrite (take_eq_lookup i (pred (length c)) L Ly); [done|lia|].
        apply prefix_take_eq; [lia|done]. }
      apply list_elem_of_lookup_2, HleL in Hy'. lia. }
    eapply prefix_both; [done|done|]. rewrite length_take. lia.
  - rewrite Hsame in HLy. simplify_eq. rewrite <-Heq. transitivity l; [apply prefix_take|].
    by eapply prefix_both.
Qed.

(** ** Leader completeness *)

Lemma leader_complete s t i k L t' k' L' :
  spec_inv s → committed s t i → sp_lead s !! t = Some (k, L) →
  t < t' → sp_lead s !! t' = Some (k', L') → take i L `prefix_of` L'.
Proof.
  intros Hinv Hcom HL. remember (Z.to_nat (t' - t)) as n eqn:Hn. revert t' k' L' Hn.
  induction n as [n IH] using lt_wf_ind. intros t' k' L' -> Hlt HL'.
  pose proof (committed_length s t i k L Hcom HL) as Hlen.
  destruct (committed_entry s t i Hcom) as (k0 & L0 & j & e & HL0 & -> & He & Et).
  destruct Hcom as (k1 & L1 & Q & HL1 & _ & _ & HQ & Hacks).
  rewrite HL in HL0, HL1. injection HL0 as <- <-. injection HL1 as <- <-.
  destruct (si_elected _ _ _ Hinv _ _ _ HL') as (c & Q' & Hc & Hclt & HQ' & Hvotes).
  destruct (quorum_intersect _ _ _ HQ HQ') as (v & Hv & Hv').
  destruct (Hacks v Hv) as (j' & Hj' & Hack). destruct (Hvotes v Hv') as (l & Hvote & Hfresh).
  destruct (si_votes _ _ _ Hinv _ _ _ Hvote) as (_ & Hl & Hret).
  assert (∀ u k2 L2, t < u < t' → sp_lead s !! u = Some (k2, L2) →
    take (S j) L `prefix_of` L2) as Hbetween.
  { intros u k2 L2 Hu HL2. eapply (IH (Z.to_nat (u - t))); eauto; lia. }
  transitivity c; [|done].
  eapply (fresh_has s t (S j) k L l c t'); eauto; [lia| |].
  - eapply consistent_prefix; [exact Hc|]. by eapply si_leads.
  - destruct (Hret _ _ _ _ (S j) Hack Hlt HL Hj') as [?|(u & k2 & L2 & Hu & HL2 & Hn)]; [done|].
    exfalso. apply Hn. by eapply Hbetween.
Qed.

(** ** Certified prefixes *)

Lemma certified_le s l T T' (c c' : nat) : (c' ≤ c)%nat → T ≤ T' → certified s l T c → certified s l T' c'.
Proof.
  intros Hle HT [->|(t & i & k & L & ? & ? & ? & ? & Heq)]; [left; lia|].
  right. exists t, i, k, L. split_and!; try done; [lia|lia|]. by eapply take_eq_le.
Qed.

Lemma certified_log s l l' T (c : nat) : take c l = take c l' → certified s l T c → certified s l' T c.
Proof.
  intros El [->|(t & i & k & L & ? & ? & ? & ? & Heq)]; [by left|].
  right. exists t, i, k, L. split_and!; try done. by rewrite <-El.
Qed.

(** A certified prefix is in the log of every leader of its term or later. *)
Lemma certified_lead s l T (c : nat) T' k L :
  spec_inv s → certified s l T c → T ≤ T' → sp_lead s !! T' = Some (k, L) →
  take c l = take c L ∧ (c ≤ length L)%nat.
Proof.
  intros Hinv [->|(t & i & k0 & L0 & Hcom & HL0 & HtT & Hci & Heq)] HT HL; [by split; [|lia]|].
  pose proof (committed_length s t i k0 L0 Hcom HL0) as Hlen.
  destruct (decide (t = T')) as [->|].
  { simplify_eq. split; [done|lia]. }
  assert (take i L0 `prefix_of` L) as Hp by (eapply leader_complete; eauto; lia).
  apply prefix_take_eq in Hp as Ei; [|done]. split.
  - rewrite Heq. by eapply take_eq_le.
  - apply prefix_length in Hp. rewrite length_take in Hp. lia.
Qed.

(** Any two certified prefixes agree. *)
Lemma certified_agree s l1 l2 T1 T2 (c1 c2 x : nat) :
  spec_inv s → certified s l1 T1 c1 → certified s l2 T2 c2 → (x ≤ c1)%nat → (x ≤ c2)%nat →
  take x l1 = take x l2.
Proof.
  intros Hinv [->|(t1 & i1 & k1 & L1 & C1 & HL1 & _ & Hi1 & E1)] H2 Hx1 Hx2.
  { by replace x with O by lia. }
  destruct H2 as [->|(t2 & i2 & k2 & L2 & C2 & HL2 & _ & Hi2 & E2)].
  { by replace x with O by lia. }
  assert (certified s L1 t1 x) as K1.
  { right. exists t1, i1, k1, L1. split_and!; try done; lia. }
  assert (certified s L2 t2 x) as K2.
  { right. exists t2, i2, k2, L2. split_and!; try done; lia. }
  rewrite (take_eq_le x c1 l1 L1), (take_eq_le x c2 l2 L2) by done.
  destruct (decide (t1 ≤ t2)).
  - by destruct (certified_lead s L1 t1 x t2 k2 L2 Hinv K1).
  - symmetry. destruct (certified_lead s L2 t2 x t1 k1 L1 Hinv K2) as [? _]; [lia|done|done].
Qed.

(** ** Certificates are for good *)

Definition history_le s s' : Prop :=
  grows eterm s s' ∧ (∀ a, a ∈ sp_acks s → a ∈ sp_acks s') ∧ (∀ x, x ∈ sp_votes s → x ∈ sp_votes s').

Lemma grows_trans s1 s2 s3 : grows eterm s1 s2 → grows eterm s2 s3 → grows eterm s1 s3.
Proof.
  intros H12 H23 t k L HL. destruct (H12 _ _ _ HL) as (r & HL' & Hr).
  destruct (H23 _ _ _ HL') as (r' & HL'' & Hr'). exists (r ++ r'). rewrite (assoc_L (++)).
  split; [done|]. intros e [?|?]%elem_of_app; auto.
Qed.

#[export] Instance history_le_preorder : PreOrder history_le.
Proof.
  split.
  - intros s. split_and!; try done. by apply grows_same.
  - intros a b c (? & ? & ?) (? & ? & ?). split_and!; eauto using grows_trans.
Qed.

Lemma spec_step_history s s' : spec_step eterm members s s' → history_le s s'.
Proof.
  intros Hs. destruct Hs as [v t s|v t s|k t Q s ? ? Hnone|k t e s HL ? He|];
    split_and!; try done; try (by intros ? ?; right); try (by apply grows_same).
  - intros u b L HL. exists []. rewrite app_nil_r. split; [|by intros e ?%not_elem_of_nil].
    cbn. rewrite lookup_insert_ne; [done|congruence].
  - intros u b L Hu. cbn. destruct (decide (u = t)) as [->|].
    + exists [e]. rewrite lookup_insert_eq. simplify_eq. split; [done|].
      by intros x ->%list_elem_of_singleton.
    + exists []. rewrite lookup_insert_ne, app_nil_r by done. split; [done|].
      by intros x ?%not_elem_of_nil.
Qed.

Lemma spec_steps_history s s' : rtc (spec_step eterm members) s s' → history_le s s'.
Proof. induction 1; [done|]. etrans; [by apply spec_step_history|done]. Qed.

Lemma committed_history s s' t i : history_le s s' → committed s t i → committed s' t i.
Proof.
  intros (Hg & Ha & _) Hcom. destruct (committed_entry s t i Hcom) as (k0 & L0 & j & e & HL0 & -> & He & Et).
  destruct Hcom as (k & L & Q & HL & Ht & Hpos & HQ & Hall).
  rewrite HL0 in HL. injection HL as <- <-.
  destruct (Hg _ _ _ HL0) as (r & HL' & _). exists k0, (L0 ++ r), Q. split_and!; try done.
  - cbn. by rewrite (lookup_app_l_Some _ _ _ _ He).
  - intros v Hv. destruct (Hall v Hv) as (j' & ? & ?). eauto.
Qed.

Lemma certified_history s s' l T (c : nat) : history_le s s' → certified s l T c → certified s' l T c.
Proof.
  intros Hle [->|(t & i & k & L & Hcom & HL & ? & ? & Heq)]; [by left|]. right.
  pose proof (committed_length s t i k L Hcom HL).
  destruct (proj1 Hle _ _ _ HL) as (r & HL' & _). exists t, i, k, (L ++ r).
  split_and!; try done; [by eapply committed_history|].
  rewrite Heq. apply take_prefix_eq; [lia|by exists r].
Qed.
End commit.
