(* ===== verification/Replication.v ===== *)
(** * Replication: what one append request does to a follower's log

    Functional description of HandleAppendEntries on the abstract log, of the
    request that BuildAppendEntries makes, and their composition: a follower that
    accepts a leader's request holds the leader's log up to its last index. *)
From S2P Require Import Prelude GoStrings Types Membership Node NodeInv Election Heartbeat.
From S2P Require Import Proposal NodeStep.

Section replication.
Context {St : Type} `{!StableStore St} `{!MembershipJSON}.
Abbreviation Node := (RaftNode St).
Implicit Types n : Node.

(** Entry [i] of [n] survives in [n'], or is covered by its snapshot. *)
Definition keeps n (n' : Node) (i : Z) : Prop :=
  ∀ e, entry_at n i = Some e → entry_at n' i = Some e ∨ i ≤ n'.(lastIncludedIndex).

(** A request entry contradicts what [n] stores at its index. *)
Definition conflict_at (req : AppendEntriesRequest) n (k : nat) : Prop :=
  ∃ e el, aeq_Entries req !! k = Some e ∧
    entry_at n (aeq_PrevLogIndex req + 1 + Z.of_nat k) = Some el ∧ le_Term el ≠ le_Term e.

(** What an accepted request guarantees entry by entry. *)
Definition accepted_view (req : AppendEntriesRequest) n (n' : Node) : Prop :=
  (∀ k e, aeq_Entries req !! k = Some e →
     n.(lastIncludedIndex) < aeq_PrevLogIndex req + 1 + Z.of_nat k →
     ∃ e', entry_at n' (aeq_PrevLogIndex req + 1 + Z.of_nat k) = Some e' ∧
           le_Term e' = le_Term e ∧
           (entry_at n (aeq_PrevLogIndex req + 1 + Z.of_nat k) = Some e' ∨
            e' = mkEntry (le_Term e) (aeq_PrevLogIndex req + 1 + Z.of_nat k) (le_Command e))) ∧
  (∀ i e, entry_at n i = Some e →
     entry_at n' i = Some e ∨
     ∃ k, aeq_PrevLogIndex req + 1 + Z.of_nat k ≤ i ∧ conflict_at req n k) ∧
  (∀ i e, entry_at n' i = Some e → entry_at n i = Some e ∨
     ∃ k ek, i = aeq_PrevLogIndex req + 1 + Z.of_nat k ∧ aeq_Entries req !! k = Some ek ∧
             e = mkEntry (le_Term ek) i (le_Command ek)) ∧
  n'.(lastIncludedIndex) = n.(lastIncludedIndex) ∧
  n'.(lastIncludedTerm) = n.(lastIncludedTerm).

Lemma accepted_view_unchanged req n :
  (∀ k e, aeq_Entries req !! k = Some e → entry_matches n (aeq_PrevLogIndex req + 1) k e) →
  accepted_view req n n.
Proof.
  intros Hall. unfold accepted_view. split_and!; auto.
  intros k e Hk Hc. destruct (Hall k e Hk Hc) as (e' & ? & ?). eauto.
Qed.

Lemma accepted_view_spliced req n k0 e0 :
  log_wf n → request_wf req → aeq_Entries req !! k0 = Some e0 →
  n.(lastIncludedIndex) < aeq_PrevLogIndex req + 1 + Z.of_nat k0 ≤ last_index n + 1 →
  (∀ j ej, (j < k0)%nat → aeq_Entries req !! j = Some ej →
     entry_matches n (aeq_PrevLogIndex req + 1) j ej) →
  (∀ e', entry_at n (aeq_PrevLogIndex req + 1 + Z.of_nat k0) = Some e' → le_Term e' ≠ le_Term e0) →
  accepted_view req n (spliced n (aeq_PrevLogIndex req + 1) (aeq_Entries req) k0).
Proof.
  intros Hwf (_ & Hp & Hb & _) Hk0 Hr Hbefore Hnew.
  pose proof (lookup_lt_Some _ _ _ Hk0) as Hlt.
  set (p := aeq_PrevLogIndex req + 1) in *. set (es := aeq_Entries req) in *.
  assert (Hat : ∀ i, entry_at (spliced n p es k0) i =
    if decide (i < p + Z.of_nat k0) then entry_at n i
    else (fun e => mkEntry (le_Term e) i (le_Command e)) <$> es !! Z.to_nat (i - p)).
  { intros i. apply spliced_entry_at; done || lia. }
  unfold accepted_view. fold p es. split_and!; [| | |done|done].
  - intros k e Hk Hc. rewrite Hat. case_decide as Hd.
    + destruct (Hbefore k e ltac:(lia) Hk Hc) as (e' & ? & ?). eauto.
    + replace (Z.to_nat (p + Z.of_nat k - p)) with k by lia. rewrite Hk. simpl. eauto.
  - intros i e He. rewrite Hat. case_decide as Hd; [by left|right].
    destruct (entry_at n (p + Z.of_nat k0)) as [el|] eqn:Hel.
    + exists k0. split; [lia|]. exists e0, el. split_and!; [done|done|by apply Hnew].
    + exfalso. apply entry_at_Some in He.
      destruct (entry_at_is_Some n (p + Z.of_nat k0)) as [? E]; [lia|]. congruence.
  - intros i e. rewrite Hat. case_decide as Hd; [by left|].
    intros (ek & Hek & ->)%fmap_Some. right. exists (Z.to_nat (i - p)), ek.
    split_and!; [lia|done|done].
Qed.

Lemma accepted_view_proper req n m n' m' :
  same_log n m → same_log n' m' → accepted_view req n n' → accepted_view req m m'.
Proof.
  intros Hs Hs' (H1 & H2 & H3 & H4 & H5). unfold accepted_view, conflict_at in *.
  pose proof Hs as (_ & Ei & Et). pose proof Hs' as (_ & Ei' & Et').
  assert (E : ∀ i, entry_at m i = entry_at n i) by (intros i; symmetry; by apply entry_at_proper).
  assert (E' : ∀ i, entry_at m' i = entry_at n' i) by (intros i; symmetry; by apply entry_at_proper).
  repeat setoid_rewrite E. repeat setoid_rewrite E'.
  split_and!; try congruence; [by rewrite <-Ei|done|done].
Qed.

Lemma commit_upto_same_log c n : same_log (commit_upto c n) n.
Proof. destruct (commit_upto_frame c n) as (i & r & ->). done. Qed.

(** The exact log after an accepted request. [k] is how many entries of the request
    the node has already, in its log (same term) or in its snapshot. If it has all of
    them nothing changes; otherwise the log is cut before the first one it lacks or
    stores with another term, and the rest of the request is all that follows. *)
Definition accepted_log (req : AppendEntriesRequest) n (n' : Node) : Prop :=
  let prev := aeq_PrevLogIndex req in
  let es := aeq_Entries req in
  n'.(lastIncludedIndex) = n.(lastIncludedIndex) ∧ n'.(lastIncludedTerm) = n.(lastIncludedTerm) ∧
  ∃ k, (∀ j e, (j < k)%nat → es !! j = Some e → entry_matches n (prev + 1) j e) ∧
    match es !! k with
    | None => ∀ i, entry_at n' i = entry_at n i
    | Some e =>
        ¬ entry_matches n (prev + 1) k e ∧
        ∀ i, entry_at n' i =
          if decide (i ≤ prev + Z.of_nat k) then entry_at n i
          else (λ e, mkEntry (le_Term e) i (le_Command e)) <$> es !! Z.to_nat (i - prev - 1)
    end.

Lemma accepted_log_outcome req n n1 b :
  log_wf n → request_wf req →
  append_outcome n (aeq_PrevLogIndex req + 1) (aeq_Entries req) (Ret (n1, b)) → accepted_log req n n1.
Proof.
  intros Hwf (_ & Hp & Hb & _) [[[= -> _] Hall]|(k & e & Hk & Hr & Hbefore & Hnew & [= -> _])].
  - split_and!; [done|done|]. exists (length (aeq_Entries req)).
    rewrite (proj2 (lookup_ge_None _ _)) by done. split; [|done]. intros j e _. apply Hall.
  - split_and!; [done|done|]. exists k. split; [exact Hbefore|]. rewrite Hk. split.
    + intros Hm. destruct Hm as (e' & He' & Ht); [lia|]. by apply (Hnew e').
    + intros i. pose proof (lookup_lt_Some _ _ _ Hk).
      rewrite (spliced_entry_at n (aeq_PrevLogIndex req + 1)) by (done || lia).
      repeat case_decide; try lia; [done|]. do 2 f_equal. lia.
Qed.

Lemma accepted_log_proper req n m n' m' :
  same_log n m → same_log n' m' → accepted_log req n n' → accepted_log req m m'.
Proof.
  intros Hs Hs' (H1 & H2 & k & H3 & H4). pose proof Hs as (_ & Ei & Et). pose proof Hs' as (_ & Ei' & Et').
  assert (E : ∀ i, entry_at m i = entry_at n i) by (intros i; symmetry; by apply entry_at_proper).
  assert (E' : ∀ i, entry_at m' i = entry_at n' i) by (intros i; symmetry; by apply entry_at_proper).
  split_and!; [congruence|congruence|]. exists k. unfold entry_matches in *. rewrite <-Ei.
  split; [by setoid_rewrite E|].
  destruct (_ !! k); [|intros i; by rewrite E, E']. rewrite E. split; [apply H4|].
  intros i. rewrite E, E'. apply H4.
Qed.

Lemma HandleAppendEntries_exact req n n' resp err :
  log_wf n → request_wf req → HandleAppendEntries req n = Ret (n', (resp, err)) →
  (aer_Success resp = true ∧ ¬ refused req n ∧ prev_matches req n ∧ accepted_log req n n') ∨
  (aer_Success resp = false ∧ (refused req n ∨ ¬ prev_matches req n) ∧ same_log n' n).
Proof.
  intros Hwf Hreq Hh. pose proof (adopted_same_log req n) as Hsame.
  destruct (HandleAppendEntries_cases req n Hwf Hreq)
    as [[? E]|[(? & ? & s & e & E)|(? & ? & n1 & b & s & e & Hout & E)]];
    rewrite E in Hh; simplify_eq.
  - right. split_and!; [done|by left|done].
  - right. split_and!; [done|by right|]. exact Hsame.
  - left. split_and!; [done..|]. apply (accepted_log_proper req (adopted req n) n n1); [done| |].
    { symmetry. exact (commit_upto_same_log (aeq_LeaderCommit req) n1). }
    apply (accepted_log_outcome req (adopted req n) n1 b); [by rewrite Hsame|done|done].
Qed.

(** Only an accepted request changes the log. *)
Lemma HandleAppendEntries_log req n n' resp err :
  log_wf n → request_wf req → HandleAppendEntries req n = Ret (n', (resp, err)) →
  (aer_Success resp = true ∧ prev_matches req n ∧ accepted_view req n n') ∨
  (aer_Success resp = false ∧ same_log n' n).
Proof.
  intros Hwf Hreq Hh. pose proof (adopted_same_log req n) as Hsame.
  destruct (HandleAppendEntries_cases req n Hwf Hreq)
    as [[_ E]|[(_ & _ & s & e & E)|(_ & Hpm & n1 & b & s & e & Hout & E)]];
    rewrite E in Hh; simplify_eq.
  - right. done.
  - right. split; [done|]. exact Hsame.
  - left. split_and!; [done|done|].
    assert (Hwfa : log_wf (adopted req n)) by by rewrite Hsame.
    apply (accepted_view_proper req (adopted req n) n n1); [done| |].
    { symmetry. exact (commit_upto_same_log (aeq_LeaderCommit req) n1). }
    destruct Hout as [[[= -> _] Hall]|(k & e0 & ? & ? & ? & ? & [= -> _])].
    + by apply accepted_view_unchanged.
    + by eapply accepted_view_spliced.
Qed.

(** ** Steps that leave the log alone *)

(** The log is the same, commit and apply positions do not fall. *)
Definition steady n (m : Node) : Prop :=
  same_log m n ∧ n.(commitIndex) ≤ m.(commitIndex) ∧ n.(lastApplied) ≤ m.(lastApplied).

#[export] Instance steady_preorder : PreOrder steady.
Proof.
  unfold steady. split.
  - intros n. split_and!; done || lia.
  - intros a b c (? & ? & ?) (? & ? & ?). split_and!; [by etrans|lia|lia].
Qed.

Lemma persist_steady n m n' err : persistLocked m = (n', err) → steady n m → steady n n'.
Proof.
  intros Hp Hs. destruct (persistLocked_eq m) as (s & e & E). rewrite Hp in E. by simplify_eq.
Qed.

Lemma persist_steady_fst n m : steady n m → steady n (persistLocked m).1.
Proof. destruct (persistLocked m) eqn:E. by apply (persist_steady n m _ _ E). Qed.

Lemma steady_fields n (m : Node) :
  m.(log) = n.(log) → m.(lastIncludedIndex) = n.(lastIncludedIndex) →
  m.(lastIncludedTerm) = n.(lastIncludedTerm) → m.(commitIndex) = n.(commitIndex) →
  m.(lastApplied) = n.(lastApplied) → steady n m.
Proof. intros. unfold steady, same_log. split_and!; done || lia. Qed.

Lemma advanceCommitLoop_steady fuel i n n' : advanceCommitLoop fuel i n = Ret n' → steady n n'.
Proof.
  revert i. induction fuel as [|fuel IH]; intros i; simpl; [by intros [= ->]|].
  destruct (Z.ltb_spec (commitIndex n) i); simpl; [|by intros [= ->]].
  intros (t & _ & Ht)%go_bind_inv. split_in Ht; [by eapply IH| |by eapply IH].
  simplify_eq. unfold steady. simpl. split_and!; done || lia.
Qed.

Lemma advanceCommit_steady n n' : advanceCommitLocked n = Ret n' → steady n n'.
Proof.
  unfold advanceCommitLocked. split_ifs; [by intros [= ->]|]. apply advanceCommitLoop_steady.
Qed.

Lemma initLeaderProgress_steady n n' : initLeaderProgressLocked n = Ret n' → steady n n'.
Proof.
  intros Hs%advanceCommit_steady. etrans; [|exact Hs]. by apply steady_fields.
Qed.

Lemma applyMembershipChangeLocked_steady c n n' err :
  applyMembershipChangeLocked c n = Ret (n', err) → steady n n'.
Proof.
  unfold applyMembershipChangeLocked. intros ([m e] & Hm & Ht)%go_bind_inv.
  assert (steady n m) as Hs.
  { repeat case_bool_decide; split_in Hm;
      repeat match goal with
      | E : (_ ≫= _) = Ret _ |- _ => apply go_bind_inv in E as (? & _ & E)
      end; simplify_eq; by apply steady_fields. }
  destruct e as [e|]; [by simplify_eq|].
  apply go_bind_inv in Ht as (m' & Ha & Hr). simplify_eq.
  etrans; [exact Hs|]. by apply advanceCommit_steady.
Qed.

Lemma markApplied_steady i n : steady n (markApplied i n).
Proof. unfold markApplied. split_ifs; unfold steady; simpl; split_and!; done || lia. Qed.

(** The operations that may change the log. *)
Definition changes_log (op : nodeOp) : bool :=
  match op with OHandleAppendEntries _ | OAppendLocal _ | OCompact _ => true | _ => false end.

Lemma exec_steady op n n' : changes_log op = false → exec op n = Ret n' → steady n n'.
Proof.
  destruct op; intros Hc; try discriminate Hc; simpl; clear Hc.
  - intros [= <-]. apply persist_steady_fst. split_ifs; by apply steady_fields.
  - intros [= <-]. apply persist_steady_fst. by apply steady_fields.
  - intros ([m e] & (m1 & Hm & Ht)%go_bind_inv & [= <-])%go_bind_inv.
    injection Ht as Ht. apply (persist_steady n m1 _ _ Ht).
    apply initLeaderProgress_steady in Hm. etrans; [|exact Hm]. by apply steady_fields.
  - intros [= <-]. apply persist_steady_fst. by apply steady_fields.
  - intros [= <-]. destruct (RequestVote_cases req n)
      as [[_ ->]|[(_ & _ & s & e & -> & _)|(_ & _ & s & e & -> & _)]]; simpl; [done|..];
      unfold vote_adopted; split_ifs; by apply steady_fields.
  - unfold RecordReplicationSuccess. intros ([m e] & Hm & [= <-])%go_bind_inv.
    destruct (map_get _ _); [|by simplify_eq].
    repeat apply go_bind_inv in Hm as (? & ? & Hm). simplify_eq.
    etrans; [|by apply advanceCommit_steady]. by apply steady_fields.
  - unfold RecordReplicationFailure. intros ([m e] & Hm & [= <-])%go_bind_inv.
    destruct (map_get _ _); [|by simplify_eq].
    split_in Hm; [by simplify_eq| |by simplify_eq].
    apply go_bind_inv in Hm as (? & ? & Hm). simplify_eq. by apply steady_fields.
  - unfold ApplyMembershipChange. intros ([m e] & Hm & [= <-])%go_bind_inv.
    destruct (Validate change); [by simplify_eq|].
    apply go_bind_inv in Hm as ([m1 e1] & Ha & Hm).
    apply applyMembershipChangeLocked_steady in Ha. simpl in Hm.
    destruct e1; [by simplify_eq|]. injection Hm as Hm. by apply (persist_steady n m1 _ _ Hm).
  - unfold applyCommittedMembershipChange. intros ([m e] & Hm & [= <-])%go_bind_inv.
    apply go_bind_inv in Hm as ([m1 e1] & Ha & Hm).
    apply applyMembershipChangeLocked_steady in Ha. simpl in Hm.
    destruct e1; [by simplify_eq|]. injection Hm as Hm. apply (persist_steady n _ _ _ Hm).
    etrans; [exact Ha|apply markApplied_steady].
  - intros [= <-]. apply markApplied_steady.
  - intros [= <-]. unfold stepDownForHigherTerm. split_ifs; [done|].
    destruct (persistLocked _) eqn:Ep. apply (persist_steady n _ _ _ Ep). by apply steady_fields.
  - unfold promoteCandidate. intros ([m e] & Hm & [= <-])%go_bind_inv.
    destruct (_ || _); [by simplify_eq|]. apply go_bind_inv in Hm as (m1 & Hi & Hm).
    destruct (persistLocked m1) eqn:E. simplify_eq. apply (persist_steady n _ _ _ E).
    apply initLeaderProgress_steady in Hi. etrans; [|exact Hi]. by apply steady_fields.
  - unfold ensureLeaderProgress. split_ifs; try (by intros [= <-]);
      intros Hi; by apply initLeaderProgress_steady.
  - intros [= <-]. by apply steady_fields.
Qed.

(** ** What every step does to the log and its positions *)

Lemma same_log_keeps n n' i : same_log n' n → keeps n n' i.
Proof. intros Hs e He. left. by rewrite (entry_at_proper _ _ Hs i i eq_refl). Qed.

Lemma entry_at_app n e i el :
  entry_at n i = Some el → entry_at (set_log (n.(log) ++ [e]) n) i = Some el.
Proof. unfold entry_at. simpl. split_ifs; [|done]. intros. by apply lookup_app_l_Some. Qed.

Lemma compacted_entry_at n snap i :
  log_wf n → index_order n →
  entry_at (compacted n snap) i =
  if decide (i ≤ n.(lastApplied)) then None else entry_at n i.
Proof.
  intros (_ & ? & _) (? & _). unfold entry_at, compacted. simpl.
  case_decide; [by rewrite (proj2 (Z.ltb_ge _ _))|].
  rewrite !(proj2 (Z.ltb_lt _ _)) by lia. rewrite lookup_drop. f_equal. lia.
Qed.

Lemma compacted_term_at n snap i :
  log_wf n → index_order n → n.(lastIncludedIndex) < n.(lastApplied) → n.(lastApplied) ≤ i →
  term_at (compacted n snap) i = term_at n i.
Proof.
  intros Hl Ho Hlt Hi. unfold term_at at 1. rewrite (compacted_entry_at n snap i Hl Ho).
  simpl. pose proof Hl as (_ & ? & _). case_decide as Hd.
  - replace i with (lastApplied n) by lia. by destruct (_ =? 0) eqn:E; breflect; [lia|];
      rewrite Z.eqb_refl.
  - rewrite (proj2 (Z.eqb_neq i (lastApplied n))) by lia.
    unfold term_at. by rewrite (proj2 (Z.eqb_neq i (lastIncludedIndex n))) by lia.
Qed.

Lemma Compact_keeps snap n n' err i :
  node_wf n → Compact snap n = Ret (n', err) → keeps n n' i.
Proof.
  intros (Hl & _ & Ho & _) Hc.
  destruct (Compact_cases snap n Hl Ho) as [[_ E]|[(_ & _ & E)|(_ & _ & E)]];
    rewrite E in Hc; injection Hc as Hc; try (subst; by apply same_log_keeps).
  destruct (persistLocked_eq (compacted n snap)) as (s & e & Ep). rewrite Ep in Hc. simplify_eq.
  intros e He. change (entry_at _ i) with (entry_at (compacted n snap) i).
  rewrite (compacted_entry_at n snap i Hl Ho). case_decide; [by right|by left].
Qed.

Lemma HandleAppendEntries_keeps req n n' r i :
  node_wf n → request_wf req → agrees_committed req n →
  HandleAppendEntries req n = Ret (n', r) → i ≤ n.(commitIndex) → keeps n n' i.
Proof.
  intros (Hl & _) Hreq Hag Hh Hi. destruct r as [resp err].
  destruct (HandleAppendEntries_log req n n' resp err Hl Hreq Hh) as [(_ & _ & Hacc)|[_ Hs]];
    [|by apply same_log_keeps].
  intros e He. destruct Hacc as (_ & Hold & _).
  destruct (Hold i e He) as [?|(k & Hk & ek & el & Hek & Hel & Hne)]; [by left|].
  exfalso. pose proof (entry_at_Some _ _ _ Hel).
  destruct (Hag k ek Hek) as (e' & He' & Ht); [lia|lia|]. congruence.
Qed.

Lemma AppendLocal_log cmd n n' r :
  node_wf n → last_index n < two64 - 2 → AppendLocal cmd n = Ret (n', r) →
  same_log n' n ∨ same_log n' (set_log (n.(log) ++ [local_entry n cmd]) n).
Proof.
  intros Hwf Hb Ha. destruct (AppendLocal_cases cmd n Hwf Hb) as [[e E]|(c & cr & s & err & E & _)];
    rewrite E in Ha; simplify_eq; [by left|by right].
Qed.

Lemma AppendLocal_keeps cmd n n' r i :
  node_wf n → last_index n < two64 - 2 → AppendLocal cmd n = Ret (n', r) → keeps n n' i.
Proof.
  intros Hwf Hb Ha e He. left.
  destruct (AppendLocal_log cmd n n' r Hwf Hb Ha) as [Hs|Hs];
    rewrite (entry_at_proper _ _ Hs i i eq_refl); [done|by apply entry_at_app].
Qed.

(** No step drops or changes a committed entry. *)
Lemma exec_keeps_committed op n n' i :
  node_wf n → op_ok op n → exec op n = Ret n' → i ≤ n.(commitIndex) → keeps n n' i.
Proof.
  intros Hwf Hok He Hi. destruct (changes_log op) eqn:Hc.
  - destruct op; try discriminate Hc; simpl in *; apply go_bind_inv in He as ([m r] & Hm & [= <-]).
    + destruct Hok. by eapply HandleAppendEntries_keeps.
    + by eapply AppendLocal_keeps.
    + by eapply Compact_keeps.
  - apply same_log_keeps. by eapply exec_steady.
Qed.

(** A leader that stays leader only appends (and compacts what it applied). *)
Lemma exec_leader_appends op n n' i :
  node_wf n → op_ok op n → exec op n = Ret n' →
  n.(state) = Leader → n'.(state) = Leader → keeps n n' i.
Proof.
  intros Hwf Hok He Hs Hs'. destruct (changes_log op) eqn:Hc.
  - destruct op; try discriminate Hc; simpl in *; apply go_bind_inv in He as ([m r] & Hm & [= <-]).
    + destruct Hok as [Hreq _]. simpl in Hs'.
      destruct (HandleAppendEntries_cases req n ltac:(apply Hwf) Hreq)
        as [[_ E]|[(_ & _ & s & e & E)|(_ & _ & n1 & b & s & e & Hout & E)]];
        rewrite E in Hm; simplify_eq.
      * by apply same_log_keeps.
      * destruct (adopted_fields req n) as (_&_&_&_&_&_&_&_&Hf&_).
        destruct (append_outcome_frame _ _ _ _ _ Hout) as [l ->].
        destruct (commit_upto_frame (aeq_LeaderCommit req) (set_log l (adopted req n)))
          as (ci & cr & Ec). rewrite Ec in Hs'.
        change (state (adopted req n) = Leader) in Hs'. congruence.
    + by eapply AppendLocal_keeps.
    + by eapply Compact_keeps.
  - apply same_log_keeps. by eapply exec_steady.
Qed.

(** Commit, apply and snapshot positions never fall. *)
Lemma exec_positions op n n' :
  node_wf n → op_ok op n → exec op n = Ret n' →
  n.(commitIndex) ≤ n'.(commitIndex) ∧ n.(lastApplied) ≤ n'.(lastApplied) ∧
  n.(lastIncludedIndex) ≤ n'.(lastIncludedIndex).
Proof.
  intros Hwf Hok He. pose proof Hwf as (Hl & _ & Ho & _). destruct (changes_log op) eqn:Hc.
  - destruct op; try discriminate Hc; simpl in *; apply go_bind_inv in He as ([m r] & Hm & [= <-]).
    + destruct Hok as [Hreq _].
      destruct (adopted_fields req n) as (_&_&_&_&E1&E2&E3&_).
      destruct (HandleAppendEntries_cases req n Hl Hreq)
        as [[_ E]|[(_ & _ & s & e & E)|(_ & _ & n1 & b & s & e & Hout & E)]];
        rewrite E in Hm; simplify_eq; [lia| |].
      * change (commitIndex (set_store _ ?x)) with (commitIndex x).
        change (lastApplied (set_store _ ?x)) with (lastApplied x).
        change (lastIncludedIndex (set_store _ ?x)) with (lastIncludedIndex x). lia.
      * destruct (append_outcome_frame _ _ _ _ _ Hout) as [l ->].
        unfold commit_upto. cbv zeta.
        split_ifs; simpl in *; lia.
    + destruct (AppendLocal_cases command n Hwf Hok) as [[e E]|(c & cr & s & err & E & ?)];
        rewrite E in Hm; simplify_eq; simpl; lia.
    + destruct (Compact_cases snap n Hl Ho) as [[_ E]|[(_ & _ & E)|(? & _ & E)]];
        rewrite E in Hm; injection Hm as Hm; [subst; lia..|].
      destruct (persistLocked_eq (compacted n snap)) as (s & e & Ep).
      rewrite Ep in Hm. simplify_eq. simpl. lia.
  - destruct (exec_steady op n n' Hc He) as ((_ & -> & _) & ? & ?). lia.
Qed.

(** ** The request a leader builds *)

Lemma drop_log_entry_at n i k :
  n.(lastIncludedIndex) ≤ i →
  drop (Z.to_nat (i - n.(lastIncludedIndex))) n.(log) !! k = entry_at n (i + 1 + Z.of_nat k).
Proof.
  intros Hi. rewrite lookup_drop. unfold entry_at.
  rewrite (proj2 (Z.ltb_lt _ _)) by lia. f_equal. lia.
Qed.

Lemma BuildAppendEntries_spec p x n :
  node_wf n → map_get n.(nextIndex) p = Some x →
  ∃ req, BuildAppendEntries p n = Ret (inl req) ∧
    aeq_Term req = n.(currentTerm) ∧ aeq_LeaderID req = n.(nodeID) ∧
    aeq_PrevLogIndex req = Z.max x (n.(lastIncludedIndex) + 1) - 1 ∧
    aeq_PrevLogTerm req = term_at n (aeq_PrevLogIndex req) ∧
    (∀ k, aeq_Entries req !! k = entry_at n (aeq_PrevLogIndex req + 1 + Z.of_nat k)) ∧
    aeq_PrevLogIndex req + zlen (aeq_Entries req) = last_index n ∧
    aeq_LeaderCommit req = n.(commitIndex).
Proof.
  intros (Hl & _ & Ho & Hp) Hx. unfold BuildAppendEntries. rewrite Hx.
  destruct (progress_leader n p x Hp Hx) as (_ & _ & _ & _ & _ & _ & _ & Hb).
  pose proof (last_index_ge n Hl). pose proof Hl as (_ & _ & ?).
  rewrite (firstLogIndex_wf n Hl).
  replace (if x <=? lastIncludedIndex n then lastIncludedIndex n + 1 else x)
    with (Z.max x (lastIncludedIndex n + 1)) by (split_ifs; lia).
  set (next := Z.max x (lastIncludedIndex n + 1)).
  rewrite (usub_small next 1) by ulia.
  rewrite (logTermAt_wf n _ Hl), (cloneEntriesFrom_wf n _ Hl) by ulia. simpl.
  eexists. split; [done|]. simpl.
  replace (Z.to_nat (next - lastIncludedIndex n - 1))
    with (Z.to_nat (next - 1 - lastIncludedIndex n)) by lia.
  split_and!; try done.
  - intros k. apply drop_log_entry_at. lia.
  - unfold last_index, zlen in *. rewrite length_drop. lia.
Qed.

(** ** Log matching *)

(** Two logs that agree on the term at an index agree up to it. *)
Definition logs_match n (m : Node) : Prop :=
  ∀ i a b, entry_at n i = Some a → entry_at m i = Some b → le_Term a = le_Term b →
  ∀ j x y, j ≤ i → entry_at n j = Some x → entry_at m j = Some y → x = y.

Lemma term_at_entry n i e :
  log_wf n → n.(lastIncludedIndex) < i → entry_at n i = Some e → term_at n i = le_Term e.
Proof.
  intros (_ & ? & _) Hi He. unfold term_at. rewrite He.
  rewrite (proj2 (Z.eqb_neq i 0)), (proj2 (Z.eqb_neq i (lastIncludedIndex n))) by lia. done.
Qed.

Lemma entry_at_index n i e : log_wf n → entry_at n i = Some e → le_Index e = i.
Proof.
  intros (Hc & _ & _) He. unfold entry_at in He. split_in He; [|done].
  rewrite (Hc _ _ He). lia.
Qed.

Lemma replicate_equal p x lead req foll foll' resp err i e :
  node_wf lead → node_wf foll → logs_match lead foll → request_wf req →
  map_get lead.(nextIndex) p = Some x → BuildAppendEntries p lead = Ret (inl req) →
  HandleAppendEntries req foll = Ret (foll', (resp, err)) → aer_Success resp = true →
  entry_at lead i = Some e → foll.(lastIncludedIndex) < i → entry_at foll' i = Some e.
Proof.
  intros Hwl Hwf Hm Hreq Hx Hb Hh Hs Hi Hfi.
  pose proof Hwl as (Hl & _). pose proof Hwf as (Hlf & _).
  destruct (BuildAppendEntries_spec p x lead Hwl Hx)
    as (req' & Hb' & _ & _ & Eprev & Eterm & Hes & Elen & _).
  rewrite Hb in Hb'. simplify_eq.
  destruct (HandleAppendEntries_log _ _ _ _ _ Hlf Hreq Hh) as [(_ & Hpm & Hacc)|[? _]];
    [|congruence].
  destruct Hacc as (Hnew & Hold & _). pose proof (entry_at_Some _ _ _ Hi) as Hri.
  pose proof Hlf as (_ & Hlf0 & _).
  destruct (decide (i ≤ aeq_PrevLogIndex req')) as [Hle|Hgt].
  - (* below the checked position: equal before, and kept *)
    destruct (prev_in_range _ _ Hlf Hreq Hpm) as [|Hrange]; [lia|].
    destruct (entry_at_is_Some foll i) as [f Hf]; [lia|].
    destruct (entry_at_is_Some foll (aeq_PrevLogIndex req')) as [fp Hfp]; [lia|].
    pose proof (zlen_nonneg (aeq_Entries req')).
    destruct (entry_at_is_Some lead (aeq_PrevLogIndex req')) as [lp Hlp]; [lia|].
    assert (e = f) as <-.
    { apply (Hm (aeq_PrevLogIndex req') lp fp Hlp Hfp) with i; [|done..].
      rewrite <-(term_at_entry lead _ _ Hl (proj1 (entry_at_Some _ _ _ Hlp)) Hlp), <-Eterm.
      destruct Hpm as [|<-]; [lia|].
      apply (term_at_entry foll); [done|apply (entry_at_Some _ _ _ Hfp)|done]. }
    destruct (Hold i e Hf) as [?|(k & ? & _)]; [done|lia].
  - specialize (Hes (Z.to_nat (i - aeq_PrevLogIndex req' - 1))).
    replace (aeq_PrevLogIndex req' + 1 + Z.of_nat (Z.to_nat (i - aeq_PrevLogIndex req' - 1)))
      with i in Hes by lia.
    rewrite Hi in Hes. destruct (Hnew _ _ Hes) as (e' & He' & Ht & Hsrc); [lia|].
    replace (aeq_PrevLogIndex req' + 1 + Z.of_nat (Z.to_nat (i - aeq_PrevLogIndex req' - 1)))
      with i in He', Hsrc by lia.
    rewrite He'. f_equal. destruct Hsrc as [Hf| ->].
    + symmetry. apply (Hm i e e' Hi Hf) with i; done || lia.
    + rewrite <-(entry_at_index lead i e Hl Hi) at 1. by destruct e.
Qed.

End replication.
