(* ===== verification/FullLog.v ===== *)
(** * FullLog: a node and its whole log

    A node that has taken snapshots holds only the end of its log. [full n F] says that
    [F] is the whole log, from index 1: what each operation of the node does to it. An
    accepted append request is [merge] of RaftSpec.v, an append of a leader one more
    entry, and compaction changes nothing. *)
From S2P Require Import Prelude GoStrings Types Membership Node NodeInv Election Heartbeat.
From S2P Require Import Proposal NodeStep NodeFrame Cluster Replication RaftSpec.

Abbreviation term_of := (term_of le_Term).
Abbreviation last_term := (last_term le_Term).
Abbreviation merge := (merge le_Term).

(** Entry number [k] carries index [k]. *)
Definition indexed (F : list LogEntry) : Prop :=
  ∀ k e, F !! k = Some e → le_Index e = Z.of_nat k + 1.

Section full.
Context {St : Type} `{!StableStore St} `{!MembershipJSON}.
Abbreviation Node := (RaftNode St).
Implicit Types (n : Node) (F es : list LogEntry).

Definition full n F : Prop :=
  indexed F ∧ 0 ≤ n.(lastIncludedIndex) ≤ zlen F ∧
  n.(log) = drop (Z.to_nat n.(lastIncludedIndex)) F ∧
  n.(lastIncludedTerm) = term_of F (Z.to_nat n.(lastIncludedIndex)).

#[export] Instance full_proper : Proper (same_log ==> eq ==> iff) full.
Proof.
  intros n m (El & Ei & Et) F ? <-. unfold full. by rewrite El, Ei, Et.
Qed.

(** ** Reading *)

Lemma full_last_index n F : full n F → last_index n = zlen F.
Proof.
  intros (_ & Hi & El & _). unfold last_index, zlen in *. rewrite El, length_drop. lia.
Qed.

Lemma full_entry_at n F i :
  full n F → n.(lastIncludedIndex) < i → entry_at n i = F !! Z.to_nat (i - 1).
Proof.
  intros (_ & Hi & El & _) Hlt. unfold entry_at. rewrite (proj2 (Z.ltb_lt _ _) Hlt), El, lookup_drop.
  f_equal. lia.
Qed.

Lemma full_term_at n F i :
  full n F → i = 0 ∨ n.(lastIncludedIndex) ≤ i → term_at n i = term_of F (Z.to_nat i).
Proof.
  intros Hf Hi. pose proof Hf as (_ & Hr & _ & Et). unfold term_at.
  destruct (Z.eqb_spec i 0) as [->|]; [done|].
  destruct (Z.eqb_spec i (lastIncludedIndex n)) as [->|]; [done|].
  rewrite (full_entry_at n F i Hf) by lia.
  destruct (Z.to_nat i) as [|k] eqn:Ek; [lia|]. cbn. by replace (Z.to_nat (i - 1)) with k by lia.
Qed.

Lemma full_lastLogIndex n F : log_wf n → full n F → lastLogIndexLocked n = zlen F.
Proof. intros Hl Hf. by rewrite (lastLogIndex_wf n Hl), (full_last_index n F). Qed.

Lemma full_lastLogTerm n F : full n F → lastLogTermLocked n = last_term F.
Proof.
  intros Hf. pose proof (full_last_index n F Hf) as Hli. pose proof Hf as (_ & Hr & El & Et).
  unfold lastLogTermLocked, RaftSpec.last_term. destruct (last (log n)) as [e|] eqn:He.
  - rewrite last_lookup in He. rewrite El, lookup_drop, length_drop in He.
    apply lookup_lt_Some in He as Hlt. unfold zlen in *.
    replace (Z.to_nat (lastIncludedIndex n) + pred (length F - Z.to_nat (lastIncludedIndex n)))%nat
      with (pred (length F)) in He by lia.
    destruct (length F); [lia|]. cbn in *. by rewrite He.
  - apply last_None in He. unfold last_index in Hli. rewrite He, zlen_nil in Hli.
    rewrite Et. f_equal. unfold zlen in Hli. lia.
Qed.

(** ** Writing *)

Lemma indexed_app F e : indexed F → le_Index e = zlen F + 1 → indexed (F ++ [e]).
Proof.
  intros HF He k x [Hk|[Hk Hx]]%lookup_app_Some; [by apply HF|].
  apply list_lookup_singleton_Some in Hx as [Hz <-]. unfold zlen in He. lia.
Qed.

Lemma full_append n F e :
  full n F → le_Index e = zlen F + 1 → full (set_log (n.(log) ++ [e]) n) (F ++ [e]).
Proof.
  intros (Hx & Hr & El & Et) He. unfold full. cbn. split_and!.
  - by apply indexed_app.
  - lia.
  - rewrite zlen_app. pose proof (zlen_nonneg [e]). lia.
  - rewrite El, drop_app_le; [done|]. unfold zlen in Hr. lia.
  - rewrite Et. destruct (Z.to_nat (lastIncludedIndex n)) as [|k] eqn:Ek; [done|]. cbn.
    rewrite lookup_app_l; [done|]. unfold zlen in Hr. lia.
Qed.

Lemma full_compacted n F snap :
  full n F → index_order n → n.(lastIncludedIndex) < n.(lastApplied) → full (compacted n snap) F.
Proof.
  intros Hf (H1 & H2 & H3) Hlt. pose proof (full_last_index n F Hf) as Hli.
  pose proof Hf as (Hx & Hr & El & _). unfold full, compacted. cbn. split_and!; [done|lia|lia| |].
  - rewrite El, drop_drop. f_equal. lia.
  - apply full_term_at; [done|]. right. lia.
Qed.

Lemma normalizeEntries_id s es :
  (∀ k e, es !! k = Some e → le_Index e = s + Z.of_nat k) → 0 ≤ s → s + zlen es < two64 →
  normalizeEntries s es = es.
Proof.
  intros He Hs Hb. apply list_eq. intros k. rewrite normalizeEntries_lookup by done.
  destruct (es !! k) as [e|] eqn:Hk; [|done]. cbn. f_equal. destruct e as [t i c].
  specialize (He k _ Hk). cbn in *. by subst.
Qed.

Section merging.
Context (F es : list LogEntry) (p : nat).

(** Position [k] of the request is already in the log. *)
Definition present (k : nat) (e : LogEntry) : Prop :=
  ∃ x, F !! (p + k)%nat = Some x ∧ le_Term x = le_Term e.

Lemma merge_cut k e0 :
  es !! k = Some e0 → (∀ j e, (j < k)%nat → es !! j = Some e → present j e) →
  (∀ x, F !! (p + k)%nat = Some x → le_Term x ≠ le_Term e0) →
  merge F p es = take (p + k) F ++ drop k es.
Proof using Type.
  unfold present. revert p es. induction k as [|k IH]; intros q l Hk Hb Hn.
  - destruct l as [|e l]; [done|]. cbn in Hk. simplify_eq. rewrite Nat.add_0_r in *. cbn [RaftSpec.merge].
    destruct (F !! q) as [x|] eqn:Hx; [|done]. rewrite bool_decide_eq_false_2; [done|by apply Hn].
  - destruct l as [|e l]; [done|]. cbn in Hk. cbn [RaftSpec.merge].
    destruct (Hb 0%nat e) as (x & Hx & Ht); [lia|done|]. rewrite Nat.add_0_r in Hx.
    rewrite Hx, bool_decide_eq_true_2 by done.
    replace (q + S k)%nat with (S q + k)%nat in * by lia. apply IH; [done| |done].
    intros j ej Hj Hej. destruct (Hb (S j) ej) as (y & Hy & ?); [lia|done|].
    replace (q + S j)%nat with (S q + j)%nat in Hy by lia. eauto.
Qed.

Lemma merge_present : (∀ j e, es !! j = Some e → present j e) → merge F p es = F.
Proof using Type.
  unfold present. revert p. induction es as [|e l IH]; intros q Hb; [done|]. cbn [RaftSpec.merge].
  destruct (Hb 0%nat e) as (x & Hx & Ht); [done|]. rewrite Nat.add_0_r in Hx.
  rewrite Hx, bool_decide_eq_true_2 by done. apply IH. intros j ej Hej.
  destruct (Hb (S j) ej Hej) as (y & Hy & ?). replace (q + S j)%nat with (S q + j)%nat in Hy by lia.
  eauto.
Qed.
End merging.

(** An append request merges its entries into the whole log, if what the snapshot
    covers is there already. *)
Lemma full_merge n F es prev n1 b :
  full n F → log_wf n → 0 ≤ prev ≤ zlen F → prev + zlen es < two64 - 1 →
  (∀ k e, es !! k = Some e → le_Index e = prev + 1 + Z.of_nat k) →
  (∀ k e, es !! k = Some e → prev + 1 + Z.of_nat k ≤ n.(lastIncludedIndex) →
     present F (Z.to_nat prev) k e) →
  append_outcome n (prev + 1) es (Ret (n1, b)) → full n1 (merge F (Z.to_nat prev) es).
Proof.
  intros Hf Hl Hp Hb Hix Hcov Hout. pose proof Hf as (Hx & Hr & El & Et).
  assert (Hmatch : ∀ k e, es !! k = Some e → entry_matches n (prev + 1) k e →
    present F (Z.to_nat prev) k e).
  { intros k e Hk Hm. destruct (decide (prev + 1 + Z.of_nat k ≤ lastIncludedIndex n)); [by apply Hcov|].
    destruct (Hm ltac:(lia)) as (x & Hx' & Ht). exists x. split; [|done].
    rewrite (full_entry_at n F) in Hx' by (done || lia). rewrite <-Hx'. f_equal. lia. }
  destruct Hout as [[[= -> _] Hall]|(k & e & Hk & Hrange & Hbefore & Hnew & [= -> _])].
  { rewrite merge_present; [done|]. intros j e Hj. by apply Hmatch, Hall. }
  rewrite (full_last_index n F Hf) in Hrange. unfold zlen in Hrange, Hp, Hb, Hr.
  pose proof (lookup_lt_Some _ _ _ Hk) as Hklt.
  rewrite (merge_cut F es (Z.to_nat prev) k e Hk).
  2: { intros j ej Hj Hej. by apply Hmatch, Hbefore. }
  2: { intros x Hx'. apply Hnew. rewrite (full_entry_at n F) by (done || lia).
       rewrite <-Hx'. f_equal. lia. }
  set (m := (Z.to_nat prev + k)%nat).
  assert (m ≤ length F)%nat by lia.
  assert (Z.to_nat (lastIncludedIndex n) ≤ m)%nat by lia.
  unfold spliced. rewrite normalizeEntries_id; cycle 1.
  { intros j ej. rewrite lookup_drop. intros Hj%Hix. lia. }
  { lia. }
  { unfold zlen. rewrite length_drop. ulia. }
  unfold full. cbn. split_and!.
  - intros j x [Hj|[Hj Hx']]%lookup_app_Some.
    + apply lookup_take_Some in Hj as [Hj _]. by apply Hx.
    + rewrite lookup_drop in Hx'. apply Hix in Hx'. rewrite length_take in *. lia.
  - lia.
  - rewrite zlen_app. unfold zlen. rewrite length_take. lia.
  - rewrite drop_app_le by (rewrite length_take; lia). f_equal.
    rewrite El, take_drop_commute. do 2 f_equal. lia.
  - rewrite Et. destruct (Z.to_nat (lastIncludedIndex n)) as [|q] eqn:Eq; [done|]. cbn.
    rewrite lookup_app_l, lookup_take_lt; [done|lia|]. rewrite length_take. lia.
Qed.

(** What a leader sends is a segment of its whole log. *)
Lemma full_request p n F req :
  node_wf n → full n F → BuildAppendEntries p n = Ret (inl req) →
  n.(state) = Leader ∧ aeq_Term req = n.(currentTerm) ∧ aeq_LeaderID req = n.(nodeID) ∧
  0 ≤ aeq_PrevLogIndex req ∧
  aeq_PrevLogTerm req = term_of F (Z.to_nat (aeq_PrevLogIndex req)) ∧
  segment F (Z.to_nat (aeq_PrevLogIndex req)) (aeq_Entries req) ∧
  aeq_PrevLogIndex req + zlen (aeq_Entries req) = zlen F ∧
  aeq_LeaderCommit req = n.(commitIndex).
Proof.
  intros Hwf Hf Hb. pose proof Hwf as (Hl & _ & _ & Hp).
  destruct (map_get n.(nextIndex) p) as [x|] eqn:Hx.
  2: { unfold BuildAppendEntries in Hb. by rewrite Hx in Hb. }
  destruct (progress_leader n p x Hp Hx) as (Hs & _).
  destruct (BuildAppendEntries_spec p x n Hwf Hx)
    as (req' & Hb' & Et & Eid & Eprev & Ept & Hes & Elen & Ec).
  rewrite Hb in Hb'. injection Hb' as <-. pose proof Hf as (_ & Hr & _).
  pose proof (full_last_index n F Hf) as Hli. pose proof (zlen_nonneg (aeq_Entries req)).
  split_and!; try done; try lia.
  - rewrite Ept. apply full_term_at; [done|]. lia.
  - split; [unfold zlen in *; lia|]. exists []. rewrite app_nil_r. apply list_eq. intros k.
    rewrite lookup_drop, Hes, (full_entry_at n F) by (done || lia). f_equal. lia.
Qed.

End full.
