(* ===== verification/Raft.v ===== *)
(** * Raft: a cluster with its append requests, and its refinement of the logs

    The cluster of Cluster.v, with replication by messages: a leader builds requests,
    they reach their follower in any order, late, repeatedly or never, and so do the
    answers. Membership is fixed, a node whose write fails does not go on (it restarts
    from its disk), entries are appended by leaders, and an answer is recorded in the
    term of its request. These are conditions of the proof and not checks of the code:
    RaftExec.v has the steps without them, names the executions that keep them, and
    Races.v and Faults.v show what happens otherwise. Every step is a step of
    the cluster, so elections are safe, and refines the specification of RaftSpec.v. *)
From S2P Require Import Prelude GoStrings Types Membership Node NodeInv Election Heartbeat.
From S2P Require Import Proposal NodeStep NodeFrame Cluster Replication RaftSpec RaftCommit FullLog.

Section raft.
Context {St : Type} `{!StableStore St} `{!MembershipJSON}.
Context (storable : PersistentState → Prop) `{!StableStoreLaws St storable}.
Context (members : list string).
Hypothesis members_named : "" ∉ members.
Hypothesis members_distinct : NoDup members.
Abbreviation Node := (RaftNode St).
Abbreviation Cluster := (Cluster (St := St)).
Abbreviation Spec := (Spec (E := LogEntry)).
Abbreviation spec_step := (spec_step le_Term members).
Abbreviation spec_inv := (spec_inv le_Term members).
Abbreviation certified := (certified le_Term members).
Abbreviation committed := (committed le_Term members).
Abbreviation history_le := (history_le le_Term).
Abbreviation cluster_step := (cluster_step storable members).
Abbreviation cluster_inv := (cluster_inv members).
Implicit Types (n : Node) (s : Spec).

(** ** State *)

(** [sent] are the append requests by destination, [replies] the answers by node and
    request. *)
Record Net := mkNet {
  core : Cluster;
  sent : list (string * AppendEntriesRequest);
  replies : list (string * AppendEntriesRequest * AppendEntriesResponse);
}.

Implicit Types c : Net.

Definition on_core (f : Cluster → Cluster) c : Net := mkNet (f c.(core)) c.(sent) c.(replies).

Definition node_at c (i : string) : option Node := c.(core).(nodes) !! i.

(** What a restart reads is what the node holds: its last write succeeded. *)
Definition saved n : Prop :=
  ∀ st ps, n.(store) = Some st → Load st = inl ps →
    ps_CurrentTerm ps = n.(currentTerm) ∧ ps_Log ps = n.(log) ∧
    ps_LastIncludedIndex ps = n.(lastIncludedIndex) ∧
    ps_LastIncludedTerm ps = n.(lastIncludedTerm).

Definition written n : Prop := storable (persistentOf n) ∧ saved n.

(** ** Steps *)

(** The operations that need no message. *)
Definition local_op (op : nodeOp) : bool :=
  match op with
  | ORecordReplicationFailure _ | OStepDown _ | OEnsureLeaderProgress | OMarkApplied _
  | OCompact _ | OTakeCommitReady => true
  | _ => false
  end.

Inductive raft_step : Net → Net → Prop :=
| RS_vote i n req n' resp c :
    node_at c i = Some n → RequestVote req n = (n', (resp, None)) → in_u64 (rvq_Term req) →
    written n' → raft_step c (on_core (λ k, add_answer (i, req, resp) (set_node i n' k)) c)
| RS_election i n pc n' pc' c :
    node_at c i = Some n → c.(core).(threads) !! i = Some pc → electionStep pc n = Ret (n', pc') →
    0 ≤ n.(currentTerm) < two64 - 1 → in_u64 n'.(currentTerm) → written n' →
    raft_step c (on_core (λ k, record_election i pc pc' n' (set_thread i pc' (set_node i n' k))) c)
| RS_vote_result i req peers pending votes p resp c :
    c.(core).(threads) !! i = Some (EWait req peers pending votes) →
    p ∈ pending → (p, req, resp) ∈ c.(core).(answers) →
    raft_step c (on_core
      (set_thread i (voteRecv (EWait req peers pending votes) (Result p (inl resp)))) c)
| RS_vote_lost i req peers pending votes p e c :
    c.(core).(threads) !! i = Some (EWait req peers pending votes) → p ∈ pending →
    raft_step c (on_core
      (set_thread i (voteRecv (EWait req peers pending votes) (Result p (inr e)))) c)
| RS_vote_ctx i req peers pending votes e c :
    c.(core).(threads) !! i = Some (EWait req peers pending votes) →
    raft_step c (on_core (set_thread i (voteRecv (EWait req peers pending votes) (CtxDone e))) c)
| RS_prevote i pc ev c :
    c.(core).(threads) !! i = Some pc →
    raft_step c (on_core (set_thread i (preVoteRecv pc ev)) c)
| RS_start i won err clientNil c :
    c.(core).(threads) !! i = Some (EDone won err) →
    raft_step c (on_core (set_thread i (startElectionPC clientNil)) c)
| RS_restart i n st peers0 n' c :
    node_at c i = Some n → n.(store) = Some st → peers_of members i peers0 →
    NewRaftNode i peers0 (Some st) = inl n' →
    raft_step c (on_core (λ k, set_thread i (EDone false None) (set_node i n' k)) c)
| RS_op i n op n' c :
    node_at c i = Some n → local_op op = true → op_ok op n → exec op n = Ret n' → written n' →
    raft_step c (on_core (set_node i n') c)
| RS_propose i n command n' r c :
    node_at c i = Some n → n.(state) = Leader → last_index n < two64 - 2 →
    AppendLocal command n = Ret (n', r) → written n' →
    raft_step c (on_core (set_node i n') c)
| RS_send i n p req c :
    node_at c i = Some n → BuildAppendEntries p n = Ret (inl req) →
    raft_step c (mkNet c.(core) ((p, req) :: c.(sent)) c.(replies))
| RS_deliver p n req n' resp c :
    node_at c p = Some n → (p, req) ∈ c.(sent) →
    HandleAppendEntries req n = Ret (n', (resp, None)) → written n' →
    raft_step c (mkNet (set_node p n' c.(core)) c.(sent) ((p, req, resp) :: c.(replies)))
| RS_success i n p req resp n' err c :
    node_at c i = Some n → (p, req, resp) ∈ c.(replies) → aer_Success resp = true →
    aeq_LeaderID req = i → aeq_Term req = n.(currentTerm) →
    RecordReplicationSuccess p (aeq_PrevLogIndex req ⊕ zlen (aeq_Entries req)) n = Ret (n', err) →
    written n' → raft_step c (on_core (set_node i n') c).

(** Fresh nodes, no election, no message. *)
Definition raft_init c : Prop :=
  cluster_init members c.(core) ∧ c.(sent) = [] ∧ c.(replies) = [].

(** ** Every step is a step of the cluster *)

Lemma exec_cluster c i n op n' :
  node_at c i = Some n → bystander op = true → exec op n = Ret n' → written n' →
  cluster_step c.(core) (set_node i n' c.(core)).
Proof. intros Hn Hb He [Hs _]. by eapply CS_op. Qed.

Lemma raft_cluster c c' : raft_step c c' → rtc cluster_step c.(core) c'.(core).
Proof.
  intros Hs. destruct Hs as [i n req n' resp c Hn ? ? [? _]|i n pc n' pc' c ? ? ? ? ? [? _]| | | | | | |
    i n op n' c ? Hop _ He ?|i n cmd n' r c ? _ _ Ha ?| |p n req n' resp c ? _ Hh ?|
    i n p req resp n' err c ? _ _ _ _ Hr ?].
  - apply rtc_once. by eapply CS_vote.
  - apply rtc_once. by eapply CS_election.
  - apply rtc_once. by eapply CS_vote_result.
  - apply rtc_once. by eapply CS_vote_lost.
  - apply rtc_once. by eapply CS_vote_ctx.
  - apply rtc_once. by eapply CS_prevote.
  - apply rtc_once. by eapply CS_start.
  - apply rtc_once. by eapply CS_restart.
  - apply rtc_once. eapply exec_cluster; [done| |done|done]. by destruct op.
  - apply rtc_once. eapply (exec_cluster c i n (OAppendLocal cmd)); [done|done| |done]. simpl. by rewrite Ha.
  - reflexivity.
  - apply rtc_once. eapply (exec_cluster c p n (OHandleAppendEntries req)); [done|done| |done]. simpl. by rewrite Hh.
  - apply rtc_once. eapply (exec_cluster c i n (ORecordReplicationSuccess p _)); [done|done| |done]. simpl. by rewrite Hr.
Qed.

Lemma raft_cluster_steps c c' : rtc raft_step c c' → rtc cluster_step c.(core) c'.(core).
Proof. induction 1; [done|]. etrans; [by apply raft_cluster|done]. Qed.

(** ** What the cluster holds of the specification *)

(** Every match index of the leader was acknowledged. *)
Definition tracked s n : Prop :=
  ∀ p m, map_get n.(matchIndex) p = Some m → 0 < m →
    ∃ j, m ≤ Z.of_nat j ∧ (p, n.(currentTerm), j) ∈ sp_acks s.

Definition leading s (i : string) n : Prop :=
  sp_lead s !! n.(currentTerm) = Some (i, sp_log s i) ∧
  (i, n.(currentTerm), length (sp_log s i)) ∈ sp_acks s ∧ tracked s n.

Record node_rel s (i : string) n : Prop := mkNodeRel {
  nr_wf : node_wf n;
  nr_full : full n (sp_log s i);
  nr_term : sp_term s i = n.(currentTerm);
  nr_saved : saved n;
  nr_commit : certified s (sp_log s i) n.(currentTerm) (Z.to_nat n.(commitIndex));
  nr_pos : n.(state) ≠ Follower → 0 < n.(currentTerm);
  nr_lead : n.(state) = Leader → leading s i n;
}.

(** A request in flight is a segment of its leader's log. *)
Record sent_ok s (req : AppendEntriesRequest) : Prop := mkSentOk {
  so_lead : ∃ L, sp_lead s !! aeq_Term req = Some (aeq_LeaderID req, L) ∧
    segment L (Z.to_nat (aeq_PrevLogIndex req)) (aeq_Entries req) ∧
    aeq_PrevLogTerm req = term_of L (Z.to_nat (aeq_PrevLogIndex req)) ∧
    certified s L (aeq_Term req) (Z.to_nat (aeq_LeaderCommit req));
  so_term : in_u64 (aeq_Term req);
  so_prev : 0 ≤ aeq_PrevLogIndex req;
  so_bound : aeq_PrevLogIndex req + zlen (aeq_Entries req) < two64 - 1;
  so_commit : 0 ≤ aeq_LeaderCommit req ≤ aeq_PrevLogIndex req + zlen (aeq_Entries req);
}.

Definition reply_ok s (x : string * AppendEntriesRequest * AppendEntriesResponse) : Prop :=
  let '(p, req, resp) := x in
  sent_ok s req ∧
  (aer_Success resp = true →
   (p, aeq_Term req, (Z.to_nat (aeq_PrevLogIndex req) + length (aeq_Entries req))%nat) ∈ sp_acks s).

(** A vote that was given is in the history, unless the term had its leader already. *)
Definition answer_ok s (x : string * RequestVoteRequest * RequestVoteResponse) : Prop :=
  let '(v, req, resp) := x in
  rvr_VoteGranted resp = true →
  is_Some (sp_lead s !! rvq_Term req) ∨
  ∃ l, (v, rvq_Term req, l) ∈ sp_votes s ∧
    IsLogAtLeastUpToDate (rvq_LastLogIndex req) (rvq_LastLogTerm req) (zlen l) (last_term l) = true.

Definition self_ok s (i : string) (t : Z) : Prop :=
  is_Some (sp_lead s !! t) ∨ (i, t, sp_log s i) ∈ sp_votes s.

(** A vote request shows the candidate's log. *)
Definition asked_ok s (req : RequestVoteRequest) : Prop :=
  rvq_LastLogIndex req = zlen (sp_log s (rvq_CandidateID req)) ∧
  rvq_LastLogTerm req = last_term (sp_log s (rvq_CandidateID req)).

Record rel c s : Prop := mkRel {
  r_nodes : ∀ i n, node_at c i = Some n → node_rel s i n;
  r_elected : ∀ t k, (t, k) ∈ c.(core).(elected) ↔ ∃ L, sp_lead s !! t = Some (k, L);
  r_once : ∀ t k n, (t, k) ∈ c.(core).(elected) → node_at c k = Some n →
    t ≤ n.(currentTerm) ∧ (n.(currentTerm) = t → n.(state) ≠ Candidate);
  r_answers : ∀ x, x ∈ c.(core).(answers) → answer_ok s x;
  r_self : ∀ i t n, (i, t) ∈ c.(core).(selfVotes) → node_at c i = Some n →
    t ≤ n.(currentTerm) ∧ (n.(state) = Candidate → n.(currentTerm) = t → self_ok s i t);
  r_asked : ∀ req n, req ∈ c.(core).(asked) → node_at c (rvq_CandidateID req) = Some n →
    rvq_Term req ≤ n.(currentTerm) ∧
    (n.(state) = Candidate → n.(currentTerm) = rvq_Term req → asked_ok s req);
  r_indexed : ∀ t k L, sp_lead s !! t = Some (k, L) → indexed L;
  r_sent : ∀ p req, (p, req) ∈ c.(sent) → sent_ok s req;
  r_replies : ∀ x, x ∈ c.(replies) → reply_ok s x;
}.
End raft.
