(* ===== verification/Applying.v ===== *)
(** * Applying: the loop that feeds committed entries to the state machine

    [ApplyCommitted] against a reference: running the committed entries, in log
    order, through the state machine. Membership commands go to the node instead
    of the state machine. *)
From S2P Require Import Prelude GoStrings Types Membership Node NodeInv Election Heartbeat.
From S2P Require Import Proposal NodeStep Replication.

Section applying.
Context {St : Type} `{!StableStore St} `{!MembershipJSON}.
Context {SM : Type} `{!StateMachine SM}.
Abbreviation Node := (RaftNode St).
Implicit Types n : Node.

(** The reference: entries in order, membership commands skipped, up to the
    first error. *)
Fixpoint run_entries (es : list LogEntry) (sm : SM) : SM * error :=
  match es with
  | [] => (sm, None)
  | e :: es =>
      if isMembership (le_Command e) then run_entries es sm
      else let '(sm, err) := Apply e sm in
           match err with Some x => (sm, Some x) | None => run_entries es sm end
  end.

Lemma run_entries_app es1 es2 sm sm1 :
  run_entries es1 sm = (sm1, None) → run_entries (es1 ++ es2) sm = run_entries es2 sm1.
Proof.
  revert sm. induction es1 as [|e es1 IH]; intros sm; simpl; [by intros [= ->]|].
  destruct (isMembership _); [apply IH|].
  destruct (Apply e sm) as [sm' [x|]]; [done|apply IH].
Qed.

(** The log of [n] at and after index [i] starts with [es]. *)
Definition log_segment n (i : Z) (es : list LogEntry) : Prop :=
  ∀ k e, es !! k = Some e → entry_at n (i + Z.of_nat k) = Some e.

(** How the loop ends, [sm1] being the state machine after the entries it marked
    as applied: everything committed is applied, or the next entry failed, or the
    next entry is a malformed membership command, or the last one was a
    membership change whose persistence failed. *)
Definition loop_end n (n' : Node) (sm1 sm' : SM) (err : error) : Prop :=
  match err with
  | None => sm' = sm1 ∧ n'.(lastApplied) = n'.(commitIndex)
  | Some x =>
      (∃ e, entry_at n (n'.(lastApplied) + 1) = Some e ∧ isMembership (le_Command e) = false ∧
            Apply e sm1 = (sm', Some x)) ∨
      (sm' = sm1 ∧ ∃ e c, entry_at n (n'.(lastApplied) + 1) = Some e ∧
            DecodeMembershipChange (le_Command e) = (c, true, Some x)) ∨
      (sm' = sm1 ∧ ∃ e c, entry_at n n'.(lastApplied) = Some e ∧
            DecodeMembershipChange (le_Command e) = (c, true, None))
  end.

Lemma valid_change_applies c n n' err :
  Validate c = None → applyMembershipChangeLocked c n = Ret (n', err) → err = None.
Proof.
  intros (_ & _ & Ht)%Validate_None Ha. unfold applyMembershipChangeLocked in Ha.
  apply go_bind_inv in Ha as ([m e] & Hm & Hr).
  assert (e = None) as ->.
  { destruct Ht as [Ht|Ht]; rewrite Ht in Hm; simpl in Hm; split_in Hm;
      repeat match goal with
      | E : (_ ≫= _) = Ret _ |- _ => apply go_bind_inv in E as (? & _ & E)
      end; by simplify_eq. }
  apply go_bind_inv in Hr as (m' & _ & Hr). by simplify_eq.
Qed.

Lemma advanceCommitLoop_applied f j n n' :
  advanceCommitLoop f j n = Ret n' → n'.(lastApplied) = n.(lastApplied).
Proof.
  revert j. induction f as [|f IH]; intros j; simpl; [by intros [= ->]|].
  destruct (Z.ltb_spec (commitIndex n) j); simpl; [|by intros [= ->]].
  intros (t & _ & Ht)%go_bind_inv. split_in Ht; [by eapply IH|by simplify_eq|by eapply IH].
Qed.

(** The critical section of a committed membership change: the log stays, the
    entry counts as applied, and an error can only come from persisting. *)
Lemma applyCommittedMembershipChange_applied c i n :
  node_wf n → Validate c = None → n.(lastApplied) < i ≤ n.(commitIndex) →
  ∃ n' err, applyCommittedMembershipChange c i n = Ret (n', err) ∧ node_wf n' ∧
    same_log n' n ∧ n'.(lastApplied) = i.
Proof.
  intros Hwf Hv Hi. unfold applyCommittedMembershipChange.
  destruct (applyMembershipChangeLocked_wf c n Hwf) as (n1 & err & Ha & Hwf1 & Hc).
  rewrite Ha, go_bind_Ret. cbn [fst snd]. rewrite (valid_change_applies _ _ _ _ Hv Ha).
  assert (lastApplied n1 = lastApplied n) as Hla.
  { clear -Ha Hv. unfold applyMembershipChangeLocked in Ha.
    apply go_bind_inv in Ha as ([m e] & Hm & Hr).
    assert (lastApplied m = lastApplied n) as <-.
    { repeat case_bool_decide; split_in Hm;
        repeat match goal with
        | E : (_ ≫= _) = Ret _ |- _ => apply go_bind_inv in E as (? & _ & E)
        end; by simplify_eq. }
    destruct e; [by simplify_eq|]. apply go_bind_inv in Hr as (m' & Had & Hr). simplify_eq.
    unfold advanceCommitLocked in Had. split_in Had; [by simplify_eq|].
    by eapply advanceCommitLoop_applied. }
  assert (steady n n1) as (Hs & _) by (by eapply applyMembershipChangeLocked_steady).
  pose proof (persistLocked_wf _ (markApplied_wf i n1 Hwf1 ltac:(lia))) as Hp.
  destruct (persistLocked_eq (markApplied i n1)) as (s & e & E). rewrite E in *.
  eexists _, _. split; [done|]. split_and!; [done| |].
  - unfold markApplied. split_ifs; exact Hs.
  - unfold markApplied. rewrite Hla. by rewrite (proj2 (Z.ltb_lt _ _)) by lia.
Qed.

Lemma markApplied_next i n :
  node_wf n → n.(lastApplied) < i ≤ n.(commitIndex) →
  node_wf (markApplied i n) ∧ same_log (markApplied i n) n ∧ lastApplied (markApplied i n) = i.
Proof.
  intros Hwf Hi. split; [apply markApplied_wf; [done|lia]|].
  unfold markApplied. by rewrite (proj2 (Z.ltb_lt _ _)) by lia.
Qed.

(** The outcome of the loop started at [n]. *)
Definition applied_result n (sm : SM) (n' : Node) (sm' : SM) (err : error) : Prop :=
  ∃ es sm1, log_segment n (n.(lastApplied) + 1) es ∧ run_entries es sm = (sm1, None) ∧
    n'.(lastApplied) = n.(lastApplied) + zlen es ∧ loop_end n n' sm1 sm' err.

(** One more entry in front. *)
Lemma applied_result_cons n m sm sm2 e n' sm' err :
  same_log m n → m.(lastApplied) = n.(lastApplied) + 1 →
  entry_at n (n.(lastApplied) + 1) = Some e →
  run_entries [e] sm = (sm2, None) →
  applied_result m sm2 n' sm' err → applied_result n sm n' sm' err.
Proof.
  intros Hs Hla He Hr (es & sm1 & Hseg & Hrun & Hn' & Hend).
  assert (Hat : ∀ i, entry_at m i = entry_at n i) by (intros i; by apply entry_at_proper).
  exists (e :: es), sm1. split_and!.
  - intros [|k] x Hx; simpl in Hx; [simplify_eq; by rewrite Z.add_0_r|].
    specialize (Hseg k x Hx). rewrite Hat, Hla in Hseg. rewrite <-Hseg. f_equal. lia.
  - change (e :: es) with ([e] ++ es). by rewrite (run_entries_app _ _ _ _ Hr).
  - rewrite Hn', Hla, zlen_cons. lia.
  - unfold loop_end in *. destruct err as [x|]; [|done]. by setoid_rewrite Hat in Hend.
Qed.

Lemma applied_result_nil n sm n' sm' err :
  n'.(lastApplied) = n.(lastApplied) → loop_end n n' sm sm' err → applied_result n sm n' sm' err.
Proof.
  intros Hla He. exists [], sm. split_and!; [intros k e Hk; by rewrite lookup_nil in Hk|done| |done].
  unfold zlen. simpl. lia.
Qed.

Lemma run_one e sm :
  run_entries [e] sm =
  if isMembership (le_Command e) then (sm, None)
  else let '(sm, err) := Apply e sm in (sm, err).
Proof. simpl. destruct (isMembership _); [done|]. by destruct (Apply e sm) as [? []]. Qed.

(** The loop returns, with fuel to spare. *)
Lemma ApplyCommittedLoop_spec fuel n sm :
  node_wf n → (Z.to_nat (last_index n - n.(lastApplied)) < fuel)%nat →
  ∃ n' sm' err, ApplyCommittedLoop fuel n sm = Ret (n', sm', err) ∧ node_wf n' ∧
    same_log n' n ∧ applied_result n sm n' sm' err.
Proof.
  revert n sm. induction fuel as [|fuel IH]; intros n sm Hwf Hf; [lia|].
  pose proof Hwf as (Hl & _ & Ho & _). pose proof Ho as (? & ? & ?).
  cbn [ApplyCommittedLoop]. rewrite nextCommittedEntry_wf, go_bind_Ret by done.
  case_decide as Hd.
  2: { cbn. exists n, sm, None. split_and!; try done. apply applied_result_nil; [done|].
       split; [done|lia]. }
  destruct (entry_at_is_Some n (lastApplied n + 1)) as [e He]; [lia|]. rewrite He.
  assert (le_Index e = lastApplied n + 1) as Hie by (by apply (entry_at_index n)).
  change (default zeroEntry (Some e)) with e. cbn [negb].
  destruct (DecodeMembershipChange (le_Command e)) as [[c isC] derr] eqn:Hdec.
  assert (isMembership (le_Command e) = isC) as Him by (unfold isMembership; by rewrite Hdec).
  pose proof (run_one e sm) as Hone. rewrite Him in Hone.
  destruct isC.
  - destruct derr as [x|].
    { exists n, sm, (Some x). split_and!; try done. apply applied_result_nil; [done|].
      right; left. eauto. }
    destruct (applyCommittedMembershipChange_applied c (le_Index e) n Hwf)
      as (n1 & err & -> & Hwf1 & Hs1 & Hla1); [by eapply Decode_valid|lia|].
    rewrite Hie in Hla1. rewrite go_bind_Ret. cbn [fst snd]. destruct err as [x|].
    + exists n1, sm, (Some x). split_and!; try done.
      apply (applied_result_cons n n1 sm sm e); try done.
      apply applied_result_nil; [done|]. right; right. split; [done|].
      exists e, c. rewrite Hla1. split; [|done]. by rewrite (entry_at_proper _ _ Hs1 _ _ eq_refl).
    + destruct (IH n1 sm Hwf1) as (n' & sm' & err & -> & ? & Hs & Hres).
      { rewrite (last_index_proper _ _ Hs1), Hla1. lia. }
      exists n', sm', err. split_and!; [done|done|by etrans|].
      by apply (applied_result_cons n n1 sm sm e).
  - destruct (Apply e sm) as [sm2 [x|]] eqn:Ha.
    + exists n, sm2, (Some x). split_and!; try done. apply applied_result_nil; [done|]. left. eauto.
    + destruct (markApplied_next (le_Index e) n Hwf) as (Hwf1 & Hs1 & Hla1); [lia|].
      rewrite Hie in Hla1 at 2.
      destruct (IH _ sm2 Hwf1) as (n' & sm' & err & -> & ? & Hs & Hres).
      { rewrite (last_index_proper _ _ Hs1), Hla1. lia. }
      exists n', sm', err. split_and!; [done|done|by etrans|].
      by apply (applied_result_cons n (markApplied (le_Index e) n) sm sm2 e).
Qed.

Lemma ApplyCommitted_spec n sm :
  node_wf n →
  ∃ n' sm' err, ApplyCommitted n sm = Ret (n', sm', err) ∧ node_wf n' ∧
    same_log n' n ∧ applied_result n sm n' sm' err.
Proof.
  intros Hwf. pose proof Hwf as (Hl & _ & Ho & _). apply ApplyCommittedLoop_spec; [done|].
  unfold applyFuel. rewrite lastLogIndex_wf by done. lia.
Qed.

End applying.
