(* ===== verification/ApplyLoop.v ===== *)
(** * ApplyLoop: the critical sections of ApplyCommitted (src/raft/node.go)

    ApplyCommitted holds the node's lock to fetch the next entry, lets the state
    machine apply it in the two sections of [ApplySections], and holds the node's lock
    again to mark it; a membership change is applied and marked under one lock. The apply loop
    of main and every HTTP handler call it on the same node and state machine, so it
    is a machine like the other long-running methods; its undisturbed run is the
    function [ApplyCommitted]. *)
From S2P Require Import Prelude GoStrings Types Membership Node NodeInv NodeStep Replication.
From S2P Require Import Applying.

Inductive applyPC :=
| AFetch
| AApply (entry : LogEntry)
| AMemory (entry : LogEntry)
| AMark (entry : LogEntry)
| ADone (err : error).

Section apply.
Context {St : Type} `{!StableStore St} `{!MembershipJSON} {SM : Type}.
Context `{!StateMachine SM} `{!ApplySections SM}.
Implicit Types n : RaftNode St.

(** One critical section of one caller. *)
Definition applyStep (pc : applyPC) n (sm : SM) : go (RaftNode St * SM * applyPC) :=
  match pc with
  | AFetch =>
      r ← nextCommittedEntry n;
      Ret (n, sm, if (r.2 : bool) then AApply r.1 else ADone None)
  | AApply entry =>
      let '(change, isChange, err) := DecodeMembershipChange (le_Command entry) in
      if (isChange : bool) then
        match err with
        | Some e => Ret (n, sm, ADone (Some e))
        | None =>
            r ← applyCommittedMembershipChange change (le_Index entry) n;
            Ret (r.1, sm, match r.2 with Some e => ADone (Some e) | None => AFetch end)
        end
      else
        let '(sm, err) := ApplyStored entry sm in
        Ret (n, sm, match err with Some e => ADone (Some e) | None => AMemory entry end)
  | AMemory entry => Ret (n, ApplyMemory entry sm, AMark entry)
  | AMark entry => Ret (markApplied (le_Index entry) n, sm, AFetch)
  | ADone err => Ret (n, sm, ADone err)
  end.

(** [k] critical sections of one caller with nobody else running. *)
Fixpoint applySteps (k : nat) (pc : applyPC) n (sm : SM) : go (RaftNode St * SM * applyPC) :=
  match k with
  | O => Ret (n, sm, pc)
  | S k => r ← applyStep pc n sm; applySteps k r.2 r.1.1 r.1.2
  end.

Lemma applySteps_done k err n sm : applySteps k (ADone err) n sm = Ret (n, sm, ADone err).
Proof. induction k as [|k IH]; [done|]. exact IH. Qed.

(** A run of the machine that ends is a run of the function's loop. *)
Lemma applySteps_loop k n sm n' sm' err fuel :
  applySteps k AFetch n sm = Ret (n', sm', ADone err) → (k ≤ fuel)%nat →
  ApplyCommittedLoop fuel n sm = Ret (n', sm', err).
Proof.
  revert n sm fuel. induction (lt_wf k) as [k _ IH]. intros n sm fuel Hk Hf.
  destruct k as [|k]; [done|]. destruct fuel as [|fuel]; [lia|].
  cbn [applySteps applyStep] in Hk. cbn [ApplyCommittedLoop].
  destruct (nextCommittedEntry n) as [[e ok]|]; [|done].
  rewrite !go_bind_Ret in Hk. rewrite !go_bind_Ret. cbn [fst snd] in Hk.
  destruct ok; cbn [negb]; [|rewrite applySteps_done in Hk; by simplify_eq].
  destruct k as [|k]; [done|]. cbn [applySteps applyStep] in Hk.
  destruct (DecodeMembershipChange (le_Command e)) as [[c isC] derr]. destruct isC.
  - destruct derr as [x|]; [rewrite go_bind_Ret in Hk; cbn [fst snd] in Hk; rewrite applySteps_done in Hk; by simplify_eq|].
    destruct (applyCommittedMembershipChange c (le_Index e) n) as [[n1 [x|]]|]; [..|done];
      rewrite !go_bind_Ret in Hk; rewrite !go_bind_Ret; cbn [fst snd] in *.
    + rewrite applySteps_done in Hk. by simplify_eq.
    + eapply (IH k); [lia|exact Hk|lia].
  - rewrite Apply_sections.
    destruct (ApplyStored e sm) as [sm1 [x|]]; rewrite go_bind_Ret in Hk; cbn [fst snd] in Hk.
    + rewrite applySteps_done in Hk. by simplify_eq.
    + do 2 (destruct k as [|k]; [done|]; cbn [applySteps applyStep] in Hk;
        rewrite go_bind_Ret in Hk; cbn [fst snd] in Hk). eapply (IH k); [lia|exact Hk|lia].
Qed.

(** So it applies the committed entries in order, each once. *)
Lemma applySteps_spec k n sm n' sm' err :
  node_wf n → applySteps k AFetch n sm = Ret (n', sm', ADone err) →
  node_wf n' ∧ same_log n' n ∧ applied_result n sm n' sm' err.
Proof.
  intros Hwf Hk. set (fuel := (k + S (Z.to_nat (last_index n - n.(lastApplied))))%nat).
  destruct (ApplyCommittedLoop_spec fuel n sm Hwf) as (n1 & sm1 & err1 & E & ? & ? & ?);
    [unfold fuel; lia|].
  rewrite (applySteps_loop k n sm n' sm' err fuel Hk) in E by (unfold fuel; lia).
  by simplify_eq.
Qed.

(** The entry between fetching and marking is the next one, and committed. *)
Definition apply_ok n (pc : applyPC) : Prop :=
  match pc with
  | AApply e | AMemory e | AMark e => n.(lastApplied) < le_Index e ≤ n.(commitIndex)
  | _ => True
  end.

(** Every section but the end moves on. *)
Lemma applyStep_stuck pc n sm n' sm' :
  applyStep pc n sm = Ret (n', sm', pc) → ∃ err, pc = ADone err.
Proof.
  destruct pc as [|e|e|e|err]; cbn [applyStep]; [..|by eauto].
  - intros (x & _ & Hx)%go_bind_inv. destruct x.2; by simplify_eq.
  - destruct (DecodeMembershipChange _) as [[c isC] derr]. destruct isC.
    + destruct derr; [done|]. intros ([? []] & _ & Hx)%go_bind_inv; by simplify_eq.
    + by destruct (ApplyStored _ _) as [? []].
  - done.
  - done.
Qed.

(** How many sections are left at most: four per entry that is not applied. *)
Definition apply_rank n (pc : applyPC) : Z :=
  let d := last_index n - n.(lastApplied) in
  match pc with
  | AFetch => 4 * d + 1
  | AApply _ => 4 * d
  | AMemory _ => 4 * d - 1
  | AMark _ => 4 * d - 2
  | ADone _ => 0
  end.

Lemma apply_rank_nonneg n pc : node_wf n → apply_ok n pc → 0 ≤ apply_rank n pc.
Proof.
  intros (_ & _ & (? & ? & ?) & _) Hok. unfold apply_rank, apply_ok in *. destruct pc; lia.
Qed.

(** A section returns, keeps the invariant, and leaves fewer sections to run. *)
Lemma applyStep_returns pc n sm :
  node_wf n → apply_ok n pc →
  ∃ n' sm' pc', applyStep pc n sm = Ret (n', sm', pc') ∧ node_wf n' ∧ apply_ok n' pc' ∧
    (pc' = pc ∨ apply_rank n' pc' < apply_rank n pc).
Proof.
  intros Hwf Hok. pose proof Hwf as (Hl & _ & Ho & _). pose proof Ho as (? & ? & ?).
  destruct pc as [|e|e|e|err]; cbn [applyStep].
  - rewrite nextCommittedEntry_wf, go_bind_Ret by done. case_decide as Hd.
    + destruct (entry_at_is_Some n (lastApplied n + 1)) as [e He]; [lia|]. rewrite He.
      eexists _, _, _. split_and!; [done|done| |]; simpl.
      * rewrite (entry_at_index n _ _ Hl He). lia.
      * right. lia.
    + eexists _, _, _. split_and!; try done. right. simpl. lia.
  - destruct (DecodeMembershipChange (le_Command e)) as [[c isC] derr] eqn:Hdec. simpl in Hok.
    assert (Hdone : ∀ x (sm' : SM), ∃ n' sm'' pc', Ret (n, sm', ADone x) = Ret (n', sm'', pc') ∧
      node_wf n' ∧ apply_ok n' pc' ∧ (pc' = AApply e ∨ apply_rank n' pc' < apply_rank n (AApply e))).
    { intros x sm'. eexists _, _, _. split_and!; try done. right. simpl. lia. }
    destruct isC.
    + destruct derr as [x|]; [apply Hdone|].
      destruct (applyCommittedMembershipChange_applied c (le_Index e) n Hwf)
        as (n1 & err & -> & Hwf1 & Hs & Hla); [by eapply Decode_valid|exact Hok|].
      rewrite go_bind_Ret. cbn [fst snd]. eexists _, _, _. split_and!; [done|done|by destruct err|].
      right. unfold apply_rank. rewrite (last_index_proper _ _ Hs), Hla. destruct err; lia.
    + destruct (ApplyStored e sm) as [sm1 [x|]]; [apply Hdone|].
      eexists _, _, _. split_and!; try done. right. simpl. lia.
  - eexists _, _, _. split_and!; try done. right. simpl. lia.
  - destruct (markApplied_next (le_Index e) n Hwf Hok) as (? & Hs & Hla). simpl in Hok.
    eexists _, _, _. split_and!; [done|done|done|]. right.
    unfold apply_rank. rewrite (last_index_proper _ _ Hs), Hla. lia.
  - eexists _, _, _. split_and!; try done. by left.
Qed.

(** What another section does after [k] of them. *)
Lemma applySteps_snoc k pc n sm n1 sm1 pc1 r :
  applySteps k pc n sm = Ret (n1, sm1, pc1) → applyStep pc1 n1 sm1 = Ret r →
  applySteps (S k) pc n sm = Ret r.
Proof.
  revert pc n sm. induction k as [|k IH]; intros pc n sm Hk Hs.
  - cbn in Hk. simplify_eq. cbn. rewrite Hs. by destruct r as [[? ?] ?].
  - cbn [applySteps] in Hk. apply go_bind_inv in Hk as (x & Hx & Hk).
    change (applySteps (S (S k)) pc n sm) with
      (r ← applyStep pc n sm; applySteps (S k) r.2 r.1.1 r.1.2).
    rewrite Hx, go_bind_Ret. by apply IH.
Qed.

(** Undisturbed, a caller is done within its rank. *)
Lemma applySteps_total pc n sm :
  node_wf n → apply_ok n pc →
  ∃ k n' sm' err, Z.of_nat k ≤ apply_rank n pc ∧ applySteps k pc n sm = Ret (n', sm', ADone err).
Proof.
  remember (Z.to_nat (apply_rank n pc)) as k eqn:Hk. revert pc n sm Hk.
  induction (lt_wf k) as [k _ IH]. intros pc n sm -> Hwf Hok.
  pose proof (apply_rank_nonneg n pc Hwf Hok).
  assert ((∃ err, pc = ADone err) ∨ ¬ ∃ err, pc = ADone err) as [[err ->]|Hpc]
    by (destruct pc; naive_solver).
  { exists O, n, sm, err. by split; [simpl|]. }
  destruct (applyStep_returns pc n sm Hwf Hok) as (n1 & sm1 & pc1 & E & Hwf1 & Hok1 & Hr).
  assert (apply_rank n1 pc1 < apply_rank n pc) as Hlt.
  { destruct Hr as [->|]; [|done]. destruct (applyStep_stuck _ _ _ _ _ E) as [err ->]. by destruct Hpc; eauto. }
  pose proof (apply_rank_nonneg n1 pc1 Hwf1 Hok1).
  destruct (IH (Z.to_nat (apply_rank n1 pc1)) ltac:(lia) pc1 n1 sm1 eq_refl Hwf1 Hok1)
    as (k & n' & sm' & err & Hk & Hs).
  exists (S k), n', sm', err. split; [lia|]. cbn [applySteps]. by rewrite E, go_bind_Ret.
Qed.

End apply.
