(* ===== verification/Rounds.v ===== *)
(** * Rounds: replication rounds and proposals with nobody else running

    Every critical section of replicateOnce and of ProposeWithRetryInterval returns,
    is a step of the node or leaves it alone, keeps the invariant and the log, and
    never lowers the commit index; a proposal adds its one entry. *)
From S2P Require Import Prelude GoStrings Types Membership Node NodeInv Election Heartbeat.
From S2P Require Import Proposal NodeStep Replication Applying.

Section rounds.
Context {St : Type} `{!StableStore St} `{!MembershipJSON}.
Abbreviation Node := (RaftNode St).
Implicit Types n m : Node.

(** What a round may do to a node: the log and the applied position stay. *)
Definition advanced n m : Prop := steady n m ∧ m.(lastApplied) = n.(lastApplied).

#[export] Instance advanced_preorder : PreOrder advanced.
Proof.
  split.
  - intros n. split; [reflexivity|done].
  - intros a b c [? Hb] [? Hc]. split; [by etrans|congruence].
Qed.

Lemma advanced_last_index n m : advanced n m → last_index m = last_index n.
Proof. intros [(Hs & _) _]. by rewrite (last_index_proper _ _ Hs). Qed.

(** The operations of a round. *)
Definition round_op (op : nodeOp) : bool :=
  match op with
  | OEnsureLeaderProgress | OStepDown _ | ORecordReplicationSuccess _ _
  | ORecordReplicationFailure _ => true
  | _ => false
  end.

Lemma advanceCommit_applied n m : advanceCommitLocked n = Ret m → m.(lastApplied) = n.(lastApplied).
Proof.
  unfold advanceCommitLocked. split_ifs; [by intros [= ->]|]. apply advanceCommitLoop_applied.
Qed.

Lemma persist_applied n m err : persistLocked n = (m, err) → m.(lastApplied) = n.(lastApplied).
Proof. destruct (persistLocked_eq n) as (s & e & ->). by intros [= <- _]. Qed.

Lemma initLeaderProgress_applied n m :
  initLeaderProgressLocked n = Ret m → m.(lastApplied) = n.(lastApplied).
Proof. by intros ->%advanceCommit_applied. Qed.

Lemma round_op_applied op n m :
  round_op op = true → exec op n = Ret m → m.(lastApplied) = n.(lastApplied).
Proof.
  destruct op; intros Hr; try discriminate Hr; simpl; clear Hr.
  - intros ([n1 e] & Hm & [= <-])%go_bind_inv. unfold RecordReplicationSuccess in Hm.
    destruct (map_get _ _); [|by simplify_eq].
    apply go_bind_inv in Hm as (mi & _ & Hm). apply go_bind_inv in Hm as (ni & _ & Hm).
    apply go_bind_inv in Hm as (n2 & Ha & Hm). simplify_eq. by apply advanceCommit_applied in Ha.
  - intros ([n1 e] & Hm & [= <-])%go_bind_inv. unfold RecordReplicationFailure in Hm.
    destruct (map_get _ _); [|by simplify_eq].
    split_in Hm; simplify_eq; try done. apply go_bind_inv in Hm as (ni & _ & Hm). by simplify_eq.
  - unfold stepDownForHigherTerm. split_ifs; [by intros [= <-]|].
    destruct (persistLocked _) as [n1 e] eqn:Hp. apply persist_applied in Hp. by intros [= <-].
  - unfold ensureLeaderProgress. split_ifs; try (by intros [= <-]); apply initLeaderProgress_applied.
Qed.

Lemma round_op_step op n :
  node_wf n → round_op op = true → op_ok op n →
  ∃ m, exec op n = Ret m ∧ node_wf m ∧ advanced n m.
Proof.
  intros Hwf Hr Hok. destruct (exec_wf op n Hwf Hok) as (m & Hm & Hwfm).
  exists m. split_and!; [done|done|]. split; [|by eapply round_op_applied].
  eapply exec_steady; [|done]. by destruct op.
Qed.

(** ** replicateOnce *)

(** A request that was built from this log reports an index of the log. *)
Definition req_fits n (r : appendRequest) : Prop :=
  0 ≤ aeq_PrevLogIndex (ar_req r) ∧
  aeq_PrevLogIndex (ar_req r) + zlen (aeq_Entries (ar_req r)) ≤ last_index n.

(** Responses carry a uint64. *)
Definition round_ok n (pc : replicatePC) : Prop :=
  match pc with
  | RBuild _ reqs | RWait reqs | RCommitted reqs => Forall (req_fits n) reqs
  | RStepDown r reqs resp => req_fits n r ∧ Forall (req_fits n) reqs ∧ in_u64 (aer_Term resp)
  | RRecord r reqs _ => req_fits n r ∧ Forall (req_fits n) reqs
  | _ => True
  end.

Lemma round_ok_advanced n m pc : advanced n m → round_ok n pc → round_ok m pc.
Proof.
  intros Ha. apply advanced_last_index in Ha as E.
  assert (∀ r, req_fits n r → req_fits m r) as Hr by (intros r; unfold req_fits; by rewrite E).
  assert (∀ l, Forall (req_fits n) l → Forall (req_fits m) l) as Hl
    by (intros l Hf; exact (Forall_impl _ _ _ Hf Hr)).
  destruct pc; simpl; naive_solver.
Qed.

Lemma replicateWait_ok n reqs : Forall (req_fits n) reqs → round_ok n (replicateWait reqs).
Proof. by destruct reqs. Qed.

Lemma BuildAppendEntries_total p n :
  node_wf n → ∃ b, BuildAppendEntries p n = Ret b ∧
    ∀ req, b = inl req → req_fits n (mkAppendRequest p req).
Proof.
  intros Hwf. destruct (map_get n.(nextIndex) p) as [x|] eqn:Hx.
  - destruct (BuildAppendEntries_spec p x n Hwf Hx) as (req & E & _ & _ & Hprev & _ & _ & Hend & _).
    exists (inl req). split; [done|]. intros ? [= <-]. unfold req_fits. simpl.
    pose proof (last_index_ge n (proj1 Hwf)). lia.
  - exists (inr (ErrUnknownPeer p)). unfold BuildAppendEntries. by rewrite Hx.
Qed.

(** A step of a machine: it returns, and what it returns keeps the invariant. *)
Definition returns {PC} (ok : Node → PC → Prop) n (r : go (Node * PC)) : Prop :=
  ∃ m pc, r = Ret (m, pc) ∧ node_wf m ∧ advanced n m ∧ ok m pc.

Lemma returns_here {PC} (ok : Node → PC → Prop) n pc : node_wf n → ok n pc → returns ok n (Ret (n, pc)).
Proof. intros. exists n, pc. by split_and!. Qed.

Lemma replicateStep_returns stop c pc n :
  node_wf n → round_ok n pc → returns round_ok n (replicateStep stop c pc n).
Proof.
  intros Hwf Hok. destruct pc as [| |[|p todo] reqs|reqs|r reqs resp|r reqs resp|reqs|err];
    cbn [replicateStep]; try (by apply returns_here).
  - destruct (round_op_step OEnsureLeaderProgress n Hwf eq_refl I) as (m & Hm & ? & ?).
    simpl in Hm. rewrite Hm, go_bind_Ret. by exists m, RPeers.
  - apply returns_here; [done|]. simpl. done.
  - apply returns_here; [done|]. by apply replicateWait_ok.
  - destruct c; [by apply returns_here|].
    destruct (BuildAppendEntries_total p n Hwf) as ([req|err] & -> & Hreq); rewrite go_bind_Ret;
      apply returns_here; try done.
    simpl. apply Forall_app. split; [done|]. constructor; [by apply Hreq|done].
  - destruct Hok as (Hr & Hp & Ht).
    destruct (round_op_step (OStepDown (aer_Term resp)) n Hwf eq_refl Ht) as (m & Hm & ? & ?).
    simpl in Hm. destruct (stepDownForHigherTerm (aer_Term resp) n) as [m' [sd err]].
    injection Hm as ->. destruct (bool_decide (is_Some err) || sd);
      [by exists m, (RDone err)|]. exists m, (RRecord r reqs resp).
    split; [done|]. split; [done|]. split; [done|].
    by apply (round_ok_advanced n m (RRecord r reqs resp)).
  - destruct Hok as (Hr & Hp).
    assert (Hend : ∀ op, round_op op = true → op_ok op n →
      ∀ b pcf, exec op n = (x ← b; Ret x.1) → (∀ m : Node, advanced n m → round_ok m (pcf m)) →
      returns round_ok n (x ← b; match x.2 with
        | Some err => Ret (x.1, RDone (Some err)) | None => Ret (x.1, pcf x.1) end)).
    { intros op Hop Hopok b pcf Eb Hpcf.
      destruct (round_op_step op n Hwf Hop Hopok) as (m & Hm & ? & ?). rewrite Eb in Hm.
      apply go_bind_inv in Hm as ([m' err] & -> & [= ->]). rewrite go_bind_Ret. cbn [fst snd].
      destruct err as [err|]; [by exists m, (RDone (Some err))|].
      exists m, (pcf m). split_and!; auto. }
    destruct (aer_Success resp).
    + apply (Hend (ORecordReplicationSuccess (ar_peerID r)
        (aeq_PrevLogIndex (ar_req r) ⊕ zlen (aeq_Entries (ar_req r)))) eq_refl) with
        (pcf := λ _, if 0 <? stop then RCommitted reqs else replicateWait reqs); [|done|].
      * destruct Hr. pose proof (zlen_nonneg (aeq_Entries (ar_req r))).
        pose proof (proj1 Hwf) as (_ & _ & ?). simpl. rewrite uadd_small by ulia. lia.
      * intros m Hm. assert (Forall (req_fits m) reqs) by (by apply (round_ok_advanced n m (RWait reqs))).
        destruct (0 <? stop); [done|]. by apply replicateWait_ok.
    + apply (Hend (ORecordReplicationFailure (ar_peerID r)) eq_refl I) with
        (pcf := λ _, replicateWait reqs); [done|].
      intros m Hm. apply replicateWait_ok. by apply (round_ok_advanced n m (RWait reqs)).
  - apply returns_here; [done|]. destruct (isCommitted stop n); [done|]. by apply replicateWait_ok.
Qed.

(** A response that the channel delivers carries a uint64. *)
Definition result_ok (ev : chanEvent AppendEntriesResponse) : Prop :=
  match ev with Result _ (inl resp) => in_u64 (aer_Term resp) | _ => True end.

Lemma take_request_fits n p l r l' :
  take_request p l = Some (r, l') → Forall (req_fits n) l → req_fits n r ∧ Forall (req_fits n) l'.
Proof.
  revert r l'. induction l as [|x l IH]; intros r l' Ht Hl; [done|]. simpl in Ht.
  apply Forall_cons in Hl as [Hx Hl]. case_bool_decide; [by simplify_eq|].
  destruct (take_request p l) as [[r1 l1]|]; [|done]. simplify_eq.
  destruct (IH _ _ eq_refl Hl). split; [done|by constructor].
Qed.

Lemma replicateRecv_ok n pc ev : round_ok n pc → result_ok ev → round_ok n (replicateRecv pc ev).
Proof.
  intros Hok Hev. destruct pc; try done. simpl. destruct ev as [c|p r]; [done|].
  destruct (take_request p pending) as [[req l]|] eqn:Ht; [|done].
  destruct (take_request_fits n _ _ _ _ Ht Hok).
  destruct r; [done|]. by apply replicateWait_ok.
Qed.

(** ** ProposeWithRetryInterval *)

(** The leader [n0] has appended [command] as [entry], and only rounds have run
    since. *)
Definition added (command : bytes) n0 n (entry : LogEntry) : Prop :=
  n0.(state) = Leader ∧ entry = local_entry n0 command ∧
  ∃ n1, AppendLocal command n0 = Ret (n1, (entry, None)) ∧ advanced n1 n.

Definition propose_ok (command : bytes) n0 n (pc : proposePC) : Prop :=
  match pc with
  | PStart | PState => n = n0
  | PAppend => n = n0 ∧ n0.(state) = Leader
  | PCommitted e | PLeader e | PCommitted2 e | PTimer e => added command n0 n e
  | PReplicate e pc => added command n0 n e ∧ round_ok n pc
  | PDone e None => added command n0 n e ∧ le_Index e ≤ n.(commitIndex)
  | PDone e (Some _) => n = n0 ∨ n0.(state) = Leader
  end.

Lemma added_advanced command n0 n m e : added command n0 n e → advanced n m → added command n0 m e.
Proof. intros (? & ? & n1 & ? & ?) ?. split_and!; [done|done|]. exists n1. split; [done|by etrans]. Qed.

(** The entry is the last one of the log, and nothing of the log before it changed. *)
Lemma added_log command n0 n e :
  node_wf n0 → last_index n0 < two64 - 2 → added command n0 n e →
  last_index n = last_index n0 + 1 ∧ le_Index e = last_index n ∧ entry_at n (last_index n) = Some e ∧
  le_Command e = command ∧ le_Term e = n0.(currentTerm) ∧
  n.(lastApplied) = n0.(lastApplied) ∧ (∀ i, i ≤ last_index n0 → entry_at n i = entry_at n0 i).
Proof.
  intros Hwf Hb (_ & -> & n1 & Ha & Hadv).
  pose proof (local_entry_index n0 command (proj1 Hwf)) as Hi.
  pose proof (proj1 Hwf) as (_ & ? & _).
  assert (same_log n1 (set_log (n0.(log) ++ [local_entry n0 command]) n0) ∧
          n1.(lastApplied) = n0.(lastApplied)) as [Hs Hla].
  { destruct (AppendLocal_cases command n0 Hwf Hb) as [[x E]|(c & r & s & err & E & _)];
      rewrite E in Ha; by simplify_eq. }
  assert (same_log n (set_log (n0.(log) ++ [local_entry n0 command]) n0)) as Hsn.
  { destruct Hadv as [(? & _) _]. by etrans. }
  assert (last_index n = last_index n0 + 1) as Hl.
  { rewrite (last_index_proper _ _ Hsn). unfold last_index. simpl. rewrite zlen_app, zlen_cons, zlen_nil. lia. }
  assert (Hat : ∀ i, entry_at n i = entry_at (set_log (n0.(log) ++ [local_entry n0 command]) n0) i)
    by (intros i; by rewrite (entry_at_proper _ _ Hsn i i eq_refl)).
  split_and!; try done; [lia| |by destruct Hadv as [_ ->]|].
  - rewrite Hl, Hat. unfold entry_at, last_index. simpl.
    pose proof (zlen_nonneg n0.(log)). rewrite (proj2 (Z.ltb_lt _ _)) by lia.
    rewrite lookup_app_r by (unfold zlen; lia). unfold zlen.
    replace (_ - _)%nat with O by lia. done.
  - intros i Hle. rewrite Hat. unfold entry_at, last_index in *. simpl.
    destruct (Z.ltb_spec n0.(lastIncludedIndex) i); [|done].
    apply lookup_app_l. unfold zlen in *. lia.
Qed.

Lemma proposeStep_returns nil c command n0 n pc :
  node_wf n0 → last_index n0 < two64 - 2 → node_wf n → propose_ok command n0 n pc →
  ∃ m pc', proposeStep nil c command pc n = Ret (m, pc') ∧ node_wf m ∧ propose_ok command n0 m pc'.
Proof.
  intros Hwf0 Hb Hwf Hok.
  assert (Hhere : ∀ pc', propose_ok command n0 n pc' →
    ∃ m pc'', Ret (n, pc') = Ret (m, pc'') ∧ node_wf m ∧ propose_ok command n0 m pc'') by eauto.
  destruct pc as [| | |e|e|e rpc|e|e|e err]; cbn [proposeStep]; try (by apply Hhere).
  - apply Hhere. simpl in Hok. subst. destruct c; simpl; auto.
  - apply Hhere. simpl in Hok. subst. case_bool_decide; simpl; auto.
  - destruct Hok as [-> Hs].
    destruct (AppendLocal_wf command n0 Hwf0 Hb) as (m & [e err] & Ha & Hm). rewrite Ha, go_bind_Ret.
    eexists _, _. split_and!; [done|done|]. destruct err as [err|]; simpl; [by right|].
    split_and!; [done| |exists m; split; [done|reflexivity]].
    destruct (AppendLocal_cases command n0 Hwf0 Hb) as [[x E]|(c' & r & s & err & E & _)];
      rewrite E in Ha; by simplify_eq.
  - apply Hhere. simpl in Hok. destruct (isCommitted (le_Index e) n) eqn:Hc; [|done].
    split; [done|]. unfold isCommitted in Hc. by breflect.
  - apply Hhere. case_bool_decide; [|by right; destruct Hok].
    destruct nil; [by right; destruct Hok|done].
  - destruct Hok as [Hadd Hr].
    assert (∃ m pc', (r ← replicateStep (le_Index e) c rpc n; Ret (r.1, PReplicate e r.2)) =
      Ret (m, pc') ∧ node_wf m ∧ propose_ok command n0 m pc') as Hstep.
    { destruct (replicateStep_returns (le_Index e) c rpc n Hwf Hr) as (m & pc' & -> & ? & ? & ?).
      rewrite go_bind_Ret. eexists _, _. split_and!; [done|done|]. split; [|done].
      by apply (added_advanced command n0 n). }
    destruct rpc as [| | | | | | |[err|]]; try exact Hstep; apply Hhere; [|done].
    right. by destruct Hadd.
  - apply Hhere. simpl in Hok. destruct (isCommitted (le_Index e) n) eqn:Hc; [|done].
    split; [done|]. unfold isCommitted in Hc. by breflect.
Qed.

Definition proposeEvent_ok (ev : proposeEvent) : Prop :=
  match ev with PResult ev => result_ok ev | _ => True end.

Lemma proposeRecv_ok command n0 n pc ev :
  propose_ok command n0 n pc → proposeEvent_ok ev → propose_ok command n0 n (proposeRecv pc ev).
Proof.
  intros Hok Hev. destruct pc as [| | |e|e|e rpc|e|e|e err], ev as [ev| |c]; try done; simpl in *.
  - destruct Hok. split; [done|]. by apply replicateRecv_ok.
  - right. by destruct Hok.
Qed.

End rounds.
