(* ===== verification/Progress.v ===== *)
(** * Progress: a lagging follower is found

    RecordReplicationFailure moves a peer's next index back by one, never past
    the leader's snapshot. Exchanges of requests and answers between a leader and one
    follower, one after the other, reach the last position at which their logs agree
    if the leader still has it, and the request built there is accepted. *)
From S2P Require Import Prelude GoStrings Types Membership Node NodeInv Election Heartbeat.
From S2P Require Import Proposal NodeStep Replication.

Section progress.
Context {St : Type} `{!StableStore St} `{!MembershipJSON}.
Abbreviation Node := (RaftNode St).
Implicit Types n : Node.

(** [n'] is [n] with the next index of [p] set to [x]. *)
Definition next_moved p x n (n' : Node) : Prop :=
  node_wf n' ∧ map_get n'.(nextIndex) p = Some x ∧ n'.(log) = n.(log) ∧
  n'.(lastIncludedIndex) = n.(lastIncludedIndex) ∧
  n'.(lastIncludedTerm) = n.(lastIncludedTerm) ∧ n'.(currentTerm) = n.(currentTerm) ∧
  n'.(nodeID) = n.(nodeID) ∧ n'.(commitIndex) = n.(commitIndex) ∧
  n'.(matchIndex) = n.(matchIndex) ∧
  (∀ q, q ≠ p → map_get n'.(nextIndex) q = map_get n.(nextIndex) q).

Lemma RecordReplicationFailure_spec p x n :
  node_wf n → map_get n.(nextIndex) p = Some x →
  ∃ n', RecordReplicationFailure p n = Ret (n', None) ∧
    next_moved p (if decide (n.(lastIncludedIndex) + 1 < x) then x - 1 else x) n n'.
Proof.
  intros Hwf Hx. pose proof Hwf as (Hl & _ & _ & Hp). pose proof Hl as (_ & ? & ?).
  destruct (progress_leader n p x Hp Hx) as (Hs & ni & mi & En & Em & Hni & _ & Hb).
  pose proof (last_index_ge n Hl).
  destruct (RecordReplicationFailure_wf p n Hwf) as (n' & err & E & Hwf').
  rewrite E. unfold RecordReplicationFailure in E. rewrite Hx in E.
  rewrite (uadd_small (lastIncludedIndex n)) in E by ulia.
  case_decide as Hd.
  - rewrite (proj2 (Z.ltb_lt 1 x)), (proj2 (Z.leb_gt _ _)) in E by lia.
    rewrite En in E. simpl in E. rewrite usub_small in E by ulia. simplify_eq.
    eexists. split; [done|]. unfold next_moved. rewrite En. simpl.
    split_and!; try done; [by rewrite lookup_insert_eq|].
    intros q Hq. by rewrite lookup_insert_ne.
  - assert (n' = n ∧ err = None) as [-> ->].
    { split_in E; simplify_eq; try done; lia. }
    eexists. split; [done|]. by split_and!.
Qed.

Lemma next_moved_trans p x y n m n' :
  next_moved p x n m → next_moved p y m n' → next_moved p y n n'.
Proof.
  intros (_ & _ & ? & ? & ? & ? & ? & ? & ? & Ha) (? & ? & ? & ? & ? & ? & ? & ? & ? & Hb).
  unfold next_moved. split_and!; try congruence; try done. intros q Hq. rewrite Hb; auto.
Qed.

Lemma next_moved_log p x n n' : next_moved p x n n' → same_log n' n.
Proof. intros (_ & _ & ? & ? & ? & _). by split_and!. Qed.

(** ** A leader and one follower *)

(** How an exchange ends. *)
Inductive outcome :=
| Accepted
| Rejected
| WriteFailed (e : GoError)
| NotSent.

(** What one round does for the peer [p]: its request is built and sent, the follower
    handles it, and the leader receives and records the answer. An answer whose write
    failed reaches the leader as an error of the call. *)
Definition exchange (p : string) (lead foll : Node) : go (Node * Node * outcome) :=
  x ← runReplicate 2 0 [] (RBuild [p] []) lead;
  match x.2 with
  | RWait (r :: _) =>
      h ← HandleAppendEntries (ar_req r) foll;
      let '(foll, (resp, err)) := h in
      y ← runReplicate 3 0 [Result p (match err with Some e => inr e | None => inl resp end)] x.2 x.1;
      Ret (y.1, foll, match err with
                      | Some e => WriteFailed e
                      | None => if aer_Success resp then Accepted else Rejected
                      end)
  | _ => Ret (x.1, foll, NotSent)
  end.

(** At most [k] of them, until one is not rejected. *)
Fixpoint exchanges (k : nat) (p : string) (lead foll : Node) : go (Node * Node * outcome) :=
  match k with
  | O => Ret (lead, foll, Rejected)
  | S k =>
      r ← exchange p lead foll;
      match r.2 with
      | Rejected => exchanges k p r.1.1 r.1.2
      | _ => Ret r
      end
  end.

(** The follower does not refuse the leader, and their logs agree at a position [q]
    that the leader still has, before the next index [x]. *)
Record converging (p : string) (q x : Z) (lead foll : Node) : Prop := mkConverging {
  cv_lead : node_wf lead;
  cv_foll : log_wf foll;
  cv_next : map_get lead.(nextIndex) p = Some x;
  cv_range : lead.(lastIncludedIndex) ≤ q < x;
  cv_terms : ∀ y, q ≤ y < x → 0 < y → term_at lead y ≠ 0;
  cv_agree : q = 0 ∨ term_at foll q = term_at lead q;
  cv_member : isMemberLocked foll lead.(nodeID) = true;
  cv_term : foll.(currentTerm) ≤ lead.(currentTerm);
}.

(** The follower has the leader's entries after some position from [q] on, and the
    leader knows it. *)
Definition caught_up (p : string) (q x : Z) (lead lead' foll foll' : Node) : Prop :=
  map_get lead'.(matchIndex) p = Some (last_index lead) ∧
  map_get lead'.(nextIndex) p = Some (last_index lead + 1) ∧
  ∃ y, q ≤ y < x ∧ (y = 0 ∨ term_at foll y = term_at lead y) ∧
    ∀ i e, y < i → entry_at lead i = Some e → foll'.(lastIncludedIndex) < i →
      ∃ e', entry_at foll' i = Some e' ∧ le_Term e' = le_Term e.

(** The request for the current next index. *)
Lemma converging_request p q x lead foll :
  converging p q x lead foll →
  ∃ req, BuildAppendEntries p lead = Ret (inl req) ∧ request_wf req ∧ ¬ refused req foll ∧
    aeq_PrevLogIndex req = x - 1 ∧ aeq_PrevLogTerm req = term_at lead (x - 1) ∧
    aeq_Term req = lead.(currentTerm) ∧
    (∀ k, aeq_Entries req !! k = entry_at lead (x + Z.of_nat k)) ∧
    x - 1 + zlen (aeq_Entries req) = last_index lead.
Proof.
  intros [Hwf _ Hx Hr Ht _ Hm Hle].
  destruct (BuildAppendEntries_spec p x lead Hwf Hx) as (req & Hb & E1 & E2 & E3 & E4 & E5 & E6 & _).
  assert (aeq_PrevLogIndex req = x - 1) as Eq by lia. rewrite Eq in *.
  pose proof Hwf as ((_ & ? & ?) & ? & _).
  assert (request_wf req).
  { unfold request_wf. rewrite E1, E4, Eq. split; [done|]. split; [lia|]. split; [lia|].
    intros. apply Ht; lia. }
  exists req. split; [done|]. split; [done|]. split_and!; try done.
  - intros [Hc|Hc]; [rewrite E1 in Hc; lia|]. rewrite E2 in Hc. congruence.
  - intros k. rewrite E5. f_equal. lia.
Qed.

Lemma success_recorded p q x lead foll :
  converging p q x lead foll →
  ∃ lead', RecordReplicationSuccess p (last_index lead) lead = Ret (lead', None) ∧
    map_get lead'.(matchIndex) p = Some (last_index lead) ∧
    map_get lead'.(nextIndex) p = Some (last_index lead + 1).
Proof.
  intros [Hwf _ Hx _ _ _ _ _]. pose proof Hwf as (Hl & Ht & Ho & Hp). pose proof Hl as (_ & ? & ?).
  pose proof (last_index_ge lead Hl).
  destruct (progress_leader lead p x Hp Hx) as (Hs & ni & mi & En & Em & Hni & _ & _).
  unfold RecordReplicationSuccess. rewrite Hx, Em. simpl. rewrite En. simpl.
  rewrite uadd_small by ulia.
  set (m := set_nextIndex _ _).
  destruct (advanceCommit_spec m) as [[E _]|(_ & _ & c & _ & _ & _ & E)]; [exact Hl|exact Ho|..];
    rewrite E; eexists; (split; [reflexivity|]); simpl; by rewrite !lookup_insert_eq.
Qed.

(** The exchange of a round, step by step. *)
Lemma exchange_eq p lead foll req foll' resp err :
  BuildAppendEntries p lead = Ret (inl req) →
  HandleAppendEntries req foll = Ret (foll', (resp, err)) → aer_Term resp ≤ lead.(currentTerm) →
  exchange p lead foll =
  match err with
  | Some e => Ret (lead, foll', WriteFailed e)
  | None =>
      y ← replicateStep 0 None (RRecord (mkAppendRequest p req) [] resp) lead;
      Ret (y.1, foll', if aer_Success resp then Accepted else Rejected)
  end.
Proof.
  intros Hb Hh Ht. unfold exchange. cbn [runReplicate replicateStep]. rewrite Hb, !go_bind_Ret.
  cbn [fst snd runReplicate replicateStep app replicateWait]. rewrite !go_bind_Ret. cbn [fst snd ar_req].
  rewrite Hh, go_bind_Ret. cbn [runReplicate replicateRecv take_request ar_peerID].
  rewrite bool_decide_eq_true_2 by done. destruct err as [e|]; [reflexivity|].
  cbn [replicateStep]. unfold stepDownForHigherTerm. rewrite (proj2 (Z.leb_le _ _)) by done.
  rewrite bool_decide_eq_false_2 by (by intros []). cbn [orb]. rewrite go_bind_Ret. cbn [fst snd].
  change (if aer_Success resp then _ ≫= _ else _ ≫= _)
    with (replicateStep 0 None (RRecord (mkAppendRequest p req) [] resp) lead).
  by destruct (replicateStep 0 None _ lead) as [[m pc]|].
Qed.

(** The only errors of HandleAppendEntries are those of the store. *)
Definition save_error (e : GoError) : Prop := ∃ ps (s : St), (Save ps s).2 = Some e.

Lemma persistLocked_error n n' e : persistLocked n = (n', Some e) → save_error e.
Proof.
  unfold persistLocked. destruct (store n) as [s|]; [|done].
  destruct (Save (persistentOf n) s) as [s' err] eqn:E. intros [= _ ->].
  exists (persistentOf n), s. by rewrite E.
Qed.

Lemma HandleAppendEntries_error req n n' resp e :
  HandleAppendEntries req n = Ret (n', (resp, Some e)) → save_error e.
Proof.
  unfold HandleAppendEntries. destruct (_ <? _); [done|]. destruct (negb _); [done|]. cbv zeta.
  intros ([m [lc err]] & _ & E)%go_bind_inv. revert E.
  destruct err; [destruct (_ <? _); [|done]|destruct (negb _); [done|]];
    match goal with |- context [persistLocked ?x] => destruct (persistLocked x) as [m' err'] eqn:Hp end;
    intros [= _ _ ->]; by eapply persistLocked_error.
Qed.

Lemma adopted_member req (foll : Node) s id :
  isMemberLocked (set_store s (adopted req foll)) id = isMemberLocked foll id.
Proof. unfold isMemberLocked, adopted. by destruct (_ <? _); simpl; destruct (negb _). Qed.

(** One exchange: the follower rejects and the next index moves back by one, towards
    [q]; or it accepts and has caught up; or its write failed. *)
Lemma exchange_spec p q x lead foll :
  converging p q x lead foll →
  ∃ lead' foll' r, exchange p lead foll = Ret (lead', foll', r) ∧
    match r with
    | NotSent => False
    | WriteFailed e => save_error e
    | Accepted => caught_up p q x lead lead' foll foll'
    | Rejected =>
        q < x - 1 ∧ converging p q (x - 1) lead' foll' ∧ next_moved p (x - 1) lead lead' ∧
        same_log foll' foll
    end.
Proof.
  intros Hcv. pose proof Hcv as [Hwf Hlf Hx Hr Hterms Hag Hm Hle].
  destruct (converging_request p q x lead foll Hcv) as (req & Hb & Hrw & Hnr & E1 & E2 & E3 & E4 & E5).
  destruct (HandleAppendEntries_cases req foll Hlf Hrw)
    as [[? _]|[(_ & Hpm & s & err & Hh)|(_ & Hpm & n1 & b & s & err & _ & Hh)]]; [done|..];
    rewrite (exchange_eq _ _ _ _ _ _ _ Hb Hh) by (cbn [aer_Term]; lia);
    (destruct err as [e|];
      [by eexists _, _, (WriteFailed e); split; [|by eapply HandleAppendEntries_error]|]); cbn [replicateStep aer_Success ar_peerID ar_req].
  - (* rejected *)
    assert (q < x - 1) as Hlt.
    { destruct (decide (q = x - 1)) as [->|]; [|lia]. exfalso. apply Hpm. unfold prev_matches.
      rewrite E1, E2. done. }
    destruct (RecordReplicationFailure_spec p x lead Hwf Hx) as (lead' & Ef & Hmv).
    rewrite decide_True in Hmv by lia. rewrite Ef, !go_bind_Ret. cbn [fst snd]. rewrite go_bind_Ret. cbn [fst snd].
    eexists _, _, Rejected. split; [done|].
    pose proof (adopted_same_log req foll) as Hsame. pose proof (next_moved_log _ _ _ _ Hmv) as Hsl.
    pose proof Hmv as (Hwf' & Hx' & _ & Hli & _ & Hct & Hid & _).
    split_and!; [done| |done|exact Hsame]. constructor; try done.
    + change (log_wf (adopted req foll)). by rewrite Hsame.
    + lia.
    + intros y Hy Hpos. rewrite (term_at_proper _ _ Hsl _ _ eq_refl). apply Hterms; lia.
    + rewrite (term_at_proper _ _ Hsl _ _ eq_refl). change (term_at (set_store s (adopted req foll)) q)
        with (term_at (adopted req foll) q). by rewrite (term_at_proper _ _ Hsame _ _ eq_refl).
    + rewrite adopted_member, Hid. done.
    + destruct (adopted_fields req foll) as (_&_&_&_&_&_&_&_&_&_&Ec&_). cbn [set_store currentTerm].
      rewrite Ec, Hct. lia.
  - (* accepted *)
    pose proof Hwf as (Hl & _). pose proof (last_index_ge lead Hl). pose proof Hl as (_ & ? & ?).
    rewrite E1, uadd_small by ulia. rewrite E5.
    destruct (success_recorded p q x lead foll Hcv) as (lead' & Es & Hmi & Hni).
    rewrite Es, !go_bind_Ret. cbn [fst snd]. rewrite go_bind_Ret. cbn [fst snd].
    eexists _, _, Accepted. split; [done|]. split; [done|]. split; [done|].
    exists (x - 1). split; [lia|]. unfold prev_matches in Hpm. rewrite E1, E2 in Hpm. split; [done|].
    intros i e Hi He Hcov.
    destruct (HandleAppendEntries_log req foll _ _ _ Hlf Hrw Hh) as [(_ & _ & Hacc)|[? _]]; [|done].
    destruct Hacc as (Hnew & _ & _ & Eli & _). specialize (E4 (Z.to_nat (i - x))).
    replace (x + Z.of_nat (Z.to_nat (i - x))) with i in E4 by lia. rewrite He in E4.
    destruct (Hnew _ _ E4) as (e' & He' & ? & _); [rewrite <-Eli; lia|]. exists e'. split; [|done].
    rewrite <-He'. f_equal. lia.
Qed.

(** So the exchanges end after at most [x - q] of them. *)
Lemma exchanges_spec k p q x lead foll :
  converging p q x lead foll → Z.of_nat k = x - q →
  ∃ lead' foll' r, exchanges k p lead foll = Ret (lead', foll', r) ∧
    ((∃ e, r = WriteFailed e ∧ save_error e) ∨
     r = Accepted ∧ caught_up p q x lead lead' foll foll').
Proof.
  revert x lead foll. induction k as [|k IH]; intros x lead foll Hcv Hk.
  { pose proof (cv_range _ _ _ _ _ Hcv). lia. }
  cbn [exchanges]. destruct (exchange_spec p q x lead foll Hcv) as (lead1 & foll1 & r & -> & Hr).
  rewrite go_bind_Ret. cbn [fst snd].
  destruct r as [| |e|]; [by eexists _, _, Accepted; split; [|right]|
    |by eexists _, _, (WriteFailed e); split; [|left; exists e]|done].
  destruct Hr as (Hlt & Hcv1 & Hmv & Hsf). pose proof (next_moved_log _ _ _ _ Hmv) as Hsl.
  destruct (IH (x - 1) lead1 foll1 Hcv1) as (lead' & foll' & r & E & Hr); [lia|].
  exists lead', foll', r. split; [done|]. destruct Hr as [?|[? Hc]]; [by left|right]. split; [done|].
  destruct Hc as (Hm & Hn & y & Hy & Ha & He). unfold caught_up.
  rewrite (last_index_proper _ _ Hsl) in Hm, Hn. split_and!; [done|done|].
  exists y. split; [lia|]. rewrite (term_at_proper _ _ Hsf _ _ eq_refl), (term_at_proper _ _ Hsl _ _ eq_refl) in Ha.
  split; [done|]. intros i e Hi Hei. apply (He i e Hi).
  by rewrite (entry_at_proper _ _ Hsl _ _ eq_refl).
Qed.

End progress.
