(* ===== verification/Restart.v ===== *)
(** * Restart: what a crash leaves and a restart finds

    A node rebuilt by NewRaftNode from the store of a node that persisted without
    error has its term, vote, log, snapshot and membership, and starts as a
    follower at the snapshot's position. *)
From S2P Require Import Prelude GoStrings Types Membership Node NodeInv.

Section restart.
Context {St : Type} `{!StableStore St} `{!MembershipJSON}.
Abbreviation Node := (RaftNode St).
Implicit Types n : Node.

Lemma clonePeers_elems l : slice_elems (clonePeers l) = l.
Proof. by destruct l. Qed.

(** The durable part of [r] is that of [n]; [peers0] is the command line's peer
    list, which stands in for an empty stored one. *)
Definition restored_from (peers0 : list string) n (r : Node) : Prop :=
  r.(nodeID) = n.(nodeID) ∧ r.(currentTerm) = n.(currentTerm) ∧ r.(votedFor) = n.(votedFor) ∧
  r.(log) = n.(log) ∧ r.(lastIncludedIndex) = n.(lastIncludedIndex) ∧
  r.(lastIncludedTerm) = n.(lastIncludedTerm) ∧ r.(snapshot) = n.(snapshot) ∧
  r.(selfMember) = n.(selfMember) ∧
  r.(peers) = match n.(peers) with [] => peers0 | _ => n.(peers) end ∧
  r.(membershipConfigured) = true ∧ r.(state) = Follower ∧ r.(leaderID) = "" ∧
  r.(commitIndex) = n.(lastIncludedIndex) ∧ r.(lastApplied) = n.(lastIncludedIndex) ∧
  r.(nextIndex) = None ∧ r.(matchIndex) = None.

Lemma NewRaftNode_restores n peers0 s :
  Load s = inl (persistentOf n) →
  ∃ r, NewRaftNode n.(nodeID) peers0 (Some s) = inl r ∧ r.(store) = Some s ∧
    restored_from peers0 n r.
Proof.
  intros Hl. unfold NewRaftNode. rewrite Hl. eexists. split; [done|].
  unfold restored_from. simpl. rewrite !cloneLog_id.
  destruct (peers n); simpl; by rewrite ?clonePeers_elems.
Qed.

(** What a node takes from its store. *)
Lemma NewRaftNode_durable i ps0 st n :
  NewRaftNode (St:=St) i ps0 (Some st) = inl n →
  ∃ ps, Load st = inl ps ∧ n.(store) = Some st ∧ n.(state) = Follower ∧
    n.(currentTerm) = ps_CurrentTerm ps ∧ n.(log) = ps_Log ps ∧
    n.(lastIncludedIndex) = ps_LastIncludedIndex ps ∧
    n.(lastIncludedTerm) = ps_LastIncludedTerm ps ∧
    n.(commitIndex) = ps_LastIncludedIndex ps ∧ n.(lastApplied) = ps_LastIncludedIndex ps ∧
    n.(nextIndex) = None ∧ n.(matchIndex) = None.
Proof.
  unfold NewRaftNode. destruct (Load st) as [ps|]; [|done]. intros [= <-]. exists ps.
  destruct (ps_Peers ps), (ps_SelfMember ps); cbn; by rewrite cloneLog_id.
Qed.

(** A follower at the position of its snapshot. *)
Lemma restarted_wf n (r : Node) :
  node_wf n → same_log r n → r.(currentTerm) = n.(currentTerm) → r.(state) = Follower →
  r.(commitIndex) = n.(lastIncludedIndex) → r.(lastApplied) = n.(lastIncludedIndex) →
  r.(nextIndex) = None → r.(matchIndex) = None → node_wf r.
Proof.
  intros (Hl & Ht & _) Hs Et Es Ec Ea En Em. pose proof (last_index_ge n Hl).
  pose proof Hs as (_ & Ei & _). unfold node_wf, index_order, progress_ok.
  rewrite Et, Es, Ec, Ea, (last_index_proper _ _ Hs), Ei, En, Em.
  split_and!; try (done || lia). by rewrite Hs.
Qed.

Lemma restored_wf peers0 n r : node_wf n → restored_from peers0 n r → node_wf r.
Proof.
  intros Hwf (_ & Et & _ & El & Ei & Eit & _ & _ & _ & _ & Es & _ & Ec & Ea & En & Em).
  by apply (restarted_wf n).
Qed.

(** A first start: an empty store, or none. *)
Lemma NewRaftNode_fresh_wf id ps0 st n :
  (∀ s, st = Some s → Load s = inl zeroPS) → NewRaftNode id ps0 st = inl n → node_wf n.
Proof.
  intros Hl Hn. unfold NewRaftNode in Hn. destruct st as [s|].
  - rewrite (Hl s eq_refl) in Hn. simplify_eq.
    unfold node_wf, log_wf, index_order, progress_ok, last_index. simpl.
    split_and!; try done; intros; by rewrite ?lookup_nil in *.
  - simplify_eq. unfold node_wf, log_wf, index_order, progress_ok, last_index. simpl.
    split_and!; try done; intros; by rewrite ?lookup_nil in *.
Qed.

Context (storable : PersistentState → Prop) `{!StableStoreLaws St storable}.

Lemma persist_then_restart n n' s peers0 :
  n.(store) = Some s → storable (persistentOf n) → persistLocked n = (n', None) →
  ∃ s' r, n'.(store) = Some s' ∧ NewRaftNode n.(nodeID) peers0 (Some s') = inl r ∧
    r.(store) = Some s' ∧ restored_from peers0 n r.
Proof using All.
  intros Hst Hok Hp. unfold persistLocked in Hp. rewrite Hst in Hp.
  destruct (Save (persistentOf n) s) as [s' err] eqn:Hs. simplify_eq.
  destruct (NewRaftNode_restores n peers0 s') as (r & ? & ? & ?); [by eapply Save_ok|].
  by exists s', r.
Qed.

(** A persist that fails leaves the store as it was: the restart finds the node
    as it was last persisted. *)
Lemma failed_persist_restart n n' s old peers0 e :
  n.(store) = Some s → Load s = inl (persistentOf old) → old.(nodeID) = n.(nodeID) →
  persistLocked n = (n', Some e) →
  ∃ s' r, n'.(store) = Some s' ∧ NewRaftNode n.(nodeID) peers0 (Some s') = inl r ∧
    restored_from peers0 old r.
Proof using All.
  intros Hst Hl Hid Hp. unfold persistLocked in Hp. rewrite Hst in Hp.
  destruct (Save (persistentOf n) s) as [s' err] eqn:Hs. simplify_eq.
  destruct (NewRaftNode_restores old peers0 s') as (r & ? & ? & ?).
  { by rewrite (Save_err _ _ _ _ Hs). }
  exists s', r. by rewrite <-Hid.
Qed.

End restart.
