(* ===== verification/RaftSim.v ===== *)
(** * RaftSim: the nodes refine the specification of the logs

    A simulation: each step of the cluster of Raft.v is matched by steps of
    RaftSpec.v that keep [rel]. *)
From S2P Require Import Prelude GoStrings Types Membership Node NodeInv Election Heartbeat.
From S2P Require Import Proposal NodeStep NodeFrame Cluster Replication Restart.
From S2P Require Import RaftSpec RaftCommit FullLog Raft.

Section sim.
Context {St : Type} `{!StableStore St} `{MJ : !MembershipJSON}.
Context (storable : PersistentState → Prop) `{!StableStoreLaws St storable}.
Context (members : list string).
Hypothesis members_named : "" ∉ members.
Hypothesis members_distinct : NoDup members.
Abbreviation Node := (RaftNode St).
Abbreviation Net := (Net (St := St)).
Abbreviation Spec := (Spec (E := LogEntry)).
Abbreviation spec_step := (spec_step le_Term members).
Abbreviation spec_inv := (spec_inv le_Term members).
Abbreviation certified := (certified le_Term members).
Abbreviation committed := (committed le_Term members).
Abbreviation history_le := (history_le le_Term).
Abbreviation cluster_inv := (cluster_inv members).
Abbreviation node_rel := (node_rel members).
Abbreviation sent_ok := (sent_ok members).
Abbreviation reply_ok := (reply_ok members).
Abbreviation rel := (rel members).
Implicit Types (n : Node) (s : Spec) (c : Net).

(** ** Facts that a longer history keeps *)

Lemma lead_history s s' t :
  history_le s s' → is_Some (sp_lead s !! t) → is_Some (sp_lead s' !! t).
Proof. intros (Hg & _) [[k L] HL]. destruct (Hg _ _ _ HL) as (r & -> & _). done. Qed.

Lemma sent_ok_history s s' req : history_le s s' → sent_ok s req → sent_ok s' req.
Proof.
  intros Hle [(L & HL & Hseg & Hpt & Hc) ? ? ? ?]. constructor; try done.
  destruct (proj1 Hle _ _ _ HL) as (r & HL' & _). exists (L ++ r).
  pose proof Hseg as [Hp Hes]. split_and!; [done| | |].
  - split; [rewrite length_app; lia|]. rewrite drop_app_le by done. by apply prefix_app_r.
  - rewrite Hpt. destruct (Z.to_nat _) as [|q]; [done|]. cbn. by rewrite lookup_app_l by lia.
  - apply (certified_log _ _ _ L); [|by eapply certified_history].
    apply take_prefix_eq; [|by exists r].
    apply segment_length in Hseg. unfold zlen in *. lia.
Qed.

Lemma reply_ok_history s s' x : history_le s s' → reply_ok s x → reply_ok s' x.
Proof.
  destruct x as [[p req] resp]. intros Hle [Hs Ha]. split; [by eapply sent_ok_history|].
  intros Hr. apply Hle. by apply Ha.
Qed.

Lemma answer_ok_history s s' x : history_le s s' → answer_ok s x → answer_ok s' x.
Proof.
  destruct x as [[v req] resp]. intros Hle Ha Hg.
  destruct (Ha Hg) as [?|(l & Hv & Hf)]; [left; by eapply lead_history|right].
  exists l. split; [by apply Hle|done].
Qed.

Lemma self_ok_history s s' i t :
  history_le s s' → sp_log s' i = sp_log s i → self_ok s i t → self_ok s' i t.
Proof.
  intros Hle El [?|Hv]; [left; by eapply lead_history|right]. rewrite El. by apply Hle.
Qed.

Lemma asked_ok_same s s' req :
  sp_log s' (rvq_CandidateID req) = sp_log s (rvq_CandidateID req) →
  asked_ok s req → asked_ok s' req.
Proof. unfold asked_ok. by intros ->. Qed.

(** ** One node moved *)

(** The specification went on from [s] to [s'] at node [i]. *)
Record spec_at (i : string) s s' : Prop := mkSpecAt {
  sa_history : history_le s s';
  sa_logs : ∀ j, j ≠ i → sp_log s' j = sp_log s j;
  sa_terms : ∀ j, j ≠ i → sp_term s' j = sp_term s j;
  sa_leads : ∀ t k L, k ≠ i → sp_lead s !! t = Some (k, L) → sp_lead s' !! t = Some (k, L);
}.

#[export] Instance spec_at_preorder i : PreOrder (spec_at i).
Proof.
  split.
  - intros s. constructor; done.
  - intros a b d [? Hl1 Ht1 ?] [? Hl2 Ht2 ?]. constructor; [by etrans| | |by eauto].
    + intros j Hj. by rewrite Hl2, Hl1.
    + intros j Hj. by rewrite Ht2, Ht1.
Qed.

Lemma tracked_history s s' n : history_le s s' → tracked s n → tracked s' n.
Proof.
  intros Hle Ht p m Hm Hpos. destruct (Ht p m Hm Hpos) as (j & ? & ?). exists j. split; [done|].
  by apply Hle.
Qed.

(** The other nodes do not notice. *)
Lemma node_rel_other i j s s' n :
  spec_at i s s' → j ≠ i → node_rel s j n → node_rel s' j n.
Proof.
  intros [Hle Hlog Hterm Hlead] Hj [? ? ? ? ? ? Hl]. constructor; try done.
  - by rewrite Hlog.
  - by rewrite Hterm.
  - rewrite Hlog by done. by eapply certified_history.
  - intros Hs. destruct (Hl Hs) as (HL & Ha & Ht). unfold leading. rewrite Hlog by done.
    split_and!; [by apply Hlead|by apply Hle|by eapply tracked_history].
Qed.

(** Term and role of node [i] around a step. *)
Definition role_le s s' (i : string) n (n' : Node) : Prop :=
  n.(currentTerm) ≤ n'.(currentTerm) ∧
  (n'.(state) = Candidate → n'.(currentTerm) = n.(currentTerm) →
     n.(state) = Candidate ∧ sp_log s' i = sp_log s i).

(** What the step added to the history of the cluster. *)
Record added (i : string) (n' : Node) s s' c (c' : Net) : Prop := mkAdded {
  ad_elected : ∀ t k, (t, k) ∈ c'.(core).(elected) ↔ ∃ L, sp_lead s' !! t = Some (k, L);
  ad_promoted : ∀ t k, (t, k) ∈ c'.(core).(elected) →
    (t, k) ∈ c.(core).(elected) ∨ (k = i ∧ t = n'.(currentTerm) ∧ n'.(state) ≠ Candidate);
  ad_answers : ∀ x, x ∈ c'.(core).(answers) → x ∈ c.(core).(answers) ∨ answer_ok s' x;
  ad_self : ∀ j t, (j, t) ∈ c'.(core).(selfVotes) →
    (j, t) ∈ c.(core).(selfVotes) ∨ (j = i ∧ t = n'.(currentTerm) ∧ self_ok s' i t);
  ad_asked : ∀ req, req ∈ c'.(core).(asked) →
    req ∈ c.(core).(asked) ∨
    (rvq_CandidateID req = i ∧ rvq_Term req = n'.(currentTerm) ∧ asked_ok s' req);
  ad_leads : ∀ t k L, sp_lead s' !! t = Some (k, L) →
    sp_lead s !! t = Some (k, L) ∨ L = sp_log s' i;
  ad_sent : ∀ p req, (p, req) ∈ c'.(sent) → (p, req) ∈ c.(sent) ∨ sent_ok s' req;
  ad_replies : ∀ x, x ∈ c'.(replies) → x ∈ c.(replies) ∨ reply_ok s' x;
}.

Lemma rel_update i n n' s s' c c' :
  rel c s → node_at c i = Some n → c'.(core).(nodes) = <[i := n']> c.(core).(nodes) →
  spec_at i s s' → node_rel s' i n' → role_le s s' i n n' → added i n' s s' c c' → rel c' s'.
Proof.
  intros R Hn Hnodes Hat Hni [Hterm Hrole] A. pose proof (sa_history _ _ _ Hat) as Hle.
  assert (Hget : ∀ j m, node_at c' j = Some m → (j = i ∧ m = n') ∨ (j ≠ i ∧ node_at c j = Some m)).
  { intros j m. unfold node_at. rewrite Hnodes, lookup_insert_Some. naive_solver. }
  constructor.
  - intros j m [[-> ->]|[Hj Hm]]%Hget; [done|].
    apply (node_rel_other i j s); [done|done|]. by apply (r_nodes _ _ _ R).
  - apply (ad_elected _ _ _ _ _ _ A).
  - intros t k m Hin Hm.
    destruct (ad_promoted _ _ _ _ _ _ A t k Hin) as [Hold|(-> & -> & Hs)];
      apply Hget in Hm as [[Ej ->]|[Hj Hm]]; try done.
    + subst k. destruct (r_once _ _ _ R t i n Hold Hn) as [Ht Hc]. split; [lia|].
      intros Et Hs. destruct (Hrole Hs ltac:(lia)) as [Hs' _]. apply Hc; [lia|done].
    + by apply (r_once _ _ _ R t k m).
  - intros x Hx. destruct (ad_answers _ _ _ _ _ _ A x Hx) as [Hold|?]; [|done].
    eapply answer_ok_history; [done|]. by apply (r_answers _ _ _ R).
  - intros j t m Hin Hm.
    destruct (ad_self _ _ _ _ _ _ A j t Hin) as [Hold|(-> & -> & Hs)];
      apply Hget in Hm as [[Ej ->]|[Hj Hm]]; try done.
    + subst j. destruct (r_self _ _ _ R i t n Hold Hn) as [Ht Hc]. split; [lia|].
      intros Hs Et. destruct (Hrole Hs ltac:(lia)) as [Hs' El].
      eapply self_ok_history; [done|done|]. apply Hc; [done|lia].
    + destruct (r_self _ _ _ R j t m Hold Hm) as [Ht Hc]. split; [done|].
      intros Hs Et. eapply self_ok_history; [done|by apply (sa_logs _ _ _ Hat)|auto].
  - intros req m Hin Hm.
    destruct (ad_asked _ _ _ _ _ _ A req Hin) as [Hold|(Ei & Et & Ha)].
    + apply Hget in Hm as [[Ei ->]|[Hj Hm]].
      * rewrite <-Ei in Hn. destruct (r_asked _ _ _ R req n Hold Hn) as [Ht Hc]. split; [lia|].
        intros Hs Et. destruct (Hrole Hs ltac:(lia)) as [Hs' El].
        eapply asked_ok_same; [by rewrite Ei|]. apply Hc; [done|lia].
      * destruct (r_asked _ _ _ R req m Hold Hm) as [Ht Hc]. split; [done|].
        intros Hs Et. eapply asked_ok_same; [by apply (sa_logs _ _ _ Hat)|auto].
    + apply Hget in Hm as [[_ ->]|[Hj _]]; [|by rewrite Ei in Hj]. split; [lia|done].
  - intros t k L HL. destruct (ad_leads _ _ _ _ _ _ A t k L HL) as [Hold| ->].
    + by apply (r_indexed _ _ _ R t k).
    + apply (nr_full _ _ _ _ Hni).
  - intros p req Hin. destruct (ad_sent _ _ _ _ _ _ A p req Hin) as [Hold|?]; [|done].
    eapply sent_ok_history; [done|]. by eapply (r_sent _ _ _ R).
  - intros x Hx. destruct (ad_replies _ _ _ _ _ _ A x Hx) as [Hold|?]; [|done].
    eapply reply_ok_history; [done|]. by apply (r_replies _ _ _ R).
Qed.

(** Messages are added, no vote and no leader. *)
Lemma added_messages i n' s s' c c' :
  rel c s → sp_lead s' = sp_lead s → c'.(core).(elected) = c.(core).(elected) →
  c'.(core).(selfVotes) = c.(core).(selfVotes) → c'.(core).(asked) = c.(core).(asked) →
  (∀ x, x ∈ c'.(core).(answers) → x ∈ c.(core).(answers) ∨ answer_ok s' x) →
  (∀ p req, (p, req) ∈ c'.(sent) → (p, req) ∈ c.(sent) ∨ sent_ok s' req) →
  (∀ x, x ∈ c'.(replies) → x ∈ c.(replies) ∨ reply_ok s' x) → added i n' s s' c c'.
Proof.
  intros R El E1 E2 E3 ???. constructor; rewrite ?El, ?E1, ?E2, ?E3; try done;
    [apply (r_elected _ _ _ R)|by left..].
Qed.

Lemma added_none i n' s s' c c' :
  rel c s → sp_lead s' = sp_lead s → c'.(core).(elected) = c.(core).(elected) →
  c'.(core).(selfVotes) = c.(core).(selfVotes) → c'.(core).(asked) = c.(core).(asked) →
  c'.(core).(answers) = c.(core).(answers) → c'.(sent) = c.(sent) → c'.(replies) = c.(replies) →
  added i n' s s' c c'.
Proof.
  intros R El E1 E2 E3 E4 E5 E6. apply added_messages; try done; rewrite ?E4, ?E5, ?E6; by left.
Qed.

(** Nodes and history unchanged. *)
Lemma rel_same s c c' :
  rel c s → c'.(core).(nodes) = c.(core).(nodes) → c'.(core).(elected) = c.(core).(elected) →
  c'.(core).(answers) = c.(core).(answers) → c'.(core).(selfVotes) = c.(core).(selfVotes) →
  c'.(core).(asked) = c.(core).(asked) → c'.(sent) = c.(sent) → c'.(replies) = c.(replies) →
  rel c' s.
Proof.
  intros [] E0 E1 E2 E3 E4 E5 E6. unfold node_at in *.
  constructor; unfold node_at; rewrite ?E0, ?E1, ?E2, ?E3, ?E4, ?E5, ?E6; done.
Qed.

(** ** Steps of the specification at one node *)

Lemma spec_at_raise i t s : spec_at i s (raise_term i t s).
Proof.
  constructor; try done.
  - split_and!; try done. by apply grows_same.
  - intros j Hj. cbn. by rewrite upd_ne.
Qed.

Lemma spec_at_step i s s' :
  spec_step s s' → (∀ j, j ≠ i → sp_log s' j = sp_log s j) →
  (∀ j, j ≠ i → sp_term s' j = sp_term s j) →
  (∀ t k L, k ≠ i → sp_lead s !! t = Some (k, L) → sp_lead s' !! t = Some (k, L)) →
  spec_at i s s'.
Proof. intros Hs%spec_step_history ???. by constructor. Qed.

(** ** A leader's commit index *)

Lemma tracked_holder s n p x :
  tracked s n → p ∈ holders n x → 0 < x →
  ∃ j, (Z.to_nat x ≤ j)%nat ∧ (p, n.(currentTerm), j) ∈ sp_acks s.
Proof.
  intros Ht [Hc _]%list_elem_of_filter Hpos.
  destruct (map_get (matchIndex n) p) as [m|] eqn:Hm; cbn in Hc; [|lia].
  destruct (Ht p m Hm ltac:(lia)) as (j & ? & ?). exists j. split; [lia|done].
Qed.

Lemma holders_quorum i n x :
  peers_of members i n.(peers) → n.(selfMember) = true →
  majority (clusterSizeLocked n) ≤ replicatedCount n x → quorum members (i :: holders n x).
Proof using MJ members_distinct.
  intros Hps Hsm Hmaj. rewrite replicatedCount_holders in Hmaj.
  destruct (peers_of_not_self members members_distinct i _ Hps) as [Hni Hnd].
  unfold clusterSizeLocked in Hmaj. rewrite Hsm in Hmaj. split_and!.
  - apply NoDup_cons. split; [|by apply NoDup_filter]. by intros [_ ?]%list_elem_of_filter.
  - intros v. rewrite <-Hps, !elem_of_cons. intros [->|[_ ?]%list_elem_of_filter]; auto.
  - rewrite (peers_of_zlen members i _ Hps), zlen_cons. lia.
Qed.

Lemma advance_certified s i n n' :
  log_wf n → index_order n → full n (sp_log s i) → leading s i n → 0 < n.(currentTerm) →
  peers_of members i n.(peers) →
  certified s (sp_log s i) n.(currentTerm) (Z.to_nat n.(commitIndex)) →
  advanceCommitLocked n = Ret n' →
  certified s (sp_log s i) n'.(currentTerm) (Z.to_nat n'.(commitIndex)).
Proof using MJ members_distinct.
  intros Hl Ho Hf (HL & Ha & Ht) Hpos Hps Hc Hadv.
  destruct (advanceCommit_spec n Hl Ho) as [[E _]|(_ & Hsm & x & Hr & [Hct Hmaj] & _ & E)];
    rewrite E in Hadv; injection Hadv as <-; [done|].
  pose proof Hl as (_ & ? & _). pose proof Ho as (? & ? & _). cbn.
  rewrite (full_last_index n _ Hf) in Hr. unfold zlen in Hr.
  rewrite (full_term_at n _ x Hf) in Hct by lia.
  right. exists (currentTerm n), (Z.to_nat x), i, (sp_log s i). split_and!; try done.
  exists i, (sp_log s i), (i :: holders n x). split_and!; try done; [by apply holders_quorum|].
  intros v [->|Hv]%elem_of_cons.
  - exists (length (sp_log s i)). split; [lia|done].
  - apply tracked_holder; [done|done|lia].
Qed.

Lemma tracked_fields s n n' :
  n'.(matchIndex) = n.(matchIndex) → n'.(currentTerm) = n.(currentTerm) → tracked s n → tracked s n'.
Proof. unfold tracked. by intros -> ->. Qed.

Lemma tracked_init s n :
  tracked s (set_matchIndex (Some (init_map 0 n.(peers))) n).
Proof.
  intros p m. cbn. rewrite init_map_lookup. case_decide; [|done]. intros [= <-]. lia.
Qed.

Lemma advance_matchIndex n n' : log_wf n → index_order n →
  advanceCommitLocked n = Ret n' → n'.(matchIndex) = n.(matchIndex).
Proof.
  intros Hl Ho Ha. destruct (advanceCommit_frame n Hl Ho) as (x & r & E & _).
  rewrite E in Ha. by injection Ha as <-.
Qed.

(** The progress maps set up anew: nothing is acknowledged, nothing committed that
    was not. *)
Lemma init_certified s i n n' :
  log_wf n → index_order n → full n (sp_log s i) → 0 < n.(currentTerm) →
  sp_lead s !! n.(currentTerm) = Some (i, sp_log s i) →
  (i, n.(currentTerm), length (sp_log s i)) ∈ sp_acks s →
  peers_of members i n.(peers) →
  certified s (sp_log s i) n.(currentTerm) (Z.to_nat n.(commitIndex)) →
  initLeaderProgressLocked n = Ret n' →
  certified s (sp_log s i) n'.(currentTerm) (Z.to_nat n'.(commitIndex)) ∧ tracked s n'.
Proof using MJ members_distinct.
  intros Hl Ho Hf Hpos HL Ha Hps Hc Hi. unfold initLeaderProgressLocked in Hi. cbv zeta in Hi.
  set (m := set_matchIndex _ _) in Hi.
  assert (Htr : tracked s m) by apply (tracked_init s (set_nextIndex _ n)).
  split.
  - by apply (advance_certified s i m).
  - apply (tracked_fields s m); [by apply (advance_matchIndex m)| |done].
    by apply advanceCommit_framed in Hi as (_ & [Et _] & _).
Qed.

(** ** Steps that leave the whole log alone *)

Lemma raise_step i t s : sp_term s i ≤ t → spec_step s (raise_term i t s).
Proof. apply SS_term. Qed.

(** Term and role are kept, the role possibly dropped, or the term grows. *)
Definition role_kept n (n' : Node) : Prop :=
  n.(currentTerm) ≤ n'.(currentTerm) ∧
  (n'.(state) ≠ Follower → n'.(state) = n.(state) ∧ n'.(currentTerm) = n.(currentTerm)).

Lemma ballot_role n n' : ballot_le n n' → role_kept n n'.
Proof.
  intros [_ Hb]. split; [destruct Hb as [[[? _] _]|(? & _)]; lia|].
  intros Hs. destruct Hb as [[[? _] [?|?]]|(_ & _ & ?)]; done.
Qed.

Lemma quiet_node s i n n' :
  node_rel s i n → node_wf n' → saved n' → full n' (sp_log s i) → role_kept n n' →
  certified s (sp_log s i) n'.(currentTerm) (Z.to_nat n'.(commitIndex)) →
  (n'.(state) = Leader → tracked s n') →
  let s' := raise_term i n'.(currentTerm) s in
  spec_step s s' ∧ node_rel s' i n' ∧ role_le s s' i n n'.
Proof.
  intros [Hwf _ Ht _ _ Hpos Hlead] Hwf' Hsv Hf [Hle Hkeep] Hc Htr s'.
  split_and!.
  - apply raise_step. lia.
  - constructor; try done.
    + cbn. by rewrite upd_eq.
    + intros Hs. destruct (Hkeep Hs) as [Es ->]. apply Hpos. by rewrite <-Es.
    + intros Hs. destruct Hkeep as [Es Et]; [by rewrite Hs|]. rewrite Es in Hs.
      destruct (Hlead Hs) as (HL & Ha & _). unfold leading. rewrite Et. split_and!; [done|done|].
      apply Htr. by rewrite Es.
  - split; [done|]. intros Hs _. destruct Hkeep as [Es _]; [by rewrite Hs|]. by rewrite <-Es.
Qed.

Lemma certified_term s l T T' (k : nat) : T ≤ T' → certified s l T k → certified s l T' k.
Proof. intros. eapply certified_le; eauto. Qed.

Lemma local_full op n n' F :
  node_wf n → local_op op = true → exec op n = Ret n' → full n F → full n' F.
Proof.
  intros Hwf Hop He Hf. destruct (changes_log op) eqn:Hch.
  - destruct op; try done. cbn in He. apply go_bind_inv in He as ([m e] & Hc & [= <-]).
    pose proof Hwf as (Hl & _ & Ho & _). cbn.
    destruct (Compact_cases snap n Hl Ho) as [[_ E]|[(_ & _ & E)|(Hlt & _ & E)]];
      rewrite E in Hc; injection Hc as Hc; [by subst..|].
    destruct (persistLocked_eq (compacted n snap)) as (st & err & Ep). rewrite Ep in Hc.
    injection Hc as <- _. apply (full_compacted n F snap Hf Ho Hlt).
  - destruct (exec_steady op n n' Hch He) as [Hs _]. by rewrite Hs.
Qed.

Lemma local_commit op n n' :
  node_wf n → local_op op = true → exec op n = Ret n' →
  (n'.(commitIndex) = n.(commitIndex) ∧
   (n'.(state) = Leader → n'.(matchIndex) = n.(matchIndex))) ∨
  (n.(state) = Leader ∧ initLeaderProgressLocked n = Ret n').
Proof.
  intros (Hl & _ & Ho & _) Hop He. destruct op; try done; cbn in He;
    try (apply go_bind_inv in He as ([m e] & Hm & [= <-]); cbn).
  - left. unfold RecordReplicationFailure in Hm. destruct (map_get _ _); [|by simplify_eq].
    split_in Hm; try (by simplify_eq). apply go_bind_inv in Hm as (? & _ & [= <- _]). done.
  - left. destruct (Compact_cases snap n Hl Ho) as [[_ E]|[(_ & _ & E)|(Hlt & _ & E)]];
      rewrite E in Hm; injection Hm as Hm; [by subst..|].
    destruct (persistLocked_eq (compacted n snap)) as (st & err & Ep). rewrite Ep in Hm.
    by injection Hm as <- _.
  - left. injection He as <-. unfold markApplied. by split_ifs.
  - left. injection He as <-. unfold stepDownForHigherTerm. split_ifs; [done|].
    match goal with |- context [persistLocked ?m] =>
      destruct (persistLocked_eq m) as (st & err & ->) end. done.
  - unfold ensureLeaderProgress in He. case_bool_decide as Hs; cbn in He; [|left; by simplify_eq].
    split_in He; [right; done..|left; by simplify_eq].
  - left. by injection He as <-.
Qed.

(** What the cluster's invariant says of a node. *)
Lemma inv_node c i n :
  cluster_inv c.(core) → node_at c i = Some n →
  n.(nodeID) = i ∧ n.(selfMember) = true ∧ peers_of members i n.(peers).
Proof. intros (Hn & _) Hi. by destruct (Hn i n Hi) as (? & ? & ? & _). Qed.

Lemma sim_op c s i n op n' :
  cluster_inv c.(core) → rel c s → node_at c i = Some n → local_op op = true → op_ok op n →
  exec op n = Ret n' → saved n' →
  ∃ s', rtc spec_step s s' ∧ rel (on_core (set_node i n') c) s'.
Proof using MJ members_distinct.
  intros Hinv R Hn Hop Hok He Hsv. pose proof (r_nodes _ _ _ R i n Hn) as Hni.
  pose proof (nr_wf _ _ _ _ Hni) as Hwf. destruct (inv_node c i n Hinv Hn) as (_ & _ & Hps).
  destruct (exec_wf op n Hwf Hok) as (m & Hm & Hwf'). rewrite He in Hm. injection Hm as <-.
  assert (role_kept n n') as Hb.
  { eapply ballot_role, quiet_ballot, bystander_quiet; [|exact He]. by destruct op. }
  pose proof Hb as [Hle Hkeep].
  assert (certified s (sp_log s i) n'.(currentTerm) (Z.to_nat n'.(commitIndex)) ∧
    (n'.(state) = Leader → tracked s n')) as [Hc Ht].
  { destruct (local_commit op n n' Hwf Hop He) as [[Ec Em]|[Hs Hi]].
    - split; [rewrite Ec; eapply certified_term, Hni; done|]. intros Hs.
      destruct Hkeep as [Es Et]; [by rewrite Hs|].
      apply (tracked_fields s n); [auto|done|]. apply (nr_lead _ _ _ _ Hni). congruence.
    - destruct (nr_lead _ _ _ _ Hni Hs) as (HL & Ha & _). pose proof Hwf as (Hl & _ & Ho & _).
      destruct (init_certified s i n n') as [??]; try done; try apply Hni. by rewrite Hs. }
  destruct (quiet_node s i n n' Hni Hwf' Hsv) as (Hstep & Hni' & Hrole); try done.
  { apply (local_full op n n' _ Hwf Hop He), Hni. }
  eexists. split; [by apply rtc_once|].
  eapply (rel_update i n n' s); try done; [apply spec_at_raise|by apply added_none].
Qed.

(** ** Recording an answer *)

Lemma RecordReplicationSuccess_inv p x n n' err :
  RecordReplicationSuccess p x n = Ret (n', err) →
  (n' = n ∧ map_get n.(nextIndex) p = None) ∨
  ∃ y mm nm, map_get n.(nextIndex) p = Some y ∧ n.(matchIndex) = Some mm ∧
    advanceCommitLocked (set_nextIndex nm (set_matchIndex (Some (<[p := x]> mm)) n)) = Ret n'.
Proof.
  unfold RecordReplicationSuccess. destruct (map_get (nextIndex n) p) as [y|] eqn:Hy.
  - intros (m & Hm & (m' & Hm' & (m'' & Ha & [= <- _])%go_bind_inv)%go_bind_inv)%go_bind_inv.
    right. destruct (matchIndex n) as [mm|]; [|done]. injection Hm as <-.
    by exists y, mm, m'.
  - intros [= <- _]. by left.
Qed.

(** A new match index that the peer has acknowledged. *)
Lemma tracked_set s n p x mm j nm :
  tracked s n → n.(matchIndex) = Some mm → x ≤ Z.of_nat j →
  (p, n.(currentTerm), j) ∈ sp_acks s →
  tracked s (set_nextIndex nm (set_matchIndex (Some (<[p := x]> mm)) n)).
Proof.
  intros Ht Em Hx Ha q m. cbn. rewrite lookup_insert. case_decide as Hq; [subst q|].
  - intros [= <-] _. by exists j.
  - intros Hm. apply (Ht q m). by rewrite Em.
Qed.

(** The prefix a reply reports, while its leader leads. *)
Lemma reply_bound c s i n p req resp :
  spec_inv s → rel c s → node_at c i = Some n → n.(state) = Leader →
  (p, req, resp) ∈ c.(replies) → aer_Success resp = true → aeq_Term req = n.(currentTerm) →
  let x := aeq_PrevLogIndex req ⊕ zlen (aeq_Entries req) in
  0 ≤ x ≤ last_index n ∧
  ∃ j, x = Z.of_nat j ∧ (p, n.(currentTerm), j) ∈ sp_acks s.
Proof.
  intros Hsi R Hn Hs Hin Hok Et. pose proof (r_nodes _ _ _ R i n Hn) as Hni.
  destruct (r_replies _ _ _ R _ Hin) as [Hso Hack]. specialize (Hack Hok). rewrite Et in Hack.
  pose proof (so_prev _ _ _ Hso). pose proof (so_bound _ _ _ Hso).
  pose proof (zlen_nonneg (aeq_Entries req)).
  rewrite uadd_small by ulia. rewrite (full_last_index n _ (nr_full _ _ _ _ Hni)).
  destruct (si_acks _ _ _ Hsi _ _ _ Hack) as (_ & k & L & HL & Hlen & _).
  destruct (nr_lead _ _ _ _ Hni Hs) as (HL' & _). rewrite HL in HL'. injection HL' as -> ->.
  unfold zlen in *. split; [lia|]. eexists. split; [|exact Hack]. lia.
Qed.

Lemma sim_success c s i n p req resp n' err :
  cluster_inv c.(core) → spec_inv s → rel c s → node_at c i = Some n →
  (p, req, resp) ∈ c.(replies) → aer_Success resp = true → aeq_Term req = n.(currentTerm) →
  RecordReplicationSuccess p (aeq_PrevLogIndex req ⊕ zlen (aeq_Entries req)) n = Ret (n', err) →
  saved n' → ∃ s', rtc spec_step s s' ∧ rel (on_core (set_node i n') c) s'.
Proof using MJ members_distinct.
  intros Hinv Hsi R Hn Hin Hok Et Hr Hsv. pose proof (r_nodes _ _ _ R i n Hn) as Hni.
  pose proof (nr_wf _ _ _ _ Hni) as Hwf. pose proof Hwf as (Hl & _ & Ho & Hp).
  destruct (inv_node c i n Hinv Hn) as (_ & _ & Hps).
  assert (Hb : role_kept n n') by by eapply ballot_role, quiet_ballot, RecordReplicationSuccess_quiet.
  set (x := _ ⊕ _) in Hr.
  assert (node_wf n' ∧ full n' (sp_log s i) ∧
    certified s (sp_log s i) n'.(currentTerm) (Z.to_nat n'.(commitIndex)) ∧
    (n'.(state) = Leader → tracked s n')) as (Hwf' & Hf & Hc & Ht).
  { destruct (RecordReplicationSuccess_inv _ _ _ _ _ Hr) as [[-> _]|(y & mm & nm & Hy & Em & Ha)].
    { split_and!; try apply Hni. }
    destruct (progress_leader n p y Hp Hy) as (Hs & _).
    destruct (reply_bound c s i n p req resp Hsi R Hn Hs Hin Hok Et) as (Hx & j & Ej & Hack).
    fold x in Hx, Ej.
    destruct (RecordReplicationSuccess_wf p x n Hwf Hx) as (n1 & e1 & E1 & Hwf').
    rewrite Hr in E1. injection E1 as <- <-.
    destruct (nr_lead _ _ _ _ Hni Hs) as (HL & Hself & Htr).
    assert (tracked s (set_nextIndex nm (set_matchIndex (Some (<[p := x]> mm)) n))) as Htr'.
    { apply (tracked_set s n p x mm j); [done|done|lia|done]. }
    split_and!; [done| | |].
    - destruct (exec_steady (ORecordReplicationSuccess p x) n n') as [Hsl _]; [done| |].
      { cbn. by rewrite Hr. }
      rewrite Hsl. apply Hni.
    - eapply (advance_certified s i); [| | | | | | |exact Ha]; try done; try apply Hni.
      cbn. by rewrite Hs.
    - intros _. eapply tracked_fields; [| |exact Htr'].
      + by apply advance_matchIndex.
      + by apply advanceCommit_framed in Ha as (_ & [? _] & _). }
  destruct (quiet_node s i n n' Hni Hwf' Hsv Hf Hb Hc Ht) as (Hstep & Hni' & Hrole).
  eexists. split; [by apply rtc_once|].
  eapply (rel_update i n n' s); try done; [apply spec_at_raise|by apply added_none].
Qed.

(** ** A leader appends *)

Lemma AppendLocal_leader command n n' r :
  n.(state) = Leader → AppendLocal command n = Ret (n', r) →
  n' = n ∨ ∃ m st, advanceCommitLocked (set_log (n.(log) ++ [local_entry n command]) n) = Ret m ∧
    n' = set_store st m.
Proof.
  intros Hs. unfold AppendLocal. destruct (DecodeMembershipChange command) as [[ch ok] err0].
  destruct (if ok then _ else _) as [e|]; [intros [= <- _]; by left|].
  fold (local_entry n (clone_bytes command)). rewrite clone_bytes_id.
  rewrite bool_decide_eq_true_2 by done. intros (m & Hm & Hp)%go_bind_inv. right.
  destruct (persistLocked_eq m) as (st & err & E). rewrite E in Hp. injection Hp as <- _. eauto.
Qed.

Lemma spec_at_append i t e s :
  sp_lead s !! t = Some (i, sp_log s i) → sp_term s i = t → le_Term e = t →
  spec_at i s (lead_append i t e s).
Proof.
  intros HL Ht He. apply spec_at_step; [by apply SS_append|..].
  - intros j Hj. cbn. by rewrite upd_ne.
  - done.
  - intros u k L Hk Hu. cbn. rewrite lookup_insert_ne; [done|]. congruence.
Qed.

Lemma lead_append_lead i t e s u k L :
  sp_lead s !! t = Some (i, sp_log s i) →
  ((∃ L, sp_lead (lead_append i t e s) !! u = Some (k, L)) ↔ ∃ L, sp_lead s !! u = Some (k, L)) ∧
  (sp_lead (lead_append i t e s) !! u = Some (k, L) →
   sp_lead s !! u = Some (k, L) ∨ L = sp_log (lead_append i t e s) i).
Proof.
  intros HL. cbn. rewrite upd_eq. destruct (decide (u = t)) as [->|].
  - rewrite lookup_insert_eq, HL. split; [|intros [= <- <-]; by right].
    split; intros [? [= <- _]]; eauto.
  - rewrite lookup_insert_ne by done. split; [done|by left].
Qed.

(** The leader after its append. *)
Lemma appended_rel s i n e m st :
  node_rel s i n → n.(state) = Leader → last_index n < two64 - 2 → peers_of members i n.(peers) →
  le_Index e = last_index n + 1 → le_Term e = n.(currentTerm) →
  advanceCommitLocked (set_log (n.(log) ++ [e]) n) = Ret m → saved (set_store st m) →
  node_rel (lead_append i n.(currentTerm) e s) i (set_store st m).
Proof using MJ members_distinct.
  intros [Hwf Hf Ht _ Hc Hpos Hlead] Hs Hb Hps Hei Het Hadv Hsv.
  destruct (Hlead Hs) as (HL & Hack & Htr). set (n1 := set_log _ n) in Hadv.
  set (t := n.(currentTerm)) in *. set (s' := lead_append i t e s).
  assert (node_wf n1) as Hwf1 by by apply append_entry_wf.
  rewrite (full_last_index n _ Hf) in Hei.
  assert (sp_log s' i = sp_log s i ++ [e]) as El by (cbn; by rewrite upd_eq).
  assert (history_le s s') as Hh by by apply (spec_at_append i).
  assert (full n1 (sp_log s' i)) as Hf1 by (rewrite El; by apply full_append).
  assert (leading s' i n1) as (HL' & Ha' & Htr').
  { unfold leading. rewrite El. split_and!.
    - cbn. by rewrite lookup_insert_eq.
    - rewrite length_app, Nat.add_1_r. apply elem_of_cons. by left.
    - apply (tracked_fields s' n); [done|done|]. by eapply tracked_history. }
  assert (certified s' (sp_log s' i) t (Z.to_nat n.(commitIndex))) as Hc1.
  { eapply (certified_log _ _ _ (sp_log s i)); [|by eapply certified_history].
    rewrite El. apply take_prefix_eq; [|by exists [e]].
    destruct Hwf as (_ & _ & (_ & _ & Hci) & _). rewrite (full_last_index n _ Hf) in Hci.
    unfold zlen in Hci. lia. }
  destruct (advanceCommit_wf n1 Hwf1) as (m' & E & Hwfm). rewrite Hadv in E. injection E as <-.
  pose proof (advanceCommit_framed _ _ Hadv) as (_ & [Etm _] & _ & _).
  destruct (advanceCommit_steady _ _ Hadv) as (Hsl & _).
  assert (0 < t) as Hpt by (apply Hpos; by rewrite Hs). pose proof Hwf1 as (Hl1 & _ & Ho1 & _).
  constructor; [by apply node_wf_set_store| | |done| | |].
  - change (full m (sp_log s' i)). by rewrite Hsl.
  - change (sp_term s i = m.(currentTerm)). by rewrite Etm.
  - by apply (advance_certified s' i n1 m).
  - intros _. change (0 < m.(currentTerm)). by rewrite Etm.
  - intros _. unfold leading. change (currentTerm (set_store st m)) with (currentTerm m).
    rewrite Etm. split_and!; [done|done|].
    apply (tracked_fields s' n1); [by apply (advance_matchIndex n1 m)|done|done].
Qed.

Lemma sim_propose c s i n command n' r :
  cluster_inv c.(core) → rel c s → node_at c i = Some n → n.(state) = Leader →
  last_index n < two64 - 2 → AppendLocal command n = Ret (n', r) → saved n' →
  ∃ s', rtc spec_step s s' ∧ rel (on_core (set_node i n') c) s'.
Proof using MJ members_distinct.
  intros Hinv R Hn Hs Hb Ha Hsv. pose proof (r_nodes _ _ _ R i n Hn) as Hni.
  pose proof Hni as [(Hl & _) _ Ht _ _ _ Hlead]. destruct (Hlead Hs) as (HL & _).
  destruct (inv_node c i n Hinv Hn) as (_ & _ & Hps).
  destruct (AppendLocal_leader command n n' r Hs Ha) as [->|(m & st & Hadv & ->)].
  { exists s. split; [done|]. eapply rel_same; try done. cbn. by apply insert_id. }
  set (e := local_entry n command) in *. set (t := n.(currentTerm)) in *.
  pose proof (advanceCommit_framed _ _ Hadv) as (_ & [Etm _] & Esm & _).
  exists (lead_append i t e s). split; [apply rtc_once; by apply SS_append|].
  eapply (rel_update i n _ s); try done.
  - by apply spec_at_append.
  - apply appended_rel; try done. by apply local_entry_index.
  - split; cbn; rewrite ?Etm, ?Esm; [done|]. cbn. congruence.
  - constructor; cbn; try (by left).
    + intros u k. rewrite (r_elected _ _ _ R u k). symmetry.
      by apply (lead_append_lead i t e s u k []).
    + intros u k L. by apply lead_append_lead.
Qed.
End sim.
