(* ===== verification/RaftFollow.v ===== *)
(** * RaftFollow: receiving, voting and restarting refine the specification

    The steps of Raft.v in which a node answers a request or comes back from a crash:
    an accepted append request is one [SS_receive] after the term was adopted, a
    granted vote one [SS_vote], and a restart no step at all. *)
From S2P Require Import Prelude GoStrings Types Membership Node NodeInv Election Heartbeat.
From S2P Require Import Proposal NodeStep NodeFrame Cluster Replication Restart.
From S2P Require Import RaftSpec RaftCommit FullLog Raft RaftSim.

Section follow.
Context {St : Type} `{!StableStore St} `{MJ : !MembershipJSON}.
Context (storable : PersistentState → Prop) `{!StableStoreLaws St storable}.
Context (members : list string).
Hypothesis members_named : "" ∉ members.
Hypothesis members_distinct : NoDup members.
Abbreviation Node := (RaftNode St).
Abbreviation Net := (Net (St := St)).
Abbreviation Spec := (Spec (E := LogEntry)).
Abbreviation spec_step := (spec_step le_Term members).
Abbreviation spec_inv := (spec_inv le_Term members).
Abbreviation certified := (certified le_Term members).
Abbreviation committed := (committed le_Term members).
Abbreviation history_le := (history_le le_Term).
Abbreviation cluster_inv := (cluster_inv members).
Abbreviation node_rel := (node_rel members).
Abbreviation sent_ok := (sent_ok members).
Abbreviation reply_ok := (reply_ok members).
Abbreviation rel := (rel members).
Implicit Types (n : Node) (s : Spec) (c : Net).

(** ** Requests *)

Lemma segment_lookup (L : list LogEntry) p es k e :
  segment L p es → es !! k = Some e → L !! (p + k)%nat = Some e.
Proof. intros [_ Hes] Hk. rewrite <-lookup_drop. by eapply prefix_lookup_Some. Qed.

Lemma sent_request_wf s req : spec_inv s → sent_ok s req → request_wf req.
Proof.
  intros Hsi [(L & HL & [Hp _] & Hpt & _) Ht Hprev Hb _]. split_and!; try done.
  intros Hpos. rewrite Hpt. destruct (si_leads _ _ _ Hsi _ _ _ HL) as (_ & Hc & _).
  destruct (Z.to_nat (aeq_PrevLogIndex req)) as [|q] eqn:Eq; [lia|]. cbn.
  destruct (lookup_lt_is_Some_2 L q) as [e He]; [lia|]. rewrite He. cbn.
  destruct (Hc q e He) as (k & L' & HL' & _).
  destruct (si_leads _ _ _ Hsi _ _ _ HL') as (? & _). lia.
Qed.

(** What the receiver knows to be committed, the request has too. *)
Lemma sent_committed s req F T (x k : nat) e :
  spec_inv s → sent_ok s req → certified s F T x → T ≤ aeq_Term req →
  aeq_Entries req !! k = Some e → aeq_PrevLogIndex req + 1 + Z.of_nat k ≤ Z.of_nat x →
  F !! (Z.to_nat (aeq_PrevLogIndex req) + k)%nat = Some e.
Proof.
  intros Hsi [(L & HL & Hseg & _) _ ? _ _] Hc HT Hk Hle.
  destruct (certified_lead _ _ s F T x _ _ L Hsi Hc HT HL) as [E _].
  rewrite (take_eq_lookup x _ F L); [by apply (segment_lookup L _ (aeq_Entries req))|lia|done].
Qed.

Lemma sent_indexed c s req k e :
  rel c s → sent_ok s req → aeq_Entries req !! k = Some e →
  le_Index e = aeq_PrevLogIndex req + 1 + Z.of_nat k.
Proof.
  intros R [(L & HL & Hseg & _) _ ? _ _] Hk.
  rewrite (r_indexed _ _ _ R _ _ L HL _ e (segment_lookup L _ _ k e Hseg Hk)). lia.
Qed.

Lemma sent_agrees s i n req :
  spec_inv s → node_rel s i n → sent_ok s req → n.(currentTerm) ≤ aeq_Term req →
  agrees_committed req n.
Proof.
  intros Hsi Hni Hso HT k e Hk Hc Hcov. pose proof (so_prev _ _ _ Hso). exists e. split; [|done].
  rewrite (full_entry_at n _ _ (nr_full _ _ _ _ Hni)) by done.
  rewrite <-(sent_committed s req _ _ _ k e Hsi Hso (nr_commit _ _ _ _ Hni) HT Hk) by lia.
  f_equal. lia.
Qed.

(** ** Accepting *)

(** What was certified of the receiver's log still is. *)
Lemma receive_certified s v t k L p es T (x : nat) :
  spec_inv s → sp_lead s !! t = Some (k, L) → segment L p es → (p ≤ length (sp_log s v))%nat →
  term_of (sp_log s v) p = term_of L p → certified s (sp_log s v) T x → T ≤ t →
  certified s (merge (sp_log s v) p es) t x ∧
  take (p + length es) (merge (sp_log s v) p es) = take (p + length es) L.
Proof.
  intros Hsi HL Hseg Hp Hpt Hc HT. pose proof (si_logs _ _ _ Hsi v) as Hcl.
  destruct (si_leads _ _ _ Hsi _ _ _ HL) as (_ & HcL & _).
  assert (take p (sp_log s v) = take p L) as Heq.
  { eapply (term_of_match le_Term s); [done|done|done|apply Hseg|done]. }
  destruct (certified_lead _ _ s _ T x t k L Hsi Hc HT HL) as [E Hx]. split.
  - apply (certified_log _ _ _ (sp_log s v)); [|by eapply certified_term].
    rewrite E. symmetry. by eapply merge_keeps.
  - by eapply merge_agrees.
Qed.

Lemma commit_upto_index x n :
  (commit_upto x n).(commitIndex) = n.(commitIndex) ∨ (commit_upto x n).(commitIndex) ≤ x.
Proof. unfold commit_upto. cbv zeta. split_ifs; [right|by left..]. cbn. lia. Qed.

Lemma prev_term s i n req L :
  node_rel s i n → log_wf n → request_wf req → prev_matches req n →
  aeq_PrevLogTerm req = term_of L (Z.to_nat (aeq_PrevLogIndex req)) →
  (Z.to_nat (aeq_PrevLogIndex req) ≤ length (sp_log s i))%nat ∧
  term_of (sp_log s i) (Z.to_nat (aeq_PrevLogIndex req)) =
  term_of L (Z.to_nat (aeq_PrevLogIndex req)).
Proof.
  intros Hni Hl Hreq Hpm Hpt. pose proof (nr_full _ _ _ _ Hni) as Hf.
  destruct (prev_in_range req n Hl Hreq Hpm) as [E|Hr].
  { rewrite E. split; [lia|done]. }
  rewrite (full_last_index n _ Hf) in Hr. pose proof Hl as (_ & ? & _). unfold zlen in Hr.
  split; [lia|]. destruct Hpm as [E|Hpm]; [by rewrite E|].
  rewrite <-Hpt, <-Hpm. symmetry. apply full_term_at; [done|lia].
Qed.

(** A request that changes no entry: the term may be adopted, and the sender learns
    that it failed. *)
Lemma sim_rejected c s p n req resp n' :
  rel c s → node_at c p = Some n → sent_ok s req → aer_Success resp = false →
  node_wf n' → saved n' → same_log n' n → n'.(commitIndex) = n.(commitIndex) → role_kept n n' →
  (n'.(state) = Leader → n' = n) →
  ∃ s', rtc spec_step s s' ∧
    rel (mkNet (set_node p n' c.(core)) c.(sent) ((p, req, resp) :: c.(replies))) s'.
Proof.
  intros R Hn Hso Hr Hwf' Hsv Hsl Ec Hrole Hlead. pose proof (r_nodes _ _ _ R p n Hn) as Hni.
  destruct (quiet_node members s p n n' Hni Hwf' Hsv) as (Hstep & Hni' & Hrl); try done.
  - rewrite Hsl. apply Hni.
  - rewrite Ec. eapply certified_term; [apply Hrole|apply Hni].
  - intros Hs. pose proof (Hlead Hs) as ->. by destruct (nr_lead _ _ _ _ Hni Hs) as (_ & _ & ?).
  - eexists. split; [by apply rtc_once|].
    eapply (rel_update members p n n' s); try done; [apply spec_at_raise|].
    apply added_messages; try done; try (by left). cbn.
    intros x [->|?]%elem_of_cons; [right|by left]. split; [|by rewrite Hr].
    eapply sent_ok_history; [|done]. apply (spec_at_raise p).
Qed.

(** The entries of an accepted request are merged into the whole log. *)
Lemma accepted_full c s p n req n1 b :
  spec_inv s → rel c s → node_rel s p n → sent_ok s req → n.(currentTerm) ≤ aeq_Term req →
  (Z.to_nat (aeq_PrevLogIndex req) ≤ length (sp_log s p))%nat →
  append_outcome (adopted req n) (aeq_PrevLogIndex req + 1) (aeq_Entries req) (Ret (n1, b)) →
  full n1 (merge (sp_log s p) (Z.to_nat (aeq_PrevLogIndex req)) (aeq_Entries req)).
Proof.
  intros Hsi R [Hwf Hf _ _ Hc _ _] Hso HT Hq Hout. pose proof Hwf as (Hl & _ & (? & ? & _) & _).
  pose proof Hl as (_ & ? & _). pose proof (so_prev _ _ _ Hso). pose proof (so_bound _ _ _ Hso).
  eapply (full_merge (adopted req n)); try done.
  - by rewrite adopted_same_log.
  - by rewrite adopted_same_log.
  - split; [done|]. unfold zlen. lia.
  - intros k e Hk. by eapply sent_indexed.
  - intros k e Hk. destruct (adopted_fields req n) as (_&_&_&_&_&_&->&_). intros Hcov.
    exists e. split; [|done]. eapply (sent_committed s req); try done. lia.
Qed.

(** The commit index a follower takes from its leader is certified. *)
Lemma accepted_commit s l n req L (x : nat) :
  sent_ok s req → certified s l (aeq_Term req) (Z.to_nat n.(commitIndex)) →
  x = (Z.to_nat (aeq_PrevLogIndex req) + length (aeq_Entries req))%nat →
  take x l = take x L → certified s L (aeq_Term req) (Z.to_nat (aeq_LeaderCommit req)) →
  certified s l (aeq_Term req) (Z.to_nat (commit_upto (aeq_LeaderCommit req) n).(commitIndex)).
Proof.
  intros Hso Hc Hx Hag HcL. destruct (commit_upto_index (aeq_LeaderCommit req) n) as [-> |Hle]; [done|].
  pose proof (so_commit _ _ _ Hso). pose proof (so_prev _ _ _ Hso).
  apply (certified_log _ _ _ L).
  - symmetry. eapply take_eq_le; [|exact Hag]. unfold zlen in *. lia.
  - eapply (certified_le _ _ _ _ (aeq_Term req)); [|done|exact HcL]. lia.
Qed.

(** An accepted request. *)
Lemma sim_accepted c s p n req resp n1 b st :
  spec_inv s → rel c s → node_at c p = Some n → sent_ok s req →
  ¬ refused req n → prev_matches req n →
  append_outcome (adopted req n) (aeq_PrevLogIndex req + 1) (aeq_Entries req) (Ret (n1, b)) →
  let n' := set_store st (commit_upto (aeq_LeaderCommit req) n1) in
  node_wf n' → saved n' →
  ∃ s', rtc spec_step s s' ∧
    rel (mkNet (set_node p n' c.(core)) c.(sent) ((p, req, resp) :: c.(replies))) s'.
Proof.
  intros Hsi R Hn Hso Hnr Hpm Hout n' Hwf' Hsv. pose proof (r_nodes _ _ _ R p n Hn) as Hni.
  pose proof Hni as [(Hl & _) _ Ht _ Hc _ _].
  pose proof Hso as [(L & HL & Hseg & Hpt & HcL) _ _ _ _].
  set (t := aeq_Term req) in *. set (q := Z.to_nat (aeq_PrevLogIndex req)) in *.
  assert (n.(currentTerm) ≤ t) as HT.
  { destruct (decide (t < n.(currentTerm))); [|lia]. exfalso. apply Hnr. by left. }
  destruct (prev_term s p n req L Hni Hl (sent_request_wf s req Hsi Hso) Hpm Hpt) as [Hq Hqt].
  destruct (receive_certified s p t _ L q (aeq_Entries req) _ _ Hsi HL Hseg Hq Hqt Hc HT)
    as [Hc' Hag].
  set (s1 := raise_term p t s). set (s2 := receive_entries le_Term p t q (aeq_Entries req) s1).
  assert (S1 : spec_step s s1) by (apply SS_term; lia).
  assert (S2 : spec_step s1 s2) by (eapply SS_receive; try done; cbn; by rewrite upd_eq).
  assert (Hsa : spec_at p s s2).
  { etrans; [apply spec_at_raise|]. apply (spec_at_step members _ _ _ S2); try done.
    intros j Hj. cbn. by rewrite upd_ne. }
  assert (sp_log s2 p = merge (sp_log s p) q (aeq_Entries req)) as El by (cbn; by rewrite upd_eq).
  destruct (adopted_fields req n) as (_&_&_&_&Eci&_&_&_&Est&_&Ect&_).
  destruct (append_outcome_frame _ _ _ _ _ Hout) as [l El1].
  destruct (commit_upto_frame (aeq_LeaderCommit req) n1) as (ci & cr & Ecu).
  assert (n'.(currentTerm) = t ∧ n'.(state) = Follower) as [Et' Es'].
  { unfold n'. rewrite Ecu, El1. cbn [set_store set_commitReady set_commitIndex set_log currentTerm state].
    rewrite Ect. split; [lia|done]. }
  exists s2. split; [by eapply rtc_l; [|apply rtc_once]|].
  eapply (rel_update members p n n' s); try done.
  - constructor; try done; try (by rewrite Es').
    + rewrite El. unfold n'. rewrite Ecu. apply (accepted_full c s p n req n1 b); done.
    + rewrite Et'. cbn. by rewrite upd_eq.
    + rewrite Et', El. eapply certified_history; [apply Hsa|].
      eapply (accepted_commit s _ n1 req L); try done. rewrite El1. cbn [set_log commitIndex]. by rewrite Eci.
  - split; [lia|]. by rewrite Es'.
  - apply added_messages; try done; try (by left). cbn.
    intros x [->|?]%elem_of_cons; [right|by left].
    split; [eapply sent_ok_history; [apply Hsa|done]|]. intros _. apply elem_of_cons. by left.
Qed.

Lemma sim_deliver c s p n req n' resp :
  spec_inv s → rel c s → node_at c p = Some n → (p, req) ∈ c.(sent) →
  HandleAppendEntries req n = Ret (n', (resp, None)) → saved n' →
  ∃ s', rtc spec_step s s' ∧
    rel (mkNet (set_node p n' c.(core)) c.(sent) ((p, req, resp) :: c.(replies))) s'.
Proof.
  intros Hsi R Hn Hin Hh Hsv. pose proof (r_nodes _ _ _ R p n Hn) as Hni.
  pose proof (r_sent _ _ _ R p req Hin) as Hso. pose proof (nr_wf _ _ _ _ Hni) as Hwf.
  pose proof (sent_request_wf s req Hsi Hso) as Hreq. pose proof Hwf as (Hl & _).
  assert (Hrole : role_kept n n') by by eapply ballot_role, quiet_ballot, HandleAppendEntries_quiet.
  assert (Hwf' : ¬ refused req n → node_wf n').
  { intros Hnr. destruct (HandleAppendEntries_wf req n Hwf Hreq) as (m & r & Em & Hm).
    - apply (sent_agrees s p); try done. unfold refused in Hnr. lia.
    - rewrite Hh in Em. by injection Em as <- _. }
  destruct (HandleAppendEntries_cases req n Hl Hreq)
    as [[_ E]|[(Hnr & _ & st & err & E)|(Hnr & Hpm & n1 & b & st & err & Hout & E)]];
    rewrite E in Hh; injection Hh as <- <-.
  - by eapply sim_rejected.
  - destruct (adopted_fields req n) as (_&_&_&_&Eci&_&_&_&Est&_&_&_).
    eapply sim_rejected; eauto; [apply (adopted_same_log req n)|].
    cbn [set_store state]. by rewrite Est.
  - eapply sim_accepted; eauto.
Qed.

(** ** Sending *)

Lemma sim_send c s i n p req :
  cluster_inv c.(core) → rel c s → node_at c i = Some n → BuildAppendEntries p n = Ret (inl req) →
  rel (mkNet c.(core) ((p, req) :: c.(sent)) c.(replies)) s.
Proof.
  intros Hinv R Hn Hb. pose proof (r_nodes _ _ _ R i n Hn) as Hni.
  pose proof Hni as [Hwf Hf _ _ Hc _ Hlead]. destruct (inv_node members c i n Hinv Hn) as (Eid & _).
  destruct (full_request p n _ req Hwf Hf Hb) as (Hs & Et & El & Hp & Hpt & Hseg & Hlen & Hci).
  destruct (Hlead Hs) as (HL & _). pose proof Hwf as ((_ & ? & Hli) & Hu & (? & ? & Ho) & _).
  rewrite (full_last_index n _ Hf) in Hli, Ho.
  assert (sent_ok s req).
  { constructor; try lia; [|by rewrite Et]. exists (sp_log s i). rewrite Et, El, Eid, Hci. done. }
  eapply (rel_update members i n n s s); try done.
  - cbn. symmetry. by apply insert_id.
  - apply added_messages; try done; try (by left). cbn.
    intros q r [[= -> ->]|?]%elem_of_cons; [by right|by left].
Qed.

(** ** Restarting *)

Lemma sim_restart c s i n st ps0 n' :
  rel c s → node_at c i = Some n → n.(store) = Some st → NewRaftNode i ps0 (Some st) = inl n' →
  rel (on_core (λ k, set_thread i (EDone false None) (set_node i n' k)) c) s.
Proof.
  intros R Hn Hst Hnew. pose proof (r_nodes _ _ _ R i n Hn) as Hni.
  destruct (NewRaftNode_durable _ _ _ _ Hnew)
    as (ps & Hld & Est & Es & Et & El & Ei & Eit & Ec & Ea & En & Em).
  destruct (nr_saved _ _ _ _ Hni st ps Hst Hld) as (Pt & Pl & Pi & Pit).
  assert (same_log n' n) as Hsl by (split_and!; congruence).
  eapply (rel_update members i n n' s s); try done; [| |by apply added_none].
  - constructor; try (by rewrite Es).
    + apply (restarted_wf n); try congruence. apply Hni.
    + rewrite Hsl. apply Hni.
    + rewrite Et, Pt. apply Hni.
    + intros st' ps'. rewrite Est. intros [= <-]. rewrite Hld. intros [= <-]. by split_and!.
    + rewrite Et, Pt, Ec, Pi. destruct (nr_wf _ _ _ _ Hni) as ((_ & ? & _) & _ & (? & ? & _) & _).
      eapply certified_le; [|done|apply Hni]. lia.
  - split; [rewrite Et, Pt; lia|]. by rewrite Es.
Qed.

(** ** Voting *)

(** Nothing but the votes was added. *)
Lemma node_rel_vote s i n v t : node_rel s i n → node_rel (cast_vote v t s) i n.
Proof.
  intros []. by constructor.
Qed.

Lemma spec_at_vote i t s : spec_at i s (cast_vote i t s).
Proof. constructor; try done. split_and!; [by apply grows_same|done|by right]. Qed.

(** A vote in the history, unless the term has its leader. *)
Definition voted (i : string) (t : Z) s : Spec :=
  match sp_lead s !! t with Some _ => s | None => cast_vote i t s end.

Lemma voted_spec i t s :
  sp_term s i = t →
  rtc spec_step s (voted i t s) ∧ spec_at i s (voted i t s) ∧
  sp_lead (voted i t s) = sp_lead s ∧ sp_log (voted i t s) = sp_log s ∧
  (is_Some (sp_lead s !! t) ∨ (i, t, sp_log s i) ∈ sp_votes (voted i t s)) ∧
  ∀ n, node_rel s i n → node_rel (voted i t s) i n.
Proof.
  intros Ht. unfold voted. destruct (sp_lead s !! t) as [x|] eqn:HL.
  - split_and!; try done. left. by eexists.
  - split_and!; try done.
    + apply rtc_once. by apply SS_vote.
    + apply spec_at_vote.
    + right. apply elem_of_cons. by left.
    + intros n. apply node_rel_vote.
Qed.

Lemma RequestVote_effect req n :
  let n' := (RequestVote req n).1 in
  same_log n' n ∧ n'.(commitIndex) = n.(commitIndex) ∧ role_kept n n' ∧
  (n'.(state) = Leader → n'.(matchIndex) = n.(matchIndex)).
Proof.
  assert (¬ vote_refused req n → n.(currentTerm) ≤ rvq_Term req) as Hle.
  { unfold vote_refused. lia. }
  destruct (RequestVote_cases req n)
    as [[_ ->]|[(Hnr & _ & st & err & -> & _)|(Hnr & _ & st & err & -> & _)]]; cbn;
    [split_and!; done|specialize (Hle Hnr); unfold vote_adopted, role_kept..];
    destruct (Z.ltb_spec (currentTerm n) (rvq_Term req)); cbn; split_and!; done || lia.
Qed.

Lemma answer_fresh s i n req :
  node_rel s i n → vote_granted req n →
  IsLogAtLeastUpToDate (rvq_LastLogIndex req) (rvq_LastLogTerm req)
    (zlen (sp_log s i)) (last_term (sp_log s i)) = true.
Proof.
  intros Hni [_ Hg]. apply IsLogAtLeastUpToDate_spec. pose proof (nr_wf _ _ _ _ Hni) as (Hl & _).
  pose proof (nr_full _ _ _ _ Hni) as Hf.
  by rewrite <-(full_lastLogIndex n _ Hl Hf), <-(full_lastLogTerm n _ Hf).
Qed.

Lemma sim_vote c s i n req n' resp :
  rel c s → node_at c i = Some n → RequestVote req n = (n', (resp, None)) →
  in_u64 (rvq_Term req) → saved n' →
  ∃ s', rtc spec_step s s' ∧
    rel (on_core (λ k, add_answer (i, req, resp) (set_node i n' k)) c) s'.
Proof.
  intros R Hn Hr Hu Hsv. pose proof (r_nodes _ _ _ R i n Hn) as Hni.
  destruct (RequestVote_effect req n) as (Hsl & Ec & Hrole & Hm). rewrite Hr in *.
  cbn [fst] in *. pose proof (RequestVote_wf req n (nr_wf _ _ _ _ Hni) Hu) as Hwf'.
  rewrite Hr in Hwf'. cbn [fst] in Hwf'.
  destruct (quiet_node members s i n n' Hni Hwf' Hsv) as (Hstep & Hni' & Hrl); try done.
  { rewrite Hsl. apply Hni. }
  { rewrite Ec. eapply certified_term; [apply Hrole|apply Hni]. }
  { intros Hs. destruct (proj2 Hrole) as [Es Et]; [by rewrite Hs|].
    apply (tracked_fields s n); [auto|done|]. rewrite Es in Hs.
    by destruct (nr_lead _ _ _ _ Hni Hs) as (_ & _ & ?). }
  set (s1 := raise_term i n'.(currentTerm) s) in *.
  destruct (voted_spec i n'.(currentTerm) s1) as (Hv & Hsa & EL & El & Hin & Hnv).
  { cbn. by rewrite upd_eq. }
  exists (voted i n'.(currentTerm) s1). split; [by eapply rtc_l|].
  eapply (rel_update members i n n' s); try done; [| | |].
  - etrans; [apply spec_at_raise|done].
  - by apply Hnv.
  - unfold role_le. by rewrite El.
  - apply added_messages; try done; try (by left). cbn.
    intros x [->|?]%elem_of_cons; [right|by left]. intros Hg.
    destruct (RequestVote_granted _ _ _ _ _ Hr Hg) as (_ & Hvg & _ & Et & _).
    rewrite <-Et, EL. destruct Hin as [?|Hin]; [by left|right].
    exists (sp_log s i). split; [done|]. by eapply answer_fresh.
Qed.
End follow.
