(* ===== verification/RaftElect.v ===== *)
(** * RaftElect: elections refine the specification, and the simulation

    Becoming a candidate is a term and a vote, a promotion is [SS_elect]: the votes
    counted by the election goroutine are those of the specification, from voters whose
    log was no fresher than the candidate's. With the steps of RaftSim.v and
    RaftFollow.v this is the simulation of RaftSpec.v by the cluster. *)
From S2P Require Import Prelude GoStrings Types Membership Node NodeInv Election Heartbeat.
From S2P Require Import Proposal NodeStep NodeFrame Cluster Replication Restart.
From S2P Require Import RaftSpec RaftCommit FullLog Raft RaftSim RaftFollow.

Section elect.
Context {St : Type} `{!StableStore St} `{MJ : !MembershipJSON}.
Context (storable : PersistentState → Prop) `{!StableStoreLaws St storable}.
Context (members : list string).
Hypothesis members_named : "" ∉ members.
Hypothesis members_distinct : NoDup members.
Abbreviation Node := (RaftNode St).
Abbreviation Net := (Net (St := St)).
Abbreviation Spec := (Spec (E := LogEntry)).
Abbreviation spec_step := (spec_step le_Term members).
Abbreviation spec_inv := (spec_inv le_Term members).
Abbreviation certified := (certified le_Term members).
Abbreviation committed := (committed le_Term members).
Abbreviation history_le := (history_le le_Term).
Abbreviation cluster_inv := (cluster_inv members).
Abbreviation node_rel := (node_rel members).
Abbreviation sent_ok := (sent_ok members).
Abbreviation reply_ok := (reply_ok members).
Abbreviation rel := (rel members).
Implicit Types (n : Node) (s : Spec) (c : Net).

Abbreviation cluster_step := (cluster_step storable members).
Abbreviation raft_step := (raft_step storable members).
Abbreviation raft_init := (raft_init members).

(** ** Candidates *)

Lemma BecomeCandidate_eq n :
  ∃ st err, BecomeCandidate n =
    (set_store st (dropLeadership (set_votedFor n.(nodeID)
       (set_currentTerm (n.(currentTerm) ⊕ 1) (set_state Candidate n)))), err).
Proof.
  unfold BecomeCandidate. cbv zeta.
  match goal with |- context [persistLocked ?m] =>
    destruct (persistLocked_eq m) as (st & err & ->) end. eauto.
Qed.

Lemma sim_candidate c s i n n' err :
  rel c s → node_at c i = Some n → BecomeCandidate n = (n', err) →
  0 ≤ n.(currentTerm) < two64 - 1 → saved n' →
  let pc' := match err with Some e => EDone false (Some e) | None => ESnapshot end in
  ∃ s', rtc spec_step s s' ∧
    rel (on_core (λ k, record_election i ECandidate pc' n' (set_thread i pc' (set_node i n' k))) c) s'.
Proof.
  intros R Hn Hb Ht Hsv pc'. pose proof (r_nodes _ _ _ R i n Hn) as Hni.
  pose proof (BecomeCandidate_wf n (nr_wf _ _ _ _ Hni)) as Hwf'. rewrite Hb in Hwf'.
  destruct (BecomeCandidate_eq n) as (st & e & E). rewrite Hb in E. injection E as En' _.
  assert (n'.(currentTerm) = n.(currentTerm) + 1 ∧ n'.(state) = Candidate ∧ same_log n' n ∧
    n'.(commitIndex) = n.(commitIndex)) as (Et & Es & Hsl & Ec).
  { rewrite En'. cbn. by rewrite uadd_small by ulia. }
  set (t := n'.(currentTerm)) in *. set (s1 := raise_term i t s).
  destruct (voted_spec members i t s1) as (Hv & Hsa & EL & El & Hin & Hnv).
  { cbn. by rewrite upd_eq. }
  exists (voted i t s1). split.
  { eapply rtc_l; [|exact Hv]. apply raise_step. rewrite (nr_term _ _ _ _ Hni). lia. }
  eapply (rel_update members i n n' s); try done.
  - by destruct err.
  - etrans; [apply spec_at_raise|done].
  - apply Hnv. constructor; try done.
    + rewrite Hsl. apply Hni.
    + cbn. by rewrite upd_eq.
    + fold t. rewrite Ec. eapply certified_term; [|apply Hni]. lia.
    + intros _. fold t. lia.
    + by rewrite Es.
  - split; [lia|]. intros _. lia.
  - destruct err as [e'|]; [by apply added_none|].
    constructor; cbn; rewrite ?EL; try (by left).
    + apply (r_elected _ _ _ R).
    + intros j u [[= -> ->]|?]%elem_of_cons; [right|by left]. split_and!; try done.
      destruct Hin; [left; by rewrite EL|right; by rewrite El].
Qed.

Lemma sim_snapshot c s i n n' pc' :
  cluster_inv c.(core) → rel c s → node_at c i = Some n → electionStep ESnapshot n = Ret (n', pc') →
  rel (on_core (λ k, record_election i ESnapshot pc' n' (set_thread i pc' (set_node i n' k))) c) s.
Proof.
  intros Hinv R Hn He. pose proof (r_nodes _ _ _ R i n Hn) as Hni.
  destruct (inv_node members c i n Hinv Hn) as (Eid & _). cbn in He.
  set (req := mkRVQ n.(currentTerm) n.(nodeID) (lastLogIndexLocked n) (lastLogTermLocked n)) in He.
  assert (n' = n ∧ (pc' = EPromote n.(currentTerm) ∨
    ∃ ps pending votes, pc' = voteWait req ps pending votes)) as [-> Hpc].
  { split_in He; simplify_eq; eauto 10. }
  assert (asked_ok s req).
  { unfold asked_ok. cbn. rewrite Eid. pose proof (nr_full _ _ _ _ Hni) as Hf.
    pose proof (nr_wf _ _ _ _ Hni) as (Hl & _).
    by rewrite (full_lastLogIndex n _ Hl Hf), (full_lastLogTerm n _ Hf). }
  eapply (rel_update members i n n s s); try done.
  - by destruct pc'.
  - destruct Hpc as [->|(ps & [|p pending] & votes & ->)]; try by apply added_none.
    constructor; cbn; try (by left); [apply (r_elected _ _ _ R)|].
    intros r [->|?]%elem_of_cons; [right|by left]. by rewrite <-Eid.
Qed.

(** ** Promotion *)

Lemma fresh_refl (l : list LogEntry) : fresh le_Term l l.
Proof. apply IsLogAtLeastUpToDate_spec. right. split; [done|lia]. Qed.

(** A vote that counts is in the history of the specification, of a voter whose log
    was no fresher. *)
Lemma counted_vote c s i n v :
  rel c s → node_at c i = Some n → n.(state) = Candidate →
  sp_lead s !! n.(currentTerm) = None → counted c.(core) v n.(currentTerm) i →
  ∃ l, (v, n.(currentTerm), l) ∈ sp_votes s ∧ fresh le_Term (sp_log s i) l.
Proof.
  intros R Hn Hs Hnone [(req & resp & Hin & Hg & Et & Ei & Hask)|[-> Hself]].
  - destruct (r_answers _ _ _ R _ Hin Hg) as [[x Hx]|(l & Hv & Hf)].
    { by rewrite Et, Hnone in Hx. }
    destruct (r_asked _ _ _ R req n Hask) as [_ Ha]; [by rewrite Ei|].
    destruct (Ha Hs) as [E1 E2]; [done|]. rewrite Ei in E1, E2.
    exists l. rewrite <-Et. split; [done|]. unfold fresh. by rewrite <-E1, <-E2.
  - destruct (r_self _ _ _ R i _ n Hself Hn) as [_ Ho].
    destruct (Ho Hs eq_refl) as [[x Hx]|Hv]; [by rewrite Hnone in Hx|].
    exists (sp_log s i). split; [done|apply fresh_refl].
Qed.

(** A candidate that is promoted is the first leader of its term. *)
Lemma promoted_first c c' s i n :
  rel c s → node_at c i = Some n → n.(state) = Candidate → cluster_inv c'.(core) →
  (∀ x, x ∈ c.(core).(elected) → x ∈ c'.(core).(elected)) → (n.(currentTerm), i) ∈ c'.(core).(elected) →
  sp_lead s !! n.(currentTerm) = None.
Proof.
  intros R Hn Hs Hinv' Hsub Hin. destruct (sp_lead s !! currentTerm n) as [[k L]|] eqn:HL; [|done].
  exfalso. assert ((currentTerm n, k) ∈ c.(core).(elected)) as Hk.
  { apply (r_elected _ _ _ R). eauto. }
  assert (k = i) as -> by (eapply (elected_unique members c'.(core)); eauto).
  by destruct (r_once _ _ _ R _ i n Hk Hn) as [_ []].
Qed.

Lemma promoteCandidate_eq t n n' err :
  promoteCandidate t n = Ret (n', (true, err)) →
  n.(state) = Candidate ∧ n.(currentTerm) = t ∧
  ∃ m st, initLeaderProgressLocked (set_leaderID n.(nodeID) (set_state Leader n)) = Ret m ∧
    n' = set_store st m.
Proof.
  intros Hp. pose proof (promoteCandidate_fields _ _ _ _ _ Hp) as (_ & _ & Hs & Ht & _).
  split_and!; [done|done|]. unfold promoteCandidate in Hp. destruct (_ || _); [done|].
  apply go_bind_inv in Hp as (m & Hm & Hp). destruct (persistLocked_eq m) as (st & e & E).
  rewrite E in Hp. injection Hp as <- _. eauto.
Qed.

Lemma spec_at_lead i t s : sp_lead s !! t = None → spec_at i s (take_lead i t s).
Proof.
  intros Hnone. constructor; try done.
  - split_and!; [|by right|done]. intros u k L HL. exists []. rewrite app_nil_r. cbn.
    rewrite lookup_insert_ne by congruence. split; [done|]. by intros e ?%not_elem_of_nil.
  - intros u k L _ HL. cbn. by rewrite lookup_insert_ne by congruence.
Qed.

Lemma take_lead_lead i t s u k :
  sp_lead s !! t = None →
  (∃ L, sp_lead (take_lead i t s) !! u = Some (k, L)) ↔
  (u = t ∧ k = i) ∨ ∃ L, sp_lead s !! u = Some (k, L).
Proof.
  intros Hnone. cbn. destruct (decide (u = t)) as [->|].
  - rewrite lookup_insert_eq, Hnone. naive_solver.
  - rewrite lookup_insert_ne by done. naive_solver.
Qed.

Lemma promoted_rel s i n n' t err :
  node_rel s i n → peers_of members i n.(peers) → sp_lead s !! t = None →
  promoteCandidate t n = Ret (n', (true, err)) → saved n' → node_rel (take_lead i t s) i n'.
Proof using MJ members_distinct.
  intros [Hwf Hf Ht _ Hc Hpos _] Hps Hnone Hp Hsv.
  destruct (promoteCandidate_wf t n Hwf) as (m0 & r & E & Hwf'). rewrite Hp in E.
  injection E as <- _. destruct (promoteCandidate_eq t n n' err Hp) as (Hs & Et & m & st & Hi & ->).
  pose proof Hwf as (Hl & _ & Ho & _). set (s' := take_lead i t s).
  pose proof (initLeaderProgress_framed _ _ Hi) as (_ & [Etm _] & Esm & _).
  destruct (initLeaderProgress_steady _ _ Hi) as (Hsl & _).
  change (currentTerm m = n.(currentTerm)) in Etm. change (same_log m n) in Hsl.
  assert (0 < n.(currentTerm)) as Hpt by (apply Hpos; by rewrite Hs).
  assert (sp_lead s' !! n.(currentTerm) = Some (i, sp_log s i)) as HL.
  { cbn. by rewrite Et, lookup_insert_eq. }
  assert ((i, n.(currentTerm), length (sp_log s i)) ∈ sp_acks s') as Ha.
  { rewrite Et. apply elem_of_cons. by left. }
  assert (certified s' (sp_log s i) n.(currentTerm) (Z.to_nat n.(commitIndex))) as Hc'.
  { eapply certified_history; [|done]. by apply (spec_at_lead i). }
  destruct (init_certified members members_distinct s' i
    (set_leaderID n.(nodeID) (set_state Leader n)) m) as [Hcm Htr]; try done.
  constructor; try done.
  - change (full m (sp_log s i)). by rewrite Hsl.
  - change (sp_term s i = m.(currentTerm)). by rewrite Etm.
  - intros _. change (0 < m.(currentTerm)). by rewrite Etm.
  - intros _. unfold leading. change (currentTerm (set_store st m)) with (currentTerm m).
    by rewrite Etm.
Qed.

Lemma sim_promote c s i n n' t err :
  cluster_inv c.(core) → rel c s → node_at c i = Some n →
  c.(core).(threads) !! i = Some (EPromote t) → promoteCandidate t n = Ret (n', (true, err)) →
  saved n' →
  let c' := on_core (λ k, record_election i (EPromote t) (EDone true err) n'
              (set_thread i (EDone true err) (set_node i n' k))) c in
  cluster_inv c'.(core) → ∃ s', rtc spec_step s s' ∧ rel c' s'.
Proof using MJ members_distinct.
  intros Hinv R Hn Hth Hp Hsv c' Hinv'. pose proof (r_nodes _ _ _ R i n Hn) as Hni.
  destruct (inv_node members c i n Hinv Hn) as (_ & _ & Hps).
  destruct (promoteCandidate_eq t n n' err Hp) as (Hs & Et & _).
  pose proof (promoteCandidate_fields _ _ _ _ _ Hp) as (_ & [Et' _] & _ & _ & _ & Es').
  assert (sp_lead s !! t = None) as Hnone.
  { rewrite <-Et. eapply (promoted_first c c'); try done; [by right|]. rewrite Et. by left. }
  assert (∃ Q, quorum members Q ∧ ∀ v, v ∈ Q → counted c.(core) v t i) as (Q & HQ & Hall).
  { destruct Hinv as (_ & Hti & _). destruct (Hti i _ Hth) as [Hcv HQ]. apply HQ. by apply (Hcv n). }
  exists (take_lead i t s). split.
  { apply rtc_once. apply (SS_elect _ _ i t Q); try done.
    - rewrite <-Et. apply (nr_pos _ _ _ _ Hni). by rewrite Hs.
    - rewrite <-Et. apply Hni.
    - intros v Hv. specialize (Hall v Hv). rewrite <-Et in *. by eapply counted_vote. }
  eapply (rel_update members i n n' s); try done.
  - by apply spec_at_lead.
  - by eapply promoted_rel.
  - split; [lia|]. by rewrite Es'.
  - constructor; cbn; try (by left).
    + intros u k. rewrite (take_lead_lead i t s u k Hnone), elem_of_cons, (r_elected _ _ _ R u k).
      naive_solver.
    + intros u k [[= -> ->]|?]%elem_of_cons; [right|by left]. by rewrite Et', Et, Es'.
    + intros u k L [[<- [= <- <-]]|[? ?]]%lookup_insert_Some; auto.
Qed.

(** ** One step of an election *)

Lemma rel_thread c s i pc : rel c s → rel (on_core (set_thread i pc) c) s.
Proof. intros R. by apply (rel_same members s c). Qed.

Lemma rel_idle c s i n pc :
  rel c s → node_at c i = Some n → rel (on_core (λ k, set_thread i pc (set_node i n k)) c) s.
Proof. intros R Hn. apply (rel_same members s c); try done. cbn. by apply insert_id. Qed.

Lemma sim_stepDown c s i n t n' r pc :
  cluster_inv c.(core) → rel c s → node_at c i = Some n →
  stepDownForHigherTerm t n = (n', r) → in_u64 n'.(currentTerm) → saved n' →
  ∃ s', rtc spec_step s s' ∧ rel (on_core (λ k, set_thread i pc (set_node i n' k)) c) s'.
Proof using MJ members_distinct.
  intros Hinv R Hn Hsd Hu Hsv. destruct (decide (t ≤ n.(currentTerm))) as [Hle|Hgt].
  - unfold stepDownForHigherTerm in Hsd. rewrite (proj2 (Z.leb_le _ _) Hle) in Hsd.
    injection Hsd as <- _. exists s. split; [done|]. by apply rel_idle.
  - destruct (sim_op members members_distinct c s i n (OStepDown t) n') as (s' & Hs & R');
      try done; [| |by exists s'; split; [|apply (rel_thread _ _ i pc) in R']].
    + cbn. unfold stepDownForHigherTerm in Hsd. rewrite (proj2 (Z.leb_gt _ _)) in Hsd by lia.
      match type of Hsd with context [persistLocked ?m] =>
        destruct (persistLocked_eq m) as (st & e & E) end.
      rewrite E in Hsd. injection Hsd as <- _. exact Hu.
    + cbn. by rewrite Hsd.
Qed.

Lemma sim_election c s i n pc n' pc' :
  cluster_inv c.(core) → rel c s → node_at c i = Some n → c.(core).(threads) !! i = Some pc →
  electionStep pc n = Ret (n', pc') → 0 ≤ n.(currentTerm) < two64 - 1 →
  in_u64 n'.(currentTerm) → saved n' →
  let c' := on_core (λ k, record_election i pc pc' n' (set_thread i pc' (set_node i n' k))) c in
  cluster_inv c'.(core) → ∃ s', rtc spec_step s s' ∧ rel c' s'.
Proof using MJ members_distinct.
  intros Hinv R Hn Hpc He Ht Hu Hsv c' Hinv'.
  assert (Hidle : n' = n → (∀ k, record_election i pc pc' n' k = k) → ∃ s', rtc spec_step s s' ∧ rel c' s').
  { intros -> Hrec. exists s. split; [done|]. unfold c'.
    apply (rel_same members s (on_core (λ k, set_thread i pc' (set_node i n k)) c));
      [by apply rel_idle|unfold on_core; cbn [core]; by rewrite Hrec..]. }
  assert (Hdown : ∀ t r, stepDownForHigherTerm t n = (n', r) →
    (∀ k, record_election i pc pc' n' k = k) → ∃ s', rtc spec_step s s' ∧ rel c' s').
  { intros t r Hsd Hrec.
    destruct (sim_stepDown c s i n t n' r pc' Hinv R Hn Hsd Hu Hsv) as (s' & Hss & R').
    exists s'. split; [done|]. unfold c'.
    apply (rel_same members s' _ _ R'); unfold on_core; cbn [core]; by rewrite Hrec. }
  destruct pc; cbn [electionStep] in He.
  - injection He as <- <-. by apply Hidle.
  - injection He as <- <-. by apply Hidle.
  - assert (n' = n) as En by (cbn in He; split_in He; by simplify_eq). by apply Hidle.
  - injection He as <- <-. by apply Hidle.
  - destruct (stepDownForHigherTerm (pvr_Term resp) n) as [n1 [sd e]] eqn:Hsd.
    assert (n' = n1) as -> by (split_in He; by simplify_eq). by eapply Hdown.
  - destruct (BecomeCandidate n) as [n1 e] eqn:Hb. injection He as <- <-. by eapply sim_candidate.
  - exists s. split; [done|]. by eapply sim_snapshot.
  - injection He as <- <-. by apply Hidle.
  - destruct (stepDownForHigherTerm (rvr_Term resp) n) as [n1 [sd e]] eqn:Hsd.
    assert (n' = n1) as -> by (split_in He; by simplify_eq). by eapply Hdown.
  - assert (n' = n) as En by (split_in He; by simplify_eq). by apply Hidle.
  - apply go_bind_inv in He as ([n1 [[] e]] & Hp & [= <- <-]).
    + by eapply sim_promote.
    + pose proof (promoteCandidate_fields _ _ _ _ _ Hp) as (_ & _ & ->). by apply Hidle.
  - injection He as <- <-. by apply Hidle.
Qed.

(** ** The simulation *)

Lemma raft_step_cluster_inv c c' :
  cluster_inv c.(core) → raft_step c c' → cluster_inv c'.(core).
Proof using All.
  intros Hinv Hc%raft_cluster. revert Hinv. induction Hc; [done|].
  intros Hinv. apply IHHc. by eapply (cluster_step_inv storable members).
Qed.

Lemma raft_step_sim c c' s :
  cluster_inv c.(core) → spec_inv s → rel c s → raft_step c c' →
  ∃ s', rtc spec_step s s' ∧ rel c' s'.
Proof using All.
  intros Hinv Hsi R Hs.
  assert (cluster_inv c'.(core)) as Hinv'.
  { by eapply raft_step_cluster_inv. }
  destruct Hs as [i n req n' resp c Hn Hr Hu [_ Hsv]|i n pc n' pc' c Hn Hpc He Ht Hu [_ Hsv]| | | | | |
    i n st ps0 n' c Hn Hst _ Hnew|i n op n' c Hn Hop Hok He [_ Hsv]|
    i n cmd n' r c Hn Hld Hb Ha [_ Hsv]|i n p req c Hn Hb|p n req n' resp c Hn Hin Hh [_ Hsv]|
    i n p req resp n' err c Hn Hin Hok _ Et Hr [_ Hsv]];
    try (exists s; split; [done|by apply rel_thread]).
  - by eapply sim_vote.
  - by eapply sim_election.
  - exists s. split; [done|]. by eapply sim_restart.
  - by eapply sim_op.
  - by eapply sim_propose.
  - exists s. split; [done|]. by eapply sim_send.
  - by eapply sim_deliver.
  - by eapply sim_success.
Qed.

(** The specification's empty history. *)
Definition spec0 : Spec := mkSpec (λ _, []) (λ _, 0) ∅ [] [].

Lemma spec0_init : spec_init spec0.
Proof. done. Qed.

Lemma fresh_node_rel i ps st n :
  NewRaftNode i ps st = inl n → (∀ d, st = Some d → Load d = inl zeroPS) → node_rel spec0 i n.
Proof.
  intros Hnew Hld. pose proof (NewRaftNode_fresh_wf i ps st n Hld Hnew) as Hwf.
  assert (n.(log) = [] ∧ n.(lastIncludedIndex) = 0 ∧ n.(lastIncludedTerm) = 0 ∧
    n.(currentTerm) = 0 ∧ n.(commitIndex) = 0 ∧ n.(state) = Follower ∧ n.(store) = st)
    as (El & Ei & Eit & Et & Ec & Es & Est).
  { unfold NewRaftNode in Hnew. destruct st as [d|]; [rewrite (Hld d eq_refl) in Hnew|]; by simplify_eq. }
  constructor; try done; rewrite ?Es, ?Ec; try done.
  - unfold full. rewrite Ei, Eit, El. split_and!; try done.
  - intros d ps0. rewrite Est. intros Hd. rewrite (Hld d Hd). intros [= <-]. by rewrite El, Ei, Eit, Et.
  - by left.
Qed.

Lemma raft_init_rel c : raft_init c → rel c spec0.
Proof.
  intros ((Hn & _ & Ha & Hs & He & Hk) & Hsent & Hrep).
  constructor; rewrite ?Ha, ?Hs, ?He, ?Hk, ?Hsent, ?Hrep;
    try (intros * ?%not_elem_of_nil; done); try (intros * []%not_elem_of_nil).
  - intros i n Hi. destruct (Hn i n Hi) as (ps & st & _ & Hnew & Hld). by eapply fresh_node_rel.
  - intros t k. cbn. rewrite lookup_empty. split; [by intros ?%not_elem_of_nil|by intros []].
  - intros t k L. cbn. by rewrite lookup_empty.
Qed.

Lemma raft_steps_sim c c' s :
  cluster_inv c.(core) → spec_inv s → rel c s → rtc raft_step c c' →
  ∃ s', rtc spec_step s s' ∧ spec_inv s' ∧ rel c' s'.
Proof using All.
  intros Hinv Hsi R Hr. revert s Hinv Hsi R.
  induction Hr as [c|c d c' Hstep _ IH]; intros s Hinv Hsi R; [by exists s|].
  destruct (raft_step_sim c d s Hinv Hsi R Hstep) as (s1 & Hs1 & R1).
  destruct (IH s1) as (s' & Hs' & Hsi' & R'); [by eapply raft_step_cluster_inv| |done|].
  - by eapply spec_steps_inv.
  - exists s'. split_and!; [by etrans|done|done].
Qed.

(** Every reachable cluster stands for a reachable state of the specification. *)
Lemma raft_reachable c0 c :
  raft_init c0 → rtc raft_step c0 c →
  cluster_inv c.(core) ∧ ∃ s, rtc spec_step spec0 s ∧ spec_inv s ∧ rel c s.
Proof using All.
  intros Hi Hr. split.
  { eapply (cluster_reachable_inv storable members); [done|done|apply Hi|].
    by apply raft_cluster_steps. }
  apply (raft_steps_sim c0 c spec0); [|apply spec_init_inv, spec0_init|by apply raft_init_rel|done].
  apply (cluster_init_inv members), Hi.
Qed.

(** The same for two moments of one execution: the second history extends the first. *)
Lemma raft_reachable_later c0 c c' :
  raft_init c0 → rtc raft_step c0 c → rtc raft_step c c' →
  ∃ s s', rel c s ∧ rel c' s' ∧ spec_inv s' ∧ history_le s s'.
Proof using All.
  intros Hi Hr Hr'. destruct (raft_reachable c0 c Hi Hr) as (Hinv & s & _ & Hsi & R).
  destruct (raft_steps_sim c c' s Hinv Hsi R Hr') as (s' & Hs & Hsi' & R').
  exists s, s'. split_and!; try done. by eapply spec_steps_history.
Qed.
End elect.
