(* ===== verification/RaftExec.v ===== *)
(** * RaftExec: the executions of a cluster, and the orderly ones

    [net_step] is what the program can do: elections, votes, replication by messages,
    proposals, application, snapshots, membership changes, failed writes, crashes and
    restarts, in any order; its premises are the checks of the code and where a value
    comes from. Not every execution is safe: Races.v and Faults.v have some that are
    not. [orderly] names the executions for which the properties of the replicated log
    hold, by rules that the code itself does not enforce; an orderly step is a step
    of Raft.v or none. *)
From S2P Require Import Prelude GoStrings Types Membership Node NodeInv Election Heartbeat.
From S2P Require Import Proposal NodeStep NodeFrame Cluster Replication RaftSpec RaftCommit FullLog.
From S2P Require Import Raft RaftSim RaftFollow RaftElect.

(** What happens, and to whom. *)
Inductive netEvent :=
| XVote (i : string) (req : RequestVoteRequest) (err : error)
| XElection (i : string)
| XVoteRecv (i : string) (ev : chanEvent RequestVoteResponse)
| XPreVoteRecv (i : string) (ev : chanEvent PreVoteResponse)
| XStart (i : string) (clientNil : bool)
| XRestart (i : string)
| XOp (i : string) (op : nodeOp)
| XSend (i p : string)
| XDeliver (p : string) (req : AppendEntriesRequest) (err : error)
| XSuccess (i p : string) (req : AppendEntriesRequest).

Section exec.
Context {St : Type} `{!StableStore St} `{MJ : !MembershipJSON}.
Context (storable : PersistentState → Prop) `{!StableStoreLaws St storable}.
Context (members : list string).
Abbreviation Node := (RaftNode St).
Abbreviation Net := (Net (St := St)).
Abbreviation raft_step := (raft_step storable members).
Implicit Types (n : Node) (c : Net).

(** The sections that proposals, rounds, the apply loop and the handlers run on the
    node by themselves. Terms come from 64-bit fields, and an entry is marked or its
    membership change applied after it was fetched as committed. *)
Definition background (op : nodeOp) n : Prop :=
  match op with
  | OAppendLocal _ | ORecordReplicationFailure _ | OEnsureLeaderProgress | OCompact _
  | OTakeCommitReady => True
  | OStepDown t => in_u64 t
  | OMarkApplied x | OApplyCommittedMembershipChange _ x => x ≤ n.(commitIndex)
  | _ => False
  end.

(** An RPC whose write failed is answered with an error: it changes the node and nobody
    hears of it. A vote counts when it answers the request that was sent; an answer to
    an append request reaches the node that sent the request. *)
Inductive net_step : netEvent → Net → Net → Prop :=
| NS_vote i n req n' resp c :
    node_at c i = Some n → RequestVote req n = (n', (resp, None)) → in_u64 (rvq_Term req) →
    net_step (XVote i req None) c (on_core (λ k, add_answer (i, req, resp) (set_node i n' k)) c)
| NS_vote_failed i n req n' resp e c :
    node_at c i = Some n → RequestVote req n = (n', (resp, Some e)) → in_u64 (rvq_Term req) →
    net_step (XVote i req (Some e)) c (on_core (set_node i n') c)
| NS_election i n pc n' pc' c :
    node_at c i = Some n → c.(core).(threads) !! i = Some pc → electionStep pc n = Ret (n', pc') →
    net_step (XElection i) c
      (on_core (λ k, record_election i pc pc' n' (set_thread i pc' (set_node i n' k))) c)
| NS_vote_result i req peers pending votes p resp c :
    c.(core).(threads) !! i = Some (EWait req peers pending votes) →
    p ∈ pending → (p, req, resp) ∈ c.(core).(answers) →
    net_step (XVoteRecv i (Result p (inl resp))) c (on_core
      (set_thread i (voteRecv (EWait req peers pending votes) (Result p (inl resp)))) c)
| NS_vote_lost i req peers pending votes p e c :
    c.(core).(threads) !! i = Some (EWait req peers pending votes) → p ∈ pending →
    net_step (XVoteRecv i (Result p (inr e))) c (on_core
      (set_thread i (voteRecv (EWait req peers pending votes) (Result p (inr e)))) c)
| NS_vote_ctx i req peers pending votes e c :
    c.(core).(threads) !! i = Some (EWait req peers pending votes) →
    net_step (XVoteRecv i (CtxDone e)) c
      (on_core (set_thread i (voteRecv (EWait req peers pending votes) (CtxDone e))) c)
| NS_prevote i pc ev c :
    c.(core).(threads) !! i = Some pc →
    net_step (XPreVoteRecv i ev) c (on_core (set_thread i (preVoteRecv pc ev)) c)
| NS_start i won err clientNil c :
    c.(core).(threads) !! i = Some (EDone won err) →
    net_step (XStart i clientNil) c (on_core (set_thread i (startElectionPC clientNil)) c)
| NS_restart i n st peers0 n' c :
    node_at c i = Some n → n.(store) = Some st → peers_of members i peers0 →
    NewRaftNode i peers0 (Some st) = inl n' →
    net_step (XRestart i) c (on_core (λ k, set_thread i (EDone false None) (set_node i n' k)) c)
| NS_op i n op n' c :
    node_at c i = Some n → background op n → exec op n = Ret n' →
    net_step (XOp i op) c (on_core (set_node i n') c)
| NS_send i n p req c :
    node_at c i = Some n → BuildAppendEntries p n = Ret (inl req) →
    net_step (XSend i p) c (mkNet c.(core) ((p, req) :: c.(sent)) c.(replies))
| NS_deliver p n req n' resp c :
    node_at c p = Some n → (p, req) ∈ c.(sent) →
    HandleAppendEntries req n = Ret (n', (resp, None)) →
    net_step (XDeliver p req None) c
      (mkNet (set_node p n' c.(core)) c.(sent) ((p, req, resp) :: c.(replies)))
| NS_deliver_failed p n req n' resp e c :
    node_at c p = Some n → (p, req) ∈ c.(sent) →
    HandleAppendEntries req n = Ret (n', (resp, Some e)) →
    net_step (XDeliver p req (Some e)) c (on_core (set_node p n') c)
| NS_success i n p req resp n' err c :
    node_at c i = Some n → (p, req, resp) ∈ c.(replies) → aer_Success resp = true →
    aeq_LeaderID req = i →
    RecordReplicationSuccess p (aeq_PrevLogIndex req ⊕ zlen (aeq_Entries req)) n = Ret (n', err) →
    net_step (XSuccess i p req) c (on_core (set_node i n') c).

(** The node whose section ran. *)
Definition mover (ev : netEvent) : option string :=
  match ev with
  | XVote i _ _ | XElection i | XOp i _ | XDeliver i _ _ | XSuccess i _ _ => Some i
  | _ => None
  end.

(** The rules. *)

(** No write fails: after its section the node's disk holds what the node holds. *)
Definition writes_succeed (ev : netEvent) (c' : Net) : Prop :=
  (∀ i req e, ev ≠ XVote i req (Some e)) ∧ (∀ p req e, ev ≠ XDeliver p req (Some e)) ∧
  ∀ i n, mover ev = Some i → node_at c' i = Some n → written storable n.

(** Membership does not change. *)
Definition fixed_membership (ev : netEvent) : Prop :=
  ∀ i change x, ev ≠ XOp i (OApplyCommittedMembershipChange change x).

(** A node that appends a proposal still leads. *)
Definition proposed_by_leader (ev : netEvent) c : Prop :=
  ∀ i command n, ev = XOp i (OAppendLocal command) → node_at c i = Some n → n.(state) = Leader.

(** A leader records an answer only in the term of the request. *)
Definition recorded_in_term (ev : netEvent) c : Prop :=
  ∀ i p req n, ev = XSuccess i p req → node_at c i = Some n → n.(state) = Leader →
    aeq_Term req = n.(currentTerm).

(** Terms and indices stay below the largest 64-bit numbers. *)
Definition no_overflow (ev : netEvent) c (c' : Net) : Prop :=
  ∀ i n, mover ev = Some i → node_at c i = Some n →
    0 ≤ n.(currentTerm) < two64 - 1 ∧ last_index n < two64 - 2 ∧
    ∀ n', node_at c' i = Some n' → in_u64 n'.(currentTerm).

Definition orderly (ev : netEvent) c (c' : Net) : Prop :=
  writes_succeed ev c' ∧ fixed_membership ev ∧ proposed_by_leader ev c ∧
  recorded_in_term ev c ∧ no_overflow ev c c'.

Definition orderly_step c (c' : Net) : Prop := ∃ ev, net_step ev c c' ∧ orderly ev c c'.

(** ** Orderly steps are steps of Raft.v *)

Lemma node_at_set i n c : node_at (on_core (set_node i n) c) i = Some n.
Proof. apply lookup_insert_eq. Qed.

Lemma set_node_id i n c : node_at c i = Some n → on_core (set_node i n) c = c.
Proof.
  intros Hn. destruct c as [[ns ths ans sv el ask] st rp]. unfold on_core, set_node, node_at in *. cbn in *.
  by rewrite insert_id.
Qed.

(** An answer that reaches a node which no longer leads changes nothing. *)
Lemma success_not_leader p x n n' err :
  node_wf n → n.(state) ≠ Leader → RecordReplicationSuccess p x n = Ret (n', err) → n' = n.
Proof.
  intros (_ & _ & _ & Hp) Hs. unfold RecordReplicationSuccess.
  assert (n.(nextIndex) = None) as ->.
  { unfold progress_ok in Hp. by destruct (state n); [apply Hp|apply Hp|]. }
  by intros [= <- _].
Qed.

Lemma orderly_op_raft i op c n n' :
  node_at c i = Some n → background op n → exec op n = Ret n' →
  orderly (XOp i op) c (on_core (set_node i n') c) → raft_step c (on_core (set_node i n') c).
Proof.
  intros Hn Hbg He ((_ & _ & Hw) & Hmem & Hlead & _ & Hov).
  pose proof (Hw i n' eq_refl (node_at_set i n' c)) as Hwr.
  destruct (Hov i n eq_refl Hn) as (_ & Hroom & _).
  assert (Hloc : local_op op = true → op_ok op n → raft_step c (on_core (set_node i n') c)).
  { intros Hop Hok. exact (RS_op storable members i n op n' c Hn Hop Hok He Hwr). }
  destruct op; try done; try (by apply Hloc).
  - simpl in He. apply go_bind_inv in He as ([m r] & Ha & [= <-]).
    eapply RS_propose; [done| |done|done|done]. by eapply Hlead.
  - exfalso. by eapply Hmem.
Qed.

Lemma record_election_node i pc pc' m (k : Cluster (St := St)) :
  (record_election i pc pc' m k).(nodes) = k.(nodes).
Proof. by destruct pc, pc' as [| | | | | | | | | | |[] ?]. Qed.

Lemma orderly_raft c c' :
  (∀ i n, node_at c i = Some n → node_wf n) → orderly_step c c' → raft_step c c' ∨ c' = c.
Proof.
  intros Hwf (ev & Hs & Ho). pose proof Ho as ((Hv & Hd & Hw) & _ & _ & Hrec & Hov).
  destruct Hs as [i n req n' resp c Hn Hr Hu|i n req n' resp e c|i n pc n' pc' c Hn Hpc He| | | | | |
    |i n op n' c|i n p req c|p n req n' resp c Hn Hin Hh|p n req n' resp e c|
    i n p req resp n' err c Hn Hin Hok Hl Hr].
  - left. eapply RS_vote; try done. apply (Hw i); [done|]. apply lookup_insert_eq.
  - by destruct (Hv i req e).
  - left. assert (node_at (on_core (λ k, record_election i pc pc' n' (set_thread i pc' (set_node i n' k))) c) i
      = Some n') as E.
    { unfold node_at, on_core. cbn [core]. rewrite record_election_node. apply lookup_insert_eq. }
    destruct (Hov i n eq_refl Hn) as (? & _ & Hu). eapply RS_election; try done; [by apply Hu|].
    by apply (Hw i).
  - left. by eapply RS_vote_result.
  - left. by eapply RS_vote_lost.
  - left. by eapply RS_vote_ctx.
  - left. by eapply RS_prevote.
  - left. by eapply RS_start.
  - left. by eapply RS_restart.
  - left. by eapply orderly_op_raft.
  - left. by eapply RS_send.
  - left. eapply RS_deliver; try done. apply (Hw p); [done|]. apply lookup_insert_eq.
  - by destruct (Hd p req e).
  - destruct (decide (n.(state) = Leader)) as [Hlead|Hlead].
    + left. eapply RS_success; try done; [by eapply Hrec|]. apply (Hw i); [done|]. apply node_at_set.
    + right. rewrite (success_not_leader _ _ _ _ _ (Hwf _ _ Hn) Hlead Hr). by apply set_node_id.
Qed.

(** So every orderly execution is one of Raft.v. *)
Lemma orderly_raft_steps c0 c c' :
  "" ∉ members → NoDup members → raft_init members c0 → rtc raft_step c0 c →
  rtc orderly_step c c' → rtc raft_step c c'.
Proof using All.
  intros Hn Hd Hi H0 Hr. induction Hr as [|c c1 c' Hs _ IH]; [done|].
  destruct (orderly_raft c c1) as [Hs'| ->]; [|done| |by apply IH].
  - intros i n Hin. destruct (raft_reachable storable members Hn Hd c0 c Hi H0) as (_ & s & _ & _ & R).
    apply (r_nodes _ _ _ R i n Hin).
  - eapply rtc_l; [done|]. apply IH. by eapply rtc_r.
Qed.

(** ** Steps of Raft.v that stay within 64 bits are orderly *)

(** A section that succeeded, and a step that runs none. *)
Lemma moved_written ev i n c' :
  match ev with XVote _ _ err | XDeliver _ _ err => err = None | _ => True end →
  mover ev = Some i → node_at c' i = Some n → written storable n → writes_succeed ev c'.
Proof.
  intros He Hm Hn Hw. split_and!.
  - by intros j req e ->.
  - by intros j req e ->.
  - intros j m Hj Hjm. by simplify_eq.
Qed.

Lemma raft_net c c' : raft_step c c' → ∃ ev, net_step ev c c' ∧ writes_succeed ev c' ∧
  fixed_membership ev ∧ proposed_by_leader ev c ∧ recorded_in_term ev c.
Proof.
  intros Hs. destruct Hs as [i n req n' resp c Hn Hr Hu Hw|i n pc n' pc' c Hn Hpc He Ht Hu Hw|
    i req ps pending votes p resp c|i req ps pending votes p e c|i req ps pending votes e c|
    i pc ev c|i won err clientNil c|i n st ps0 n' c|i n op n' c Hn Hop Hok He Hw|
    i n cmd n' r c Hn Hld Hb Ha Hw|i n p req c|p n req n' resp c Hn Hin Hh Hw|
    i n p req resp n' err c Hn Hin Hok Hl Et Hr Hw].
  - exists (XVote i req None). split; [by eapply NS_vote|]. split_and!; try done.
    eapply (moved_written _ i n'); try done. apply lookup_insert_eq.
  - exists (XElection i). split; [by eapply NS_election|]. split_and!; try done.
    eapply (moved_written _ i n'); try done. unfold node_at, on_core. cbn [core].
    rewrite record_election_node. apply lookup_insert_eq.
  - eexists. split; [by eapply NS_vote_result|]. by split_and!.
  - eexists. split; [by eapply NS_vote_lost|]. by split_and!.
  - eexists. split; [by eapply NS_vote_ctx|]. by split_and!.
  - eexists. split; [by eapply NS_prevote|]. by split_and!.
  - eexists. split; [by eapply NS_start|]. by split_and!.
  - eexists. split; [by eapply NS_restart|]. by split_and!.
  - exists (XOp i op). split; [eapply NS_op; [done| |done]; by destruct op|]. split_and!; try done.
    + eapply (moved_written _ i n'); try done. apply node_at_set.
    + intros j ch x [= _ ->]. done.
    + intros j cmd m [= _ ->]. done.
  - exists (XOp i (OAppendLocal cmd)). split; [eapply NS_op; [done|done|]; simpl; by rewrite Ha|].
    split_and!; try done.
    + eapply (moved_written _ i n'); try done. apply node_at_set.
    + intros j cmd' m [= <- _]. congruence.
  - eexists. split; [by eapply NS_send|]. by split_and!.
  - exists (XDeliver p req None). split; [by eapply NS_deliver|]. split_and!; try done.
    eapply (moved_written _ p n'); try done. apply lookup_insert_eq.
  - exists (XSuccess i p req). split; [by eapply NS_success|]. split_and!; try done.
    + eapply (moved_written _ i n'); try done. apply node_at_set.
    + intros j q rq m [= <- _ <-]. congruence.
Qed.

(** Every node is far from the largest numbers, before and after a step. *)
Definition small c : Prop :=
  ∀ i n, node_at c i = Some n → 0 ≤ n.(currentTerm) < two64 - 1 ∧ last_index n < two64 - 2.

Lemma raft_orderly c c' : small c → small c' → raft_step c c' → orderly_step c c'.
Proof.
  intros Hs Hs' Hr. destruct (raft_net c c' Hr) as (ev & Hn & Hw & Hf & Hp & Ht). exists ev.
  split; [done|]. split; [done|]. split; [done|]. split; [done|]. split; [done|].
  intros i n _ Hi. destruct (Hs i n Hi) as [? ?].
  split; [done|]. split; [done|]. intros n' Hi'. destruct (Hs' i n' Hi'). split; lia.
Qed.
End exec.
