(* ===== verification/ElectionRun.v ===== *)
(** * ElectionRun: one election from start to end

    [StartElection] run against responses that arrive in any order, with no other
    operation in between: it returns when every peer has answered, an election
    that loses its pre-vote leaves the node untouched, and one that wins ends
    with a leader of the next term that a majority voted for. *)
From S2P Require Import Prelude GoStrings Types Membership Node NodeInv Election Heartbeat.
From S2P Require Import Proposal NodeStep NodeFrame.

(** How many receives and critical sections are left. *)
Definition election_measure {R1 R2} (pre : list (chanEvent R1)) (vote : list (chanEvent R2))
    (pc : electionPC) : nat :=
  let v := (3 * length vote)%nat in
  let p := (2 * length pre + v)%nat in
  match pc with
  | ESelfCheck => p + 8
  | EPreSelfCheck => p + 7
  | EPreSnapshot => p + 6
  | EPreWait _ _ _ _ => p + 5
  | EPreResp _ _ _ _ _ => p + 6
  | ECandidate => v + 4
  | ESnapshot => v + 3
  | EWait _ _ _ _ => v + 2
  | EResp _ _ _ _ _ => v + 4
  | ECheck _ _ _ _ _ => v + 3
  | EPromote _ => 1
  | EDone _ _ => 0
  end.

(** Every pending peer answers, once, in some order. *)
Definition answers {R} (pending : list string) (evs : list (chanEvent R)) : Prop :=
  ∃ l : list (string * (R + GoError)), evs = map (λ pr, Result pr.1 pr.2) l ∧ l.*1 ≡ₚ pending.

Lemma remove_one_perm x l k : x :: k ≡ₚ l → remove_one x l ≡ₚ k.
Proof.
  intros Hp. assert (x ∈ l) as Hx by (rewrite <-Hp; set_solver).
  apply (Permutation_cons_inv (a := x)). rewrite Hp. clear k Hp.
  induction l as [|y l IH]; simpl; [by apply elem_of_nil in Hx|].
  case_bool_decide as E; [by subst|]. rewrite Permutation_swap. f_equiv. apply IH. set_solver.
Qed.

Lemma answers_cons {R} pending (ev : chanEvent R) evs :
  answers pending (ev :: evs) →
  ∃ p r, ev = Result p r ∧ answers (remove_one p pending) evs.
Proof.
  intros ([|[p r] l] & Hl & Hp); [done|]. simpl in *. simplify_eq. exists p, r. split; [done|].
  exists l. split; [done|]. symmetry. by apply remove_one_perm.
Qed.

Lemma answers_nil {R} pending : answers (R:=R) pending [] → pending = [].
Proof. intros ([|] & ? & Hp); [|done]. by apply Permutation_nil in Hp. Qed.

Section run.
Context {St : Type} `{!StableStore St} `{!MembershipJSON}.
Abbreviation Node := (RaftNode St).
Implicit Types n : Node.

Definition pre_in_range (evs : list (chanEvent PreVoteResponse)) : Prop :=
  ∀ p resp, Result p (inl resp) ∈ evs → in_u64 (pvr_Term resp).

Definition vote_in_range (evs : list (chanEvent RequestVoteResponse)) : Prop :=
  ∀ p resp, Result p (inl resp) ∈ evs → in_u64 (rvr_Term resp).

(** The events still to come answer exactly the peers the machine waits for. *)
Definition covered pc n pre vote : Prop :=
  pre_in_range pre ∧ vote_in_range vote ∧
  match pc with
  | ESelfCheck | EPreSelfCheck | EPreSnapshot => answers n.(peers) pre ∧ answers n.(peers) vote
  | EPreWait _ _ pending _ => pending ≠ [] ∧ answers pending pre ∧ answers n.(peers) vote
  | EPreResp _ _ pending _ resp =>
      answers pending pre ∧ answers n.(peers) vote ∧ in_u64 (pvr_Term resp)
  | ECandidate | ESnapshot => answers n.(peers) vote
  | EWait _ _ pending _ => pending ≠ [] ∧ answers pending vote
  | EResp _ _ pending _ resp => answers pending vote ∧ in_u64 (rvr_Term resp)
  | ECheck _ _ pending _ resp => answers pending vote
  | EPromote _ | EDone _ _ => True
  end.

Lemma covered_preWait req ps pending votes n pre vote :
  pre_in_range pre → vote_in_range vote → answers pending pre → answers n.(peers) vote →
  covered (preWait req ps pending votes) n pre vote.
Proof. intros. destruct pending; by split_and!. Qed.

Lemma covered_voteWait req ps pending votes n pre vote :
  pre_in_range pre → vote_in_range vote → answers pending vote →
  covered (voteWait req ps pending votes) n pre vote.
Proof. intros. destruct pending; by split_and!. Qed.

Lemma measure_preWait {R1 R2} req ps pending votes (pre : list (chanEvent R1))
    (vote : list (chanEvent R2)) :
  (election_measure pre vote (preWait req ps pending votes)
   ≤ 2 * length pre + 3 * length vote + 5)%nat.
Proof. destruct pending; simpl; lia. Qed.

Lemma measure_voteWait {R1 R2} req ps pending votes (pre : list (chanEvent R1))
    (vote : list (chanEvent R2)) :
  (election_measure pre vote (voteWait req ps pending votes) ≤ 3 * length vote + 2)%nat.
Proof. destruct pending; simpl; lia. Qed.

Definition waiting (pc : electionPC) : bool :=
  match pc with EPreWait _ _ _ _ | EWait _ _ _ _ | EDone _ _ => true | _ => false end.

Lemma stepDown_peers t n : peers (stepDownForHigherTerm t n).1 = peers n.
Proof.
  unfold stepDownForHigherTerm. split_ifs; [done|].
  destruct (persistLocked_eq (dropLeadership (set_state Follower
    (set_votedFor "" (set_currentTerm t n))))) as (s & e & ->). done.
Qed.

Lemma BecomeCandidate_peers n : peers (BecomeCandidate n).1 = peers n.
Proof. apply BecomeCandidate_fields. Qed.

(** One critical section: no panic, the invariant kept, one step closer. *)
Lemma electionStep_ok pc n pre vote :
  node_wf n → covered pc n pre vote → waiting pc = false →
  ∃ n' pc', electionStep pc n = Ret (n', pc') ∧ node_wf n' ∧ covered pc' n' pre vote ∧
    (election_measure pre vote pc' < election_measure pre vote pc)%nat.
Proof.
  intros Hwf (Hpr & Hvr & Hc) Hw.
  destruct pc as [| | |req ps pend v|req ps pend v resp| | |req ps pend v
                 |req ps pend v resp|req ps pend v resp|t|won err];
    try discriminate Hw; cbn [electionStep].
  - eexists _, _. split; [done|]. destruct (isSelfMember n); simpl; split_and!; try done; try lia.
  - eexists _, _. split; [done|]. destruct (isSelfMember n); simpl; split_and!; try done; try lia.
  - unfold electionSnapshot. cbv zeta. destruct Hc as [Ha1 Ha2]. split_ifs.
    + eexists _, _. split; [done|]. simpl. split_and!; try done; lia.
    + eexists _, _. split; [done|]. split; [done|]. split.
      * apply covered_preWait; try done. by destruct (peers n).
      * eapply Nat.le_lt_trans; [apply measure_preWait|]. simpl. lia.
  - destruct Hc as (Ha1 & Ha2 & Hu). pose proof (stepDown_wf (pvr_Term resp) n Hwf Hu) as Hwf'.
    pose proof (stepDown_peers (pvr_Term resp) n) as Hps.
    destruct (stepDownForHigherTerm (pvr_Term resp) n) as [n' [sd err]]. simpl in Hwf', Hps.
    rewrite <-Hps in Ha2. pose proof (measure_preWait req ps pend (v + 1) pre vote).
    pose proof (measure_preWait req ps pend v pre vote).
    split_ifs; eexists _, _; (split; [done|]); (split; [done|]); split;
      try (by apply covered_preWait); simpl; try lia; by split_and!.
  - pose proof (BecomeCandidate_wf n Hwf) as Hwf'. pose proof (BecomeCandidate_peers n) as Hps.
    destruct (BecomeCandidate n) as [n' err]. simpl in *. rewrite <-Hps in Hc.
    eexists _, _. split; [done|]. destruct err; simpl; split_and!; try done; lia.
  - unfold electionSnapshot. cbv zeta. split_ifs.
    + eexists _, _. split; [done|]. simpl. split_and!; try done; lia.
    + eexists _, _. split; [done|]. split; [done|]. split.
      * apply covered_voteWait; try done. by destruct (peers n).
      * eapply Nat.le_lt_trans; [apply measure_voteWait|]. simpl. lia.
  - destruct Hc as (Ha1 & Hu). pose proof (stepDown_wf (rvr_Term resp) n Hwf Hu) as Hwf'.
    destruct (stepDownForHigherTerm (rvr_Term resp) n) as [n' [sd err]]. simpl in Hwf'.
    split_ifs; eexists _, _; (split; [done|]); simpl; split_and!; try done; lia.
  - pose proof (measure_voteWait req ps pend (v + 1) pre vote).
    pose proof (measure_voteWait req ps pend v pre vote).
    split_ifs; eexists _, _; (split; [done|]); (split; [done|]); split;
      try (by apply covered_voteWait); simpl; try lia; by split_and!.
  - destruct (promoteCandidate_wf t n Hwf) as (n' & [won err] & -> & Hwf'). rewrite go_bind_Ret.
    eexists _, _. split; [done|]. simpl. split_and!; try done; lia.
Qed.

Lemma pre_in_range_tail ev evs : pre_in_range (ev :: evs) → pre_in_range evs.
Proof. intros Hr p resp Hin. apply (Hr p). set_solver. Qed.

Lemma vote_in_range_tail ev evs : vote_in_range (ev :: evs) → vote_in_range evs.
Proof. intros Hr p resp Hin. apply (Hr p). set_solver. Qed.

Lemma preVoteRecv_ok req ps pend v ev n pre vote :
  covered (EPreWait req ps pend v) n (ev :: pre) vote →
  covered (preVoteRecv (EPreWait req ps pend v) ev) n pre vote ∧
  (election_measure pre vote (preVoteRecv (EPreWait req ps pend v) ev)
   < 2 * length (ev :: pre) + 3 * length vote + 5)%nat.
Proof.
  intros (Hpr & Hvr & _ & Ha & Hv). destruct (answers_cons _ _ _ Ha) as (p & r & -> & Ha').
  pose proof (pre_in_range_tail _ _ Hpr). destruct r as [resp|e]; simpl.
  - split; [|lia]. split_and!; try done. apply (Hpr p). set_solver.
  - split; [by apply covered_preWait|].
    pose proof (measure_preWait req ps (remove_one p pend) v pre vote). lia.
Qed.

Lemma voteRecv_ok req ps pend v ev n pre vote :
  covered (EWait req ps pend v) n pre (ev :: vote) →
  covered (voteRecv (EWait req ps pend v) ev) n pre vote ∧
  (election_measure pre vote (voteRecv (EWait req ps pend v) ev)
   < 3 * length (ev :: vote) + 2)%nat.
Proof.
  intros (Hpr & Hvr & _ & Ha). destruct (answers_cons _ _ _ Ha) as (p & r & -> & Ha').
  pose proof (vote_in_range_tail _ _ Hvr). destruct r as [resp|e]; simpl.
  - split; [|lia]. split_and!; try done. apply (Hvr p). set_solver.
  - split; [by apply covered_voteWait|].
    pose proof (measure_voteWait req ps (remove_one p pend) v pre vote). lia.
Qed.

Lemma runElection_ends fuel pre vote pc n :
  node_wf n → covered pc n pre vote → (election_measure pre vote pc ≤ fuel)%nat →
  ∃ n' won err, runElection fuel pre vote pc n = Ret (n', EDone won err) ∧ node_wf n'.
Proof.
  revert pre vote pc n. induction fuel as [|fuel IH]; intros pre vote pc n Hwf Hc Hf.
  { destruct pc; simpl in Hf; try lia. eauto. }
  destruct (waiting pc) eqn:Hw.
  - destruct pc; try discriminate Hw; cbn [runElection].
    + destruct pre as [|ev pre].
      { destruct Hc as (_ & _ & Hne & Ha%answers_nil & _). done. }
      destruct (preVoteRecv_ok _ _ _ _ _ _ _ _ Hc) as [Hc' Hm]. apply IH; [done|done|].
      cbn [election_measure length] in Hf, Hm. lia.
    + destruct vote as [|ev vote].
      { destruct Hc as (_ & _ & Hne & Ha%answers_nil). done. }
      destruct (voteRecv_ok _ _ _ _ _ _ _ _ Hc) as [Hc' Hm]. apply IH; [done|done|].
      cbn [election_measure length] in Hf, Hm. lia.
    + eauto.
  - destruct (electionStep_ok pc n pre vote Hwf Hc Hw) as (n' & pc' & E & Hwf' & Hc' & Hm).
    assert (runElection (S fuel) pre vote pc n = runElection fuel pre vote pc' n') as ->.
    { by destruct pc; try discriminate Hw; cbn [runElection]; rewrite E. }
    apply IH; [done|done|lia].
Qed.

Lemma StartElection_returns pre vote n :
  node_wf n → answers n.(peers) pre → answers n.(peers) vote →
  pre_in_range pre → vote_in_range vote →
  ∃ n' won err, StartElection false pre vote n = Ret (n', EDone won err) ∧ node_wf n'.
Proof.
  intros. apply runElection_ends; [done|by split_and!|].
  unfold electionFuel. simpl. lia.
Qed.

(** ** Losing the pre-vote *)

Definition pre_granted (ev : chanEvent PreVoteResponse) : bool :=
  match ev with Result _ (inl resp) => pvr_VoteGranted resp | _ => false end.

Definition pre_grants (evs : list (chanEvent PreVoteResponse)) : Z :=
  zlen (List.filter pre_granted evs).

(** No answer carries a term above [t]. *)
Definition pre_terms_le (t : Z) (evs : list (chanEvent PreVoteResponse)) : Prop :=
  ∀ p resp, Result p (inl resp) ∈ evs → pvr_Term resp ≤ t.

Lemma stepDown_stays t n : t ≤ n.(currentTerm) → stepDownForHigherTerm t n = (n, (false, None)).
Proof. intros Ht. unfold stepDownForHigherTerm. by rewrite (proj2 (Z.leb_le _ _)). Qed.

Lemma pre_terms_le_tail t ev evs : pre_terms_le t (ev :: evs) → pre_terms_le t evs.
Proof. intros Hr p resp Hin. apply (Hr p). set_solver. Qed.

Lemma pre_grants_cons ev evs :
  pre_grants (ev :: evs) = (if pre_granted ev then 1 else 0) + pre_grants evs.
Proof. unfold pre_grants. simpl. destruct (pre_granted ev); [rewrite zlen_cons|]; lia. Qed.

Lemma runElection_done fuel pre vote won err n :
  runElection fuel pre vote (EDone won err) n = Ret (n, EDone won err).
Proof. by destruct fuel. Qed.

Lemma runElection_step fuel pre vote pc n :
  waiting pc = false →
  runElection (S fuel) pre vote pc n =
  (r ← electionStep pc n; runElection fuel pre vote r.2 r.1).
Proof. by destruct pc. Qed.

Lemma prevote_loses fuel pre vote req ps pending votes n :
  answers pending pre → pre_terms_le n.(currentTerm) pre →
  votes + pre_grants pre < majority (zlen ps + 1) → (2 * length pre ≤ fuel)%nat →
  runElection fuel pre vote (preWait req ps pending votes) n = Ret (n, EDone false None).
Proof.
  revert fuel pending votes. induction pre as [|ev pre IH]; intros fuel pending votes Ha Ht Hv Hf.
  { rewrite (answers_nil _ Ha). apply runElection_done. }
  destruct (answers_cons _ _ _ Ha) as (p & r & -> & Ha').
  destruct pending as [|q pend] eqn:Epend; [apply runElection_done|]. rewrite <-Epend in *.
  assert (preWait req ps pending votes = EPreWait req ps pending votes) as ->
    by (by rewrite Epend).
  cbn [length] in Hf. destruct fuel as [|[|fuel]]; [lia..|].
  rewrite pre_grants_cons in Hv. apply pre_terms_le_tail in Ht as Ht'.
  cbn [runElection preVoteRecv]. destruct r as [resp|e]; simpl in Hv.
  - cbn [runElection electionStep].
    rewrite stepDown_stays by (apply (Ht p); set_solver). simpl orb. cbv iota.
    destruct (pvr_VoteGranted resp).
    + rewrite (proj2 (Z.leb_gt _ _)); [|].
      2: { unfold pre_grants in Hv. pose proof (zlen_nonneg (List.filter pre_granted pre)). lia. }
      rewrite go_bind_Ret. cbn [fst snd]. apply IH; [done|done|lia|lia].
    + rewrite go_bind_Ret. cbn [fst snd]. apply IH; [done|done|lia|lia].
  - apply (IH (S fuel)); [done|done|lia|lia].
Qed.

Lemma StartElection_prevote_lost pre vote n :
  answers n.(peers) pre → pre_terms_le n.(currentTerm) pre →
  1 + pre_grants pre < majority (zlen n.(peers) + 1) →
  StartElection false pre vote n = Ret (n, EDone false None).
Proof.
  intros Ha Ht Hv. unfold StartElection. cbn [startElectionPC].
  assert (∃ f, electionFuel pre vote = S (S (S f)) ∧ (2 * length pre ≤ f)%nat) as (f & -> & Hf).
  { exists (5 + 2 * length pre + 3 * length vote)%nat. unfold electionFuel. split; lia. }
  rewrite runElection_step by done. cbn [electionStep]. rewrite go_bind_Ret. cbn [fst snd].
  destruct (isSelfMember n) eqn:Em; cbn [negb]; [|apply runElection_done].
  rewrite runElection_step by done. cbn [electionStep]. rewrite go_bind_Ret. cbn [fst snd].
  rewrite Em. cbn [negb].
  rewrite runElection_step by done. cbn [electionStep].
  unfold electionSnapshot. cbv zeta.
  replace (slice_elems (clonePeers (peers n))) with (peers n) by (by destruct (peers n)).
  rewrite (proj2 (Z.leb_gt _ _)), go_bind_Ret.
  2: { unfold pre_grants in Hv. pose proof (zlen_nonneg (List.filter pre_granted pre)). lia. }
  cbn [fst snd]. by apply prevote_loses.
Qed.

(** ** Winning *)

Definition vote_granted_ev (ev : chanEvent RequestVoteResponse) : bool :=
  match ev with Result _ (inl resp) => rvr_VoteGranted resp | _ => false end.

Definition vote_grants (evs : list (chanEvent RequestVoteResponse)) : Z :=
  zlen (List.filter vote_granted_ev evs).

Lemma vote_grants_cons ev evs :
  vote_grants (ev :: evs) = (if vote_granted_ev ev then 1 else 0) + vote_grants evs.
Proof. unfold vote_grants. simpl. destruct (vote_granted_ev ev); [rewrite zlen_cons|]; lia. Qed.

(** What is known of the run started at [n0] when it is at [pc] with [vote] still
    to come, [total] being the votes granted in all. *)
Definition sound (n0 : Node) (total : Z) (pc : electionPC) n
    (vote : list (chanEvent RequestVoteResponse)) : Prop :=
  let n1 := (BecomeCandidate n0).1 in
  match pc with
  | ESelfCheck | EPreSelfCheck | EPreSnapshot | EPreWait _ _ _ _ | EPreResp _ _ _ _ _
  | ECandidate => n = n0 ∧ vote_grants vote = total
  | ESnapshot => n = n1 ∧ vote_grants vote = total
  | EWait req ps _ v =>
      n = n1 ∧ rvq_Term req = n1.(currentTerm) ∧ ps = n0.(peers) ∧ v + vote_grants vote ≤ 1 + total
  | EResp req ps _ v resp | ECheck req ps _ v resp =>
      n = n1 ∧ rvq_Term req = n1.(currentTerm) ∧ ps = n0.(peers) ∧
      v + (if rvr_VoteGranted resp then 1 else 0) + vote_grants vote ≤ 1 + total
  | EPromote t =>
      n = n1 ∧ t = n1.(currentTerm) ∧ majority (zlen n0.(peers) + 1) ≤ 1 + total
  | EDone won _ =>
      won = true → n.(state) = Leader ∧ n.(currentTerm) = n0.(currentTerm) ⊕ 1 ∧
        n.(votedFor) = n0.(nodeID) ∧ majority (zlen n0.(peers) + 1) ≤ 1 + total
  end.

Lemma sound_preWait n0 total req ps pending votes n vote :
  n = n0 → vote_grants vote = total → sound n0 total (preWait req ps pending votes) n vote.
Proof. intros. by destruct pending. Qed.

Lemma sound_voteWait n0 total req ps pending votes n vote :
  sound n0 total (EWait req ps pending votes) n vote →
  sound n0 total (voteWait req ps pending votes) n vote.
Proof. intros. by destruct pending. Qed.

Lemma stepDown_result t n n' sd err :
  stepDownForHigherTerm t n = (n', (sd, err)) → sd = true ∨ (sd = false ∧ n' = n ∧ err = None).
Proof.
  unfold stepDownForHigherTerm. split_ifs; [intros; simplify_eq; auto|].
  destruct (persistLocked _). intros; simplify_eq. by left.
Qed.

Lemma vote_grants_nonneg evs : 0 ≤ vote_grants evs.
Proof. apply zlen_nonneg. Qed.

#[local] Opaque BecomeCandidate stepDownForHigherTerm promoteCandidate uadd majority.

Lemma electionStep_sound n0 total pc n vote n' pc' :
  sound n0 total pc n vote → electionStep pc n = Ret (n', pc') → sound n0 total pc' n' vote.
Proof.
  intros Hs He. pose proof (vote_grants_nonneg vote).
  destruct pc as [| | |req ps pend v|req ps pend v resp| | |req ps pend v
                 |req ps pend v resp|req ps pend v resp|t|won err]; cbn [electionStep] in He.
  - simplify_eq. by destruct (isSelfMember n').
  - simplify_eq. by destruct (isSelfMember n').
  - destruct Hs as [-> Ht]. unfold electionSnapshot in He. cbv zeta in He.
    split_in He; simplify_eq; [done|by apply sound_preWait].
  - by simplify_eq.
  - destruct Hs as [-> Ht]. destruct (stepDownForHigherTerm _ n0) as [m [sd err]] eqn:E.
    destruct (stepDown_result _ _ _ _ _ E) as [->|(-> & -> & ->)].
    { rewrite orb_true_r in He. by simplify_eq. }
    simpl in He. split_in He; simplify_eq; [done|by apply sound_preWait..].
  - destruct Hs as [-> Ht]. destruct (BecomeCandidate n0) as [m [e|]] eqn:E; simplify_eq; [done|].
    simpl. by rewrite E.
  - destruct Hs as [-> Ht]. unfold electionSnapshot in He. cbv zeta in He.
    replace (slice_elems (clonePeers (peers (BecomeCandidate n0).1))) with (peers n0) in He
      by (rewrite BecomeCandidate_peers; by destruct (peers n0)).
    split_in He; simplify_eq; [simpl; split_and!; try done; lia|].
    apply sound_voteWait. simpl. split_and!; try done; lia.
  - by simplify_eq.
  - destruct Hs as (-> & Ht & Hps & Hv).
    destruct (stepDownForHigherTerm _ _) as [m [sd err]] eqn:E.
    destruct (stepDown_result _ _ _ _ _ E) as [->|(-> & -> & ->)].
    { rewrite orb_true_r in He. by simplify_eq. }
    simpl in He. by simplify_eq.
  - destruct Hs as (-> & Ht & -> & Hv).
    split_in He; simplify_eq; [done| | |]; rewrite ?E0 in Hv;
      [split_and!; [done|done|lia]|apply sound_voteWait; split_and!; try done; lia..].
  - destruct Hs as (-> & -> & Hm). apply go_bind_inv in He as ([m [won err]] & Hp & He).
    simplify_eq. intros ->. destruct (promoteCandidate_fields _ _ _ _ _ Hp)
      as (_ & [Et Ev] & _ & _ & _ & Hl).
    destruct (BecomeCandidate_fields n0) as (_ & Ec & Evf & _).
    rewrite Et, Ev. split_and!; done.
  - by simplify_eq.
Qed.

Lemma voteRecv_sound n0 total req ps pend v ev n vote :
  sound n0 total (EWait req ps pend v) n (ev :: vote) →
  sound n0 total (voteRecv (EWait req ps pend v) ev) n vote.
Proof.
  intros (-> & Ht & Hps & Hv). rewrite vote_grants_cons in Hv.
  destruct ev as [c|p [resp|e]]; simpl in Hv |- *; [done| |].
  - split_and!; try done. lia.
  - apply sound_voteWait. split_and!; done || lia.
Qed.

Lemma runElection_sound fuel pre vote pc n n0 total n' won err :
  sound n0 total pc n vote → runElection fuel pre vote pc n = Ret (n', EDone won err) →
  sound n0 total (EDone won err) n' [].
Proof.
  revert pre vote pc n. induction fuel as [|fuel IH]; intros pre vote pc n Hs Hr; cbn [runElection] in Hr.
  { simplify_eq. exact Hs. }
  destruct (waiting pc) eqn:Hw.
  - destruct pc; try discriminate Hw.
    + destruct pre as [|ev pre]; [done|]. eapply IH; [|done].
      destruct Hs as [-> Ht]. destruct ev as [c|p [resp|e]]; simpl; [done|done|].
      by apply sound_preWait.
    + destruct vote as [|ev vote]; [done|]. eapply IH; [|done]. by apply voteRecv_sound.
    + simplify_eq. exact Hs.
  - assert (∃ m pc', electionStep pc n = Ret (m, pc') ∧
      runElection fuel pre vote pc' m = Ret (n', EDone won err)) as (m & pc' & E & Hr').
    { destruct pc; try discriminate Hw; apply go_bind_inv in Hr as ([m pc'] & ? & ?); eauto. }
    eapply IH; [by eapply electionStep_sound|done].
Qed.

Lemma StartElection_won pre vote n n' err :
  StartElection false pre vote n = Ret (n', EDone true err) →
  n'.(state) = Leader ∧ n'.(currentTerm) = n.(currentTerm) ⊕ 1 ∧ n'.(votedFor) = n.(nodeID) ∧
  majority (zlen n.(peers) + 1) ≤ 1 + vote_grants vote.
Proof.
  unfold StartElection. intros Hr.
  assert (sound n (vote_grants vote) (startElectionPC false) n vote) as Hs by (by split).
  exact (runElection_sound _ _ _ _ _ _ _ _ _ _ Hs Hr eq_refl).
Qed.

End run.
