(* ===== verification/JsonString.v ===== *)
(** * JsonString: strings in Go's encoding/json

    How package encoding/json (Go 1.22) writes a string ([appendString] with
    HTML escaping, as [json.Marshal] calls it) and reads one back (the scanner's
    string states and [unquote]), byte for byte, over UTF-8 as package
    unicode/utf8 decodes it. A byte sequence that is not UTF-8 does not survive:
    every bad byte becomes U+FFFD. *)
From S2P Require Import Prelude GoStrings.

(** ** UTF-8 (unicode/utf8) *)

Definition in_range (lo hi : Z) (b : byte) : bool := (lo <=? code b) && (code b <=? hi).

Definition is_cont (b : byte) : bool := in_range 0x80 0xBF b.

(** The length of the rune at the head of [s], 0 if there is none ([DecodeRune]
    would return [RuneError, 1]). *)
Definition rune_len (s : bytes) : nat :=
  match s with
  | [] => O
  | b0 :: s1 =>
      if code b0 <? 0x80 then 1%nat else
      match s1 with
      | [] => O
      | b1 :: s2 =>
          if in_range 0xC2 0xDF b0 then (if is_cont b1 then 2%nat else O) else
          match s2 with
          | [] => O
          | b2 :: s3 =>
              if in_range 0xE0 0xEF b0 then
                let lo := if code b0 =? 0xE0 then 0xA0 else 0x80 in
                let hi := if code b0 =? 0xED then 0x9F else 0xBF in
                if in_range lo hi b1 && is_cont b2 then 3%nat else O
              else
              match s3 with
              | [] => O
              | b3 :: _ =>
                  if in_range 0xF0 0xF4 b0 then
                    let lo := if code b0 =? 0xF0 then 0x90 else 0x80 in
                    let hi := if code b0 =? 0xF4 then 0x8F else 0xBF in
                    if in_range lo hi b1 && is_cont b2 && is_cont b3 then 4%nat else O
                  else O
              end
          end
      end
  end.

(** [utf8.Valid]; [k] bytes of the current rune are still to come. *)
Fixpoint valid_from (k : nat) (s : bytes) : bool :=
  match s with
  | [] => bool_decide (k = O)
  | _ :: r =>
      match k with
      | S k => valid_from k r
      | O => match rune_len s with O => false | S k => valid_from k r end
      end
  end.

Definition valid_utf8 (s : bytes) : bool := valid_from 0 s.

(** [utf8.AppendRune] *)
Definition byte_of (z : Z) : byte := default x00 (Byte.of_N (Z.to_N z)).

Definition append_rune (r : Z) : bytes :=
  if r <? 0x80 then [byte_of r]
  else if r <? 0x800 then [byte_of (0xC0 + Z.shiftr r 6); byte_of (0x80 + Z.land r 0x3F)]
  else if (0x10FFFF <? r) || ((0xD800 <=? r) && (r <=? 0xDFFF)) then [xef; xbf; xbd]
  else if r <? 0x10000 then
    [byte_of (0xE0 + Z.shiftr r 12); byte_of (0x80 + Z.land (Z.shiftr r 6) 0x3F);
     byte_of (0x80 + Z.land r 0x3F)]
  else
    [byte_of (0xF0 + Z.shiftr r 18); byte_of (0x80 + Z.land (Z.shiftr r 12) 0x3F);
     byte_of (0x80 + Z.land (Z.shiftr r 6) 0x3F); byte_of (0x80 + Z.land r 0x3F)].

(** ** Writing a string *)

Definition hex_digit (z : Z) : byte :=
  if z <? 10 then byte_of (48 + z) else byte_of (87 + z).

Definition u00 (b : byte) : bytes :=
  [x5c; x75; x30; x30; hex_digit (Z.shiftr (code b) 4); hex_digit (Z.land (code b) 15)].

(** One ASCII character: the two quoting characters, the five short escapes,
    the other control characters and the HTML characters as \u00xx. *)
Definition quote_ascii (b : byte) : bytes :=
  match b with
  | x22 | x5c => [x5c; b]
  | x08 => [x5c; x62]
  | x0c => [x5c; x66]
  | x0a => [x5c; x6e]
  | x0d => [x5c; x72]
  | x09 => [x5c; x74]
  | x3c | x3e | x26 => u00 b
  | _ => if code b <? 32 then u00 b else [b]
  end.

(** One rune of two or more bytes: U+2028 and U+2029 are escaped. *)
Definition quote_rune (c : bytes) : bytes :=
  match c with
  | [b] => quote_ascii b
  | [xe2; x80; xa8] => [x5c; x75; x32; x30; x32; x38]
  | [xe2; x80; xa9] => [x5c; x75; x32; x30; x32; x39]
  | _ => c
  end.

(** The body of the string literal; [fuel] is at least the length. *)
Fixpoint quote_body (fuel : nat) (s : bytes) : bytes :=
  match fuel, s with
  | S fuel, _ :: r =>
      match rune_len s with
      | O => [x5c; x75; x66; x66; x66; x64] ++ quote_body fuel r
      | k => quote_rune (take k s) ++ quote_body fuel (drop k s)
      end
  | _, _ => []
  end.

Definition json_quote (s : bytes) : bytes := [x22] ++ quote_body (length s) s ++ [x22].

(** ** Reading a string *)

Definition hex_val (b : byte) : option Z :=
  if in_range 48 57 b then Some (code b - 48)
  else if in_range 97 102 b then Some (code b - 87)
  else if in_range 65 70 b then Some (code b - 55)
  else None.

Definition is_hex (b : byte) : bool := bool_decide (is_Some (hex_val b)).

(** The scanner inside a string: in plain text, after a backslash, and with [k]
    hexadecimal digits of a \u escape to come. *)
Inductive scan_state := InText | InEsc | InHex (k : nat).

(** From after the opening quote: the raw body and what follows the closing
    quote. *)
Fixpoint scan_string (st : scan_state) (s : bytes) : option (bytes * bytes) :=
  match s with
  | [] => None
  | b :: r =>
      let next st := match scan_string st r with
                     | Some (body, rest) => Some (b :: body, rest)
                     | None => None
                     end in
      match st with
      | InText =>
          if bool_decide (b = x22) then Some ([], r)
          else if bool_decide (b = x5c) then next InEsc
          else if code b <? 32 then None else next InText
      | InEsc =>
          match b with
          | x62 | x66 | x6e | x72 | x74 | x5c | x2f | x22 => next InText
          | x75 => next (InHex 4)
          | _ => None
          end
      | InHex k =>
          if is_hex b then next (match k with S (S k) => InHex (S k) | _ => InText end)
          else None
      end
  end.

(** [getu4] on four digits *)
Definition hex4 (a b c d : byte) : Z :=
  let v x := default 0 (hex_val x) in
  v a * 4096 + v b * 256 + v c * 16 + v d.

Definition is_surrogate (r : Z) : bool := (0xD800 <=? r) && (r <=? 0xDFFF).

Definition surrogate_pair (r1 r2 : Z) : option Z :=
  if (0xD800 <=? r1) && (r1 <=? 0xDBFF) && (0xDC00 <=? r2) && (r2 <=? 0xDFFF)
  then Some ((r1 - 0xD800) * 1024 + (r2 - 0xDC00) + 0x10000) else None.

Definition unescape (b : byte) : byte :=
  match b with x62 => x08 | x66 => x0c | x6e => x0a | x72 => x0d | x74 => x09 | _ => b end.

(** [unquote] on a scanned body; [fuel] is at least its length. *)
Fixpoint unquote_body (fuel : nat) (s : bytes) : bytes :=
  match fuel, s with
  | S fuel, b :: r =>
      if bool_decide (b = x5c) then
        match r with
        | [] => []
        | u :: r =>
            if bool_decide (u = x75) then
              match r with
              | a :: b :: c :: d :: r =>
                  let rr := hex4 a b c d in
                  if is_surrogate rr then
                    match r with
                    | x5c :: x75 :: e :: f :: g :: h :: r2 =>
                        match surrogate_pair rr (hex4 e f g h) with
                        | Some dec => append_rune dec ++ unquote_body fuel r2
                        | None => append_rune 0xFFFD ++ unquote_body fuel r
                        end
                    | _ => append_rune 0xFFFD ++ unquote_body fuel r
                    end
                  else append_rune rr ++ unquote_body fuel r
              | _ => []
              end
            else unescape u :: unquote_body fuel r
        end
      else
        match rune_len s with
        | O => append_rune 0xFFFD ++ unquote_body fuel r
        | k => take k s ++ unquote_body fuel (drop k s)
        end
  | _, _ => []
  end.

(** From after the opening quote to the decoded string and the rest. *)
Definition read_string (s : bytes) : option (bytes * bytes) :=
  match scan_string InText s with
  | Some (body, rest) => Some (unquote_body (length body) body, rest)
  | None => None
  end.

(** ** Round trip *)

(** UTF-8 text, rune by rune. *)
Inductive utf8 : bytes → Prop :=
| utf8_nil : utf8 []
| utf8_cons c s : c ≠ [] → rune_len c = length c → utf8 s → utf8 (c ++ s).

Lemma rune_len_app c s : c ≠ [] → rune_len c = length c → rune_len (c ++ s) = length c.
Proof.
  intros Hne. destruct c as [|b0 [|b1 [|b2 [|b3 c]]]]; [done|..]; simpl;
    unfold in_range in *; split_ifs; try done; intros [= ?]; by destruct c.
Qed.

Lemma rune_len_take s : rune_len (take (rune_len s) s) = rune_len s ∧ (rune_len s ≤ length s)%nat.
Proof.
  destruct s as [|b0 [|b1 [|b2 [|b3 s]]]]; simpl; [split; lia|..];
    repeat (case_match; simpl; simplify_eq; try (split; [congruence|lia])).
Qed.

Lemma valid_from_utf8 s k :
  valid_from k s = true → utf8 (drop k s) ∧ (k ≤ length s)%nat.
Proof.
  revert k. induction s as [|b s IH]; intros k Hv.
  - cbn [valid_from] in Hv. apply bool_decide_eq_true in Hv as ->. split; [constructor|done].
  - destruct k as [|k]; [|destruct (IH k Hv); simpl; split; [done|lia]].
    split; [|simpl; lia]. cbn [valid_from] in Hv. rewrite drop_0.
    pose proof (rune_len_take (b :: s)) as [Ht Hl].
    destruct (rune_len (b :: s)) as [|k] eqn:E; [done|].
    destruct (IH k Hv) as [Hu Hk]. rewrite <-(take_drop (S k) (b :: s)).
    constructor; [done| |done]. rewrite Ht, length_take. lia.
Qed.

Lemma valid_utf8_spec s : valid_utf8 s = true → utf8 s.
Proof. intros [Hu _]%valid_from_utf8. done. Qed.

Lemma rune_cases c :
  c ≠ [] → rune_len c = length c →
  (∃ b, c = [b] ∧ code b < 128) ∨ ((2 ≤ length c)%nat ∧ Forall (λ b, 128 ≤ code b) c).
Proof.
  intros Hne. destruct c as [|b0 [|b1 [|b2 [|b3 c]]]]; [done|..]; simpl;
    unfold is_cont, in_range; split_ifs; try done; intros Hl; simplify_eq;
    try (left; by eexists); right; (split; [lia|]); try (destruct c; [|done]);
    rewrite !Forall_cons, Forall_nil; repeat case_match; lia.
Qed.

(** The text of one rune, scanned whatever follows it. *)
Definition prepend (c : bytes) (r : option (bytes * bytes)) : option (bytes * bytes) :=
  match r with Some (body, rest) => Some (c ++ body, rest) | None => None end.

Lemma prepend_app c d r : prepend (c ++ d) r = prepend c (prepend d r).
Proof. destruct r as [[]|]; simpl; by rewrite <-?app_assoc. Qed.

Lemma scan_high c t :
  Forall (λ b, 128 ≤ code b) c → scan_string InText (c ++ t) = prepend c (scan_string InText t).
Proof.
  induction 1 as [|b c Hb _ IH]; simpl; [by destruct (scan_string _ _) as [[]|]|].
  rewrite !bool_decide_eq_false_2 by (intros ->; vm_compute in Hb; by destruct Hb).
  rewrite (proj2 (Z.ltb_ge _ _)) by lia. rewrite IH. by destruct (scan_string _ t) as [[]|].
Qed.

Lemma scan_ascii b t :
  code b < 128 → scan_string InText (quote_ascii b ++ t) = prepend (quote_ascii b) (scan_string InText t).
Proof. destruct b; try done; intros _; simpl; by destruct (scan_string _ t) as [[]|]. Qed.

Lemma unquote_ascii b t g :
  code b < 128 → unquote_body (S g) (quote_ascii b ++ t) = b :: unquote_body g t.
Proof. by destruct b. Qed.

Lemma quote_rune_one b : quote_rune [b] = quote_ascii b.
Proof. by destruct b. Qed.

Lemma quote_rune_high c :
  (2 ≤ length c)%nat →
  quote_rune c = c ∨
  (c = [xe2; x80; xa8] ∧ quote_rune c = [x5c; x75; x32; x30; x32; x38]) ∨
  (c = [xe2; x80; xa9] ∧ quote_rune c = [x5c; x75; x32; x30; x32; x39]).
Proof.
  intros Hl. destruct c as [|b0 [|b1 [|b2 [|b3 c]]]]; simpl in Hl; try lia.
  - left. destruct b0; try done. by destruct b1.
  - destruct (decide ([b0; b1; b2] = [xe2; x80; xa8])) as [->|N1]; [tauto|].
    destruct (decide ([b0; b1; b2] = [xe2; x80; xa9])) as [->|N2]; [tauto|]. left.
    destruct b0; try done. destruct b1; try done. by destruct b2.
  - left. destruct b0; try done. destruct b1; try done. by destruct b2.
Qed.

Lemma scan_rune c t :
  c ≠ [] → rune_len c = length c →
  scan_string InText (quote_rune c ++ t) = prepend (quote_rune c) (scan_string InText t).
Proof.
  intros Hne Hl. destruct (rune_cases c Hne Hl) as [(b & -> & Hb)|[H2 Hhi]].
  - rewrite quote_rune_one. by apply scan_ascii.
  - destruct (quote_rune_high c H2) as [->|[[_ ->]|[_ ->]]]; [by apply scan_high|..];
      simpl; by destruct (scan_string _ t) as [[]|].
Qed.

Lemma unquote_rune c t g :
  c ≠ [] → rune_len c = length c →
  unquote_body (S g) (quote_rune c ++ t) = c ++ unquote_body g t.
Proof.
  intros Hne Hl. destruct (rune_cases c Hne Hl) as [(b & -> & Hb)|[H2 Hhi]].
  - rewrite quote_rune_one. by apply unquote_ascii.
  - destruct (quote_rune_high c H2) as [->|[[-> ->]|[-> ->]]]; [|done..].
    pose proof (rune_len_app c t Hne Hl) as Hr.
    destruct c as [|b c]; [done|]. inversion_clear Hhi as [|? ? Hb _].
    change ((b :: c) ++ t) with (b :: (c ++ t)) in *. cbn [unquote_body].
    rewrite bool_decide_eq_false_2 by (intros ->; vm_compute in Hb; by destruct Hb).
    rewrite Hr. cbn [length].
    change (b :: c ++ t) with ((b :: c) ++ t).
    rewrite take_app_length' by done. by rewrite drop_app_length' by done.
Qed.

Lemma quote_rune_pos c : c ≠ [] → quote_rune c ≠ [].
Proof.
  intros Hne. destruct c as [|b [|b1 c]]; [done|by destruct b|].
  destruct (quote_rune_high (b :: b1 :: c)) as [->|[[_ ->]|[_ ->]]]; simpl; done || lia.
Qed.

Lemma quote_body_step c s f :
  c ≠ [] → rune_len c = length c →
  quote_body (S f) (c ++ s) = quote_rune c ++ quote_body f s.
Proof.
  intros Hne Hl. pose proof (rune_len_app c s Hne Hl) as Hr.
  destruct c as [|b c]; [done|]. change ((b :: c) ++ s) with (b :: (c ++ s)) in *.
  cbn [quote_body]. rewrite Hr. cbn [length].
  change (b :: c ++ s) with ((b :: c) ++ s).
  rewrite take_app_length' by done. by rewrite drop_app_length' by done.
Qed.

Lemma length_pos {A} (c : list A) : c ≠ [] → (1 ≤ length c)%nat.
Proof. destruct c; simpl; [done|lia]. Qed.

Lemma quote_scan s f rest :
  utf8 s → (length s ≤ f)%nat →
  scan_string InText (quote_body f s ++ x22 :: rest) = Some (quote_body f s, rest).
Proof.
  intros Hu. revert f. induction Hu as [|c s Hne Hl _ IH]; intros f Hf; [by destruct f|].
  rewrite length_app in Hf. pose proof (length_pos c Hne). destruct f as [|f]; [lia|].
  rewrite quote_body_step, <-app_assoc by done. rewrite scan_rune by done.
  by rewrite IH by lia.
Qed.

Lemma quote_unquote s f g :
  utf8 s → (length s ≤ f)%nat → (length (quote_body f s) ≤ g)%nat →
  unquote_body g (quote_body f s) = s.
Proof.
  intros Hu. revert f g. induction Hu as [|c s Hne Hl _ IH]; intros f g Hf Hg.
  { destruct f; by destruct g. }
  rewrite length_app in Hf. pose proof (length_pos c Hne). destruct f as [|f]; [lia|].
  rewrite quote_body_step in * by done. rewrite length_app in Hg.
  pose proof (length_pos _ (quote_rune_pos c Hne)). destruct g as [|g]; [lia|].
  rewrite unquote_rune by done. f_equal. apply IH; lia.
Qed.

(** What [json.Marshal] writes for a UTF-8 string is read back as that string,
    whatever follows the closing quote. *)
Lemma read_quote s rest :
  valid_utf8 s = true → ∃ q, json_quote s = x22 :: q ∧ read_string (q ++ rest) = Some (s, rest).
Proof.
  intros Hu%valid_utf8_spec. eexists. split; [done|].
  unfold read_string. rewrite <-app_assoc. simpl.
  rewrite quote_scan by done. by rewrite quote_unquote.
Qed.
