(* ===== verification/Json.v ===== *)
(** * Json: what the program uses of Go's encoding/json

    JSON text as a tree: [parse] is the check that [json.Unmarshal] runs over the
    whole input (white space, the nesting limit, nothing after the value),
    [print] is the compact text [json.Marshal] writes. Numbers are kept as their
    literal; unsigned integers go through [print_uint] and [parse_uint], byte
    slices through base64. *)
From S2P Require Import Prelude GoStrings JsonString.

Unset Elimination Schemes.

Inductive json :=
| JNull
| JBool (b : bool)
| JNum (lit : bytes)
| JStr (s : bytes)
| JArr (l : list json)
| JObj (m : list (bytes * json)).

Set Elimination Schemes.

(** ** Unsigned integers (strconv.AppendUint, strconv.ParseUint) *)

Definition is_digit (b : byte) : bool := in_range 48 57 b.

Definition digit (z : Z) : byte := byte_of (48 + z).

Fixpoint udigits (fuel : nat) (z : Z) (acc : bytes) : bytes :=
  match fuel with
  | O => acc
  | S fuel =>
      if z <? 10 then digit z :: acc
      else udigits fuel (z / 10) (digit (z mod 10) :: acc)
  end.

(** Twenty digits are enough below 2^64. *)
Definition print_uint (z : Z) : bytes := udigits 20 z [].

Definition digits_value (acc : Z) (l : bytes) : Z :=
  fold_left (fun a b => a * 10 + (code b - 48)) l acc.

Definition parse_uint (l : bytes) : option Z :=
  match l with
  | [] => None
  | _ =>
      if forallb is_digit l then
        let v := digits_value 0 l in if v <? two64 then Some v else None
      else None
  end.

(** ** Base64 (base64.StdEncoding) *)

Definition b64_char (v : Z) : byte :=
  if v <? 26 then byte_of (65 + v)
  else if v <? 52 then byte_of (71 + v)
  else if v <? 62 then byte_of (v - 4)
  else if v =? 62 then x2b else x2f.

Definition b64_val (b : byte) : option Z :=
  if in_range 65 90 b then Some (code b - 65)
  else if in_range 97 122 b then Some (code b - 71)
  else if in_range 48 57 b then Some (code b + 4)
  else if bool_decide (b = x2b) then Some 62
  else if bool_decide (b = x2f) then Some 63
  else None.

Fixpoint b64_encode (l : bytes) : bytes :=
  match l with
  | [] => []
  | [a] =>
      [b64_char (code a / 4); b64_char (code a mod 4 * 16); x3d; x3d]
  | [a; b] =>
      [b64_char (code a / 4); b64_char (code a mod 4 * 16 + code b / 16);
       b64_char (code b mod 16 * 4); x3d]
  | a :: b :: c :: r =>
      b64_char (code a / 4) :: b64_char (code a mod 4 * 16 + code b / 16)
        :: b64_char (code b mod 16 * 4 + code c / 64) :: b64_char (code c mod 64)
        :: b64_encode r
  end.

(** Groups of four characters; padding only in the last one. *)
Fixpoint b64_groups (l : bytes) : option bytes :=
  match l with
  | [] => Some []
  | w :: x :: y :: z :: r =>
      match b64_val w, b64_val x with
      | Some v1, Some v2 =>
          let o1 := byte_of (v1 * 4 + v2 / 16) in
          match b64_val y, b64_val z with
          | Some v3, Some v4 =>
              match b64_groups r with
              | Some t =>
                  Some (o1 :: byte_of (v2 mod 16 * 16 + v3 / 4)
                           :: byte_of (v3 mod 4 * 64 + v4) :: t)
              | None => None
              end
          | Some v3, None =>
              if bool_decide (z = x3d) && bool_decide (r = [])
              then Some [o1; byte_of (v2 mod 16 * 16 + v3 / 4)] else None
          | None, _ =>
              if bool_decide (y = x3d) && bool_decide (z = x3d) && bool_decide (r = [])
              then Some [o1] else None
          end
      | _, _ => None
      end
  | _ => None
  end.

(** The decoder skips line breaks. *)
Definition b64_decode (l : bytes) : option bytes :=
  b64_groups (List.filter (fun b => negb (bool_decide (b = x0d) || bool_decide (b = x0a))) l).

(** ** Reading *)

Definition is_ws (b : byte) : bool :=
  match b with x20 | x09 | x0d | x0a => true | _ => false end.

Fixpoint skip_ws (s : bytes) : bytes :=
  match s with b :: r => if is_ws b then skip_ws r else s | [] => [] end.

Fixpoint span_digits (s : bytes) : bytes * bytes :=
  match s with
  | b :: r => if is_digit b then let '(d, t) := span_digits r in (b :: d, t) else ([], s)
  | [] => ([], [])
  end.

(** A fraction or an exponent: at least one digit. *)
Definition digits1 (s : bytes) : option (bytes * bytes) :=
  match span_digits s with ([], _) => None | r => Some r end.

Definition scan_int (s : bytes) : option (bytes * bytes) :=
  match s with
  | x30 :: r => Some ([x30], r)
  | _ => digits1 s
  end.

Definition scan_frac (s : bytes) : option (bytes * bytes) :=
  match s with
  | x2e :: r => match digits1 r with Some (d, t) => Some (x2e :: d, t) | None => None end
  | _ => Some ([], s)
  end.

Definition scan_exp (s : bytes) : option (bytes * bytes) :=
  match s with
  | (x65 | x45) as e :: r =>
      let '(sign, r) := match r with
                        | (x2b | x2d) as c :: r => ([c], r)
                        | _ => ([], r)
                        end in
      match digits1 r with Some (d, t) => Some (e :: sign ++ d, t) | None => None end
  | _ => Some ([], s)
  end.

Definition scan_number (s : bytes) : option (bytes * bytes) :=
  let '(sign, s) := match s with x2d :: r => ([x2d], r) | _ => ([], s) end in
  match scan_int s with
  | None => None
  | Some (i, s) =>
      match scan_frac s with
      | None => None
      | Some (f, s) =>
          match scan_exp s with
          | None => None
          | Some (e, s) => Some (sign ++ i ++ f ++ e, s)
          end
      end
  end.

Definition strip (lit s : bytes) : option bytes :=
  if bool_decide (take (length lit) s = lit) then Some (drop (length lit) s) else None.

(** maxNestingDepth *)
Definition maxNestingDepth : Z := 10000.

(** [depth] containers are open. Every call that recurses has consumed a byte, so
    fuel above the length of the text is enough. *)
Fixpoint parse_value (fuel : nat) (depth : Z) (s : bytes) : option (json * bytes) :=
  match fuel with
  | O => None
  | S fuel =>
      match skip_ws s with
      | [] => None
      | b :: r =>
          if bool_decide (b = x22) then
            match read_string r with Some (t, rest) => Some (JStr t, rest) | None => None end
          else if bool_decide (b = x7b) then
            if maxNestingDepth <=? depth then None
            else match skip_ws r with
                 | x7d :: rest => Some (JObj [], rest)
                 | _ => match parse_members fuel (depth + 1) r with
                        | Some (m, rest) => Some (JObj m, rest)
                        | None => None
                        end
                 end
          else if bool_decide (b = x5b) then
            if maxNestingDepth <=? depth then None
            else match skip_ws r with
                 | x5d :: rest => Some (JArr [], rest)
                 | _ => match parse_elements fuel (depth + 1) r with
                        | Some (l, rest) => Some (JArr l, rest)
                        | None => None
                        end
                 end
          else if bool_decide (b = x74) then
            match strip [x72; x75; x65] r with Some rest => Some (JBool true, rest) | None => None end
          else if bool_decide (b = x66) then
            match strip [x61; x6c; x73; x65] r with
            | Some rest => Some (JBool false, rest)
            | None => None
            end
          else if bool_decide (b = x6e) then
            match strip [x75; x6c; x6c] r with Some rest => Some (JNull, rest) | None => None end
          else
            match scan_number (b :: r) with
            | Some (lit, rest) => Some (JNum lit, rest)
            | None => None
            end
      end
  end
with parse_members (fuel : nat) (depth : Z) (s : bytes) : option (list (bytes * json) * bytes) :=
  match fuel with
  | O => None
  | S fuel =>
      match skip_ws s with
      | x22 :: r =>
          match read_string r with
          | None => None
          | Some (key, r) =>
              match skip_ws r with
              | x3a :: r =>
                  match parse_value fuel depth r with
                  | None => None
                  | Some (v, r) =>
                      match skip_ws r with
                      | x7d :: r => Some ([(key, v)], r)
                      | x2c :: r =>
                          match parse_members fuel depth r with
                          | Some (m, r) => Some ((key, v) :: m, r)
                          | None => None
                          end
                      | _ => None
                      end
                  end
              | _ => None
              end
          end
      | _ => None
      end
  end
with parse_elements (fuel : nat) (depth : Z) (s : bytes) : option (list json * bytes) :=
  match fuel with
  | O => None
  | S fuel =>
      match parse_value fuel depth s with
      | None => None
      | Some (v, r) =>
          match skip_ws r with
          | x5d :: r => Some ([v], r)
          | x2c :: r =>
              match parse_elements fuel depth r with
              | Some (l, r) => Some (v :: l, r)
              | None => None
              end
          | _ => None
          end
      end
  end.

(** The whole input is one value with white space around it. *)
Definition parse (s : bytes) : option json :=
  match parse_value (S (2 * length s)) 0 s with
  | Some (v, rest) => match skip_ws rest with [] => Some v | _ => None end
  | None => None
  end.

(** ** Writing *)

Definition separated (l : list bytes) : bytes :=
  match l with
  | [] => []
  | x :: l => x ++ foldr (fun y acc => x2c :: y ++ acc) [] l
  end.

Fixpoint print (v : json) : bytes :=
  match v with
  | JNull => [x6e; x75; x6c; x6c]
  | JBool true => [x74; x72; x75; x65]
  | JBool false => [x66; x61; x6c; x73; x65]
  | JNum lit => lit
  | JStr s => json_quote s
  | JArr l => x5b :: separated (map print l) ++ [x5d]
  | JObj m => x7b :: separated (map (fun kv => json_quote kv.1 ++ x3a :: print kv.2) m) ++ [x7d]
  end.

(** ** Integers survive *)

Lemma code_range b : 0 ≤ code b < 256.
Proof. unfold code. pose proof (Byte.to_N_bounded b). lia. Qed.

Lemma code_byte_of z : 0 ≤ z < 256 → code (byte_of z) = z.
Proof.
  intros Hz. unfold code, byte_of.
  destruct (Byte.of_N (Z.to_N z)) as [b|] eqn:E.
  - simpl. rewrite (Byte.to_of_N _ E). lia.
  - apply Byte.of_N_None_iff in E. lia.
Qed.

Lemma byte_of_code b : byte_of (code b) = b.
Proof. unfold byte_of, code. by rewrite N2Z.id, Byte.of_to_N. Qed.

Lemma digit_spec z : 0 ≤ z < 10 → is_digit (digit z) = true ∧ code (digit z) - 48 = z.
Proof.
  intros Hz. unfold is_digit, in_range, digit. rewrite code_byte_of by lia.
  split; [|lia]. apply andb_true_iff. rewrite !Z.leb_le. lia.
Qed.

(** No leading zero: the literal is "0" or starts with another digit. *)
Definition canonical (l : bytes) : Prop :=
  match l with [] => False | b :: r => is_digit b = true ∧ (b = x30 → r = []) end.

Lemma udigits_S f z acc :
  udigits (S f) z acc =
  if z <? 10 then digit z :: acc else udigits f (z / 10) (digit (z mod 10) :: acc).
Proof. done. Qed.

Lemma udigits_spec f z acc :
  0 ≤ z < 10 ^ Z.of_nat (S f) → forallb is_digit acc = true → (z = 0 → acc = []) →
  forallb is_digit (udigits (S f) z acc) = true ∧ canonical (udigits (S f) z acc) ∧
  digits_value 0 (udigits (S f) z acc) = digits_value z acc.
Proof.
  revert z acc. induction f as [|f IH]; intros z acc Hz Hacc Hzero;
    rewrite udigits_S; destruct (Z.ltb_spec z 10) as [Hlt|Hge].
  1, 3: destruct (digit_spec z) as [Hd Hv]; [lia|]; split_and!;
    [simpl; by rewrite Hd|simpl; split; [done|]|simpl; by rewrite Hv].
  1, 2: intros E; apply Hzero; rewrite E in Hv; vm_compute in Hv; lia.
  - change (10 ^ Z.of_nat 1) with 10 in Hz. lia.
  - destruct (digit_spec (z mod 10)) as [Hd Hv]; [apply Z.mod_pos_bound; lia|].
    destruct (IH (z / 10) (digit (z mod 10) :: acc)) as (H1 & H2 & H3).
    + rewrite Nat2Z.inj_succ, Z.pow_succ_r in Hz by lia.
      split; [apply Z.div_pos; lia|apply Z.div_lt_upper_bound; lia].
    + simpl. by rewrite Hd.
    + intros E. pose proof (Z.div_mod z 10). pose proof (Z.mod_pos_bound z 10). lia.
    + split_and!; [done|done|]. rewrite H3. simpl. rewrite Hv. f_equal.
      pose proof (Z.div_mod z 10). lia.
Qed.

Lemma print_uint_spec z :
  in_u64 z → forallb is_digit (print_uint z) = true ∧ canonical (print_uint z) ∧
  parse_uint (print_uint z) = Some z.
Proof.
  intros Hz. destruct (udigits_spec 19 z []) as (Hd & Hc & Hv); [|done|done|].
  { change (10 ^ Z.of_nat 20) with 100000000000000000000. ulia. }
  split_and!; [done|done|]. unfold parse_uint, print_uint. rewrite Hd, Hv.
  change (digits_value z []) with z. rewrite (proj2 (Z.ltb_lt _ _)) by (apply Hz).
  by destruct (udigits 20 z []).
Qed.

(** ** Base64 survives *)

Lemma b64_val_char v : 0 ≤ v < 64 → b64_val (b64_char v) = Some v.
Proof.
  intros Hv. assert (forallb (fun k => bool_decide (b64_val (b64_char k) = Some k))
    (map Z.of_nat (seq 0 64)) = true) as Hall by (vm_compute; done).
  rewrite forallb_forall in Hall.
  apply (bool_decide_eq_true (b64_val (b64_char v) = Some v)), Hall, in_map_iff.
  exists (Z.to_nat v). rewrite in_seq. lia.
Qed.

Lemma b64_val_break b : b64_val b ≠ None → negb (bool_decide (b = x0d) || bool_decide (b = x0a)) = true.
Proof. by destruct b. Qed.

Ltac div_solve := Z.to_euclidean_division_equations; lia.

(** Decoding the three bytes of a group. *)
Lemma b64_byte1 a b : 0 ≤ a < 256 → 0 ≤ b < 16 → (a / 4) * 4 + (a mod 4 * 16 + b) / 16 = a.
Proof. intros. div_solve. Qed.

Lemma b64_byte2 x b c :
  0 ≤ b < 256 → 0 ≤ c < 4 → (x * 16 + b / 16) mod 16 * 16 + (b mod 16 * 4 + c) / 4 = b.
Proof. intros. div_solve. Qed.

Lemma b64_byte3 y c : 0 ≤ c < 256 → (y * 4 + c / 64) mod 4 * 64 + c mod 64 = c.
Proof. intros. div_solve. Qed.

Lemma b64_groups_encode l : b64_groups (b64_encode l) = Some l.
Proof.
  induction l as [l IH] using (induction_ltof1 _ (@length byte)). unfold ltof in IH.
  destruct l as [|a [|b [|c r]]]; [done|..]; cbn [b64_encode b64_groups];
    pose proof (code_range a);
    try (pose proof (code_range b)); try (pose proof (code_range c));
    rewrite ?b64_val_char by div_solve.
  - change (b64_val x3d) with (@None Z). simpl.
    replace (code a mod 4 * 16) with (code a mod 4 * 16 + 0) by lia.
    by rewrite b64_byte1, byte_of_code by lia.
  - change (b64_val x3d) with (@None Z). simpl.
    rewrite b64_byte1 by div_solve.
    replace (code b mod 16 * 4) with (code b mod 16 * 4 + 0) by lia.
    by rewrite b64_byte2, !byte_of_code by lia.
  - rewrite IH by (simpl; lia).
    rewrite b64_byte1, b64_byte2, b64_byte3, !byte_of_code by div_solve. done.
Qed.

Lemma b64_char_text v :
  0 ≤ v < 64 →
  negb (bool_decide (b64_char v = x0d) || bool_decide (b64_char v = x0a)) = true ∧
  code (b64_char v) < 128.
Proof.
  intros Hv. split; [apply b64_val_break; by rewrite b64_val_char|].
  unfold b64_char. split_ifs; rewrite ?code_byte_of by lia; try lia; done.
Qed.

Lemma b64_encode_text l :
  Forall (λ b, negb (bool_decide (b = x0d) || bool_decide (b = x0a)) = true ∧ code b < 128)
    (b64_encode l).
Proof.
  induction l as [l IH] using (induction_ltof1 _ (@length byte)). unfold ltof in IH.
  destruct l as [|a [|b [|c r]]]; [by constructor|..]; cbn [b64_encode];
    pose proof (code_range a);
    try (pose proof (code_range b)); try (pose proof (code_range c));
    repeat (apply Forall_cons; split; [first [done|apply b64_char_text; div_solve]|]);
    [by constructor..|apply IH; simpl; lia].
Qed.

Lemma filter_all {A} (P : A → bool) l : Forall (λ x, P x = true) l → List.filter P l = l.
Proof. induction 1 as [|x l Hx _ IH]; simpl; [done|]. by rewrite Hx, IH. Qed.

Lemma b64_decode_encode l : b64_decode (b64_encode l) = Some l.
Proof.
  unfold b64_decode. rewrite filter_all; [apply b64_groups_encode|].
  eapply Forall_impl; [apply b64_encode_text|]. by intros x [].
Qed.

Lemma ascii_valid l : Forall (λ b, code b < 128) l → valid_utf8 l = true.
Proof.
  unfold valid_utf8. induction 1 as [|b l Hb _ IH]; [done|].
  cbn [valid_from rune_len]. by rewrite (proj2 (Z.ltb_lt _ _)) by lia.
Qed.

Lemma b64_encode_valid l : valid_utf8 (b64_encode l) = true.
Proof. apply ascii_valid. eapply Forall_impl; [apply b64_encode_text|]. by intros x []. Qed.

(** ** Text survives *)

(** What the encoders produce: integers in range, UTF-8 strings, at most [h]
    levels of nesting. *)
Unset Elimination Schemes.

Inductive written : nat → json → Prop :=
| W_null h : written h JNull
| W_bool h b : written h (JBool b)
| W_uint h z : in_u64 z → written h (JNum (print_uint z))
| W_str h s : valid_utf8 s = true → written h (JStr s)
| W_arr h l : Forall (written h) l → written (S h) (JArr l)
| W_obj h m :
    Forall (λ kv : bytes * json, valid_utf8 kv.1 = true ∧ written h kv.2) m →
    written (S h) (JObj m).

Set Elimination Schemes.

(** Where a value ends: the end of the text, a comma or a closing bracket. *)
Definition stops (rest : bytes) : Prop :=
  match rest with [] => True | b :: _ => b = x2c ∨ b = x7d ∨ b = x5d end.

Lemma stops_next rest :
  stops rest → scan_frac rest = Some ([], rest) ∧ scan_exp rest = Some ([], rest) ∧
  span_digits rest = ([], rest).
Proof. destruct rest as [|b r]; [done|]. by intros [->|[->| ->]]. Qed.

Lemma span_digits_app d rest :
  forallb is_digit d = true → stops rest → span_digits (d ++ rest) = (d, rest).
Proof.
  intros Hd Hs. induction d as [|b d IH]; simpl in *; [by apply stops_next|].
  apply andb_true_iff in Hd as [-> Hd]. by rewrite IH.
Qed.

Lemma scan_number_app l rest :
  canonical l → forallb is_digit l = true → stops rest →
  scan_number (l ++ rest) = Some (l, rest).
Proof.
  intros Hc Hd Hs. destruct l as [|b l]; [done|]. destruct Hc as [Hb H0].
  destruct (stops_next _ Hs) as (Hf & He & _).
  assert (scan_int ((b :: l) ++ rest) = Some (b :: l, rest)) as Hi.
  { pose proof (span_digits_app (b :: l) rest Hd Hs) as Hsp.
    destruct (decide (b = x30)) as [->|Hne]; [by rewrite H0|].
    assert (scan_int ((b :: l) ++ rest) = digits1 ((b :: l) ++ rest)) as ->
      by (by destruct b).
    unfold digits1. by rewrite Hsp. }
  unfold scan_number. replace (match (b :: l) ++ rest with
    | x2d :: r => ([x2d], r) | _ => ([], (b :: l) ++ rest) end)
    with (@nil byte, (b :: l) ++ rest) by (by destruct b).
  rewrite Hi, Hf, He. by rewrite app_nil_r.
Qed.

Lemma parse_number f d l rest :
  canonical l → forallb is_digit l = true → stops rest →
  parse_value (S f) d (l ++ rest) = Some (JNum l, rest).
Proof.
  intros Hc Hd Hs. pose proof (scan_number_app l rest Hc Hd Hs) as Hn.
  destruct l as [|b l]; [done|]. destruct Hc as [Hb _].
  change ((b :: l) ++ rest) with (b :: (l ++ rest)) in *.
  assert (is_ws b = false ∧ b ≠ x22 ∧ b ≠ x7b ∧ b ≠ x5b ∧ b ≠ x74 ∧ b ≠ x66 ∧ b ≠ x6e)
    as (Hw & ? & ? & ? & ? & ? & ?) by (by destruct b).
  cbn [parse_value skip_ws]. rewrite Hw. rewrite !bool_decide_eq_false_2 by done.
  by rewrite Hn.
Qed.

Lemma parse_string f d s rest :
  valid_utf8 s = true → parse_value (S f) d (json_quote s ++ rest) = Some (JStr s, rest).
Proof.
  intros Hs. destruct (read_quote s rest Hs) as (q & -> & Hq). simpl. by rewrite Hq.
Qed.

(** A printed value starts with a byte that is neither white space nor a closing
    bracket. *)
Lemma print_head h v :
  written h v → ∃ b r, print v = b :: r ∧ is_ws b = false ∧ b ≠ x5d ∧ b ≠ x7d.
Proof.
  destruct 1 as [| ? []|h z Hz| | |]; try by (repeat eexists).
  destruct (print_uint_spec z Hz) as (_ & Hc & _). simpl.
  destruct (print_uint z) as [|b r]; [done|]. destruct Hc as [Hb _].
  exists b, r. by destruct b.
Qed.

Lemma separated_cons x l :
  separated (x :: l) = x ++ match l with [] => [] | _ => x2c :: separated l end.
Proof. destruct l; simpl; [done|by rewrite app_nil_r || done]. Qed.

Definition print_member (kv : bytes * json) : bytes := json_quote kv.1 ++ x3a :: print kv.2.

(** The parser reads back any printed value of at most [h] levels. *)
Definition reads (h : nat) : Prop :=
  ∀ v d rest f, written h v → d + Z.of_nat h ≤ maxNestingDepth → stops rest →
  (2 * length (print v) < f)%nat → parse_value f d (print v ++ rest) = Some (v, rest).

Lemma parse_elements_print h l d rest f :
  reads h → Forall (written h) l → l ≠ [] → d + Z.of_nat h ≤ maxNestingDepth →
  (2 * length (separated (map print l)) + 1 < f)%nat →
  parse_elements f d (separated (map print l) ++ x5d :: rest) = Some (l, rest).
Proof.
  intros Hr Hl. revert f. induction Hl as [|v l Hv _ IH]; intros f Hne Hd Hf; [done|].
  rewrite map_cons, separated_cons, length_app in Hf.
  rewrite map_cons, separated_cons, <-app_assoc.
  destruct f as [|f]; [lia|]. cbn [parse_elements]. destruct l as [|w l]; simpl in *.
  - rewrite (Hr v d); [done|done|done|right; by right|lia].
  - rewrite (Hr v d); [|done|done|by left|lia]. simpl.
    rewrite IH; [done|done|done|lia].
Qed.

Lemma parse_members_print h m d rest f :
  reads h → Forall (λ kv, valid_utf8 kv.1 = true ∧ written h kv.2) m → m ≠ [] →
  d + Z.of_nat h ≤ maxNestingDepth →
  (2 * length (separated (map print_member m)) + 1 < f)%nat →
  parse_members f d (separated (map print_member m) ++ x7d :: rest) = Some (m, rest).
Proof.
  intros Hr Hm. revert f. induction Hm as [|[k v] m [Hk Hv] _ IH]; intros f Hne Hd Hf; [done|].
  rewrite map_cons, separated_cons, length_app in Hf. unfold print_member in Hf at 1.
  rewrite map_cons, separated_cons. unfold print_member at 1. cbn [fst snd] in *.
  rewrite length_app in Hf. rewrite <-!app_assoc.
  set (tail := match map print_member m with [] => [] | _ => _ end) in *.
  destruct (read_quote k ((x3a :: print v) ++ tail ++ x7d :: rest) Hk) as (q & -> & Hq).
  destruct f as [|f]; [lia|]. cbn [parse_members]. simpl in Hq |- *. rewrite Hq.
  simpl in Hf. subst tail. destruct m as [|kv m]; simpl in *.
  - rewrite (Hr v d); [done|done|done|by right; left|lia].
  - rewrite (Hr v d); [|done|done|by left|lia]. simpl.
    rewrite IH; [done|done|done|lia].
Qed.

Lemma skip_ws_head b r : is_ws b = false → skip_ws (b :: r) = b :: r.
Proof. simpl. by intros ->. Qed.

Lemma reads_all h : reads h.
Proof.
  induction h as [|h IH]; intros v d rest f Hv Hd Hs Hf;
    (destruct f as [|f]; [lia|]); inversion Hv as [| ? []| | |? l Hl|? m Hm]; subst; try done.
  1, 3: destruct (print_uint_spec z) as (? & ? & _); [done|]; by apply parse_number.
  1, 2: by apply parse_string.
  - cbn [print] in *. destruct l as [|w l]; [|].
    { simpl. rewrite (proj2 (Z.leb_gt _ _)) by lia. done. }
    inversion Hl as [|? ? Hw _]; subst.
    pose proof (parse_elements_print h (w :: l) (d + 1) rest f IH Hl) as He.
    destruct (print_head h w Hw) as (b & r & Eb & Hb & Hb1 & _).
    assert (∃ t, separated (map print (w :: l)) = b :: t) as [t Et].
    { rewrite map_cons, separated_cons, Eb. eexists. reflexivity. }
    rewrite Et in *. simpl in Hf. rewrite <-app_comm_cons, <-app_assoc.
    cbn [parse_value]. rewrite skip_ws_head by done.
    rewrite (bool_decide_eq_false_2 (x5b = x22)), (bool_decide_eq_false_2 (x5b = x7b)) by done.
    rewrite (bool_decide_eq_true_2 (x5b = x5b)) by done.
    rewrite (proj2 (Z.leb_gt _ _)) by lia. change ([x5d] ++ rest) with (x5d :: rest).
    rewrite He; [|done|lia|simpl; rewrite length_app in Hf; simpl in Hf; lia].
    simpl. rewrite Hb. by destruct b.
  - cbn [print] in *. change (map _ m) with (map print_member m) in *.
    destruct m as [|[k w] m].
    { simpl. rewrite (proj2 (Z.leb_gt _ _)) by lia. done. }
    pose proof (parse_members_print h ((k, w) :: m) (d + 1) rest f IH Hm) as He.
    assert (∃ t, separated (map print_member ((k, w) :: m)) = x22 :: t) as [t Et].
    { rewrite map_cons, separated_cons. eexists. reflexivity. }
    rewrite Et in *. simpl in Hf. rewrite <-app_comm_cons, <-app_assoc.
    cbn [parse_value]. rewrite skip_ws_head by done.
    rewrite (bool_decide_eq_false_2 (x7b = x22)) by done.
    rewrite (bool_decide_eq_true_2 (x7b = x7b)) by done.
    rewrite (proj2 (Z.leb_gt _ _)) by lia. change ([x7d] ++ rest) with (x7d :: rest).
    rewrite He; [done|done|lia|simpl; rewrite length_app in Hf; simpl in Hf; lia].
Qed.

(** What is written is read back. *)
Lemma parse_print h v :
  written h v → Z.of_nat h ≤ maxNestingDepth → parse (print v) = Some v.
Proof.
  intros Hv Hh. unfold parse. rewrite <-(app_nil_r (print v)) at 2.
  rewrite (reads_all h v 0 []); [done|done|lia|done|lia].
Qed.
