(* ===== verification/JsonCodec.v ===== *)
(** * JsonCodec: decoding JSON trees into Go values

    How [json.Unmarshal] stores a tree into a struct: keys select fields by exact
    name and then by folded name, unknown keys are skipped, null leaves strings,
    numbers and structs as they are and empties slices, later keys override
    earlier ones, and one mismatch of types makes the whole call an error. A
    second occurrence of a key decodes over the zero value of the field. *)
From S2P Require Import Prelude GoStrings Types JsonString Json.

Abbreviation jerror := (ErrExternal "json") (only parsing).

(** ** Field names (foldName): ASCII letters fold to upper case; the only other
    runes that fold to ASCII letters are U+017F and U+212A. *)
Fixpoint fold_name (s : bytes) : bytes :=
  match s with
  | [] => []
  | xc5 :: xbf :: r => x53 :: fold_name r
  | xe2 :: x84 :: xaa :: r => x4b :: fold_name r
  | b :: r => (if in_range 97 122 b then byte_of (code b - 32) else b) :: fold_name r
  end.

Definition field_of (names : list string) (key : bytes) : option string :=
  if bool_decide (string_of_bytes key ∈ names) then Some (string_of_bytes key)
  else List.find (fun n => bool_decide (fold_name (bytes_of_string n) = fold_name key)) names.

(** Decoding the members of an object one after the other. *)
Definition decode_members {T} (names : list string) (step : string → json → T → option T)
    (m : list (bytes * json)) (zero : T) : option T :=
  foldl (fun acc kv =>
           match acc with
           | None => None
           | Some t =>
               match field_of names kv.1 with
               | Some n => step n kv.2 t
               | None => Some t
               end
           end) (Some zero) m.

(** A struct: an object, or null for "leave it". *)
Definition decode_struct {T} (names : list string) (step : string → json → T → option T)
    (zero : T) (v : json) : option T :=
  match v with
  | JObj m => decode_members names step m zero
  | JNull => Some zero
  | _ => None
  end.

(** ** Leaves *)

Definition dec_string (old : string) (v : json) : option string :=
  match v with JStr s => Some (string_of_bytes s) | JNull => Some old | _ => None end.

Definition dec_uint (old : Z) (v : json) : option Z :=
  match v with JNum l => parse_uint l | JNull => Some old | _ => None end.

(** An array element that is a byte. *)
Definition dec_byte (v : json) : option byte :=
  match v with
  | JNum l => match parse_uint l with
              | Some z => if z <? 256 then Some (byte_of z) else None
              | None => None
              end
  | JNull => Some x00
  | _ => None
  end.

(** [[]byte]: base64 text, null, or an array of small numbers. *)
Definition dec_bytes (v : json) : option bytes :=
  match v with
  | JStr s => b64_decode s
  | JNull => Some []
  | JArr l => mapM dec_byte l
  | _ => None
  end.

(** [*bool] *)
Definition dec_bool_ptr (v : json) : option (option bool) :=
  match v with JBool b => Some (Some b) | JNull => Some None | _ => None end.

(** A slice; [None] is the nil slice. *)
Definition dec_slice {A} (dec : json → option A) (v : json) : option (option (list A)) :=
  match v with
  | JArr l => match mapM dec l with Some l => Some (Some l) | None => None end
  | JNull => Some None
  | _ => None
  end.

(** ** Encoding leaves *)

Definition enc_string (s : string) : json := JStr (bytes_of_string s).

Definition enc_uint (z : Z) : json := JNum (print_uint z).

(** A nil byte slice is null. *)
Definition enc_bytes (b : bytes) : json := match b with [] => JNull | _ => JStr (b64_encode b) end.

Definition valid_string (s : string) : Prop := valid_utf8 (bytes_of_string s) = true.

#[export] Instance valid_string_dec s : Decision (valid_string s) := _.

(** ** What decoding can give *)

(** A property of the zero value that every field keeps. *)
Lemma decode_struct_inv {T} names (step : string → json → T → option T) zero (P : T → Prop) v t :
  P zero → (∀ name v t t', P t → step name v t = Some t' → P t') →
  decode_struct names step zero v = Some t → P t.
Proof.
  intros Hz Hs. destruct v as [| | | | |m]; try done; [by intros [= <-]|]. cbn.
  unfold decode_members. revert zero Hz. induction m as [|[k v] m IH]; intros zero Hz; cbn.
  { by intros [= <-]. }
  destruct (field_of names k) as [name|]; [|by apply IH].
  destruct (step name v zero) as [t1|] eqn:E; [apply IH; by eapply Hs|].
  clear. induction m; [done|]. by cbn.
Qed.

Lemma parse_uint_typed l z : parse_uint l = Some z → in_u64 z.
Proof.
  unfold parse_uint. destruct l as [|b l]; [done|]. destruct (forallb is_digit (b :: l)) eqn:Hd; [|done].
  destruct (Z.ltb_spec (digits_value 0 (b :: l)) two64); [|done]. intros [= <-].
  split; [|done]. clear -Hd. unfold digits_value.
  assert (∀ acc, 0 ≤ acc → 0 ≤ fold_left (λ a b, a * 10 + (code b - 48)) (b :: l) acc) as H; [|by apply H].
  revert Hd. generalize (b :: l). clear. intros l. induction l as [|b l IH]; intros Hd acc Ha; [done|].
  cbn in *. apply andb_true_iff in Hd as [Hb Hd]. apply IH; [done|].
  unfold is_digit, in_range in Hb. apply andb_true_iff in Hb as [?%Z.leb_le _]. lia.
Qed.

Lemma dec_uint_typed old v z : in_u64 old → dec_uint old v = Some z → in_u64 z.
Proof. destruct v; cbn; try done; [by intros ? [= <-]|]. intros _. apply parse_uint_typed. Qed.

(** ** Leaves survive *)

Lemma string_of_bytes_of_string s : string_of_bytes (bytes_of_string s) = s.
Proof. apply String.string_of_list_byte_of_string. Qed.

Lemma dec_enc_string old s : dec_string old (enc_string s) = Some s.
Proof. simpl. by rewrite string_of_bytes_of_string. Qed.

Lemma dec_enc_uint old z : in_u64 z → dec_uint old (enc_uint z) = Some z.
Proof. intros Hz. by apply print_uint_spec. Qed.

Lemma dec_enc_bytes b : dec_bytes (enc_bytes b) = Some b.
Proof. destruct b; [done|]. apply b64_decode_encode. Qed.

Lemma written_string h s : valid_string s → written h (enc_string s).
Proof. by constructor. Qed.

Lemma written_uint h z : in_u64 z → written h (enc_uint z).
Proof. by constructor. Qed.

Lemma written_bytes h b : written h (enc_bytes b).
Proof. destruct b; constructor. apply b64_encode_valid. Qed.

Lemma written_mono h h' v : written h v → (h ≤ h')%nat → written h' v.
Proof.
  revert h' v. induction h as [|h IH]; intros h' v Hv Hh; inversion Hv as [| | | |? l Hl|? m Hm];
    subst; try by constructor.
  - destruct h' as [|h']; [lia|]. constructor. eapply Forall_impl; [done|].
    intros x Hx. apply IH; [done|lia].
  - destruct h' as [|h']; [lia|]. constructor. eapply Forall_impl; [done|].
    intros x [? Hx]. split; [done|]. apply IH; [done|lia].
Qed.

#[export] Hint Resolve written_string written_uint written_bytes : go_db.

(** ** Structs survive, field by field *)

Lemma field_of_name names n : n ∈ names → field_of names (bytes_of_string n) = Some n.
Proof.
  intros Hn. unfold field_of. rewrite string_of_bytes_of_string.
  by rewrite bool_decide_eq_true_2.
Qed.

Lemma decode_field {T} names (step : string → json → T → option T) n v m t t' :
  n ∈ names → step n v t = Some t' →
  decode_members names step ((bytes_of_string n, v) :: m) t = decode_members names step m t'.
Proof.
  intros Hn Hs. unfold decode_members. cbn [foldl fst snd].
  by rewrite (field_of_name _ _ Hn), Hs.
Qed.

#[export] Hint Rewrite dec_enc_string dec_enc_bytes : go_rw.

(** One member after the other: the field is found by evaluation, its value is
    decoded by the lemmas on leaves. *)
Ltac decode_fields f :=
  repeat (erewrite decode_field;
    [|set_solver
     |unfold f; autorewrite with go_rw; rewrite ?dec_enc_uint by done; reflexivity]).
