(* ===== verification/MembershipCodec.v ===== *)
(** * MembershipCodec: membership commands as JSON (src/raft/membership.go)

    The interface [MembershipJSON] implemented with the model of encoding/json,
    and its law: a command made of UTF-8 strings is read back unchanged. *)
From S2P Require Import Prelude GoStrings Types Membership JsonString Json JsonCodec.

Definition json_of_membershipCommand (c : membershipCommand) : json :=
  JObj [(bytes_of_string "operation", enc_string (mcmd_Operation c));
        (bytes_of_string "type", enc_string (mcmd_Type c));
        (bytes_of_string "peer_id", enc_string (mcmd_PeerID c))].

Definition membershipCommand_field (name : string) (v : json) (c : membershipCommand)
    : option membershipCommand :=
  if bool_decide (name = "operation") then
    s ← dec_string (mcmd_Operation c) v;
    Some (mkMembershipCommand s (mcmd_Type c) (mcmd_PeerID c))
  else if bool_decide (name = "type") then
    s ← dec_string (mcmd_Type c) v;
    Some (mkMembershipCommand (mcmd_Operation c) s (mcmd_PeerID c))
  else if bool_decide (name = "peer_id") then
    s ← dec_string (mcmd_PeerID c) v;
    Some (mkMembershipCommand (mcmd_Operation c) (mcmd_Type c) s)
  else Some c.

Definition membershipCommand_of_json (v : json) : option membershipCommand :=
  decode_struct ["operation"; "type"; "peer_id"] membershipCommand_field
    (mkMembershipCommand "" "" "") v.

#[export] Instance goMembershipJSON : MembershipJSON := {
  marshal_membershipCommand c := inl (print (json_of_membershipCommand c));
  unmarshal_membershipCommand data :=
    match parse data ≫= membershipCommand_of_json with
    | Some c => inl c
    | None => inr jerror
    end;
}.

#[export] Instance goMembershipJSON_laws : MembershipJSONLaws valid_string.
Proof.
  constructor. intros op ty id Hop Hty Hid. eexists. split; [done|].
  cbn [unmarshal_membershipCommand goMembershipJSON]. rewrite (parse_print 1).
  - cbn [mbind option_bind]. unfold membershipCommand_of_json. simpl decode_struct.
    by decode_fields membershipCommand_field.
  - repeat constructor; done.
  - done.
Qed.
