(* ===== verification/Bolt.v ===== *)
(** * Bolt: the interface of the embedded database (go.etcd.io/bbolt)

    The stores reach bbolt through transactions. [BoltDB] lists the calls they
    make, [BoltLaws] what bbolt documents of them: an update whose function and
    commit succeed is what later transactions see, any other update changes
    nothing, and a bucket is a map from keys to values. *)
From S2P Require Import Prelude Types.

Class BoltDB (DB : Type) := {
  Tx : Type;
  (** [db.Update(fn)]: a read-write transaction around [fn]. *)
  Update : (Tx → Tx * error) → DB → DB * error;
  (** [db.View]: the transaction a reader sees, or why there is none. *)
  View : DB → Tx + GoError;
  CreateBucketIfNotExists : string → Tx → Tx * error;
  (** [tx.DeleteBucket]; the flag says whether its error is ErrBucketNotFound. *)
  DeleteBucket : string → Tx → Tx * option (bool * GoError);
  (** [tx.Bucket(name) != nil] *)
  HasBucket : string → Tx → bool;
  Bucket_Put : string → string → bytes → Tx → Tx * error;
  Bucket_Delete : string → string → Tx → Tx * error;
  Bucket_Get : string → string → Tx → option bytes;
  (** The pairs [bucket.ForEach] visits, in order. *)
  Bucket_All : string → Tx → list (string * bytes);
}.

(** The contents of a transaction: buckets of keys and values. *)
Abbreviation bolt_view := (gmap string (gmap string bytes)).

Class BoltLaws (DB : Type) `{BoltDB DB} (tx_view : Tx → bolt_view) : Prop := {
  Update_nil : ∀ f (db db' : DB), Update f db = (db', None) →
    ∃ t t1 t2 t', View db = inl t ∧ tx_view t1 = tx_view t ∧ f t1 = (t2, None) ∧
      View db' = inl t' ∧ tx_view t' = tx_view t2;
  Update_error : ∀ f (db db' : DB) e, Update f db = (db', Some e) →
    match View db with
    | inl t => ∃ t', View db' = inl t' ∧ tx_view t' = tx_view t
    | inr e' => View db' = inr e'
    end;
  Create_ok : ∀ b t t', CreateBucketIfNotExists b t = (t', None) →
    tx_view t' = match tx_view t !! b with Some _ => tx_view t | None => <[b := ∅]> (tx_view t) end;
  DeleteBucket_ok : ∀ b t t', DeleteBucket b t = (t', None) →
    tx_view t' = delete b (tx_view t);
  DeleteBucket_none : ∀ b t t' e, DeleteBucket b t = (t', Some (true, e)) →
    tx_view t' = tx_view t ∧ tx_view t !! b = None;
  HasBucket_spec : ∀ b t, HasBucket b t = bool_decide (is_Some (tx_view t !! b));
  Put_ok : ∀ b k v t t' m, tx_view t !! b = Some m → Bucket_Put b k v t = (t', None) →
    tx_view t' = <[b := <[k := v]> m]> (tx_view t);
  Delete_ok : ∀ b k t t' m, tx_view t !! b = Some m → Bucket_Delete b k t = (t', None) →
    tx_view t' = <[b := delete k m]> (tx_view t);
  Get_spec : ∀ b k t m, tx_view t !! b = Some m → Bucket_Get b k t = m !! k;
  All_spec : ∀ b t m, tx_view t !! b = Some m → Bucket_All b t ≡ₚ map_to_list m;
}.

Section bolt.
Context {DB : Type} `{!BoltDB DB} (tx_view : Tx → bolt_view) `{!BoltLaws DB tx_view}.

Lemma Update_ok f (db db' : DB) t :
  View db = inl t → Update f db = (db', None) →
  ∃ t1 t2, tx_view t1 = tx_view t ∧ f t1 = (t2, None) ∧
    ∃ t', View db' = inl t' ∧ tx_view t' = tx_view t2.
Proof.
  intros Ht Hu. destruct (Update_nil _ _ _ Hu) as (t0 & t1 & t2 & t' & Ht0 & ? & ? & ? & ?).
  rewrite Ht in Ht0. simplify_eq. exists t1, t2. split_and!; try done. by exists t'.
Qed.

Lemma Update_err f (db db' : DB) t e :
  View db = inl t → Update f db = (db', Some e) →
  ∃ t', View db' = inl t' ∧ tx_view t' = tx_view t.
Proof. intros Ht Hu. pose proof (Update_error _ _ _ _ Hu) as He. by rewrite Ht in He. Qed.

End bolt.
