(* ===== verification/KVCommand.v ===== *)
(** * KVCommand: key-value commands and their JSON (src/store/kv_command.go) *)
From S2P Require Import Prelude GoStrings Types JsonString Json JsonCodec.

(** type Operation is a string; decoded data may hold any. *)
Definition OperationPut : string := "put".

Definition OperationDelete : string := "delete".

Definition OperationNoop : string := "noop".

Record Command := mkCommand {
  cmd_Operation : string;
  cmd_Key : string;
  cmd_Value : bytes;
}.

(** func (c Command) Validate() error *)
Definition Validate (c : Command) : error :=
  if bool_decide (cmd_Operation c = OperationNoop) then None
  else if bool_decide (cmd_Key c = "") then Some (ErrFormat "kv command key is required" [])
  else if bool_decide (cmd_Operation c = OperationPut)
          || bool_decide (cmd_Operation c = OperationDelete) then None
  else Some (ErrFormat "unsupported kv operation %q" [cmd_Operation c]).

(** The struct's tags: the value is left out when empty. *)
Definition json_of_Command (c : Command) : json :=
  JObj ([(bytes_of_string "operation", enc_string (cmd_Operation c));
         (bytes_of_string "key", enc_string (cmd_Key c))]
        ++ match cmd_Value c with
           | [] => []
           | _ => [(bytes_of_string "value", enc_bytes (cmd_Value c))]
           end).

Definition Command_field (name : string) (v : json) (c : Command) : option Command :=
  if bool_decide (name = "operation") then
    s ← dec_string (cmd_Operation c) v; Some (mkCommand s (cmd_Key c) (cmd_Value c))
  else if bool_decide (name = "key") then
    s ← dec_string (cmd_Key c) v; Some (mkCommand (cmd_Operation c) s (cmd_Value c))
  else if bool_decide (name = "value") then
    b ← dec_bytes v; Some (mkCommand (cmd_Operation c) (cmd_Key c) b)
  else Some c.

Definition Command_of_json (v : json) : option Command :=
  decode_struct ["operation"; "key"; "value"] Command_field (mkCommand "" "" []) v.

(** func EncodeCommand *)
Definition EncodeCommand (command : Command) : bytes + GoError :=
  match Validate command with
  | Some err => inr err
  | None => inl (print (json_of_Command command))
  end.

(** func DecodeCommand *)
Definition DecodeCommand (data : bytes) : Command + GoError :=
  match parse data ≫= Command_of_json with
  | None => inr jerror
  | Some command =>
      match Validate command with
      | Some err => inr err
      | None => inl command
      end
  end.

(** ** Round trip *)

Lemma Command_json_roundtrip c : Command_of_json (json_of_Command c) = Some c.
Proof.
  unfold Command_of_json, json_of_Command. simpl decode_struct.
  destruct c as [op k v]. cbn [cmd_Operation cmd_Key cmd_Value].
  destruct v as [|b v]; by decode_fields Command_field.
Qed.

Lemma Command_parse_print c :
  valid_string (cmd_Operation c) → valid_string (cmd_Key c) →
  parse (print (json_of_Command c)) = Some (json_of_Command c).
Proof.
  intros Ho Hk. apply (parse_print 1); [|done]. constructor.
  destruct c as [op k [|b v]]; cbn [cmd_Operation cmd_Key cmd_Value app] in *;
    repeat (apply Forall_cons; split; [split; [done|cbn [snd]; auto with go_db]|]); by apply Forall_nil.
Qed.

(** A valid command with a UTF-8 key comes back; Validate leaves only ASCII
    operations. *)
Lemma DecodeCommand_Encode c :
  Validate c = None → valid_string (cmd_Key c) →
  ∃ b, EncodeCommand c = inl b ∧ DecodeCommand b = inl c.
Proof.
  intros Hv Hk. unfold EncodeCommand. rewrite Hv. eexists. split; [done|].
  assert (valid_string (cmd_Operation c)) as Ho.
  { unfold Validate in Hv. destruct c as [op k v]. simpl in *.
    repeat case_bool_decide; simpl in *; subst; try done. }
  unfold DecodeCommand. rewrite Command_parse_print by done. cbn [mbind option_bind].
  rewrite Command_json_roundtrip. by rewrite Hv.
Qed.

Lemma DecodeCommand_valid b c : DecodeCommand b = inl c → Validate c = None.
Proof.
  unfold DecodeCommand. destruct (parse b ≫= Command_of_json) as [c'|]; [|done].
  destruct (Validate c') eqn:E; naive_solver.
Qed.
