(* ===== verification/KVStateMachine.v ===== *)
(** * KVStateMachine: the replicated map and its mirror on disk
    (src/store/kv_state_machine.go)

    The machine keeps the map in memory and, when it has a database, the same map
    in the bucket "kv". [kv_exec] is the abstract effect of a command on a map;
    the operations refine it, in memory and on disk. *)
From stdpp Require Import sorting.
From S2P Require Import Prelude GoStrings Types JsonString Json JsonCodec Bolt KVCommand.

(** The order in which [range] visits a map is unspecified. *)
Class MapRange := {
  map_range : gmap string bytes → list (string * bytes);
  map_range_perm : ∀ m, map_range m ≡ₚ map_to_list m;
}.

Definition kvBucket : string := "kv".

(** type KVStateMachine; [kv_db] is [None] for a nil database. *)
Record KVStateMachine (DB : Type) := mkKV {
  kv_data : gmap string bytes;
  kv_db : option DB;
}.

Arguments mkKV {DB}.
Arguments kv_data {DB} _.
Arguments kv_db {DB} _.

(** Storing pairs into a map one after the other. *)
Definition insert_all (m : gmap string bytes) (l : list (string * bytes)) : gmap string bytes :=
  foldl (fun m kv => <[kv.1 := clone_bytes kv.2]> m) m l.

Section kv.
Context {DB : Type} `{!BoltDB DB} `{!MapRange}.
Implicit Types s : KVStateMachine DB.

(** func NewKVStateMachine *)
Definition NewKVStateMachine : KVStateMachine DB := mkKV ∅ None.

(** func applyBolt *)
Definition applyBolt (command : Command) (db : DB) : DB * error :=
  Update (fun tx =>
    let '(tx, err) := CreateBucketIfNotExists kvBucket tx in
    match err with
    | Some e => (tx, Some e)
    | None =>
        if bool_decide (cmd_Operation command = OperationNoop) then (tx, None)
        else if bool_decide (cmd_Operation command = OperationPut)
        then Bucket_Put kvBucket (cmd_Key command) (cmd_Value command) tx
        else if bool_decide (cmd_Operation command = OperationDelete)
        then Bucket_Delete kvBucket (cmd_Key command) tx
        else (tx, None)
    end) db.

(** func Apply *)
Definition Apply (entry : LogEntry) s : KVStateMachine DB * error :=
  match DecodeCommand (le_Command entry) with
  | inr err => (s, Some err)
  | inl command =>
      let '(db, err) :=
        match kv_db s with
        | None => (None, None)
        | Some db => let '(db, err) := applyBolt command db in (Some db, err)
        end in
      let s := mkKV (kv_data s) db in
      match err with
      | Some e => (s, Some e)
      | None =>
          if bool_decide (cmd_Operation command = OperationNoop) then (s, None)
          else if bool_decide (cmd_Operation command = OperationPut)
          then (mkKV (<[cmd_Key command := clone_bytes (cmd_Value command)]> (kv_data s)) db, None)
          else if bool_decide (cmd_Operation command = OperationDelete)
          then (mkKV (delete (cmd_Key command) (kv_data s)) db, None)
          else (s, None)
      end
  end.

(** func Apply, up to the state machine's lock: the command and the database *)
Definition apply_stored (entry : LogEntry) s : KVStateMachine DB * error :=
  match DecodeCommand (le_Command entry) with
  | inr err => (s, Some err)
  | inl command =>
      match kv_db s with
      | None => (s, None)
      | Some db => let '(db, err) := applyBolt command db in (mkKV (kv_data s) (Some db), err)
      end
  end.

(** func Apply, under the lock: the map *)
Definition apply_memory (entry : LogEntry) s : KVStateMachine DB :=
  match DecodeCommand (le_Command entry) with
  | inr _ => s
  | inl command =>
      if bool_decide (cmd_Operation command = OperationNoop) then s
      else if bool_decide (cmd_Operation command = OperationPut)
      then mkKV (<[cmd_Key command := clone_bytes (cmd_Value command)]> (kv_data s)) (kv_db s)
      else if bool_decide (cmd_Operation command = OperationDelete)
      then mkKV (delete (cmd_Key command) (kv_data s)) (kv_db s)
      else s
  end.

(** func Get *)
Definition Get (key : string) s : bytes * bool :=
  match kv_data s !! key with
  | None => ([], false)
  | Some value => (clone_bytes value, true)
  end.

(** [json.Marshal] of a map: an object with sorted keys. *)
Definition key_le (x y : string * bytes) : Prop := String.leb x.1 y.1 = true.

#[export] Instance key_le_dec : RelDecision key_le := fun x y => decide (_ = _).

Definition json_of_map (m : gmap string bytes) : json :=
  JObj (map (fun kv => (bytes_of_string kv.1, enc_bytes kv.2)) (merge_sort key_le (map_to_list m))).

(** [json.Unmarshal] into a map: later keys win; null leaves the nil map. *)
Definition map_of_json (v : json) : option (gmap string bytes) :=
  match v with
  | JObj m =>
      foldl (fun acc kv =>
               match acc, dec_bytes kv.2 with
               | Some t, Some b => Some (<[string_of_bytes kv.1 := b]> t)
               | _, _ => None
               end) (Some ∅) m
  | JNull => Some ∅
  | _ => None
  end.

(** func Snapshot *)
Definition Snapshot s : bytes + GoError := inl (print (json_of_map (clone_bytes <$> kv_data s))).

(** The loop [for key, value := range data] of restoreBolt. *)
Fixpoint putAll (l : list (string * bytes)) (tx : Tx) : Tx * error :=
  match l with
  | [] => (tx, None)
  | (key, value) :: l =>
      let '(tx, err) := Bucket_Put kvBucket key value tx in
      match err with Some e => (tx, Some e) | None => putAll l tx end
  end.

(** func restoreBolt *)
Definition restoreBolt (data : gmap string bytes) (db : DB) : DB * error :=
  Update (fun tx =>
    let '(tx, err) := DeleteBucket kvBucket tx in
    match err with
    | Some (false, e) => (tx, Some e)
    | _ =>
        let '(tx, err) := CreateBucketIfNotExists kvBucket tx in
        match err with
        | Some e => (tx, Some e)
        | None =>
            putAll (map_range data) tx
        end
    end) db.

(** func RestoreSnapshot *)
Definition RestoreSnapshot (snapshot : bytes) s : KVStateMachine DB * error :=
  match snapshot with
  | [] => (s, None)
  | _ =>
      match parse snapshot ≫= map_of_json with
      | None => (s, Some jerror)
      | Some data =>
          let restored := clone_bytes <$> data in
          match kv_db s with
          | None => (mkKV restored None, None)
          | Some db =>
              let '(db, err) := restoreBolt restored db in
              match err with
              | Some e => (mkKV (kv_data s) (Some db), Some e)
              | None => (mkKV restored (Some db), None)
              end
          end
      end
  end.

(** func load *)
Definition load (db : DB) (data : gmap string bytes) : gmap string bytes + GoError :=
  match View db with
  | inr e => inr e
  | inl tx =>
      if HasBucket kvBucket tx
      then inl (insert_all data (Bucket_All kvBucket tx))
      else inl data
  end.

(** func NewBoltKVStateMachine, with the database it leaves behind *)
Definition NewBoltKVStateMachine (db : option DB) : KVStateMachine DB + GoError :=
  match db with
  | None => inl (mkKV ∅ None)
  | Some db =>
      let '(db, err) := Update (CreateBucketIfNotExists kvBucket) db in
      match err with
      | Some e => inr e
      | None =>
          match load db ∅ with
          | inr e => inr e
          | inl data => inl (mkKV data (Some db))
          end
      end
  end.

#[export] Instance kv_StateMachine : StateMachine (KVStateMachine DB) := { Types.Apply := Apply }.

(** Apply is its two sections, one after the other. *)
Lemma apply_two_sections entry s :
  Apply entry s =
  let '(s, err) := apply_stored entry s in
  match err with Some e => (s, Some e) | None => (apply_memory entry s, None) end.
Proof.
  unfold Apply, apply_stored, apply_memory.
  destruct (DecodeCommand (le_Command entry)) as [c|e]; [|done]. destruct s as [m [db|]]; simpl.
  - destruct (applyBolt c db) as [db' [e|]]; [done|]. by repeat case_bool_decide.
  - by repeat case_bool_decide.
Qed.

#[export] Instance kv_ApplySections : ApplySections (KVStateMachine DB) := {
  ApplyStored := apply_stored;
  ApplyMemory := apply_memory;
  Apply_sections := apply_two_sections;
}.

#[export] Instance kv_SnapshotStateMachine : SnapshotStateMachine (KVStateMachine DB) := {
  Types.Snapshot := Snapshot;
  Types.RestoreSnapshot := RestoreSnapshot;
}.

End kv.

(** ** The abstract map *)

Definition kv_exec (m : gmap string bytes) (c : Command) : gmap string bytes :=
  if bool_decide (cmd_Operation c = OperationPut) then <[cmd_Key c := cmd_Value c]> m
  else if bool_decide (cmd_Operation c = OperationDelete) then delete (cmd_Key c) m
  else m.

Definition kv_run (m : gmap string bytes) (l : list Command) : gmap string bytes :=
  foldl kv_exec m l.

(** The last write of [l] to key [k]: nothing, a value, or a deletion. *)
Definition write_to (k : string) (c : Command) : option (option bytes) :=
  if bool_decide (cmd_Key c = k) then
    if bool_decide (cmd_Operation c = OperationPut) then Some (Some (cmd_Value c))
    else if bool_decide (cmd_Operation c = OperationDelete) then Some None
    else None
  else None.

Definition last_write (k : string) (l : list Command) : option (option bytes) :=
  foldl (fun acc c => match write_to k c with Some w => Some w | None => acc end) None l.

Lemma kv_exec_lookup m c k :
  kv_exec m c !! k = match write_to k c with Some w => w | None => m !! k end.
Proof.
  unfold kv_exec, write_to.
  destruct (decide (cmd_Key c = k)) as [<-|Hne].
  - rewrite (bool_decide_eq_true_2 (cmd_Key c = cmd_Key c)) by done. repeat case_bool_decide.
    + by rewrite lookup_insert_eq.
    + by rewrite lookup_delete_eq.
    + done.
  - rewrite (bool_decide_eq_false_2 (cmd_Key c = k)) by done. repeat case_bool_decide.
    + by rewrite lookup_insert_ne.
    + by rewrite lookup_delete_ne.
    + done.
Qed.

Lemma last_write_acc k l acc :
  foldl (fun acc c => match write_to k c with Some w => Some w | None => acc end) acc l =
  match last_write k l with Some w => Some w | None => acc end.
Proof.
  unfold last_write. revert acc. induction l as [|c l IH]; intros acc; simpl; [done|].
  rewrite IH, (IH (match write_to k c with Some w => Some w | None => None end)).
  destruct (foldl _ None l); [done|]. by destruct (write_to k c).
Qed.

Lemma kv_run_lookup m l k :
  kv_run m l !! k = match last_write k l with Some w => w | None => m !! k end.
Proof.
  revert m. induction l as [|c l IH]; intros m; [done|].
  unfold kv_run. simpl. fold (kv_run (kv_exec m c) l). rewrite IH.
  change (last_write k (c :: l)) with
    (foldl (fun acc c => match write_to k c with Some w => Some w | None => acc end)
       (match write_to k c with Some w => Some w | None => None end) l).
  rewrite last_write_acc. destruct (last_write k l) as [w|]; [done|].
  rewrite kv_exec_lookup. by destruct (write_to k c).
Qed.

Lemma last_write_app k l1 l2 :
  last_write k (l1 ++ l2) =
  match last_write k l2 with Some w => Some w | None => last_write k l1 end.
Proof. unfold last_write at 1. rewrite foldl_app. apply last_write_acc. Qed.

(** Replaying a log from its start over a map that already has a prefix of it
    applied gives the same map as running it once. *)
Lemma kv_run_replay m l1 l2 : kv_run (kv_run m l1) (l1 ++ l2) = kv_run m (l1 ++ l2).
Proof.
  apply map_eq. intros k. rewrite !kv_run_lookup, last_write_app.
  destruct (last_write k l2); [done|]. by destruct (last_write k l1).
Qed.

(** ** Snapshots as text *)

Lemma map_of_json_members (l : list (string * bytes)) (t : gmap string bytes) :
  foldl (fun acc kv =>
           match acc, dec_bytes kv.2 with
           | Some t, Some b => Some (<[string_of_bytes kv.1 := b]> t)
           | _, _ => None
           end) (Some t) (map (fun kv : string * bytes => (bytes_of_string kv.1, enc_bytes kv.2)) l)
  = Some (insert_all t l).
Proof.
  revert t. induction l as [|[k v] l IH]; intros t; [done|]. simpl map. cbn [foldl fst snd].
  by rewrite dec_enc_bytes, string_of_bytes_of_string, IH.
Qed.

Lemma insert_all_union l t :
  NoDup l.*1 → insert_all t l = list_to_map l ∪ t.
Proof.
  revert t. induction l as [|[k v] l IH]; intros t Hnd.
  - simpl. by rewrite (left_id_L ∅ (∪)).
  - apply NoDup_cons in Hnd as [Hk Hnd]. 
    change (insert_all t ((k, v) :: l)) with (insert_all (<[k := v]> t) l).
    rewrite IH by done. change (list_to_map ((k, v) :: l)) with (<[k := v]> (list_to_map l) : gmap string bytes).
    rewrite <-insert_union_r by (by apply not_elem_of_list_to_map_1).
    by rewrite insert_union_l.
Qed.

Lemma insert_all_perm l m :
  l ≡ₚ map_to_list m → insert_all ∅ l = m.
Proof.
  intros Hl. assert (NoDup l.*1) as Hnd by (rewrite Hl; apply NoDup_fst_map_to_list).
  rewrite insert_all_union, (right_id_L ∅ (∪)) by done.
  rewrite (list_to_map_proper _ _ Hnd Hl). apply list_to_map_to_list.
Qed.

Lemma map_of_json_of_map m : map_of_json (json_of_map m) = Some m.
Proof.
  unfold json_of_map, map_of_json. rewrite map_of_json_members. f_equal.
  apply insert_all_perm, merge_sort_Permutation.
Qed.

(** Keys that JSON carries unchanged. *)
Definition utf8_keys (m : gmap string bytes) : Prop := ∀ k v, m !! k = Some v → valid_string k.

Lemma parse_print_map m : utf8_keys m → parse (print (json_of_map m)) = Some (json_of_map m).
Proof.
  intros Hk. apply (parse_print 1); [|done]. constructor. apply Forall_map, Forall_forall.
  intros [k v] Hin. rewrite merge_sort_Permutation in Hin.
  apply elem_of_map_to_list in Hin. split; [by eapply Hk|apply written_bytes].
Qed.

Lemma clone_fmap (m : gmap string bytes) : clone_bytes <$> m = m.
Proof. apply map_fmap_id. Qed.

Section laws.
Context {DB : Type} `{!BoltDB DB} (tx_view : Tx → bolt_view) `{!BoltLaws DB tx_view}.
Context `{!MapRange}.
Implicit Types s : KVStateMachine DB.

(** What the bucket "kv" of a readable database holds. *)
Definition on_disk (db : DB) (m : gmap string bytes) : Prop :=
  ∃ t, View db = inl t ∧ tx_view t !! kvBucket = Some m.

(** Memory and disk agree. *)
Definition mirrored s : Prop :=
  match kv_db s with Some db => on_disk db (kv_data s) | None => True end.

Lemma create_kept t t' m :
  CreateBucketIfNotExists kvBucket t = (t', None) → tx_view t !! kvBucket = Some m →
  tx_view t' = tx_view t.
Proof using All. intros Hc Hm. rewrite (Create_ok _ _ _ Hc). by rewrite Hm. Qed.

Lemma applyBolt_spec c db db' err m :
  on_disk db m → applyBolt c db = (db', err) →
  on_disk db' (match err with None => kv_exec m c | Some _ => m end).
Proof using All.
  intros (t & Ht & Hm) Hu. unfold applyBolt in Hu. destruct err as [e|].
  - destruct (Update_err tx_view _ _ _ _ _ Ht Hu) as (t' & ? & E). exists t'. by rewrite E.
  - destruct (Update_ok tx_view _ _ _ _ Ht Hu) as (t1 & t2 & E1 & Hf & t' & ? & E').
    exists t'. split; [done|]. rewrite E'. rewrite <-E1 in Hm.
    destruct (CreateBucketIfNotExists kvBucket t1) as [t3 [e|]] eqn:Hc; [done|].
    assert (tx_view t3 !! kvBucket = Some m) as Hm3 by (by rewrite (create_kept _ _ _ Hc Hm)).
    unfold kv_exec, OperationPut, OperationDelete, OperationNoop in *.
    repeat case_bool_decide; simplify_eq; try congruence.
    + rewrite (Put_ok _ _ _ _ _ _ Hm3 Hf). by rewrite lookup_insert_eq.
    + rewrite (Delete_ok _ _ _ _ _ Hm3 Hf). by rewrite lookup_insert_eq.
Qed.

(** The three cases of Apply are the execution of the command. *)
Lemma exec_memory c m (db : option DB) :
  (if bool_decide (cmd_Operation c = OperationNoop) then (mkKV m db, None : error)
   else if bool_decide (cmd_Operation c = OperationPut)
   then (mkKV (<[cmd_Key c := clone_bytes (cmd_Value c)]> m) db, None)
   else if bool_decide (cmd_Operation c = OperationDelete)
   then (mkKV (delete (cmd_Key c) m) db, None) else (mkKV m db, None)) =
  (mkKV (kv_exec m c) db, None).
Proof.
  unfold kv_exec. case_bool_decide as Hn; [|by repeat case_bool_decide].
  rewrite Hn, !bool_decide_eq_false_2 by done. done.
Qed.

(** One entry: the decoded command is executed in memory and on disk, or, with
    an error, neither changes. *)
Lemma Apply_spec entry s s' err :
  mirrored s → Apply entry s = (s', err) →
  mirrored s' ∧
  match err with
  | None => ∃ c, DecodeCommand (le_Command entry) = inl c ∧ kv_data s' = kv_exec (kv_data s) c
  | Some _ => kv_data s' = kv_data s
  end.
Proof using All.
  intros Hm Ha. unfold Apply in Ha.
  destruct (DecodeCommand (le_Command entry)) as [c|e] eqn:Hd; [|by simplify_eq].
  unfold mirrored in *. destruct (kv_db s) as [db|].
  - destruct (applyBolt c db) as [db' err'] eqn:Hb.
    pose proof (applyBolt_spec c db db' err' (kv_data s) Hm Hb) as Hdisk.
    destruct err' as [e|]; [by simplify_eq|].
    assert (s' = mkKV (kv_exec (kv_data s) c) (Some db') ∧ err = None) as [-> ->].
    { by rewrite exec_memory in Ha; injection Ha as <- <-. }
    split; [done|]. by exists c.
  - assert (s' = mkKV (kv_exec (kv_data s) c) None ∧ err = None) as [-> ->].
    { by rewrite exec_memory in Ha; injection Ha as <- <-. }
    split; [done|]. by exists c.
Qed.

(** Without a database only an entry that does not decode is an error. *)
Lemma Apply_memory entry s :
  kv_db s = None → (∃ c, DecodeCommand (le_Command entry) = inl c) → (Apply entry s).2 = None.
Proof using.
  intros Hdb [c Hc]. unfold Apply. rewrite Hc, Hdb. by repeat case_bool_decide.
Qed.

(** A restart finds the map again. *)
Lemma NewBolt_spec db s' m :
  on_disk db m → NewBoltKVStateMachine (Some db) = inl s' → kv_data s' = m ∧ mirrored s'.
Proof using All.
  intros (t & Ht & Hm) Hn. unfold NewBoltKVStateMachine in Hn.
  destruct (Update (CreateBucketIfNotExists kvBucket) db) as [db' [e|]] eqn:Hu; [done|].
  destruct (Update_ok tx_view _ _ _ _ Ht Hu) as (t1 & t2 & E1 & Hf & t' & Hv & E').
  rewrite <-E1 in Hm. rewrite (create_kept _ _ _ Hf Hm) in E'.
  assert (tx_view t' !! kvBucket = Some m) as Hm' by (by rewrite E').
  unfold load in Hn. rewrite Hv, HasBucket_spec, Hm' in Hn.
  rewrite bool_decide_eq_true_2 in Hn by done. simplify_eq. simpl.
  assert (insert_all ∅ (Bucket_All kvBucket t') = m) as Hl.
  { by apply insert_all_perm, All_spec. }
  split; [done|]. exists t'. by rewrite Hl.
Qed.

Lemma putAll_spec l t t' m :
  tx_view t !! kvBucket = Some m → putAll l t = (t', None) →
  tx_view t' !! kvBucket = Some (insert_all m l).
Proof using All.
  revert t m. induction l as [|[k v] l IH]; intros t m Hm Hf; simpl in Hf; [by simplify_eq|].
  destruct (Bucket_Put kvBucket k v t) as [t1 [e|]] eqn:Hp; [done|].
  change (insert_all m ((k, v) :: l)) with (insert_all (<[k := v]> m) l).
  eapply IH; [|done]. rewrite (Put_ok _ _ _ _ _ _ Hm Hp). by rewrite lookup_insert_eq.
Qed.

Lemma recreate_spec t t1 t2 err1 :
  DeleteBucket kvBucket t = (t1, err1) → (∀ e, err1 ≠ Some (false, e)) →
  CreateBucketIfNotExists kvBucket t1 = (t2, None) → tx_view t2 !! kvBucket = Some ∅.
Proof using All.
  intros Hd He Hc. rewrite (Create_ok _ _ _ Hc).
  assert (tx_view t1 !! kvBucket = None) as ->; [|by rewrite lookup_insert_eq].
  destruct err1 as [[[] e]|].
  - destruct (DeleteBucket_none _ _ _ _ Hd) as [-> ?]. done.
  - by destruct (He e).
  - rewrite (DeleteBucket_ok _ _ _ Hd). apply lookup_delete_eq.
Qed.

Lemma restoreBolt_spec data db db' err m :
  on_disk db m → restoreBolt data db = (db', err) →
  on_disk db' (match err with None => data | Some _ => m end).
Proof using All.
  intros (t & Ht & Hm) Hu. unfold restoreBolt in Hu. destruct err as [e|].
  - destruct (Update_err tx_view _ _ _ _ _ Ht Hu) as (t' & ? & E). exists t'. by rewrite E.
  - destruct (Update_ok tx_view _ _ _ _ Ht Hu) as (t1 & t2 & E1 & Hf & t' & ? & E').
    exists t'. split; [done|]. rewrite E'.
    destruct (DeleteBucket kvBucket t1) as [t3 err3] eqn:Hd.
    destruct (CreateBucketIfNotExists kvBucket t3) as [t4 [e4|]] eqn:Hc.
    + by destruct err3 as [[[] ?]|].
    + assert (tx_view t4 !! kvBucket = Some ∅) as H4.
      { eapply recreate_spec; eauto. intros e ->. done. }
      assert (putAll (map_range data) t4 = (t2, None)) as Hp.
      { by destruct err3 as [[[] ?]|]. }
      rewrite (putAll_spec _ _ _ _ H4 Hp). f_equal. apply insert_all_perm, map_range_perm.
Qed.

(** A snapshot of UTF-8 keys restores the map it was taken from, in memory and
    on disk; an error leaves both as they were. *)
Lemma RestoreSnapshot_spec s0 s s' err b :
  utf8_keys (kv_data s0) → Snapshot s0 = inl b → mirrored s → RestoreSnapshot b s = (s', err) →
  mirrored s' ∧ kv_data s' = match err with None => kv_data s0 | Some _ => kv_data s end ∧
  (kv_db s = None → err = None).
Proof using All.
  intros Hk Hb Hm Hr. unfold Snapshot in Hb. rewrite clone_fmap in Hb. simplify_eq.
  unfold RestoreSnapshot in Hr.
  destruct (print (json_of_map (kv_data s0))) as [|x l] eqn:Ep; [done|]. rewrite <-Ep in Hr.
  rewrite parse_print_map in Hr by done. cbn [mbind option_bind] in Hr.
  rewrite map_of_json_of_map, clone_fmap in Hr. unfold mirrored in *.
  destruct (kv_db s) as [db|].
  - destruct (restoreBolt (kv_data s0) db) as [db' [e|]] eqn:Hrb;
      pose proof (restoreBolt_spec _ _ _ _ _ Hm Hrb); by simplify_eq.
  - by simplify_eq.
Qed.

End laws.
