(* ===== verification/BoltStore.v ===== *)
(** * BoltStore: the stable store (src/store/bolt_store.go)

    Raft's persistent state as one JSON document under one key of a bbolt
    database. The file implements the interface [StableStore] and proves its laws
    for every state that JSON can carry. *)
From S2P Require Import Prelude GoStrings Types JsonString Json JsonCodec Bolt.

Definition raftBucket : string := "raft".

Definition stateKey : string := "persistent_state".

(** ** Persistent state as JSON (the tags of src/raft/types.go) *)

Definition json_of_LogEntry (e : LogEntry) : json :=
  JObj [(bytes_of_string "term", enc_uint (le_Term e));
        (bytes_of_string "index", enc_uint (le_Index e));
        (bytes_of_string "command", enc_bytes (le_Command e))].

(** A member that [omitempty] leaves out. *)
Definition omit (empty : bool) (name : string) (v : json) : list (bytes * json) :=
  if empty then [] else [(bytes_of_string name, v)].

Definition json_of_PersistentState (ps : PersistentState) : json :=
  JObj ([(bytes_of_string "current_term", enc_uint (ps_CurrentTerm ps));
         (bytes_of_string "voted_for", enc_string (ps_VotedFor ps))]
        ++ omit (bool_decide (default [] (ps_Peers ps) = [])) "peers"
             (JArr (map enc_string (default [] (ps_Peers ps))))
        ++ omit (bool_decide (ps_SelfMember ps = None)) "self_member"
             (JBool (default false (ps_SelfMember ps)))
        ++ omit (ps_LastIncludedIndex ps =? 0) "last_included_index"
             (enc_uint (ps_LastIncludedIndex ps))
        ++ omit (ps_LastIncludedTerm ps =? 0) "last_included_term"
             (enc_uint (ps_LastIncludedTerm ps))
        ++ omit (bool_decide (ps_Snapshot ps = [])) "snapshot" (enc_bytes (ps_Snapshot ps))
        ++ [(bytes_of_string "log", JArr (map json_of_LogEntry (ps_Log ps)))]).

Definition LogEntry_field (name : string) (v : json) (e : LogEntry) : option LogEntry :=
  if bool_decide (name = "term") then
    z ← dec_uint (le_Term e) v; Some (mkEntry z (le_Index e) (le_Command e))
  else if bool_decide (name = "index") then
    z ← dec_uint (le_Index e) v; Some (mkEntry (le_Term e) z (le_Command e))
  else if bool_decide (name = "command") then
    b ← dec_bytes v; Some (mkEntry (le_Term e) (le_Index e) b)
  else Some e.

Definition LogEntry_of_json (v : json) : option LogEntry :=
  decode_struct ["term"; "index"; "command"] LogEntry_field (mkEntry 0 0 []) v.

Definition PersistentState_field (name : string) (v : json) (ps : PersistentState)
    : option PersistentState :=
  let '(mkPS ct vf pe sm li lt sn lg) := ps in
  if bool_decide (name = "current_term") then
    z ← dec_uint ct v; Some (mkPS z vf pe sm li lt sn lg)
  else if bool_decide (name = "voted_for") then
    s ← dec_string vf v; Some (mkPS ct s pe sm li lt sn lg)
  else if bool_decide (name = "peers") then
    l ← dec_slice (dec_string "") v; Some (mkPS ct vf l sm li lt sn lg)
  else if bool_decide (name = "self_member") then
    b ← dec_bool_ptr v; Some (mkPS ct vf pe b li lt sn lg)
  else if bool_decide (name = "last_included_index") then
    z ← dec_uint li v; Some (mkPS ct vf pe sm z lt sn lg)
  else if bool_decide (name = "last_included_term") then
    z ← dec_uint lt v; Some (mkPS ct vf pe sm li z sn lg)
  else if bool_decide (name = "snapshot") then
    b ← dec_bytes v; Some (mkPS ct vf pe sm li lt b lg)
  else if bool_decide (name = "log") then
    l ← dec_slice LogEntry_of_json v; Some (mkPS ct vf pe sm li lt sn (default [] l))
  else Some ps.

Definition PersistentState_names : list string :=
  ["current_term"; "voted_for"; "peers"; "self_member"; "last_included_index";
   "last_included_term"; "snapshot"; "log"].

Definition PersistentState_of_json (v : json) : option PersistentState :=
  decode_struct PersistentState_names PersistentState_field zeroPS v.

(** ** The store *)

(** type BoltRaftStore; [None] is a nil store or a nil database. *)
Record BoltRaftStore (DB : Type) := mkBoltRaftStore { br_db : option DB }.

Arguments mkBoltRaftStore {DB}.
Arguments br_db {DB} _.

Section store.
Context {DB : Type} `{!BoltDB DB}.
Implicit Types s : BoltRaftStore DB.

(** func init *)
Definition init (db : DB) : DB * error := Update (CreateBucketIfNotExists raftBucket) db.

(** func NewBoltRaftStore. [Open] is bbolt.Open with mode 0600 and the timeout as its
    option, [CloseDB] the method Close of the database; when the bucket cannot be
    created the database is closed again, and the error of that is ignored. *)
Definition NewBoltRaftStore (Open : string → Z → DB + GoError) (CloseDB : DB → DB * error)
    (path : string) (timeout : Z) : BoltRaftStore DB + GoError :=
  match Open path timeout with
  | inr err => inr err
  | inl db =>
      let '(db, err) := init db in
      match err with
      | Some e => let '(_, _) := CloseDB db in inr e
      | None => inl (mkBoltRaftStore (Some db))
      end
  end.

(** func Close *)
Definition BoltRaftStore_Close (CloseDB : DB → DB * error) s : BoltRaftStore DB * error :=
  match br_db s with
  | None => (s, None)
  | Some db => let '(db, err) := CloseDB db in (mkBoltRaftStore (Some db), err)
  end.

(** func Save *)
Definition Save (state : PersistentState) s : BoltRaftStore DB * error :=
  match br_db s with
  | None => (s, Some (ErrMessage "bolt raft store is closed"))
  | Some db =>
      let data := print (json_of_PersistentState state) in
      let '(db, err) :=
        Update (fun tx =>
          let '(tx, err) := CreateBucketIfNotExists raftBucket tx in
          match err with
          | Some e => (tx, Some e)
          | None => Bucket_Put raftBucket stateKey data tx
          end) db in
      (mkBoltRaftStore (Some db), err)
  end.

(** func Load *)
Definition Load s : PersistentState + GoError :=
  match br_db s with
  | None => inr (ErrMessage "bolt raft store is closed")
  | Some db =>
      match View db with
      | inr e => inr e
      | inl tx =>
          if negb (HasBucket raftBucket tx) then inl zeroPS
          else match Bucket_Get raftBucket stateKey tx with
               | None => inl zeroPS
               | Some data =>
                   match parse data ≫= PersistentState_of_json with
                   | Some state => inl state
                   | None => inr jerror
                   end
               end
      end
  end.

#[export] Instance bolt_StableStore : StableStore (BoltRaftStore DB) := {
  Types.Save := Save;
  Types.Load := Load;
}.

End store.

(** ** Persistent state survives *)

Definition entry_storable (e : LogEntry) : Prop := in_u64 (le_Term e) ∧ in_u64 (le_Index e).

(** The states JSON carries: machine integers, UTF-8 strings, and a peer list
    that is nil rather than empty. *)
Definition ps_storable (ps : PersistentState) : Prop :=
  in_u64 (ps_CurrentTerm ps) ∧ valid_string (ps_VotedFor ps) ∧
  Forall valid_string (default [] (ps_Peers ps)) ∧ ps_Peers ps ≠ Some [] ∧
  in_u64 (ps_LastIncludedIndex ps) ∧ in_u64 (ps_LastIncludedTerm ps) ∧
  Forall entry_storable (ps_Log ps).

Lemma mapM_enc {A} (enc : A → json) dec l :
  Forall (λ x, dec (enc x) = Some x) l → mapM dec (map enc l) = Some l.
Proof.
  induction 1 as [|x l Hx _ IH]; [done|]. simpl. rewrite Hx. simpl. by rewrite IH.
Qed.

Lemma LogEntry_roundtrip e : entry_storable e → LogEntry_of_json (json_of_LogEntry e) = Some e.
Proof.
  intros [Ht Hi]. unfold LogEntry_of_json, json_of_LogEntry. simpl decode_struct.
  decode_fields LogEntry_field. by destruct e.
Qed.

Lemma decode_omit {T} (step : string → json → T → option T) empty name v m t t' :
  name ∈ PersistentState_names → (empty = false → step name v t = Some t') →
  (empty = true → t' = t) →
  decode_members PersistentState_names step (omit empty name v ++ m) t =
  decode_members PersistentState_names step m t'.
Proof.
  intros Hn Hs He. destruct empty; simpl; [by rewrite He|]. apply decode_field; auto.
Qed.

Ltac decode_leaf :=
  unfold PersistentState_field, zeroPS; autorewrite with go_rw;
  rewrite ?dec_enc_uint by done; done.

Lemma PersistentState_roundtrip ps :
  ps_storable ps → PersistentState_of_json (json_of_PersistentState ps) = Some ps.
Proof.
  intros (Hct & Hvf & Hpe & Hne & Hli & Hlt & Hlg). destruct ps as [ct vf pe sm li lt sn lg].
  unfold PersistentState_of_json, json_of_PersistentState, decode_struct.
  cbn [ps_CurrentTerm ps_VotedFor ps_Peers ps_SelfMember ps_LastIncludedIndex
    ps_LastIncludedTerm ps_Snapshot ps_Log] in *. cbn [app].
  rewrite (decode_field _ _ "current_term" _ _ _ (mkPS ct "" None None 0 0 [] []));
    [|set_solver|decode_leaf].
  rewrite (decode_field _ _ "voted_for" _ _ _ (mkPS ct vf None None 0 0 [] []));
    [|set_solver|decode_leaf].
  rewrite (decode_omit _ _ "peers" _ _ _ (mkPS ct vf pe None 0 0 [] [])); [|set_solver|..].
  2: { intros Hf%bool_decide_eq_false. destruct pe as [pe|]; [|done]. simpl.
       rewrite (mapM_enc enc_string (dec_string "")); [done|].
       apply Forall_true. intros x. apply dec_enc_string. }
  2: { intros Ht%bool_decide_eq_true. destruct pe as [pe|]; [|done]. simpl in Ht. by subst. }
  rewrite (decode_omit _ _ "self_member" _ _ _ (mkPS ct vf pe sm 0 0 [] [])); [|set_solver|..].
  2: { intros Hf%bool_decide_eq_false. by destruct sm. }
  2: { by intros ->%bool_decide_eq_true. }
  rewrite (decode_omit _ _ "last_included_index" _ _ _ (mkPS ct vf pe sm li 0 [] []));
    [|set_solver|intros _; decode_leaf|by intros ->%Z.eqb_eq].
  rewrite (decode_omit _ _ "last_included_term" _ _ _ (mkPS ct vf pe sm li lt [] []));
    [|set_solver|intros _; decode_leaf|by intros ->%Z.eqb_eq].
  rewrite (decode_omit _ _ "snapshot" _ _ _ (mkPS ct vf pe sm li lt sn []));
    [|set_solver|intros _|by intros ->%bool_decide_eq_true].
  2: { decode_leaf. }
  rewrite (decode_field _ _ "log" _ _ _ (mkPS ct vf pe sm li lt sn lg)); [done|set_solver|].
  unfold PersistentState_field, dec_slice.
  rewrite (mapM_enc json_of_LogEntry LogEntry_of_json); [done|].
  eapply Forall_impl; [done|]. apply LogEntry_roundtrip.
Qed.

Lemma written_LogEntry e : entry_storable e → written 1 (json_of_LogEntry e).
Proof.
  intros [Ht Hi]. constructor.
  repeat (apply Forall_cons; split; [split; [done|cbn [snd]; auto with go_db]|]).
  by apply Forall_nil.
Qed.

Lemma Forall_omit (P : bytes * json → Prop) empty name v :
  (empty = false → P (bytes_of_string name, v)) → Forall P (omit empty name v).
Proof. destruct empty; simpl; intros; auto using Forall_nil_2, Forall_cons_2. Qed.

Lemma written_PersistentState ps : ps_storable ps → written 3 (json_of_PersistentState ps).
Proof.
  intros (Hct & Hvf & Hpe & _ & Hli & Hlt & Hlg). constructor.
  repeat first [apply Forall_app_2 | apply Forall_cons_2 | apply Forall_nil_2
               | apply Forall_omit; intros _]; (split; [done|]); cbn [snd]; auto with go_db.
  - constructor. apply Forall_map. eapply Forall_impl; [exact Hpe|]. intros x Hx.
    by apply written_string.
  - constructor.
  - constructor. apply Forall_map. eapply Forall_impl; [exact Hlg|]. intros e He.
    eapply written_mono; [by apply written_LogEntry|lia].
Qed.

Lemma PersistentState_text ps :
  ps_storable ps →
  parse (print (json_of_PersistentState ps)) ≫= PersistentState_of_json = Some ps.
Proof.
  intros Hps. rewrite (parse_print 3); [|by apply written_PersistentState|done].
  by apply PersistentState_roundtrip.
Qed.

(** ** What a document can contain *)

(** The Go types of the fields: unsigned integers of 64 bits. *)
Definition ps_typed (ps : PersistentState) : Prop :=
  in_u64 (ps_CurrentTerm ps) ∧ in_u64 (ps_LastIncludedIndex ps) ∧
  in_u64 (ps_LastIncludedTerm ps) ∧ Forall entry_storable (ps_Log ps).

Lemma LogEntry_typed v e : LogEntry_of_json v = Some e → entry_storable e.
Proof.
  apply decode_struct_inv; [done|]. clear v e. intros name v [t i cmd] e' [Ht Hi] Hf.
  unfold LogEntry_field in Hf. unfold entry_storable. repeat case_bool_decide; cbn in *;
    try (apply bind_Some in Hf as (z & Hz & [= <-])); try (by simplify_eq);
    split; cbn; eauto using dec_uint_typed.
Qed.

Lemma PersistentState_typed v ps : PersistentState_of_json v = Some ps → ps_typed ps.
Proof.
  apply decode_struct_inv; [by split_and!|]. clear v ps.
  intros name v [ct vf pe sm li lt sn lg] ps' (Hct & Hli & Hlt & Hlg) Hf.
  unfold PersistentState_field in Hf. unfold ps_typed. repeat case_bool_decide; cbn in *;
    try (apply bind_Some in Hf as (z & Hz & [= <-])); try (by simplify_eq);
    split_and!; cbn; eauto using dec_uint_typed.
  destruct z as [l|]; [|done]. cbn. unfold dec_slice in Hz.
  destruct v; try done. destruct (mapM LogEntry_of_json l0) as [l'|] eqn:Hm; [|done].
  injection Hz as <-. apply mapM_Some in Hm. eapply Forall2_Forall_r; [exact Hm|].
  apply Forall_true. intros x y. apply LogEntry_typed.
Qed.

Lemma Load_typed {DB} `{!BoltDB DB} (s : BoltRaftStore DB) ps : Load s = inl ps → ps_typed ps.
Proof.
  assert (ps_typed zeroPS) as Hz by by split_and!.
  unfold Load. destruct (br_db s) as [db|]; [|done]. destruct (View db) as [t|]; [|done].
  destruct (HasBucket raftBucket t); cbn; [|by intros [= <-]].
  destruct (Bucket_Get raftBucket stateKey t) as [data|]; [|by intros [= <-]].
  destruct (parse data ≫= PersistentState_of_json) as [state|] eqn:E; [|done]. intros [= <-].
  apply bind_Some in E as (v & _ & Hv). by eapply PersistentState_typed.
Qed.

(** ** The laws of StableStore *)

Section laws.
Context {DB : Type} `{!BoltDB DB} (tx_view : Tx → bolt_view) `{!BoltLaws DB tx_view}.

(** What [Load] returns depends only on the contents of the database. *)
Definition loaded (v : bolt_view) : PersistentState + GoError :=
  match v !! raftBucket ≫= (λ m, m !! stateKey) with
  | None => inl zeroPS
  | Some data =>
      match parse data ≫= PersistentState_of_json with
      | Some state => inl state
      | None => inr jerror
      end
  end.

Lemma Load_view (db : DB) t :
  View db = inl t → Load (mkBoltRaftStore (Some db)) = loaded (tx_view t).
Proof using All.
  intros Ht. unfold Load, loaded. cbn [br_db]. rewrite Ht, HasBucket_spec.
  destruct (tx_view t !! raftBucket) as [m|] eqn:Em.
  - rewrite bool_decide_eq_true_2 by done. cbn [negb]. rewrite (Get_spec _ _ _ _ Em). done.
  - rewrite bool_decide_eq_false_2 by (intros []; done). done.
Qed.

#[export] Instance bolt_StableStoreLaws : StableStoreLaws (BoltRaftStore DB) ps_storable.
Proof using All.
  constructor.
  - intros ps s s' Hps Hs. change (Save ps s = (s', None)) in Hs. unfold Save in Hs. destruct (br_db s) as [db|]; [|done].
    destruct (Update _ db) as [db' err] eqn:Hu. simplify_eq.
    destruct (Update_nil _ _ _ Hu) as (t & t1 & t2 & t' & _ & _ & Hf & Ht' & E).
    change (Load (mkBoltRaftStore (Some db')) = inl ps). rewrite (Load_view _ _ Ht'), E.
    destruct (CreateBucketIfNotExists raftBucket t1) as [t3 [e|]] eqn:Hc; [done|].
    assert (∃ m, tx_view t3 !! raftBucket = Some m) as [m Hm].
    { rewrite (Create_ok _ _ _ Hc). destruct (tx_view t1 !! raftBucket) eqn:?; [eauto|].
      rewrite lookup_insert_eq. eauto. }
    rewrite (Put_ok _ _ _ _ _ _ Hm Hf). unfold loaded. rewrite lookup_insert_eq.
    cbn [mbind option_bind]. rewrite lookup_insert_eq. by rewrite PersistentState_text.
  - intros ps s s' e Hs. change (Save ps s = (s', Some e)) in Hs. unfold Save in Hs.
    change (Load s' = Load s). destruct (br_db s) as [db|] eqn:Es.
    + destruct (Update _ db) as [db' err] eqn:Hu. simplify_eq.
      pose proof (Update_error _ _ _ _ Hu) as He. destruct s as [d]. simpl in Es. subst d.
      destruct (View db) as [t|ev] eqn:Ev.
      * destruct He as (t' & Ht' & E). by rewrite (Load_view _ _ Ht'), (Load_view _ _ Ev), E.
      * unfold Load. simpl. by rewrite He, Ev.
    + by simplify_eq.
Qed.

(** ** Opening a store *)

(** [db'] is opened on the file of [db]: it has its contents. *)
Definition reopened (db db' : DB) : Prop :=
  ∀ t, View db = inl t → ∃ t', View db' = inl t' ∧ tx_view t' = tx_view t.

(** Creating the bucket changes nothing that Load reads. *)
Lemma init_keeps (db db' : DB) t :
  View db = inl t → init db = (db', None) → Load (mkBoltRaftStore (Some db')) = loaded (tx_view t).
Proof using All.
  intros Ht Hi. destruct (Update_ok tx_view _ _ _ _ Ht Hi) as (t1 & t2 & E1 & Hc & t' & Ht' & E').
  rewrite (Load_view _ _ Ht'), E', (Create_ok _ _ _ Hc), E1. unfold loaded.
  destruct (tx_view t !! raftBucket) as [m|] eqn:Hm; [by rewrite Hm|].
  by rewrite lookup_insert_eq.
Qed.

(** What a store opened on the file of another reads, the other one reads. *)
Lemma NewBoltRaftStore_keeps Open CloseDB path timeout (db db' : DB) s' t :
  View db = inl t → reopened db db' → Open path timeout = inl db' →
  NewBoltRaftStore Open CloseDB path timeout = inl s' →
  Load s' = Load (mkBoltRaftStore (Some db)).
Proof using All.
  intros Ht Hre Ho Hn. destruct (Hre t Ht) as (t' & Ht' & E). unfold NewBoltRaftStore in Hn.
  rewrite Ho in Hn. destruct (init db') as [db2 [e|]] eqn:Hi; [by destruct (CloseDB db2)|].
  injection Hn as <-. by rewrite (init_keeps _ _ _ Ht' Hi), (Load_view _ _ Ht), E.
Qed.

End laws.
