(* ===== verification/KVRun.v ===== *)
(** * KVRun: the key-value machine driven by the log

    The entries a node applies, as commands of the abstract map; the machine's
    memory and disk after any run of them. *)
From S2P Require Import Prelude GoStrings Types Membership JsonString Json JsonCodec Bolt.
From S2P Require Import KVCommand KVStateMachine Node NodeInv Election Heartbeat Proposal.
From S2P Require Import NodeStep Replication Applying MembershipCodec.

Section kvrun.
Context `{!MembershipJSON}.
Context {DB : Type} `{!BoltDB DB} (tx_view : Tx → bolt_view) `{!BoltLaws DB tx_view} `{!MapRange}.
Implicit Types s : KVStateMachine DB.

(** The command of an entry that goes to the state machine. *)
Definition command_of (e : LogEntry) : option Command :=
  if isMembership (le_Command e) then None
  else match DecodeCommand (le_Command e) with inl c => Some c | inr _ => None end.

Definition commands (es : list LogEntry) : list Command := omap command_of es.

(** In memory, without looking at the disk: a run that does not fail executes the
    commands of its entries. *)
Lemma Apply_data e s s' :
  Apply e s = (s', None) →
  ∃ c, DecodeCommand (le_Command e) = inl c ∧ kv_data s' = kv_exec (kv_data s) c.
Proof using Type.
  unfold Apply. destruct (DecodeCommand _) as [c|x]; [|done].
  destruct (match kv_db s with Some _ => _ | None => _ end) as [db [x|]]; [done|].
  unfold kv_exec. intros E. exists c. split; [done|].
  unfold OperationPut, OperationDelete, OperationNoop in *.
  repeat case_bool_decide; simplify_eq; try done; congruence.
Qed.

Lemma run_entries_data es s s' :
  run_entries es s = (s', None) → kv_data s' = kv_run (kv_data s) (commands es).
Proof using Type.
  revert s. induction es as [|e es IH]; intros s Hr; simpl in Hr; [by simplify_eq|].
  unfold commands. simpl. unfold command_of at 1. destruct (isMembership (le_Command e)).
  { by apply IH. }
  change (Types.Apply e s) with (Apply e s) in Hr.
  destruct (Apply e s) as [s1 [x|]] eqn:Ha; [done|].
  destruct (Apply_data e s s1 Ha) as (c & -> & Hd). rewrite (IH s1 Hr), Hd. done.
Qed.

Lemma commands_snoc es e c : command_of e = Some c → commands (es ++ [e]) = commands es ++ [c].
Proof using Type.
  intros Hc. unfold commands. rewrite omap_app. f_equal. cbn [omap list_omap]. by rewrite Hc.
Qed.

(** A run without error executes the commands of the entries, in order. *)
Lemma run_entries_kv es s s' :
  mirrored tx_view s → run_entries es s = (s', None) →
  mirrored tx_view s' ∧ kv_data s' = kv_run (kv_data s) (commands es).
Proof using All.
  revert s. induction es as [|e es IH]; intros s Hm Hr; simpl in Hr; [by simplify_eq|].
  unfold commands. simpl. unfold command_of at 1. destruct (isMembership (le_Command e)).
  { by apply IH. }
  change (Types.Apply e s) with (Apply e s) in Hr.
  destruct (Apply e s) as [s1 [x|]] eqn:Ha; [done|].
  destruct (Apply_spec tx_view e s s1 None Hm Ha) as (Hm1 & c & -> & Hd).
  destruct (IH s1 Hm1 Hr) as [? Hs']. split; [done|]. rewrite Hs', Hd. done.
Qed.

(** A run that ends in an error has executed the entries before the one that
    failed, and nothing of that one. *)
Lemma run_entries_kv_err es s s' x :
  mirrored tx_view s → run_entries es s = (s', Some x) →
  ∃ k e s1, es !! k = Some e ∧ isMembership (le_Command e) = false ∧
    run_entries (take k es) s = (s1, None) ∧ Apply e s1 = (s', Some x) ∧
    mirrored tx_view s' ∧ kv_data s' = kv_run (kv_data s) (commands (take k es)).
Proof using All.
  revert s. induction es as [|e es IH]; intros s Hm Hr; simpl in Hr; [done|].
  destruct (isMembership (le_Command e)) eqn:Hi.
  { destruct (IH s Hm Hr) as (k & e' & s1 & ? & ? & Hrun & ? & ? & Hk). exists (S k), e', s1.
    split_and!; try done; [simpl; by rewrite Hi|]. rewrite Hk.
    unfold commands. simpl. unfold command_of at 2. by rewrite Hi. }
  change (Types.Apply e s) with (Apply e s) in Hr.
  destruct (Apply e s) as [s1 [y|]] eqn:Ha.
  - simplify_eq. destruct (Apply_spec tx_view e s s' (Some x) Hm Ha) as (? & Hd).
    exists O, e, s. by split_and!.
  - destruct (Apply_spec tx_view e s s1 None Hm Ha) as (Hm1 & c & Hc & Hd).
    destruct (IH s1 Hm1 Hr) as (k & e' & s2 & ? & ? & Hrun & ? & ? & Hk). exists (S k), e', s2.
    split_and!; try done.
    + simpl. rewrite Hi. change (Types.Apply e s) with (Apply e s). by rewrite Ha.
    + rewrite Hk, Hd. unfold commands. simpl. unfold command_of at 2. by rewrite Hi, Hc.
Qed.

(** A crash after the first entries, a restart from the disk, and the whole log
    again: the same map as one run. *)
Lemma replay_after_restart db es1 es2 m s s' :
  on_disk tx_view db (kv_run m (commands es1)) → NewBoltKVStateMachine (Some db) = inl s →
  run_entries (es1 ++ es2) s = (s', None) →
  kv_data s' = kv_run m (commands (es1 ++ es2)) ∧ mirrored tx_view s'.
Proof using All.
  intros Hd Hn Hr. destruct (NewBolt_spec tx_view db s _ Hd Hn) as [Hs Hm].
  destruct (run_entries_kv _ _ _ Hm Hr) as [Hm' ->]. split; [|done]. rewrite Hs.
  unfold commands. rewrite omap_app. apply kv_run_replay.
Qed.

End kvrun.

(** A key-value command is not taken for a membership change. *)
Lemma command_not_membership c :
  cmd_Operation c = "put" ∨ cmd_Operation c = "delete" ∨ cmd_Operation c = "noop" →
  valid_string (cmd_Key c) → isMembership (print (json_of_Command c)) = false.
Proof.
  intros Ho Hk. unfold isMembership, DecodeMembershipChange.
  cbn [unmarshal_membershipCommand goMembershipJSON].
  rewrite Command_parse_print; [|destruct Ho as [->|[-> | ->]]; done|done].
  cbn [mbind option_bind]. unfold membershipCommand_of_json, json_of_Command.
  destruct c as [op k v]. cbn [cmd_Operation cmd_Key cmd_Value] in *. simpl decode_struct.
  rewrite (decode_field _ _ "operation" _ _ _ (mkMembershipCommand op "" ""));
    [|set_solver|unfold membershipCommand_field; by rewrite dec_enc_string].
  destruct v as [|b v]; cbn; by destruct Ho as [->|[-> | ->]].
Qed.

(** A membership change is not taken for a key-value command: read as one, it has an
    unknown operation and no key. *)
Lemma membership_not_command ty id :
  valid_string ty → valid_string id →
  DecodeCommand (print (json_of_membershipCommand
    (mkMembershipCommand membershipCommandOperation ty id)))
  = inr (ErrFormat "kv command key is required" []).
Proof.
  intros Hty Hid. unfold DecodeCommand. rewrite (parse_print 1); [|by repeat constructor|done].
  cbn [mbind option_bind]. unfold Command_of_json, json_of_membershipCommand.
  cbn [mcmd_Operation mcmd_Type mcmd_PeerID]. simpl decode_struct.
  rewrite (decode_field _ _ "operation" _ _ _ (mkCommand membershipCommandOperation "" []));
    [|set_solver|unfold Command_field; by rewrite dec_enc_string].
  reflexivity.
Qed.

(** The barrier of a read leaves the map alone. *)
Lemma kv_run_noop m l k v : kv_run m (l ++ [mkCommand OperationNoop k v]) = kv_run m l.
Proof. unfold kv_run. by rewrite foldl_app. Qed.

(** A write at the end of a run decides its key. *)
Lemma kv_run_put m l k v : kv_run m (l ++ [mkCommand OperationPut k v]) !! k = Some v.
Proof. unfold kv_run. rewrite foldl_app. simpl. apply lookup_insert_eq. Qed.
