(* ===== verification/HttpLib.v ===== *)
(** * HttpLib: what the program uses of Go's net/http

    A response is written through [ResponseWriter]: the headers set so far, the
    status line once it is sent, and the body. Bodies that are read are streams: their
    bytes, and how they end. The texts of errors stay symbolic ([ErrText]); headers
    the server adds by itself (Date, Content-Length, a sniffed Content-Type) are not
    part of the model. *)
From S2P Require Import Prelude GoStrings Types.

Definition MethodGet : string := "GET".
Definition MethodPut : string := "PUT".
Definition MethodDelete : string := "DELETE".

Definition StatusOK : Z := 200.
Definition StatusNoContent : Z := 204.
Definition StatusMovedPermanently : Z := 301.
Definition StatusBadRequest : Z := 400.
Definition StatusNotFound : Z := 404.
Definition StatusMethodNotAllowed : Z := 405.
Definition StatusConflict : Z := 409.
Definition StatusRequestEntityTooLarge : Z := 413.
Definition StatusInternalServerError : Z := 500.
Definition StatusBadGateway : Z := 502.
Definition StatusGatewayTimeout : Z := 504.

(** [http.Header], keyed by canonical names *)
Abbreviation Header := (gmap string (list string)).

(** What is written to a body: bytes, or the text of an error and a newline. *)
Inductive chunk :=
| Bytes (b : bytes)
| ErrText (e : GoError).

Record ResponseWriter := mkRW {
  rw_Header : Header;
  rw_sent : option (Z * Header);
  rw_body : list chunk;
}.

(** A response before anything is written *)
Definition newWriter : ResponseWriter := mkRW ∅ None [].

Definition Header_Set (key value : string) (w : ResponseWriter) : ResponseWriter :=
  mkRW (<[key := [value]]> (rw_Header w)) (rw_sent w) (rw_body w).

(** Adding every value of [h]; the order of the keys does not matter. *)
Definition Header_AddAll (h : Header) (w : ResponseWriter) : ResponseWriter :=
  mkRW (union_with (λ old new, Some (old ++ new)) (rw_Header w) h) (rw_sent w) (rw_body w).

(** [ResponseWriter.WriteHeader]: only the first call counts, a status outside 100
    to 999 panics, an informational status is not the response yet. *)
Definition WriteHeader (status : Z) (w : ResponseWriter) : go ResponseWriter :=
  match rw_sent w with
  | Some _ => Ret w
  | None =>
      if (status <? 100) || (999 <? status) then Panic
      else if (status <=? 199) && negb (status =? 101) then Ret w
      else Ret (mkRW (rw_Header w) (Some (status, rw_Header w)) (rw_body w))
  end.

Definition bodyAllowedForStatus (status : Z) : bool :=
  negb ((100 <=? status) && (status <=? 199)) && negb (status =? 204) && negb (status =? 304).

(** [ResponseWriter.Write] sends status 200 first if no status was sent; a response
    that has no body drops the data. *)
Definition Write (data : list chunk) (w : ResponseWriter) : go ResponseWriter :=
  w ← WriteHeader StatusOK w;
  Ret match rw_sent w with
      | Some (status, _) =>
          if bodyAllowedForStatus status then mkRW (rw_Header w) (rw_sent w) (rw_body w ++ data) else w
      | None => w
      end.

(** [http.Error] *)
Definition http_Error (text : chunk) (status : Z) (w : ResponseWriter) : go ResponseWriter :=
  let w := Header_Set "Content-Type" "text/plain; charset=utf-8" w in
  let w := Header_Set "X-Content-Type-Options" "nosniff" w in
  w ← WriteHeader status w;
  Write [text] w.

(** A line of text. *)
Definition Line (s : string) : chunk := Bytes (bytes_of_string s ++ [x0a]).

Definition http_NotFound (w : ResponseWriter) : go ResponseWriter :=
  http_Error (Line "404 page not found") StatusNotFound w.

(** [http.RedirectHandler] for a GET: the link is a constant of the program. *)
Definition http_Redirect (method url : string) (status : Z) (w : ResponseWriter) : go ResponseWriter :=
  let w := Header_Set "Location" url w in
  if bool_decide (method = MethodGet) then
    let w := Header_Set "Content-Type" "text/html; charset=utf-8" w in
    w ← WriteHeader status w;
    Write [Line ("<a href=" +:+ String (Ascii.ascii_of_byte x22) url +:+
                 String (Ascii.ascii_of_byte x22) ">Moved Permanently</a>." +:+
                 String (Ascii.ascii_of_byte x0a) "")] w
  else WriteHeader status w.

(** ** Reading *)

(** A body: its bytes, and the error it ends with instead of EOF. *)
Record Stream := mkStream {
  s_data : bytes;
  s_err : error;
}.

Inductive bodyError := MaxBytesError | ReadError (e : GoError).

(** [io.ReadAll(http.MaxBytesReader(w, body, max))] *)
Definition ReadAllMax (max : Z) (s : Stream) : bytes + bodyError :=
  if max <? zlen (s_data s) then inr MaxBytesError
  else match s_err s with Some e => inr (ReadError e) | None => inl (s_data s) end.

(** [io.ReadAll(io.LimitReader(body, limit))]: bytes past the limit are not read, nor
    is an error that comes after them. *)
Definition ReadAllLimit (limit : Z) (s : Stream) : bytes + GoError :=
  if limit <=? zlen (s_data s) then inl (take (Z.to_nat limit) (s_data s))
  else match s_err s with Some e => inr e | None => inl (s_data s) end.

Record Request := mkRequest {
  r_Method : string;
  r_Path : string;
  r_Body : Stream;
}.

(** ** Errors *)

(** [errors.As(err, &notLeader)] *)
Fixpoint asNotLeader (e : GoError) : bool :=
  match e with
  | ErrNotLeader _ => true
  | ErrWrapped _ e => asNotLeader e
  | _ => false
  end.

(** [errors.Is(err, context.DeadlineExceeded)] *)
Fixpoint isDeadlineExceeded (e : GoError) : bool :=
  match e with
  | ErrContext DeadlineExceeded => true
  | ErrWrapped _ e => isDeadlineExceeded e
  | _ => false
  end.

(** ** Multiplexers *)

Inductive muxResult (H : Type) :=
| MuxHandler (h : H)
| MuxRedirect (path : string)
| MuxNotFound.

Arguments MuxHandler {H} h.
Arguments MuxRedirect {H} path.
Arguments MuxNotFound {H}.

(** A pattern matches its own path and, when it ends in a slash, every path below
    it. *)
Definition pattern_matches (pattern path : string) : bool :=
  bool_decide (path = pattern) ||
  match rev (bytes_of_string pattern) with
  | x2f :: _ => HasPrefix path pattern
  | _ => false
  end.

(** [http.ServeMux] for clean paths: the longest pattern that matches; a path that
    only lacks its final slash is redirected. *)
Fixpoint best_pattern {H} (pats : list (string * H)) (path : string) (best : option (string * H))
    : option (string * H) :=
  match pats with
  | [] => best
  | (p, h) :: pats =>
      if pattern_matches p path &&
         match best with Some (q, _) => (String.length q <? String.length p)%nat | None => true end
      then best_pattern pats path (Some (p, h))
      else best_pattern pats path best
  end.

Definition ServeMux {H} (pats : list (string * H)) (path : string) : muxResult H :=
  match best_pattern pats path None with
  | Some (_, h) => MuxHandler h
  | None =>
      if existsb (fun ph => bool_decide (ph.1 = path +:+ "/")) pats then MuxRedirect (path +:+ "/")
      else MuxNotFound
  end.

(** ** Lemmas *)

(** A handler that answers: what it sends is final, and later calls do not change
    the status. *)
Definition answered (status : Z) (w : ResponseWriter) : Prop := ∃ h, rw_sent w = Some (status, h).

Lemma WriteHeader_fresh status w :
  rw_sent w = None → 200 ≤ status ≤ 999 →
  WriteHeader status w = Ret (mkRW (rw_Header w) (Some (status, rw_Header w)) (rw_body w)).
Proof.
  intros Hs Hr. unfold WriteHeader. rewrite Hs.
  destruct (Z.ltb_spec status 100), (Z.ltb_spec 999 status), (Z.leb_spec status 199); simpl; try lia.
  done.
Qed.

Lemma Write_sent data w status h :
  rw_sent w = Some (status, h) →
  Write data w = Ret (if bodyAllowedForStatus status
                      then mkRW (rw_Header w) (rw_sent w) (rw_body w ++ data) else w).
Proof.
  intros Hs. unfold Write, WriteHeader. rewrite Hs, go_bind_Ret, Hs. done.
Qed.

(** An error response: the status, the text, and nothing else. *)
Lemma http_Error_fresh text status w :
  rw_sent w = None → 400 ≤ status ≤ 599 →
  ∃ w', http_Error text status w = Ret w' ∧ answered status w' ∧ rw_body w' = rw_body w ++ [text].
Proof.
  intros Hs Hr. unfold http_Error. rewrite WriteHeader_fresh by (done || lia). rewrite go_bind_Ret.
  erewrite Write_sent by reflexivity.
  assert (bodyAllowedForStatus status = true) as ->.
  { unfold bodyAllowedForStatus.
    destruct (Z.leb_spec status 199), (Z.eqb_spec status 204), (Z.eqb_spec status 304); lia. }
  eexists. split; [done|]. split; [by eexists|done].
Qed.
