(* ===== verification/Http.v ===== *)
(** * Http: the client API (src/client/http.go)

    Every request is served by its own goroutine beside all the others, so a handler
    is a machine like an election: a type of program points, one function per
    critical section (a method of the node, a call of the state machine), and one per
    receive (a replication result, a timer, the answer of the leader it forwards to).
    The response is written through [ResponseWriter]. *)
From S2P Require Import Prelude GoStrings Types Membership JsonString Json JsonCodec Bolt.
From S2P Require Import KVCommand KVStateMachine BoltStore Node Election Heartbeat Proposal.
From S2P Require Import ApplyLoop HttpLib.

Definition maxKVValueBytes : Z := Z.shiftl 1 20.

Definition maxForwardResponseBytes : Z := Z.shiftl 64 10.

(** type LeaderForwarder; its [http.Client] is the machine's environment *)
Record LeaderForwarder := mkForwarder {
  httpAddrs : gmap string string;
}.

(** func NewLeaderForwarder *)
Definition NewLeaderForwarder (selfID : string) (httpAddrs : gmap string string) : LeaderForwarder :=
  mkForwarder httpAddrs.

(** type API: the node and the state machine are the state that handlers share, the
    timeouts belong to the environment; [appendClientNil] tells whether the append
    client is nil. *)
Record API := mkAPI {
  appendClientNil : bool;
  leaderForwarder : option LeaderForwarder;
}.

(** func NewHTTPHandlerWithForwarding, func NewHTTPHandler *)
Definition NewHTTPHandlerWithForwarding (appendClientNil : bool) (f : option LeaderForwarder) : API :=
  mkAPI appendClientNil f.

Definition NewHTTPHandler (appendClientNil : bool) : API :=
  NewHTTPHandlerWithForwarding appendClientNil None.

(** The handlers, and the patterns they are registered with. *)
Inductive handler := HandleKV | HandleClusterMembers | HandleClusterMember.

Definition api_patterns : list (string * handler) :=
  [("/kv/", HandleKV); ("/cluster/members", HandleClusterMembers);
   ("/cluster/members/", HandleClusterMember)].

(** net/url and the construction of an outgoing request. *)
Class URLOps := {
  URL : Type;
  url_Parse : string → URL + GoError;
  (* [base.ResolveReference(&url.URL{Path: path}).String()] *)
  url_Resolve : URL → string → string;
  (* [http.NewRequestWithContext(ctx, method, target, body)] *)
  http_NewRequest : string → string → error;
}.

(** ** Forwarding *)

(** type ForwardResponse *)
Record ForwardResponse := mkForwardResponse {
  fr_StatusCode : Z;
  fr_Header : Header;
  fr_Body : bytes;
}.

(** What [f.client.Do] returns. *)
Record httpResponse := mkHttpResponse {
  hr_StatusCode : Z;
  hr_Header : Header;
  hr_Body : Stream;
}.

(** func Forward, up to the call of the leader: the target, or the error *)
Definition Forward_target `{URLOps} (f : LeaderForwarder) (leaderID method path : string)
    : string + GoError :=
  match httpAddrs f !! leaderID with
  | None => inr (ErrFormat "unknown leader %s" [leaderID])
  | Some addr =>
      match url_Parse addr with
      | inr err => inr (ErrWrapped "parse leader address: %w" err)
      | inl base =>
          let target := url_Resolve base path in
          match http_NewRequest method target with
          | Some err => inr err
          | None => inl target
          end
      end
  end.

(** func Forward, from there on *)
Definition Forward_result (r : httpResponse + GoError) : ForwardResponse + GoError :=
  match r with
  | inr err => inr err
  | inl resp =>
      match ReadAllLimit (maxForwardResponseBytes + 1) (hr_Body resp) with
      | inr err => inr err
      | inl respBody =>
          let respBody :=
            if maxForwardResponseBytes <? zlen respBody
            then take (Z.to_nat maxForwardResponseBytes) respBody else respBody in
          inl (mkForwardResponse (hr_StatusCode resp) (hr_Header resp) respBody)
      end
  end.

(** The end of forwardToLeader: the leader's answer becomes the node's. *)
Definition relay (r : ForwardResponse + GoError) (w : ResponseWriter) : go ResponseWriter :=
  match r with
  | inr err => http_Error (ErrText err) StatusBadGateway w
  | inl forwarded =>
      let w := Header_AddAll (fr_Header forwarded) w in
      w ← WriteHeader (fr_StatusCode forwarded) w;
      Write (match fr_Body forwarded with [] => [] | b => [Bytes b] end) w
  end.

(** ** The handlers *)

(** What a proposal is for: a write, with the body to forward, or the barrier of a
    read of [key]. *)
Inductive purpose :=
| ForWrite (forwardBody : bytes)
| ForRead (key : string).

(** Program points: before anything; at the first check of a read; inside a proposal;
    inside ApplyCommitted; before the read of the map; before the two reads of
    forwardToLeader; waiting for the leader's answer to the request it was sent, with
    its method, target and body; before the two reads of the members
    list; at the end. *)
Inductive handlerPC :=
| HStart
| HGetState (key : string)
| HPropose (why : purpose) (command : bytes) (pc : proposePC)
| HApply (why : purpose) (pc : applyPC)
| HRead (key : string)
| HLeaderID (body : bytes)
| HSelfID (leaderID : string) (body : bytes)
| HForward (leaderID method target : string) (body : bytes)
| HMembersLeader
| HMembers (leaderID : string)
| HDone.

(** The answer of a read whose barrier failed (handleGet). *)
Definition readFailed (err : GoError) (w : ResponseWriter) : go ResponseWriter :=
  if isDeadlineExceeded err then http_Error (Line "read timed out") StatusGatewayTimeout w
  else if asNotLeader err then http_Error (Line "not leader") StatusConflict w
  else http_Error (ErrText err) StatusInternalServerError w.

(** The body of [GET /cluster/members]. *)
Definition membersJSON (leaderID : string) (members : list string) : json :=
  JObj (omit (bool_decide (leaderID = "")) "leader_id" (enc_string leaderID)
        ++ [(bytes_of_string "members", JArr (map enc_string members))]).

Section http.
Context {St : Type} `{!StableStore St} `{!MembershipJSON}.
Context {DB : Type} `{!BoltDB DB} `{!URLOps}.
Abbreviation Node := (RaftNode St).
Abbreviation SM := (KVStateMachine DB).
Implicit Types (n : Node) (sm : SM) (w : ResponseWriter).

(** The code of a handler before its first critical section: an answer, or where it
    goes on. *)
Definition local : Type := go ResponseWriter + handlerPC.

(** func handleGet starts with the role of the node. *)
Definition handleGet (key : string) : local := inr (HGetState key).

(** func handlePut, up to the proposal *)
Definition handlePut (r : Request) w (key : string) : local :=
  match ReadAllMax maxKVValueBytes (r_Body r) with
  | inr MaxBytesError => inl (http_Error (Line "request body too large") StatusRequestEntityTooLarge w)
  | inr (ReadError _) => inl (http_Error (Line "read body") StatusBadRequest w)
  | inl value =>
      match EncodeCommand (mkCommand OperationPut key value) with
      | inr err => inl (http_Error (ErrText err) StatusBadRequest w)
      | inl command => inr (HPropose (ForWrite value) command PStart)
      end
  end.

(** func handleDelete, up to the proposal *)
Definition handleDelete w (key : string) : local :=
  match EncodeCommand (mkCommand OperationDelete key []) with
  | inr err => inl (http_Error (ErrText err) StatusBadRequest w)
  | inl command => inr (HPropose (ForWrite []) command PStart)
  end.

Definition methodNotAllowed (allow : string) w : go ResponseWriter :=
  http_Error (Line "method not allowed") StatusMethodNotAllowed (Header_Set "Allow" allow w).

(** func handleKV *)
Definition handleKV (r : Request) w : local :=
  let key := TrimPrefix (r_Path r) "/kv/" in
  if bool_decide (key = "") || ContainsByte key x2f
  then inl (http_Error (Line "invalid key") StatusBadRequest w)
  else if bool_decide (r_Method r = MethodGet) then handleGet key
  else if bool_decide (r_Method r = MethodPut) then handlePut r w key
  else if bool_decide (r_Method r = MethodDelete) then handleDelete w key
  else inl (methodNotAllowed "GET, PUT, DELETE" w).

(** func handleClusterMembers, up to the reads of the node *)
Definition handleClusterMembers (r : Request) w : local :=
  if negb (bool_decide (r_Path r = "/cluster/members")) then inl (http_NotFound w)
  else if negb (bool_decide (r_Method r = MethodGet)) then inl (methodNotAllowed "GET" w)
  else inr HMembersLeader.

(** func handleClusterMember, up to the proposal *)
Definition handleClusterMember (r : Request) w : local :=
  let peerID := TrimPrefix (r_Path r) "/cluster/members/" in
  if bool_decide (peerID = "") || ContainsByte peerID x2f
  then inl (http_Error (Line "invalid member id") StatusBadRequest w)
  else
    let change :=
      if bool_decide (r_Method r = MethodPut) then Some (mkChange MembershipAddPeer peerID)
      else if bool_decide (r_Method r = MethodDelete) then Some (mkChange MembershipRemovePeer peerID)
      else None in
    match change with
    | None => inl (methodNotAllowed "PUT, DELETE" w)
    | Some change =>
        match EncodeMembershipChange change with
        | inr err => inl (http_Error (ErrText err) StatusBadRequest w)
        | inl command => inr (HPropose (ForWrite []) command PStart)
        end
    end.

(** The multiplexer of NewHTTPHandlerWithForwarding *)
Definition serveHTTP (r : Request) w : local :=
  match ServeMux api_patterns (r_Path r) with
  | MuxNotFound => inl (http_NotFound w)
  | MuxRedirect path => inl (http_Redirect (r_Method r) path StatusMovedPermanently w)
  | MuxHandler HandleKV => handleKV r w
  | MuxHandler HandleClusterMembers => handleClusterMembers r w
  | MuxHandler HandleClusterMember => handleClusterMember r w
  end.

(** The whole state that one handler sees. *)
Definition hstate : Type := Node * SM * ResponseWriter * handlerPC.

(** Answer, and be done. *)
Definition answer n sm (a : go ResponseWriter) : go hstate := w ← a; Ret (n, sm, w, HDone).

(** The end of forwardToLeader when it does not forward: its callers answer. *)
Definition notLeader n sm w : go hstate :=
  answer n sm (http_Error (Line "not leader") StatusConflict w).

(** One critical section of a handler for request [r]. [ctxErr] is what [ctx.Err()]
    returns at that moment for the context of its proposal. *)
Definition handlerStep (a : API) (r : Request) (ctxErr : option ContextError)
    (s : hstate) : go hstate :=
  let '(n, sm, w, pc) := s in
  match pc with
  | HStart =>
      match serveHTTP r w with
      | inl a => answer n sm a
      | inr pc => Ret (n, sm, w, pc)
      end
  | HGetState key =>
      if negb (bool_decide (n.(state) = Leader)) then Ret (n, sm, w, HLeaderID [])
      else match EncodeCommand (mkCommand OperationNoop "" []) with
           | inr err => answer n sm (readFailed err w)
           | inl command => Ret (n, sm, w, HPropose (ForRead key) command PStart)
           end
  | HPropose why command (PDone entry err) =>
      match err with
      | None => Ret (n, sm, w, HApply why AFetch)
      | Some e =>
          match why with
          | ForRead _ => answer n sm (readFailed e w)
          | ForWrite forwardBody =>
              if asNotLeader e then Ret (n, sm, w, HLeaderID forwardBody)
              else if isDeadlineExceeded e
              then answer n sm (http_Error (Line "proposal timed out") StatusGatewayTimeout w)
              else answer n sm (http_Error (ErrText e) StatusInternalServerError w)
          end
      end
  | HPropose why command pc =>
      x ← proposeStep a.(appendClientNil) ctxErr command pc n;
      Ret (x.1, sm, w, HPropose why command x.2)
  | HApply why (ADone err) =>
      match err, why with
      | Some e, ForRead _ => answer n sm (readFailed e w)
      | Some e, ForWrite _ => answer n sm (http_Error (ErrText e) StatusInternalServerError w)
      | None, ForRead key => Ret (n, sm, w, HRead key)
      | None, ForWrite _ => answer n sm (WriteHeader StatusNoContent w)
      end
  | HApply why pc =>
      x ← applyStep pc n sm;
      Ret (x.1.1, x.1.2, w, HApply why x.2)
  | HRead key =>
      let '(value, ok) := Get key sm in
      if negb ok then answer n sm (http_Error (Line "not found") StatusNotFound w)
      else answer n sm (w ← WriteHeader StatusOK w; Write [Bytes value] w)
  | HLeaderID body =>
      match a.(leaderForwarder) with
      | None => notLeader n sm w
      | Some _ => Ret (n, sm, w, HSelfID n.(leaderID) body)
      end
  | HSelfID leaderID body =>
      match a.(leaderForwarder) with
      | None => notLeader n sm w
      | Some f =>
          if bool_decide (leaderID = "") || bool_decide (leaderID = n.(nodeID)) then notLeader n sm w
          else match Forward_target f leaderID (r_Method r) (r_Path r) with
               | inr err => answer n sm (http_Error (ErrText err) StatusBadGateway w)
               | inl target => Ret (n, sm, w, HForward leaderID (r_Method r) target body)
               end
      end
  | HMembersLeader => Ret (n, sm, w, HMembers n.(leaderID))
  | HMembers leaderID =>
      answer n sm (Write [Bytes (print (membersJSON leaderID (Members n)) ++ [x0a])]
                     (Header_Set "Content-Type" "application/json" w))
  | HForward _ _ _ _ | HDone => Ret s
  end.

(** What a handler waits for: an event of its proposal, or the answer of the leader
    it forwarded to. *)
Inductive handlerEvent :=
| EvPropose (ev : proposeEvent)
| EvForwarded (res : httpResponse + GoError).

Definition handlerRecv (ev : handlerEvent) (s : hstate) : go hstate :=
  let '(n, sm, w, pc) := s in
  match pc, ev with
  | HPropose why command pc, EvPropose ev => Ret (n, sm, w, HPropose why command (proposeRecv pc ev))
  | HForward _ _ _ _, EvForwarded res => answer n sm (relay (Forward_result res) w)
  | _, _ => Ret s
  end.

(** A handler with nobody else running: its sections and what it receives, in
    order. *)
Inductive handlerInput :=
| Step (ctxErr : option ContextError)
| Recv (ev : handlerEvent).

Definition handlerMove (a : API) (r : Request) (i : handlerInput) (s : hstate) : go hstate :=
  match i with
  | Step ctxErr => handlerStep a r ctxErr s
  | Recv ev => handlerRecv ev s
  end.

Fixpoint runHandler (a : API) (r : Request) (l : list handlerInput) (s : hstate) : go hstate :=
  match l with
  | [] => Ret s
  | i :: l => s ← handlerMove a r i s; runHandler a r l s
  end.

(** One request from its start. *)
Definition serve (a : API) (r : Request) (l : list handlerInput) n sm : go hstate :=
  runHandler a r l (n, sm, newWriter, HStart).

End http.
