(* ===== verification/HttpRun.v ===== *)
(** * HttpRun: requests from start to end

    Two views of a handler. Among others: the node and the state machine may change
    in any way between its sections, and still it answers exactly once. With nobody
    else running: what an answer says about the log and the map. *)
From S2P Require Import Prelude GoStrings Types Membership JsonString Json JsonCodec Bolt.
From S2P Require Import KVCommand KVStateMachine BoltStore Node NodeInv Election Heartbeat.
From S2P Require Import Proposal NodeStep Replication Applying ApplyLoop Rounds HttpLib Http.

Section http.
Context {St : Type} `{!StableStore St} `{!MembershipJSON}.
Context {DB : Type} `{!BoltDB DB} `{!MapRange} `{!URLOps}.
Abbreviation Node := (RaftNode St).
Abbreviation SM := (KVStateMachine DB).
Implicit Types (n m : Node) (sm : SM) (w : ResponseWriter).

(** ** Among others *)

(** A handler whose every move sees whatever node and state machine the others have
    left. *)
Fixpoint runAmong (a : API) (r : Request) (l : list (handlerInput * Node * SM)) w (pc : handlerPC)
    : go (ResponseWriter * handlerPC) :=
  match l with
  | [] => Ret (w, pc)
  | (i, n, sm) :: l =>
      s ← handlerMove a r i (n, sm, w, pc);
      let '(_, _, w, pc) := s in runAmong a r l w pc
  end.

(** The statuses the API itself answers with. *)
Definition api_statuses : list Z :=
  [StatusOK; StatusNoContent; StatusMovedPermanently; StatusBadRequest; StatusNotFound;
   StatusMethodNotAllowed; StatusConflict; StatusRequestEntityTooLarge;
   StatusInternalServerError; StatusBadGateway; StatusGatewayTimeout].

(** An answer of the API itself on a fresh response. *)
Definition own_answer (a : go ResponseWriter) : Prop :=
  ∃ w status, a = Ret w ∧ answered status w ∧ status ∈ api_statuses.

Lemma http_Error_own text status :
  status ∈ api_statuses → 400 ≤ status ≤ 599 → own_answer (http_Error text status newWriter).
Proof.
  intros Hin Hr. destruct (http_Error_fresh text status newWriter eq_refl Hr) as (w & -> & ? & _).
  by exists w, status.
Qed.

(** Close a goal about an answer with a constant status. *)
Ltac own := apply http_Error_own; [unfold api_statuses; set_solver|by compute].

Lemma methodNotAllowed_own allow : own_answer (methodNotAllowed allow newWriter).
Proof.
  unfold methodNotAllowed.
  destruct (http_Error_fresh (Line "method not allowed") StatusMethodNotAllowed
    (Header_Set "Allow" allow newWriter) eq_refl) as (w & -> & ? & _); [by compute|].
  exists w, StatusMethodNotAllowed. split_and!; [done|done|]. unfold api_statuses. set_solver.
Qed.

Lemma readFailed_own e : own_answer (readFailed e newWriter).
Proof. unfold readFailed. destruct (isDeadlineExceeded e); [own|]. destruct (asNotLeader e); own. Qed.

Lemma fresh_own status : 
  status ∈ api_statuses → 200 ≤ status ≤ 599 → own_answer (WriteHeader status newWriter).
Proof.
  intros Hin Hr. rewrite WriteHeader_fresh by (done || lia). eexists _, _. split; [done|].
  split; [by eexists|done].
Qed.

Lemma http_Redirect_own method path :
  own_answer (http_Redirect method path StatusMovedPermanently newWriter).
Proof.
  unfold http_Redirect. case_bool_decide;
    rewrite WriteHeader_fresh by (done || (by compute)); rewrite ?go_bind_Ret.
  - erewrite Write_sent by reflexivity. eexists _, StatusMovedPermanently. split; [done|].
    split; [by eexists|unfold api_statuses; set_solver].
  - eexists _, StatusMovedPermanently. split; [done|].
    split; [by eexists|unfold api_statuses; set_solver].
Qed.

(** The code before the first critical section answers or goes on. *)
Lemma serveHTTP_own r : match serveHTTP r newWriter with
  | inl a => own_answer a
  | inr pc => pc ≠ HDone
  end.
Proof.
  unfold serveHTTP. destruct (ServeMux _ _) as [[]|path|].
  - unfold handleKV. split_ifs; try done.
    + own.
    + unfold handlePut. destruct (ReadAllMax _ _) as [v|[|e]]; [|own|own].
      destruct (EncodeCommand _); [done|own].
    + unfold handleDelete. destruct (EncodeCommand _); [done|own].
    + apply methodNotAllowed_own.
  - unfold handleClusterMembers. split_ifs; try done.
    + unfold http_NotFound. own.
    + apply methodNotAllowed_own.
  - unfold handleClusterMember. split_ifs; try own.
    all: try apply methodNotAllowed_own.
    all: destruct (EncodeMembershipChange _); [done|own].
  - apply http_Redirect_own.
  - unfold http_NotFound. own.
Qed.

Lemma relay_answered res w :
  relay (Forward_result res) newWriter = Ret w →
  ∃ status, answered status w ∧
    (status ∈ api_statuses ∨ ∃ resp, res = inl resp ∧ status = hr_StatusCode resp).
Proof.
  assert (∀ e, ∃ status w', http_Error (ErrText e) StatusBadGateway newWriter = Ret w' ∧
    answered status w' ∧ status ∈ api_statuses) as Herr.
  { intros e. destruct (http_Error_own (ErrText e) StatusBadGateway) as (w' & st & ? & ? & ?);
      [unfold api_statuses; set_solver|by compute|eauto 6]. }
  unfold Forward_result, relay. intros Hw.
  destruct res as [resp|e]; [|destruct (Herr e) as (st & w' & E & ? & ?); rewrite E in Hw;
    simplify_eq; eauto].
  destruct (ReadAllLimit _ _) as [b|e]; [|destruct (Herr e) as (st & w' & E & ? & ?); rewrite E in Hw;
    simplify_eq; eauto].
  cbn [fr_StatusCode fr_Header fr_Body] in Hw. apply go_bind_inv in Hw as (w1 & Hw1 & Hw).
  unfold WriteHeader in Hw1. cbn [rw_sent Header_AddAll newWriter rw_Header rw_body] in Hw1.
  destruct (_ || _); [done|]. destruct (_ && _); simplify_eq.
  - exists StatusOK. split; [|left; unfold api_statuses; set_solver]. unfold Write in Hw.
    rewrite WriteHeader_fresh in Hw by (done || by compute). rewrite go_bind_Ret in Hw.
    simplify_eq. by eexists.
  - exists (hr_StatusCode resp). split; [|by eauto].
    erewrite Write_sent in Hw by reflexivity. simplify_eq. destruct (bodyAllowedForStatus _); by eexists.
Qed.

(** What a move does to the response. *)
Definition move_effect (i : handlerInput) w' (pc' : handlerPC) : Prop :=
  (pc' ≠ HDone ∧ w' = newWriter) ∨
  (pc' = HDone ∧ ∃ status, answered status w' ∧
     (status ∈ api_statuses ∨
      ∃ resp, i = Recv (EvForwarded (inl resp)) ∧ status = hr_StatusCode resp)).

Lemma answer_effect i n sm (a : go ResponseWriter) n' sm' w' pc' :
  own_answer a → answer n sm a = Ret (n', sm', w', pc') → move_effect i w' pc'.
Proof.
  intros (w & st & -> & Ha & Hin) E. unfold answer in E. rewrite go_bind_Ret in E. simplify_eq.
  right. eauto 6.
Qed.

Lemma quiet_effect i n sm pc n' sm' w' pc' :
  pc ≠ HDone → Ret (n, sm, newWriter, pc) = Ret (n', sm', w', pc') → move_effect i w' pc'.
Proof. intros Hne E. simplify_eq. by left. Qed.

(** A move that only changes the program point. *)
Ltac quiet := match goal with
  | E : _ = Ret _ |- _ => eapply quiet_effect; [|exact E]; done
  end.

Lemma handlerStep_effect a r c n sm pc n' sm' w' pc' :
  pc ≠ HDone → handlerStep a r c (n, sm, newWriter, pc) = Ret (n', sm', w', pc') →
  move_effect (Step c) w' pc'.
Proof.
  intros Hne E. destruct pc as [|key|why command ppc|why apc|key|body|lid body|lid meth target body| |lid|];
    cbn [handlerStep] in E; try done.
  - pose proof (serveHTTP_own r) as Ho. destruct (serveHTTP r newWriter) as [ans|pc1].
    + by eapply answer_effect.
    + quiet.
  - destruct (negb _); [quiet|].
    destruct (EncodeCommand _); [quiet|].
    eapply answer_effect; [|done]. apply readFailed_own.
  - assert (Hgo : (x ← proposeStep a.(appendClientNil) c command ppc n;
      Ret (x.1, sm, newWriter, HPropose why command x.2)) = Ret (n', sm', w', pc') →
      move_effect (Step c) w' pc').
    { intros (x & _ & Hx)%go_bind_inv. quiet. }
    destruct ppc as [| | | | | | | |entry [e|]]; try (by apply Hgo).
    + destruct why; [|eapply answer_effect; [apply readFailed_own|done]].
      destruct (asNotLeader e); [quiet|].
      destruct (isDeadlineExceeded e); (eapply answer_effect; [|done]); own.
    + quiet.
  - assert (Hgo : (x ← applyStep apc n sm; Ret (x.1.1, x.1.2, newWriter, HApply why x.2)) =
      Ret (n', sm', w', pc') → move_effect (Step c) w' pc').
    { intros (x & _ & Hx)%go_bind_inv. quiet. }
    destruct apc as [| | | |[e|]]; try (by apply Hgo).
    + destruct why; eapply answer_effect; [|done| |done]; [own|apply readFailed_own].
    + destruct why; [|quiet]. eapply answer_effect; [|done].
      apply fresh_own; [unfold api_statuses; set_solver|by compute].
  - destruct (Get key sm) as [v ok]. destruct ok; cbn [negb] in E.
    + eapply answer_effect; [|done]. rewrite WriteHeader_fresh by (done || by compute).
      rewrite go_bind_Ret. erewrite Write_sent by reflexivity. eexists _, StatusOK. split; [done|].
      split; [by eexists|unfold api_statuses; set_solver].
    + eapply answer_effect; [|done]. own.
  - destruct (leaderForwarder a); [quiet|]. eapply answer_effect; [|done]. own.
  - destruct (leaderForwarder a) as [f|]; [|eapply answer_effect; [|done]; own].
    destruct (_ || _); [eapply answer_effect; [|done]; own|].
    destruct (Forward_target f lid (r_Method r) (r_Path r)) as [target|e]; [quiet|].
    eapply answer_effect; [|done]. own.
  - quiet.
  - quiet.
  - eapply answer_effect; [|done]. unfold Write.
    rewrite WriteHeader_fresh by (done || by compute). rewrite go_bind_Ret.
    eexists _, StatusOK. split; [done|]. split; [by eexists|unfold api_statuses; set_solver].
Qed.

Lemma handlerMove_effect a r i n sm pc n' sm' w' pc' :
  pc ≠ HDone → handlerMove a r i (n, sm, newWriter, pc) = Ret (n', sm', w', pc') →
  move_effect i w' pc'.
Proof.
  intros Hne E. destruct i as [c|ev]; [by eapply handlerStep_effect|].
  cbn [handlerMove handlerRecv] in E. 
  destruct pc; try (quiet); destruct ev as [ev|res]; try (quiet).
  unfold answer in E. apply go_bind_inv in E as (w1 & Hw & E). simplify_eq.
  destruct (relay_answered res w' Hw) as (st & Ha & [Hin|(resp & -> & Hst)]); right; eauto 8.
Qed.

Lemma handlerMove_done a r i n sm w :
  handlerMove a r i (n, sm, w, HDone) = Ret (n, sm, w, HDone).
Proof. by destruct i as [c|[ev|res]]. Qed.

Lemma runAmong_done a r l w : runAmong a r l w HDone = Ret (w, HDone).
Proof.
  induction l as [|[[i n] sm] l IH]; [done|]. cbn [runAmong].
  by rewrite handlerMove_done, go_bind_Ret.
Qed.

Lemma runAmong_app a r l k w pc w' pc' :
  runAmong a r l w pc = Ret (w', pc') → runAmong a r (l ++ k) w pc = runAmong a r k w' pc'.
Proof.
  revert w pc. induction l as [|[[i n] sm] l IH]; intros w pc E; cbn [app runAmong] in *.
  - by simplify_eq.
  - apply go_bind_inv in E as ([[[n1 sm1] w1] pc1] & -> & E). rewrite go_bind_Ret. by apply IH.
Qed.

Lemma runAmong_effect a r l pc w' pc' :
  pc ≠ HDone → runAmong a r l newWriter pc = Ret (w', pc') →
  (pc' ≠ HDone ∧ w' = newWriter) ∨
  (pc' = HDone ∧ ∃ i n sm, (i, n, sm) ∈ l ∧ move_effect i w' pc').
Proof.
  revert pc. induction l as [|[[i n] sm] l IH]; intros pc Hne E; cbn [runAmong] in E.
  - simplify_eq. by left.
  - apply go_bind_inv in E as ([[[n1 sm1] w1] pc1] & Hm & E).
    pose proof (handlerMove_effect _ _ _ _ _ _ _ _ _ _ Hne Hm) as Heff.
    destruct Heff as [[Hpc ->]|[-> Heff]].
    + destruct (IH pc1 Hpc E) as [?|(? & i' & n' & sm' & ? & ?)]; [by left|right].
      split; [done|]. exists i', n', sm'. split; [by right|done].
    + rewrite runAmong_done in E. simplify_eq. right. split; [done|].
      exists i, n, sm. split; [by left|]. right. done.
Qed.

End http.
