(* ===== verification/HttpServe.v ===== *)
(** * HttpServe: what an answer of the API says about the log and the map

    Requests served with nobody else running on the node. An invariant follows the
    handler from the multiplexer to the answer; [finished] lists how a request can
    end and what the node and the state machine have done by then. *)
From S2P Require Import Prelude GoStrings Types Membership JsonString Json JsonCodec Bolt.
From S2P Require Import KVCommand KVStateMachine BoltStore Node NodeInv Election Heartbeat.
From S2P Require Import Proposal NodeStep Replication Applying ApplyLoop Rounds HttpLib Http HttpRun.

Section http.
Context {St : Type} `{!StableStore St} `{!MembershipJSON}.
Context {DB : Type} `{!BoltDB DB} `{!MapRange} `{!URLOps}.
Abbreviation Node := (RaftNode St).
Abbreviation SM := (KVStateMachine DB).
Implicit Types (n m : Node) (sm : SM) (w : ResponseWriter).

(** The critical sections of ApplyCommitted keep the log and do not lower the commit
    index. *)
Lemma applyStep_steady pc n sm n' sm' pc' :
  applyStep pc n sm = Ret (n', sm', pc') → steady n n'.
Proof.
  destruct pc as [|e|e|e|err]; cbn [applyStep].
  - intros (x & _ & [= <- _ _])%go_bind_inv. reflexivity.
  - destruct (DecodeMembershipChange _) as [[c isC] derr]. destruct isC.
    + destruct derr; [intros [= <- _ _]; reflexivity|].
      intros ([n1 er] & Hx & [= <- _ _])%go_bind_inv.
      apply (exec_steady (OApplyCommittedMembershipChange c (le_Index e))); [done|].
      simpl. by rewrite Hx.
    + destruct (ApplyStored e sm) as [sm1 er]. intros [= <- _ _]. reflexivity.
  - intros [= <- _ _]. reflexivity.
  - intros [= <- _ _]. by apply markApplied_steady.
  - intros [= <- _ _]. reflexivity.
Qed.

Lemma applySteps_steady k pc n sm n' sm' pc' :
  applySteps k pc n sm = Ret (n', sm', pc') → steady n n'.
Proof.
  revert pc n sm. induction k as [|k IH]; intros pc n sm E; cbn [applySteps] in E.
  - simplify_eq. reflexivity.
  - apply go_bind_inv in E as ([[n1 sm1] pc1] & Hx & E). etrans; [by eapply applyStep_steady|].
    by eapply IH.
Qed.

(** [command] was appended by the leader [n0], is committed, and everything committed
    has been applied. *)
Definition completed (command : bytes) n0 sm0 n sm : Prop :=
  ∃ m e, node_wf m ∧ node_wf n ∧ added command n0 m e ∧ le_Index e ≤ m.(commitIndex) ∧
    steady m n ∧ applied_result m sm0 n sm None.

(** In a completed request the log has grown by the command, everything is committed
    and applied, and the state machine ran the rest of the log and the command. *)
Lemma completed_spec command n0 sm0 n sm :
  node_wf n0 → last_index n0 < two64 - 2 → completed command n0 sm0 n sm →
  n0.(state) = Leader ∧ last_index n = last_index n0 + 1 ∧
  entry_at n (last_index n) = Some (local_entry n0 command) ∧
  n.(commitIndex) = last_index n ∧ n.(lastApplied) = last_index n ∧
  ∃ es, zlen es = last_index n0 - n0.(lastApplied) ∧ log_segment n0 (n0.(lastApplied) + 1) es ∧
    run_entries (es ++ [local_entry n0 command]) sm0 = (sm, None).
Proof.
  intros Hwf Hroom (m & e & Hm & Hn & Hadd & Hc & Hs & es & sm1 & Hseg & Hrun & Hla & -> & Hend).
  destruct (added_log _ _ _ _ Hwf Hroom Hadd) as (Hl & Hi & He & _ & _ & Hla0 & Hold).
  destruct Hs as (Hlog & Hcm & _). pose proof Hn as (_ & _ & (_ & _ & Hcn) & _).
  assert (last_index n = last_index m) as Hln by (by rewrite (last_index_proper _ _ Hlog)).
  pose proof Hadd as (Hlead & Hee & _). pose proof Hwf as (_ & _ & (_ & ? & ?) & _).
  destruct es as [|x es _] using rev_ind; [rewrite zlen_nil in Hla; lia|].
  rewrite zlen_app, zlen_cons, zlen_nil in Hla.
  assert (x = e) as ->.
  { specialize (Hseg (length es) x). rewrite lookup_app_r, Nat.sub_diag in Hseg by done.
    specialize (Hseg eq_refl). unfold zlen in *.
    replace (lastApplied m + 1 + Z.of_nat (length es)) with (last_index m) in Hseg by lia.
    congruence. }
  subst e. split_and!; try done; try lia.
  - rewrite Hln. by rewrite (entry_at_proper _ _ Hlog _ _ eq_refl).
  - exists es. split_and!; [lia| |done]. intros k y Hk. rewrite <-Hla0.
    rewrite <-Hold by (apply lookup_lt_Some in Hk; unfold zlen in *; lia).
    apply Hseg. by apply lookup_app_l_Some.
Qed.

(** The command of a read barrier. *)
Definition noopCommand : bytes :=
  match EncodeCommand (mkCommand OperationNoop "" []) with inl c => c | inr _ => [] end.

(** What the request asks to be proposed. *)
Definition asks (r : Request) (why : purpose) (command : bytes) : Prop :=
  match why with
  | ForWrite b => serveHTTP r newWriter = inr (HPropose (ForWrite b) command PStart)
  | ForRead key => serveHTTP r newWriter = inr (HGetState key) ∧ command = noopCommand
  end.

(** How a request ends. *)
Inductive finished (r : Request) (fwd : bool) n0 sm0 : Node → SM → ResponseWriter → Prop :=
| FinLocal w :
    serveHTTP r newWriter = inl (Ret w) → finished r fwd n0 sm0 n0 sm0 w
| FinMembers w :
    serveHTTP r newWriter = inr HMembersLeader → answered StatusOK w →
    rw_body w = [Bytes (print (membersJSON n0.(leaderID) (Members n0)) ++ [x0a])] →
    finished r fwd n0 sm0 n0 sm0 w
| FinWritten b command n sm w :
    asks r (ForWrite b) command → completed command n0 sm0 n sm →
    answered StatusNoContent w → rw_body w = [] → finished r fwd n0 sm0 n sm w
| FinFound key value n sm w :
    asks r (ForRead key) noopCommand → completed noopCommand n0 sm0 n sm →
    Get key sm = (value, true) → answered StatusOK w → rw_body w = [Bytes value] →
    finished r fwd n0 sm0 n sm w
| FinAbsent key n sm w :
    asks r (ForRead key) noopCommand → completed noopCommand n0 sm0 n sm →
    Get key sm = ([], false) → answered StatusNotFound w →
    finished r fwd n0 sm0 n sm w
| FinFailed status n sm w :
    answered status w → status ∈ [StatusConflict; StatusInternalServerError; StatusBadGateway;
      StatusGatewayTimeout] →
    (n = n0 ∧ sm = sm0 ∨ n0.(state) = Leader) → finished r fwd n0 sm0 n sm w
| FinRelayed res n sm w :
    fwd = true → relay (Forward_result res) newWriter = Ret w →
    sm = sm0 → (n = n0 ∨ n0.(state) = Leader) → finished r fwd n0 sm0 n sm w.

(** The invariant of a handler that started on [n0] and [sm0]. *)
Definition hinv (r : Request) (fwd : bool) n0 sm0 (s : hstate) : Prop :=
  let '(n, sm, w, pc) := s in
  node_wf n ∧
  match pc with
  | HStart => n = n0 ∧ sm = sm0 ∧ w = newWriter
  | HGetState key => n = n0 ∧ sm = sm0 ∧ w = newWriter ∧ asks r (ForRead key) noopCommand
  | HPropose why command pc =>
      sm = sm0 ∧ w = newWriter ∧ asks r why command ∧ propose_ok command n0 n pc
  | HApply why pc =>
      w = newWriter ∧ ∃ command m e k, asks r why command ∧ node_wf m ∧ added command n0 m e ∧
        le_Index e ≤ m.(commitIndex) ∧ apply_ok n pc ∧ applySteps k AFetch m sm0 = Ret (n, sm, pc)
  | HRead key => w = newWriter ∧ asks r (ForRead key) noopCommand ∧ completed noopCommand n0 sm0 n sm
  | HLeaderID _ | HSelfID _ _ | HForward _ _ _ _ =>
      sm = sm0 ∧ w = newWriter ∧ (n = n0 ∨ n0.(state) = Leader)
  | HMembersLeader => n = n0 ∧ sm = sm0 ∧ w = newWriter ∧ serveHTTP r newWriter = inr HMembersLeader
  | HMembers lid =>
      n = n0 ∧ sm = sm0 ∧ w = newWriter ∧ serveHTTP r newWriter = inr HMembersLeader ∧
      lid = n0.(leaderID)
  | HDone => finished r fwd n0 sm0 n sm w
  end.

(** Every way to end has sent a status. *)
Lemma finished_answered r fwd n0 sm0 n sm w :
  finished r fwd n0 sm0 n sm w → ∃ status, answered status w.
Proof.
  intros Hf. destruct Hf as [w Hs|w Hs|? ? ? ? w|? ? ? ? w|? ? ? w|? ? ? w|res ? ? w Hfwd Hr]; eauto.
  - pose proof (serveHTTP_own r) as Ho. rewrite Hs in Ho. destruct Ho as (w' & st & [= ->] & ? & _). eauto.
  - destruct (relay_answered res w Hr) as (st & ? & _). eauto.
Qed.

(** On a node that does not lead, no section of a handler writes. *)
Lemma hinv_follower r fwd n0 sm0 n sm w pc :
  n0.(state) ≠ Leader → hinv r fwd n0 sm0 (n, sm, w, pc) → n = n0 ∧ sm = sm0.
Proof.
  intros Hs (_ & Hi).
  assert (Hadd : ∀ command m e, added command n0 m e → False) by (by intros ? ? ? [? _]).
  assert (Hcomp : ∀ command n sm, completed command n0 sm0 n sm → False).
  { intros command n' sm' (m & e & _ & _ & Ha & _). by eapply Hadd. }
  destruct pc; try naive_solver.
  - destruct Hi as (-> & _ & _ & Hp). split; [|done].
    destruct pc as [| | |e|e|e rpc|e|e|e [err|]]; naive_solver.
  - destruct Hi as [w Hs'|w Hs'|? ? ? ? w ? Hc|? ? ? ? w ? Hc|? ? ? w ? Hc|? ? ? w ? ? [[-> ->]|]|
                    res ? ? w ? ? -> [->|]]; try done; by destruct (Hcomp _ _ _ Hc).
Qed.

Context (a : API) (r : Request) (n0 : Node) (sm0 : SM).
Context (Hwf0 : node_wf n0) (Hroom : last_index n0 < two64 - 2).

(** A step that returns and keeps the invariant. *)
Definition keeps_inv (fwd : bool) (x : go hstate) : Prop :=
  ∃ s, x = Ret s ∧ hinv r fwd n0 sm0 s.

Lemma answer_finished fwd n sm (ans : go ResponseWriter) w :
  node_wf n → ans = Ret w → finished r fwd n0 sm0 n sm w → keeps_inv fwd (answer n sm ans).
Proof. intros Hn -> Hf. exists (n, sm, w, HDone). split; [done|]. by split. Qed.

Lemma failed_finished fwd n sm text status :
  node_wf n → 400 ≤ status ≤ 599 →
  status ∈ [StatusConflict; StatusInternalServerError; StatusBadGateway; StatusGatewayTimeout] →
  (n = n0 ∧ sm = sm0 ∨ n0.(state) = Leader) →
  keeps_inv fwd (answer n sm (http_Error text status newWriter)).
Proof.
  intros Hn Hr Hin Hc. destruct (http_Error_fresh text status newWriter eq_refl Hr) as (w & E & ? & _).
  eapply answer_finished; [done|exact E|]. by eapply FinFailed.
Qed.

Ltac failed := apply failed_finished; [done|by compute|set_solver|].

Lemma readFailed_finished fwd n sm e :
  node_wf n → (n = n0 ∧ sm = sm0 ∨ n0.(state) = Leader) →
  keeps_inv fwd (answer n sm (readFailed e newWriter)).
Proof.
  intros Hn Hc. unfold readFailed.
  destruct (isDeadlineExceeded e); [by failed|]. destruct (asNotLeader e); by failed.
Qed.

Lemma serveHTTP_start pc :
  serveHTTP r newWriter = inr pc →
  pc = HMembersLeader ∨ (∃ key, pc = HGetState key) ∨
  (∃ b command, pc = HPropose (ForWrite b) command PStart).
Proof.
  unfold serveHTTP. destruct (ServeMux _ _) as [[]|path|]; try done.
  - unfold handleKV. split_ifs; try done.
    + intros [= <-]. eauto.
    + unfold handlePut. destruct (ReadAllMax _ _) as [v|[|e]]; try done.
      destruct (EncodeCommand _); [|done]. intros [= <-]. eauto.
    + unfold handleDelete. destruct (EncodeCommand _); [|done]. intros [= <-]. eauto.
  - unfold handleClusterMembers. split_ifs; try done. intros [= <-]. eauto.
  - unfold handleClusterMember. split_ifs; try done;
      (destruct (EncodeMembershipChange _); [|done]); intros [= <-]; eauto.
Qed.

Lemma serveHTTP_answer ans : serveHTTP r newWriter = inl ans → ∃ w, ans = Ret w.
Proof.
  intros E. pose proof (serveHTTP_own r) as Ho. rewrite E in Ho.
  destruct Ho as (w & st & -> & _). eauto.
Qed.

Lemma propose_keeps fwd c why command pc n :
  (∀ entry err, pc ≠ PDone entry err) → hinv r fwd n0 sm0 (n, sm0, newWriter, HPropose why command pc) →
  keeps_inv fwd (handlerStep a r c (n, sm0, newWriter, HPropose why command pc)).
Proof.
  intros Hpc (Hn & _ & _ & Hask & Hok).
  destruct (proposeStep_returns a.(appendClientNil) c command n0 n pc Hwf0 Hroom Hn Hok)
    as (m & pc' & E & Hm & Hok').
  assert (handlerStep a r c (n, sm0, newWriter, HPropose why command pc) =
    (x ← proposeStep a.(appendClientNil) c command pc n;
     Ret (x.1, sm0, newWriter, HPropose why command x.2))) as ->.
  { destruct pc; try done. by destruct (Hpc entry err). }
  rewrite E, go_bind_Ret. eexists. split; [done|]. by split_and!.
Qed.

Lemma proposed_keeps fwd c why command e err n :
  hinv r fwd n0 sm0 (n, sm0, newWriter, HPropose why command (PDone e err)) →
  keeps_inv fwd (handlerStep a r c (n, sm0, newWriter, HPropose why command (PDone e err))).
Proof.
  intros (Hn & _ & _ & Hask & Hok). destruct err as [x|]; cbn [handlerStep].
  - assert (n = n0 ∧ sm0 = sm0 ∨ n0.(state) = Leader) as Hc by (destruct Hok; auto).
    destruct why as [b|key]; [|by apply readFailed_finished].
    destruct (asNotLeader x).
    + eexists. split; [done|]. split; [done|]. by destruct Hc as [[? _]|]; auto.
    + destruct (isDeadlineExceeded x); by failed.
  - destruct Hok as [Hadd Hc]. eexists. split; [done|]. split; [done|]. split; [done|].
    exists command, n, e, O. by split_and!.
Qed.

Lemma apply_keeps fwd c why pc n sm :
  (∀ err, pc ≠ ADone err) → hinv r fwd n0 sm0 (n, sm, newWriter, HApply why pc) →
  keeps_inv fwd (handlerStep a r c (n, sm, newWriter, HApply why pc)).
Proof.
  intros Hpc (Hn & _ & command & m & e & k & Hask & Hm & Hadd & Hc & Hok & Hk).
  assert (handlerStep a r c (n, sm, newWriter, HApply why pc) =
    (x ← applyStep pc n sm; Ret (x.1.1, x.1.2, newWriter, HApply why x.2))) as ->.
  { destruct pc; try done. by destruct (Hpc err). }
  destruct (applyStep_returns pc n sm Hn Hok) as (n1 & sm1 & pc1 & Hx & Hn1 & Hok1 & _).
  rewrite Hx, go_bind_Ret. eexists. split; [done|]. split; [done|]. split; [done|].
  exists command, m, e, (S k). split_and!; try done. by eapply applySteps_snoc.
Qed.

Lemma applied_keeps fwd c why err n sm :
  hinv r fwd n0 sm0 (n, sm, newWriter, HApply why (ADone err)) →
  keeps_inv fwd (handlerStep a r c (n, sm, newWriter, HApply why (ADone err))).
Proof.
  intros (Hn & _ & command & m & e & k & Hask & Hm & Hadd & Hc & _ & Hk).
  assert (n0.(state) = Leader) as Hlead by (by destruct Hadd).
  destruct err as [x|]; cbn [handlerStep].
  - destruct why; [failed; by right|]. apply readFailed_finished; [done|by right].
  - destruct (applySteps_spec k m sm0 n sm None Hm Hk) as (_ & _ & Happ).
    assert (completed command n0 sm0 n sm) as Hcomp.
    { exists m, e. split_and!; try done. by eapply applySteps_steady. }
    destruct why as [b|key].
    + eapply answer_finished; [done|by apply WriteHeader_fresh|].
      eapply FinWritten; [exact Hask|done|by eexists|done].
    + destruct Hask as [Hask ->]. eexists. split; [done|]. by split_and!.
Qed.

Lemma local_keeps fwd c n sm pc :
  hinv r fwd n0 sm0 (n, sm, newWriter, pc) →
  match pc with HPropose _ _ _ | HApply _ _ => False | _ => True end →
  keeps_inv fwd (handlerStep a r c (n, sm, newWriter, pc)).
Proof.
  intros (Hn & Hpc) Hno. destruct pc as [|key| | |key|body|lid body|lid meth target body| |lid|];
    try done; cbn [handlerStep].
  - destruct Hpc as (-> & -> & _). destruct (serveHTTP r newWriter) as [ans|pc1] eqn:Hs.
    + destruct (serveHTTP_answer ans Hs) as [w ->]. eapply answer_finished; [done|done|].
      by apply FinLocal.
    + eexists. split; [done|]. split; [done|].
      destruct (serveHTTP_start pc1 Hs) as [->|[[key ->]|(b & command & ->)]]; by split_and!.
  - destruct Hpc as (-> & -> & _ & Hask).
    case_bool_decide as Hst; cbn [negb].
    + change (EncodeCommand (mkCommand OperationNoop "" [])) with (inl noopCommand : bytes + GoError).
      cbv iota beta. eexists. split; [done|]. by split_and!.
    + eexists. split; [done|]. split; [done|]. by split_and!; auto.
  - destruct Hpc as (_ & Hask & Hcomp). destruct (Get key sm) as [v ok] eqn:Hg. destruct ok; cbn [negb].
    + rewrite WriteHeader_fresh by (done || by compute). rewrite go_bind_Ret.
      erewrite Write_sent by reflexivity. eapply answer_finished; [done|done|].
      by eapply FinFound; [| |done|eexists|].
    + destruct (http_Error_fresh (Line "not found") StatusNotFound newWriter eq_refl) as (w & E & ? & _);
        [by compute|].
      eapply answer_finished; [done|exact E|]. eapply FinAbsent; try done.
      unfold Get in Hg |- *. by destruct (kv_data sm !! key); simplify_eq.
  - destruct Hpc as (-> & _ & Hc).
    destruct (leaderForwarder a); [eexists; split; [done|]; by split_and!|].
    unfold notLeader. failed. destruct Hc; auto.
  - destruct Hpc as (-> & _ & Hc).
    assert (n = n0 ∧ sm0 = sm0 ∨ n0.(state) = Leader) as Hc' by (destruct Hc; auto).
    destruct (leaderForwarder a) as [f|]; [|unfold notLeader; by failed].
    destruct (_ || _); [unfold notLeader; by failed|].
    destruct (Forward_target f lid (r_Method r) (r_Path r)) as [target|e]; [|by failed].
    eexists. split; [done|]. by split_and!.
  - eexists. split; [done|]. exact (conj Hn Hpc).
  - destruct Hpc as (-> & -> & _ & Hs). eexists. split; [done|]. by split_and!.
  - destruct Hpc as (-> & -> & _ & Hs & ->). unfold Write.
    rewrite WriteHeader_fresh by (done || by compute). rewrite go_bind_Ret.
    eapply answer_finished; [done|done|]. eapply FinMembers; [done|by eexists|done].
  - eexists. split; [done|]. by split_and!.
Qed.

(** Every move keeps the invariant; sections return whatever the events were, and
    only the leader's answer can make the relay panic. *)
Definition input_ok (i : handlerInput) : Prop :=
  match i with Recv (EvPropose ev) => proposeEvent_ok ev | _ => True end.

(** The leader's answer is among the inputs. *)
Definition is_forwarded (i : handlerInput) : bool :=
  match i with Recv (EvForwarded _) => true | _ => false end.

Lemma hinv_writer fwd n sm w pc : hinv r fwd n0 sm0 (n, sm, w, pc) → pc = HDone ∨ w = newWriter.
Proof. destruct pc; simpl; naive_solver. Qed.

Lemma handlerStep_keeps fwd c s : hinv r fwd n0 sm0 s → keeps_inv fwd (handlerStep a r c s).
Proof.
  destruct s as [[[n sm] w] pc]. intros Hi.
  destruct (hinv_writer _ _ _ _ _ Hi) as [->| ->]; [eexists; by split|].
  destruct pc as [|key|why command ppc|why apc|key|body|lid body|lid meth target body| |lid|];
    try (by apply local_keeps).
  - assert (sm = sm0) as -> by apply Hi.
    destruct ppc as [| | | | | | | |e err]; try (by apply propose_keeps). by apply proposed_keeps.
  - destruct apc as [| | | |err]; try (by apply apply_keeps). by apply applied_keeps.
Qed.

Lemma handlerMove_keeps fwd i s s' :
  input_ok i → (is_forwarded i = true → fwd = true) → hinv r fwd n0 sm0 s →
  handlerMove a r i s = Ret s' → hinv r fwd n0 sm0 s'.
Proof.
  intros Hok Hfwd Hi Hm. destruct i as [c|ev]; cbn [handlerMove] in Hm.
  - destruct (handlerStep_keeps fwd c s Hi) as (s1 & E & ?). rewrite E in Hm. by simplify_eq.
  - destruct s as [[[n sm] w] pc]. cbn [handlerRecv] in Hm.
    destruct pc as [|key|why command ppc|why apc|key|body|lid body|lid meth target body| |lid|],
      ev as [ev|res]; try (by simplify_eq).
    + simplify_eq. destruct Hi as (Hn & -> & -> & Hask & Hp). split_and!; try done.
      by apply proposeRecv_ok.
    + destruct Hi as (Hn & -> & -> & Hc). unfold answer in Hm.
      apply go_bind_inv in Hm as (w1 & Hw & Hm). simplify_eq. split; [done|].
      eapply FinRelayed; eauto.
Qed.

Lemma runHandler_keeps fwd l s s' :
  Forall input_ok l → (∀ i, i ∈ l → is_forwarded i = true → fwd = true) → hinv r fwd n0 sm0 s →
  runHandler a r l s = Ret s' → hinv r fwd n0 sm0 s'.
Proof.
  revert s. induction l as [|i l IH]; intros s Hok Hf Hi E; cbn [runHandler] in E; [by simplify_eq|].
  apply Forall_cons in Hok as [Hok1 Hok]. apply go_bind_inv in E as (s1 & Hm & E).
  apply (IH s1); [done| | |done].
  - intros j Hj. apply Hf. by right.
  - eapply handlerMove_keeps; [done| |done|done]. apply Hf. by left.
Qed.

(** A request that was served with nobody else running has ended in one of the ways
    of [finished]. *)
Lemma serve_finished fwd l n sm w :
  Forall input_ok l → (∀ i, i ∈ l → is_forwarded i = true → fwd = true) →
  serve a r l n0 sm0 = Ret (n, sm, w, HDone) → node_wf n ∧ finished r fwd n0 sm0 n sm w.
Proof.
  intros Hok Hf E. exact (runHandler_keeps fwd l (n0, sm0, newWriter, HStart) _ Hok Hf
    (conj Hwf0 (conj eq_refl (conj eq_refl eq_refl))) E).
Qed.

End http.
