(* ===== verification/HttpDeadline.v ===== *)
(** * HttpDeadline: a request is answered once the context of its proposal is over

    Every proposal of the API runs under a context with a deadline. When it is over,
    its sections find the error in [ctx.Err()] and its selects may receive it, but
    where something else is ready a select may still take that: the result of a
    peer that has not answered, or a retry timer that fires at the same moment. A
    request that is being forwarded does not depend on this context: it waits for the
    leader's answer, or for the timeout of its own client. [rank] bounds the moves that
    are left: four sections of ApplyCommitted for every entry that is not applied, four
    for every peer whose result may still arrive, and a constant. *)
From S2P Require Import Prelude GoStrings Types Membership JsonString Json JsonCodec Bolt.
From S2P Require Import KVCommand KVStateMachine BoltStore Node NodeInv Election Heartbeat.
From S2P Require Import Proposal NodeStep Replication Applying ApplyLoop Rounds HttpLib Http HttpRun.
From S2P Require Import HttpServe.

Section deadline.
Context {St : Type} `{!StableStore St} `{!MembershipJSON}.
Context {DB : Type} `{!BoltDB DB} `{!MapRange} `{!URLOps}.
Abbreviation Node := (RaftNode St).
Abbreviation SM := (KVStateMachine DB).
Implicit Types (n m : Node) (sm : SM) (w : ResponseWriter).

(** The points where a handler waits instead of running a section. *)
Definition waiting (pc : handlerPC) : bool :=
  match pc with
  | HPropose _ _ (PReplicate _ (RWait _)) | HPropose _ _ (PTimer _) | HForward _ _ _ _ | HDone => true
  | _ => false
  end.

(** What [client.Do] returns: an error, or the final response (informational ones it
    reads over). *)
Definition final_response (res : httpResponse + GoError) : Prop :=
  match res with
  | inr _ => True
  | inl resp => hr_StatusCode resp = 101 ∨ 200 ≤ hr_StatusCode resp ≤ 999
  end.

(** What can happen next to a handler when the context of its proposal is over with
    [c]. *)
Inductive overdue (c : ContextError) : handlerPC → handlerInput → Prop :=
| OdSection pc : waiting pc = false → overdue c pc (Step (Some c))
| OdRoundOver why command e l :
    overdue c (HPropose why command (PReplicate e (RWait l))) (Recv (EvPropose (PResult (CtxDone c))))
| OdResult why command e l p res :
    is_Some (take_request p l) → result_ok (Result p res) →
    overdue c (HPropose why command (PReplicate e (RWait l))) (Recv (EvPropose (PResult (Result p res))))
| OdTimerOver why command e :
    overdue c (HPropose why command (PTimer e)) (Recv (EvPropose (PCtxDone c)))
| OdTick why command e :
    overdue c (HPropose why command (PTimer e)) (Recv (EvPropose PTick))
| OdForwarded lid meth target body res :
    final_response res →
    overdue c (HForward lid meth target body) (Recv (EvForwarded res)).

(** Moves of a handler from then on, with nobody else running. *)
Inductive overdue_run (a : API) (r : Request) (c : ContextError)
    : list handlerInput → hstate (St := St) (DB := DB) → hstate → Prop :=
| OrNil s : overdue_run a r c [] s s
| OrMove i l s s1 s2 :
    overdue c s.2 i → handlerMove a r i s = Ret s1 → overdue_run a r c l s1 s2 →
    overdue_run a r c (i :: l) s s2.

(** How often a retry timer fired at a select that could have received the end of the
    context. *)
Definition is_tick (i : handlerInput) : bool :=
  match i with Recv (EvPropose PTick) => true | _ => false end.

Definition ticks (l : list handlerInput) : Z := zlen (filter is_tick l).

Definition round_rank (pc : replicatePC) : Z :=
  match pc with
  | RDone _ => 0
  | RWait l => 1 + 4 * zlen l
  | RCommitted l | RBuild _ l => 2 + 4 * zlen l
  | RRecord _ l _ => 3 + 4 * zlen l
  | RStepDown _ l _ => 4 + 4 * zlen l
  | RPeers => 3
  | REnsure => 4
  end.

Definition propose_rank (pc : proposePC) : Z :=
  match pc with
  | PDone _ _ => 0
  | PTimer _ => 1
  | PCommitted2 _ => 2
  | PReplicate _ pc => 3 + round_rank pc
  | PLeader _ => 8
  | PCommitted _ => 9
  | PAppend => 14
  | PState => 15
  | PStart => 16
  end.

Definition rank (s : Node * SM * ResponseWriter * handlerPC) : Z :=
  let '(n, _, _, pc) := s in
  let d := last_index n - n.(lastApplied) in
  match pc with
  | HDone => 0
  | HForward _ _ _ _ | HRead _ | HMembers _ => 1
  | HSelfID _ _ | HMembersLeader => 2
  | HLeaderID _ => 3
  | HApply _ pc => 2 + apply_rank n pc
  | HPropose _ _ pc => 4 + propose_rank pc + 4 * d
  | HGetState _ => 21 + 4 * d
  | HStart => 22 + 4 * d
  end.

Context (a : API) (r : Request) (n0 : Node) (sm0 : SM).
Context (Hwf0 : node_wf n0) (Hroom : last_index n0 < two64 - 2).

Lemma room_left n : node_wf n → 0 ≤ last_index n - n.(lastApplied).
Proof. intros (_ & _ & (_ & ? & ?) & _). lia. Qed.

Lemma round_rank_nonneg pc : 0 ≤ round_rank pc.
Proof.
  destruct pc; simpl; try lia;
    match goal with |- context [zlen ?l] => pose proof (zlen_nonneg l); lia end.
Qed.

Lemma rank_nonneg fwd s : hinv r fwd n0 sm0 s → 0 ≤ rank s.
Proof.
  destruct s as [[[n sm] w] pc]. intros (Hn & Hpc). pose proof (room_left n Hn).
  destruct pc; cbn [rank]; try lia.
  - destruct pc; cbn [propose_rank]; try lia. pose proof (round_rank_nonneg pc). lia.
  - destruct Hpc as (_ & command & m & e & k & _ & _ & _ & _ & Hok & _).
    pose proof (apply_rank_nonneg n pc Hn Hok). lia.
Qed.

Lemma replicateWait_rank reqs : round_rank (replicateWait reqs) ≤ 1 + 4 * zlen reqs.
Proof. pose proof (zlen_nonneg reqs). destruct reqs; cbn [replicateWait round_rank]; lia. Qed.

(** A section of a round under a finished context. *)
Lemma replicateStep_rank stop c pc n n' pc' :
  replicateStep stop (Some c) pc n = Ret (n', pc') →
  match pc with RWait _ | RDone _ => True | _ => round_rank pc' < round_rank pc end.
Proof.
  destruct pc as [| |[|p todo] reqs|reqs|q reqs resp|q reqs resp|reqs|err]; cbn [replicateStep]; try done;
    try pose proof (replicateWait_rank reqs); try pose proof (zlen_nonneg reqs).
  - intros (m & _ & [= _ <-])%go_bind_inv. done.
  - intros [= _ <-]. done.
  - intros [= _ <-]. cbn [round_rank]. lia.
  - intros [= _ <-]. cbn [round_rank]. lia.
  - destruct (stepDownForHigherTerm _ _) as [m [sd err]].
    destruct (_ || _); intros [= _ <-]; cbn [round_rank]; lia.
  - destruct (aer_Success resp); intros ([m [err|]] & _ & E)%go_bind_inv; cbn [fst snd] in E;
      simplify_eq; cbn [round_rank]; try lia. destruct (0 <? stop); cbn [round_rank]; lia.
  - intros [= _ <-]. destruct (isCommitted stop n); cbn [round_rank]; lia.
Qed.

(** A result takes a peer off the list. *)
Lemma take_request_length p l q l' : take_request p l = Some (q, l') → zlen l = zlen l' + 1.
Proof.
  revert q l'. induction l as [|x l IH]; intros q l' Ht; [done|]. cbn [take_request] in Ht.
  rewrite zlen_cons. case_bool_decide; [simplify_eq; lia|].
  destruct (take_request p l) as [[y l1]|]; [|done]. simplify_eq. rewrite zlen_cons.
  rewrite (IH _ _ eq_refl). lia.
Qed.

Lemma replicateRecv_rank p res l :
  is_Some (take_request p l) → round_rank (replicateRecv (RWait l) (Result p res)) < round_rank (RWait l).
Proof.
  intros [[q l'] Ht]. cbn [replicateRecv]. rewrite Ht.
  pose proof (take_request_length _ _ _ _ Ht). pose proof (replicateWait_rank l').
  destruct res; cbn [round_rank]; lia.
Qed.

Lemma proposeStep_rank nil c command pc n n' pc' :
  node_wf n0 → last_index n0 < two64 - 2 → propose_ok command n0 n pc →
  proposeStep nil (Some c) command pc n = Ret (n', pc') → node_wf n →
  match pc with
  | PDone _ _ | PTimer _ | PReplicate _ (RWait _) => True
  | _ => propose_rank pc' + 4 * (last_index n' - n'.(lastApplied)) <
         propose_rank pc + 4 * (last_index n - n.(lastApplied))
  end.
Proof.
  intros _ _ Hok E Hn.
  destruct pc as [| | |e|e|e rpc|e|e|e err]; cbn [proposeStep] in E; try done.
  - simplify_eq. simpl. lia.
  - simplify_eq. case_bool_decide; simpl; lia.
  - destruct Hok as [-> Hs]. apply go_bind_inv in E as ([m [e err]] & Ha & E).
    assert (last_index m ≤ last_index n0 + 1 ∧ m.(lastApplied) = n0.(lastApplied)) as [? Hla].
    { destruct (AppendLocal_cases command n0 Hwf0 Hroom) as [[x Ex]|(c' & cr & s & er & Ex & _)];
        rewrite Ex in Ha; simplify_eq; [lia|].
      unfold last_index. simpl. rewrite zlen_app, zlen_cons, zlen_nil. lia. }
    destruct err; simplify_eq; simpl; lia.
  - simplify_eq. destruct (isCommitted _ _); simpl; lia.
  - simplify_eq. case_bool_decide; [destruct nil|]; simpl; lia.
  - destruct Hok as [_ Hr].
    destruct (replicateStep_returns (le_Index e) (Some c) rpc n Hn Hr) as (m & pc1 & Es & _ & Ha & _).
    pose proof (advanced_last_index _ _ Ha) as Hl. destruct Ha as [_ Hla].
    pose proof (replicateStep_rank _ _ _ _ _ _ Es) as Hrk.
    destruct rpc as [| | | | | | |err]; try done;
      try (rewrite Es, go_bind_Ret in E; simplify_eq; cbn [propose_rank fst snd]; lia).
    destruct err; simplify_eq; simpl; lia.
  - simplify_eq. destruct (isCommitted _ _); simpl; lia.
Qed.

(** An answer is the end. *)
Lemma answer_rank n sm ans s : answer n sm ans = Ret s → rank s = 0.
Proof. unfold answer. intros (w & _ & [= <-])%go_bind_inv. done. Qed.

Ltac answered := match goal with
  | E : answer _ _ _ = Ret _ |- _ => rewrite (answer_rank _ _ _ _ E)
  | E : notLeader _ _ _ = Ret _ |- _ => unfold notLeader in E; rewrite (answer_rank _ _ _ _ E)
  end.

(** What a move may do to the rank: a firing timer starts another round. *)
Definition budget (i : handlerInput) : Z := if is_tick i then 8 else -1.

Lemma propose_move_rank c i n sm w why command pc s' :
  hinv r true n0 sm0 (n, sm, w, HPropose why command pc) → overdue c (HPropose why command pc) i →
  handlerMove a r i (n, sm, w, HPropose why command pc) = Ret s' →
  rank s' ≤ rank (n, sm, w, HPropose why command pc) + budget i.
Proof.
  intros (Hn & _ & _ & _ & Hok) Ho E. pose proof (room_left n Hn).
  assert (Hgo : (x ← proposeStep a.(appendClientNil) (Some c) command pc n;
      Ret (x.1, sm, w, HPropose why command x.2)) = Ret s' →
      match pc with PDone _ _ | PTimer _ | PReplicate _ (RWait _) => False | _ => True end →
      rank s' ≤ rank (n, sm, w, HPropose why command pc) + -1).
  { intros ([m pc'] & Es & [= <-])%go_bind_inv Hpc.
    pose proof (proposeStep_rank _ _ _ _ _ _ _ Hwf0 Hroom Hok Es Hn) as Hr.
    cbn [rank fst snd]. destruct pc as [| | | | |e []| | |]; try done; lia. }
  inversion Ho as [pc1 Hw|? ? e l|? ? e l p res Hp Hres|? ? e|? ? e|]; subst; cbn [budget is_tick].
  - destruct pc as [| | | | |e []| |e|e err]; try (by apply Hgo); try done.
    cbn [handlerMove handlerStep] in E. cbn [rank propose_rank].
    destruct err as [x|]; [|simplify_eq; cbn [rank apply_rank]; lia].
    destruct why; [|answered; lia]. destruct (asNotLeader x); [simplify_eq; cbn [rank]; lia|].
    destruct (isDeadlineExceeded x); answered; lia.
  - cbn in E. simplify_eq. cbn [rank propose_rank round_rank]. pose proof (zlen_nonneg l). lia.
  - cbn [handlerMove handlerRecv proposeRecv] in E. simplify_eq. cbn [rank propose_rank].
    pose proof (replicateRecv_rank p res l Hp) as Hlt. cbn [replicateRecv] in Hlt. lia.
  - cbn in E. simplify_eq. cbn [rank propose_rank]. lia.
  - cbn in E. simplify_eq. cbn [rank propose_rank]. lia.
Qed.

Lemma apply_move_rank c n sm w why pc s' :
  hinv r true n0 sm0 (n, sm, w, HApply why pc) →
  handlerMove a r (Step c) (n, sm, w, HApply why pc) = Ret s' →
  rank s' < rank (n, sm, w, HApply why pc).
Proof.
  intros (Hn & _ & command & m & e & k & _ & _ & _ & _ & Hok & _) E.
  cbn [handlerMove handlerStep] in E.
  assert (Hgo : (x ← applyStep pc n sm; Ret (x.1.1, x.1.2, w, HApply why x.2)) = Ret s' →
      (∀ err, pc ≠ ADone err) → rank s' < rank (n, sm, w, HApply why pc)).
  { intros Es Hpc. destruct (applyStep_returns pc n sm Hn Hok) as (n1 & sm1 & pc1 & Hx & _ & _ & Hr).
    rewrite Hx, go_bind_Ret in Es. simplify_eq. cbn [rank fst snd].
    destruct Hr as [->|]; [|lia]. destruct (applyStep_stuck _ _ _ _ _ Hx) as [err ->].
    by destruct (Hpc err). }
  destruct pc as [| | | |err]; try (by apply Hgo).
  cbn [rank apply_rank]. destruct err, why; try (answered; lia). simplify_eq. cbn [rank]. lia.
Qed.

(** The other sections. *)
Lemma local_move_rank c n sm w pc s' :
  hinv r true n0 sm0 (n, sm, w, pc) → waiting pc = false →
  match pc with HPropose _ _ _ | HApply _ _ => False | _ => True end →
  handlerStep a r c (n, sm, w, pc) = Ret s' → rank s' < rank (n, sm, w, pc).
Proof.
  intros (Hn & Hpc) Hw Hno E. pose proof (room_left n Hn).
  destruct pc as [|key| | |key|body|lid body|lid meth target body| |lid|]; try done;
    cbn [handlerStep] in E.
  - destruct Hpc as (-> & _ & ->).
    destruct (serveHTTP r newWriter) as [ans|pc1] eqn:Hs; [answered; cbn [rank]; lia|].
    simplify_eq. destruct (serveHTTP_start r pc1 Hs) as [->|[[key ->]|(b & command & ->)]];
      cbn [rank propose_rank]; lia.
  - cbn [rank]. destruct (negb _); [simplify_eq; cbn [rank]; lia|].
    destruct (EncodeCommand _); [simplify_eq; cbn [rank propose_rank]; lia|answered; lia].
  - destruct (Get key sm) as [v ok]. destruct ok; cbn [negb] in E; answered; cbn [rank]; lia.
  - destruct (leaderForwarder a); [simplify_eq; cbn [rank]; lia|answered; cbn [rank]; lia].
  - destruct (leaderForwarder a) as [f|]; [|answered; cbn [rank]; lia].
    destruct (_ || _); [answered; cbn [rank]; lia|].
    destruct (Forward_target f lid (r_Method r) (r_Path r));
      [simplify_eq; cbn [rank]; lia|answered; cbn [rank]; lia].
  - simplify_eq. cbn [rank]. lia.
  - answered. cbn [rank]. lia.
Qed.

Lemma relay_returns res : final_response res → ∃ w, relay (Forward_result res) newWriter = Ret w.
Proof.
  assert (Herr : ∀ e, ∃ w, http_Error (ErrText e) StatusBadGateway newWriter = Ret w).
  { intros e. destruct (http_Error_fresh (ErrText e) StatusBadGateway newWriter eq_refl)
      as (w & -> & _); [by compute|eauto]. }
  intros Hf. destruct res as [resp|e]; [|apply Herr]. unfold Forward_result.
  destruct (ReadAllLimit _ _) as [b|e]; [|apply Herr]. cbn [relay fr_StatusCode fr_Header fr_Body].
  cbn in Hf. assert (∃ w1, WriteHeader (hr_StatusCode resp) (Header_AddAll (hr_Header resp) newWriter) =
    Ret w1 ∧ is_Some (rw_sent w1)) as (w1 & -> & [[st h] Hw1]).
  { unfold WriteHeader. cbn [rw_sent Header_AddAll newWriter].
    destruct Hf as [-> | ?]; [by eexists|].
    destruct (Z.ltb_spec (hr_StatusCode resp) 100), (Z.ltb_spec 999 (hr_StatusCode resp)),
      (Z.leb_spec (hr_StatusCode resp) 199); try lia. by eexists. }
  rewrite go_bind_Ret. erewrite Write_sent by exact Hw1. eauto.
Qed.

(** Until the end there is something to do. *)
Lemma overdue_next c pc : pc ≠ HDone → ∃ i, overdue c pc i ∧ is_tick i = false.
Proof.
  intros Hpc. destruct (waiting pc) eqn:Hw; [|by eexists; split; [by constructor|]].
  destruct pc as [| |why command [| | | | |e []| |e|]| | | | |lid meth target body| | |]; try done.
  - eexists. split; [apply OdRoundOver|done].
  - eexists. split; [apply OdTimerOver|done].
  - exists (Recv (EvForwarded (inr (ErrContext c)))). split; [by apply OdForwarded|done].
Qed.

(** A move under a finished context returns, keeps the invariant and keeps to its
    budget. *)
Lemma overdue_move c i s :
  hinv r true n0 sm0 s → overdue c s.2 i →
  ∃ s', handlerMove a r i s = Ret s' ∧ hinv r true n0 sm0 s' ∧ rank s' ≤ rank s + budget i.
Proof.
  destruct s as [[[n sm] w] pc]. intros Hi Ho. cbn [snd] in *.
  assert (∃ s', handlerMove a r i (n, sm, w, pc) = Ret s') as [s' E].
  { destruct Ho; try (by eexists).
    - destruct (handlerStep_keeps a r n0 sm0 Hwf0 Hroom true (Some c) _ Hi) as (s1 & E & _). eauto.
    - destruct Hi as (_ & _ & -> & _). destruct (relay_returns res) as [w' Ew]; [done|].
      exists (n, sm, w', HDone). cbn [handlerMove handlerRecv]. unfold answer. by rewrite Ew. }
  exists s'. split; [done|]. split.
  { eapply handlerMove_keeps; [done|exact Hroom| |done|exact Hi|exact E]. by destruct Ho. }
  destruct pc as [|key|why command ppc|why apc|key|body|lid body|lid meth target body| |lid|];
    try (by eapply propose_move_rank);
    inversion Ho; subst; cbn [budget is_tick]; try done;
    try (match type of E with handlerMove _ _ _ (_, _, _, HApply _ _) = _ =>
           pose proof (apply_move_rank _ _ _ _ _ _ _ Hi E); lia end);
    try (cbn [handlerMove] in E;
         pose proof (local_move_rank _ _ _ _ _ _ Hi eq_refl I E); lia).
  cbn [handlerMove handlerRecv] in E. rewrite (answer_rank _ _ _ _ E). cbn [rank]. lia.
Qed.

Lemma ticks_cons i l : ticks (i :: l) = (if is_tick i then 1 else 0) + ticks l.
Proof. unfold ticks. rewrite filter_cons. destruct (is_tick i); simpl; rewrite ?zlen_cons; lia. Qed.

(** A run keeps to the budgets of its moves. *)
Lemma overdue_run_spec c l s s' :
  hinv r true n0 sm0 s → overdue_run a r c l s s' →
  hinv r true n0 sm0 s' ∧ zlen l + rank s' ≤ rank s + 9 * ticks l.
Proof.
  intros Hi Hr. induction Hr as [s|i l s s1 s2 Ho E Hr IH].
  { split; [done|]. change (ticks []) with 0. rewrite zlen_nil. lia. }
  destruct (overdue_move c i s Hi Ho) as (s1' & E' & Hi1 & Hb). rewrite E in E'. simplify_eq.
  destruct (IH Hi1) as [? ?]. split; [done|]. rewrite zlen_cons, ticks_cons.
  unfold budget in Hb. destruct (is_tick i); lia.
Qed.

End deadline.
