(* ===== verification/Metrics.v ===== *)
(** * Metrics: what a node reports (src/observability/metrics.go, and logNodeState of
    src/cmd/node/main.go)

    The collectors of the registry as a record of counters, gauges and observations;
    labels are the keys of maps. A counter of Prometheus is exact below 2^53, the
    model counts in [Z]; a gauge is set through [float64], which is modelled. *)
From S2P Require Import Prelude GoStrings Types Membership JsonString Json Node Getters HttpLib.

(** [float64(z)] of a uint64: the nearest number with 53 significant bits, ties to
    even. *)
Definition float64 (z : Z) : Z :=
  let e := Z.log2 z - 52 in
  if e <=? 0 then z
  else
    let m := Z.shiftr z e in
    let rest := z - Z.shiftl m e in
    let half := Z.shiftl 1 (e - 1) in
    let m := if (half <? rest) || ((rest =? half) && Z.odd m) then m + 1 else m in
    Z.shiftl m e.

(** type Metrics *)
Record Metrics := mkMetrics {
  m_nodeID : string;
  leaderElections : Z;
  replicationTime : gmap (string * string) (list Z);
  commitIndexGauge : Z;
  currentTermGauge : Z;
  kvRequests : gmap (string * string) Z;
}.

(** func NewMetrics *)
Definition NewMetrics (nodeID : string) : Metrics := mkMetrics nodeID 0 ∅ 0 0 ∅.

(** func RecordLeaderElection *)
Definition RecordLeaderElection (m : Metrics) : Metrics :=
  mkMetrics (m_nodeID m) (leaderElections m + 1) (replicationTime m) (commitIndexGauge m)
    (currentTermGauge m) (kvRequests m).

(** func ObserveReplicationLatency; durations in nanoseconds *)
Definition ObserveReplicationLatency (peerID result : string) (duration : Z) (m : Metrics) : Metrics :=
  mkMetrics (m_nodeID m) (leaderElections m)
    (<[(peerID, result) := default [] (replicationTime m !! (peerID, result)) ++ [duration]]>
       (replicationTime m))
    (commitIndexGauge m) (currentTermGauge m) (kvRequests m).

(** func SetCommitIndex *)
Definition SetCommitIndex (index : Z) (m : Metrics) : Metrics :=
  mkMetrics (m_nodeID m) (leaderElections m) (replicationTime m) (float64 index)
    (currentTermGauge m) (kvRequests m).

(** func SetCurrentTerm *)
Definition SetCurrentTerm (term : Z) (m : Metrics) : Metrics :=
  mkMetrics (m_nodeID m) (leaderElections m) (replicationTime m) (commitIndexGauge m)
    (float64 term) (kvRequests m).

Definition incKVRequests (operation status : string) (m : Metrics) : Metrics :=
  mkMetrics (m_nodeID m) (leaderElections m) (replicationTime m) (commitIndexGauge m)
    (currentTermGauge m)
    (<[(operation, status) := default 0 (kvRequests m !! (operation, status)) + 1]> (kvRequests m)).

(** [strings.ToUpper] on ASCII. The other letters of Unicode have no capitals among
    those of the three method names. *)
Definition upper_byte (b : byte) : byte :=
  if in_range 97 122 b then byte_of (code b - 32) else b.

Definition ToUpper (s : string) : string := string_of_bytes (map upper_byte (bytes_of_string s)).

(** func operationForMethod *)
Definition operationForMethod (method : string) : string :=
  let method := ToUpper method in
  if bool_decide (method = MethodGet) then "get"
  else if bool_decide (method = MethodPut) then "put"
  else if bool_decide (method = MethodDelete) then "delete"
  else "unknown".

(** [strconv.Itoa] of a status *)
Definition Itoa (z : Z) : string := string_of_bytes (print_uint z).

(** ** InstrumentKV *)

(** type statusRecorder: a response that remembers the status it was given *)
Record statusRecorder := mkRecorder {
  sr_ResponseWriter : ResponseWriter;
  sr_status : Z;
}.

(** func WriteHeader of statusRecorder; Write and Header are the embedded ones *)
Definition recorder_WriteHeader (status : Z) (r : statusRecorder) : go statusRecorder :=
  w ← WriteHeader status (sr_ResponseWriter r); Ret (mkRecorder w status).

Definition recorder_Write (data : list chunk) (r : statusRecorder) : go statusRecorder :=
  w ← Write data (sr_ResponseWriter r); Ret (mkRecorder w (sr_status r)).

Definition newRecorder (w : ResponseWriter) : statusRecorder := mkRecorder w StatusOK.

(** func InstrumentKV: [next] is the wrapped handler *)
Definition InstrumentKV (next : Request → statusRecorder → go statusRecorder) (r : Request)
    (w : ResponseWriter) (m : Metrics) : go (ResponseWriter * Metrics) :=
  recorder ← next r (newRecorder w);
  Ret (sr_ResponseWriter recorder,
       incKVRequests (operationForMethod (r_Method r)) (Itoa (sr_status recorder)) m).

(** ** InstrumentAppendClient *)

(** The label of a call of the append client. *)
Definition appendResultLabel (r : AppendEntriesResponse + GoError) : string :=
  match r with
  | inr _ => "error"
  | inl resp => if negb (aer_Success resp) then "rejected" else "success"
  end.

(** func InstrumentAppendClient, func AppendEntries of appendClientFunc: [r] is what
    the wrapped client returned after [duration]. *)
Definition InstrumentAppendClient (peerID : string) (r : AppendEntriesResponse + GoError)
    (duration : Z) (m : Metrics) : (AppendEntriesResponse + GoError) * Metrics :=
  (r, ObserveReplicationLatency peerID (appendResultLabel r) duration m).

(** ** logNodeState *)

(** What the loop remembers of the last change it saw. *)
Record logState := mkLogState {
  lastTerm : Z;
  lastState : State;
  lastVote : string;
}.

Definition initLogState : logState := mkLogState 0 Follower "".

Section log.
Context {St : Type} `{!StableStore St} `{!MembershipJSON}.
Implicit Types n : RaftNode St.

(** One tick with nobody else running: the four reads, the gauges, and on a change
    the count of an election that was won. *)
Definition logTick n (last : logState) (m : Metrics) : logState * Metrics :=
  let term := Node_CurrentTerm n in
  let state := Node_State n in
  let votedFor := Node_VotedFor n in
  let m := SetCurrentTerm term m in
  let m := SetCommitIndex (Node_CommitIndex n) m in
  if negb (term =? lastTerm last) || negb (bool_decide (state = lastState last))
     || negb (bool_decide (votedFor = lastVote last))
  then (mkLogState term state votedFor,
        if bool_decide (state = Leader) && negb (bool_decide (lastState last = Leader))
        then RecordLeaderElection m else m)
  else (last, m).

(** The loop over the nodes it finds at its ticks. *)
Fixpoint logNodeState (ticks : list (RaftNode St)) (last : logState) (m : Metrics) : logState * Metrics :=
  match ticks with
  | [] => (last, m)
  | n :: ticks => let '(last, m) := logTick n last m in logNodeState ticks last m
  end.

End log.

(** ** Calls of a handler *)

(** A handler, seen from the response it writes. *)
Inductive call := CallWriteHeader (status : Z) | CallWrite (data : list chunk).

Fixpoint runCalls (l : list call) (w : ResponseWriter) : go ResponseWriter :=
  match l with
  | [] => Ret w
  | CallWriteHeader status :: l => w ← WriteHeader status w; runCalls l w
  | CallWrite data :: l => w ← Write data w; runCalls l w
  end.

Fixpoint runRecorded (l : list call) (r : statusRecorder) : go statusRecorder :=
  match l with
  | [] => Ret r
  | CallWriteHeader status :: l => r ← recorder_WriteHeader status r; runRecorded l r
  | CallWrite data :: l => r ← recorder_Write data r; runRecorded l r
  end.

(** At most one status, before everything else, and a final one: what every handler
    of the API does. *)
Definition is_write (c : call) : Prop := match c with CallWrite _ => True | _ => False end.

Definition one_status (l : list call) : Prop :=
  match l with
  | CallWriteHeader status :: l => 200 ≤ status ≤ 999 ∧ Forall is_write l
  | _ => Forall is_write l
  end.

(** ** Lemmas *)

(** The recorder passes everything on. *)
Lemma runRecorded_calls l r :
  (x ← runRecorded l r; Ret (sr_ResponseWriter x)) = runCalls l (sr_ResponseWriter r).
Proof.
  revert r. induction l as [|[status|data] l IH]; intros r; [done|..];
    cbn [runRecorded runCalls]; unfold recorder_WriteHeader, recorder_Write.
  - destruct (WriteHeader status _) as [w|]; [|done]. rewrite !go_bind_Ret. apply IH.
  - destruct (Write data _) as [w|]; [|done]. rewrite !go_bind_Ret. apply IH.
Qed.

(** The status that the client gets: 200 if the handler never sent one. *)
Definition sent_status (w : ResponseWriter) : Z :=
  match rw_sent w with Some (status, _) => status | None => StatusOK end.

Lemma WriteHeader_again status w s h : rw_sent w = Some (s, h) → WriteHeader status w = Ret w.
Proof. intros E. unfold WriteHeader. by rewrite E. Qed.

(** Writes after the status was recorded keep it. *)
Lemma runRecorded_writes l r r' :
  Forall is_write l → sr_status r = sent_status (sr_ResponseWriter r) →
  runRecorded l r = Ret r' → sr_status r' = sent_status (sr_ResponseWriter r').
Proof.
  revert r. induction l as [|[status|data] l IH]; intros r Hl Hr E; cbn [runRecorded] in E;
    [by simplify_eq|by apply Forall_cons in Hl as [[] _]|].
  apply Forall_cons in Hl as [_ Hl]. unfold recorder_Write in E.
  apply go_bind_inv in E as (r1 & E1 & E). apply go_bind_inv in E1 as (w & Hw & [= <-]).
  apply (IH _ Hl) in E; [done|]. cbn [sr_status sr_ResponseWriter]. rewrite Hr.
  unfold Write in Hw. apply go_bind_inv in Hw as (w1 & Hw1 & [= <-]).
  assert (sent_status w1 = sent_status (sr_ResponseWriter r)) as <-.
  { destruct (rw_sent (sr_ResponseWriter r)) as [[s h]|] eqn:Es.
    - rewrite (WriteHeader_again _ _ _ _ Es) in Hw1. by simplify_eq.
    - rewrite WriteHeader_fresh in Hw1 by (done || by compute). simplify_eq.
      unfold sent_status. cbn [rw_sent]. by rewrite Es. }
  unfold sent_status. destruct (rw_sent w1) as [[s h]|] eqn:Es; [|by rewrite ?Es].
  destruct (bodyAllowedForStatus s); cbn [rw_sent]; by rewrite ?Es.
Qed.

Lemma runRecorded_status l r :
  one_status l → runRecorded l (newRecorder newWriter) = Ret r →
  sr_status r = sent_status (sr_ResponseWriter r).
Proof.
  intros Hl E. destruct l as [|[status|data] l].
  - cbn in E. by simplify_eq.
  - destruct Hl as [Hs Hl]. cbn [runRecorded] in E. unfold recorder_WriteHeader in E.
    cbn [sr_ResponseWriter newRecorder] in E.
    rewrite WriteHeader_fresh, !go_bind_Ret in E by (done || lia).
    by apply (runRecorded_writes l _ _ Hl) in E.
  - by apply (runRecorded_writes _ _ _ Hl) in E.
Qed.

(** Below 2^53 a gauge shows the number itself. *)
Lemma float64_exact z : 0 ≤ z < 2 ^ 53 → float64 z = z.
Proof.
  intros Hz. unfold float64. destruct (Z.leb_spec (Z.log2 z - 52) 0) as [|Hgt]; [done|].
  exfalso. destruct (decide (z = 0)) as [->|]; [done|].
  assert (Z.log2 z < 53) by (apply Z.log2_lt_pow2; lia). lia.
Qed.

(** Summing the requests over the labels counts them. *)
Definition total_requests (m : Metrics) : Z := map_fold (λ _ v acc, v + acc) 0 (kvRequests m).

Lemma total_requests_inc op st m : total_requests (incKVRequests op st m) = total_requests m + 1.
Proof.
  unfold total_requests, incKVRequests. cbn [kvRequests].
  set (k := (op, st)). set (f := λ (_ : string * string) (v acc : Z), v + acc).
  assert (∀ M : gmap (string * string) Z, M !! k = None → ∀ v,
    map_fold f 0 (<[k := v]> M) = v + map_fold f 0 M) as Hins.
  { intros M HM v. apply (map_fold_insert_L f 0 k v M); [|done].
    intros. unfold f. lia. }
  destruct (kvRequests m !! k) as [v|] eqn:Hv; cbn [default].
  - rewrite <-(insert_delete_id (kvRequests m) k v Hv) at 2.
    rewrite <-(insert_delete_eq (kvRequests m) k (v + 1)).
    rewrite !Hins by apply lookup_delete_eq. lia.
  - rewrite Hins by done. lia.
Qed.

(** Counting does not disturb. An instrumented handler that sends its status first sends
    exactly what it sends without the instrument, and it is counted once, under the
    operation of its method and the status that the client gets. *)
Theorem InstrumentKV_transparent l r m :
  one_status l →
  match runCalls l newWriter with
  | Ret w =>
      InstrumentKV (λ _, runRecorded l) r newWriter m =
        Ret (w, incKVRequests (operationForMethod (r_Method r)) (Itoa (sent_status w)) m)
  | Panic => InstrumentKV (λ _, runRecorded l) r newWriter m = Panic
  end.
Proof.
  intros Hl. pose proof (runRecorded_calls l (newRecorder newWriter)) as E.
  cbn [sr_ResponseWriter newRecorder] in E. rewrite <-E. unfold InstrumentKV.
  destruct (runRecorded l (newRecorder newWriter)) as [rec|] eqn:Er; [|done].
  rewrite !go_bind_Ret. by rewrite (runRecorded_status l rec Hl Er).
Qed.
