(* ===== verification/Main.v ===== *)
(** * Main: the parts of the process that carry logic (src/cmd/node/main.go)

    The peer list of the command line, and the loop that applies committed entries
    and takes snapshots, as a machine over its critical sections: between them the
    RPC handlers and the HTTP handlers run on the same node and state machine. *)
From S2P Require Import Prelude GoStrings Types Membership Node NodeInv NodeStep Applying.
From S2P Require Import ApplyLoop.
From S2P Require Import Replication Restart Bolt KVCommand KVStateMachine Json Getters.

(** ** parsePeers *)

(** [strings.Split(s, sep)] for a separator of one byte *)
Fixpoint split_bytes (sep : byte) (s : bytes) : list bytes :=
  match s with
  | [] => [[]]
  | b :: r =>
      if bool_decide (b = sep) then [] :: split_bytes sep r
      else match split_bytes sep r with
           | [] => [[b]]
           | w :: ws => (b :: w) :: ws
           end
  end.

(** [strings.SplitN(s, sep, 2)]: one part, or the text before and after the first
    separator. *)
Fixpoint cut_bytes (sep : byte) (s : bytes) : option (bytes * bytes) :=
  match s with
  | [] => None
  | b :: r =>
      if bool_decide (b = sep) then Some ([], r)
      else match cut_bytes sep r with
           | Some (before, after) => Some (b :: before, after)
           | None => None
           end
  end.

Definition invalidPeer (rawPeer : string) : GoError :=
  ErrFormat "invalid peer %q, want id=address" [rawPeer].

(** The loop over the comma-separated parts. *)
Fixpoint parsePeersLoop (parts : list bytes) (ids : list string) (addrs : gmap string string)
    : list string * gmap string string + GoError :=
  match parts with
  | [] => inl (ids, addrs)
  | rawPeer :: parts =>
      let peer := TrimSpace (string_of_bytes rawPeer) in
      match cut_bytes x3d (bytes_of_string peer) with
      | None => inr (invalidPeer (string_of_bytes rawPeer))
      | Some (p0, p1) =>
          let id := TrimSpace (string_of_bytes p0) in
          let addr := TrimSpace (string_of_bytes p1) in
          if bool_decide (id = "") || bool_decide (addr = "")
          then inr (invalidPeer (string_of_bytes rawPeer))
          else if bool_decide (is_Some (addrs !! id))
          then inr (ErrFormat "duplicate peer id %q" [id])
          else parsePeersLoop parts (ids ++ [id]) (<[id := addr]> addrs)
      end
  end.

Definition parsePeers (value : string) : list string * gmap string string + GoError :=
  if bool_decide (TrimSpace value = "") then inl ([], ∅)
  else parsePeersLoop (split_bytes x2c (bytes_of_string value)) [] ∅.

(** Every id has an address, once, and neither is empty. *)
Definition peers_ok (ids : list string) (addrs : gmap string string) : Prop :=
  NoDup ids ∧ (∀ id, id ∈ ids ↔ is_Some (addrs !! id)) ∧
  (∀ id addr, addrs !! id = Some addr → id ≠ "" ∧ addr ≠ "").

Lemma parsePeersLoop_ok parts ids addrs ids' addrs' :
  peers_ok ids addrs → parsePeersLoop parts ids addrs = inl (ids', addrs') →
  peers_ok ids' addrs' ∧ length ids' = (length ids + length parts)%nat.
Proof.
  revert ids addrs. induction parts as [|raw parts IH]; intros ids addrs Hok Hp;
    cbn [parsePeersLoop] in Hp.
  { simplify_eq. split; [done|]. simpl. lia. }
  destruct (cut_bytes _ _) as [[p0 p1]|]; [|done]. cbv zeta in Hp.
  set (id := TrimSpace (string_of_bytes p0)) in *. set (addr := TrimSpace (string_of_bytes p1)) in *.
  destruct (bool_decide (id = "") || bool_decide (addr = "")) eqn:He; [done|].
  apply orb_false_iff in He as [He1 He2]. breflect.
  case_bool_decide as Hdup; [done|]. destruct Hok as (Hnd & Hdom & Hne).
  apply IH in Hp as [? Hlen].
  - split; [done|]. rewrite Hlen, length_app. simpl. lia.
  - split_and!.
    + apply NoDup_app. split_and!; [done| |apply NoDup_singleton].
      intros x Hx ->%list_elem_of_singleton. by apply Hdup, Hdom.
    + intros x. rewrite elem_of_app, list_elem_of_singleton, Hdom, lookup_insert_is_Some.
      destruct (decide (id = x)); naive_solver.
    + intros x a. rewrite lookup_insert_Some. naive_solver.
Qed.

Lemma parsePeers_ok value ids addrs : parsePeers value = inl (ids, addrs) → peers_ok ids addrs.
Proof.
  unfold parsePeers. case_bool_decide.
  - intros [= <- <-]. split_and!; [constructor|..].
    + intros id. rewrite lookup_empty. split; [by intros ?%not_elem_of_nil|by intros []].
    + intros id addr. by rewrite lookup_empty.
  - intros Hp. apply parsePeersLoop_ok in Hp as [? _]; [done|]. split_and!; [constructor|..].
    + intros id. rewrite lookup_empty. split; [by intros ?%not_elem_of_nil|by intros []].
    + intros id addr. by rewrite lookup_empty.
Qed.

(** ** run: the command line and the end of the process *)

Record Flags := mkFlags {
  fl_id : string;
  fl_raftAddr : string;
  fl_httpAddr : string;
  fl_peers : string;
  fl_peerHTTP : string;
  fl_data : string;
  fl_kvData : string;
}.

(** The defaults of the flags. *)
Definition defaultFlags : Flags := mkFlags "" ":9001" ":8080" "" "" "" "".

(** The checks of [run] before it opens anything. *)
Definition runConfig (f : Flags)
    : list string * gmap string string * gmap string string + GoError :=
  if bool_decide (fl_id f = "") then inr (ErrMessage "missing required --id")
  else match parsePeers (fl_peers f) with
       | inr err => inr err
       | inl (peerIDs, peerAddrs) =>
           match parsePeers (fl_peerHTTP f) with
           | inr err => inr (ErrWrapped "parse peer HTTP addresses: %w" err)
           | inl (_, peerHTTPAddrs) => inl (peerIDs, peerAddrs, peerHTTPAddrs)
           end
       end.

(** The handlers of the process: the API behind its metrics, and the metrics. *)
Inductive mainHandler := MainAPI | MainMetrics.

Definition main_patterns : list (string * mainHandler) :=
  [("/kv/", MainAPI); ("/metrics", MainMetrics)].

(** What the select at the end of [run] receives. *)
Inductive runEvent :=
| RunSignal
| RunServer (err : error)
| RunHTTP (err : error)
| RunLoop (err : error).

(** [errors.Is(err, context.Canceled)] *)
Fixpoint isCanceled (e : GoError) : bool :=
  match e with
  | ErrContext Canceled => true
  | ErrWrapped _ e => isCanceled e
  | _ => false
  end.

(** What [run] returns; an error ends the process with log.Fatal. *)
Definition runResult (ev : runEvent) : error :=
  match ev with
  | RunSignal => None
  | RunServer (Some err) => Some (ErrWrapped "raft grpc server: %w" err)
  | RunHTTP (Some err) => Some (ErrWrapped "http server: %w" err)
  | RunLoop (Some err) => if isCanceled err then None else Some err
  | _ => None
  end.

(** ** applyCommittedLoop *)

Definition snapshotThresholdEntries : Z := 64.

(** Program points: inside ApplyCommitted, after it has returned, before the snapshot,
    with a snapshot to store, at the select, and at the end. *)
Inductive applyLoopPC :=
| LApply (pc : applyPC)
| LShould
| LSnapshot
| LCompact (snapshot : bytes)
| LWait
| LDone (err : error).

Section loop.
Context {St : Type} `{!StableStore St} `{!MembershipJSON}.
Context {SM : Type} `{!SnapshotStateMachine SM} `{!ApplySections SM}.
Implicit Types n m : RaftNode St.

(** Where ApplyCommitted returns to. *)
Definition applyReturn (pc : applyPC) : applyLoopPC :=
  match pc with
  | ADone (Some e) => LDone (Some e)
  | ADone None => LShould
  | _ => LApply pc
  end.

(** One critical section of the loop. *)
Definition applyLoopStep (pc : applyLoopPC) (n : RaftNode St) (sm : SM)
    : go (RaftNode St * SM * applyLoopPC) :=
  match pc with
  | LApply pc => r ← applyStep pc n sm; Ret (r.1, applyReturn r.2)
  | LShould =>
      Ret (n, sm, if ShouldSnapshot snapshotThresholdEntries n then LSnapshot else LWait)
  | LSnapshot =>
      Ret (n, sm, match Types.Snapshot sm with
                  | inr e => LDone (Some e)
                  | inl snapshot => LCompact snapshot
                  end)
  | LCompact snapshot =>
      r ← Compact snapshot n;
      Ret (r.1, sm, match r.2 with Some e => LDone (Some e) | None => LWait end)
  | LWait | LDone _ => Ret (n, sm, pc)
  end.

(** The select: the context ends, or a commit is signalled. *)
Definition applyLoopRecv (ctxErr : option ContextError) (pc : applyLoopPC) : applyLoopPC :=
  match pc with
  | LWait => match ctxErr with Some c => LDone (Some (ErrContext c)) | None => LApply AFetch end
  | _ => pc
  end.

(** One round from ApplyCommitted to the select, undisturbed, for at most [fuel]
    critical sections. *)
Fixpoint applyRound (fuel : nat) (pc : applyLoopPC) (n : RaftNode St) (sm : SM)
    : go (RaftNode St * SM * applyLoopPC) :=
  match fuel, pc with
  | O, _ | _, LWait | _, LDone _ => Ret (n, sm, pc)
  | S fuel, _ => r ← applyLoopStep pc n sm; applyRound fuel r.2 r.1.1 r.1.2
  end.

(** How an undisturbed round ends: with an error; or at the select with everything
    committed applied, and then either there was too little for a snapshot or the
    node has stored the snapshot of the machine as it is now, at the position it
    has applied. [m] is the node after ApplyCommitted. *)
Definition round_end (n : RaftNode St) (sm : SM) (m n' : RaftNode St) (sm' : SM)
    (pc : applyLoopPC) : Prop :=
  match pc with
  | LDone err => err ≠ None
  | LWait =>
      applied_result n sm m sm' None ∧
      (ShouldSnapshot snapshotThresholdEntries m = false ∧ n' = m ∨
       ShouldSnapshot snapshotThresholdEntries m = true ∧
       ∃ b, Types.Snapshot sm' = inl b ∧ persistLocked (compacted m b) = (n', None))
  | _ => False
  end.

Lemma ShouldSnapshot_ahead n :
  node_wf n → last_index n + snapshotThresholdEntries < two64 →
  ShouldSnapshot snapshotThresholdEntries n = true → n.(lastIncludedIndex) < n.(lastApplied).
Proof.
  intros (Hl & _) Hb. pose proof (last_index_ge n Hl).
  unfold ShouldSnapshot, snapshotThresholdEntries in *.
  intros [_ Hle%Z.leb_le]%andb_true_iff. unfold uadd in Hle.
  rewrite u64_small in Hle; lia.
Qed.

(** The sections of ApplyCommitted inside the loop. *)
Lemma applyRound_apply k pc n sm n' sm' err fuel :
  (∀ e, pc ≠ ADone e) → applySteps k pc n sm = Ret (n', sm', ADone err) →
  ∃ j, (j ≤ k)%nat ∧
    applyRound (j + fuel) (LApply pc) n sm = applyRound fuel (applyReturn (ADone err)) n' sm'.
Proof.
  revert pc n sm. induction k as [|k IH]; intros pc n sm Hpc Hk; cbn [applySteps] in Hk.
  { simplify_eq. by destruct (Hpc err). }
  apply go_bind_inv in Hk as ([[n1 sm1] pc1] & E & Hk). cbn [fst snd] in Hk.
  assert (Hone : ∀ f, applyRound (S f) (LApply pc) n sm = applyRound f (applyReturn pc1) n1 sm1).
  { intros f. cbn [applyRound applyLoopStep]. by rewrite E, !go_bind_Ret. }
  assert ((∃ e, pc1 = ADone e) ∨ ∀ e, pc1 ≠ ADone e) as [[e ->]|Hpc1]
    by (destruct pc1; naive_solver).
  - rewrite applySteps_done in Hk. simplify_eq. exists 1%nat. split; [lia|]. apply Hone.
  - destruct (IH pc1 n1 sm1 Hpc1 Hk) as (j & Hj & <-). exists (S j). split; [lia|].
    rewrite Nat.add_succ_l, Hone. by destruct pc1 as [| | | |e]; [..|destruct (Hpc1 e)].
Qed.

(** A round that has ended does not go on. *)
Definition loop_rests (pc : applyLoopPC) : Prop :=
  match pc with LWait | LDone _ => True | _ => False end.

Lemma applyRound_rests fuel pc n sm : loop_rests pc → applyRound fuel pc n sm = Ret (n, sm, pc).
Proof. by destruct fuel, pc. Qed.

Lemma applyRound_more fuel k pc n sm n' sm' pc' :
  loop_rests pc' → applyRound fuel pc n sm = Ret (n', sm', pc') →
  applyRound (fuel + k) pc n sm = Ret (n', sm', pc').
Proof.
  intros Hp. revert pc n sm. induction fuel as [|fuel IH]; intros pc n sm E.
  { cbn in E. simplify_eq. by apply applyRound_rests. }
  assert (loop_rests pc ∨ ¬ loop_rests pc) as [Hr|Hr] by (destruct pc; simpl; auto).
  - rewrite applyRound_rests in E by done. simplify_eq. by apply applyRound_rests.
  - cbn [Nat.add applyRound] in *.
    destruct pc; try done; apply go_bind_inv in E as (x & -> & E); rewrite go_bind_Ret; by apply IH.
Qed.

(** The sections a round needs: those of ApplyCommitted, and three. *)
Definition round_fuel (n : RaftNode St) : nat := Z.to_nat (apply_rank n AFetch + 3).

(** Run the next critical section. *)
Ltac next_section := repeat progress (rewrite ?go_bind_Ret; cbn [fst snd applyRound applyLoopStep]).

Lemma snapshot_part m sm :
  node_wf m → last_index m + snapshotThresholdEntries < two64 →
  ∃ n' pc, applyRound 3 LShould m sm = Ret (n', sm, pc) ∧ node_wf n' ∧ loop_rests pc ∧
    match pc with
    | LDone err => err ≠ None
    | _ => ShouldSnapshot snapshotThresholdEntries m = false ∧ n' = m ∨
           ShouldSnapshot snapshotThresholdEntries m = true ∧
           ∃ b, Types.Snapshot sm = inl b ∧ persistLocked (compacted m b) = (n', None)
    end.
Proof.
  intros Hm Hb. next_section.
  destruct (ShouldSnapshot snapshotThresholdEntries m) eqn:Hsh.
  2: { exists m, LWait. split_and!; try done. by left. }
  next_section.
  destruct (Types.Snapshot sm) as [b|x] eqn:Hsn; [|by exists m, (LDone (Some x))].
  next_section.
  pose proof Hm as (Hl & _ & Ho & _). pose proof (ShouldSnapshot_ahead m Hm Hb Hsh).
  destruct (Compact_cases b m Hl Ho) as [[? _]|[(_ & _ & ->)|(_ & _ & ->)]]; [lia|..];
    next_section.
  { by eexists m, (LDone (Some _)). }
  pose proof (persistLocked_wf _ (compacted_wf b m Hm)) as Hwf'.
  destruct (persistLocked (compacted m b)) as [n' [x|]] eqn:Hp.
  - by exists n', (LDone (Some x)).
  - exists n', LWait. split_and!; try done. right. eauto.
Qed.

Lemma applyRound_spec n sm :
  node_wf n → last_index n + snapshotThresholdEntries < two64 →
  ∃ m n' sm' pc, applyRound (round_fuel n) (LApply AFetch) n sm = Ret (n', sm', pc) ∧
    loop_rests pc ∧ node_wf n' ∧ node_wf m ∧ same_log m n ∧ round_end n sm m n' sm' pc.
Proof.
  intros Hwf Hb.
  destruct (applySteps_total AFetch n sm Hwf I) as (k & m & sm' & err & Hk & E).
  destruct (applySteps_spec k n sm m sm' err Hwf E) as (Hm & Hs & Hres).
  destruct (applyRound_apply k AFetch n sm m sm' err 3 ltac:(done) E) as (j & Hj & Ej).
  assert (Hfuel : round_fuel n = ((j + 3) + (round_fuel n - (j + 3)))%nat)
    by (unfold round_fuel in *; lia).
  destruct err as [x|]; cbn [applyReturn] in Ej.
  { rewrite (applyRound_rests 3) in Ej by done.
    exists m, m, sm', (LDone (Some x)). split_and!; try done.
    rewrite Hfuel. by apply applyRound_more. }
  rewrite <-(last_index_proper _ _ Hs) in Hb.
  destruct (snapshot_part m sm' Hm Hb) as (n' & pc & Ep & Hn' & Hr & Hend).
  rewrite Ep in Ej. exists m, n', sm', pc. split_and!; try done.
  - rewrite Hfuel. by apply applyRound_more.
  - destruct pc; try done.
Qed.

End loop.

(** ** Start-up

    The part of [run] that builds the node and its state machine from the two
    databases, and puts a stored snapshot back. *)
Section startup.
Context {St : Type} `{!StableStore St} {DB : Type} `{!BoltDB DB} `{!MapRange}.

Definition startKV (node : RaftNode St) (kvDB : DB) : KVStateMachine DB + GoError :=
  match NewBoltKVStateMachine (Some kvDB) with
  | inr err => inr (ErrWrapped "create kv state machine: %w" err)
  | inl kvStateMachine =>
      let snap := Node_Snapshot node in
      if 0 <? zlen snap then
        let '(kvStateMachine, err) := KVStateMachine.RestoreSnapshot snap kvStateMachine in
        match err with
        | Some err => inr (ErrWrapped "restore kv snapshot: %w" err)
        | None => inl kvStateMachine
        end
      else inl kvStateMachine
  end.

Definition startNode (id : string) (peerIDs : list string) (stableStore : St)
    : RaftNode St + GoError :=
  match NewRaftNode id peerIDs (Some stableStore) with
  | inr err => inr (ErrWrapped "create raft node: %w" err)
  | inl node => inl node
  end.

(** Both, over the two databases. *)
Definition startup (id : string) (peerIDs : list string) (stableStore : St) (kvDB : DB)
    : RaftNode St * KVStateMachine DB + GoError :=
  match startNode id peerIDs stableStore with
  | inr err => inr err
  | inl node =>
      match startKV node kvDB with inr err => inr err | inl sm => inl (node, sm) end
  end.

Context (tx_view : Tx → bolt_view) `{!BoltLaws DB tx_view}.

(** Opening a database, with or without the bucket, leaves memory and disk equal. *)
Lemma NewBolt_mirrored (db : DB) s :
  NewBoltKVStateMachine (Some db) = inl s → mirrored tx_view s.
Proof using All.
  unfold NewBoltKVStateMachine.
  destruct (Update (CreateBucketIfNotExists kvBucket) db) as [db' [e|]] eqn:Hu; [done|].
  destruct (Update_nil _ _ _ Hu) as (t & t1 & t2 & t' & _ & _ & Hf & Hv & E').
  assert (∃ m, tx_view t' !! kvBucket = Some m) as [m Hm].
  { rewrite E', (Create_ok _ _ _ Hf). destruct (tx_view t1 !! kvBucket) eqn:E; [by eexists|].
    eexists. apply lookup_insert_eq. }
  unfold load. rewrite Hv, HasBucket_spec, Hm, bool_decide_eq_true_2 by done.
  intros [= <-]. exists t'. split; [done|]. simpl. rewrite Hm. f_equal.
  symmetry. by apply insert_all_perm, All_spec.
Qed.

(** A node that stored the snapshot of a map starts with that map. *)
Lemma startup_restores id ps store db r s (s0 : KVStateMachine DB) b n :
  NewRaftNode id ps (Some store) = inl n → n.(snapshot) = b →
  utf8_keys (kv_data s0) → KVStateMachine.Snapshot s0 = inl b →
  startup id ps store db = inl (r, s) →
  r = n ∧ kv_data s = kv_data s0 ∧ mirrored tx_view s.
Proof using All.
  intros Hn Hb Hk Hs0 Hst. unfold startup, startNode, startKV in Hst. rewrite Hn in Hst.
  destruct (NewBoltKVStateMachine (Some db)) as [s1|] eqn:Hkv; [|done].
  unfold Node_Snapshot, clone_bytes in Hst. cbv zeta in Hst. rewrite Hb, app_nil_l in Hst.
  assert ((0 <? zlen b) = true) as Hlen.
  { injection Hs0 as <-. reflexivity. }
  rewrite Hlen in Hst.
  destruct (KVStateMachine.RestoreSnapshot b s1) as [s2 [e|]] eqn:Hr; [done|]. simplify_eq.
  destruct (RestoreSnapshot_spec tx_view s0 s1 s None _ Hk Hs0) as (? & ? & _);
    [by eapply NewBolt_mirrored|done|done].
Qed.

End startup.
