(* ===== verification/Grpc.v ===== *)
(** * Grpc: the RPC boundary (src/raftgrpc)

    The generated message types with their getters (src/proto/raft.pb.go), the
    conversions of convert.go, the server of server.go in front of a node, and the
    peer client of client.go. A message pointer may be nil, so a message is an
    [option]; a getter on nil returns the zero value. The connection to a peer is
    the parameter [Conn]: one function per RPC; what a call over it may do is the
    relation [carried]. *)
From S2P Require Import Prelude GoStrings Types Membership Node.

(** ** Messages (src/proto/raft.pb.go) *)

Record pbLogEntry := mkPbLogEntry { pble_Term : Z; pble_Index : Z; pble_Command : bytes }.

Record pbVoteRequest := mkPbVoteRequest {
  pbvq_Term : Z; pbvq_CandidateId : string; pbvq_LastLogIndex : Z; pbvq_LastLogTerm : Z }.

Record pbVoteResponse := mkPbVoteResponse { pbvr_Term : Z; pbvr_VoteGranted : bool }.

Record pbPreVoteRequest := mkPbPreVoteRequest {
  pbpq_Term : Z; pbpq_CandidateId : string; pbpq_LastLogIndex : Z; pbpq_LastLogTerm : Z }.

Record pbPreVoteResponse := mkPbPreVoteResponse { pbpr_Term : Z; pbpr_VoteGranted : bool }.

Record pbAppendRequest := mkPbAppendRequest {
  pbaq_Term : Z; pbaq_LeaderId : string; pbaq_PrevLogIndex : Z; pbaq_PrevLogTerm : Z;
  pbaq_Entries : list (option pbLogEntry); pbaq_LeaderCommit : Z }.

Record pbAppendResponse := mkPbAppendResponse { pbar_Term : Z; pbar_Success : bool }.

(** A getter: the field of the message, or its zero value for nil. *)
Definition getter {M A} (f : M → A) (zero : A) (m : option M) : A :=
  match m with Some m => f m | None => zero end.

(** ** Conversions (src/raftgrpc/convert.go) *)

Definition toProtoRequestVoteRequest (req : RequestVoteRequest) : option pbVoteRequest :=
  Some (mkPbVoteRequest (rvq_Term req) (rvq_CandidateID req) (rvq_LastLogIndex req)
          (rvq_LastLogTerm req)).

Definition fromProtoRequestVoteRequest (req : option pbVoteRequest) : RequestVoteRequest :=
  mkRVQ (getter pbvq_Term 0 req) (getter pbvq_CandidateId "" req)
    (getter pbvq_LastLogIndex 0 req) (getter pbvq_LastLogTerm 0 req).

Definition toProtoRequestVoteResponse (resp : RequestVoteResponse) : option pbVoteResponse :=
  Some (mkPbVoteResponse (rvr_Term resp) (rvr_VoteGranted resp)).

Definition fromProtoRequestVoteResponse (resp : option pbVoteResponse) : RequestVoteResponse :=
  mkRVR (getter pbvr_Term 0 resp) (getter pbvr_VoteGranted false resp).

Definition toProtoPreVoteRequest (req : PreVoteRequest) : option pbPreVoteRequest :=
  Some (mkPbPreVoteRequest (pvq_Term req) (pvq_CandidateID req) (pvq_LastLogIndex req)
          (pvq_LastLogTerm req)).

Definition fromProtoPreVoteRequest (req : option pbPreVoteRequest) : PreVoteRequest :=
  mkPVQ (getter pbpq_Term 0 req) (getter pbpq_CandidateId "" req)
    (getter pbpq_LastLogIndex 0 req) (getter pbpq_LastLogTerm 0 req).

Definition toProtoPreVoteResponse (resp : PreVoteResponse) : option pbPreVoteResponse :=
  Some (mkPbPreVoteResponse (pvr_Term resp) (pvr_VoteGranted resp)).

Definition fromProtoPreVoteResponse (resp : option pbPreVoteResponse) : PreVoteResponse :=
  mkPVR (getter pbpr_Term 0 resp) (getter pbpr_VoteGranted false resp).

Definition toProtoLogEntries (entries : list LogEntry) : list (option pbLogEntry) :=
  map (fun entry => Some (mkPbLogEntry (le_Term entry) (le_Index entry)
                            (clone_bytes (le_Command entry)))) entries.

Definition fromProtoLogEntries (entries : list (option pbLogEntry)) : list LogEntry :=
  map (fun entry => mkEntry (getter pble_Term 0 entry) (getter pble_Index 0 entry)
                      (clone_bytes (getter pble_Command [] entry))) entries.

Definition toProtoAppendEntriesRequest (req : AppendEntriesRequest) : option pbAppendRequest :=
  Some (mkPbAppendRequest (aeq_Term req) (aeq_LeaderID req) (aeq_PrevLogIndex req)
          (aeq_PrevLogTerm req) (toProtoLogEntries (aeq_Entries req)) (aeq_LeaderCommit req)).

Definition fromProtoAppendEntriesRequest (req : option pbAppendRequest) : AppendEntriesRequest :=
  mkAEQ (getter pbaq_Term 0 req) (getter pbaq_LeaderId "" req)
    (getter pbaq_PrevLogIndex 0 req) (getter pbaq_PrevLogTerm 0 req)
    (fromProtoLogEntries (getter pbaq_Entries [] req)) (getter pbaq_LeaderCommit 0 req).

Definition toProtoAppendEntriesResponse (resp : AppendEntriesResponse) : option pbAppendResponse :=
  Some (mkPbAppendResponse (aer_Term resp) (aer_Success resp)).

Definition fromProtoAppendEntriesResponse (resp : option pbAppendResponse) : AppendEntriesResponse :=
  mkAER (getter pbar_Term 0 resp) (getter pbar_Success false resp).

(** ** The server (src/raftgrpc/server.go) *)

Section server.
Context {St : Type} `{!StableStore St} `{!MembershipJSON}.

(** type Server: the node it serves, and the reset channel of capacity one with
    whether it holds a signal ([None] for a nil channel). *)
Record Server := mkServer {
  srv_node : RaftNode St;
  srv_appendReset : option bool;
}.

Implicit Types s : Server.

Definition NewServer (node : RaftNode St) : Server := mkServer node None.

Definition NewServerWithAppendReset (node : RaftNode St) (full : bool) : Server :=
  mkServer node (Some full).

(** A send with a default case. *)
Definition notifyAppendReset s : Server :=
  match srv_appendReset s with
  | None => s
  | Some _ => mkServer (srv_node s) (Some true)
  end.

Definition Server_RequestVote (req : option pbVoteRequest) s
    : Server * (option pbVoteResponse * error) :=
  let '(node, (resp, err)) := RequestVote (fromProtoRequestVoteRequest req) (srv_node s) in
  let s := mkServer node (srv_appendReset s) in
  match err with
  | Some e => (s, (None, Some e))
  | None => (s, (toProtoRequestVoteResponse resp, None))
  end.

Definition Server_PreVote (req : option pbPreVoteRequest) s : option pbPreVoteResponse * error :=
  let '(resp, err) := PreVote (fromProtoPreVoteRequest req) (srv_node s) in
  match err with
  | Some e => (None, Some e)
  | None => (toProtoPreVoteResponse resp, None)
  end.

Definition Server_AppendEntries (req : option pbAppendRequest) s
    : go (Server * (option pbAppendResponse * error)) :=
  r ← HandleAppendEntries (fromProtoAppendEntriesRequest req) (srv_node s);
  let '(node, (resp, err)) := r in
  let s := mkServer node (srv_appendReset s) in
  match (err : error) with
  | Some e => Ret (s, (None, Some e))
  | None =>
      let s := if aer_Success resp then notifyAppendReset s else s in
      Ret (s, (toProtoAppendEntriesResponse resp, None))
  end.

End server.

Arguments Server St : clear implicits.

(** ** The peer client (src/raftgrpc/client.go) *)

(** One connection: what a call returns. *)
Record Conn := mkConn {
  conn_RequestVote : option pbVoteRequest → option pbVoteResponse * error;
  conn_PreVote : option pbPreVoteRequest → option pbPreVoteResponse * error;
  conn_AppendEntries : option pbAppendRequest → option pbAppendResponse * error;
}.

(** type PeerClient *)
Abbreviation PeerClient := (gmap string Conn).

Definition Client_RequestVote (c : PeerClient) (peerID : string) (req : RequestVoteRequest)
    : RequestVoteResponse * error :=
  match c !! peerID with
  | None => (mkRVR 0 false, Some (ErrFormat "unknown peer %s" [peerID]))
  | Some client =>
      let '(resp, err) := conn_RequestVote client (toProtoRequestVoteRequest req) in
      match err with
      | Some e => (mkRVR 0 false, Some e)
      | None => (fromProtoRequestVoteResponse resp, None)
      end
  end.

Definition Client_PreVote (c : PeerClient) (peerID : string) (req : PreVoteRequest)
    : PreVoteResponse * error :=
  match c !! peerID with
  | None => (mkPVR 0 false, Some (ErrFormat "unknown peer %s" [peerID]))
  | Some client =>
      let '(resp, err) := conn_PreVote client (toProtoPreVoteRequest req) in
      match err with
      | Some e => (mkPVR 0 false, Some e)
      | None => (fromProtoPreVoteResponse resp, None)
      end
  end.

Definition Client_AppendEntries (c : PeerClient) (peerID : string) (req : AppendEntriesRequest)
    : AppendEntriesResponse * error :=
  match c !! peerID with
  | None => (mkAER 0 false, Some (ErrFormat "unknown peer %s" [peerID]))
  | Some client =>
      let '(resp, err) := conn_AppendEntries client (toProtoAppendEntriesRequest req) in
      match err with
      | Some e => (mkAER 0 false, Some e)
      | None => (fromProtoAppendEntriesResponse resp, None)
      end
  end.

(** ** Conversions lose nothing *)

Lemma RequestVoteRequest_roundtrip req :
  fromProtoRequestVoteRequest (toProtoRequestVoteRequest req) = req.
Proof. by destruct req. Qed.

Lemma RequestVoteResponse_roundtrip resp :
  fromProtoRequestVoteResponse (toProtoRequestVoteResponse resp) = resp.
Proof. by destruct resp. Qed.

Lemma PreVoteRequest_roundtrip req : fromProtoPreVoteRequest (toProtoPreVoteRequest req) = req.
Proof. by destruct req. Qed.

Lemma PreVoteResponse_roundtrip resp :
  fromProtoPreVoteResponse (toProtoPreVoteResponse resp) = resp.
Proof. by destruct resp. Qed.

Lemma LogEntries_roundtrip es : fromProtoLogEntries (toProtoLogEntries es) = es.
Proof. induction es as [|[] es IH]; [done|]. simpl. by rewrite IH. Qed.

Lemma AppendEntriesRequest_roundtrip req :
  fromProtoAppendEntriesRequest (toProtoAppendEntriesRequest req) = req.
Proof.
  unfold fromProtoAppendEntriesRequest. simpl getter.
  rewrite LogEntries_roundtrip. by destruct req.
Qed.

Lemma AppendEntriesResponse_roundtrip resp :
  fromProtoAppendEntriesResponse (toProtoAppendEntriesResponse resp) = resp.
Proof. by destruct resp. Qed.

#[export] Hint Rewrite RequestVoteRequest_roundtrip RequestVoteResponse_roundtrip
  PreVoteRequest_roundtrip PreVoteResponse_roundtrip AppendEntriesRequest_roundtrip
  AppendEntriesResponse_roundtrip : go_rw.

(** ** A call through client, connection and server *)

(** What grpc promises of a unary call, for a handler that runs on the server's state
    [s]: the call fails without reaching the handler (an unreachable peer, a message
    over the size limit, a string that is not UTF-8, a deadline); or the handler runs,
    once, and the call fails (the handler's own error, turned into a status, or an
    answer that is lost or late); or the handler returned a message and no error, and
    the call returns that message. A handler that panics takes its process down and has
    no state to describe. *)
Inductive carried {S Req Resp} (handler : Req → S → go (S * (option Resp * error)))
    (req : Req) (s : S) : S → option Resp * error → Prop :=
| carried_unsent e : carried handler req s s (None, Some e)
| carried_failed s' r e :
    handler req s = Ret (s', r) → carried handler req s s' (None, Some e)
| carried_answer s' resp :
    handler req s = Ret (s', (Some resp, None)) → carried handler req s s' (Some resp, None).

Section calls.
Context {St : Type} `{!StableStore St} `{!MembershipJSON}.
Implicit Types s : Server St.

(** The handlers as functions on the server; PreVote leaves it as it is. *)
Definition handle_RequestVote (req : option pbVoteRequest) s :=
  Ret (Server_RequestVote req s).

Definition handle_PreVote (req : option pbPreVoteRequest) s := Ret (s, Server_PreVote req s).

(** The server after the node's own operation. *)
Definition after_append (node : RaftNode St) (resp : AppendEntriesResponse) (err : error) s : Server St :=
  mkServer node
    (if bool_decide (err = None) && aer_Success resp
     then (λ _, true) <$> srv_appendReset s else srv_appendReset s).

Lemma Server_RequestVote_eq req s :
  Server_RequestVote (toProtoRequestVoteRequest req) s =
  let '(node, (resp, err)) := RequestVote req (srv_node s) in
  (mkServer node (srv_appendReset s),
   match err with Some e => (None, Some e) | None => (toProtoRequestVoteResponse resp, None) end).
Proof.
  unfold Server_RequestVote. autorewrite with go_rw.
  by destruct (RequestVote req (srv_node s)) as [node [resp [e|]]].
Qed.

Lemma Server_PreVote_eq req s :
  Server_PreVote (toProtoPreVoteRequest req) s =
  let '(resp, err) := PreVote req (srv_node s) in
  match err with Some e => (None, Some e) | None => (toProtoPreVoteResponse resp, None) end.
Proof.
  unfold Server_PreVote. autorewrite with go_rw. by destruct (PreVote req (srv_node s)) as [? [?|]].
Qed.

Lemma Server_AppendEntries_eq req s s' r :
  Server_AppendEntries (toProtoAppendEntriesRequest req) s = Ret (s', r) →
  ∃ node resp err, HandleAppendEntries req (srv_node s) = Ret (node, (resp, err)) ∧
    s' = after_append node resp err s ∧
    r = match err with Some e => (None, Some e) | None => (toProtoAppendEntriesResponse resp, None) end.
Proof.
  unfold Server_AppendEntries. autorewrite with go_rw.
  destruct (HandleAppendEntries req (srv_node s)) as [[node [resp err]]|]; [|done].
  rewrite go_bind_Ret. intros Hr. exists node, resp, err. split; [done|]. unfold after_append.
  destruct err as [e|]; [by injection Hr as <- <-|]. injection Hr as <- <-.
  rewrite bool_decide_eq_true_2 by done. cbn [andb].
  destruct (aer_Success resp); [|done]. unfold notifyAppendReset. by destruct (srv_appendReset s).
Qed.

Lemma RequestVote_call c p client s s' req :
  c !! p = Some client →
  carried handle_RequestVote (toProtoRequestVoteRequest req) s s'
    (conn_RequestVote client (toProtoRequestVoteRequest req)) →
  let '(node, (resp, err)) := RequestVote req (srv_node s) in
  let ran := mkServer node (srv_appendReset s) in
  match Client_RequestVote c p req with
  | (r, None) => err = None ∧ r = resp ∧ s' = ran
  | (r, Some _) => r = mkRVR 0 false ∧ (s' = s ∨ s' = ran)
  end.
Proof.
  intros Hc Hca. unfold Client_RequestVote. rewrite Hc. unfold handle_RequestVote in Hca.
  pose proof (Server_RequestVote_eq req s) as E.
  destruct (RequestVote req (srv_node s)) as [node [resp err]]. cbn [fst snd].
  inversion Hca as [e|s1 r e Hh|s1 pb Hh]; subst; [by auto| |];
    rewrite E in Hh; injection Hh as <- Hr; [by auto|].
  destruct err; [done|]. injection Hr as <-. by destruct resp.
Qed.

Lemma PreVote_call c p client s s' req :
  c !! p = Some client →
  carried handle_PreVote (toProtoPreVoteRequest req) s s'
    (conn_PreVote client (toProtoPreVoteRequest req)) →
  s' = s ∧
  match Client_PreVote c p req with
  | (r, None) => PreVote req (srv_node s) = (r, None)
  | (r, Some _) => r = mkPVR 0 false
  end.
Proof.
  intros Hc Hca. unfold Client_PreVote. rewrite Hc. unfold handle_PreVote in Hca.
  pose proof (Server_PreVote_eq req s) as E.
  destruct (PreVote req (srv_node s)) as [resp err]. cbn [fst snd].
  inversion Hca as [e|s1 r e Hh|s1 pb Hh]; subst; [done|by injection Hh as <- _|].
  rewrite E in Hh. injection Hh as <- Hr. split; [done|].
  destruct err; [done|]. injection Hr as <-. by destruct resp.
Qed.

Lemma AppendEntries_call c p client s s' req :
  c !! p = Some client →
  carried Server_AppendEntries (toProtoAppendEntriesRequest req) s s'
    (conn_AppendEntries client (toProtoAppendEntriesRequest req)) →
  match Client_AppendEntries c p req with
  | (r, None) => ∃ node, HandleAppendEntries req (srv_node s) = Ret (node, (r, None)) ∧
      s' = after_append node r None s
  | (r, Some _) => r = mkAER 0 false ∧
      (s' = s ∨ ∃ node resp err, HandleAppendEntries req (srv_node s) = Ret (node, (resp, err)) ∧
         s' = after_append node resp err s)
  end.
Proof.
  intros Hc Hca. unfold Client_AppendEntries. rewrite Hc.
  inversion Hca as [e|s1 r e Hh|s1 pb Hh]; subst; [by auto| |];
    apply Server_AppendEntries_eq in Hh as (node & resp & err & Hh & -> & Hr).
  - split; [done|]. right. by exists node, resp, err.
  - destruct err; [done|]. injection Hr as ->. exists node. by destruct resp.
Qed.

End calls.
