(* ===== verification/GrpcDial.v ===== *)
(** * GrpcDial: the connections to the peers (src/raftgrpc/client.go)

    DialPeerClient opens one connection per peer and closes what it has opened when one
    of them fails. A connection of grpc-go is a parameter; the calls on connections are
    the trace of the model. *)
From S2P Require Import Prelude GoStrings Types Membership Node Grpc.

(** What the code uses of grpc-go: [grpc.NewClient], [ClientConn.Close], and the
    generated [NewRaftClient]. *)
Class Dialer := {
  ClientConn : Type;
  NewClient : string → ClientConn + GoError;
  Close : ClientConn → error;
  NewRaftClient : ClientConn → Conn;
}.

Section dial.
Context `{Dialer}.
Implicit Types (conns : list ClientConn) (peers : list (string * string)).

(** [errors.Join]: the errors joined so far, none of them nil; no errors are nil. *)
Definition errors_Join (joined : list GoError) (err : GoError) : list GoError := joined ++ [err].

(** func closeConnections, with the connections it has called Close on *)
Fixpoint closeConnectionsLoop conns (closed : list ClientConn) (joined : list GoError)
    : list ClientConn * list GoError :=
  match conns with
  | [] => (closed, joined)
  | conn :: conns =>
      closeConnectionsLoop conns (closed ++ [conn])
        (match Close conn with Some err => errors_Join joined err | None => joined end)
  end.

Definition closeConnections conns : list ClientConn * list GoError :=
  closeConnectionsLoop conns [] [].

(** What DialPeerClient leaves behind: the client with the connections its closeFn
    closes, or an error; and the connections it has closed itself. *)
Definition dialResult : Type := ((PeerClient * list ClientConn) + GoError) * list ClientConn.

(** The loop over the map of peers, in the order Go iterates over it. *)
Fixpoint DialPeerClientLoop peers (clients : PeerClient) conns : dialResult :=
  match peers with
  | [] => (inl (clients, conns), [])
  | (id, addr) :: peers =>
      match NewClient addr with
      | inr err =>
          (inr (ErrWrapped ("dial peer " +:+ id +:+ " at " +:+ addr +:+ ": %w") err),
           (closeConnections conns).1)
      | inl conn =>
          DialPeerClientLoop peers (<[id := NewRaftClient conn]> clients) (conns ++ [conn])
      end
  end.

Definition DialPeerClient peers : dialResult := DialPeerClientLoop peers ∅ [].

(** ** All connections or none *)

Lemma closeConnectionsLoop_spec conns closed joined :
  closeConnectionsLoop conns closed joined = (closed ++ conns, joined ++ omap Close conns).
Proof.
  revert closed joined. induction conns as [|conn conns IH]; intros closed joined.
  { simpl. by rewrite !app_nil_r. }
  simpl. rewrite IH, <- (assoc_L (++)). destruct (Close conn); simpl; [|done].
  unfold errors_Join. by rewrite <- (assoc_L (++)).
Qed.

(** Every connection is closed, also after one of them has failed to, and every error
    is reported. *)
Lemma closeConnections_all conns : closeConnections conns = (conns, omap Close conns).
Proof. apply closeConnectionsLoop_spec. Qed.

(** The connections of a list of peers, in order. *)
Fixpoint dial_all peers : option (list ClientConn) :=
  match peers with
  | [] => Some []
  | (_, addr) :: peers =>
      match NewClient addr with
      | inl conn => (conn ::.) <$> dial_all peers
      | inr _ => None
      end
  end.

(** The clients of those connections. *)
Definition clients_of peers conns : PeerClient :=
  list_to_map (zip_with (λ p conn, (p.1, NewRaftClient conn)) peers conns).

Lemma dial_all_length peers conns : dial_all peers = Some conns → length conns = length peers.
Proof.
  revert conns. induction peers as [|[id addr] peers IH]; intros conns E; simpl in E; [by simplify_eq|].
  destruct (NewClient addr); [|done]. apply fmap_Some in E as (l & El & ->). simpl. by rewrite (IH l).
Qed.

Lemma DialPeerClientLoop_spec peers clients conns :
  NoDup peers.*1 →
  match DialPeerClientLoop peers clients conns with
  | (inl (clients', all), closed) =>
      ∃ new, dial_all peers = Some new ∧ all = conns ++ new ∧ closed = [] ∧
        clients' = clients_of peers new ∪ clients
  | (inr _, closed) =>
      dial_all peers = None ∧
      ∃ pre id addr post new, peers = pre ++ (id, addr) :: post ∧ dial_all pre = Some new ∧
        is_Some (match NewClient addr with inr e => Some e | inl _ => None end) ∧ closed = conns ++ new
  end.
Proof.
  revert clients conns. induction peers as [|[id addr] peers IH]; intros clients conns Hnd; simpl.
  { exists []. rewrite app_nil_r. split_and!; try done. unfold clients_of. simpl. by rewrite (left_id_L ∅ (∪)). }
  apply NoDup_cons in Hnd as [Hid Hnd].
  destruct (NewClient addr) as [conn|err] eqn:E.
  - specialize (IH (<[id:=NewRaftClient conn]> clients) (conns ++ [conn]) Hnd).
    destruct (DialPeerClientLoop peers _ _) as [[[clients' all]|err] closed].
    + destruct IH as (new & Hd & -> & -> & ->). exists (conn :: new). rewrite Hd.
      split_and!; [done|by rewrite <- (assoc_L (++))|done|].
      unfold clients_of. simpl. rewrite <- insert_union_l, <- insert_union_r; [done|].
      apply not_elem_of_list_to_map_1. intros Hin. apply Hid. clear -Hin.
      revert new Hin. induction peers as [|p peers IH]; intros [|c new] Hin; simpl in *;
        try (by apply not_elem_of_nil in Hin).
      apply elem_of_cons in Hin as [->|Hin]; [left|right; by apply (IH new)].
    + destruct IH as (Hd & pre & id' & addr' & post & new & -> & Hp & He & ->). rewrite Hd.
      split; [done|]. exists ((id, addr) :: pre), id', addr', post, (conn :: new). simpl.
      rewrite E, Hp. split_and!; try done. by rewrite <- (assoc_L (++)).
  - split; [done|]. exists [], id, addr, peers, []. simpl.
    rewrite closeConnections_all, E, app_nil_r. by split_and!.
Qed.

(** DialPeerClient connects to every peer, each name to its own address, and closes
    nothing; or it fails at an address that cannot be dialled and has closed every
    connection it opened. *)
Theorem DialPeerClient_all_or_nothing peers :
  NoDup peers.*1 →
  match DialPeerClient peers with
  | (inl (clients, conns), closed) =>
      dial_all peers = Some conns ∧ clients = clients_of peers conns ∧ closed = []
  | (inr _, closed) =>
      ∃ pre id addr post, peers = pre ++ (id, addr) :: post ∧ dial_all pre = Some closed ∧
        is_Some (match NewClient addr with inr e => Some e | inl _ => None end)
  end.
Proof.
  intros Hnd. unfold DialPeerClient. pose proof (DialPeerClientLoop_spec peers ∅ [] Hnd) as Hs.
  destruct (DialPeerClientLoop peers ∅ []) as [[[clients conns]|err] closed].
  - destruct Hs as (new & Hd & -> & -> & ->). by rewrite (right_id_L ∅ (∪)).
  - destruct Hs as (_ & pre & id & addr & post & new & -> & Hp & He & ->). by exists pre, id, addr, post.
Qed.

End dial.
