(* ===== verification/Process.v ===== *)
(** * Process: run, from the command line to the exit (src/cmd/node/main.go)

    [run] acquires the two databases, the listener and the connections one after the
    other, starts the servers and the loops, waits for one of them to end and releases
    what it holds by its deferred calls. The answers of the operating system are a
    parameter; what the process does to the outside is a trace. The servers and loops
    that it starts are modelled elsewhere (Grpc.v, HttpServe.v, Timers.v, Rounds.v,
    Main.v, Metrics.v). *)
From S2P Require Import Prelude GoStrings Types Membership Node Bolt BoltStore.
From S2P Require Import KVCommand KVStateMachine Json Getters Grpc GrpcDial.
From S2P Require Import NodeInv NodeStep Applying Replication Restart Main.

(** ** Paths (package path/filepath, on Unix) *)

Definition slash : byte := x2f.

Definition dot : bytes := [x2e].

Definition dotdot : bytes := [x2e; x2e].

(** The elements that Clean keeps, the last one first. *)
Fixpoint clean_elems (rooted : bool) (elems acc : list bytes) : list bytes :=
  match elems with
  | [] => acc
  | e :: elems =>
      if bool_decide (e = []) || bool_decide (e = dot) then clean_elems rooted elems acc
      else if bool_decide (e = dotdot) then
        match acc with
        | [] => clean_elems rooted elems (if rooted then [] else [dotdot])
        | a :: rest =>
            clean_elems rooted elems (if bool_decide (a = dotdot) then dotdot :: acc else rest)
        end
      else clean_elems rooted elems (e :: acc)
  end.

Fixpoint join_slash (elems : list bytes) : bytes :=
  match elems with
  | [] => []
  | [e] => e
  | e :: elems => e ++ slash :: join_slash elems
  end.

(** [filepath.Clean] *)
Definition Clean (path : bytes) : bytes :=
  match path with
  | [] => dot
  | b :: _ =>
      let rooted := bool_decide (b = slash) in
      let body := join_slash (reverse (clean_elems rooted (split_bytes slash path) [])) in
      if rooted then slash :: body else match body with [] => dot | _ => body end
  end.

(** [filepath.Join] of two elements *)
Definition Join (a b : bytes) : bytes :=
  match a, b with
  | [], [] => []
  | [], _ => Clean b
  | _, _ => Clean (a ++ slash :: b)
  end.

(** The text up to the last slash. *)
Fixpoint drop_base (reversed : bytes) : bytes :=
  match reversed with
  | [] => []
  | b :: r => if bool_decide (b = slash) then reversed else drop_base r
  end.

(** [filepath.Dir] *)
Definition Dir (path : bytes) : bytes := Clean (reverse (drop_base (reverse path))).

(** ** The outside *)

(** [os_Listen] is net.Listen, [os_range] the order in which Go visits the map of the
    peers, [os_select] what the select at the end receives. *)
Record OS (DB : Type) := mkOS {
  os_MkdirAll : string → error;
  os_Open : string → Z → DB + GoError;
  os_CloseDB : DB → DB * error;
  os_Listen : string → error;
  os_range : gmap string string → list (string * string);
  os_select : runEvent;
}.

Arguments mkOS {DB}.
Arguments os_MkdirAll {DB} _.
Arguments os_Open {DB} _.
Arguments os_CloseDB {DB} _.
Arguments os_Listen {DB} _.
Arguments os_range {DB} _.
Arguments os_select {DB} _.

(** What run does, in order. *)
Inductive effect :=
| FMkdirAll (dir : string)
| FOpenStore (path : string)
| FCloseStore
| FOpenKV (path : string)
| FCloseKV
| FListen (addr : string)
| FServeGRPC
| FStopGRPC
| FDial (addrs : gmap string string)
| FClosePeers
| FNotify
| FStopNotify
| FServeHTTP (addr : string)
| FGoElectionTimer
| FGoHeartbeat
| FGoApply
| FGoLogState
| FShutdownTimeout (nanoseconds : Z)
| FCancel
| FShutdownHTTP
| FGracefulStop.

(** ** Calls, returns and deferred calls *)

(** The trace, and the deferred calls with the last one first. A computation goes on
    with a value or makes run return an error or nil. *)
Record frame := mkFrame { fr_trace : list effect; fr_deferred : list effect }.

Definition proc (A : Type) : Type := frame → frame * (A + error).

Definition proc_ret {A} (x : A) : proc A := fun fr => (fr, inl x).

Definition proc_bind {A B} (m : proc A) (k : A → proc B) : proc B :=
  fun fr => match m fr with (fr, inl x) => k x fr | (fr, inr err) => (fr, inr err) end.

Definition returns {A} (err : error) : proc A := fun fr => (fr, inr err).

Definition emit (e : effect) : proc unit :=
  fun fr => (mkFrame (fr_trace fr ++ [e]) (fr_deferred fr), inl tt).

Definition defers (e : effect) : proc unit :=
  fun fr => (mkFrame (fr_trace fr) (e :: fr_deferred fr), inl tt).

(** [if err != nil { return fmt.Errorf(format, err) }] *)
Definition check (format : string) (err : error) : proc unit :=
  match err with Some e => returns (Some (ErrWrapped format e)) | None => proc_ret tt end.

Definition check_value {A} (wrap : GoError → GoError) (r : A + GoError) : proc A :=
  match r with inr e => returns (Some (wrap e)) | inl x => proc_ret x end.

Declare Scope proc_scope.
Delimit Scope proc_scope with proc.
Notation "x '<--' m ';;' k" := (proc_bind m (fun x => k))
  (at level 90, m at level 80, right associativity) : proc_scope.
Notation "m ';;;' k" := (proc_bind m (fun _ => k)) (at level 90, right associativity) : proc_scope.

(** What the function has done when it is left: its calls, then the deferred ones. *)
Definition complete {A} (m : proc A) : list effect * list effect * error :=
  match m (mkFrame [] []) with
  | (fr, inr err) => (fr_trace fr, fr_deferred fr, err)
  | (fr, inl _) => (fr_trace fr, fr_deferred fr, None)
  end.

(** ** run *)

Definition second : Z := 1000000000.

Section run.
Context `{!MembershipJSON} {DB : Type} `{!BoltDB DB} `{!MapRange} `{!Dialer}.
Context (os : OS DB).
Open Scope proc_scope.

(** The path of a flag, or the default under data/. *)
Definition dataPath (flag id suffix : string) : string :=
  if bool_decide (flag = "")
  then string_of_bytes (Join (bytes_of_string "data") (bytes_of_string (id +:+ suffix)))
  else flag.

Definition makeDir (format path : string) : proc unit :=
  let dir := string_of_bytes (Dir (bytes_of_string path)) in
  check format (os_MkdirAll os dir);;;
  emit (FMkdirAll dir).

(** The databases, the node and the state machine (lines 61 to 102) *)
Definition runOpen (f : Flags) (peerIDs : list string)
    : proc (RaftNode (BoltRaftStore DB) * KVStateMachine DB) :=
  let path := dataPath (fl_data f) (fl_id f) ".db" in
  makeDir "create data dir: %w" path;;;
  stableStore <-- check_value (ErrWrapped "open raft store: %w")
                    (NewBoltRaftStore (os_Open os) (os_CloseDB os) path second);;
  emit (FOpenStore path);;;
  defers FCloseStore;;;
  node <-- check_value id (startNode (fl_id f) peerIDs stableStore);;
  let kvDBPath := dataPath (fl_kvData f) (fl_id f) "-kv.db" in
  makeDir "create kv data dir: %w" kvDBPath;;;
  kvDB <-- check_value (ErrWrapped "open kv store: %w") (os_Open os kvDBPath second);;
  emit (FOpenKV kvDBPath);;;
  defers FCloseKV;;;
  kvStateMachine <-- check_value id (startKV node kvDB);;
  proc_ret (node, kvStateMachine).

(** The servers and loops (lines 105 to 158) *)
Definition runStart (f : Flags) (peerAddrs : gmap string string) : proc unit :=
  check ("listen on " +:+ fl_raftAddr f +:+ ": %w") (os_Listen os (fl_raftAddr f));;;
  emit (FListen (fl_raftAddr f));;;
  emit FServeGRPC;;;
  match (DialPeerClient (os_range os peerAddrs)).1 with
  | inr err => emit FStopGRPC;;; returns (Some err)
  | inl _ =>
      emit (FDial peerAddrs);;;
      defers FClosePeers;;;
      emit FNotify;;;
      defers FStopNotify;;;
      emit (FServeHTTP (fl_httpAddr f));;;
      emit FGoElectionTimer;;;
      emit FGoHeartbeat;;;
      emit FGoApply;;;
      emit FGoLogState
  end.

(** The select and the shutdown (lines 162 to 183) *)
Definition runWait : proc unit :=
  match runResult (os_select os) with
  | Some err => returns (Some err)
  | None =>
      emit FStopNotify;;;
      emit (FShutdownTimeout (5 * second));;;
      defers FCancel;;;
      emit FShutdownHTTP;;;
      emit FGracefulStop;;;
      returns None
  end.

(** func run *)
Definition run (f : Flags) : proc unit :=
  config <-- check_value id (runConfig f);;
  let '(peerIDs, peerAddrs, peerHTTPAddrs) := config in
  state <-- runOpen f peerIDs;;
  runStart f peerAddrs;;;
  runWait.

(** func main: log.Fatal ends the process with status 1. *)
Definition main (f : Flags) : Z :=
  match (complete (run f)).2 with Some _ => 1 | None => 0 end.

End run.

(** ** Resources *)

(** What run holds: the databases, the listener and the server on it, the connections,
    the signal handler, the HTTP server, the timer of the shutdown. *)
Inductive resource := RStore | RKV | RListener | RGRPC | RPeers | RSignal | RHTTP | RTimer.

#[export] Instance resource_eq_dec : EqDecision resource.
Proof. solve_decision. Defined.

Definition acquires (e : effect) : list resource :=
  match e with
  | FOpenStore _ => [RStore]
  | FOpenKV _ => [RKV]
  | FListen _ => [RListener]
  | FServeGRPC => [RGRPC]
  | FDial _ => [RPeers]
  | FNotify => [RSignal]
  | FServeHTTP _ => [RHTTP]
  | FShutdownTimeout _ => [RTimer]
  | _ => []
  end.

(** Stopping the gRPC server closes its listener. *)
Definition releases (e : effect) : list resource :=
  match e with
  | FCloseStore => [RStore]
  | FCloseKV => [RKV]
  | FStopGRPC | FGracefulStop => [RListener; RGRPC]
  | FClosePeers => [RPeers]
  | FStopNotify => [RSignal]
  | FShutdownHTTP => [RHTTP]
  | FCancel => [RTimer]
  | _ => []
  end.

(** What is held after a trace. *)
Definition hold (held : list resource) (e : effect) : list resource :=
  filter (λ r, r ∉ releases e) held ++ acquires e.

Definition held (t : list effect) : list resource := foldl hold [] t.

(** The listener and the servers are not released by deferred calls. *)
Definition is_server (r : resource) : bool :=
  match r with RListener | RGRPC | RHTTP => true | _ => false end.

(** Whether the HTTP server, and so everything, was started. *)
Definition started (t : list effect) : bool :=
  existsb (λ e, match e with FServeHTTP _ => true | _ => false end) t.

(** The deferred calls release the other resources that were acquired, the last one
    first. *)
Definition balanced (body deferred : list effect) : Prop :=
  map releases deferred =
  map (λ r, [r]) (reverse (filter (λ r, is_server r = false) (body ≫= acquires))).

(** What is left when the function and its deferred calls are over: nothing, except on
    an error after everything was started. *)
Definition left_over (body deferred : list effect) (err : error) : Prop :=
  held (body ++ deferred) =
  match err with
  | Some _ => if started body then [RListener; RGRPC; RHTTP] else []
  | None => []
  end.

Section ends.
Context `{!MembershipJSON} {DB : Type} `{!BoltDB DB} `{!MapRange} `{!Dialer}.
Context (os : OS DB).

(** The end of run, on each of its paths. *)
Definition well_ended (x : list effect * list effect * error) : Prop :=
  let '(body, deferred, err) := x in
  balanced body deferred ∧ left_over body deferred err ∧
  (err = None → FShutdownHTTP ∈ body ∧ FGracefulStop ∈ body).

Lemma run_well_ended f : well_ended (complete (run os f)).
Proof.
  unfold complete, run, proc_bind. destruct (runConfig f) as [[[ids addrs] http]|e]; [|done].
  cbn [check_value proc_ret]. unfold runOpen, makeDir, proc_bind. cbv zeta.
  destruct (os_MkdirAll os _); [done|]. cbn -[NewBoltRaftStore].
  destruct (NewBoltRaftStore _ _ _ _) as [st|e]; [|done]. cbn.
  destruct (startNode _ _ _) as [node|e]; [|done]. cbn.
  destruct (os_MkdirAll os _); [done|]. cbn.
  destruct (os_Open os _ _) as [db|e]; [|done]. cbn.
  destruct (startKV _ _) as [kv|e]; [|done]. cbn.
  unfold runStart, proc_bind. destruct (os_Listen os _) as [e|]; [done|]. cbn.
  destruct (DialPeerClient _).1 as [c|e]; [|done]. cbn.
  unfold runWait. destruct (runResult _); [done|]. cbn. split_and!; [done|done|].
  intros _. split; repeat constructor.
Qed.

End ends.

(** ** The default paths *)

Lemma split_bytes_none sep s : (sep ∉ s) → split_bytes sep s = [s].
Proof.
  induction s as [|b s IH]; intros Hs; [done|]. cbn.
  apply not_elem_of_cons in Hs as [Hb Hs]. rewrite bool_decide_eq_false_2 by congruence.
  by rewrite IH.
Qed.

Lemma drop_base_app r s : (slash ∉ r) → drop_base (r ++ slash :: s) = slash :: s.
Proof.
  induction r as [|b r IH]; intros Hr; cbn; [done|].
  apply not_elem_of_cons in Hr as [Hb Hr]. rewrite bool_decide_eq_false_2 by congruence. auto.
Qed.

Definition under_data (base : bytes) : bytes := bytes_of_string "data" ++ slash :: base.

Lemma Join_data base :
  (slash ∉ base) → (2 < length base)%nat →
  Join (bytes_of_string "data") base = under_data base ∧ Dir (under_data base) = bytes_of_string "data".
Proof.
  intros Hs Hl. split.
  - change (Clean (under_data base) = under_data base). unfold Clean, under_data.
    cbn [bytes_of_string app]. change (split_bytes slash (bytes_of_string "data" ++ slash :: base))
      with (bytes_of_string "data" :: split_bytes slash base).
    rewrite (split_bytes_none slash base Hs). cbn [clean_elems].
    rewrite !bool_decide_eq_false_2; [done|..]; intros E;
      try (apply (f_equal length) in E; cbn in E; lia); by vm_compute in E.
  - unfold Dir, under_data. rewrite reverse_app, reverse_cons, <-(assoc_L (++)). cbn [app].
    rewrite drop_base_app; [done|]. by rewrite elem_of_reverse.
Qed.
