(* ===== verification/Instances.v ===== *)
(** * Instances: the interfaces can be implemented

    A database that keeps its buckets in memory satisfies the laws assumed of
    bbolt, and a map visited in key order satisfies those of [range]; with the
    JSON model they make every theorem below apply to concrete nodes. *)
From S2P Require Import Prelude GoStrings Types Membership JsonString Json JsonCodec.
From S2P Require Import MembershipCodec Bolt KVCommand KVStateMachine BoltStore Node.

(** A database in memory. Like bbolt it refuses empty keys, keys of more than
    32768 bytes, and names of missing buckets. *)
Definition memDB : Type := bolt_view.

Definition mem_create (b : string) (t : bolt_view) : bolt_view * error :=
  if bool_decide (b = "") then (t, Some (ErrExternal "bucket name required"))
  else (match t !! b with Some _ => t | None => <[b := ∅]> t end, None).

Definition mem_delete_bucket (b : string) (t : bolt_view) : bolt_view * option (bool * GoError) :=
  match t !! b with
  | None => (t, Some (true, ErrExternal "bucket not found"))
  | Some _ => (delete b t, None)
  end.

Definition mem_put (b k : string) (v : bytes) (t : bolt_view) : bolt_view * error :=
  if bool_decide (k = "") then (t, Some (ErrExternal "key required"))
  else if 32768 <? Z.of_nat (String.length k) then (t, Some (ErrExternal "key too large"))
  else match t !! b with
       | Some m => (<[b := <[k := v]> m]> t, None)
       | None => (t, Some (ErrExternal "bucket not found"))
       end.

Definition mem_delete (b k : string) (t : bolt_view) : bolt_view * error :=
  match t !! b with
  | Some m => (<[b := delete k m]> t, None)
  | None => (t, Some (ErrExternal "bucket not found"))
  end.

Definition mem_update (f : bolt_view → bolt_view * error) (db : memDB) : memDB * error :=
  match f db with (t, None) => (t, None) | (_, Some e) => (db, Some e) end.

#[export] Instance memBolt : BoltDB memDB := {
  Tx := bolt_view;
  Update := mem_update;
  View db := inl db;
  CreateBucketIfNotExists := mem_create;
  DeleteBucket := mem_delete_bucket;
  HasBucket b t := bool_decide (is_Some (t !! b));
  Bucket_Put := mem_put;
  Bucket_Delete := mem_delete;
  Bucket_Get b k t := t !! b ≫= (λ m, m !! k);
  Bucket_All b t := match t !! b with Some m => map_to_list m | None => [] end;
}.

(** A transaction is its contents. *)
Definition mem_view (t : Tx (DB := memDB)) : bolt_view := t.

#[export] Instance memBolt_laws : BoltLaws memDB mem_view.
Proof.
  constructor; cbn; unfold mem_view.
  - intros f db db'. unfold mem_update. destruct (f db) as [t [e|]] eqn:E; [done|].
    intros [= <-]. by exists db, db, t, t.
  - intros f db db' e. unfold mem_update. destruct (f db) as [t [e'|]]; [|done].
    intros [= <- _]. by eexists.
  - intros b t t'. unfold mem_create. case_bool_decide; [done|]. by intros [= <-].
  - intros b t t'. unfold mem_delete_bucket. destruct (t !! b); [|done]. by intros [= <-].
  - intros b t t' e. unfold mem_delete_bucket. destruct (t !! b) eqn:E; [done|].
    by intros [= <- <-].
  - done.
  - intros b k v t t' m Hm. unfold mem_put. rewrite Hm.
    case_bool_decide; [done|]. split_ifs; [done|]. by intros [= <-].
  - intros b k t t' m Hm. unfold mem_delete. rewrite Hm. by intros [= <-].
  - intros b k t m ->. done.
  - intros b t m ->. done.
Qed.

#[export] Instance listMapRange : MapRange := {
  map_range := map_to_list;
  map_range_perm m := reflexivity _;
}.

(** The stable store of a node over such a database, freshly opened. *)
Abbreviation memStore := (BoltRaftStore memDB).

Definition emptyStore : memStore := mkBoltRaftStore (Some ∅).

(** A node as main builds it, for a cluster given by its peers. *)
Definition freshNode (id : string) (peers : list string) : RaftNode memStore :=
  match NewRaftNode id peers (Some emptyStore) with
  | inl n => n
  | inr _ => mkNode id peers true true Follower "" 0 "" [] 0 0 0 0 [] None None None false
  end.
