(* ===== verification/Scenario.v ===== *)
(** * Scenario: concrete executions

    An interpreter for cluster schedules, sound for [cluster_step], and the nodes
    and clusters on which the theorems are exercised: real stores, real JSON,
    real votes. *)
From S2P Require Import Prelude GoStrings Types Membership JsonString Json JsonCodec.
From S2P Require Import MembershipCodec Bolt BoltStore Node NodeInv Election Heartbeat.
From S2P Require Import Proposal NodeStep NodeFrame Cluster Replication Restart Instances.
From S2P Require Import KVCommand KVStateMachine.

Abbreviation memNode := (RaftNode memStore).

#[export] Instance ps_storable_dec ps : Decision (ps_storable ps).
Proof. unfold ps_storable, entry_storable, in_u64. apply _. Defined.

(** ** Schedules *)

Inductive action :=
| AStart (i : string)
| AElect (i : string)
| APre (i : string) (ev : chanEvent PreVoteResponse)
| AVote (v : string) (req : RequestVoteRequest)
| ADeliver (i p : string) (resp : RequestVoteResponse)
| AOp (i : string) (op : nodeOp)
| ARestart (i : string) (peers0 : list string).

Section schedules.
Context (members : list string).
Implicit Types c : Cluster (St := memStore).

Definition act (a : action) c : option (Cluster (St := memStore)) :=
  match a with
  | AStart i =>
      match c.(threads) !! i with
      | Some (EDone _ _) => Some (set_thread i (startElectionPC false) c)
      | _ => None
      end
  | AElect i =>
      n ← c.(nodes) !! i; pc ← c.(threads) !! i;
      match electionStep pc n with
      | Panic => None
      | Ret (n', pc') =>
          if decide (0 ≤ n.(currentTerm) < two64 - 1 ∧ ps_storable (persistentOf n'))
          then Some (record_election i pc pc' n' (set_thread i pc' (set_node i n' c)))
          else None
      end
  | APre i ev => pc ← c.(threads) !! i; Some (set_thread i (preVoteRecv pc ev) c)
  | AVote v req =>
      n ← c.(nodes) !! v;
      match RequestVote req n with
      | (n', (resp, None)) =>
          if decide (ps_storable (persistentOf n'))
          then Some (add_answer (v, req, resp) (set_node v n' c)) else None
      | (n', (_, Some _)) => Some (set_node v n' c)
      end
  | ADeliver i p resp =>
      match c.(threads) !! i with
      | Some (EWait req peers pending votes) =>
          if decide (p ∈ pending ∧ (p, req, resp) ∈ c.(Cluster.answers))
          then Some (set_thread i (voteRecv (EWait req peers pending votes) (Result p (inl resp))) c)
          else None
      | _ => None
      end
  | AOp i op =>
      n ← c.(nodes) !! i;
      match exec op n with
      | Panic => None
      | Ret n' =>
          if decide (bystander op = true ∧ ps_storable (persistentOf n'))
          then Some (set_node i n' c) else None
      end
  | ARestart i peers0 =>
      n ← c.(nodes) !! i; s ← n.(store);
      match NewRaftNode i peers0 (Some s) with
      | inr _ => None
      | inl n' =>
          if decide (i :: peers0 ≡ₚ members)
          then Some (set_thread i (EDone false None) (set_node i n' c)) else None
      end
  end.

Fixpoint perform (l : list action) c : option (Cluster (St := memStore)) :=
  match l with
  | [] => Some c
  | a :: l => c' ← act a c; perform l c'
  end.

Lemma act_sound a c c' : act a c = Some c' → cluster_step ps_storable members c c'.
Proof.
  intros Ha. destruct a; unfold act in Ha.
  - destruct (threads c !! i) as [[]|] eqn:E; simplify_eq.
    by apply (CS_start _ _ i won err false).
  - apply bind_Some in Ha as (n & Hn & (pc & Hpc & Ha)%bind_Some).
    destruct (electionStep pc n) as [[n' pc']|] eqn:E; [|done].
    destruct (decide _) as [[? ?]|]; simplify_eq. by eapply CS_election.
  - apply bind_Some in Ha as (pc & Hpc & Ha). simplify_eq. by eapply CS_prevote.
  - apply bind_Some in Ha as (n & Hn & Ha). destruct (RequestVote req n) as [n' [resp [e|]]] eqn:E.
    + simplify_eq. by eapply CS_vote_failed.
    + destruct (decide _); simplify_eq. by eapply CS_vote.
  - destruct (threads c !! i) as [[]|] eqn:E; simplify_eq.
    destruct (decide _) as [[? ?]|]; simplify_eq. by eapply CS_vote_result.
  - apply bind_Some in Ha as (n & Hn & Ha). destruct (exec op n) as [n'|] eqn:E; [|done].
    destruct (decide _) as [[? ?]|]; simplify_eq. by eapply CS_op.
  - apply bind_Some in Ha as (n & Hn & (s & Hs & Ha)%bind_Some).
    destruct (NewRaftNode i peers0 (Some s)) as [n'|] eqn:E; [|done].
    destruct (decide _); simplify_eq. by eapply CS_restart.
Qed.

Lemma perform_sound l c c' :
  perform l c = Some c' → rtc (cluster_step ps_storable members) c c'.
Proof.
  revert c. induction l as [|a l IH]; intros c; simpl; [by intros [= ->]|].
  intros (c1 & H1 & H2)%bind_Some. eapply rtc_l; [by eapply act_sound|eauto].
Qed.

End schedules.

(** ** A cluster of three *)

Definition trio : list string := ["a"; "b"; "c"].

Definition trio_init : Cluster (St := memStore) :=
  mkCluster
    (<["a" := freshNode "a" ["b"; "c"]]> (<["b" := freshNode "b" ["a"; "c"]]>
      (<["c" := freshNode "c" ["a"; "b"]]> ∅)))
    (<["a" := EDone false None]> (<["b" := EDone false None]> (<["c" := EDone false None]> ∅)))
    [] [] [] [].

Definition vote_a : RequestVoteRequest := mkRVQ 1 "a" 0 0.

(** "a" wins term 1 with the vote of "b", which then restarts; "c" tries for
    term 1 too late, and "b" refuses it. *)
Definition trio_schedule : list action :=
  [AStart "a"; AElect "a"; AElect "a"; AElect "a";
   APre "a" (Result "b" (inl (mkPVR 0 true))); AElect "a"; AElect "a"; AElect "a";
   AVote "b" vote_a; ARestart "b" ["a"; "c"]; AVote "b" (mkRVQ 1 "c" 0 0);
   ADeliver "a" "b" (mkRVR 1 true); AElect "a"; AElect "a"; AElect "a"].

Definition trio_final : Cluster (St := memStore) := default trio_init (perform trio trio_schedule trio_init).

Lemma trio_reachable : rtc (cluster_step ps_storable trio) trio_init trio_final.
Proof. apply (perform_sound trio trio_schedule). vm_compute. reflexivity. Qed.

Lemma trio_init_ok : cluster_init trio trio_init.
Proof.
  split_and!; try done.
  - intros i n Hi. unfold trio_init in Hi. simpl in Hi.
    repeat (apply lookup_insert_Some in Hi as [[<- <-]|[_ Hi]];
      [eexists _, (Some emptyStore); split; [|split; [reflexivity|by intros s [= <-]]]|]);
      [| | |by rewrite lookup_empty in Hi]; unfold peers_of, trio.
    + reflexivity.
    + apply perm_swap.
    + exact (Permutation_cons_append ["a"; "b"] "c").
  - intros i pc Hi. unfold trio_init in Hi. simpl in Hi.
    repeat (apply lookup_insert_Some in Hi as [[<- <-]|[_ Hi]]; [done|]).
    by rewrite lookup_empty in Hi.
Qed.

(** ** A leader with a log *)

(** The node after an operation that does not panic. *)
Definition after (op : nodeOp) (n : memNode) : memNode :=
  match exec op n with Ret n' => n' | Panic => n end.

Lemma after_wf op n : node_wf n → op_ok op n → node_wf (after op n).
Proof.
  intros Hwf Hok. unfold after. by destruct (exec_wf op n Hwf Hok) as (n' & -> & ?).
Qed.

Lemma after_step op n : node_wf n → op_ok op n → node_step n (after op n).
Proof.
  intros Hwf Hok. unfold after. destruct (exec_wf op n Hwf Hok) as (n' & E & _).
  rewrite E. by econstructor.
Qed.

Lemma freshNode_wf id ps : node_wf (freshNode id ps).
Proof.
  unfold freshNode. assert (∃ n, NewRaftNode (St := memStore) id ps (Some emptyStore) = inl n)
    as [n Hn] by (eexists; reflexivity).
  rewrite Hn. eapply (NewRaftNode_fresh_wf id ps (Some emptyStore)); [|exact Hn].
  by intros s [= <-].
Qed.

Definition put_x : bytes := bytes_of_string "{'put':'x'}".

Definition put_y : bytes := bytes_of_string "{'put':'y'}".

(** Nodes are compared by name from here on; evaluation goes through the virtual
    machine. *)
#[global] Opaque after freshNode.

(** "a" leads term 1 with two entries, none of them replicated. *)
Definition cand_a : memNode := after OBecomeCandidate (freshNode "a" ["b"; "c"]).

Definition lead_a0 : memNode := after (OPromote 1) cand_a.

Definition lead_a1 : memNode := after (OAppendLocal put_x) lead_a0.

Definition lead_a : memNode := after (OAppendLocal put_y) lead_a1.

Lemma cand_a_wf : node_wf cand_a.
Proof. apply after_wf; [apply freshNode_wf|exact I]. Qed.

Lemma lead_a0_wf : node_wf lead_a0.
Proof. apply after_wf; [exact cand_a_wf|exact I]. Qed.

Lemma lead_a1_wf : node_wf lead_a1.
Proof. apply after_wf; [exact lead_a0_wf|vm_compute; reflexivity]. Qed.

Lemma lead_a_wf : node_wf lead_a.
Proof. apply after_wf; [exact lead_a1_wf|vm_compute; reflexivity]. Qed.

(** What "a" sends to "b". *)
Definition req_b : AppendEntriesRequest :=
  match BuildAppendEntries "b" lead_a with
  | Ret (inl req) => req
  | _ => mkAEQ 0 "" 0 0 [] 0
  end.

(** "a" after "b" has confirmed both entries: they are committed. *)
Definition lead_committed : memNode := after (ORecordReplicationSuccess "b" 2) lead_a.

Lemma lead_committed_wf : node_wf lead_committed.
Proof. apply after_wf; [exact lead_a_wf|vm_compute; done]. Qed.

(** The same node after it has marked the first entry as applied. *)
Definition lead_applied : memNode := after (OMarkApplied 1) lead_committed.

Lemma lead_applied_wf : node_wf lead_applied.
Proof. apply after_wf; [apply lead_committed_wf|vm_compute; done]. Qed.

(** ** A follower of "a" *)

Definition foll_b : memNode := freshNode "b" ["a"; "c"].

Definition foll_b1 : memNode :=
  match HandleAppendEntries req_b foll_b with Ret r => r.1 | Panic => foll_b end.

Lemma foll_b1_eq : HandleAppendEntries req_b foll_b = Ret (foll_b1, (mkAER 1 true, None)).
Proof. vm_compute. reflexivity. Qed.

Lemma req_b_eq : BuildAppendEntries "b" lead_a = Ret (inl req_b).
Proof. vm_compute. reflexivity. Qed.

(** Close a goal by evaluation: comparisons, equalities, conjunctions. *)
Ltac evaluate := vm_compute; repeat split; intros; try done; try congruence.

Lemma req_b_wf : request_wf req_b.
Proof. evaluate. Qed.

Lemma foll_b_entries i : entry_at foll_b i = None.
Proof.
  assert (log foll_b = []) as E by (vm_compute; reflexivity).
  unfold entry_at. rewrite E, lookup_nil. by destruct (_ <? _).
Qed.

Lemma logs_match_empty : logs_match lead_a foll_b.
Proof. intros i a b _ Hb. rewrite foll_b_entries in Hb. discriminate Hb. Qed.

(** ** A leader with many entries *)

Definition kv_bytes (c : Command) : bytes :=
  match EncodeCommand c with inl b => b | inr _ => [] end.

Definition set_k (v : byte) : Command := mkCommand "put" "k" [v].

(** [command] appended [k] times. *)
Fixpoint append_many (k : nat) (command : bytes) (n : memNode) : memNode :=
  match k with
  | O => n
  | S k => append_many k command (after (OAppendLocal command) n)
  end.

(** Every append has room. *)
Fixpoint append_room (k : nat) (command : bytes) (n : memNode) : bool :=
  match k with
  | O => true
  | S k => (last_index n <? two64 - 2) && append_room k command (after (OAppendLocal command) n)
  end.

Lemma append_many_wf k command n :
  node_wf n → append_room k command n = true → node_wf (append_many k command n).
Proof.
  revert n. induction k as [|k IH]; intros n Hwf Hr; [done|]. cbn [append_many append_room] in *.
  apply andb_true_iff in Hr as [Hlt%Z.ltb_lt Hr]. apply IH; [|done]. by apply after_wf.
Qed.

(** "a" leads with 64 writes of one key, which "b" has confirmed: as many as the
    apply loop asks for before it takes a snapshot. *)
Definition lead_many : memNode :=
  after (ORecordReplicationSuccess "b" 64) (append_many 64 (kv_bytes (set_k x01)) lead_a0).

Lemma lead_many_wf : node_wf lead_many.
Proof.
  apply after_wf; [apply append_many_wf; [exact lead_a0_wf|vm_compute; reflexivity]|].
  vm_compute. done.
Qed.

(** An empty map on an empty database. *)
Definition kv_disk : KVStateMachine memDB := mkKV ∅ (Some (<[kvBucket := ∅]> ∅)).
