(* ===== verification/RaftRun.v ===== *)
(** * RaftRun: executions of the replicated log

    An interpreter for schedules of the cluster with its messages, sound for orderly
    steps, and one execution: an election, two writes and their replication to
    one peer, a restart, and a change of leader. *)
From S2P Require Import Prelude GoStrings Types Membership JsonString Json JsonCodec.
From S2P Require Import MembershipCodec Bolt BoltStore Node NodeInv Election Heartbeat.
From S2P Require Import Proposal NodeStep NodeFrame Cluster Replication Restart Instances.
From S2P Require Import KVCommand KVStateMachine Scenario Raft RaftExec.

Abbreviation memNet := (Net (St := memStore)).

(** ** The conditions of the steps, decided *)

Definition savedb (n : memNode) : bool :=
  match n.(store) with
  | None => true
  | Some st =>
      match Types.Load st with
      | inr _ => true
      | inl ps => bool_decide (
          ps_CurrentTerm ps = n.(currentTerm) ∧ ps_Log ps = n.(log) ∧
          ps_LastIncludedIndex ps = n.(lastIncludedIndex) ∧
          ps_LastIncludedTerm ps = n.(lastIncludedTerm))
      end
  end.

Lemma savedb_saved n : savedb n = true → saved n.
Proof.
  unfold savedb, saved. intros Hb st ps Hst Hl. rewrite Hst, Hl in Hb.
  by apply bool_decide_eq_true in Hb.
Qed.

Definition writtenb (n : memNode) : bool :=
  bool_decide (ps_storable (persistentOf n)) && savedb n.

Lemma writtenb_written n : writtenb n = true → written ps_storable n.
Proof.
  intros [Hs%bool_decide_eq_true Hb]%andb_true_iff. split; [done|by apply savedb_saved].
Qed.

#[local] Opaque writtenb.

Definition local_okb (op : nodeOp) (n : memNode) : bool :=
  match op with
  | OStepDown t => bool_decide (in_u64 t)
  | OMarkApplied i => i <=? n.(commitIndex)
  | _ => local_op op
  end.

Lemma local_okb_ok op n : local_okb op n = true → local_op op = true ∧ op_ok op n.
Proof.
  destruct op; try done; cbn.
  - by intros ?%Z.leb_le.
  - by intros ?%bool_decide_eq_true.
Qed.

(** ** Schedules *)

(** [NDeliver k] takes the [k]-th request under way, [NSuccess i k] the [k]-th
    answer. *)
Inductive netAction :=
| NStart (i : string)
| NElect (i : string)
| NPre (i : string) (ev : chanEvent PreVoteResponse)
| NVote (v : string) (req : RequestVoteRequest)
| NAnswer (i p : string) (resp : RequestVoteResponse)
| NRestart (i : string) (peers0 : list string)
| NOp (i : string) (op : nodeOp)
| NPropose (i : string) (command : bytes)
| NSend (i p : string)
| NDeliver (k : nat)
| NSuccess (i : string) (k : nat).

Section schedules.
Context (members : list string).
Implicit Types c : memNet.

Definition guarded (b : bool) c : option memNet := if b then Some c else None.

Definition netact (a : netAction) c : option memNet :=
  match a with
  | NStart i =>
      match c.(core).(threads) !! i with
      | Some (EDone _ _) => Some (on_core (set_thread i (startElectionPC false)) c)
      | _ => None
      end
  | NElect i =>
      n ← node_at c i; pc ← c.(core).(threads) !! i;
      match electionStep pc n with
      | Panic => None
      | Ret (n', pc') =>
          guarded (bool_decide (0 ≤ n.(currentTerm) < two64 - 1 ∧ in_u64 n'.(currentTerm)) && writtenb n')
            (on_core (λ k, record_election i pc pc' n' (set_thread i pc' (set_node i n' k))) c)
      end
  | NPre i ev =>
      pc ← c.(core).(threads) !! i; Some (on_core (set_thread i (preVoteRecv pc ev)) c)
  | NVote v req =>
      n ← node_at c v;
      match RequestVote req n with
      | (n', (resp, None)) =>
          guarded (bool_decide (in_u64 (rvq_Term req)) && writtenb n')
            (on_core (λ k, add_answer (v, req, resp) (set_node v n' k)) c)
      | _ => None
      end
  | NAnswer i p resp =>
      match c.(core).(threads) !! i with
      | Some (EWait req peers pending votes) =>
          guarded (bool_decide (p ∈ pending ∧ (p, req, resp) ∈ c.(core).(Cluster.answers)))
            (on_core (set_thread i
              (voteRecv (EWait req peers pending votes) (Result p (inl resp)))) c)
      | _ => None
      end
  | NRestart i peers0 =>
      n ← node_at c i; st ← n.(store);
      match NewRaftNode i peers0 (Some st) with
      | inr _ => None
      | inl n' => guarded (bool_decide (i :: peers0 ≡ₚ members))
          (on_core (λ k, set_thread i (EDone false None) (set_node i n' k)) c)
      end
  | NOp i op =>
      n ← node_at c i;
      match exec op n with
      | Panic => None
      | Ret n' => guarded (local_okb op n && writtenb n') (on_core (set_node i n') c)
      end
  | NPropose i command =>
      n ← node_at c i;
      match AppendLocal command n with
      | Panic => None
      | Ret (n', _) =>
          guarded (bool_decide (n.(state) = Leader ∧ last_index n < two64 - 2) && writtenb n')
            (on_core (set_node i n') c)
      end
  | NSend i p =>
      n ← node_at c i;
      match BuildAppendEntries p n with
      | Ret (inl req) => Some (mkNet c.(core) ((p, req) :: c.(sent)) c.(replies))
      | _ => None
      end
  | NDeliver k =>
      x ← c.(sent) !! k; n ← node_at c x.1;
      match HandleAppendEntries x.2 n with
      | Ret (n', (resp, None)) =>
          guarded (writtenb n')
            (mkNet (set_node x.1 n' c.(core)) c.(sent) ((x.1, x.2, resp) :: c.(replies)))
      | _ => None
      end
  | NSuccess i k =>
      x ← c.(replies) !! k; n ← node_at c i;
      match RecordReplicationSuccess x.1.1
              (aeq_PrevLogIndex x.1.2 ⊕ zlen (aeq_Entries x.1.2)) n with
      | Panic => None
      | Ret (n', _) =>
          guarded (aer_Success x.2 && bool_decide (aeq_LeaderID x.1.2 = i)
                   && (aeq_Term x.1.2 =? n.(currentTerm)) && writtenb n')
            (on_core (set_node i n') c)
      end
  end.

(** Every term and index is far from the largest number. *)
Definition smallb c : bool :=
  bool_decide (map_Forall (λ _ n, 0 ≤ n.(currentTerm) < two64 - 1 ∧ last_index n < two64 - 2)
    c.(core).(nodes)).

Lemma smallb_small c : smallb c = true → small c.
Proof. by intros H%bool_decide_eq_true. Qed.

Fixpoint netperform (l : list netAction) c : option memNet :=
  match l with
  | [] => Some c
  | a :: l => c' ← netact a c; if smallb c' then netperform l c' else None
  end.

Lemma guarded_Some b c c' : guarded b c = Some c' → b = true ∧ c' = c.
Proof. unfold guarded. destruct b; [|done]. by intros [= <-]. Qed.

Ltac unguard H := apply guarded_Some in H as [H ->]; repeat (apply andb_true_iff in H as [H ?]);
  repeat match goal with
  | E : bool_decide _ = true |- _ => apply bool_decide_eq_true in E
  | E : writtenb _ = true |- _ => apply writtenb_written in E
  | E : (_ =? _) = true |- _ => apply Z.eqb_eq in E
  end; destruct_and?.

Lemma netact_sound a c c' : netact a c = Some c' → raft_step ps_storable members c c'.
Proof.
  intros Ha. destruct a; unfold netact in Ha.
  - destruct (threads (core c) !! i) as [[]|] eqn:E; simplify_eq.
    by apply (RS_start _ _ i won err false).
  - apply bind_Some in Ha as (n & Hn & (pc & Hpc & Ha)%bind_Some).
    destruct (electionStep pc n) as [[n' pc']|] eqn:E; [|done]. unguard Ha. by eapply RS_election.
  - apply bind_Some in Ha as (pc & Hpc & Ha). simplify_eq. by eapply RS_prevote.
  - apply bind_Some in Ha as (n & Hn & Ha). destruct (RequestVote req n) as [n' [resp [e|]]] eqn:E;
      [done|]. unguard Ha. by eapply RS_vote.
  - destruct (threads (core c) !! i) as [[]|] eqn:E; try done. unguard Ha. by eapply RS_vote_result.
  - apply bind_Some in Ha as (n & Hn & (st & Hst & Ha)%bind_Some).
    destruct (NewRaftNode i peers0 (Some st)) as [n'|] eqn:E; [|done]. unguard Ha.
    by eapply RS_restart.
  - apply bind_Some in Ha as (n & Hn & Ha). destruct (exec op n) as [n'|] eqn:E; [|done].
    unguard Ha. apply local_okb_ok in Ha as [? ?]. by eapply RS_op.
  - apply bind_Some in Ha as (n & Hn & Ha).
    destruct (AppendLocal command n) as [[n' r]|] eqn:E; [|done]. unguard Ha. by eapply RS_propose.
  - apply bind_Some in Ha as (n & Hn & Ha).
    destruct (BuildAppendEntries p n) as [[req|]|] eqn:E; simplify_eq. by eapply RS_send.
  - apply bind_Some in Ha as ([p req] & Hx & (n & Hn & Ha)%bind_Some). cbn [fst snd] in *.
    destruct (HandleAppendEntries req n) as [[n' [resp [e|]]]|] eqn:E; try done. unguard Ha.
    apply (RS_deliver _ _ p n req n' resp); [done|by eapply list_elem_of_lookup_2|done|done].
  - apply bind_Some in Ha as ([[p req] resp] & Hx & (n & Hn & Ha)%bind_Some). cbn [fst snd] in *.
    destruct (RecordReplicationSuccess p _ n) as [[n' err]|] eqn:E; [|done]. unguard Ha.
    apply (RS_success _ _ i n p req resp n' err);
      [done|by eapply list_elem_of_lookup_2|done..].
Qed.

Lemma netperform_sound l c c' :
  small c → netperform l c = Some c' → rtc (orderly_step ps_storable members) c c'.
Proof.
  revert c. induction l as [|a l IH]; intros c Hc; cbn [netperform]; [by intros [= ->]|].
  intros (c1 & H1 & H2)%bind_Some. destruct (smallb c1) eqn:Hs; [|done]. apply smallb_small in Hs.
  eapply rtc_l; [|by apply IH]. apply raft_orderly; [done|done|by eapply netact_sound].
Qed.
End schedules.

(** ** An execution *)

Definition net_init : memNet := mkNet trio_init [] [].

Lemma net_init_ok : raft_init trio net_init.
Proof. split_and!; [exact trio_init_ok|done|done]. Qed.

(** "a" wins term 1 with the vote of "b", appends two writes, and "b" stores them:
    "a" has committed both and tells "b". *)
Definition net_writes : list netAction :=
  [NStart "a"; NElect "a"; NElect "a"; NElect "a";
   NPre "a" (Result "b" (inl (mkPVR 0 true))); NElect "a"; NElect "a"; NElect "a";
   NVote "b" vote_a; NAnswer "a" "b" (mkRVR 1 true); NElect "a"; NElect "a"; NElect "a";
   NPropose "a" (kv_bytes (set_k x01)); NPropose "a" (kv_bytes (set_k x02));
   NSend "a" "b"; NDeliver 0; NSuccess "a" 0; NSend "a" "b"; NDeliver 0].

(** "a" crashes and comes back, "b" wins term 2 with the vote of "c", which has
    nothing, backs up until "c" accepts, and commits a write of its own. *)
Definition net_change : list netAction :=
  [NRestart "a" ["b"; "c"]; NStart "b"; NElect "b"; NElect "b"; NElect "b";
   NPre "b" (Result "c" (inl (mkPVR 0 true))); NElect "b"; NElect "b"; NElect "b";
   NVote "c" (mkRVQ 2 "b" 2 1); NAnswer "b" "c" (mkRVR 2 true); NElect "b"; NElect "b";
   NElect "b"; NPropose "b" (kv_bytes (set_k x03));
   NSend "b" "c"; NDeliver 0; NOp "b" (ORecordReplicationFailure "c");
   NOp "b" (ORecordReplicationFailure "c"); NSend "b" "c"; NDeliver 0; NSuccess "b" 0;
   NSend "b" "c"; NDeliver 0].

Definition net_wrote : memNet := default net_init (netperform trio net_writes net_init).

Definition net_final : memNet := default net_init (netperform trio net_change net_wrote).

Lemma net_wrote_reachable : rtc (orderly_step ps_storable trio) net_init net_wrote.
Proof.
  apply (netperform_sound trio net_writes); [apply smallb_small|]; vm_compute; reflexivity.
Qed.

Lemma net_final_reachable : rtc (orderly_step ps_storable trio) net_wrote net_final.
Proof.
  apply (netperform_sound trio net_change); [apply smallb_small|]; vm_compute; reflexivity.
Qed.

(** The nodes of an execution by name. *)
Definition net_node (c : memNet) (i : string) : memNode := default (freshNode "" []) (node_at c i).

Lemma net_node_at c i : is_Some (node_at c i) → node_at c i = Some (net_node c i).
Proof. unfold net_node. by intros [n ->]. Qed.

Definition wrote_a : memNode := net_node net_wrote "a".

Definition wrote_b : memNode := net_node net_wrote "b".

Definition final_b : memNode := net_node net_final "b".

Definition final_c : memNode := net_node net_final "c".

Lemma wrote_a_at : node_at net_wrote "a" = Some wrote_a.
Proof. apply net_node_at. by apply (bool_decide_unpack _); vm_compute. Qed.

Lemma wrote_b_at : node_at net_wrote "b" = Some wrote_b.
Proof. apply net_node_at. by apply (bool_decide_unpack _); vm_compute. Qed.

Lemma final_b_at : node_at net_final "b" = Some final_b.
Proof. apply net_node_at. by apply (bool_decide_unpack _); vm_compute. Qed.

Lemma final_c_at : node_at net_final "c" = Some final_c.
Proof. apply net_node_at. by apply (bool_decide_unpack _); vm_compute. Qed.

Lemma trio_named : "" ∉ trio.
Proof. by apply (bool_decide_unpack _); vm_compute. Qed.

Lemma trio_distinct : NoDup trio.
Proof. by apply (bool_decide_unpack _); vm_compute. Qed.

Lemma net_reachable : rtc (orderly_step ps_storable trio) net_init net_final.
Proof. etrans; [exact net_wrote_reachable|exact net_final_reachable]. Qed.
