(* ===== verification/ElectionTheorems.v ===== *)
(** * ElectionTheorems: elections are safe and end

    The properties of the election protocol, each with a run of it on concrete
    nodes. *)
From S2P Require Import Prelude GoStrings Types Membership JsonString Json JsonCodec.
From S2P Require Import MembershipCodec Bolt BoltStore Node NodeInv Election Heartbeat.
From S2P Require Import Proposal NodeStep NodeFrame Cluster ElectionRun Restart Instances.
From S2P Require Import KVStateMachine Scenario.

(** ** Safety of the cluster *)

Section cluster.
Context {St : Type} `{!StableStore St} `{!MembershipJSON}.
Context (storable : PersistentState → Prop) `{!StableStoreLaws St storable}.
Context (members : list string).

(** C1. Election safety. In every execution of a cluster of fixed membership,
    with elections, votes, replication, snapshots, lost and delayed messages,
    failed disk writes, crashes and restarts interleaved in any order, at most
    one candidate is ever elected in a term. *)
Theorem election_safety (c0 c : Cluster (St := St)) (t : Z) (a b : string) :
  "" ∉ members → NoDup members →
  cluster_init members c0 → rtc (cluster_step storable members) c0 c →
  (t, a) ∈ elected c → (t, b) ∈ elected c → a = b.
Proof using All.
  intros Hn Hd Hi Hr. eapply elected_unique. by eapply cluster_reachable_inv.
Qed.

(** Two nodes that are leaders at the same moment lead different terms, or
    are the same node. *)
Theorem leaders_unique (c0 c : Cluster (St := St)) (i j : string) (n m : RaftNode St) :
  "" ∉ members → NoDup members →
  cluster_init members c0 → rtc (cluster_step storable members) c0 c →
  nodes c !! i = Some n → nodes c !! j = Some m →
  n.(state) = Leader → m.(state) = Leader → n.(currentTerm) = m.(currentTerm) → i = j.
Proof using All.
  intros Hn Hd Hi Hr Hni Hmj Hs Hs' Ht.
  pose proof (cluster_reachable_inv storable members Hn Hd _ _ Hi Hr) as Hinv.
  pose proof Hinv as (Hnodes & _).
  destruct (Hnodes _ _ Hni) as (_ & _ & _ & _ & _ & _ & He).
  destruct (Hnodes _ _ Hmj) as (_ & _ & _ & _ & _ & _ & He').
  eapply elected_unique; [done|by apply He|]. rewrite Ht. by apply He'.
Qed.

(** C7. One vote per term. In every execution of a cluster of fixed membership, with
    failed disk writes, crashes and restarts, the votes that a node has answered with
    success in one term all went to the same candidate, if candidates have names, and to
    the node itself if it was a candidate in that term. (A node that applies its own
    removal forgets its vote: second_vote_after_readd.) *)
Theorem one_vote_per_term (c0 c : Cluster (St := St)) v req1 resp1 :
  "" ∉ members → NoDup members →
  cluster_init members c0 → rtc (cluster_step storable members) c0 c →
  (v, req1, resp1) ∈ Cluster.answers c → rvr_VoteGranted resp1 = true → rvq_CandidateID req1 ≠ "" →
  (∀ req2 resp2, (v, req2, resp2) ∈ Cluster.answers c → rvr_VoteGranted resp2 = true →
     rvq_CandidateID req2 ≠ "" → rvq_Term req2 = rvq_Term req1 →
     rvq_CandidateID req2 = rvq_CandidateID req1) ∧
  ((v, rvq_Term req1) ∈ selfVotes c → v ≠ "" → rvq_CandidateID req1 = v).
Proof using All.
  intros Hn Hd Hi Hr H1 G1 N1.
  pose proof (cluster_reachable_inv storable members Hn Hd _ _ Hi Hr) as (_ & _ & _ & Hu).
  assert (granted c v (rvq_Term req1) (rvq_CandidateID req1)) as Hg1.
  { left. by exists req1, resp1. }
  split.
  - intros req2 resp2 H2 G2 N2 Ht. eapply (Hu v (rvq_Term req1)); [done|done| |done].
    left. by exists req2, resp2.
  - intros Hs Hv. eapply (Hu v (rvq_Term req1)); [done|done|done|]. by right.
Qed.

End cluster.

(** "b" votes for "a" in term 1, restarts, and is asked by "c" for the same term. *)
Lemma one_vote_per_term_witness :
  ("b", vote_a, mkRVR 1 true) ∈ Cluster.answers trio_final ∧
  ("b", mkRVQ 1 "c" 0 0, mkRVR 1 false) ∈ Cluster.answers trio_final ∧
  ∀ req resp, ("b", req, resp) ∈ Cluster.answers trio_final → rvr_VoteGranted resp = true →
    rvq_CandidateID req ≠ "" → rvq_Term req = 1 → rvq_CandidateID req = "a".
Proof.
  assert (Hin : ("b", vote_a, mkRVR 1 true) ∈ Cluster.answers trio_final).
  { vm_compute. apply list_elem_of_further, list_elem_of_here. }
  split; [exact Hin|]. split; [vm_compute; apply list_elem_of_here|].
  apply (one_vote_per_term ps_storable trio trio_init trio_final "b" vote_a (mkRVR 1 true));
    [by apply (bool_decide_unpack _); vm_compute|by apply (bool_decide_unpack _); vm_compute
    |exact trio_init_ok|exact trio_reachable|exact Hin|reflexivity|done].
Defined.

Lemma election_safety_witness :
  (1, "a") ∈ elected trio_final ∧ (∀ b, (1, b) ∈ elected trio_final → "a" = b).
Proof.
  assert (Ha : (1, "a") ∈ elected trio_final) by (vm_compute; apply list_elem_of_here).
  split; [exact Ha|]. intros b Hb.
  apply (election_safety ps_storable trio trio_init trio_final 1 "a" b);
    [by apply (bool_decide_unpack _); vm_compute|by apply (bool_decide_unpack _); vm_compute
    |exact trio_init_ok|exact trio_reachable|exact Ha|exact Hb].
Defined.

Lemma leaders_unique_witness :
  ∃ n, nodes trio_final !! "a" = Some n ∧ n.(state) = Leader ∧
    ∀ j m, nodes trio_final !! j = Some m → m.(state) = Leader →
      n.(currentTerm) = m.(currentTerm) → "a" = j.
Proof.
  destruct (nodes trio_final !! "a") as [n|] eqn:E; [|vm_compute in E; done].
  exists n. split; [done|]. assert (state n = Leader) as Hs.
  { assert (state <$> nodes trio_final !! "a" = Some Leader) as Hs by (vm_compute; done).
    rewrite E in Hs. by injection Hs. }
  split; [done|]. intros j m Hj Hm Ht.
  apply (leaders_unique ps_storable trio trio_init trio_final "a" j n m);
    [by apply (bool_decide_unpack _); vm_compute|by apply (bool_decide_unpack _); vm_compute
    |exact trio_init_ok|exact trio_reachable|done..].
Defined.

(** ** Votes of one node *)

Section votes.
Context {St : Type} `{!StableStore St} `{!MembershipJSON}.
Implicit Types n : RaftNode St.

(** C10. An election whose peers all answer, in any order and with any mixture of
    grants, refusals and errors, returns: no panic, no endless wait, and the node
    stays well-formed. *)
Theorem StartElection_terminates pre vote n :
  node_wf n → answers n.(peers) pre → answers n.(peers) vote →
  pre_in_range pre → vote_in_range vote →
  ∃ n' won err, StartElection false pre vote n = Ret (n', EDone won err) ∧ node_wf n'.
Proof. apply StartElection_returns. Qed.

(** Pre-vote does not disturb: an election that fewer than a majority would
    support (and that meets no higher term) leaves the node exactly as it was, its
    term included, whatever votes would follow. *)
Theorem prevote_lost_unchanged pre vote n :
  answers n.(peers) pre → pre_terms_le n.(currentTerm) pre →
  1 + pre_grants pre < majority (zlen n.(peers) + 1) →
  StartElection false pre vote n = Ret (n, EDone false None).
Proof. apply StartElection_prevote_lost. Qed.

(** An election that reports success made the node leader of the next term,
    with its own vote and grants from the peers that are together a majority. *)
Theorem StartElection_majority pre vote n n' err :
  StartElection false pre vote n = Ret (n', EDone true err) →
  n'.(state) = Leader ∧ n'.(currentTerm) = n.(currentTerm) ⊕ 1 ∧ n'.(votedFor) = n.(nodeID) ∧
  majority (zlen n.(peers) + 1) ≤ 1 + vote_grants vote.
Proof. apply StartElection_won. Qed.

End votes.

Definition pre_grants_ab : list (chanEvent PreVoteResponse) :=
  [Result "c" (inr (ErrExternal "timeout")); Result "b" (inl (mkPVR 0 true))].

Definition pre_refusals : list (chanEvent PreVoteResponse) :=
  [Result "c" (inl (mkPVR 0 false)); Result "b" (inr (ErrExternal "timeout"))].

Definition votes_cb : list (chanEvent RequestVoteResponse) :=
  [Result "c" (inl (mkRVR 1 false)); Result "b" (inl (mkRVR 1 true))].

Lemma answers_bc {R} (rb rc : R + GoError) :
  ElectionRun.answers ["b"; "c"] [Result "c" rc; Result "b" rb].
Proof. exists [("c", rc); ("b", rb)]. split; [done|]. apply perm_swap. Qed.

Lemma StartElection_terminates_witness :
  ∃ n' won err, StartElection false pre_grants_ab votes_cb (freshNode "a" ["b"; "c"]) =
    Ret (n', EDone won err) ∧ node_wf n'.
Proof.
  apply StartElection_terminates.
  - apply freshNode_wf.
  - apply answers_bc.
  - apply answers_bc.
  - intros p resp Hin. apply list_elem_of_In in Hin.
    repeat destruct Hin as [[=]|Hin]; subst; done.
  - intros p resp Hin. apply list_elem_of_In in Hin.
    repeat destruct Hin as [[=]|Hin]; subst; done.
Defined.

Lemma prevote_lost_unchanged_witness :
  StartElection false pre_refusals votes_cb (freshNode "a" ["b"; "c"]) =
    Ret (freshNode "a" ["b"; "c"], EDone false None).
Proof.
  apply prevote_lost_unchanged.
  - apply answers_bc.
  - intros p resp Hin. apply list_elem_of_In in Hin.
    repeat destruct Hin as [[=]|Hin]; subst; done.
  - vm_compute. reflexivity.
Defined.

Lemma StartElection_majority_witness :
  ∃ n' err, StartElection false pre_grants_ab votes_cb (freshNode "a" ["b"; "c"]) =
    Ret (n', EDone true err) ∧ n'.(state) = Leader ∧ n'.(currentTerm) = 0 ⊕ 1 ∧ n'.(votedFor) = "a" ∧
    majority (zlen ["b"; "c"] + 1) ≤ 1 + vote_grants votes_cb.
Proof.
  destruct (StartElection false pre_grants_ab votes_cb (freshNode "a" ["b"; "c"]))
    as [[n' pc]|] eqn:E.
  - assert (pc = EDone true None) as ->.
    { change pc with (n', pc).2. assert (∀ x y, Ret x = Ret y → x = y :> (memNode * electionPC))
        as Hinj by (by intros x y [= ->]).
      assert (match StartElection false pre_grants_ab votes_cb (freshNode "a" ["b"; "c"]) with
              | Ret r => r.2 | Panic => EDone false None end = EDone true None) as Hv
        by (vm_compute; reflexivity).
      rewrite E in Hv. exact Hv. }
    exists n', None. split; [done|].
    exact (StartElection_majority _ _ _ _ _ E).
  - exfalso. assert (match StartElection false pre_grants_ab votes_cb (freshNode "a" ["b"; "c"]) with
              | Ret r => True | Panic => False end) as Hv by (vm_compute; done).
    by rewrite E in Hv.
Defined.

(** ** The comparison of logs *)

(** The freshness test that guards votes decides a total preorder on logs,
    lexicographic in term and index of their last entries: a voter's log and a
    candidate's are always comparable, and a chain of grants is transitive. *)
Theorem log_freshness_total_preorder :
  (∀ i t, IsLogAtLeastUpToDate i t i t = true) ∧
  (∀ i1 t1 i2 t2, IsLogAtLeastUpToDate i1 t1 i2 t2 = false →
     IsLogAtLeastUpToDate i2 t2 i1 t1 = true) ∧
  (∀ i1 t1 i2 t2 i3 t3, IsLogAtLeastUpToDate i1 t1 i2 t2 = true →
     IsLogAtLeastUpToDate i2 t2 i3 t3 = true → IsLogAtLeastUpToDate i1 t1 i3 t3 = true) ∧
  (∀ i1 t1 i2 t2, IsLogAtLeastUpToDate i1 t1 i2 t2 = true →
     IsLogAtLeastUpToDate i2 t2 i1 t1 = true → i1 = i2 ∧ t1 = t2).
Proof.
  split_and!; intros *; rewrite <-?not_true_iff_false, ?IsLogAtLeastUpToDate_spec;
    unfold log_le; lia.
Qed.

Lemma log_freshness_total_preorder_witness :
  IsLogAtLeastUpToDate 3 2 9 1 = true ∧ IsLogAtLeastUpToDate 9 1 3 2 = false ∧
  IsLogAtLeastUpToDate 3 2 3 2 = true.
Proof.
  split_and!; [reflexivity|reflexivity|exact (proj1 log_freshness_total_preorder 3 2)].
Defined.
