(* ===== verification/RaftTheorems.v ===== *)
(** * RaftTheorems: the replicated log

    What the cluster as a whole guarantees, in executions of Raft.v: it refines the
    specification of the logs, and so log matching, leader completeness and state
    machine safety hold of the nodes themselves. *)
From S2P Require Import Prelude GoStrings Types Membership JsonString Json JsonCodec.
From S2P Require Import MembershipCodec Bolt BoltStore Node NodeInv Election Heartbeat.
From S2P Require Import Proposal NodeStep NodeFrame Cluster Replication Applying Restart.
From S2P Require Import RaftSpec RaftCommit FullLog Raft RaftSim RaftFollow RaftElect RaftExec.
From S2P Require Import Instances KVCommand KVStateMachine Scenario RaftRun.

Section replicated.
Context {St : Type} `{!StableStore St} `{MJ : !MembershipJSON}.
Context (storable : PersistentState → Prop) `{!StableStoreLaws St storable}.
Context (members : list string).
Abbreviation orderly_steps := (rtc (orderly_step storable members)).
Abbreviation node_rel := (node_rel members).
Implicit Types (n m : RaftNode St) (c : Net (St := St)).

(** ** Orderly executions reach states of the specification *)

Lemma orderly_reachable c0 c :
  "" ∉ members → NoDup members → raft_init members c0 → orderly_steps c0 c →
  ∃ s, rtc (spec_step le_Term members) spec0 s ∧ spec_inv le_Term members s ∧ rel members c s.
Proof using All.
  intros Hn Hd Hi Hr.
  by destruct (raft_reachable storable members Hn Hd c0 c Hi
    (orderly_raft_steps storable members c0 c0 c Hn Hd Hi (rtc_refl _ _) Hr)) as [_ ?].
Qed.

Lemma orderly_reachable_later c0 c c' :
  "" ∉ members → NoDup members → raft_init members c0 → orderly_steps c0 c → orderly_steps c c' →
  ∃ s s', rel members c s ∧ rel members c' s' ∧ spec_inv le_Term members s' ∧ history_le le_Term s s'.
Proof using All.
  intros Hn Hd Hi Hr Hr'.
  pose proof (orderly_raft_steps storable members c0 c0 c Hn Hd Hi (rtc_refl _ _) Hr) as H1.
  pose proof (orderly_raft_steps storable members c0 c c' Hn Hd Hi H1 Hr') as H2.
  by apply (raft_reachable_later storable members Hn Hd c0 c c').
Qed.

(** ** From the specification to the nodes *)

Lemma rel_entry s i n x e :
  node_rel s i n → entry_at n x = Some e →
  n.(lastIncludedIndex) < x ∧ 0 < x ∧ sp_log s i !! Z.to_nat (x - 1) = Some e.
Proof.
  intros Hni He. pose proof (entry_at_Some _ _ _ He) as Hr.
  pose proof (nr_wf _ _ _ _ Hni) as ((_ & ? & _) & _).
  rewrite (full_entry_at n _ x (nr_full _ _ _ _ Hni)) in He by lia. split_and!; [lia|lia|done].
Qed.

(** A committed entry of a node is in a certified prefix. *)
Lemma rel_committed s i n x :
  node_rel s i n → x ≤ n.(commitIndex) →
  certified le_Term members s (sp_log s i) n.(currentTerm) (Z.to_nat x).
Proof. intros Hni Hx. eapply certified_le; [|done|apply Hni]. lia. Qed.

Lemma rel_agree s s' i j n m x a b :
  spec_inv le_Term members s' → history_le le_Term s s' → node_rel s i n → node_rel s' j m →
  x ≤ n.(commitIndex) → x ≤ m.(commitIndex) →
  entry_at n x = Some a → entry_at m x = Some b → a = b.
Proof.
  intros Hsi Hh Hn Hm Hxn Hxm Ha Hb.
  destruct (rel_entry s i n x a Hn Ha) as (_ & Hpos & Ea).
  destruct (rel_entry s' j m x b Hm Hb) as (_ & _ & Eb).
  pose proof (certified_history _ _ _ _ _ _ _ Hh (rel_committed s i n x Hn Hxn)) as C1.
  pose proof (rel_committed s' j m x Hm Hxm) as C2.
  pose proof (certified_agree _ _ s' _ _ _ _ _ _ (Z.to_nat x) Hsi C1 C2 ltac:(done) ltac:(done)) as E.
  assert (sp_log s i !! Z.to_nat (x - 1) = sp_log s' j !! Z.to_nat (x - 1)) as El.
  { apply (take_eq_lookup (Z.to_nat x)); [lia|done]. }
  congruence.
Qed.

(** ** The theorems *)

(** C2. Refinement. The executions are those of [net_step], with elections, votes, append
    requests and answers that are lost, repeated or reordered, snapshots, crashes and
    restarts, restricted to the orderly ones: no write to a disk fails, membership does
    not change, a proposal is appended while its node still leads, a leader records an
    answer only in the term of its request, and no 64-bit counter is exhausted. The code
    does not enforce these rules, and Races.v and Faults.v show what happens without
    them. Every orderly execution is an execution of the specification of replicated
    logs: each node holds the end of its log of the specification and its term, its
    commit index is a prefix that a quorum acknowledged, and a leader's log is the log
    of its term. *)
Theorem raft_refines_logs c0 c :
  "" ∉ members → NoDup members → raft_init members c0 → orderly_steps c0 c →
  ∃ s, rtc (spec_step le_Term members) spec0 s ∧
    ∀ i n, node_at c i = Some n →
      full n (sp_log s i) ∧ n.(currentTerm) = sp_term s i ∧
      certified le_Term members s (sp_log s i) n.(currentTerm) (Z.to_nat n.(commitIndex)) ∧
      (n.(state) = Leader → sp_lead s !! n.(currentTerm) = Some (i, sp_log s i)).
Proof using All.
  intros Hn Hd Hi Hr.
  destruct (orderly_reachable c0 c Hn Hd Hi Hr) as (s & Hs & _ & R).
  exists s. split; [done|]. intros i n Hin.
  destruct (r_nodes _ _ _ R i n Hin) as [_ Hf Ht _ Hc _ Hl].
  split_and!; try done. intros Hst. by apply Hl.
Qed.

(** C3. State machine safety, in orderly executions (no failed writes, fixed membership,
    proposals appended by leaders, answers recorded in the term of their request). What
    one node counts as committed at some moment and what any node, the same one after a
    restart included, counts as committed then or later is the same entry at every
    index. *)
Theorem state_machine_safety c0 c c' i j n m x a b :
  "" ∉ members → NoDup members → raft_init members c0 → orderly_steps c0 c → orderly_steps c c' →
  node_at c i = Some n → node_at c' j = Some m → x ≤ n.(commitIndex) → x ≤ m.(commitIndex) →
  entry_at n x = Some a → entry_at m x = Some b → a = b.
Proof using All.
  intros Hn Hd Hi Hr Hr' Hin Hjm.
  destruct (orderly_reachable_later c0 c c' Hn Hd Hi Hr Hr')
    as (s & s' & R & R' & Hsi & Hh).
  eapply (rel_agree s s' i j); [done|done|by apply R|by apply R'].
Qed.


(** C5. Log matching, in orderly executions (no failed writes, fixed membership,
    proposals appended by leaders, answers recorded in the term of their request). Two
    nodes whose entries at an index are of the same term hold the same entries at every
    index up to it. *)
Theorem log_matching c0 c i j n m :
  "" ∉ members → NoDup members → raft_init members c0 → orderly_steps c0 c →
  node_at c i = Some n → node_at c j = Some m → logs_match n m.
Proof using All.
  intros Hn Hd Hi Hr Hin Hjm x a b Ha Hb Hab y u v Hy Hu Hv.
  destruct (orderly_reachable c0 c Hn Hd Hi Hr) as (s & _ & Hsi & R).
  pose proof (r_nodes _ _ _ R i n Hin) as Hni. pose proof (r_nodes _ _ _ R j m Hjm) as Hmj.
  destruct (rel_entry s i n x a Hni Ha) as (_ & Hpos & Ea).
  destruct (rel_entry s j m x b Hmj Hb) as (_ & _ & Eb).
  destruct (rel_entry s i n y u Hni Hu) as (_ & Hypos & Eu).
  destruct (rel_entry s j m y v Hmj Hv) as (_ & _ & Ev).
  pose proof (consistent_match le_Term s _ _ _ a b (si_logs _ _ _ Hsi i) (si_logs _ _ _ Hsi j)
    Ea Eb Hab) as E.
  assert (sp_log s i !! Z.to_nat (y - 1) = sp_log s j !! Z.to_nat (y - 1)) as El.
  { eapply take_eq_lookup; [|exact E]. lia. }
  congruence.
Qed.

(** C6. Replicas agree, in orderly executions (no failed writes, fixed membership,
    proposals appended by leaders, answers recorded in the term of their request). Two
    nodes that each apply their committed entries by one undisturbed call of
    ApplyCommitted, from the same position and state, at whatever moments and over
    whatever leaders, have the same state when they have applied as many, for any state
    machine. *)
Theorem replicas_agree {SM} `{!StateMachine SM} c0 c c' i j n m n1 m1 (sm sm1 sm2 : SM) :
  "" ∉ members → NoDup members → raft_init members c0 → orderly_steps c0 c → orderly_steps c c' →
  node_at c i = Some n → node_at c' j = Some m → n.(lastApplied) = m.(lastApplied) →
  ApplyCommitted n sm = Ret (n1, sm1, None) → ApplyCommitted m sm = Ret (m1, sm2, None) →
  n1.(lastApplied) = m1.(lastApplied) →
  n1.(lastApplied) ≤ n.(commitIndex) → m1.(lastApplied) ≤ m.(commitIndex) → sm1 = sm2.
Proof using All.
  intros Hn Hd Hi Hr Hr' Hin Hjm Ela Ha Hb Ela1 Hc1 Hc2.
  destruct (orderly_reachable_later c0 c c' Hn Hd Hi Hr Hr')
    as (s & s' & R & R' & Hsi & Hh).
  pose proof (r_nodes _ _ _ R i n Hin) as Hni. pose proof (r_nodes _ _ _ R' j m Hjm) as Hmj.
  destruct (ApplyCommitted_spec n sm (nr_wf _ _ _ _ Hni)) as (? & ? & ? & E1 & _ & _ & Hres1).
  destruct (ApplyCommitted_spec m sm (nr_wf _ _ _ _ Hmj)) as (? & ? & ? & E2 & _ & _ & Hres2).
  rewrite Ha in E1. injection E1 as <- <- <-. rewrite Hb in E2. injection E2 as <- <- <-.
  destruct Hres1 as (es1 & ? & Hseg1 & Hrun1 & Hl1 & -> & _).
  destruct Hres2 as (es2 & ? & Hseg2 & Hrun2 & Hl2 & -> & _).
  assert (es1 = es2) as ->; [|congruence].
  assert (length es1 = length es2) as Hlen by (unfold zlen in *; lia).
  apply (list_eq_same_length _ _ (length es1)); [done|done|].
  intros k a b Hk Hak Hbk.
  pose proof (Hseg1 k a Hak) as Ea. pose proof (Hseg2 k b Hbk) as Eb. rewrite <-Ela in Eb.
  unfold zlen in *.
  apply (rel_agree s s' i j n m (lastApplied n + 1 + Z.of_nat k)); try done; lia.
Qed.

(** C18. No node of the cluster panics. In an orderly execution (no failed writes, fixed
    membership, proposals appended by leaders, answers recorded in the term of their
    request) with room for one more index, whatever section runs next on a node does not
    index a slice out of range or write to a nil map: the handling of any request that
    was sent to it, recording any answer to a request of its own term, any section of an
    election, of a round, of a proposal or of the apply loop. *)
Theorem orderly_no_panic c0 c i n :
  "" ∉ members → NoDup members → raft_init members c0 → orderly_steps c0 c →
  node_at c i = Some n →
  (∀ req, (i, req) ∈ c.(sent) → HandleAppendEntries req n ≠ Panic) ∧
  (∀ p req resp, (p, req, resp) ∈ c.(replies) → aer_Success resp = true →
     (n.(state) = Leader → aeq_Term req = n.(currentTerm)) →
     RecordReplicationSuccess p (aeq_PrevLogIndex req ⊕ zlen (aeq_Entries req)) n ≠ Panic) ∧
  (∀ op, background op n → last_index n < two64 - 2 → exec op n ≠ Panic) ∧
  (∀ p, BuildAppendEntries p n ≠ Panic) ∧ (∀ pc, electionStep pc n ≠ Panic) ∧
  nextCommittedEntry n ≠ Panic.
Proof using All.
  intros Hn Hd Hi Hr Hin. destruct (orderly_reachable c0 c Hn Hd Hi Hr) as (s & _ & Hsi & R).
  pose proof (r_nodes _ _ _ R i n Hin) as Hni. pose proof (nr_wf _ _ _ _ Hni) as Hwf.
  pose proof Hwf as (Hl & _ & Ho & Hp). split_and!.
  - intros req Hs. pose proof (r_sent _ _ _ R i req Hs) as Hso.
    destruct (HandleAppendEntries_cases req n Hl (sent_request_wf members s req Hsi Hso))
      as [[_ ->]|[(_ & _ & ? & ? & ->)|(_ & _ & ? & ? & ? & ? & _ & ->)]]; done.
  - intros p req resp Hrep Hok Ht. destruct (decide (n.(state) = Leader)) as [Hlead|Hlead].
    + destruct (reply_bound members c s i n p req resp Hsi R Hin Hlead Hrep Hok (Ht Hlead)) as [Hb _].
      by destruct (RecordReplicationSuccess_wf p _ n Hwf Hb) as (? & ? & -> & _).
    + unfold RecordReplicationSuccess. assert (n.(nextIndex) = None) as ->; [|done].
      unfold progress_ok in Hp. by destruct (state n); [apply Hp|apply Hp|].
  - intros op Hbg Hroom. destruct (exec_wf op n Hwf) as (? & -> & _); [|done]. by destruct op.
  - intros p. destruct (map_get n.(nextIndex) p) as [x|] eqn:Hx.
    + by destruct (BuildAppendEntries_spec p x n Hwf Hx) as (? & -> & _).
    + unfold BuildAppendEntries. by rewrite Hx.
  - intros pc. destruct pc; cbn [electionStep]; repeat case_match; try done.
    destruct (promoteCandidate_wf term n Hwf) as (m & r & -> & _). rewrite go_bind_Ret. by destruct r.
  - by rewrite nextCommittedEntry_wf.
Qed.
End replicated.

(** ** The execution of RaftRun.v *)

(** "a" writes twice, crashes, "b" takes over and writes once more. *)
Lemma raft_refines_logs_witness :
  ∃ s, rtc (spec_step le_Term trio) spec0 s ∧ length (sp_log s "c") = 3%nat ∧
    certified le_Term trio s (sp_log s "c") 2 3 ∧ sp_lead s !! 2 = Some ("b", sp_log s "b").
Proof.
  destruct (raft_refines_logs ps_storable trio net_init net_final) as (s & Hs & Hn);
    [exact trio_named|exact trio_distinct|exact net_init_ok
    |exact net_reachable|].
  exists s. split; [done|].
  destruct (Hn "c" final_c final_c_at) as (Hf & _ & Hc & _).
  destruct (Hn "b" final_b final_b_at) as (_ & _ & _ & Hl).
  assert (currentTerm final_c = 2 ∧ commitIndex final_c = 3 ∧ last_index final_c = 3 ∧
    state final_b = Leader ∧ currentTerm final_b = 2) as (Et & Ec & Eli & Es & Etb)
    by (vm_compute; done).
  rewrite Et, Ec in Hc. specialize (Hl Es). rewrite Etb in Hl.
  rewrite (full_last_index _ _ Hf) in Eli. unfold zlen in Eli. split_and!; [lia|exact Hc|exact Hl].
Defined.

(** "c" at the end of the execution, with the requests that were sent to it. *)
Lemma orderly_no_panic_witness :
  (∃ req, ("c", req) ∈ net_final.(sent) ∧ HandleAppendEntries req final_c ≠ Panic) ∧
  exec (OAppendLocal (kv_bytes (set_k x04))) final_c ≠ Panic.
Proof.
  destruct (orderly_no_panic ps_storable trio net_init net_final "c" final_c trio_named trio_distinct
    net_init_ok net_reachable final_c_at) as (Hh & _ & He & _).
  split; [|apply He; vm_compute; done].
  assert (∃ req, ("c", req) ∈ net_final.(sent)) as [req Hreq].
  { assert (bool_decide (Exists (λ x, x.1 = "c") net_final.(sent)) = true) as Hb
      by (vm_compute; reflexivity).
    apply bool_decide_eq_true, Exists_exists in Hb as ([p req] & Hin & Hp). simpl in Hp. subst p.
    by exists req. }
  exists req. split; [exact Hreq|exact (Hh req Hreq)].
Defined.

Lemma state_machine_safety_witness :
  ∃ a b, entry_at wrote_a 2 = Some a ∧ entry_at final_c 2 = Some b ∧ a = b.
Proof.
  destruct (entry_at wrote_a 2) as [a|] eqn:Ha; [|vm_compute in Ha; discriminate Ha].
  destruct (entry_at final_c 2) as [b|] eqn:Hb; [|vm_compute in Hb; discriminate Hb].
  exists a, b. split_and!; [done|done|].
  apply (state_machine_safety ps_storable trio net_init net_wrote net_final "a" "c"
    wrote_a final_c 2 a b); [exact trio_named|exact trio_distinct|exact net_init_ok
    |exact net_wrote_reachable|exact net_final_reachable|exact wrote_a_at|exact final_c_at
    |by vm_compute|by vm_compute|done|done].
Defined.


Lemma log_matching_witness :
  ∃ x y, entry_at final_b 1 = Some x ∧ entry_at final_c 1 = Some y ∧ x = y.
Proof.
  destruct (entry_at final_b 1) as [x|] eqn:Hx; [|vm_compute in Hx; discriminate Hx].
  destruct (entry_at final_c 1) as [y|] eqn:Hy; [|vm_compute in Hy; discriminate Hy].
  destruct (entry_at final_b 3) as [a|] eqn:Ha; [|vm_compute in Ha; discriminate Ha].
  destruct (entry_at final_c 3) as [b|] eqn:Hb; [|vm_compute in Hb; discriminate Hb].
  exists x, y. split_and!; [done|done|].
  refine (log_matching ps_storable trio net_init net_final "b" "c" final_b final_c
    trio_named trio_distinct net_init_ok net_reachable final_b_at final_c_at
    3 a b Ha Hb _ 1 x y _ Hx Hy); [|done].
  assert (le_Term <$> entry_at final_b 3 = le_Term <$> entry_at final_c 3) as E by (vm_compute; done).
  rewrite Ha, Hb in E. by injection E.
Defined.

(** The map a node has applied. *)
Definition applied_kv (n : memNode) : go (memNode * KVStateMachine memDB * error) :=
  ApplyCommitted n NewKVStateMachine.

(** Where a run without error ends. *)
Definition applied_upto (r : go (memNode * KVStateMachine memDB * error)) : option Z :=
  match r with Ret (n, _, None) => Some n.(lastApplied) | _ => None end.

Lemma applied_upto_Some r x :
  applied_upto r = Some x → ∃ n sm, r = Ret (n, sm, None) ∧ n.(lastApplied) = x.
Proof. destruct r as [[[n sm] [e|]]|]; try done. intros [= <-]. eauto. Qed.

Lemma wrote_a_applies : applied_upto (applied_kv wrote_a) = Some 2.
Proof. vm_compute. reflexivity. Qed.

Lemma wrote_b_applies : applied_upto (applied_kv wrote_b) = Some 2.
Proof. vm_compute. reflexivity. Qed.

Lemma replicas_agree_witness :
  ∃ n1 m1 sm1 sm2, applied_kv wrote_a = Ret (n1, sm1, None) ∧
    applied_kv wrote_b = Ret (m1, sm2, None) ∧ sm1 = sm2.
Proof.
  destruct (applied_upto_Some _ _ wrote_a_applies) as (n1 & sm1 & Ha & E1).
  destruct (applied_upto_Some _ _ wrote_b_applies) as (m1 & sm2 & Hb & E2).
  exists n1, m1, sm1, sm2. split; [exact Ha|split; [exact Hb|]].
  apply (replicas_agree ps_storable trio net_init net_wrote net_wrote "a" "b"
    wrote_a wrote_b n1 m1 NewKVStateMachine sm1 sm2); [exact trio_named|exact trio_distinct
    |exact net_init_ok|exact net_wrote_reachable|reflexivity|exact wrote_a_at|exact wrote_b_at
    |by vm_compute|exact Ha|exact Hb|congruence|rewrite E1; by vm_compute|rewrite E2; by vm_compute].
Defined.
