(* ===== verification/LogTheorems.v ===== *)
(** * LogTheorems: the replicated log

    The properties of one node's log and of a leader and a follower together,
    each exercised on concrete nodes. *)
From S2P Require Import Prelude GoStrings Types Membership JsonString Json JsonCodec.
From S2P Require Import MembershipCodec Bolt BoltStore Node NodeInv Election Heartbeat.
From S2P Require Import Proposal NodeStep NodeFrame Replication Applying Progress Restart.
From S2P Require Import Instances KVStateMachine Scenario.

Section log.
Context {St : Type} `{!StableStore St} `{!MembershipJSON}.
Implicit Types n : RaftNode St.

(** C11. The invariant of a node (contiguous indices, snapshot, applied, commit and
    last index in order, progress maps that track exactly the peers and only for
    a leader, nothing that overflows) holds after any sequence of operations whose
    arguments satisfy [op_ok], and no such operation then panics: no slice index out of
    range, no write to a nil map. [op_ok] is what the callers owe, and the node does not
    check it: terms and positions in 64 bits with room for one more; an append request
    whose previous term is not zero when it names a previous entry, and which agrees with
    the entries the node has committed; a confirmed position within the leader's log; a
    position to apply that is committed. Without it the invariant can break and the node
    can panic ([zero_prev_term_panics]); in an orderly execution of a cluster the callers
    keep it ([orderly_no_panic]). *)
Theorem node_invariant n n' :
  node_wf n → rtc node_step n n' →
  node_wf n' ∧ ∀ op, op_ok op n' → ∃ n'', exec op n' = Ret n'' ∧ node_wf n''.
Proof.
  intros Hwf Hr. pose proof (node_steps_wf _ _ Hwf Hr) as Hwf'. split; [done|].
  intros op. by apply exec_wf.
Qed.

(** C12. The exact log after an append request whose fields are in range (its previous
    term is not zero when it names a previous entry). The request is accepted exactly when
    the sender is not refused and the consistency check passes. Then the log is unchanged
    if it holds all entries of the request already; otherwise it is cut before the first
    one that is missing or stored with another term, whatever followed there, and goes on
    with the rest of the request and nothing else. A request that is not accepted leaves
    the log alone. *)
Theorem HandleAppendEntries_effect req n n' resp err :
  log_wf n → request_wf req → HandleAppendEntries req n = Ret (n', (resp, err)) →
  (aer_Success resp = true ∧ ¬ refused req n ∧ prev_matches req n ∧ accepted_log req n n') ∨
  (aer_Success resp = false ∧ (refused req n ∨ ¬ prev_matches req n) ∧ same_log n' n).
Proof. apply HandleAppendEntries_exact. Qed.

(** Replication. A follower that accepts the request a leader built for it
    holds, at every index beyond its own snapshot, exactly the leader's entry, if
    their logs matched before (two entries of the same index and term agree
    together with all before them). *)
Theorem follower_holds_leader_log p x (lead foll foll' : RaftNode St) req resp err i e :
  node_wf lead → node_wf foll → logs_match lead foll → request_wf req →
  map_get lead.(nextIndex) p = Some x → BuildAppendEntries p lead = Ret (inl req) →
  HandleAppendEntries req foll = Ret (foll', (resp, err)) → aer_Success resp = true →
  entry_at lead i = Some e → foll.(lastIncludedIndex) < i → entry_at foll' i = Some e.
Proof. intros. eapply (replicate_equal p x lead req foll foll' resp err); eassumption. Qed.

(** C14. The commit rule. advanceCommitLocked moves the commit index exactly to
    the highest index above it whose entry is of the current term and is stored
    by a majority (the node itself and the peers known to hold it), and only on a
    leader that is a member; otherwise it changes nothing. *)
Theorem commit_rule n :
  log_wf n → index_order n →
  (advanceCommitLocked n = Ret n ∧
   (n.(state) = Leader → n.(selfMember) = true →
    ∀ j, n.(commitIndex) < j ≤ last_index n →
      ¬ (term_at n j = n.(currentTerm) ∧ majority (clusterSizeLocked n) ≤ 1 + zlen (holders n j)))) ∨
  (n.(state) = Leader ∧ n.(selfMember) = true ∧
   ∃ c, n.(commitIndex) < c ≤ last_index n ∧
     term_at n c = n.(currentTerm) ∧ majority (clusterSizeLocked n) ≤ 1 + zlen (holders n c) ∧
     (∀ j, c < j ≤ last_index n →
        ¬ (term_at n j = n.(currentTerm) ∧ majority (clusterSizeLocked n) ≤ 1 + zlen (holders n j))) ∧
     advanceCommitLocked n = Ret (signalCommitReadyLocked (set_commitIndex c n))).
Proof.
  intros Hl Ho. destruct (advanceCommit_spec n Hl Ho) as [[? Hno]|(? & ? & c & ? & [? ?] & Hno & ?)];
    [left|right]; setoid_rewrite <-replicatedCount_holders; eauto 10.
Qed.

(** C15. A lagging follower is found. A leader and a follower that does not refuse it
    (its term is not ahead, it counts the leader as a member) exchange requests and
    answers one after the other, with nobody else running. If their logs agree at a
    position [q] that the leader has not compacted, and the leader's entries from there
    on have terms other than zero, then after at most as many exchanges as the next
    index is ahead of [q] the follower has accepted, unless its store returned an error:
    it holds entries of the leader's terms at every index after the accepted position
    beyond its snapshot, and the leader's match and next index are at the end of its
    log. *)
Theorem backtracking_converges p q x (lead foll : RaftNode St) :
  converging p q x lead foll →
  ∃ lead' foll' r, exchanges (Z.to_nat (x - q)) p lead foll = Ret (lead', foll', r) ∧
    ((∃ e, r = WriteFailed e ∧ ∃ ps (st : St), (Types.Save ps st).2 = Some e) ∨
     r = Accepted ∧ caught_up p q x lead lead' foll foll').
Proof.
  intros Hcv. pose proof (cv_range _ _ _ _ _ Hcv). apply exchanges_spec; [done|lia].
Qed.

(** The request for a peer: the leader's term and commit index, the position
    before the peer's next index (or before the first entry the leader still
    has) with the leader's term there, and every entry of the log after it. *)
Theorem BuildAppendEntries_request p x n :
  node_wf n → map_get n.(nextIndex) p = Some x →
  ∃ req, BuildAppendEntries p n = Ret (inl req) ∧
    aeq_Term req = n.(currentTerm) ∧ aeq_LeaderID req = n.(nodeID) ∧
    aeq_PrevLogIndex req = Z.max x (n.(lastIncludedIndex) + 1) - 1 ∧
    aeq_PrevLogTerm req = term_at n (aeq_PrevLogIndex req) ∧
    (∀ k, aeq_Entries req !! k = entry_at n (aeq_PrevLogIndex req + 1 + Z.of_nat k)) ∧
    aeq_PrevLogIndex req + zlen (aeq_Entries req) = last_index n ∧
    aeq_LeaderCommit req = n.(commitIndex).
Proof. apply BuildAppendEntries_spec. Qed.

(** A leader never rewrites its log: while it stays leader, every operation
    keeps every entry at its index, except those a snapshot has absorbed. *)
Theorem leader_append_only op n n' i :
  node_wf n → op_ok op n → exec op n = Ret n' →
  n.(state) = Leader → n'.(state) = Leader → keeps n n' i.
Proof. apply exec_leader_appends. Qed.

(** Commit, apply and snapshot positions never move back, over any sequence
    of operations. *)
Theorem positions_monotone n n' :
  node_wf n → rtc node_step n n' →
  n.(commitIndex) ≤ n'.(commitIndex) ∧ n.(lastApplied) ≤ n'.(lastApplied) ∧
  n.(lastIncludedIndex) ≤ n'.(lastIncludedIndex).
Proof.
  intros Hwf Hr. induction Hr as [|a b c [op n1 n2 Hok He] _ IH]; [lia|].
  pose proof (exec_positions op n1 n2 Hwf Hok He).
  destruct (exec_wf op n1 Hwf Hok) as (m & Hm & Hwfm). rewrite He in Hm. simplify_eq.
  specialize (IH Hwfm). lia.
Qed.

(** Compaction. A snapshot at the applied position keeps every later entry
    and every term from that position on, so that elections and consistency
    checks see the same log; the last index and the positions stay. *)
Theorem Compact_preserves snap n n' err :
  node_wf n → Compact snap n = Ret (n', err) →
  last_index n' = last_index n ∧ n'.(commitIndex) = n.(commitIndex) ∧
  n'.(lastApplied) = n.(lastApplied) ∧
  (∀ i, n'.(lastIncludedIndex) < i → entry_at n' i = entry_at n i) ∧
  (∀ i, n'.(lastIncludedIndex) ≤ i → term_at n' i = term_at n i).
Proof.
  intros (Hl & _ & Ho & _) Hc.
  destruct (Compact_cases snap n Hl Ho) as [[_ E]|[(_ & _ & E)|(Hlt & _ & E)]];
    rewrite E in Hc; injection Hc as Hc; [by subst..|].
  destruct (persistLocked_eq (compacted n snap)) as (s & e & Ep). rewrite Ep in Hc. simplify_eq.
  split_and!.
  - by apply compacted_last_index.
  - done.
  - done.
  - intros i Hi. change (entry_at (compacted n snap) i = entry_at n i). simpl in Hi.
    rewrite compacted_entry_at by done. rewrite decide_False by lia. done.
  - intros i Hi. by apply compacted_term_at.
Qed.

End log.

(** ** Witnesses *)

Lemma lead_a_steps : rtc node_step (freshNode "a" ["b"; "c"]) lead_a.
Proof.
  apply (rtc_l _ _ cand_a); [apply after_step; [apply freshNode_wf|exact I]|].
  apply (rtc_l _ _ lead_a0); [apply after_step; [exact cand_a_wf|exact I]|].
  apply (rtc_l _ _ lead_a1); [apply after_step; [exact lead_a0_wf|evaluate]|].
  apply rtc_once, after_step; [exact lead_a1_wf|evaluate].
Qed.

Lemma node_invariant_witness :
  node_wf lead_a ∧ ∃ n, exec (ORecordReplicationSuccess "b" 2) lead_a = Ret n ∧ node_wf n.
Proof.
  destruct (node_invariant (freshNode "a" ["b"; "c"]) lead_a (freshNode_wf _ _) lead_a_steps)
    as [Hwf Hop].
  split; [exact Hwf|]. apply Hop. evaluate.
Defined.

(** "b" holds three entries of term 1, the last two of which the leader of term 2
    replaces by one of its own: the third one is gone. *)
Definition stale_b : RaftNode memStore :=
  after (OHandleAppendEntries
    (mkAEQ 1 "a" 0 0 [mkEntry 1 1 put_x; mkEntry 1 2 put_x; mkEntry 1 3 put_x] 1)) foll_b.

Definition replace_b : AppendEntriesRequest := mkAEQ 2 "c" 1 1 [mkEntry 2 2 put_y] 1.

Definition replaced_b : RaftNode memStore := after (OHandleAppendEntries replace_b) stale_b.

Lemma stale_b_wf : log_wf stale_b.
Proof.
  apply after_wf; [apply freshNode_wf|]. split; [evaluate|]. intros k e _ Hc.
  assert (commitIndex foll_b = 0) as E by (vm_compute; reflexivity). cbn in Hc. rewrite E in Hc. lia.
Qed.

Lemma HandleAppendEntries_effect_witness :
  entry_at stale_b 3 = Some (mkEntry 1 3 put_x) ∧ accepted_log replace_b stale_b replaced_b ∧
  entry_at replaced_b 2 = Some (mkEntry 2 2 put_y) ∧ entry_at replaced_b 3 = None.
Proof.
  destruct (HandleAppendEntries_effect replace_b stale_b replaced_b (mkAER 2 true) None)
    as [(_ & _ & _ & Ha)|[Hf _]].
  - exact stale_b_wf.
  - evaluate.
  - vm_compute. reflexivity.
  - split; [vm_compute; reflexivity|]. split; [exact Ha|]. split; vm_compute; reflexivity.
  - discriminate Hf.
Defined.

Lemma follower_holds_leader_log_witness :
  ∃ e, entry_at lead_a 2 = Some e ∧ entry_at foll_b1 2 = Some e.
Proof.
  destruct (entry_at lead_a 2) as [e|] eqn:E; [|vm_compute in E; discriminate E].
  exists e. split; [reflexivity|].
  apply (follower_holds_leader_log "b" 1 lead_a foll_b foll_b1 req_b (mkAER 1 true) None 2 e).
  - exact lead_a_wf.
  - apply freshNode_wf.
  - exact logs_match_empty.
  - exact req_b_wf.
  - vm_compute. reflexivity.
  - exact req_b_eq.
  - exact foll_b1_eq.
  - reflexivity.
  - exact E.
  - vm_compute. reflexivity.
Defined.

(** "a" when "b" is known to store both entries, before it looks at them. *)
Definition lead_matched : RaftNode memStore :=
  set_matchIndex (Some (<["b" := 2]> (<["c" := 0]> ∅))) lead_a.

Lemma matched_wf m (n : RaftNode memStore) :
  node_wf n → log_wf (set_matchIndex m n) ∧ index_order (set_matchIndex m n).
Proof. intros (Hl & _ & Ho & _). split; [exact Hl|exact Ho]. Qed.

Lemma commit_rule_witness :
  ∃ n, advanceCommitLocked lead_matched = Ret n ∧ n.(commitIndex) = 2 ∧ n.(commitReady) = true.
Proof.
  destruct (commit_rule lead_matched) as [[E _]|(_ & _ & c & _ & _ & _ & _ & E)].
  - apply matched_wf; exact lead_a_wf.
  - apply matched_wf; exact lead_a_wf.
  - exfalso. assert (∀ m, advanceCommitLocked lead_matched = Ret m → m.(commitIndex) = 2) as Hm.
    { intros m Hm. assert (match advanceCommitLocked lead_matched with
        | Ret m => m.(commitIndex) = 2 | Panic => False end) as Hc by (vm_compute; reflexivity).
      by rewrite Hm in Hc. }
    specialize (Hm _ E). vm_compute in Hm. discriminate Hm.
  - eexists. split; [exact E|]. assert (match advanceCommitLocked lead_matched with
      | Ret m => m.(commitIndex) = 2 | Panic => False end) as Hc by (vm_compute; reflexivity).
    rewrite E in Hc. split; [exact Hc|reflexivity].
Defined.

(** "b" is empty and "a" starts after its last entry: two rejections, then "b" has
    both entries. *)
Definition lead_ahead : RaftNode memStore :=
  set_nextIndex (Some (<["b" := 3]> (<["c" := 1]> ∅))) lead_a.

Lemma next_wf m (n : RaftNode memStore) :
  node_wf n → n.(state) = Leader → dom m = (list_to_set n.(peers) : gset string) →
  (∀ p x, m !! p = Some x → 1 ≤ x ≤ last_index n + 1) → node_wf (set_nextIndex (Some m) n).
Proof.
  intros (Hl & Ht & Ho & Hp) Hs Hd Hb. split_and!; [exact Hl|exact Ht|exact Ho|].
  unfold progress_ok in *. simpl. rewrite Hs in *.
  destruct Hp as (ni & mi & En & Em & Dn & Dm & Bn & Bm). exists m, mi. by split_and!.
Qed.

Lemma lead_ahead_wf : node_wf lead_ahead.
Proof.
  apply next_wf.
  - exact lead_a_wf.
  - vm_compute. reflexivity.
  - vm_compute. reflexivity.
  - assert (last_index lead_a = 2) as -> by (vm_compute; reflexivity). intros q y.
    rewrite !lookup_insert_Some, lookup_empty. naive_solver lia.
Qed.

Lemma lead_ahead_converging : converging "b" 0 3 lead_ahead foll_b.
Proof.
  constructor.
  - exact lead_ahead_wf.
  - apply (freshNode_wf "b" ["a"; "c"]).
  - vm_compute. reflexivity.
  - vm_compute. split; [discriminate|reflexivity].
  - intros y Hy Hpos. assert (y = 1 ∨ y = 2) as [-> | ->] by lia; vm_compute; discriminate.
  - left. reflexivity.
  - vm_compute. reflexivity.
  - vm_compute. discriminate.
Qed.

Lemma backtracking_converges_witness :
  ∃ lead' foll', exchanges 3 "b" lead_ahead foll_b = Ret (lead', foll', Accepted) ∧
    map_get lead'.(matchIndex) "b" = Some 2 ∧ le_Command <$> log foll' = [put_x; put_y].
Proof.
  destruct (backtracking_converges "b" 0 3 lead_ahead foll_b lead_ahead_converging)
    as (lead' & foll' & r & E & Hr).
  change (Z.to_nat (3 - 0)) with 3%nat in E.
  assert (match exchanges 3 "b" lead_ahead foll_b with
    | Ret (_, m, x) => x = Accepted ∧ le_Command <$> log m = [put_x; put_y] | Panic => False end) as Hc
    by (vm_compute; split; reflexivity).
  rewrite E in Hc. destruct Hc as [-> Hc]. exists lead', foll'. split; [exact E|]. split; [|exact Hc].
  destruct Hr as [(e & Hr & _)|[_ (Hm & _)]]; [discriminate Hr|]. rewrite Hm. vm_compute. reflexivity.
Defined.

Lemma BuildAppendEntries_request_witness :
  ∃ req, BuildAppendEntries "b" lead_a = Ret (inl req) ∧ aeq_PrevLogIndex req = 0 ∧
    aeq_PrevLogIndex req + zlen (aeq_Entries req) = 2.
Proof.
  destruct (BuildAppendEntries_request "b" 1 lead_a)
    as (req & Hb & _ & _ & Hp & _ & _ & Hn & _).
  - exact lead_a_wf.
  - vm_compute. reflexivity.
  - exists req. split; [exact Hb|]. rewrite Hn, Hp. vm_compute. split; reflexivity.
Defined.

Lemma leader_append_only_witness : keeps lead_a1 lead_a 1.
Proof.
  apply (leader_append_only (OAppendLocal put_y) lead_a1 lead_a 1).
  - exact lead_a1_wf.
  - evaluate.
  - vm_compute. reflexivity.
  - vm_compute. reflexivity.
  - vm_compute. reflexivity.
Defined.

Lemma positions_monotone_witness : commitIndex lead_a ≤ commitIndex lead_committed.
Proof.
  apply (positions_monotone lead_a lead_committed).
  - exact lead_a_wf.
  - apply rtc_once. apply (after_step (ORecordReplicationSuccess "b" 2)); [exact lead_a_wf|evaluate].
Defined.

Lemma Compact_preserves_witness :
  ∃ n err, Compact put_x lead_applied = Ret (n, err) ∧ n.(lastIncludedIndex) = 1 ∧
    last_index n = last_index lead_applied ∧ entry_at n 2 = entry_at lead_applied 2 ∧
    term_at n 1 = term_at lead_applied 1.
Proof.
  destruct (Compact put_x lead_applied) as [[n err]|] eqn:E.
  - assert (lastIncludedIndex n = 1) as H1.
    { assert (match Compact put_x lead_applied with
        | Ret r => lastIncludedIndex r.1 = 1 | Panic => False end) as Hc by (vm_compute; reflexivity).
      by rewrite E in Hc. }
    destruct (Compact_preserves put_x lead_applied n err lead_applied_wf E)
      as (Hl & _ & _ & He & Ht).
    exists n, err. split_and!; [done|done|done|apply He; lia|apply Ht; lia].
  - exfalso. assert (match Compact put_x lead_applied with
        | Ret r => True | Panic => False end) as Hc by (vm_compute; done). by rewrite E in Hc.
Defined.
