(* ===== verification/StoreTheorems.v ===== *)
(** * StoreTheorems: applying, storing, restarting

    From committed entries to the key-value map, its copy on disk, snapshots and
    restarts; and the stable store that carries a node over a crash. *)
From S2P Require Import Prelude GoStrings Types Membership JsonString Json JsonCodec.
From S2P Require Import MembershipCodec Bolt KVCommand KVStateMachine BoltStore Node NodeInv.
From S2P Require Import Election Heartbeat Proposal NodeStep Replication Applying KVRun.
From S2P Require Import Restart Instances Scenario.

Section applying.
Context {St : Type} `{!StableStore St} `{!MembershipJSON} {SM : Type} `{!StateMachine SM}.
Implicit Types n : RaftNode St.

(** C16. ApplyCommitted returns, and hands the state machine the committed
    entries in log order, each once, none skipped: it applies a segment of the
    log that starts right after the last applied index, and without an error that
    segment reaches the commit index. With an error, the index it reports as
    applied is exactly the entries that went through; the log is untouched. *)
Theorem ApplyCommitted_in_order n (sm : SM) :
  node_wf n →
  ∃ n' sm' err, ApplyCommitted n sm = Ret (n', sm', err) ∧ node_wf n' ∧
    same_log n' n ∧ applied_result n sm n' sm' err.
Proof. apply ApplyCommitted_spec. Qed.

End applying.

Section stores.
Context {St : Type} `{!StableStore St} `{!MembershipJSON}.
Context (storable : PersistentState → Prop) `{!StableStoreLaws St storable}.
Implicit Types n : RaftNode St.

(** Crash recovery. A node that persisted without error and is rebuilt by
    NewRaftNode over the same store has the same term, vote, log, snapshot and
    membership (the command line's peers standing in for an empty stored list),
    starts as a follower at the snapshot's position, and satisfies the invariant
    if it did before. *)
Theorem restart_restores n n' s peers0 :
  node_wf n → n.(store) = Some s → storable (persistentOf n) → persistLocked n = (n', None) →
  ∃ s' r, n'.(store) = Some s' ∧ NewRaftNode n.(nodeID) peers0 (Some s') = inl r ∧
    restored_from peers0 n r ∧ node_wf r.
Proof using All.
  intros Hwf Hst Hok Hp.
  destruct (persist_then_restart storable n n' s peers0 Hst Hok Hp) as (s' & r & ? & ? & _ & Hr).
  exists s', r. split_and!; try done. by eapply restored_wf.
Qed.

End stores.

Section kv.
Context `{!MembershipJSON} {DB : Type} `{!BoltDB DB}.
Context (tx_view : Tx → bolt_view) `{!BoltLaws DB tx_view} `{!MapRange}.
Implicit Types s : KVStateMachine DB.

(** C17. The stable store. What Save writes without error is what Load reads, for
    every state JSON can carry, and what it reads after the file was opened again; a
    Save that fails leaves what Load read before. *)
Theorem BoltRaftStore_durable ps (s s' : BoltRaftStore DB) err :
  BoltStore.Save ps s = (s', err) →
  match err with
  | None => ps_storable ps → BoltStore.Load s' = inl ps ∧
      ∀ Open CloseDB path timeout db db' (s2 : BoltRaftStore DB),
        br_db s' = Some db → reopened tx_view db db' → Open path timeout = inl db' →
        NewBoltRaftStore Open CloseDB path timeout = inl s2 → BoltStore.Load s2 = inl ps
  | Some _ => BoltStore.Load s' = BoltStore.Load s
  end.
Proof using All.
  intros Hs. destruct err as [e|].
  - exact (Save_err (StableStoreLaws := bolt_StableStoreLaws tx_view) ps s s' e Hs).
  - intros Hps.
    pose proof (Save_ok (StableStoreLaws := bolt_StableStoreLaws tx_view) ps s s' Hps Hs) as Hl.
    change (BoltStore.Load s' = inl ps) in Hl. split; [exact Hl|].
    intros Open CloseDB path timeout db db' s2 Hdb Hre Ho Hn. destruct s' as [d]. cbn in Hdb.
    subst d. destruct (View db) as [t|e] eqn:Ht.
    + by rewrite (NewBoltRaftStore_keeps tx_view _ _ _ _ _ _ _ _ Ht Hre Ho Hn).
    + unfold BoltStore.Load in Hl. cbn in Hl. by rewrite Ht in Hl.
Qed.

(** C19. The key-value machine implements the map. A run of entries without error
    leaves the machine with the map that the entries' puts and deletes produce in
    order, in memory and in its database alike. A run with an error stops at one entry,
    because its command is malformed or the database refuses the write: every entry
    before it has been executed, and of that entry nothing, neither in memory nor on
    disk. *)
Theorem kv_run_refines es s s' err :
  mirrored tx_view s → run_entries es s = (s', err) →
  mirrored tx_view s' ∧
  match err with
  | None => kv_data s' = kv_run (kv_data s) (commands es)
  | Some x =>
      ∃ k e s1, es !! k = Some e ∧ isMembership (le_Command e) = false ∧
        run_entries (take k es) s = (s1, None) ∧ KVStateMachine.Apply e s1 = (s', Some x) ∧
        kv_data s' = kv_run (kv_data s) (commands (take k es))
  end.
Proof using All.
  intros Hm Hr. destruct err as [x|]; [|by apply (run_entries_kv tx_view es s s')].
  destruct (run_entries_kv_err tx_view es s s' x Hm Hr) as (k & e & s1 & ? & ? & ? & ? & ? & ?).
  split; [done|]. by exists k, e, s1.
Qed.

(** C20. Replay is harmless. A crash leaves the database with the effect of the
    first entries; after the restart the node applies the whole log again, from
    its start, and the machine ends with the map of one single run. *)
Theorem kv_replay_idempotent db es1 es2 m s s' :
  on_disk tx_view db (kv_run m (commands es1)) → NewBoltKVStateMachine (Some db) = inl s →
  run_entries (es1 ++ es2) s = (s', None) →
  kv_data s' = kv_run m (commands (es1 ++ es2)) ∧ mirrored tx_view s'.
Proof using All. exact (replay_after_restart tx_view db es1 es2 m s s'). Qed.

(** C21. Snapshots. Restoring a snapshot gives the map it was taken from, in
    memory and on disk, whatever the machine held before; if the database refuses,
    both stay as they were; without a database it cannot fail. *)
Theorem snapshot_restores s0 s s' err b :
  utf8_keys (kv_data s0) → KVStateMachine.Snapshot s0 = inl b → mirrored tx_view s →
  KVStateMachine.RestoreSnapshot b s = (s', err) →
  mirrored tx_view s' ∧ kv_data s' = match err with None => kv_data s0 | Some _ => kv_data s end ∧
  (kv_db s = None → err = None).
Proof using All. exact (RestoreSnapshot_spec tx_view s0 s s' err b). Qed.

End kv.

(** C22. Commands survive the log. A valid key-value command whose key is UTF-8,
    encoded, decodes to itself, and is not taken for a membership change; a valid
    membership change whose peer id is UTF-8, encoded, is recognised and decodes to
    itself, and is refused as a key-value command. What either decoder accepts, from
    whatever bytes, is valid. *)
Theorem command_roundtrip :
  (∀ c, KVCommand.Validate c = None → valid_string (cmd_Key c) →
     ∃ b, EncodeCommand c = inl b ∧ DecodeCommand b = inl c ∧ isMembership b = false) ∧
  (∀ c, Membership.Validate c = None → valid_string (mc_PeerID c) →
     ∃ b, EncodeMembershipChange c = inl b ∧ DecodeMembershipChange b = (c, true, None) ∧
       DecodeCommand b = inr (ErrFormat "kv command key is required" [])) ∧
  (∀ b c, DecodeCommand b = inl c → KVCommand.Validate c = None) ∧
  (∀ b c, DecodeMembershipChange b = (c, true, None) → Membership.Validate c = None).
Proof.
  split_and!; [| |apply DecodeCommand_valid|intros b c; apply Decode_valid].
  - intros c Hv Hk. destruct (DecodeCommand_Encode c Hv Hk) as (b & He & Hd).
    exists b. split_and!; [done|done|]. unfold EncodeCommand in He. rewrite Hv in He. simplify_eq.
    apply command_not_membership; [|done].
    unfold KVCommand.Validate in Hv. destruct c as [op k v]. simpl in *.
    unfold OperationNoop, OperationPut, OperationDelete in *.
    repeat case_bool_decide; simpl in *; subst; auto; done.
  - intros c Hv Hid.
    assert (valid_string (mc_Type c)) as Hty.
    { apply Validate_None in Hv as (_ & _ & [-> | ->]); done. }
    destruct (membershipJSON_roundtrip membershipCommandOperation (mc_Type c) (mc_PeerID c))
      as (b & Hm & Hu); [done|done|done|].
    exists b. unfold EncodeMembershipChange. rewrite Hv. split_and!; [done| |].
    + unfold DecodeMembershipChange. rewrite Hu. cbn [mcmd_Operation mcmd_Type mcmd_PeerID].
      rewrite bool_decide_eq_false_2 by tauto.
      destruct c as [ty id]. cbn [mc_Type mc_PeerID] in *. by rewrite Hv.
    + cbn [marshal_membershipCommand goMembershipJSON] in Hm. simplify_eq.
      by apply membership_not_command.
Qed.

(** ** Witnesses *)

Abbreviation memKV := (KVStateMachine memDB).

Definition command_bytes (c : Command) : bytes :=
  match EncodeCommand c with inl b => b | inr _ => [] end.

Definition put_k1 : Command := mkCommand "put" "k" [x01].

Definition put_k2 : Command := mkCommand "put" "k" [x02; x03].

Definition del_k : Command := mkCommand "delete" "k" [].

Definition entries_kv : list LogEntry :=
  [mkEntry 1 1 (command_bytes put_k1); mkEntry 1 2 (command_bytes put_k2)].

(** A machine on an empty database. *)
Definition kv_start : memKV := mkKV ∅ (Some (<["kv" := ∅]> ∅)).

Lemma kv_start_mirrored : mirrored mem_view kv_start.
Proof. eexists. split; [reflexivity|]. vm_compute. reflexivity. Qed.

(** "a" with two key-value entries, both stored by "b" and committed. *)
Definition lead_kv : RaftNode memStore :=
  after (ORecordReplicationSuccess "b" 2)
    (after (OAppendLocal (command_bytes put_k2))
      (after (OAppendLocal (command_bytes put_k1)) lead_a0)).

Lemma lead_kv_wf : node_wf lead_kv.
Proof.
  apply after_wf; [|evaluate]. apply after_wf; [|evaluate].
  apply after_wf; [exact lead_a0_wf|evaluate].
Qed.

Lemma ApplyCommitted_in_order_witness :
  ∃ n' sm', ApplyCommitted lead_kv kv_start = Ret (n', sm', None) ∧
    n'.(lastApplied) = 2 ∧ kv_data sm' !! "k" = Some [x02; x03] ∧
    applied_result lead_kv kv_start n' sm' None.
Proof.
  destruct (ApplyCommitted_in_order lead_kv kv_start lead_kv_wf) as (n' & sm' & err & E & _ & _ & Hr).
  assert (match ApplyCommitted lead_kv kv_start with
          | Ret (n, sm, e) => lastApplied n = 2 ∧ kv_data sm !! "k" = Some [x02; x03] ∧ e = None
          | Panic => False
          end) as Hc by (vm_compute; split_and!; reflexivity).
  rewrite E in Hc. destruct Hc as (H1 & H2 & ->). exists n', sm'. split_and!; done.
Defined.

Lemma restart_restores_witness :
  ∃ n' s' r, persistLocked lead_a = (n', None) ∧ n'.(store) = Some s' ∧
    NewRaftNode "a" ["b"; "c"] (Some s') = inl r ∧ r.(currentTerm) = 1 ∧ r.(votedFor) = "a" ∧
    r.(log) = lead_a.(log) ∧ node_wf r.
Proof.
  destruct (store lead_a) as [s|] eqn:Es; [|vm_compute in Es; discriminate Es].
  destruct (persistLocked lead_a) as [n' [e|]] eqn:Ep.
  { exfalso. assert ((persistLocked lead_a).2 = None) as Hp by (vm_compute; reflexivity).
    rewrite Ep in Hp. discriminate Hp. }
  destruct (restart_restores ps_storable lead_a n' s ["b"; "c"] lead_a_wf Es)
    as (s' & r & Hs & Hn & Hr & Hwf).
  - apply (bool_decide_unpack _). vm_compute. exact I.
  - exact Ep.
  - destruct Hr as (_ & Ht & Hv & Hl & _). exists n', s', r.
    assert (nodeID lead_a = "a") as Hid by (vm_compute; reflexivity). rewrite Hid in Hn.
    split_and!; [reflexivity|exact Hs|exact Hn| | |exact Hl|exact Hwf].
    + rewrite Ht. vm_compute. reflexivity.
    + rewrite Hv. vm_compute. reflexivity.
Defined.

Definition ps_example : PersistentState :=
  mkPS 7 "n1" (Some ["n2"; "n3"]) (Some true) 3 2 [x7b; x7d] [mkEntry 7 4 [xff; x00]].

Lemma BoltRaftStore_durable_witness :
  ∃ s' s2, BoltStore.Save ps_example emptyStore = (s', None) ∧
    NewBoltRaftStore (λ _ _, inl (default ∅ (br_db s'))) (λ db, (db, None)) "raft.db" 0 = inl s2 ∧
    BoltStore.Load s' = inl ps_example ∧ BoltStore.Load s2 = inl ps_example.
Proof.
  destruct (BoltStore.Save ps_example emptyStore) as [s' err] eqn:E.
  assert (err = None) as ->.
  { change err with (s', err).2. rewrite <-E. vm_compute. reflexivity. }
  assert (is_Some (br_db s')) as [db Hdb].
  { change s' with (s', None : error).1. rewrite <-E. vm_compute. by eexists. }
  destruct (NewBoltRaftStore (λ _ _, inl (default ∅ (br_db s'))) (λ db, (db, None)) "raft.db" 0)
    as [s2|e] eqn:En.
  2: { change s' with (s', None : error).1 in En. rewrite <-E in En. vm_compute in En. discriminate En. }
  exists s', s2.
  destruct (BoltRaftStore_durable mem_view ps_example emptyStore s' None E) as [Hl Hre].
  { apply (bool_decide_unpack _). vm_compute. exact I. }
  split; [reflexivity|]. split; [exact En|]. split; [exact Hl|].
  apply (Hre (λ _ _, inl (default ∅ (br_db s'))) (λ db, (db, None)) "raft.db" 0 db db s2 Hdb);
    [intros t Ht; by exists t|by rewrite Hdb|exact En].
Defined.

(** A run of two writes, and one whose second entry is not a command. *)
Lemma kv_run_refines_witness :
  (∃ s', run_entries entries_kv kv_start = (s', None) ∧
    kv_data s' = kv_run ∅ [put_k1; put_k2] ∧ mirrored mem_view s') ∧
  ∃ s' x k, run_entries [mkEntry 1 1 (command_bytes put_k1); mkEntry 1 2 [x21]] kv_start = (s', Some x) ∧
    kv_data s' = kv_run (kv_data kv_start)
      (commands (take k [mkEntry 1 1 (command_bytes put_k1); mkEntry 1 2 [x21]])).
Proof.
  split.
  - destruct (run_entries entries_kv kv_start) as [s' err] eqn:E.
    assert (err = None) as ->.
    { change err with (s', err).2. rewrite <-E. vm_compute. reflexivity. }
    destruct (kv_run_refines mem_view entries_kv kv_start s' None kv_start_mirrored E) as [Hm Hd].
    exists s'. split_and!; [reflexivity| |exact Hm]. rewrite Hd.
    assert (commands entries_kv = [put_k1; put_k2]) as -> by (vm_compute; reflexivity). reflexivity.
  - destruct (run_entries [mkEntry 1 1 (command_bytes put_k1); mkEntry 1 2 [x21]] kv_start)
      as [s' [x|]] eqn:E.
    + destruct (kv_run_refines mem_view _ kv_start s' (Some x) kv_start_mirrored E)
        as (_ & k & e & s1 & _ & _ & _ & _ & Hk).
      exists s', x, k. split; [reflexivity|exact Hk].
    + exfalso. assert (bool_decide ((run_entries [mkEntry 1 1 (command_bytes put_k1); mkEntry 1 2 [x21]]
        kv_start).2 = None) = false) as Hc by (vm_compute; reflexivity).
      rewrite E in Hc. vm_compute in Hc. discriminate Hc.
Defined.

(** The disk has both writes, the log ends with a deletion. *)
Lemma kv_replay_idempotent_witness :
  ∃ s s', NewBoltKVStateMachine (Some (<["kv" := <["k" := [x02; x03]]> ∅]> ∅ : memDB)) = inl s ∧
    run_entries (entries_kv ++ [mkEntry 1 3 (command_bytes del_k)]) s = (s', None) ∧
    kv_data s' = kv_run ∅ [put_k1; put_k2; del_k].
Proof.
  destruct (NewBoltKVStateMachine (Some (<["kv" := <["k" := [x02; x03]]> ∅]> ∅ : memDB)))
    as [s|e] eqn:Hn; [|vm_compute in Hn; discriminate Hn].
  assert (s = mkKV (<["k" := [x02; x03]]> ∅) (Some (<["kv" := <["k" := [x02; x03]]> ∅]> ∅))) as Hs.
  { vm_compute in Hn. injection Hn as <-. reflexivity. }
  destruct (run_entries (entries_kv ++ [mkEntry 1 3 (command_bytes del_k)]) s) as [s' err] eqn:E.
  assert (err = None) as ->.
  { change err with (s', err).2. rewrite <-E, Hs. vm_compute. reflexivity. }
  exists s, s'. split; [reflexivity|]. split; [exact E|].
  destruct (kv_replay_idempotent mem_view (<["kv" := <["k" := [x02; x03]]> ∅]> ∅ : memDB) entries_kv
    [mkEntry 1 3 (command_bytes del_k)] ∅ s s') as [Hd _].
  - eexists. split; [reflexivity|]. vm_compute. reflexivity.
  - exact Hn.
  - exact E.
  - rewrite Hd. vm_compute. reflexivity.
Defined.

Lemma snapshot_restores_witness :
  ∃ (s0 : memKV) b s' err, kv_data s0 = <["k" := [x02; x03]]> (<["a<b" := []]> ∅) ∧
    KVStateMachine.Snapshot s0 = inl b ∧
    KVStateMachine.RestoreSnapshot b kv_start = (s', err) ∧ err = None ∧ kv_data s' = kv_data s0.
Proof.
  pose (s0 := mkKV (<["k" := [x02; x03]]> (<["a<b" := []]> ∅)) None : memKV).
  destruct (KVStateMachine.Snapshot s0) as [b|e] eqn:Eb; [|discriminate Eb].
  destruct (KVStateMachine.RestoreSnapshot b kv_start) as [s' err] eqn:E.
  assert (err = None) as ->.
  { change err with (s', err).2. rewrite <-E.
    assert (b = print (json_of_map (kv_data s0))) as -> by (by injection Eb).
    vm_compute. reflexivity. }
  exists s0, b, s', None. split; [reflexivity|]. split; [exact Eb|]. split; [exact E|].
  split; [reflexivity|].
  destruct (snapshot_restores mem_view s0 kv_start s' None b) as (_ & Hd & _).
  - intros k v Hk. cbn in Hk. rewrite !lookup_insert_Some, lookup_empty in Hk.
    naive_solver.
  - exact Eb.
  - exact kv_start_mirrored.
  - exact E.
  - exact Hd.
Defined.

Lemma command_roundtrip_witness :
  (∃ b, EncodeCommand put_k2 = inl b ∧ DecodeCommand b = inl put_k2 ∧ isMembership b = false) ∧
  ∃ b, EncodeMembershipChange (mkChange "add_peer" "n4") = inl b ∧
    DecodeMembershipChange b = (mkChange "add_peer" "n4", true, None) ∧
    DecodeCommand b = inr (ErrFormat "kv command key is required" []).
Proof.
  destruct command_roundtrip as (Hc & Hm & _).
  split; [apply Hc|apply Hm]; vm_compute; reflexivity.
Defined.
