(* ===== verification/RpcTheorems.v ===== *)
(** * RpcTheorems: calls between nodes

    What a caller learns from a call through the peer client, the generated messages,
    the connection and the server, and what the call did to the peer's node. *)
From S2P Require Import Prelude GoStrings Types Membership JsonString Json JsonCodec.
From S2P Require Import MembershipCodec Bolt BoltStore Node NodeInv Election Heartbeat.
From S2P Require Import Proposal NodeStep NodeFrame Grpc Instances KVStateMachine Cluster.
From S2P Require Import Replication Restart Scenario.

Section calls.
Context {St : Type} `{!StableStore St} `{!MembershipJSON}.
Context (storable : PersistentState → Prop) `{!StableStoreLaws St storable}.
Implicit Types s : Server St.

(** A granted vote returned without an error is in the store. *)
Lemma RequestVote_stored req (n n' : RaftNode St) resp :
  RequestVote req n = (n', (resp, None)) → rvr_VoteGranted resp = true →
  storable (persistentOf n') →
  n'.(currentTerm) = rvq_Term req ∧ n'.(votedFor) = rvq_CandidateID req ∧
  on_disk (λ ps, ps = persistentOf n') n'.
Proof using All.
  intros Hr Hg Hs. destruct (RequestVote_granted _ _ _ _ _ Hr Hg) as (_ & _ & _ & Ht & Hv & _ & Hp).
  rewrite (persist_persistentOf _ n' None Hp) in Hs |- *.
  split_and!; [done|done|]. by apply (persist_stored storable _ n' _ Hp).
Qed.

(** C23. Calls between nodes, over a connection that may fail at any point of a call,
    before the peer or after it, and that turns the peer's errors into its own. A call
    for a peer the client does not know is an error. A RequestVote or AppendEntries
    that returns a response without an error ran, once, on the peer's node, which
    returned that very response and no error; in particular a vote that is returned is
    the peer's vote in that term, in its memory and in its store, so a vote that is not
    on disk is never counted. A call that returns an error carries the zero response,
    and the peer is either as it was or as the operation left it. The peer's election
    timer is reset exactly when AppendEntries ran on it and succeeded, whatever the
    caller learns. A PreVote never changes the peer. *)
Theorem remote_calls c p :
  (c !! p = None → ∀ rv pv ae, is_Some (Client_RequestVote c p rv).2 ∧
     is_Some (Client_PreVote c p pv).2 ∧ is_Some (Client_AppendEntries c p ae).2) ∧
  ∀ client s s', c !! p = Some client →
  (∀ req, carried handle_RequestVote (toProtoRequestVoteRequest req) s s'
      (conn_RequestVote client (toProtoRequestVoteRequest req)) →
    let '(node, (resp, err)) := RequestVote req (srv_node s) in
    let ran := mkServer node (srv_appendReset s) in
    match Client_RequestVote c p req with
    | (r, None) => err = None ∧ r = resp ∧ s' = ran ∧
        (rvr_VoteGranted r = true → storable (persistentOf node) →
         node.(currentTerm) = rvq_Term req ∧ node.(votedFor) = rvq_CandidateID req ∧
         on_disk (λ ps, ps = persistentOf node) node)
    | (r, Some _) => r = mkRVR 0 false ∧ (s' = s ∨ s' = ran)
    end) ∧
  (∀ req, carried Server_AppendEntries (toProtoAppendEntriesRequest req) s s'
      (conn_AppendEntries client (toProtoAppendEntriesRequest req)) →
    match Client_AppendEntries c p req with
    | (r, None) => ∃ node, HandleAppendEntries req (srv_node s) = Ret (node, (r, None)) ∧
        s' = after_append node r None s
    | (r, Some _) => r = mkAER 0 false ∧
        (s' = s ∨ ∃ node resp err, HandleAppendEntries req (srv_node s) = Ret (node, (resp, err)) ∧
           s' = after_append node resp err s)
    end) ∧
  (∀ req, carried handle_PreVote (toProtoPreVoteRequest req) s s'
      (conn_PreVote client (toProtoPreVoteRequest req)) →
    s' = s ∧
    match Client_PreVote c p req with
    | (r, None) => PreVote req (srv_node s) = (r, None)
    | (r, Some _) => r = mkPVR 0 false
    end).
Proof using All.
  split.
  { intros Hc rv pv ae. unfold Client_RequestVote, Client_PreVote, Client_AppendEntries.
    rewrite Hc. split_and!; by eexists. }
  intros client s s' Hc. split_and!.
  - intros req Hca. pose proof (RequestVote_call c p client s s' req Hc Hca) as Hcall.
    destruct (RequestVote req (srv_node s)) as [node [resp err]] eqn:E.
    destruct (Client_RequestVote c p req) as [r [e|]]; [exact Hcall|].
    destruct Hcall as (-> & -> & ->). split_and!; [done..|].
    intros Hg Hs. by apply (RequestVote_stored req (srv_node s) node resp).
  - intros req. by apply (AppendEntries_call c p client s s').
  - intros req. by apply (PreVote_call c p client s s').
Qed.

End calls.

(** ** Witnesses *)

Definition server_b : Server memStore := NewServerWithAppendReset foll_b false.

(** What the server [s] answers, over a connection that loses nothing: the answer, or
    the error as a status. *)
Definition relayed {Resp} (r : option Resp * error) : option Resp * error :=
  match r with
  | (Some resp, None) => (Some resp, None)
  | _ => (None, Some (ErrExternal "rpc error"))
  end.

Definition direct (s : Server memStore) : Conn :=
  mkConn (λ req, relayed (Server_RequestVote req s).2) (λ req, relayed (Server_PreVote req s))
    (λ req, match Server_AppendEntries req s with
            | Ret r => relayed r.2
            | Panic => (None, Some (ErrExternal "rpc error"))
            end).

Lemma relayed_carried {S Req Resp} (handler : Req → S → go (S * (option Resp * error))) req s s' r :
  handler req s = Ret (s', r) → carried handler req s s' (relayed r).
Proof.
  intros Hh. destruct r as [[resp|] [e|]]; try (by eapply carried_failed).
  by apply carried_answer.
Qed.

Definition client_b : PeerClient := {["b" := direct server_b]}.

Definition voting_b : memNode := (RequestVote vote_a foll_b).1.

Lemma voting_b_eq : RequestVote vote_a foll_b = (voting_b, (mkRVR 1 true, None)).
Proof. vm_compute. reflexivity. Qed.

(** "b" votes for "a", accepts its entries and answers its PreVote; "z" is unknown. *)
Lemma remote_calls_witness :
  Client_RequestVote client_b "b" vote_a = (mkRVR 1 true, None) ∧
  on_disk (λ ps, ps = persistentOf voting_b) voting_b ∧
  Client_AppendEntries client_b "b" req_b = (mkAER 1 true, None) ∧
  (∃ node, HandleAppendEntries req_b foll_b = Ret (node, (mkAER 1 true, None)) ∧
     after_append foll_b1 (mkAER 1 true) None server_b = after_append node (mkAER 1 true) None server_b) ∧
  PreVote (mkPVQ 1 "a" 0 0) foll_b = (mkPVR 0 true, None) ∧
  is_Some (Client_RequestVote client_b "z" vote_a).2.
Proof.
  destruct (remote_calls ps_storable (StableStoreLaws0 := bolt_StableStoreLaws mem_view)
    client_b "b") as [_ Hcalls].
  assert (Client_RequestVote client_b "b" vote_a = (mkRVR 1 true, None)) as EV
    by (vm_compute; reflexivity).
  assert (Client_AppendEntries client_b "b" req_b = (mkAER 1 true, None)) as EA
    by (vm_compute; reflexivity).
  split_and!; [exact EV| |exact EA| | |].
  - destruct (Hcalls (direct server_b) server_b (Server_RequestVote (toProtoRequestVoteRequest vote_a) server_b).1
      (lookup_insert_eq ∅ "b" (direct server_b))) as (Hv & _ & _).
    specialize (Hv vote_a). rewrite EV in Hv. cbn [srv_node server_b NewServerWithAppendReset] in Hv.
    rewrite voting_b_eq in Hv. apply Hv; [|reflexivity|].
    + apply relayed_carried. unfold handle_RequestVote.
      by destruct (Server_RequestVote _ _) as [? ?].
    + apply (bool_decide_unpack _). vm_compute. exact I.
  - destruct (Hcalls (direct server_b) server_b (after_append foll_b1 (mkAER 1 true) None server_b)
      (lookup_insert_eq ∅ "b" (direct server_b))) as (_ & Ha & _).
    specialize (Ha req_b). rewrite EA in Ha. apply Ha.
    assert (Server_AppendEntries (toProtoAppendEntriesRequest req_b) server_b =
      Ret (after_append foll_b1 (mkAER 1 true) None server_b,
           (toProtoAppendEntriesResponse (mkAER 1 true), None))) as ES
      by (vm_compute; reflexivity).
    unfold direct. cbn [conn_AppendEntries]. rewrite ES. by apply carried_answer.
  - destruct (Hcalls (direct server_b) server_b server_b
      (lookup_insert_eq ∅ "b" (direct server_b))) as (_ & _ & Hp).
    specialize (Hp (mkPVQ 1 "a" 0 0)).
    assert (Client_PreVote client_b "b" (mkPVQ 1 "a" 0 0) = (mkPVR 0 true, None)) as EP
      by (vm_compute; reflexivity).
    rewrite EP in Hp. apply Hp. by apply (relayed_carried handle_PreVote).
  - apply (remote_calls ps_storable (StableStoreLaws0 := bolt_StableStoreLaws mem_view)
      client_b "z"); [reflexivity|exact (mkPVQ 1 "a" 0 0)|exact req_b].
Defined.
