(* ===== verification/TimerTheorems.v ===== *)
(** * TimerTheorems: the loops around elections and rounds

    The timing constants; what the loop of the election timer does between its receives
    and its elections, as a grammar of its actions; and the loop as an election thread
    of the cluster model. *)
From S2P Require Import Prelude GoStrings Types Membership JsonString Json JsonCodec.
From S2P Require Import MembershipCodec Bolt KVCommand KVStateMachine BoltStore Node NodeInv.
From S2P Require Import Election Heartbeat Proposal Timers NodeStep NodeFrame Cluster Restart.
From S2P Require Import Instances Scenario.

(** C27. Timing. The random election timeout lies between 150 and 300 milliseconds, for
    every source of random numbers, and the heartbeat loop as main starts it ticks at
    least three times within it: two heartbeats in a row can be lost before a follower
    starts an election. *)
Theorem election_timeout_bounds `{Rand} :
  MinElectionTimeout ≤ RandomElectionTimeout ≤ MaxElectionTimeout ∧
  match startHeartbeat false DefaultHeartbeatInterval with
  | BSelect interval => 0 < interval ∧ 3 * interval ≤ RandomElectionTimeout
  | _ => False
  end.
Proof.
  pose proof RandomElectionTimeout_range as [Hlo Hhi]. split; [done|].
  change (startHeartbeat false DefaultHeartbeatInterval) with (BSelect DefaultHeartbeatInterval).
  cbv iota. unfold DefaultHeartbeatInterval, MinElectionTimeout, Millisecond in *. lia.
Qed.

Section timers.
Context {St : Type} `{!StableStore St} `{!MembershipJSON}.
Context (storable : PersistentState → Prop) (members : list string).
Abbreviation Node := (RaftNode St).
Implicit Types (n : Node) (c : Cluster (St := St)).

(** The election thread a timer loop shows to the cluster: its election while one
    runs, a finished one otherwise. *)
Definition shows (pc : timerPC) (th : electionPC) : Prop :=
  match pc with
  | TElect e => th = e
  | _ => ∃ won err, th = EDone won err
  end.

(** Node [i] of the cluster runs the loop at [pc]. *)
Definition runs_loop c (i : string) n (pc : timerPC) : Prop :=
  c.(nodes) !! i = Some n ∧ ∃ th, c.(threads) !! i = Some th ∧ shows pc th.

(** What the network may deliver to the loop's election: votes that were given. *)
Definition deliverable c (pc : timerPC) (ev : timerEvent) : Prop :=
  match pc, ev with
  | TElect (EWait req _ pending _), TVote (Result p (inl resp)) =>
      p ∈ pending ∧ (p, req, resp) ∈ c.(Cluster.answers)
  | TElect (EWait _ _ pending _), TVote (Result p (inr _)) => p ∈ pending
  | _, _ => True
  end.

Lemma record_election_state i pc pc' n' c :
  (record_election i pc pc' n' c).(nodes) = c.(nodes) ∧
  (record_election i pc pc' n' c).(threads) = c.(threads).
Proof. by destruct pc, pc' as [| | | | | | | | | | |[] ?]. Qed.

Lemma stays c i n pc pc' :
  runs_loop c i n pc → (∀ th, shows pc th → shows pc' th) →
  ∃ c', rtc (cluster_step storable members) c c' ∧ runs_loop c' i n pc'.
Proof. intros (? & th & ? & ?) Hs. exists c. split; [reflexivity|]. split; [done|]. exists th. auto. Qed.

Lemma moves_thread c i n pc' th' :
  c.(nodes) !! i = Some n → cluster_step storable members c (set_thread i th' c) → shows pc' th' →
  ∃ c', rtc (cluster_step storable members) c c' ∧ runs_loop c' i n pc'.
Proof.
  intros Hn Hc Hs. exists (set_thread i th' c). split; [by apply rtc_once|]. split; [done|].
  exists th'. split; [|done]. apply lookup_insert_eq.
Qed.

Lemma elects c i n e n' e' :
  runs_loop c i n (TElect e) → electionStep e n = Ret (n', e') → 0 ≤ n.(currentTerm) < two64 - 1 →
  storable (persistentOf n') →
  ∃ c', rtc (cluster_step storable members) c c' ∧ runs_loop c' i n' (TElect e').
Proof.
  intros (Hn & th & Hth & ->) He Ht Hst. eexists. split.
  - apply rtc_once. by eapply (CS_election storable members i n e n' e').
  - set (c1 := set_thread i e' (set_node i n' c)).
    destruct (record_election_state i e e' n' c1) as [En Et]. split.
    + rewrite En. apply lookup_insert_eq.
    + exists e'. rewrite Et. split; [apply lookup_insert_eq|done].
Qed.

(** The loop of RunElectionTimer on a node behaves as an election thread of the cluster
    model: each of its critical sections and receives is a step of the cluster or leaves
    it alone, and so what holds of the cluster holds with the loops running. *)
Theorem timer_refines_thread c i n pc :
  runs_loop c i n pc →
  (∀ clientNil timeout n' pc', timerStep clientNil timeout pc n = Ret (n', pc') →
     0 ≤ n.(currentTerm) < two64 - 1 → storable (persistentOf n') →
     ∃ c', rtc (cluster_step storable members) c c' ∧ runs_loop c' i n' pc') ∧
  (∀ ev, deliverable c pc ev →
     ∃ c', rtc (cluster_step storable members) c c' ∧ runs_loop c' i n (timerRecv pc ev)).
Proof.
  intros Hr. pose proof Hr as (Hn & th & Hth & Hs). split.
  - intros clientNil timeout n' pc' E Ht Hst. destruct pc as [|t tm| |e|err]; cbn [timerStep] in E.
    + simplify_eq. by apply (stays c i n' TArm).
    + simplify_eq. by apply (stays c i n' (TSelect t tm)).
    + destruct Hs as (won & er & ->). case_bool_decide; cbn [negb] in E; simplify_eq.
      * by apply (stays c i n' TState).
      * eapply moves_thread; [done|by eapply CS_start|done].
    + assert (Hgo : (x ← electionStep e n; Ret (x.1, TElect x.2)) = Ret (n', pc') →
        ∃ c', rtc (cluster_step storable members) c c' ∧ runs_loop c' i n' pc').
      { intros ([n1 e1] & He & [= <- <-])%go_bind_inv. by eapply elects. }
      destruct e as [| | | | | | | | | | |won er]; try (by apply Hgo).
      simplify_eq. apply (stays c i n' (TElect (EDone won er))); [done|].
      intros th' ->. destruct er; simpl; eauto.
    + simplify_eq. by apply (stays c i n' (TDone err)).
  - intros ev Hd. destruct pc as [|t tm| |e|err]; try (by apply (stays c i n _ _ Hr)).
    + destruct ev; by apply (stays c i n _ _ Hr).
    + simpl in Hs. subst th. destruct ev as [x| | |ev|ev]; try (by apply (stays c i n _ _ Hr)).
      * eapply moves_thread; [done|by apply CS_prevote|done].
      * destruct e as [| | | | | | |req ps pending votes| | | |];
          try (by apply (stays c i n _ _ Hr)).
        cbn [timerRecv]. destruct ev as [x|p [resp|x]].
        -- eapply moves_thread; [done|by apply CS_vote_ctx|done].
        -- destruct Hd. eapply moves_thread; [done|by apply CS_vote_result|done].
        -- eapply moves_thread; [done|by apply CS_vote_lost|done].
Qed.

End timers.

(** ** The actions of the loop *)

(** One move: a critical section, with what [nextTimeout()] would return, or a
    receive. *)
Inductive timerInput :=
| TSection (timeout : Z)
| TReceive (ev : timerEvent).

(** What the loop does in a move: arm the timer, take one of the three cases of the
    select, read the node's role, a move of StartElection, see its result. *)
Inductive timerAction :=
| Armed (timeout : Z)
| Stopped (c : ContextError)
| WasReset
| Ticked
| Role (s : State)
| Electing
| Returned (won : bool) (err : error).

(** A move of StartElection, on whatever node it finds. *)
Inductive election_move {St} `{!StableStore St} `{!MembershipJSON} : electionPC → electionPC → Prop :=
| EmSection e (n n' : RaftNode St) e' : electionStep e n = Ret (n', e') → election_move e e'
| EmPreVote e ev : election_move e (preVoteRecv e ev)
| EmVote e ev : election_move e (voteRecv e ev).

Section actions.
Context {St : Type} `{!StableStore St} `{!MembershipJSON}.
Implicit Types n : RaftNode St.

Definition timerMove (clientNil : bool) (i : timerInput) (pc : timerPC) n : go (RaftNode St * timerPC) :=
  match i with
  | TSection timeout => timerStep clientNil timeout pc n
  | TReceive ev => Ret (n, timerRecv pc ev)
  end.

(** The action of a move, as its program point and its input show it. *)
Definition action_of (i : timerInput) (pc : timerPC) n : list timerAction :=
  match pc, i with
  | TArm, TSection timeout => [Armed timeout]
  | TSelect _ _, TReceive (TCtxDone c) => [Stopped c]
  | TSelect _ _, TReceive TReset => [WasReset]
  | TSelect _ _, TReceive TFired => [Ticked]
  | TState, TSection _ => [Role n.(state)]
  | TElect (EDone won err), TSection _ => [Returned won err]
  | TElect _, TSection _ | TElect _, TReceive (TPreVote _) | TElect _, TReceive (TVote _) => [Electing]
  | _, _ => []
  end.

(** The loop among the other goroutines: each move finds the node as they left it. *)
Fixpoint runTimer (clientNil : bool) (l : list (timerInput * RaftNode St)) (pc : timerPC)
    : go (timerPC * list timerAction) :=
  match l with
  | [] => Ret (pc, [])
  | (i, n) :: l =>
      x ← timerMove clientNil i pc n;
      y ← runTimer clientNil l x.2;
      Ret (y.1, action_of i pc n ++ y.2)
  end.

(** The actions of an election on a node that did not lead. *)
Definition elects_from (s : State) (d : Z) (k : nat) : list timerAction :=
  [Armed d; Ticked; Role s] ++ replicate k Electing.

(** One iteration of the loop that goes on to the next: the timer was reset, or it fired
    on a leader, or it fired on another node and a whole run of StartElection followed,
    which returned no error. *)
Inductive iteration (clientNil : bool) : list timerAction → Prop :=
| ItReset d : iteration clientNil [Armed d; WasReset]
| ItLeader d : iteration clientNil [Armed d; Ticked; Role Leader]
| ItElected d s k won :
    s ≠ Leader → rtc (election_move (St := St)) (startElectionPC clientNil) (EDone won None) →
    iteration clientNil (elects_from s d k ++ [Returned won None]).

(** The last iteration, and the error the loop ends with: the context's, or the
    election's. *)
Inductive last_iteration (clientNil : bool) : list timerAction → GoError → Prop :=
| LastStopped d c : last_iteration clientNil [Armed d; Stopped c] (ErrContext c)
| LastFailed d s k won e :
    s ≠ Leader → rtc (election_move (St := St)) (startElectionPC clientNil) (EDone won (Some e)) →
    last_iteration clientNil (elects_from s d k ++ [Returned won (Some e)]) e.

(** The actions since the last whole iteration, by program point. *)
Definition unfinished (clientNil : bool) (pc : timerPC) (rest : list timerAction) : Prop :=
  match pc with
  | TArm => rest = []
  | TSelect d _ => rest = [Armed d]
  | TState => ∃ d, rest = [Armed d; Ticked]
  | TElect e => ∃ s d k, s ≠ Leader ∧ rest = elects_from s d k ∧
      rtc (election_move (St := St)) (startElectionPC clientNil) e
  | TDone err => ∃ e, err = Some e ∧ last_iteration clientNil rest e
  end.

(** A trace that fits a program point. *)
Definition fits (clientNil : bool) (pc : timerPC) (t : list timerAction) : Prop :=
  ∃ its rest, t = concat its ++ rest ∧ Forall (iteration clientNil) its ∧ unfinished clientNil pc rest.

Lemma fits_next clientNil pc t its rest a :
  t = concat its ++ rest → Forall (iteration clientNil) its → unfinished clientNil pc (rest ++ a) →
  fits clientNil pc (t ++ a).
Proof. intros -> ? ?. exists its, (rest ++ a). by rewrite app_assoc. Qed.

Lemma fits_whole clientNil t its rest a :
  t = concat its ++ rest → Forall (iteration clientNil) its → iteration clientNil (rest ++ a) →
  fits clientNil TArm (t ++ a).
Proof.
  intros -> ? ?. exists (its ++ [rest ++ a]), []. rewrite concat_app. simpl. rewrite !app_nil_r, app_assoc.
  split_and!; [done|by apply Forall_app; auto|done].
Qed.

Lemma elects_from_snoc s d k : elects_from s d k ++ [Electing] = elects_from s d (S k).
Proof. unfold elects_from. rewrite <-app_assoc. by rewrite <-replicate_cons_app. Qed.

(** A move of the election leaves the trace within its iteration. *)
Lemma fits_electing clientNil e e' t its rest :
  t = concat its ++ rest → Forall (iteration clientNil) its → unfinished clientNil (TElect e) rest →
  election_move (St := St) e e' → fits clientNil (TElect e') (t ++ [Electing]).
Proof.
  intros Ht Hits (s & d & k & Hs & -> & Hr) He. eapply fits_next; [done|done|].
  exists s, d, (S k). split_and!; [done|apply elects_from_snoc|]. by eapply rtc_r.
Qed.

Lemma timerStep_fits clientNil timeout pc n n' pc' t :
  fits clientNil pc t → timerStep clientNil timeout pc n = Ret (n', pc') →
  fits clientNil pc' (t ++ action_of (TSection timeout) pc n).
Proof.
  intros Hf E. pose proof Hf as (its & rest & Ht & Hits & Hu).
  destruct pc as [|d tm| |e|err]; cbn [timerStep] in E.
  - simplify_eq. eapply fits_next; [done|done|]. cbn in Hu. by subst.
  - simplify_eq. cbn. by rewrite app_nil_r.
  - destruct Hu as [d ->]. simplify_eq. cbn [action_of].
    case_bool_decide as Hs; cbn [negb].
    + eapply fits_whole; [done|done|]. cbn. rewrite Hs. apply ItLeader.
    + eapply fits_next; [done|done|]. exists n'.(state), d, O. by split_and!.
  - destruct e as [| | | | | | | | | | |won err];
      try (apply go_bind_inv in E as ([n1 e1] & He & E); cbn [fst snd] in E; simplify_eq;
           cbn [action_of]; by eapply fits_electing; [..|by eapply EmSection]).
    destruct Hu as (s & d & k & Hs & -> & Hr). cbn [action_of].
    destruct err as [x|]; simplify_eq.
    + eapply fits_next; [done|done|]. exists x. split; [done|]. by apply LastFailed.
    + eapply fits_whole; [done|done|]. by apply ItElected.
  - simplify_eq. cbn. by rewrite app_nil_r.
Qed.

Lemma timerRecv_fits clientNil ev pc n t :
  fits clientNil pc t →
  fits clientNil (timerRecv pc ev) (t ++ action_of (TReceive ev) pc n).
Proof.
  intros Hf. pose proof Hf as (its & rest & Ht & Hits & Hu).
  destruct pc as [|d tm| |e|err]; try (cbn; by rewrite app_nil_r).
  - cbn in Hu. subst rest. destruct ev; cbn [timerRecv action_of]; try (by rewrite app_nil_r).
    + eapply fits_next; [done|done|]. eexists. split; [done|]. apply LastStopped.
    + eapply fits_whole; [done|done|]. apply ItReset.
    + eapply fits_next; [done|done|]. by exists d.
  - destruct ev as [x| | |ev|ev]; try (destruct e; cbn; by rewrite app_nil_r).
    + replace (action_of (TReceive (TPreVote ev)) (TElect e) n) with [Electing] by (by destruct e).
      eapply fits_electing; [done|done|done|apply EmPreVote].
    + replace (action_of (TReceive (TVote ev)) (TElect e) n) with [Electing] by (by destruct e).
      eapply fits_electing; [done|done|done|apply EmVote].
Qed.

Lemma runTimer_fits clientNil l pc pc' t t' :
  fits clientNil pc t → runTimer clientNil l pc = Ret (pc', t') → fits clientNil pc' (t ++ t').
Proof.
  revert pc t t'. induction l as [|[i n] l IH]; intros pc t t' Hf E; cbn [runTimer] in E.
  { simplify_eq. by rewrite app_nil_r. }
  apply go_bind_inv in E as ([n1 pc1] & Hm & E). apply go_bind_inv in E as ([pc2 t2] & Hr & E).
  cbn [fst snd] in *. simplify_eq. rewrite app_assoc. apply (IH pc1); [|done].
  destruct i as [timeout|ev]; cbn [timerMove] in Hm; [by eapply timerStep_fits|].
  simplify_eq. by apply timerRecv_fits.
Qed.

(** C26. The election timer. RunElectionTimer among the other goroutines, which change
    the node in any way between its moves: what it does is a sequence of whole
    iterations and an unfinished one. Each iteration arms a timer with the next timeout
    and then takes exactly one case of the select: a reset starts over without an
    election; a tick reads the node's role once, starts over without an election on a
    leader, and on any other node runs StartElection from its start to its end before
    the next timer. The loop returns only when the select receives the end of the
    context, with its error, or when an election returns an error, with that error, and
    it does return then. Outside of StartElection no move changes the node. *)
Theorem election_timer_loop clientNil (l : list (timerInput * RaftNode St)) pc t :
  runTimer clientNil l TArm = Ret (pc, t) →
  (∃ its rest, t = concat its ++ rest ∧ Forall (iteration clientNil) its ∧
     match pc with
     | TArm => rest = []
     | TSelect d _ => rest = [Armed d]
     | TState => ∃ d, rest = [Armed d; Ticked]
     | TElect e => ∃ s d k, s ≠ Leader ∧ rest = elects_from s d k ∧
         rtc (election_move (St := St)) (startElectionPC clientNil) e
     | TDone err => ∃ e, err = Some e ∧ last_iteration clientNil rest e
     end) ∧
  (∀ i q n n' q', timerMove clientNil i q n = Ret (n', q') →
     n' = n ∨ (action_of i q n = [Electing] ∧ ∃ e, q = TElect e)).
Proof.
  intros E. split.
  - apply (runTimer_fits clientNil l TArm pc [] t); [|done]. by exists [], [].
  - intros i q n n' q' Hm. destruct i as [timeout|ev]; cbn [timerMove] in Hm; [|left; by simplify_eq].
    destruct q as [| | |e|]; cbn [timerStep] in Hm; try (left; by simplify_eq).
    destruct e; try (right; cbn; by eauto). left. by simplify_eq.
Qed.

End actions.

(** ** Witnesses *)

(** A source of random numbers that always draws the largest. *)
#[export] Instance lastRand : Rand := { Int63n n := n - 1; Int63n_range := ltac:(intros; lia) }.

Lemma election_timeout_bounds_witness : RandomElectionTimeout = 300 * Millisecond.
Proof.
  destruct (election_timeout_bounds (H := lastRand)) as [[_ Hle] _].
  apply Z.le_antisymm; [exact Hle|]. vm_compute. discriminate.
Defined.

(** "a": the timer fires while it leads, is reset, fires while it follows, and the
    election, which has no client, ends the loop. *)
Definition timer_inputs : list (timerInput * memNode) :=
  [(TSection 200, lead_a0); (TReceive TFired, lead_a0); (TSection 0, lead_a0);
   (TSection 250, lead_a0); (TReceive TReset, lead_a0);
   (TSection 300, foll_b); (TReceive TFired, foll_b); (TSection 0, foll_b); (TSection 0, foll_b)].

Lemma election_timer_loop_witness :
  ∃ its rest,
    [Armed 200; Ticked; Role Leader; Armed 250; WasReset; Armed 300; Ticked; Role Follower;
     Returned false (Some (ErrMessage "vote client is nil"))] = concat its ++ rest ∧
    Forall (iteration (St := memStore) true) its ∧
    ∃ e, Some (ErrMessage "vote client is nil") = Some e ∧
      last_iteration (St := memStore) true rest e.
Proof.
  apply (election_timer_loop true timer_inputs (TDone (Some (ErrMessage "vote client is nil")))).
  vm_compute. reflexivity.
Defined.

(** "a" of the cluster of three, its timer just fired. *)
Lemma timer_refines_thread_witness :
  ∃ c', rtc (cluster_step ps_storable trio) trio_init c' ∧
    runs_loop c' "a" (freshNode "a" ["b"; "c"]) (TElect ESelfCheck).
Proof.
  destruct (timer_refines_thread ps_storable trio trio_init "a" (freshNode "a" ["b"; "c"]) TState)
    as [Hstep _].
  - split; [reflexivity|]. exists (EDone false None). split; [reflexivity|].
    exists false, None. reflexivity.
  - apply (Hstep false 0 (freshNode "a" ["b"; "c"]) (TElect ESelfCheck)).
    + unfold timerStep. assert (state (freshNode "a" ["b"; "c"]) = Follower) as ->
        by (vm_compute; reflexivity). reflexivity.
    + vm_compute. split; [discriminate|reflexivity].
    + apply (bool_decide_unpack _). vm_compute. exact I.
Defined.
