(* ===== verification/HttpTheorems.v ===== *)
(** * HttpTheorems: the properties of the client API (src/client/http.go) *)
From S2P Require Import Prelude GoStrings Types Membership JsonString Json JsonCodec Bolt.
From S2P Require Import MembershipCodec KVCommand KVStateMachine BoltStore Node NodeInv Election.
From S2P Require Import Heartbeat Proposal NodeStep Replication Applying ApplyLoop KVRun Rounds.
From S2P Require Import HttpLib Http HttpRun HttpServe HttpDeadline Instances Cluster Scenario.

(** ** Requests for a key *)

(** A key that a path can name. *)
Definition path_key (key : string) : Prop := key ≠ "" ∧ ContainsByte key x2f = false.

Definition kv_request (method key : string) (body : Stream) : Request :=
  mkRequest method ("/kv/" +:+ key) body.

Lemma kv_mux key : ServeMux api_patterns ("/kv/" +:+ key) = MuxHandler HandleKV.
Proof.
  assert (pattern_matches "/kv/" ("/kv/" +:+ key) = true) as Hkv.
  { unfold pattern_matches. apply orb_true_intro. right. unfold HasPrefix.
    change (match rev (bytes_of_string "/kv/") with x2f :: _ => true | _ => false end) with true.
    cbn [bytes_of_string String.list_byte_of_string rev app].
    apply bool_decide_eq_true_2. rewrite bytes_of_string_app, after_prefix_app. by eexists. }
  unfold ServeMux, api_patterns. cbn [best_pattern]. rewrite Hkv. cbn [andb].
  reflexivity.
Qed.

Section keys.
Context {St : Type} `{!StableStore St} {DB : Type} `{!BoltDB DB} `{!MapRange} `{!URLOps}.

Lemma serve_kv method key body w :
  path_key key →
  serveHTTP (kv_request method key body) w =
  if bool_decide (method = MethodGet) then handleGet key
  else if bool_decide (method = MethodPut) then handlePut (kv_request method key body) w key
  else if bool_decide (method = MethodDelete) then handleDelete w key
  else inl (methodNotAllowed "GET, PUT, DELETE" w).
Proof.
  intros [Hne Hsl]. unfold serveHTTP, kv_request. cbn [r_Path]. rewrite kv_mux.
  unfold handleKV. cbn [r_Path r_Method]. rewrite TrimPrefix_app, Hsl.
  by rewrite bool_decide_eq_false_2.
Qed.

Lemma answered_inj s1 s2 w : answered s1 w → answered s2 w → s1 = s2.
Proof. intros [h1 E1] [h2 E2]. congruence. Qed.

(** Two answers of one response agree on the status: a contradiction here. *)
Ltac clash := match goal with
  | H1 : answered ?x ?w, H2 : answered ?y ?w |- _ =>
      pose proof (answered_inj _ _ _ H1 H2); first [discriminate | subst; set_solver]
  end.

Lemma error_clash text status status' w :
  http_Error text status newWriter = Ret w → 400 ≤ status ≤ 599 → answered status' w →
  status' = status.
Proof.
  intros E Hr Ha. destruct (http_Error_fresh text status newWriter eq_refl Hr) as (w' & E' & Ha' & _).
  rewrite E in E'. simplify_eq. by eapply answered_inj.
Qed.

Implicit Types (n : RaftNode St) (sm : KVStateMachine DB).

(** A PUT that was answered 204 by this node has been completed. *)
Lemma finished_put key body n0 sm0 n sm w :
  path_key key → finished (kv_request MethodPut key body) false n0 sm0 n sm w →
  answered StatusNoContent w →
  ∃ command, EncodeCommand (mkCommand OperationPut key (s_data body)) = inl command ∧
    zlen (s_data body) ≤ maxKVValueBytes ∧ completed command n0 sm0 n sm.
Proof.
  intros Hk Hf Ha. set (r := kv_request MethodPut key body) in *.
  assert (serveHTTP r newWriter = handlePut r newWriter key) as Hserve by (by apply serve_kv).
  assert (Hput : match handlePut r newWriter key with
    | inl (Ret w) => ¬ answered StatusNoContent w
    | inl Panic => True
    | inr pc => ∃ command, EncodeCommand (mkCommand OperationPut key (s_data body)) = inl command ∧
        zlen (s_data body) ≤ maxKVValueBytes ∧
        pc = HPropose (ForWrite (s_data body)) command PStart
    end).
  { unfold handlePut, ReadAllMax, r, kv_request. cbn [r_Body].
    destruct (Z.ltb_spec maxKVValueBytes (zlen (s_data body))).
    - destruct (http_Error _ _ _) eqn:E; [|done]. intros Hc.
      by apply (error_clash _ _ _ _ E) in Hc; [|by compute].
    - destruct (s_err body) as [x|].
      + destruct (http_Error _ _ _) eqn:E; [|done]. intros Hc.
        by apply (error_clash _ _ _ _ E) in Hc; [|by compute].
      + destruct (EncodeCommand _) as [command|x]; [by eauto|].
        destruct (http_Error _ _ _) eqn:E; [|done]. intros Hc.
        by apply (error_clash _ _ _ _ E) in Hc; [|by compute]. }
  rewrite <-Hserve in Hput.
  destruct Hf as [w Hs|w Hs|b command n sm w Hs Hc|key' v n sm w [Hs _]|key' n sm w [Hs _]|
                  st n sm w Hst Hin|res n sm w Hfwd]; try done; try clash.
  - by rewrite Hs in Hput.
  - simpl in Hs. rewrite Hs in Hput. destruct Hput as (command' & ? & ? & [= -> ->]). eauto.
Qed.

(** A GET that was answered 200 or 404 by this node has passed its barrier. *)
Lemma finished_get key body n0 sm0 n sm w :
  path_key key → finished (kv_request MethodGet key body) false n0 sm0 n sm w →
  answered StatusOK w ∨ answered StatusNotFound w →
  completed noopCommand n0 sm0 n sm ∧
  ((answered StatusOK w ∧ ∃ value, kv_data sm !! key = Some value ∧ rw_body w = [Bytes value]) ∨
   (answered StatusNotFound w ∧ kv_data sm !! key = None)).
Proof.
  intros Hk Hf Ha.
  assert (serveHTTP (kv_request MethodGet key body) newWriter = inr (HGetState key)) as Hserve
    by (by apply serve_kv).
  destruct Hf as [w Hs|w Hs|b command n sm w Hs Hc|key' v n sm w [Hs _] Hc Hg|key' n sm w [Hs _] Hc Hg|
                  st n sm w Hst Hin|res n sm w Hfwd]; [by rewrite Hserve in Hs|by rewrite Hserve in Hs| | | | |done].
  - by destruct Ha; clash.
  - rewrite Hserve in Hs. simplify_eq. split; [done|left]. split; [done|]. unfold Get in Hg.
    destruct (kv_data sm !! _); simplify_eq. eauto.
  - rewrite Hserve in Hs. simplify_eq. split; [done|right]. split; [done|]. unfold Get in Hg.
    by destruct (kv_data sm !! _).
  - by destruct Ha; clash.
Qed.

End keys.

Section api.
Context {St : Type} `{!StableStore St} {DB : Type} `{!BoltDB DB} `{!MapRange} `{!URLOps}.
Implicit Types (n : RaftNode St) (sm : KVStateMachine DB).

(** C13. One answer per request. Whatever the other goroutines do to the node and the
    state machine between the sections of a handler, it writes nothing before it is
    done, and when it is done it has sent one status: one of the API's own, or the
    leader's when it forwarded; nothing that happens later changes the response. *)
Theorem one_response a r (l : list (handlerInput * RaftNode St * KVStateMachine DB)) w pc :
  runAmong a r l newWriter HStart = Ret (w, pc) →
  match pc with
  | HDone =>
      (∃ status, answered status w ∧
         (status ∈ api_statuses ∨
          ∃ resp n sm, (Recv (EvForwarded (inl resp)), n, sm) ∈ l ∧ status = hr_StatusCode resp)) ∧
      (∀ l', runAmong a r (l ++ l') newWriter HStart = Ret (w, HDone))
  | _ => w = newWriter
  end.
Proof.
  intros E. destruct (runAmong_effect a r l HStart w pc) as [[Hpc ->]|[-> Hdone]]; [done|done|by destruct pc|].
  split; [|intros l'; by rewrite (runAmong_app _ _ _ _ _ _ _ _ E), runAmong_done].
  destruct Hdone as (i & n & sm & Hin & [[? _]|(_ & status & Ha & Hst)]); [done|].
  exists status. split; [done|]. destruct Hst as [?|(resp & -> & ?)]; eauto 6.
Qed.

(** No input is an answer of another node. *)
Definition served_here (l : list handlerInput) : Prop :=
  Forall input_ok l ∧ Forall (λ i, is_forwarded i = false) l.

Lemma served_finished a r l n0 sm0 n sm w :
  node_wf n0 → last_index n0 < two64 - 2 → served_here l →
  serve a r l n0 sm0 = Ret (n, sm, w, HDone) → node_wf n ∧ finished r false n0 sm0 n sm w.
Proof.
  intros Hwf Hroom [Hok Hf] E. eapply serve_finished; [done|done|done| |done].
  intros i Hi. rewrite Forall_forall in Hf. by rewrite (Hf i Hi).
Qed.

(** The commands of the log after the applied position, up to the end. *)
Definition pending_commands n (es : list LogEntry) : Prop :=
  zlen es = last_index n - n.(lastApplied) ∧ log_segment n (n.(lastApplied) + 1) es.

Lemma noop_command e : le_Command e = noopCommand → command_of e = Some (mkCommand OperationNoop "" []).
Proof. unfold command_of. intros ->. vm_compute. reflexivity. Qed.

(** The command of a PUT with a UTF-8 key, as the state machine reads it. *)
Lemma put_command key value command n :
  key ≠ "" → valid_string key → EncodeCommand (mkCommand OperationPut key value) = inl command →
  command_of (local_entry n command) = Some (mkCommand OperationPut key value).
Proof.
  intros Hne Hu Henc. set (c := mkCommand OperationPut key value) in *.
  assert (KVCommand.Validate c = None) as Hv.
  { unfold KVCommand.Validate, c. cbn [cmd_Operation cmd_Key].
    by rewrite (bool_decide_eq_false_2 (key = "")). }
  destruct (DecodeCommand_Encode c Hv Hu) as (b & Eb & Hd).
  unfold command_of. cbn [le_Command local_entry]. rewrite Eb in Henc. apply (inj inl) in Henc as <-. rewrite Hd.
  assert (isMembership b = false) as ->; [|done].
  unfold EncodeCommand in Eb. rewrite Hv in Eb. apply (inj inl) in Eb as <-.
  apply command_not_membership; [by left|done].
Qed.

(** C8. The read barrier. A GET that the leader answers itself with 200 or 404, served
    from start to end with nobody else running on its node (no heartbeat, other request,
    RPC or apply loop between its sections; peers answer as they like), has
    committed a no-op of the leader's own term at the end of the log, has applied the
    whole log up to it, and answers from that map: every write in the log when the
    read began is in it, in log order. *)
Theorem read_barrier a key body l n0 sm0 n sm w :
  node_wf n0 → last_index n0 < two64 - 2 → path_key key → served_here l →
  serve a (kv_request MethodGet key body) l n0 sm0 = Ret (n, sm, w, HDone) →
  answered StatusOK w ∨ answered StatusNotFound w →
  n0.(state) = Leader ∧ entry_at n (last_index n) = Some (local_entry n0 noopCommand) ∧
  last_index n = last_index n0 + 1 ∧ n.(commitIndex) = last_index n ∧
  n.(lastApplied) = last_index n ∧
  ∃ es, pending_commands n0 es ∧ kv_data sm = kv_run (kv_data sm0) (commands es) ∧
    ((answered StatusOK w ∧ ∃ value, kv_data sm !! key = Some value ∧ rw_body w = [Bytes value]) ∨
     (answered StatusNotFound w ∧ kv_data sm !! key = None)).
Proof.
  intros Hwf Hroom Hk Hl E Ha.
  destruct (served_finished _ _ _ _ _ _ _ _ Hwf Hroom Hl E) as [Hn Hf].
  destruct (finished_get _ _ _ _ _ _ _ Hk Hf Ha) as [Hc Hans].
  destruct (completed_spec _ _ _ _ _ Hwf Hroom Hc) as (? & ? & ? & ? & ? & es & ? & ? & Hrun).
  split_and!; try done. exists es. split_and!; try done.
  by rewrite (run_entries_data _ _ _ Hrun),
    (commands_snoc _ _ _ (noop_command (local_entry n0 noopCommand) eq_refl)), kv_run_noop.
Qed.

(** C9. Read your write. For a key that is valid UTF-8 (others are lost:
    [invalid_utf8_key_lost]), on a leader on which nothing else runs: after a PUT that it
    answered with 204, a GET of the key, served next, that it answers with 200 or 404
    answers 200 with the value that was put. *)
Theorem put_then_get a key value body l1 l2 n0 sm0 n1 sm1 w1 n2 sm2 w2 :
  node_wf n0 → last_index n0 < two64 - 3 → path_key key → valid_string key →
  served_here l1 → served_here l2 →
  serve a (kv_request MethodPut key (mkStream value None)) l1 n0 sm0 = Ret (n1, sm1, w1, HDone) →
  answered StatusNoContent w1 →
  serve a (kv_request MethodGet key body) l2 n1 sm1 = Ret (n2, sm2, w2, HDone) →
  answered StatusOK w2 ∨ answered StatusNotFound w2 →
  answered StatusOK w2 ∧ rw_body w2 = [Bytes value].
Proof.
  intros Hwf Hroom Hk Hu Hl1 Hl2 E1 Ha1 E2 Ha2.
  destruct (served_finished _ _ _ _ _ _ _ _ Hwf ltac:(lia) Hl1 E1) as [Hn1 Hf1].
  destruct (finished_put _ _ _ _ _ _ _ Hk Hf1 Ha1) as (command & Henc & _ & Hc1).
  destruct (completed_spec _ _ _ _ _ Hwf ltac:(lia) Hc1)
    as (_ & Hli & _ & _ & Hla & es & _ & _ & Hrun).
  assert (kv_data sm1 !! key = Some value) as Hv.
  { rewrite (run_entries_data _ _ _ Hrun), (commands_snoc _ _ (mkCommand OperationPut key value)).
    - apply kv_run_put.
    - apply put_command; [apply Hk|exact Hu|exact Henc]. }
  destruct (served_finished _ _ _ _ _ _ _ _ Hn1 ltac:(lia) Hl2 E2) as [_ Hf2].
  destruct (finished_get _ _ _ _ _ _ _ Hk Hf2 Ha2) as [Hc2 Hans].
  destruct (completed_spec _ _ _ _ _ Hn1 ltac:(lia) Hc2) as (_ & _ & _ & _ & _ & es2 & Hlen & _ & Hrun2).
  assert (kv_data sm2 = kv_data sm1) as Hsame.
  { rewrite (run_entries_data _ _ _ Hrun2),
      (commands_snoc _ _ _ (noop_command (local_entry n1 noopCommand) eq_refl)), kv_run_noop.
    destruct es2; [done|]. rewrite zlen_cons in Hlen. pose proof (zlen_nonneg es2). lia. }
  rewrite Hsame, Hv in Hans. destruct Hans as [(? & v & [= <-] & ?)|[_ ?]]; done.
Qed.

(** C24. The deadline. Take a request served with nobody else running on the node,
    wherever it is when the context of its proposal ends, and let it go on in any way
    that Go allows from then on: sections see the error, a select takes the end of the
    context or something else that is ready (the result of a peer, a retry timer), and a
    forwarded call, which does not depend on this context, ends with an answer or with
    an error of its own client. Then no move panics, until the request is answered there
    is a next move, and it is answered after at most [rank] moves and nine for every
    retry timer that was taken instead of the end of the context: [rank] counts four
    moves per entry to apply, four per peer whose result is outstanding and a
    constant. *)
Theorem deadline_answers a r l n0 sm0 s c k s' :
  node_wf n0 → last_index n0 < two64 - 2 → Forall input_ok l →
  serve a r l n0 sm0 = Ret s → overdue_run a r c k s s' →
  zlen k ≤ rank s + 9 * ticks k ∧
  ((s'.2 = HDone ∧ ∃ status, answered status s'.1.2) ∨
   (s'.2 ≠ HDone ∧ zlen k < rank s + 9 * ticks k ∧
    (∃ i, overdue c s'.2 i ∧ is_tick i = false) ∧
    ∀ i, overdue c s'.2 i → ∃ s'', handlerMove a r i s' = Ret s'')).
Proof.
  intros Hwf Hroom Hok E Hk.
  assert (hinv r true n0 sm0 s) as Hi.
  { refine (runHandler_keeps a r n0 sm0 Hwf Hroom true l (n0, sm0, newWriter, HStart) s Hok _ _ E);
      [done|]. by split_and!. }
  destruct (overdue_run_spec a r n0 sm0 Hwf Hroom c k s s' Hi Hk) as [Hi' Hb].
  pose proof (rank_nonneg r n0 sm0 true s' Hi'). split; [lia|].
  assert (s'.2 = HDone ∨ s'.2 ≠ HDone) as [Hd|Hd] by (destruct s'.2; auto).
  - left. split; [done|]. destruct s' as [[[n sm] w] pc]. cbn [snd fst] in *. subst pc.
    exact (finished_answered _ _ _ _ _ _ _ (proj2 Hi')).
  - right. split; [done|]. destruct (overdue_next c s'.2 Hd) as (i & Hi0 & Ht).
    assert (Hm := overdue_move a r n0 sm0 Hwf Hroom c).
    split_and!; [|by eauto|intros j Hj; destruct (Hm j s' Hi' Hj) as (s'' & ? & _); by eauto].
    destruct (Hm i s' Hi' Hi0) as (s'' & _ & Hi'' & Hr). unfold budget in Hr. rewrite Ht in Hr.
    pose proof (rank_nonneg r n0 sm0 true s'' Hi''). lia.
Qed.

(** A node that does not lead stores nothing: whatever request it gets and however
    far it has served it, its log, its durable state and its map are untouched. *)
Theorem follower_untouched a r l n0 sm0 n sm w pc :
  node_wf n0 → last_index n0 < two64 - 2 → n0.(state) ≠ Leader → Forall input_ok l →
  serve a r l n0 sm0 = Ret (n, sm, w, pc) → n = n0 ∧ sm = sm0.
Proof.
  intros Hwf Hroom Hs Hok E.
  assert (hinv r true n0 sm0 (n, sm, w, pc)) as Hi.
  { refine (runHandler_keeps a r n0 sm0 Hwf Hroom true l (n0, sm0, newWriter, HStart) _ Hok _ _ E);
      [done|]. by split_and!. }
  by eapply hinv_follower.
Qed.

(** ** Forwarding *)

Lemma runHandler_app a r l k (s s' : hstate (St := St) (DB := DB)) :
  runHandler a r l s = Ret s' → runHandler a r (l ++ k) s = runHandler a r k s'.
Proof.
  revert s. induction l as [|i l IH]; intros s E; cbn [app runHandler] in *; [by simplify_eq|].
  apply go_bind_inv in E as (s1 & -> & E). rewrite go_bind_Ret. by apply IH.
Qed.

(** A node that does not lead reaches forwardToLeader with the request's body. *)
Definition forwarded_body (method : string) (value : bytes) : bytes :=
  if bool_decide (method = MethodPut) then value else [].

Lemma EncodeCommand_key op key value :
  key ≠ "" → op = OperationPut ∨ op = OperationDelete →
  ∃ command, EncodeCommand (mkCommand op key value) = inl command.
Proof.
  intros Hne Hop. unfold EncodeCommand, KVCommand.Validate. cbn [cmd_Operation cmd_Key].
  rewrite (bool_decide_eq_false_2 (key = "")) by done. destruct Hop as [-> | ->]; eexists; reflexivity.
Qed.

Lemma reach_forwarding a key method value n0 sm0 :
  n0.(state) ≠ Leader → path_key key → method ∈ [MethodGet; MethodPut; MethodDelete] →
  zlen value ≤ maxKVValueBytes →
  ∃ k, (k ≤ 4)%nat ∧
    serve a (kv_request method key (mkStream value None)) (replicate k (Step None)) n0 sm0 =
    Ret (n0, sm0, newWriter, HLeaderID (forwarded_body method value)).
Proof.
  intros Hs Hk Hm Hv. set (r := kv_request method key (mkStream value None)).
  assert (Hprop : ∀ b command, serveHTTP r newWriter = inr (HPropose (ForWrite b) command PStart) →
    serve a r (replicate 4 (Step None)) n0 sm0 = Ret (n0, sm0, newWriter, HLeaderID b)).
  { intros b command Hr. unfold serve. cbn [replicate runHandler handlerMove handlerStep].
    rewrite Hr, go_bind_Ret. cbn [handlerStep proposeStep]. rewrite ?go_bind_Ret.
    cbn [handlerStep proposeStep fst snd]. rewrite bool_decide_eq_false_2 by done.
    rewrite ?go_bind_Ret. reflexivity. }
  pose proof (serve_kv method key (mkStream value None) newWriter Hk) as Hserve. fold r in Hserve.
  unfold forwarded_body. repeat (apply elem_of_cons in Hm as [->|Hm]); [..|by apply elem_of_nil in Hm].
  - assert (serveHTTP r newWriter = inr (HGetState key)) as Hg by exact Hserve.
    exists 2%nat. split; [lia|]. unfold serve. cbn [replicate runHandler handlerMove handlerStep].
    rewrite Hg, go_bind_Ret. cbn [handlerStep]. rewrite bool_decide_eq_false_2 by done. reflexivity.
  - exists 4%nat. split; [lia|].
    destruct (EncodeCommand_key OperationPut key value (proj1 Hk)) as [command Hc]; [by left|].
    apply (Hprop value command). rewrite Hserve. cbn. unfold handlePut, ReadAllMax. cbn.
    rewrite (proj2 (Z.ltb_ge _ _)) by done. by rewrite Hc.
  - exists 4%nat. split; [lia|].
    destruct (EncodeCommand_key OperationDelete key [] (proj1 Hk)) as [command Hc]; [by right|].
    apply (Hprop [] command). rewrite Hserve. cbn. unfold handleDelete. by rewrite Hc.
Qed.

Lemma idle_forwarding a r k l n sm w lid meth target body :
  runHandler (St := St) (DB := DB) a r (replicate k (Step None) ++ l) (n, sm, w, HForward lid meth target body) =
  runHandler a r l (n, sm, w, HForward lid meth target body).
Proof. induction k as [|k IH]; [done|]. exact IH. Qed.

(** The body that is relayed: nothing for a status without a body, else the data up to
    the limit. *)
Definition relayed_body (status : Z) (data : bytes) : list chunk :=
  match take (Z.to_nat maxForwardResponseBytes) data with
  | [] => []
  | b => if bodyAllowedForStatus status then [Bytes b] else []
  end.

(** The leader's answer becomes the node's, up to the limit. *)
Lemma relay_data status h data :
  200 ≤ status ≤ 999 →
  ∃ w, relay (Forward_result (inl (mkHttpResponse status h (mkStream data None)))) newWriter = Ret w ∧
    rw_sent w = Some (status, h) ∧ rw_body w = relayed_body status data.
Proof.
  intros Hst. unfold relayed_body. unfold Forward_result, ReadAllLimit. cbn [hr_Body hr_StatusCode hr_Header s_data s_err].
  assert (0 < maxForwardResponseBytes) as Hlim by done.
  revert Hlim. generalize maxForwardResponseBytes. intros lim Hlim.
  assert (∃ b, (if lim + 1 <=? zlen data then inl (take (Z.to_nat (lim + 1)) data) else inl data) =
    (inl b : bytes + GoError) ∧ (if lim <? zlen b then take (Z.to_nat lim) b else b) = take (Z.to_nat lim) data)
    as (b & Eb & Etake).
  { destruct (Z.leb_spec (lim + 1) (zlen data)); eexists; (split; [reflexivity|]).
    - unfold zlen in *. rewrite length_take. rewrite (proj2 (Z.ltb_lt _ _)) by lia.
      rewrite take_take. by replace (Z.to_nat lim `min` Z.to_nat (lim + 1))%nat with (Z.to_nat lim) by lia.
    - destruct (Z.ltb_spec lim (zlen data)); [done|]. symmetry. apply take_ge. unfold zlen in *. lia. }
  rewrite Eb. cbn [relay fr_StatusCode fr_Header fr_Body]. rewrite Etake.
  rewrite WriteHeader_fresh by (done || lia). rewrite go_bind_Ret.
  erewrite Write_sent by reflexivity. eexists. split; [done|].
  cbn [rw_Header rw_sent rw_body Header_AddAll newWriter].
  rewrite (left_id_L ∅ (union_with _)).
  destruct (take (Z.to_nat lim) data), (bodyAllowedForStatus status); by split.
Qed.

(** C25. Forwarding. A node that does not lead and knows the leader and its address
    sends a GET, PUT or DELETE of a key on to that leader, with the same method and
    path and the body of a PUT, stores nothing, and answers with the leader's status and
    exactly its headers, and with the first 64 KiB of its body, or without a body when
    the leader's is empty or the status has none, as the 204 of a write. So a value of more than 64 KiB, which a PUT accepts up to 1 MiB, comes back
    cut off from every node but the leader, with status 200. *)
Theorem forwarded_request a f key method value addr base status h data n0 sm0 :
  a.(leaderForwarder) = Some f → httpAddrs f !! n0.(leaderID) = Some addr →
  url_Parse addr = inl base → http_NewRequest method (url_Resolve base ("/kv/" +:+ key)) = None →
  n0.(state) ≠ Leader → n0.(leaderID) ≠ "" → n0.(leaderID) ≠ n0.(nodeID) →
  path_key key → method ∈ [MethodGet; MethodPut; MethodDelete] → zlen value ≤ maxKVValueBytes →
  200 ≤ status ≤ 999 →
  let r := kv_request method key (mkStream value None) in
  let resp := mkHttpResponse status h (mkStream data None) in
  serve a r (replicate 6 (Step None)) n0 sm0 =
    Ret (n0, sm0, newWriter, HForward n0.(leaderID) method (url_Resolve base ("/kv/" +:+ key))
                               (forwarded_body method value)) ∧
  ∃ w, serve a r (replicate 6 (Step None) ++ [Recv (EvForwarded (inl resp))]) n0 sm0 =
         Ret (n0, sm0, w, HDone) ∧
    rw_sent w = Some (status, h) ∧ rw_body w = relayed_body status data.
Proof.
  intros Hf Haddr Hbase Hnew Hs Hne Hself Hk Hm Hv Hst r resp.
  destruct (reach_forwarding a key method value n0 sm0 Hs Hk Hm Hv) as (k & Hk4 & Hreach). fold r in Hreach.
  assert (Hgo : ∀ l, runHandler a r (replicate (6 - k) (Step None) ++ l)
      (n0, sm0, newWriter, HLeaderID (forwarded_body method value)) =
    runHandler a r l (n0, sm0, newWriter, HForward n0.(leaderID) method
      (url_Resolve base ("/kv/" +:+ key)) (forwarded_body method value))).
  { intros l. replace (6 - k)%nat with (2 + (4 - k))%nat by lia.
    change (replicate (2 + (4 - k)) (Step None))
      with (Step None :: Step None :: replicate (4 - k) (Step None)).
    cbn [app runHandler handlerMove handlerStep]. rewrite Hf, go_bind_Ret.
    cbn [handlerStep]. rewrite Hf, bool_decide_eq_false_2, bool_decide_eq_false_2 by done. cbn [orb].
    unfold Forward_target. rewrite Haddr, Hbase. cbn [r_Method r_Path r kv_request]. rewrite Hnew.
    rewrite go_bind_Ret. apply idle_forwarding. }
  assert (Hall : ∀ l, serve a r (replicate 6 (Step None) ++ l) n0 sm0 =
    runHandler a r l (n0, sm0, newWriter, HForward n0.(leaderID) method
      (url_Resolve base ("/kv/" +:+ key)) (forwarded_body method value))).
  { intros l. replace 6%nat with (k + (6 - k))%nat by lia. rewrite replicate_add, <-app_assoc.
    unfold serve. rewrite (runHandler_app _ _ _ _ _ _ Hreach). apply Hgo. }
  split; [rewrite <-(app_nil_r (replicate 6 (Step None))); by rewrite Hall|].
  destruct (relay_data status h data Hst) as (w & Hw & ? & ?).
  exists w. split; [|done]. rewrite Hall. cbn [runHandler handlerMove handlerRecv].
  unfold answer, resp. by rewrite Hw.
Qed.

End api.

(** ** Concrete requests *)

(** URLs kept as text: enough to resolve a path against a base. *)
#[export] Instance textURL : URLOps := {
  URL := string;
  url_Parse s := if bool_decide (s = "") then inr (ErrExternal "empty url") else inl s;
  url_Resolve base path := base +:+ path;
  http_NewRequest _ _ := None;
}.

(** A cluster of one: "a" leads term 1. *)
Definition solo : memNode := after (OPromote 1) (after OBecomeCandidate (freshNode "a" [])).

Lemma solo_wf : node_wf solo.
Proof. apply after_wf; [apply after_wf; [apply freshNode_wf|exact I]|exact I]. Qed.

Lemma solo_room : last_index solo < two64 - 3.
Proof. vm_compute. reflexivity. Qed.

Definition solo_api : API := NewHTTPHandler false.

Definition steps (k : nat) : list handlerInput := replicate k (Step None).

(** A request served on a node: what it leaves, or the state it started in. *)
Definition after_serve (a : API) (r : Request) (l : list handlerInput) (n : memNode)
    (sm : KVStateMachine memDB) : memNode * KVStateMachine memDB * ResponseWriter * handlerPC :=
  match serve a r l n sm with Ret s => s | Panic => (n, sm, newWriter, HStart) end.

Definition after_moves (a : API) (r : Request) (l : list handlerInput)
    (s : memNode * KVStateMachine memDB * ResponseWriter * handlerPC) :=
  match runHandler a r l s with Ret s => s | Panic => s end.

Definition put_k : Request := kv_request MethodPut "k" (mkStream [x01; x02] None).

Definition get_k : Request := kv_request MethodGet "k" (mkStream [] None).

Definition put_done := after_serve solo_api put_k (steps 14) solo kv_disk.

Definition get_done := after_serve solo_api get_k (steps 16) put_done.1.1.1 put_done.1.1.2.

#[local] Opaque solo put_done get_done.

(** The key that the path /kv/%FF names. *)
Definition ff_key : string := string_of_bytes [xff].

Definition put_ff := after_serve solo_api (kv_request MethodPut ff_key (mkStream [x01] None)) (steps 14)
  solo kv_disk.

Definition get_ff := after_serve solo_api (kv_request MethodGet ff_key (mkStream [] None)) (steps 16)
  put_ff.1.1.1 put_ff.1.1.2.

(** A key that is not UTF-8 is accepted and lost: the PUT is answered with 204,
    the command goes through JSON, which replaces the key by U+FFFD, and the GET of the
    key that was put is answered with 404. *)
Theorem invalid_utf8_key_lost :
  put_ff.2 = HDone ∧ fst <$> rw_sent put_ff.1.2 = Some StatusNoContent ∧
  get_ff.2 = HDone ∧ fst <$> rw_sent get_ff.1.2 = Some StatusNotFound ∧
  kv_data get_ff.1.1.2 !! string_of_bytes [xef; xbf; xbd] = Some [x01].
Proof. vm_compute. repeat split; reflexivity. Qed.

(** ** Witnesses *)

Lemma put_done_eq : serve solo_api put_k (steps 14) solo kv_disk =
  Ret (put_done.1.1.1, put_done.1.1.2, put_done.1.2, HDone).
Proof. vm_compute. reflexivity. Qed.

Lemma get_done_eq : serve solo_api get_k (steps 16) put_done.1.1.1 put_done.1.1.2 =
  Ret (get_done.1.1.1, get_done.1.1.2, get_done.1.2, HDone).
Proof. vm_compute. reflexivity. Qed.

Lemma steps_here k : served_here (steps k).
Proof. split; apply Forall_forall; intros i [-> _]%elem_of_replicate; done. Qed.

Lemma k_path_key : path_key "k".
Proof. split; [done|vm_compute; reflexivity]. Qed.

Lemma put_done_answered : answered StatusNoContent put_done.1.2.
Proof. eexists. vm_compute. reflexivity. Qed.

Lemma get_done_answered : answered StatusOK get_done.1.2.
Proof. eexists. vm_compute. reflexivity. Qed.

(** A handler that answers while its node is replaced under it: the member list. *)
Definition list_members : Request := mkRequest MethodGet "/cluster/members" (mkStream [] None).

Lemma one_response_witness :
  ∃ w status, runAmong solo_api list_members
    [(Step None, solo, kv_disk); (Step None, lead_a, kv_disk); (Step None, foll_b, kv_disk)]
    newWriter HStart = Ret (w, HDone) ∧ answered status w.
Proof.
  destruct (runAmong solo_api list_members
    [(Step None, solo, kv_disk); (Step None, lead_a, kv_disk); (Step None, foll_b, kv_disk)]
    newWriter HStart) as [[w pc]|] eqn:E; [|vm_compute in E; discriminate E].
  assert (pc = HDone) as ->.
  { assert (match runAmong solo_api list_members
      [(Step None, solo, kv_disk); (Step None, lead_a, kv_disk); (Step None, foll_b, kv_disk)]
      newWriter HStart with Ret x => x.2 = HDone | Panic => False end) as Hd
      by (vm_compute; reflexivity). by rewrite E in Hd. }
  destruct (one_response _ _ _ _ _ E) as [(status & Ha & _) _]. exists w, status. split; [done|exact Ha].
Defined.

Lemma read_barrier_witness :
  lastApplied get_done.1.1.1 = last_index get_done.1.1.1 ∧
  last_index get_done.1.1.1 = last_index put_done.1.1.1 + 1.
Proof.
  destruct (served_finished solo_api put_k (steps 14) solo kv_disk _ _ _ solo_wf
    ltac:(pose proof solo_room; lia) (steps_here 14) put_done_eq) as [Hwf _].
  destruct (read_barrier solo_api "k" (mkStream [] None) (steps 16) put_done.1.1.1 put_done.1.1.2
    get_done.1.1.1 get_done.1.1.2 get_done.1.2) as (_ & _ & Hl & _ & Ha & _).
  - exact Hwf.
  - vm_compute. reflexivity.
  - exact k_path_key.
  - exact (steps_here 16).
  - exact get_done_eq.
  - left. exact get_done_answered.
  - split; [exact Ha|exact Hl].
Defined.

Lemma put_then_get_witness : rw_body get_done.1.2 = [Bytes [x01; x02]].
Proof.
  destruct (put_then_get solo_api "k" [x01; x02] (mkStream [] None) (steps 14) (steps 16) solo kv_disk
    put_done.1.1.1 put_done.1.1.2 put_done.1.2 get_done.1.1.1 get_done.1.1.2 get_done.1.2)
    as [_ Hb].
  - exact solo_wf.
  - exact solo_room.
  - exact k_path_key.
  - vm_compute. reflexivity.
  - exact (steps_here 14).
  - exact (steps_here 16).
  - exact put_done_eq.
  - exact put_done_answered.
  - exact get_done_eq.
  - left. exact get_done_answered.
  - exact Hb.
Defined.

(** "a" leads "b" and "c", which do not answer: the request waits for them. The
    deadline passes, "b" answers all the same, with an error, and then the select takes
    the end of the context. *)
Definition put_waiting := after_serve solo_api put_k (steps 11) lead_a0 kv_disk.

Definition late_moves : list handlerInput :=
  [Recv (EvPropose (PResult (Result "b" (inr (ErrExternal "unavailable")))));
   Recv (EvPropose (PResult (CtxDone DeadlineExceeded)));
   Step (Some DeadlineExceeded); Step (Some DeadlineExceeded)].

Definition put_late := after_moves solo_api put_k late_moves put_waiting.

#[local] Opaque put_waiting put_late.

Lemma late_run : overdue_run solo_api put_k DeadlineExceeded late_moves put_waiting put_late.
Proof.
  eapply OrMove; [| |eapply OrMove; [| |eapply OrMove; [| |eapply OrMove; [| |]]]].
  1: { vm_compute. apply OdResult; [eexists; reflexivity|exact I]. }
  1: vm_compute; reflexivity.
  1: apply OdRoundOver.
  1: reflexivity.
  1: by apply OdSection.
  1: reflexivity.
  1: by apply OdSection.
  1: vm_compute; reflexivity.
  match goal with |- overdue_run _ _ _ _ ?x _ =>
    assert (x = put_late) as -> by (vm_compute; reflexivity) end.
  apply OrNil.
Qed.

Lemma deadline_answers_witness :
  (match put_waiting.2 with HPropose _ _ (PReplicate _ (RWait l)) => length l = 2%nat | _ => False end) ∧
  put_late.2 = HDone ∧ ∃ status, answered status put_late.1.2.
Proof.
  split; [vm_compute; reflexivity|].
  destruct (deadline_answers solo_api put_k (steps 11) lead_a0 kv_disk put_waiting DeadlineExceeded
    late_moves put_late) as [_ [H|[H _]]].
  - exact lead_a0_wf.
  - vm_compute. reflexivity.
  - exact (proj1 (steps_here 11)).
  - vm_compute. reflexivity.
  - exact late_run.
  - exact H.
  - exfalso. apply H. vm_compute. reflexivity.
Defined.

(** "b" follows "a" and knows where its API is. *)
Definition follower : memNode := after (OHandleAppendEntries (mkAEQ 1 "a" 0 0 [] 0)) foll_b.

Lemma follower_wf : node_wf follower.
Proof. apply after_wf; [apply freshNode_wf|evaluate]. Qed.

Definition follower_api : API :=
  NewHTTPHandlerWithForwarding false (Some (NewLeaderForwarder "b" {["a" := "http://a:8001"]})).

#[local] Opaque follower.

Lemma follower_untouched_witness :
  ∃ n sm w pc, serve follower_api put_k (steps 6) follower kv_disk = Ret (n, sm, w, pc) ∧
    n = follower ∧ sm = kv_disk.
Proof.
  destruct (serve follower_api put_k (steps 6) follower kv_disk) as [[[[n sm] w] pc]|] eqn:E;
    [|vm_compute in E; discriminate E].
  exists n, sm, w, pc. split; [reflexivity|].
  apply (follower_untouched follower_api put_k (steps 6) follower kv_disk n sm w pc).
  - exact follower_wf.
  - vm_compute. reflexivity.
  - vm_compute. discriminate.
  - exact (proj1 (steps_here 6)).
  - exact E.
Defined.

(** The answer of "a" to a PUT of "k": 204, with a header and no body. *)
Definition no_content : httpResponse :=
  mkHttpResponse StatusNoContent {["Date" := ["Thu, 01 Jan 1970 00:00:00 GMT"]]} (mkStream [] None).

Lemma forwarded_request_witness :
  serve follower_api put_k (replicate 6 (Step None)) follower kv_disk =
    Ret (follower, kv_disk, newWriter, HForward "a" "PUT" "http://a:8001/kv/k" [x01; x02]) ∧
  ∃ w, serve follower_api put_k (replicate 6 (Step None) ++ [Recv (EvForwarded (inl no_content))])
         follower kv_disk = Ret (follower, kv_disk, w, HDone) ∧
    rw_sent w = Some (StatusNoContent, hr_Header no_content) ∧ rw_body w = [].
Proof.
  apply (forwarded_request follower_api (NewLeaderForwarder "b" {["a" := "http://a:8001"]}) "k"
    MethodPut [x01; x02] "http://a:8001" ("http://a:8001" : @URL textURL) StatusNoContent
    (hr_Header no_content) [] follower kv_disk).
  - reflexivity.
  - vm_compute. reflexivity.
  - reflexivity.
  - reflexivity.
  - vm_compute. discriminate.
  - vm_compute. discriminate.
  - vm_compute. discriminate.
  - exact k_path_key.
  - right. left.
  - vm_compute. discriminate.
  - split; vm_compute; discriminate.
Defined.
