(* ===== verification/MainTheorems.v ===== *)
(** * MainTheorems: the process around the node (src/cmd/node/main.go)

    A round of the apply loop, what a restart finds after it, and the peer list of
    the command line. *)
From S2P Require Import Prelude GoStrings Types Membership JsonString Json JsonCodec.
From S2P Require Import MembershipCodec Bolt KVCommand KVStateMachine BoltStore Node NodeInv.
From S2P Require Import Election Heartbeat Proposal NodeStep Replication Applying ApplyLoop Restart.
From S2P Require Import KVRun Main Grpc GrpcDial Process Instances Cluster Scenario.

Section round.
Context {St : Type} `{!StableStore St} `{!MembershipJSON}.
Context {SM : Type} `{!SnapshotStateMachine SM} `{!ApplySections SM}.

(** A round of the apply loop that nothing interrupts ends within [round_fuel]
    critical sections, four for each entry that is not applied and four more, and keeps
    the invariant. It ends with an error, or it waits
    for the next commit with every committed entry applied in log order, and then
    the snapshot it stored, if the log had grown enough, is the one of the state
    machine after exactly the entries it claims to cover. *)
Theorem apply_round (n : RaftNode St) (sm : SM) :
  node_wf n → last_index n + snapshotThresholdEntries < two64 →
  ∃ m n' sm' pc, applyRound (round_fuel n) (LApply AFetch) n sm = Ret (n', sm', pc) ∧
    loop_rests pc ∧ node_wf n' ∧ node_wf m ∧ same_log m n ∧ round_end n sm m n' sm' pc.
Proof. apply applyRound_spec. Qed.

End round.

Section restart.
Context {St : Type} `{!StableStore St} `{!MembershipJSON}.
Context (storable : PersistentState → Prop) `{!StableStoreLaws St storable}.
Context {DB : Type} `{!BoltDB DB} (tx_view : Tx → bolt_view) `{!BoltLaws DB tx_view} `{!MapRange}.
Implicit Types n m : RaftNode St.

(** The node an undisturbed round leaves when it stored a snapshot. *)
Lemma round_snapshot fuel n n' (sm sm' : KVStateMachine DB) :
  node_wf n → last_index n + snapshotThresholdEntries < two64 →
  applyRound fuel (LApply AFetch) n sm = Ret (n', sm', LWait) →
  n'.(lastIncludedIndex) ≠ n.(lastIncludedIndex) →
  ∃ m b, KVStateMachine.Snapshot sm' = inl b ∧ persistLocked (compacted m b) = (n', None).
Proof using Type.
  intros Hwf Hb Hr Hne.
  destruct (applyRound_spec n sm Hwf Hb) as (m & n1 & sm1 & pc & E & Hrest & _ & _ & Hs & Hend).
  apply (applyRound_more _ (round_fuel n)) in Hr; [|done].
  apply (applyRound_more _ fuel) in E; [|done]. rewrite Nat.add_comm, Hr in E. simplify_eq. destruct Hend as (_ & [[_ ->]|(_ & b & ? & ?)]); [|by exists m, b].
  destruct Hne. by destruct Hs as (_ & -> & _).
Qed.

(** A store that acknowledged a node gives it back. *)
Lemma persisted_restart m n' st peers0 :
  persistLocked m = (n', None) → n'.(store) = Some st → storable (persistentOf n') →
  ∃ r, NewRaftNode n'.(nodeID) peers0 (Some st) = inl r ∧ restored_from peers0 n' r.
Proof using All.
  intros Hp Hst Hok. destruct (NewRaftNode_restores n' peers0 st) as (r & ? & _ & ?); [|by exists r].
  unfold persistLocked in Hp. destruct (store m) as [s0|] eqn:Hs0; [|congruence].
  destruct (Types.Save (persistentOf m) s0) as [s' err] eqn:Hs. simplify_eq.
  injection Hst as ->. eapply Save_ok; [exact Hok|exact Hs].
Qed.

(** C28. A restart after a snapshot. When a round of the apply loop ran with nobody
    else on the node and the state machine, from ApplyCommitted to the select, and has
    stored a snapshot, and the process starts again from that store, over any key-value
    database, the node has the log and positions it had, counts as applied what
    it had applied, and the state machine holds the same map as before, in memory
    and on disk. When a handler applies an entry inside the round this fails: see
    [late_compaction_loses_write]. *)
Theorem restart_after_round fuel n n' (sm sm' : KVStateMachine DB) st peers0 db r s :
  node_wf n → last_index n + snapshotThresholdEntries < two64 →
  applyRound fuel (LApply AFetch) n sm = Ret (n', sm', LWait) →
  n'.(lastIncludedIndex) ≠ n.(lastIncludedIndex) →
  n'.(store) = Some st → storable (persistentOf n') → utf8_keys (kv_data sm') →
  startup n'.(nodeID) peers0 st db = inl (r, s) →
  restored_from peers0 n' r ∧ r.(lastApplied) = n'.(lastApplied) ∧
  kv_data s = kv_data sm' ∧ mirrored tx_view s.
Proof using All.
  intros Hwf Hb Hr Hne Hst Hok Hk Hup.
  destruct (round_snapshot fuel n n' sm sm' Hwf Hb Hr Hne) as (m & b & Hsn & Hp).
  destruct (persisted_restart _ n' st peers0 Hp Hst Hok) as (r' & Hr' & Hres).
  destruct (persistLocked_eq (compacted m b)) as (s1 & e & E). rewrite E in Hp.
  assert (snapshot n' = b ∧ lastIncludedIndex n' = lastApplied n') as [Hb' Hi] by (by simplify_eq).
  destruct (startup_restores tx_view _ _ _ _ _ _ _ _ _ Hr'
    (eq_trans (proj1 (proj2 (proj2 (proj2 (proj2 (proj2 (proj2 Hres))))))) Hb') Hk Hsn Hup)
    as (-> & ? & ?).
  split_and!; try done. rewrite <-Hi. by destruct Hres as (?&?&?&?&?&?&?&?&?&?&?&?&?&?&_).
Qed.

End restart.

(** The peer list of the command line. A list that parses names every peer
    once, gives each named peer an address and addresses to no one else, and no
    name or address is empty. *)
Theorem parsePeers_distinct value ids addrs :
  parsePeers value = inl (ids, addrs) →
  NoDup ids ∧ (∀ id, id ∈ ids ↔ is_Some (addrs !! id)) ∧
  (∀ id addr, addrs !! id = Some addr → id ≠ "" ∧ addr ≠ "").
Proof. apply parsePeers_ok. Qed.

(** ** Witnesses *)

(** "a" and its state machine after one round, which takes a snapshot. *)
Definition rounded : memNode * KVStateMachine memDB :=
  match applyRound (round_fuel lead_many) (LApply AFetch) lead_many kv_disk with Ret r => r.1 | Panic => (lead_many, kv_disk) end.

Definition rounded_store : memStore := default emptyStore rounded.1.(store).

(** A start of the process over that store and an empty key-value database. *)
Definition restarted : memNode * KVStateMachine memDB :=
  match startup "a" ["b"; "c"] rounded_store (∅ : memDB) with inl r => r | inr _ => rounded end.

#[local] Opaque rounded rounded_store restarted lead_many.

Lemma rounded_eq : applyRound (round_fuel lead_many) (LApply AFetch) lead_many kv_disk = Ret (rounded.1, rounded.2, LWait).
Proof. vm_compute. reflexivity. Qed.

Lemma restarted_eq :
  startup rounded.1.(nodeID) ["b"; "c"] rounded_store (∅ : memDB) = inl (restarted.1, restarted.2).
Proof. vm_compute. reflexivity. Qed.

Lemma rounded_keys : utf8_keys (kv_data rounded.2).
Proof.
  assert (kv_data rounded.2 = {["k" := [x01]]}) as -> by (vm_compute; reflexivity).
  intros k v [<- _]%lookup_singleton_Some. reflexivity.
Qed.

Lemma Ret_triple {A B C} (a a' : A) (b b' : B) (c c' : C) :
  Ret (a, b, c) = Ret (a', b', c') → a' = a ∧ b' = b ∧ c' = c.
Proof. by intros [= -> -> ->]. Qed.

Lemma lead_many_bound : last_index lead_many + snapshotThresholdEntries < two64.
Proof. vm_compute. reflexivity. Qed.

Lemma apply_round_witness :
  ∃ b n, KVStateMachine.Snapshot rounded.2 = inl b ∧ persistLocked (compacted n b) = (rounded.1, None).
Proof.
  destruct (apply_round lead_many kv_disk lead_many_wf lead_many_bound)
    as (m & n' & sm' & pc & E & _ & _ & _ & Hs & Hend).
  rewrite rounded_eq in E. apply Ret_triple in E as (-> & -> & ->).
  destruct Hend as (_ & [[_ E]|(_ & b & Hb & Hp)]).
  - exfalso. destruct Hs as (_ & Hi & _). rewrite <-E in Hi. vm_compute in Hi. discriminate Hi.
  - exists b, m. split; [exact Hb|exact Hp].
Defined.

Lemma restart_after_round_witness :
  lastApplied restarted.1 = lastApplied rounded.1 ∧ kv_data restarted.2 = kv_data rounded.2.
Proof.
  destruct (restart_after_round ps_storable mem_view (round_fuel lead_many) lead_many rounded.1 kv_disk rounded.2
    rounded_store ["b"; "c"] (∅ : memDB) restarted.1 restarted.2) as (_ & Ha & Hd & _).
  - exact lead_many_wf.
  - exact lead_many_bound.
  - exact rounded_eq.
  - vm_compute. discriminate.
  - vm_compute. reflexivity.
  - apply (bool_decide_unpack _). vm_compute. exact I.
  - exact rounded_keys.
  - exact restarted_eq.
  - split; [exact Ha|exact Hd].
Defined.

Definition two_peers : string := "n2=localhost:9002, n3 = localhost:9003".

Lemma parsePeers_distinct_witness : NoDup ["n2"; "n3"] ∧ "localhost:9003" ≠ "".
Proof.
  destruct (parsePeers_distinct two_peers ["n2"; "n3"]
    (<["n2" := "localhost:9002"]> (<["n3" := "localhost:9003"]> ∅))) as (Hnd & _ & Hne).
  - vm_compute. reflexivity.
  - split; [exact Hnd|]. apply (Hne "n3"). vm_compute. reflexivity.
Defined.

(** ** The process *)

Section process.
Context `{!MembershipJSON} {DB : Type} `{!BoltDB DB} `{!MapRange} `{!Dialer}.


(** The databases of a node whose id has no slash are two files of the directory data. *)
Theorem default_paths (id : string) :
  (slash ∉ bytes_of_string id) →
  let store := bytes_of_string (dataPath "" id ".db") in
  let kv := bytes_of_string (dataPath "" id "-kv.db") in
  store = under_data (bytes_of_string (id +:+ ".db")) ∧
  kv = under_data (bytes_of_string (id +:+ "-kv.db")) ∧
  Dir store = bytes_of_string "data" ∧ Dir kv = bytes_of_string "data" ∧ store ≠ kv.
Proof.
  intros Hs. cbv zeta.
  assert (Hone : ∀ suffix, (slash ∉ bytes_of_string suffix) → (2 < length (bytes_of_string suffix))%nat →
    bytes_of_string (dataPath "" id suffix) = under_data (bytes_of_string (id +:+ suffix)) ∧
    Dir (bytes_of_string (dataPath "" id suffix)) = bytes_of_string "data").
  { intros suffix Hx Hl. unfold dataPath. rewrite bool_decide_eq_true_2 by done.
    rewrite bytes_of_string_of_bytes.
    destruct (Join_data (bytes_of_string (id +:+ suffix))) as [-> Hd]; [..|done].
    - rewrite bytes_of_string_app. intros [?|?]%elem_of_app; done.
    - rewrite bytes_of_string_app, length_app. lia. }
  destruct (Hone ".db") as [E1 D1]; [by apply (bool_decide_unpack _); vm_compute|cbn; lia|].
  destruct (Hone "-kv.db") as [E2 D2]; [by apply (bool_decide_unpack _); vm_compute|cbn; lia|].
  split_and!; [done|done|done|done|]. rewrite E1, E2. unfold under_data. rewrite !bytes_of_string_app.
  intros E%(f_equal length). rewrite !length_app in E. cbn in E. rewrite !length_app in E. cbn in E. lia.
Qed.

End process.
