(* ===== verification/Races.v ===== *)
(** * Races: executions in which the code does not keep its promises

    Closed theorems about concrete executions, one per divergence: each runs the
    modelled operations in an order the program allows. *)
From S2P Require Import Prelude GoStrings Types Membership JsonString Json JsonCodec.
From S2P Require Import MembershipCodec Bolt KVCommand KVStateMachine BoltStore Node NodeInv.
From S2P Require Import Election Heartbeat Proposal NodeStep Replication Applying Restart.
From S2P Require Import Timers ApplyLoop HttpLib Http Main Instances Cluster Scenario.

(** ** ApplyCommitted beside itself *)

Section apply.
Context {St : Type} `{!StableStore St} `{!MembershipJSON} {SM : Type}.
Context `{!StateMachine SM} `{!ApplySections SM}.

(** Two callers, scheduled step by step: [true] lets the first one move. *)
Fixpoint interleave (sched : list bool) (pc1 pc2 : applyPC) (n : RaftNode St) (sm : SM)
    : go (RaftNode St * SM * (applyPC * applyPC)) :=
  match sched with
  | [] => Ret (n, sm, (pc1, pc2))
  | true :: sched =>
      r ← applyStep pc1 n sm; interleave sched r.2 pc2 r.1.1 r.1.2
  | false :: sched =>
      r ← applyStep pc2 n sm; interleave sched pc1 r.2 r.1.1 r.1.2
  end.
End apply.

(** "a" leads with two committed writes of the same key. *)
Definition lead_two : memNode :=
  after (ORecordReplicationSuccess "b" 2)
    (after (OAppendLocal (kv_bytes (set_k x02)))
      (after (OAppendLocal (kv_bytes (set_k x01))) lead_a0)).

Definition kv_empty : KVStateMachine memDB := mkKV ∅ None.

(** Both callers fetch entry 1; the first one applies and marks entries 1 and 2, in four
    sections each, and is done; then the second one applies and marks entry 1. *)
Definition race_schedule : list bool :=
  [true; false] ++ [true; true; true; true; true; true; true; true] ++ [false; false; false; false].

(** C33. Two callers of ApplyCommitted on one node and one state machine can apply
    the same entry twice and out of order: here both end without error, both
    entries count as applied, and the machine holds the older value of the key,
    not the one the log ends with. *)
Theorem concurrent_apply_reorders :
  match interleave race_schedule AFetch AFetch lead_two kv_empty with
  | Ret (n, sm, (pc1, pc2)) =>
      pc1 = ADone None ∧ pc2 = ADone None ∧ n.(lastApplied) = 2 ∧ n.(commitIndex) = 2 ∧
      kv_data sm !! "k" = Some [x01] ∧
      kv_run ∅ [set_k x01; set_k x02] !! "k" = Some [x02]
  | Panic => False
  end.
Proof. vm_compute. repeat split; reflexivity. Qed.

(** ** Proposing beside a change of leader *)

(** "c" leads term 2 with one entry of its own. *)
Definition lead_c : memNode :=
  after (OAppendLocal put_y)
    (after (OPromote 2)
      (after OBecomeCandidate (after OBecomeCandidate (freshNode "c" ["a"; "b"])))).

(** The node after a critical section of a proposal, and where the proposal is. *)
Definition propose_at (command : bytes) (pc : proposePC) (n : memNode) : memNode * proposePC :=
  match proposeStep false None command pc n with Ret r => r | Panic => (n, pc) end.

(** The check of the role, on the leader "a" of term 1. *)
Definition checked_a : proposePC := (propose_at put_x PState lead_a0).2.

(** A heartbeat of "c" turns "a" into its follower. *)
Definition deposed_a : memNode :=
  after (OHandleAppendEntries (mkAEQ 2 "c" 0 0 [] 0)) lead_a0.

(** The append that follows the check runs on the follower. *)
Definition appended_a : memNode := (propose_at put_x checked_a deposed_a).1.

(** "c" replicates its entry to "a", and "b" has confirmed it: it is committed. *)
Definition committed_c : memNode := after (ORecordReplicationSuccess "b" 1) lead_c.

Definition followed_a : memNode :=
  match BuildAppendEntries "a" committed_c with
  | Ret (inl req) => after (OHandleAppendEntries req) appended_a
  | _ => appended_a
  end.

(** C30. A proposal checks its role and appends its entry in two critical
    sections. Between them "a" can lose its leadership: it then stores its command
    under the new leader's term, the consistency check cannot tell the two entries
    of that term apart, and both nodes end with different commands committed at
    index 1. *)
Theorem propose_race_diverges :
  checked_a = PAppend ∧ deposed_a.(state) = Follower ∧ followed_a.(leaderID) = "c" ∧
  followed_a.(commitIndex) = 1 ∧ committed_c.(commitIndex) = 1 ∧
  entry_at followed_a 1 = Some (mkEntry 2 1 put_x) ∧
  entry_at committed_c 1 = Some (mkEntry 2 1 put_y).
Proof. vm_compute. repeat split; reflexivity. Qed.

(** "a" has proposed its command and waits for a replication round; meanwhile "c"
    wins term 2 and overwrites index 1 with its own committed entry. *)
Definition waiting_a : memNode * proposePC := propose_at put_x PAppend lead_a0.

Definition overwritten_a : memNode :=
  match BuildAppendEntries "a" committed_c with
  | Ret (inl req) => after (OHandleAppendEntries req) waiting_a.1
  | _ => waiting_a.1
  end.

(** C31. A proposal looks only at the commit index: it reports success for a
    command that a new leader has overwritten and that is no longer in the log. *)
Theorem overwritten_proposal_acknowledged :
  waiting_a.2 = PCommitted (mkEntry 1 1 put_x) ∧
  (propose_at put_x waiting_a.2 waiting_a.1).2 = PLeader (mkEntry 1 1 put_x) ∧
  (propose_at put_x waiting_a.2 overwritten_a).2 = PDone (mkEntry 1 1 put_x) None ∧
  entry_at overwritten_a 1 = Some (mkEntry 2 1 put_y).
Proof. vm_compute. repeat split; reflexivity. Qed.

(** ** Membership and votes *)

Definition apply_change (ty id : string) (i : Z) (n : memNode) : memNode :=
  after (OApplyCommittedMembershipChange (mkChange ty id) i) n.

Definition change_b (ty : string) : bytes :=
  match EncodeMembershipChange (mkChange ty "b") with inl b => b | inr _ => [] end.

(** The request of a leader to [p], handled by [n]. *)
Definition handle_from (p : string) (lead n : memNode) : memNode :=
  match BuildAppendEntries p lead with
  | Ret (inl req) => after (OHandleAppendEntries req) n
  | _ => n
  end.

Definition apply_all (n : memNode) : memNode :=
  match ApplyCommitted n kv_empty with Ret (n, _, _) => n | Panic => n end.

(** "a" wins term 1 with the vote of "b", appends the removal of "b", commits it with
    "b"'s own answer and applies it. *)
Definition term1_b : memNode * (RequestVoteResponse * error) := RequestVote vote_a foll_b.

Definition removing_a : memNode := after (OAppendLocal (change_b "remove_peer")) lead_a0.

Definition removing_b : memNode := handle_from "b" removing_a term1_b.1.

Definition removed_a : memNode := apply_all (after (ORecordReplicationSuccess "b" 1) removing_a).

(** It adds "b" again, commits that with "c" and applies it; then it catches up "b",
    whose apply loop has not run yet. *)
Definition adding_a : memNode := after (OAppendLocal (change_b "add_peer")) removed_a.

Definition adding_c : memNode := handle_from "c" adding_a (freshNode "c" ["a"; "b"]).

Definition added_a : memNode := apply_all (after (ORecordReplicationSuccess "c" 2) adding_a).

Definition backed_a : memNode := after (ORecordReplicationFailure "b") added_a.

Definition adding_b : memNode := handle_from "b" backed_a (handle_from "b" added_a removing_b).

(** "a" restarts. *)
Definition restarted_a : memNode :=
  match backed_a.(store) with
  | Some st => match NewRaftNode "a" ["b"; "c"] (Some st) with inl n => n | inr _ => backed_a end
  | None => backed_a
  end.

(** An election of [n] that only "b" answers: to the pre-vote as [pre], to the request
    for its vote later, as [voter]. *)
Definition ask_b (n voter : memNode) : memNode * (RequestVoteResponse * error) :=
  RequestVote (mkRVQ (n.(currentTerm) + 1) n.(nodeID) (lastLogIndexLocked n) (lastLogTermLocked n)) voter.

Definition elect_by_b (n pre voter : memNode) : go (memNode * electionPC) :=
  StartElection false
    [Result "b" (inl (PreVote (mkPVQ (n.(currentTerm) + 1) n.(nodeID) (lastLogIndexLocked n)
                                (lastLogTermLocked n)) pre).1)]
    [Result "b" (inl (ask_b n voter).2.1)] n.

(** "a" and "c" both win their pre-vote for term 2. "b" votes for "c", then applies its
    removal and its return, and is asked by "a". *)
Definition voted_b : memNode := (ask_b adding_c adding_b).1.

Definition readded_b : memNode := apply_all voted_b.

(** C35. Applying its own removal clears a node's vote of the current term. "b" has its
    removal and its return in its log, both committed, and votes for "c" in term 2
    before its apply loop gets to them; once it has applied them it votes for "a" in the
    same term, and "c" and "a" are both elected leaders of term 2. *)
Theorem second_vote_after_readd :
  rvr_VoteGranted term1_b.2.1 = true ∧
  adding_b.(commitIndex) = 2 ∧ adding_b.(lastApplied) = 0 ∧ added_a.(lastApplied) = 2 ∧
  (ask_b adding_c adding_b).2 = (mkRVR 2 true, None) ∧ voted_b.(votedFor) = "c" ∧
  readded_b.(currentTerm) = 2 ∧ readded_b.(lastApplied) = 2 ∧ readded_b.(selfMember) = true ∧
  (ask_b restarted_a readded_b).2 = (mkRVR 2 true, None) ∧
  match elect_by_b adding_c adding_b adding_b, elect_by_b restarted_a adding_b readded_b with
  | Ret (c, pc), Ret (a, pc') =>
      pc = EDone true None ∧ c.(state) = Leader ∧ c.(currentTerm) = 2 ∧ c.(nodeID) = "c" ∧
      pc' = EDone true None ∧ a.(state) = Leader ∧ a.(currentTerm) = 2 ∧ a.(nodeID) = "a"
  | _, _ => False
  end.
Proof. split_and!; vm_compute; repeat split; reflexivity. Qed.

(** "a" removes its last peer, which is stored as no list at all. *)
Definition alone_a : memNode := apply_change "remove_peer" "b" 0 (freshNode "a" ["b"]).

(** C36. An empty peer list is stored as no list at all: after a restart with the
    same command line the removed peer is back. *)
Theorem removed_peer_returns :
  alone_a.(peers) = [] ∧
  match alone_a.(store) with
  | Some s =>
      match NewRaftNode "a" ["b"] (Some s) with
      | inl n => n.(peers) = ["b"] ∧ n.(membershipConfigured) = true
      | inr _ => False
      end
  | None => False
  end.
Proof. vm_compute. repeat split; reflexivity. Qed.

(** ** Malformed requests *)

(** "b" after a request that names a position beyond its log with term 0. *)
Definition gap_b : memNode :=
  after (OHandleAppendEntries (mkAEQ 1 "a" 5 0 [mkEntry 1 6 put_x] 0)) foll_b.

(** C37. The term of a position beyond the log is 0, so a request that names such a
    position with term 0 passes the consistency check and leaves a gap in the log,
    and a later request makes the node panic. *)
Theorem zero_prev_term_panics :
  le_Index <$> gap_b.(log) = [6] ∧
  HandleAppendEntries (mkAEQ 1 "a" 3 1 [] 0) gap_b = Panic.
Proof. vm_compute. split; reflexivity. Qed.

(** ** A snapshot beside an HTTP handler *)

(** The apply loop of "a" until it holds a snapshot and is about to store it: four
    sections for each of its 64 entries, a last fetch, the threshold and the snapshot. *)
Definition loop_at (n : memNode) (sm : KVStateMachine memDB)
    : memNode * KVStateMachine memDB * applyLoopPC :=
  match applyRound (4 * 64 + 3) (LApply AFetch) n sm with Ret r => r | Panic => (n, sm, LWait) end.

Definition snapshotted : memNode * KVStateMachine memDB * applyLoopPC := loop_at lead_many kv_disk.

(** Meanwhile a handler appends a write, "b" confirms it, and the handler applies
    it before it answers. *)
Definition handle_write (n : memNode) (sm : KVStateMachine memDB) : memNode * KVStateMachine memDB :=
  let n := after (ORecordReplicationSuccess "b" 65) (after (OAppendLocal (kv_bytes (set_k x02))) n) in
  match ApplyCommitted n sm with
  | Ret (n, sm, None) => (n, sm)
  | _ => (n, kv_empty)
  end.

Definition handled : memNode * KVStateMachine memDB := handle_write snapshotted.1.1 snapshotted.1.2.

(** The loop goes on and stores the snapshot it holds. *)
Definition loop_step (pc : applyLoopPC) (n : memNode) (sm : KVStateMachine memDB)
    : memNode * KVStateMachine memDB * applyLoopPC :=
  match applyLoopStep pc n sm with Ret r => r | Panic => (n, sm, LWait) end.

Definition compacted_late : memNode * KVStateMachine memDB * applyLoopPC :=
  loop_step snapshotted.2 handled.1 handled.2.

(** The process starts again from its two databases. *)
Definition start_again (n : memNode) (sm : KVStateMachine memDB)
    : option (memNode * KVStateMachine memDB) :=
  match n.(store), kv_db sm with
  | Some st, Some db =>
      match startup "a" ["b"; "c"] st db with inl r => Some r | inr _ => None end
  | _, _ => None
  end.

Definition started_again : option (memNode * KVStateMachine memDB) :=
  start_again compacted_late.1.1 compacted_late.1.2.

(** C34. The apply loop takes the snapshot of the state machine and compacts the
    log in two critical sections. An HTTP handler can apply an entry in between:
    the compaction then drops an entry the snapshot does not contain. After a
    restart the node counts entry 65 as applied and no longer has it in its log,
    and the state machine has lost the write, also on disk, where it had been. *)
Theorem late_compaction_loses_write :
  lastApplied handled.1 = 65 ∧ kv_data handled.2 !! "k" = Some [x02] ∧
  compacted_late.2 = LWait ∧ compacted_late.1.1.(lastIncludedIndex) = 65 ∧
  match started_again with
  | Some (n, sm) =>
      n.(lastApplied) = 65 ∧ entry_at n 65 = None ∧ kv_data sm !! "k" = Some [x01] ∧
      (kv_db sm ≫= λ db, db !! kvBucket ≫= λ m, m !! "k") = Some [x01]
  | None => False
  end.
Proof. vm_compute. repeat split; reflexivity. Qed.

(** ** Answers that arrive late *)

(** The answer of a follower to a request of a round. *)
Definition answer_of (p : string) (pc : replicatePC) (n : memNode) : memNode * AppendEntriesResponse :=
  match pc with
  | RWait reqs =>
      match take_request p reqs with
      | Some (r, _) =>
          match HandleAppendEntries (ar_req r) n with
          | Ret (n, (resp, _)) => (n, resp)
          | Panic => (n, mkAER 0 false)
          end
      | None => (n, mkAER 0 false)
      end
  | _ => (n, mkAER 0 false)
  end.

(** A round until it waits or ends, and a waiting round that receives [resp]. *)
Definition round_at (pc : replicatePC) (n : memNode) : memNode * replicatePC :=
  match runReplicate 12 0 [] pc n with Ret r => r | Panic => (n, pc) end.

Definition receive (p : string) (resp : AppendEntriesResponse) (pc : replicatePC) (n : memNode)
    : memNode * replicatePC := round_at (replicateRecv pc (Result p (inl resp))) n.

(** Five nodes. "a" leads term 1 with two entries and sends them out; "b" stores
    them, and its answer is under way. *)
Definition five_a1 : memNode :=
  after (OAppendLocal put_x) (after (OAppendLocal put_x)
    (after (OPromote 1) (after OBecomeCandidate (freshNode "a" ["b"; "c"; "d"; "e"])))).

Definition old_round : memNode * replicatePC := round_at REnsure five_a1.

Definition five_b : memNode * AppendEntriesResponse :=
  answer_of "b" old_round.2 (freshNode "b" ["a"; "c"; "d"; "e"]).

(** "c" wins term 2 with the votes of "d" and "e" and gives "a" and "d" an entry of
    its own. *)
Definition vote_c : RequestVoteRequest := mkRVQ 2 "c" 0 0.

Definition five_d1 : memNode * (RequestVoteResponse * error) :=
  RequestVote vote_c (freshNode "d" ["a"; "b"; "c"; "e"]).

Definition five_e1 : memNode * (RequestVoteResponse * error) :=
  RequestVote vote_c (freshNode "e" ["a"; "b"; "c"; "d"]).

Definition five_c : memNode :=
  after (OAppendLocal put_y) (after (OPromote 2)
    (after OBecomeCandidate (after OBecomeCandidate (freshNode "c" ["a"; "b"; "d"; "e"])))).

Definition round_c : memNode * replicatePC := round_at REnsure five_c.

Definition five_a2 : memNode * AppendEntriesResponse := answer_of "a" round_c.2 old_round.1.

Definition fed_d : memNode * AppendEntriesResponse := answer_of "d" round_c.2 five_d1.1.

(** "a" wins term 3 with the votes of "d" and "e", appends [put_x] at index 2, and
    "d" stores it. *)
Definition vote_a3 : RequestVoteRequest := mkRVQ 3 "a" 1 2.

Definition five_d2 : memNode * (RequestVoteResponse * error) := RequestVote vote_a3 fed_d.1.

Definition five_e2 : memNode * (RequestVoteResponse * error) := RequestVote vote_a3 five_e1.1.

Definition five_a3 : memNode :=
  after (OAppendLocal put_x) (after (OPromote 3) (after OBecomeCandidate five_a2.1)).

Definition new_round : memNode * replicatePC := round_at REnsure five_a3.

Definition five_d3 : memNode * AppendEntriesResponse := answer_of "d" new_round.2 five_d2.1.

Definition confirmed_d : memNode * replicatePC := receive "d" five_d3.2 new_round.2 new_round.1.

(** Now the answer of "b" reaches the round of term 1. *)
Definition late_answer : memNode * replicatePC :=
  receive "b" five_b.2 old_round.2 confirmed_d.1.

(** "c" asks for votes in term 4. *)
Definition vote_c4 : RequestVoteRequest := mkRVQ 4 "c" 1 2.

(** C32. A round records an answer whatever has happened since its request was sent.
    Here "a" has lost its leadership and won it back while an answer of "b" was under
    way; the answer to the request of term 1 then counts for an entry of term 3, which
    "a" reports as committed although only "a" and "d" of the five nodes have it, and
    the other three can elect "c", which has not. *)
Theorem late_answer_commits :
  rvr_VoteGranted five_d1.2.1 = true ∧ rvr_VoteGranted five_e1.2.1 = true ∧
  rvr_VoteGranted five_d2.2.1 = true ∧ rvr_VoteGranted five_e2.2.1 = true ∧
  aer_Success five_b.2 = true ∧ aer_Success five_a2.2 = true ∧ aer_Success fed_d.2 = true ∧
  aer_Success five_d3.2 = true ∧
  confirmed_d.1.(state) = Leader ∧ confirmed_d.1.(commitIndex) = 0 ∧
  late_answer.1.(state) = Leader ∧ late_answer.1.(currentTerm) = 3 ∧
  late_answer.1.(commitIndex) = 2 ∧ entry_at late_answer.1 2 = Some (mkEntry 3 2 put_x) ∧
  entry_at five_d3.1 2 = Some (mkEntry 3 2 put_x) ∧
  entry_at five_b.1 2 = Some (mkEntry 1 2 put_x) ∧
  entry_at five_c 2 = None ∧ entry_at five_e2.1 2 = None ∧
  rvr_VoteGranted (RequestVote vote_c4 five_b.1).2.1 = true ∧
  rvr_VoteGranted (RequestVote vote_c4 five_e2.1).2.1 = true.
Proof. vm_compute. repeat split; reflexivity. Qed.

(** The heartbeat loop of "a" in term 1 until its round waits for answers. *)
Fixpoint heartbeat_at (k : nat) (pc : heartbeatPC) (n : memNode) : memNode * heartbeatPC :=
  match k with
  | O => (n, pc)
  | S k => match heartbeatStep None pc n with Ret r => heartbeat_at k r.2 r.1 | Panic => (n, pc) end
  end.

Definition ticked_a : memNode * heartbeatPC :=
  heartbeat_at 6 (heartbeatRecv (startHeartbeat false DefaultHeartbeatInterval) BTick) lead_a0.

(** A heartbeat of "c" of term 2 comes first, then the answer of "b" to "a". *)
Definition deposed_loop : memNode * heartbeatPC :=
  heartbeat_at 3
    (heartbeatRecv ticked_a.2 (BResult (Result "b" (inl (mkAER 1 true)))))
    (after (OHandleAppendEntries (mkAEQ 2 "c" 0 0 [] 0)) ticked_a.1).

(** C38. A leader that is deposed while a round of its heartbeat loop is under way
    has no next index any more; the next answer to the round is then an unknown peer,
    the loop returns this error, and [run] ends with it: the process of the old leader
    exits, where it should go on as a follower. *)
Theorem deposed_leader_exits :
  match ticked_a.2 with BRound _ (RWait reqs) => ar_peerID <$> reqs = ["b"; "c"] | _ => False end ∧
  deposed_loop.1.(state) = Follower ∧ deposed_loop.1.(currentTerm) = 2 ∧
  match deposed_loop.2 with
  | BDone err => err = Some (ErrUnknownPeer "b") ∧ runResult (RunLoop err) = err
  | _ => False
  end.
Proof. vm_compute. repeat split; reflexivity. Qed.

(** ** The routes of the process *)

(** The API answers /cluster/members, and the process does not route it there:
    only the paths below /kv/ reach the API. *)
Theorem members_not_routed :
  ServeMux api_patterns "/cluster/members" = MuxHandler HandleClusterMembers ∧
  ServeMux main_patterns "/cluster/members" = MuxNotFound ∧
  ServeMux main_patterns "/cluster/members/b" = MuxNotFound.
Proof. vm_compute. repeat split; reflexivity. Qed.
