(* ===== verification/Faults.v ===== *)
(** * Faults: a disk that fails once, and rejections that come late

    Two more executions in which the code does not keep its promises. The first one
    needs a store whose [Save] fails once, which the contract of StableStore allows;
    the second one only two replication rounds at the same time. *)
From S2P Require Import Prelude GoStrings Types Membership JsonString Json JsonCodec.
From S2P Require Import MembershipCodec Bolt BoltStore Node NodeInv.
From S2P Require Import Election Heartbeat Proposal NodeStep Replication Restart.
From S2P Require Import KVCommand KVStateMachine Instances Scenario.

(** ** A store whose next write fails *)

Record FlakyStore := mkFlaky { fk_failing : bool; fk_state : PersistentState }.

Definition flaky_save (ps : PersistentState) (st : FlakyStore) : FlakyStore * error :=
  if fk_failing st then (mkFlaky false (fk_state st), Some (ErrExternal "no space left on device"))
  else (mkFlaky false ps, None).

#[export] Instance flakyStore : StableStore FlakyStore := {
  Save := flaky_save;
  Load st := inl (fk_state st);
}.

#[export] Instance flakyStore_laws : StableStoreLaws FlakyStore (λ _, True).
Proof.
  split; cbn; unfold flaky_save.
  - intros ps st st' _. destruct (fk_failing st); [done|]. by intros [= <-].
  - intros ps st st' e. destruct (fk_failing st); [|done]. by intros [= <- _].
Qed.

Abbreviation flakyNode := (RaftNode FlakyStore).

Definition flaky_fresh (id : string) (ps : list string) (failing : bool) : flakyNode :=
  match NewRaftNode id ps (Some (mkFlaky failing zeroPS)) with
  | inl n => n
  | inr _ => mkNode id ps true true Follower "" 0 "" [] 0 0 0 0 [] None None None false
  end.

(** The node and the result of an append request. *)
Definition handle {St} `{!StableStore St} (req : AppendEntriesRequest) (n : RaftNode St)
    : RaftNode St * (AppendEntriesResponse * error) :=
  match HandleAppendEntries req n with Ret r => r | Panic => (n, (mkAER 0 false, None)) end.

Definition request {St} `{!StableStore St} (p : string) (n : RaftNode St) : AppendEntriesRequest :=
  match BuildAppendEntries p n with Ret (inl req) => req | _ => mkAEQ 0 "" 0 0 [] 0 end.

Definition flaky_after (op : nodeOp) (n : flakyNode) : flakyNode :=
  match exec op n with Ret n' => n' | Panic => n end.

(** "a" leads term 1 with one write. *)
Definition fk_lead : flakyNode :=
  flaky_after (OAppendLocal put_x)
    (flaky_after (OPromote 1) (flaky_after OBecomeCandidate (flaky_fresh "a" ["b"; "c"] false))).

(** "b" receives it twice; the write of the first time fails. *)
Definition fk_first : flakyNode * (AppendEntriesResponse * error) :=
  handle (request "b" fk_lead) (flaky_fresh "b" ["a"; "c"] true).

Definition fk_second : flakyNode * (AppendEntriesResponse * error) :=
  handle (request "b" fk_lead) fk_first.1.

(** The answer to the second request commits the write. *)
Definition fk_committed : flakyNode := flaky_after (ORecordReplicationSuccess "b" 1) fk_lead.

(** "b" restarts from its disk, and stands for election in term 2. *)
Definition fk_restarted : flakyNode :=
  match fk_second.1.(store) with
  | Some st => match NewRaftNode "b" ["a"; "c"] (Some st) with inl n => n | inr _ => fk_second.1 end
  | None => fk_second.1
  end.

Definition fk_candidate : flakyNode :=
  flaky_after OBecomeCandidate (flaky_after OBecomeCandidate fk_restarted).

(** "c", which voted for "a" in term 1 and has no entry, votes for it. *)
Definition fk_voter : flakyNode :=
  (RequestVote vote_a (flaky_fresh "c" ["a"; "b"] false)).1.

Definition fk_vote : flakyNode * (RequestVoteResponse * error) :=
  RequestVote (mkRVQ 2 "b" (lastLogIndexLocked fk_candidate) (lastLogTermLocked fk_candidate)) fk_voter.

(** "b" leads term 2, writes, and "c" stores that write. *)
Definition fk_successor : flakyNode :=
  flaky_after (ORecordReplicationSuccess "c" 1)
    (flaky_after (OAppendLocal put_y) (flaky_after (OPromote 2) fk_candidate)).

(** C39. A write that failed is not repeated. The first request fails and is answered with
    an error; the leader repeats it, the follower finds the entries in its memory,
    writes nothing and reports success, and the leader commits an entry that only its
    own disk holds. After a restart the follower has lost it, wins term 2 with the vote
    of the third node, and commits another command at the same index. *)
Theorem unsaved_append_acknowledged :
  is_Some fk_first.2.2 ∧ fk_second.2 = (mkAER 1 true, None) ∧
  (fk_committed.(commitIndex) = 1 ∧ entry_at fk_committed 1 = Some (mkEntry 1 1 put_x)) ∧
  fk_restarted.(log) = [] ∧ fk_vote.2 = (mkRVR 2 true, None) ∧
  fk_successor.(state) = Leader ∧ fk_successor.(currentTerm) = 2 ∧
  fk_successor.(commitIndex) = 1 ∧ entry_at fk_successor 1 = Some (mkEntry 2 1 put_y).
Proof. vm_compute. repeat split; try reflexivity. by eexists. Qed.

(** ** Late rejections *)

(** "a" leads term 2 with three entries, of which the first is in its snapshot. *)
Definition lr_lead : memNode :=
  after (OPromote 2)
    (after OBecomeCandidate
      (after (OAppendLocal put_x)
        (after (OCompact put_y)
          (after (OMarkApplied 1) (after (ORecordReplicationSuccess "b" 2) lead_a))))).

(** "b" holds the first two entries, both in its snapshot. *)
Definition lr_follower : memNode :=
  after (OCompact put_y)
    (after (OMarkApplied 2)
      (after (OHandleAppendEntries (mkAEQ 1 "a" 2 1 [] 2)) (handle (request "b" lead_a) foll_b).1)).

(** Two rounds are under way at once, the heartbeat's and a proposal's; "b" rejects
    both, as it has not got the third entry, and both rejections are recorded. *)
Definition lr_rejected : memNode * (AppendEntriesResponse * error) :=
  handle (request "b" lr_lead) lr_follower.

Definition lr_stuck : memNode :=
  after (ORecordReplicationFailure "b") (after (ORecordReplicationFailure "b") lr_lead).

(** C40. Two rejections of one position move the next index back twice, past the follower's
    snapshot, and it stays there: the follower cannot check a position inside its
    snapshot and rejects every request from then on, the leader cannot go back beyond
    its own snapshot, and neither changes any more. One rejection less, and the
    follower would have accepted. *)
Theorem late_rejection_strands :
  let once := after (ORecordReplicationFailure "b") lr_lead in
  let follower := lr_rejected.1 in
  aer_Success lr_rejected.2.1 = false ∧
  (handle (request "b" once) follower).2 = (mkAER 2 true, None) ∧
  (lr_stuck.(lastIncludedIndex) = 1 ∧ last_index follower = 2) ∧
  HandleAppendEntries (request "b" lr_stuck) follower = Ret (follower, (mkAER 2 false, None)) ∧
  RecordReplicationFailure "b" lr_stuck = Ret (lr_stuck, None).
Proof. cbv zeta. split_and!; vm_compute; reflexivity. Qed.
